(* ===== verification/_CoqProject ===== *)
-Q . S2P
Prelude.v
Lattice.v
CapturedBytes.v
Event.v
Builder.v
Wire.v
WireSpec.v
Bpf.v
BpfSpec.v
State.v
StateSpec.v
StateWf.v
StateHistory.v
StateTheorems.v
Aggregate.v
AggregateSpec.v
StateIter.v
Tracepoint.v
Collector.v
CollectorSystem.v
CollectorTheorems.v
Deadline.v
Panic.v
Privilege.v
PrivilegeSpec.v
Prepare.v
PrepareSpec.v
Text.v
Batch.v
BatchSpec.v
BatchCount.v
BatchReport.v
Utf8.v
Views.v
Build.v
Display.v
TuiFormat.v
Model.v
ModelSpec.v
ModelTheorems.v
Ui.v
UiRows.v
UiDraw.v
Errors.v
Main.v
MainSpec.v
Terminal.v
Tui.v
UiSpec.v
RowsSpec.v
TuiSpec.v
TuiTheorems.v
Pipeline.v
Session.v
PipelineTui.v
