(* ===== verification/Prelude.v ===== *)
(** * Verification of landlock-observability

    ** The program

    landlock-observability observes Landlock, the Linux sandboxing module. BPF
    programs (src/bpf) write one fixed-size record per kernel event into a ring
    buffer. The Rust library reads them in these steps.
    - A [Privileges] value (src/privilege.rs) reduces the thread to the two
      capabilities needed for setup, and later removes them for good.
    - [CollectorConfig::prepare] (src/collector.rs) opens, loads and attaches
      the BPF object, builds the ring, then finishes the privileges. A failed
      load is diagnosed by src/collector/tracepoint.rs.
    - The worker polls the ring, decodes each sample (src/wire.rs) into a typed
      event (src/event) and puts it in a bounded channel; the [Collector]
      receives from it and from a second channel of terminal errors.
    - The caller may replay events into a [State] (src/state.rs) and aggregate
      denials in a [DenialAggregator] (src/aggregate.rs).
    The lltop program (lltop/src) gives up its privileges, starts the worker, and
    prints both as lines ([--batch]) or shows them in a terminal.

    ** The files

    [Prelude] has what the others share: Rust's [Result] and [?], integer
    bounds and saturation, bytes, [HashMap::entry], list and bit lemmas.
    [Lattice] has the join-semilattices of the abstract state.

    [CapturedBytes] (src/event/string.rs) and [Event] (src/event/mod.rs,
    access_names.rs) have the data: checked identifiers, access masks over
    their tables of names, the twelve events as records, the traits
    [Observation] and [Denial] as classes, and validity, the invariant that
    the Rust types carry. [Builder] has the typestate builders: a chain of
    setters compiles exactly when it supplies each field once ([built_iff]).

    [Wire] (src/wire.rs) has every reader and one definition per arm of
    [decode], and the layout of src/bpf/event.h as [encode]. [WireSpec] shows
    that [decode] is exactly the inverse of the layout on valid events
    ([decode_iff], [decode_encode]), and which samples fail ([decode_errors]).

    [Bpf] (src/bpf/landlock_observability.bpf.c, vmlinux.h) has the twelve BPF
    programs as writes into a cleared record. [BpfSpec] says which event took
    place, in terms of the kernel's objects alone, and shows that what a
    program submits decodes to it ([bpf_records_decode]), when a program
    submits nothing ([bpf_submissions]), and that a denial whose creator is not
    known is refused ([unknown_creator_refused]).

    [State] (src/state.rs) has [apply], one definition per arm. [StateSpec]
    abstracts a state to facts that only grow and proves that each arm is one
    join. [StateWf] has the invariant of reachable states, [StateHistory] the
    parts that follow the latest event. [StateTheorems] states the results:
    refinement, insensitivity to order and repetition, idempotence,
    consistency, and what each field says of the history.

    [Aggregate] (src/aggregate.rs) has [observe_entry] with eviction and the
    compaction of sequence numbers; [AggregateSpec] proves that it implements
    a list in recency order, which keys it retains, and when it is exact.
    [StateIter] has the iterators of states and aggregators, which yield each
    value once whatever the order ([iterators_exact], [entries_exact]).

    [Tracepoint] (src/collector/tracepoint.rs) has the scan for the twelve
    tracepoints and when a failure counts as an unsupported kernel.

    [Collector] (src/collector.rs) has the operations of the worker and of the
    consumer on the state they share. [CollectorSystem] interleaves them as a
    step relation and proves an invariant of all runs; [CollectorTheorems]
    states what a consumer can rely on: every accepted delivery arrives in
    order, omissions are announced once, terminal errors are never lost, a
    finished collector can be drained, and a dropped one ends its worker, which
    accepts one more sample at most. [Deadline] has the clock: a timed receive
    waits twice on one budget ([recv_timeout_budget]), is a run of the
    interleaved system ([recv_timeout_is_run]), and, when its thread is not
    stopped between its looks, answers at the first moment with an answer
    ([recv_timeout_first_answer]). [Panic] has the handling of
    panics with the effect of unwinding, and shows that none escapes
    ([panics_contained]).

    [Privilege] (src/privilege.rs) has the credential transitions and the
    policy machine; [PrivilegeSpec] proves that no path continues with
    authority that was not verified gone, and that a cooperative kernel lets a
    minimized policy finish. [Prepare] has [prepare] with what each early
    return drops; [PrepareSpec] proves that failures release every resource
    and that privileges are given up exactly when all resources are ready.

    [Text] has Rust's number formats. [Batch] (lltop/src/batch.rs) has the
    lines lltop prints: [process], the statistics and every formatter.
    [BatchSpec] shows that escaping can be inverted and that each record is one
    printable line, [BatchCount] that the counters are exact, [BatchReport]
    that a domain is printed exactly when its line changed and every denial is
    printed.

    [Utf8] has Rust's [str] as a list of code points, its encoding and the
    decoding of malformed bytes in chunks. [Display] (src/event/string.rs) has
    the escaped text of captured bytes, and shows that it can be read back and
    has no unsafe character. [Views] has the unescaped views. [Errors] has the texts and sources of the errors
    of the library.

    [TuiFormat] (lltop/src/tui/format.rs) has the formatters and [wrap], which
    always ends, loses nothing and adds up the widths of characters
    ([wrap_spec]), so that a sequence wider than its characters can exceed its
    room ([wrap_sequence_too_wide]). [Model] (lltop/src/tui/model.rs) has
    the observed state and the domain tree; [ModelSpec] analyses its worklist,
    and [ModelTheorems] states that the tree lists each domain once whatever
    the parents, that it is the recursive rendering of the forest, that the two
    modes of lltop agree on all they show, and that ages are exact.

    [Ui] (lltop/src/tui/ui.rs, theme.rs) has the state of the view, selection,
    viewport and layout; [UiRows] the rows of the three lists with their sorting
    and grouping; [UiDraw] the detail fields, wrapping into lines, and [draw].
    [Terminal] (lltop/src/tui/terminal.rs) has the session that restores the
    terminal, [Tui] (lltop/src/tui/mod.rs) input, draining, one cycle and the
    whole loop. [UiSpec], [RowsSpec], [TuiSpec] and [TuiTheorems] show: the
    viewport stays in range and follows the selection; the lists show
    everything once, each denial under its domain; the arrow keys reach every
    row; a click selects what is drawn under it; the scrollbar is monotone and
    reaches both ends; draining is bounded in events; and the mode ends on [q]
    and leaves the terminal as it was. [Session] has the sequences of cycles
    with what they took: what is selected was observed ([session_invariant]).

    [Main] (lltop/src/main.rs) has the arguments, batch mode and [run];
    [MainSpec] shows that a mode runs only without privileges, that every
    resource is released, and what batch mode prints.

    [Pipeline] composes the components from the tracepoint to the printed line:
    what batch mode prints, with what is still buffered, is what took place in
    the kernel less what was omitted ([kernel_to_output]), and nothing is
    buffered any more once the channel was found disconnected
    ([kernel_to_output_complete]). [PipelineTui] does the same for the
    interactive mode, at the end of every cycle ([kernel_to_view]).

    [Build] (build.rs) has the build script, which compiles the programs for
    the byte order of the target ([build_matches_target]).

    ** Modelling choices

    - Integers are [N] at the width of the source: [u32_max], [u64_max],
      [u128_max] and [usize_max] bound them, and saturating operations are
      written out. [usize] has 64 bits. The byte order of the target is a
      parameter.
    - A [HashMap] is a [gmap]. Where its iteration order could matter, in the
      aggregator, that order is a variable, assumed only to enumerate the map.
    - A panic is a value: the decoder's slices return [None] out of bounds; the
      collector's steps include panics of the callback and of the worker, and
      [Panic] those of the destructor of a payload.
    - A [sync_channel] is a bounded queue with two ends. The two threads are
      interleaved between accesses to the memory they share: a receive takes
      two steps, one per channel; a callback takes two, the test of [running]
      and the rest; and the worker sends its last errors one by one. Accesses
      are merged only where no other thread can tell: [output_full_pending] and
      [callback_panic] are the worker's own, [running] is only ever cleared, and
      what follows a [poll] up to the first send reads [running] once. Where
      time matters, in [Deadline], the steps of the
      worker have instants, and the time for which the consumer's thread does
      not run between two statements is a parameter. Reading the clock and
      starting to wait are one moment, and the clock does not overflow.
    - A record of the ring is a list of bytes, and a store of a BPF program a
      write at the offset that event.h asserts. A kernel pointer that a program
      tests is an [option]. An object read twice is the same object.
    - Code outside the repository is a parameter. The kernel and libbpf are the
      classes [Kernel] and [Libbpf], with [KernelLaws], [CooperativeKernel] and
      [LibbpfLaws], and the helpers of BPF programs are [Helpers] with
      [HelperLaws], for the documented behaviour that is relied on; each has a
      concrete instance, on which the witnesses evaluate. So are crossterm and
      ratatui ([Crossterm], [Ratatui], with their laws) and the table of Unicode
      categories ([Unicode]). The BTF parser and the allocator are arguments.
    - What [draw] hands to ratatui is a list of widgets. Inputs, frames written
      and answers of the collector are the values a cycle meets.
    - Two loops have fuel. [wrap] has one turn per character of the text, and
      each turn consumes one at least ([wrap_spec]). The worklist of [domain_tree] has
      one turn more than there are domains, and each domain is pushed at most
      once besides the start ([domain_tree_lists_all]). The loops of batch mode,
      of draining and of the view run over the list of answers they meet, and
      are [None] when it ends first. All other recursion is structural. The
      worker's loop is the step relation, whose runs are unbounded.

    ** Not modelled

    Hashing; [Debug] but of captured bytes; the borders and fixed titles of the
    panes, and how ratatui lays out and renders what it is given; the ring
    buffer between the programs and the worker, which is the kernel's; the
    crate root, which only declares the modules; the scripts and the tests. *)

From stdpp Require Export base numbers list list_numbers gmap strings sorting.
From Stdlib Require Export NArith Lia.
From Stdlib Require Strings.Byte.

#[global] Open Scope N_scope.

(** Facts about fields of valid events, and totality of the wire readers. *)
Create HintDb wire discriminated.
Create HintDb wire_total discriminated.

(** ** Rust's [Result] and the [?] operator *)

Inductive result (A E : Type) : Type :=
| Ok (value : A)
| Err (error : E).
Arguments Ok {A E} _.
Arguments Err {A E} _.

Declare Scope rust_scope.
Delimit Scope rust_scope with rust.
#[global] Open Scope rust_scope.

Definition result_bind {A B E : Type} (c : result A E) (k : A → result B E) : result B E :=
  match c with
  | Ok a => k a
  | Err e => Err e
  end.

Notation "'let?' x ':=' c 'in' k" :=
  (result_bind c (λ x, k))
  (at level 10, x name, c at level 100, k at level 200,
   format "'[v' 'let?'  x  ':='  c  'in'  '/' k ']'") : rust_scope.

Definition map_err {A E F : Type} (f : E → F) (c : result A E) : result A F :=
  match c with
  | Ok a => Ok a
  | Err e => Err (f e)
  end.

Definition map_ok {A B E : Type} (f : A → B) (c : result A E) : result B E :=
  match c with
  | Ok a => Ok (f a)
  | Err e => Err e
  end.

Definition ok_or {A E : Type} (o : option A) (e : E) : result A E :=
  match o with
  | Some a => Ok a
  | None => Err e
  end.

Definition ok {A E : Type} (c : result A E) : option A :=
  match c with
  | Ok a => Some a
  | Err _ => None
  end.

#[export] Instance result_eq_dec {A E} `{EqDecision A, EqDecision E} : EqDecision (result A E).
Proof. solve_decision. Defined.

Lemma result_bind_Ok {A B E} (c : result A E) (k : A → result B E) b :
  result_bind c k = Ok b ↔ ∃ a, c = Ok a ∧ k a = Ok b.
Proof. destruct c; naive_solver. Qed.

Lemma map_err_Ok {A E F} (f : E → F) (c : result A E) a : map_err f c = Ok a ↔ c = Ok a.
Proof. destruct c; simpl; split; congruence. Qed.

Lemma map_ok_Ok {A B E} (f : A → B) (c : result A E) b :
  map_ok f c = Ok b ↔ ∃ a, c = Ok a ∧ b = f a.
Proof. destruct c; naive_solver. Qed.

Lemma ok_or_Ok {A E} (o : option A) (e : E) a : ok_or o e = Ok a ↔ o = Some a.
Proof. destruct o; simpl; split; congruence. Qed.

(** ** Machine integers

    Rust's unsigned integers are values of [N]; the width is kept by the
    [*_ok] predicates and by the operations that saturate or check. [usize]
    is the 64-bit one of the supported targets. *)

Definition u8_max : N := 2 ^ 8 - 1.
Definition u16_max : N := 2 ^ 16 - 1.
Definition u32_max : N := 2 ^ 32 - 1.
Definition u64_max : N := 2 ^ 64 - 1.
Definition u128_max : N := 2 ^ 128 - 1.
Definition usize_max : N := u64_max.

Definition saturating_add (max a b : N) : N := N.min max (a + b).
Definition saturating_sub (a b : N) : N := a - b.
Definition checked_add (max a b : N) : option N :=
  if a + b <=? max then Some (a + b) else None.
Definition checked_sub (a b : N) : option N :=
  if b <=? a then Some (a - b) else None.

Lemma saturating_add_le_max max a b : saturating_add max a b <= max.
Proof. unfold saturating_add. lia. Qed.

Lemma saturating_add_exact max a b : a + b <= max → saturating_add max a b = a + b.
Proof. unfold saturating_add. lia. Qed.

Lemma land_pow2_ne_0 a i : N.land a (2 ^ i) ≠ 0 ↔ N.testbit a i = true.
Proof.
  split; intros Ha.
  - destruct (N.testbit a i) eqn:E; [done|]. destruct Ha. apply N.bits_inj_0. intros n.
    rewrite N.land_spec, N.pow2_bits_eqb.
    destruct (N.eqb_spec i n); subst; rewrite ?E, ?andb_false_r; done.
  - intros H0. apply (f_equal (λ x, N.testbit x i)) in H0.
    by rewrite N.land_spec, N.pow2_bits_true, Ha in H0.
Qed.

(** ** Bytes, slices and native-endian integers *)

Abbreviation byte := Byte.byte (only parsing).

#[export] Instance byte_eq_dec : EqDecision byte := Byte.byte_eq_dec.
#[export] Program Instance byte_countable : Countable byte :=
  inj_countable Byte.to_N Byte.of_N _.
Next Obligation. apply Byte.of_to_N. Qed.

Definition byte_of_N (n : N) : byte := default Byte.x00 (Byte.of_N n).

Lemma to_N_byte_of_N n : n < 256 → Byte.to_N (byte_of_N n) = n.
Proof.
  intros Hn. unfold byte_of_N. destruct (Byte.of_N n) as [b|] eqn:E; simpl.
  - by apply Byte.to_of_N.
  - apply Byte.of_N_None_iff in E. lia.
Qed.

Lemma byte_of_N_to_N b : byte_of_N (Byte.to_N b) = b.
Proof. unfold byte_of_N. by rewrite Byte.of_to_N. Qed.

Lemma to_N_lt_256 b : Byte.to_N b < 256.
Proof. pose proof (Byte.to_N_bounded b). lia. Qed.

(** A byte-string literal. *)
Definition bytes_of_string (s : string) : list byte :=
  (λ a, byte_of_N (Ascii.N_of_ascii a)) <$> String.list_ascii_of_string s.

(** The length of a slice, as the [usize] Rust returns. *)
Definition len {A} (l : list A) : N := N.of_nat (length l).

(** [data.get(first..last)]. *)
Definition slice_get {A} (data : list A) (first last : N) : option (list A) :=
  if (first <=? last) && (last <=? len data)
  then Some (take (N.to_nat (last - first)) (drop (N.to_nat first) data))
  else None.

(** [iter().position(|x| p(x))]. *)
Fixpoint position {A} (p : A → bool) (l : list A) : option N :=
  match l with
  | [] => None
  | x :: l' => if p x then Some 0 else N.succ <$> position p l'
  end.

Inductive endian := Little | Big.

Fixpoint from_le_bytes (bs : list byte) : N :=
  match bs with
  | [] => 0
  | b :: bs' => Byte.to_N b + 256 * from_le_bytes bs'
  end.

Fixpoint to_le_bytes (n : nat) (v : N) : list byte :=
  match n with
  | O => []
  | S n' => byte_of_N (v mod 256) :: to_le_bytes n' (v / 256)
  end.

Definition from_ne_bytes (e : endian) (bs : list byte) : N :=
  match e with
  | Little => from_le_bytes bs
  | Big => from_le_bytes (reverse bs)
  end.

Definition to_ne_bytes (e : endian) (n : nat) (v : N) : list byte :=
  match e with
  | Little => to_le_bytes n v
  | Big => reverse (to_le_bytes n v)
  end.

Lemma length_to_le_bytes n v : length (to_le_bytes n v) = n.
Proof. revert v. induction n as [|n IH]; intros v; simpl; [done|]. by rewrite IH. Qed.

Lemma length_to_ne_bytes e n v : length (to_ne_bytes e n v) = n.
Proof. destruct e; simpl; rewrite ?length_reverse; apply length_to_le_bytes. Qed.

Lemma from_le_bytes_bound bs : from_le_bytes bs < 2 ^ (8 * len bs).
Proof.
  induction bs as [|b bs IH]; [done|].
  unfold len in *. simpl length. rewrite Nat2N.inj_succ, N.mul_succ_r, N.pow_add_r.
  change (2 ^ 8) with 256. cbn [from_le_bytes]. pose proof (to_N_lt_256 b). lia.
Qed.

Lemma from_to_le_bytes n v : v < 2 ^ (8 * N.of_nat n) → from_le_bytes (to_le_bytes n v) = v.
Proof.
  revert v. induction n as [|n IH]; intros v Hv; [cbn in *; lia|].
  cbn [to_le_bytes from_le_bytes].
  rewrite to_N_byte_of_N by (apply N.mod_lt; lia).
  rewrite IH; [pose proof (N.div_mod v 256); lia|].
  apply N.Div0.div_lt_upper_bound.
  rewrite Nat2N.inj_succ, N.mul_succ_r, N.pow_add_r in Hv.
  change (2 ^ 8) with 256 in Hv. lia.
Qed.

Lemma to_from_le_bytes bs : to_le_bytes (length bs) (from_le_bytes bs) = bs.
Proof.
  induction bs as [|b bs IH]; [done|]. cbn [from_le_bytes length to_le_bytes].
  pose proof (to_N_lt_256 b) as Hb.
  rewrite (N.mul_comm 256), N.Div0.mod_add, N.div_add, N.mod_small, N.div_small, N.add_0_l by lia.
  by rewrite byte_of_N_to_N, IH.
Qed.

Lemma from_ne_bytes_bound e bs : from_ne_bytes e bs < 2 ^ (8 * len bs).
Proof.
  destruct e; simpl; [apply from_le_bytes_bound|].
  pose proof (from_le_bytes_bound (reverse bs)) as H. unfold len in *.
  by rewrite length_reverse in H.
Qed.

Lemma from_to_ne_bytes e n v :
  v < 2 ^ (8 * N.of_nat n) → from_ne_bytes e (to_ne_bytes e n v) = v.
Proof.
  intros Hv. destruct e; simpl; rewrite ?reverse_involutive; by apply from_to_le_bytes.
Qed.

Lemma to_from_ne_bytes e bs : to_ne_bytes e (length bs) (from_ne_bytes e bs) = bs.
Proof.
  destruct e; simpl; [apply to_from_le_bytes|].
  rewrite <-(length_reverse bs), to_from_le_bytes. apply reverse_involutive.
Qed.

(** Reading a window of a buffer; stdpp's [list_inserts] overwrites one. *)
Definition window {A} (off n : nat) (data : list A) : list A := take n (drop off data).

Lemma length_window {A} off n (data : list A) :
  (off + n ≤ length data)%nat → length (window off n data) = n.
Proof. intros H. unfold window. rewrite length_take, length_drop. lia. Qed.

Lemma lookup_window {A} off n (data : list A) i :
  window off n data !! i = if decide (i < n)%nat then data !! (off + i)%nat else None.
Proof.
  unfold window. case_decide.
  - by rewrite lookup_take_lt, lookup_drop.
  - apply lookup_ge_None. rewrite length_take. lia.
Qed.

Lemma window_inserts_same {A} off n (bs data : list A) :
  n = length bs → (off + n ≤ length data)%nat →
  window off n (list_inserts off bs data) = bs.
Proof.
  intros -> H. apply list_eq. intros i. rewrite lookup_window. case_decide.
  - rewrite list_lookup_inserts by lia. f_equal. lia.
  - symmetry. apply lookup_ge_None. lia.
Qed.

Lemma window_inserts_ne {A} off off' n (bs data : list A) :
  (off' + n ≤ off ∨ off + length bs ≤ off')%nat →
  window off' n (list_inserts off bs data) = window off' n data.
Proof.
  intros Hd. apply list_eq. intros i. rewrite !lookup_window. case_decide; [|done].
  destruct Hd.
  - apply list_lookup_inserts_lt. lia.
  - apply list_lookup_inserts_ge. lia.
Qed.

Lemma inserts_window {A} off n (data : list A) :
  list_inserts off (window off n data) data = data.
Proof.
  apply list_eq. intros i.
  destruct (decide (i < off)%nat); [apply list_lookup_inserts_lt; lia|].
  destruct (decide (off + length (window off n data) ≤ i)%nat);
    [apply list_lookup_inserts_ge; lia|].
  assert (length (window off n data) ≤ length data - off)%nat.
  { unfold window. rewrite length_take, length_drop. lia. }
  rewrite list_lookup_inserts by lia. rewrite lookup_window.
  rewrite decide_True; [f_equal; lia|].
  unfold window in *. rewrite length_take in *. lia.
Qed.

Lemma slice_get_window {A} (data : list A) off n :
  off + n <= len data →
  slice_get data off (off + n) = Some (window (N.to_nat off) (N.to_nat n) data).
Proof.
  intros H. unfold slice_get, window.
  rewrite (proj2 (N.leb_le _ _)), (proj2 (N.leb_le _ _)) by lia. simpl.
  do 3 f_equal. lia.
Qed.

Lemma position_None {A} (p : A → bool) l :
  position p l = None ↔ Forall (λ x, p x = false) l.
Proof.
  induction l as [|x l IH]; simpl; [split; [constructor|done]|].
  rewrite Forall_cons.
  destruct (p x) eqn:E; [naive_solver|].
  rewrite fmap_None, IH. naive_solver.
Qed.

Lemma position_Some {A} (p : A → bool) l n :
  position p l = Some n ↔
  ∃ l1 x l2, l = l1 ++ x :: l2 ∧ len l1 = n ∧ p x = true ∧ Forall (λ y, p y = false) l1.
Proof.
  revert n. induction l as [|y l IH]; intros n; simpl.
  { split; [done|]. intros ([|] & ? & ? & ? & _); done. }
  destruct (p y) eqn:E.
  - split.
    + intros [= <-]. by exists [], y, l.
    + intros ([|z l1] & x & l2 & [= -> ->] & <- & Hx & Hl1); [done|].
      apply Forall_cons in Hl1 as [??]. congruence.
  - rewrite fmap_Some. setoid_rewrite IH. split.
    + intros (m & (l1 & x & l2 & -> & <- & Hx & Hl1) & ->).
      exists (y :: l1), x, l2. unfold len. simpl. repeat split; [lia|done|by constructor].
    + intros ([|z l1] & x & l2 & [= -> ->] & <- & Hx & Hl1); [congruence|].
      apply Forall_cons in Hl1 as [??]. exists (len l1). unfold len. simpl.
      split; [by exists l1, x, l2|lia].
Qed.
