(* ===== verification/Lattice.v ===== *)
(** * Join semilattices and latest-wins selection

    The two disciplines by which the reconstructed state absorbs an event
    stream. Facts that only grow are joins: [join_all] of a stream depends on
    the set of its elements, whatever their order and multiplicity. Facts that
    are replaced follow [latest]: the greatest timestamp wins and, among equal
    timestamps, the element applied last. *)

From S2P Require Import Prelude.

(** ** Join semilattices *)

Class JoinLaws (A : Type) `{Join A} := {
  join_assoc : ∀ x y z : A, x ⊔ (y ⊔ z) = (x ⊔ y) ⊔ z;
  join_comm : ∀ x y : A, x ⊔ y = y ⊔ x;
  join_idem : ∀ x : A, x ⊔ x = x;
}.

(** The order a join induces: [y] knows at least what [x] knows. *)
#[export] Instance join_le `{Join A} : SqSubsetEq A := λ x y, x ⊔ y = y.

Section order.
Context `{JoinLaws A}.

#[export] Instance join_le_partial_order : PartialOrder (⊑@{A}).
Proof.
  unfold sqsubseteq, join_le. split; [split|].
  - intros x. apply join_idem.
  - intros x y z Hxy Hyz. by rewrite <-Hyz, join_assoc, Hxy.
  - intros x y Hxy Hyx. by rewrite <-Hxy, join_comm.
Qed.

Lemma join_le_l (x y : A) : x ⊑ x ⊔ y.
Proof. unfold sqsubseteq, join_le. by rewrite join_assoc, join_idem. Qed.

Lemma join_le_r (x y : A) : y ⊑ x ⊔ y.
Proof. rewrite join_comm. apply join_le_l. Qed.

Lemma join_lub (x y z : A) : x ⊔ y ⊑ z ↔ x ⊑ z ∧ y ⊑ z.
Proof.
  split.
  - intros Hz. split; (etrans; [|exact Hz]); [apply join_le_l|apply join_le_r].
  - unfold sqsubseteq, join_le. intros [Hx Hy]. by rewrite <-join_assoc, Hy.
Qed.

Definition join_all {E} (f : E → A) (a : A) (es : list E) : A :=
  foldl (λ acc e, acc ⊔ f e) a es.

Lemma join_all_lub {E} (f : E → A) a es z :
  join_all f a es ⊑ z ↔ a ⊑ z ∧ ∀ e, e ∈ es → f e ⊑ z.
Proof.
  unfold join_all. revert a. induction es as [|e es IH]; intros a; simpl; [set_solver|].
  rewrite IH, join_lub. set_solver.
Qed.

(** Order and multiplicity of the elements do not matter. *)
Lemma join_all_set {E} (f : E → A) a es es' :
  (∀ e, e ∈ es ↔ e ∈ es') → join_all f a es = join_all f a es'.
Proof.
  intros He. apply (anti_symm (⊑)); apply join_all_lub.
  - destruct (proj1 (join_all_lub f a es' (join_all f a es'))); [done|]. set_solver.
  - destruct (proj1 (join_all_lub f a es (join_all f a es))); [done|]. set_solver.
Qed.
End order.

(** ** Instances *)

#[export] Instance N_join : Join N := N.max.
#[export] Instance N_join_laws : JoinLaws N.
Proof. split; unfold join, N_join; intros; lia. Qed.

#[export] Instance bool_join : Join bool := orb.
#[export] Instance bool_join_laws : JoinLaws bool.
Proof. split; repeat intros []; done. Qed.

(** Nothing known yet is the bottom. *)
#[export] Instance option_join `{Join A} : Join (option A) := union_with (λ x y, Some (x ⊔ y)).
#[export] Instance option_join_laws `{JoinLaws A} : JoinLaws (option A).
Proof.
  split; unfold join, option_join.
  - intros [x|] [y|] [z|]; simpl; try done. by rewrite join_assoc.
  - intros [x|] [y|]; simpl; try done. by rewrite join_comm.
  - intros [x|]; simpl; try done. by rewrite join_idem.
Qed.

Lemma option_join_None_l `{Join A} (x : option A) : None ⊔ x = x.
Proof. by destruct x. Qed.
Lemma option_join_None_r `{Join A} (x : option A) : x ⊔ None = x.
Proof. by destruct x. Qed.
Lemma option_join_Some `{Join A} (x y : A) : Some x ⊔ Some y = Some (x ⊔ y).
Proof. done. Qed.

#[export] Instance prod_join `{Join A, Join B} : Join (A * B) :=
  λ p q, (p.1 ⊔ q.1, p.2 ⊔ q.2).
#[export] Instance prod_join_laws `{JoinLaws A, JoinLaws B} : JoinLaws (A * B).
Proof.
  split; unfold join at 1, prod_join.
  - intros x y z. simpl. by rewrite !join_assoc.
  - intros x y. by rewrite (join_comm x.1), (join_comm x.2).
  - intros [x y]. simpl. by rewrite !join_idem.
Qed.

#[export] Instance gmap_join `{Countable K} `{Join A} : Join (gmap K A) :=
  union_with (λ x y, Some (x ⊔ y)).

Lemma lookup_join `{Countable K} `{Join A} (m1 m2 : gmap K A) k :
  (m1 ⊔ m2) !! k = m1 !! k ⊔ m2 !! k.
Proof. unfold join, gmap_join, option_join. by rewrite lookup_union_with. Qed.

#[export] Instance gmap_join_laws `{Countable K} `{JoinLaws A} : JoinLaws (gmap K A).
Proof.
  split; intros; apply map_eq; intros k; rewrite !lookup_join.
  - apply join_assoc.
  - apply join_comm.
  - apply join_idem.
Qed.

Lemma gmap_join_empty_r `{Countable K} `{Join A} (m : gmap K A) : m ⊔ ∅ = m.
Proof. apply map_eq. intros k. by rewrite lookup_join, lookup_empty, option_join_None_r. Qed.

Lemma gmap_le_lookup `{Countable K} `{Join A} (m1 m2 : gmap K A) k x :
  m1 ⊑ m2 → m1 !! k = Some x → ∃ y, m2 !! k = Some y ∧ x ⊑ y.
Proof.
  unfold sqsubseteq, join_le. intros Hm Hx. assert (Hk := f_equal (.!! k) Hm). simpl in Hk.
  rewrite lookup_join, Hx in Hk. destruct (m2 !! k) as [y|]; [|done].
  exists y. split; [done|]. by injection Hk.
Qed.

(** ** Entries of a map

    [entry(k).or_insert_with(|| d)] followed by the mutation [f] of the value. *)
Definition entry_modify `{Countable K} {A} (k : K) (d : A) (f : A → A) (m : gmap K A) : gmap K A :=
  <[k := f (default d (m !! k))]> m.

(** [entry(k).or_insert_with(|| d)] with no further mutation. *)
Definition entry_ensure `{Countable K} {A} (k : K) (d : A) (m : gmap K A) : gmap K A :=
  match m !! k with
  | Some _ => m
  | None => <[k := d]> m
  end.

(** [entry(k).and_modify(f).or_insert(d)]. *)
Definition entry_and_modify `{Countable K} {A} (k : K) (f : A → A) (d : A) (m : gmap K A) :
    gmap K A :=
  <[k := match m !! k with Some a => f a | None => d end]> m.

Section entries.
Context `{Countable K} {A : Type}.
Implicit Types (m : gmap K A) (k : K).

Lemma lookup_entry_modify k d f m k' :
  entry_modify k d f m !! k' =
    if decide (k = k') then Some (f (default d (m !! k))) else m !! k'.
Proof. apply lookup_insert. Qed.

Lemma lookup_entry_and_modify k d f m k' :
  entry_and_modify k f d m !! k' =
    if decide (k = k') then Some (match m !! k with Some a => f a | None => d end) else m !! k'.
Proof. apply lookup_insert. Qed.

Lemma lookup_entry_ensure k d m k' :
  entry_ensure k d m !! k' = if decide (k = k') then Some (default d (m !! k)) else m !! k'.
Proof.
  unfold entry_ensure. destruct (m !! k) as [a|] eqn:E.
  - case_decide; [by subst|done].
  - rewrite lookup_insert. done.
Qed.

Lemma entry_ensure_present k d m : is_Some (m !! k) → entry_ensure k d m = m.
Proof. unfold entry_ensure. by intros [a ->]. Qed.

Lemma entry_ensure_lookup_is_Some k k' d m : is_Some (m !! k') → is_Some (entry_ensure k d m !! k').
Proof. rewrite lookup_entry_ensure. case_decide; [done|]. done. Qed.

Lemma entry_modify_lookup_is_Some k k' d f m :
  is_Some (m !! k') → is_Some (entry_modify k d f m !! k').
Proof. rewrite lookup_entry_modify. case_decide; done. Qed.

Lemma entry_modify_fixed k d f m a : m !! k = Some a → f a = a → entry_modify k d f m = m.
Proof. intros Hk Hf. unfold entry_modify. rewrite Hk. simpl. rewrite Hf. by apply insert_id. Qed.

Lemma entry_and_modify_fixed k d f m a : m !! k = Some a → f a = a → entry_and_modify k f d m = m.
Proof. intros Hk Hf. unfold entry_and_modify. rewrite Hk. rewrite Hf. by apply insert_id. Qed.

(** Updates of an entry seen through a view of its values. *)
Context `{JoinLaws B} (v : A → B).

Lemma fmap_entry_modify k d f m b :
  v (f d) = b → (∀ a, v (f a) = v a ⊔ b) →
  v <$> entry_modify k d f m = (v <$> m) ⊔ {[ k := b ]}.
Proof.
  intros Hd Hf. apply map_eq. intros k'.
  rewrite lookup_join, !lookup_fmap, lookup_entry_modify, lookup_singleton. case_decide.
  - subst. destruct (m !! k') as [a|]; simpl; [by rewrite Hf|done].
  - by rewrite option_join_None_r.
Qed.

Lemma fmap_entry_and_modify k d f m b :
  v d = b → (∀ a, v (f a) = v a ⊔ b) →
  v <$> entry_and_modify k f d m = (v <$> m) ⊔ {[ k := b ]}.
Proof.
  intros Hd Hf. apply map_eq. intros k'.
  rewrite lookup_join, !lookup_fmap, lookup_entry_and_modify, lookup_singleton. case_decide.
  - subst. destruct (m !! k') as [a|]; simpl; [by rewrite Hf|done].
  - by rewrite option_join_None_r.
Qed.

Lemma fmap_entry_ensure k d m b :
  v d = b → (∀ a, v a = v a ⊔ b) → v <$> entry_ensure k d m = (v <$> m) ⊔ {[ k := b ]}.
Proof.
  intros Hd Hf. apply map_eq. intros k'.
  rewrite lookup_join, !lookup_fmap, lookup_entry_ensure, lookup_singleton. case_decide.
  - subst. destruct (m !! k') as [a|]; simpl; [by rewrite option_join_Some, <-Hf|done].
  - by rewrite option_join_None_r.
Qed.
End entries.

(** ** Latest wins *)

Section latest.
Context {E : Type} (time : E → N).

Definition latest_update (current : option E) (candidate : E) : option E :=
  match current with
  | None => Some candidate
  | Some c => if time c <=? time candidate then Some candidate else Some c
  end.

Definition latest (es : list E) : option E := foldl latest_update None es.

(** Every earlier element is no later than [e], every later one strictly before. *)
Definition is_latest (es : list E) (e : E) : Prop :=
  ∃ before after, es = before ++ e :: after ∧
    Forall (λ e', time e' <= time e) before ∧ Forall (λ e', time e' < time e) after.

Lemma latest_snoc es e : latest (es ++ [e]) = latest_update (latest es) e.
Proof. unfold latest. by rewrite foldl_app. Qed.

Lemma latest_None es : latest es = None ↔ es = [].
Proof.
  split; [|by intros ->]. destruct es as [|e es _] using rev_ind; [done|].
  rewrite latest_snoc. unfold latest_update. repeat case_match; done.
Qed.

Lemma latest_Some_is_latest es e : latest es = Some e → is_latest es e.
Proof.
  revert e. induction es as [|x es IH] using rev_ind; intros e; [done|].
  rewrite latest_snoc. destruct (latest es) as [c|] eqn:Hc; simpl.
  - destruct (IH c) as (bf & af & Hes & Hb & Ha); [done|].
    destruct (N.leb_spec (time c) (time x)); intros [= <-].
    + exists es, []. split; [done|]. split; [|done]. subst. apply Forall_app.
      split; [|apply Forall_cons; split; [done|]]; eapply Forall_impl; eauto; simpl; lia.
    + exists bf, (af ++ [x]). rewrite Hes, <-app_assoc. split; [done|]. split; [done|].
      apply Forall_app. auto.
  - intros [= <-]. apply latest_None in Hc as ->. by exists [], [].
Qed.

Lemma is_latest_unique es e e' : is_latest es e → is_latest es e' → e = e'.
Proof.
  intros (b & a & -> & Hb & Ha) (b' & a' & Heq & Hb' & Ha').
  apply app_eq_inv in Heq as [([|x k] & Hk1 & Hk2)|([|x k] & Hk1 & Hk2)]; simplify_eq/=; try done.
  - apply Forall_app in Ha' as [_ Ha']. apply Forall_cons in Ha' as [Ha' _].
    apply Forall_app in Hb as [_ Hb]. apply Forall_cons in Hb as [Hb _]. lia.
  - apply Forall_app in Ha as [_ Ha]. apply Forall_cons in Ha as [Ha _].
    apply Forall_app in Hb' as [_ Hb']. apply Forall_cons in Hb' as [Hb' _]. lia.
Qed.

Lemma latest_Some es e : latest es = Some e ↔ is_latest es e.
Proof.
  split; [apply latest_Some_is_latest|]. intros He.
  destruct (latest es) as [c|] eqn:Hc.
  - f_equal. apply is_latest_unique with es; [|done]. by apply latest_Some_is_latest.
  - apply latest_None in Hc as ->. destruct He as ([|] & ? & ? & _); done.
Qed.
End latest.
