(* ===== verification/CapturedBytes.v ===== *)
(** * Captured bytes (src/event/string.rs)

    Bytes captured from a kernel source, tagged by their origin. The sealed
    trait [private::CapturedBytesOrigin] is a type class over marker types;
    [CapturedBytes K] carries the marker only in its type, as the [PhantomData]
    field does. [new] is the only way the program builds such a value, so what
    it accepts is the invariant [captured_valid]. *)

From S2P Require Import Prelude.

Inductive OmissionPolicy :=
| NotSupported
| FullCapacity.

Class CapturedBytesOrigin (K : Type) := {
  ALLOWS_NUL : bool;
  MAXIMUM_LEN : N;
  OMISSION_POLICY : OmissionPolicy;
  DEBUG_NAME : string;
  DISPLAY_PREFIX : string;
}.
#[global] Hint Mode CapturedBytesOrigin ! : typeclass_instances.
Arguments ALLOWS_NUL K {_}.
Arguments MAXIMUM_LEN K {_}.
Arguments OMISSION_POLICY K {_}.
Arguments DEBUG_NAME K {_}.
Arguments DISPLAY_PREFIX K {_}.

Inductive PathnameOrigin : Set := PathnameMarker.
Inductive CommandOrigin : Set := CommandMarker.
Inductive AbstractUnixSocketNameOrigin : Set := AbstractUnixSocketNameMarker.

#[export] Instance PathnameOrigin_origin : CapturedBytesOrigin PathnameOrigin := {|
  ALLOWS_NUL := false;
  MAXIMUM_LEN := 256;
  OMISSION_POLICY := FullCapacity;
  DEBUG_NAME := "CapturedPath";
  DISPLAY_PREFIX := "";
|}.

#[export] Instance CommandOrigin_origin : CapturedBytesOrigin CommandOrigin := {|
  ALLOWS_NUL := false;
  MAXIMUM_LEN := 15;
  OMISSION_POLICY := NotSupported;
  DEBUG_NAME := "CapturedCommand";
  DISPLAY_PREFIX := "";
|}.

#[export] Instance AbstractUnixSocketNameOrigin_origin :
  CapturedBytesOrigin AbstractUnixSocketNameOrigin := {|
  ALLOWS_NUL := true;
  MAXIMUM_LEN := 107;
  OMISSION_POLICY := NotSupported;
  DEBUG_NAME := "CapturedAbstractUnixSocketName";
  DISPLAY_PREFIX := "@";
|}.

Inductive CapturedBytesError :=
| InteriorNul (nul_position : N)
| TooLong (length maximum : N)
| OmissionNotSupported
| OmissionRequiresFullCapacity (length capacity : N).

#[export] Instance CapturedBytesError_eq_dec : EqDecision CapturedBytesError.
Proof. solve_decision. Defined.

Record CapturedBytes (K : Type) := mkCapturedBytes {
  as_bytes : list byte;
  bytes_omitted : bool;
}.
Arguments mkCapturedBytes {K} _ _.
Arguments as_bytes {K} _.
Arguments bytes_omitted {K} _.

Abbreviation CapturedPath := (CapturedBytes PathnameOrigin).
Abbreviation CapturedCommand := (CapturedBytes CommandOrigin).
Abbreviation CapturedAbstractUnixSocketName := (CapturedBytes AbstractUnixSocketNameOrigin).

(** [*byte == 0]. *)
Definition is_nul (b : byte) : bool := Byte.eqb b Byte.x00.

Definition captured_new {K} `{CapturedBytesOrigin K} (bytes : list byte) (omitted : bool) :
    result (CapturedBytes K) CapturedBytesError :=
  match (if ALLOWS_NUL K then None else position is_nul bytes) with
  | Some p => Err (InteriorNul p)
  | None =>
      if MAXIMUM_LEN K <? len bytes then Err (TooLong (len bytes) (MAXIMUM_LEN K))
      else if omitted then
        match OMISSION_POLICY K with
        | NotSupported => Err OmissionNotSupported
        | FullCapacity =>
            if negb (len bytes =? MAXIMUM_LEN K)
            then Err (OmissionRequiresFullCapacity (len bytes) (MAXIMUM_LEN K))
            else Ok (mkCapturedBytes bytes omitted)
        end
      else Ok (mkCapturedBytes bytes omitted)
  end.

(** Equality compares the bytes and the omission flag ([PartialEq], [Eq], [Hash]). *)
#[export] Instance CapturedBytes_eq_dec K : EqDecision (CapturedBytes K).
Proof. solve_decision. Defined.
#[export] Program Instance CapturedBytes_countable K : Countable (CapturedBytes K) :=
  inj_countable' (λ c, (as_bytes c, bytes_omitted c)) (λ p, mkCapturedBytes p.1 p.2) _.
Next Obligation. by intros K [bs o]. Qed.

(** The documented invariant of a value with origin [K]. *)
Definition captured_valid {K} `{CapturedBytesOrigin K} (c : CapturedBytes K) : Prop :=
  (ALLOWS_NUL K = false → Byte.x00 ∉ as_bytes c) ∧
  len (as_bytes c) <= MAXIMUM_LEN K ∧
  (bytes_omitted c = true →
   OMISSION_POLICY K = FullCapacity ∧ len (as_bytes c) = MAXIMUM_LEN K).

Lemma is_nul_true b : is_nul b = true ↔ b = Byte.x00.
Proof.
  unfold is_nul. destruct (Byte.eqb b Byte.x00) eqn:E.
  - apply Byte.byte_dec_bl in E. done.
  - split; [done|]. intros ->. done.
Qed.

Lemma is_nul_false b : is_nul b = false ↔ b ≠ Byte.x00.
Proof. rewrite <-is_nul_true. destruct (is_nul b); naive_solver. Qed.

Lemma position_nul_None bs : position is_nul bs = None ↔ Byte.x00 ∉ bs.
Proof.
  rewrite position_None, Forall_forall. setoid_rewrite is_nul_false. naive_solver.
Qed.

Lemma captured_new_Ok {K} `{CapturedBytesOrigin K} bs o (c : CapturedBytes K) :
  captured_new bs o = Ok c ↔ c = mkCapturedBytes bs o ∧ captured_valid c.
Proof.
  unfold captured_new, captured_valid.
  destruct (ALLOWS_NUL K) eqn:Ha; [|destruct (position is_nul bs) as [p|] eqn:Hp].
  2: { split; [done|]. intros (-> & Hn & _). simpl in Hn.
       apply position_nul_None in Hn; [congruence|done]. }
  2: apply position_nul_None in Hp.
  all: destruct (N.ltb_spec (MAXIMUM_LEN K) (len bs)) as [Hl|Hl];
    [split; [done|]; intros (-> & _ & ? & _); simpl in *; lia|].
  all: destruct o; [destruct (OMISSION_POLICY K)|].
  all: try (destruct (N.eqb_spec (len bs) (MAXIMUM_LEN K))); simpl.
  all: split; [intros [= <-]|intros (-> & ? & ? & ?)]; simpl in *; naive_solver.
Qed.
