(* ===== verification/Event.v ===== *)
(** * Semantic events (src/event/mod.rs, src/event/access_names.rs)

    Identities, access masks, request categories and the twelve event structs.
    A struct is a record: its constructor is the value the typestate builder's
    [build] returns once every field is present, its projections are the
    accessors. Integers are values of [N]; [event_valid] states the widths and
    the private-field invariants that the Rust types carry. *)

From S2P Require Import Prelude CapturedBytes.

(** ** Identities *)

Definition MIN_LANDLOCK_ID : N := 0x100000000.

(** The marker kinds [Domain] and [Ruleset] of the sealed trait [LandlockIdKind]. *)
Inductive LandlockIdKind := Domain | Ruleset.

Record InvalidLandlockIdError := mkInvalidLandlockIdError { invalid_id_value : N }.

Record LandlockId (K : LandlockIdKind) := mkLandlockId { id_get : N }.
Arguments mkLandlockId {K} _.
Arguments id_get {K} _.

Abbreviation DomainId := (LandlockId Domain).
Abbreviation RulesetId := (LandlockId Ruleset).

(** [NonZeroU64::new] followed by the guard on the minimum. *)
Definition landlock_id_new {K} (value : N) : result (LandlockId K) InvalidLandlockIdError :=
  if negb (value =? 0) && (MIN_LANDLOCK_ID <=? value)
  then Ok (mkLandlockId value)
  else Err (mkInvalidLandlockIdError value).

#[export] Instance LandlockId_eq_dec K : EqDecision (LandlockId K).
Proof. solve_decision. Defined.
#[export] Program Instance LandlockId_countable K : Countable (LandlockId K) :=
  inj_countable' id_get mkLandlockId _.
Next Obligation. by intros K []. Qed.

Record InvalidTaskIdError := mkInvalidTaskIdError { invalid_task_value : N }.

Record ProcessId := mkProcessId { pid_get : N }.
Record ThreadId := mkThreadId { tid_get : N }.

Definition process_id_new (value : N) : result ProcessId InvalidTaskIdError :=
  if value =? 0 then Err (mkInvalidTaskIdError value) else Ok (mkProcessId value).
Definition thread_id_new (value : N) : result ThreadId InvalidTaskIdError :=
  if value =? 0 then Err (mkInvalidTaskIdError value) else Ok (mkThreadId value).

#[export] Instance ProcessId_eq_dec : EqDecision ProcessId.
Proof. solve_decision. Defined.
#[export] Instance ThreadId_eq_dec : EqDecision ThreadId.
Proof. solve_decision. Defined.
#[export] Program Instance ProcessId_countable : Countable ProcessId :=
  inj_countable' pid_get mkProcessId _.
Next Obligation. by intros []. Qed.
#[export] Program Instance ThreadId_countable : Countable ThreadId :=
  inj_countable' tid_get mkThreadId _.
Next Obligation. by intros []. Qed.

Record KernelTimestamp := from_nanoseconds { as_nanoseconds : N }.
#[export] Instance KernelTimestamp_eq_dec : EqDecision KernelTimestamp.
Proof. solve_decision. Defined.

(** ** Access masks *)

Definition FILESYSTEM_ACCESS_NAMES : list (N * string) := [
  (N.shiftl 1 0, "execute");
  (N.shiftl 1 1, "write_file");
  (N.shiftl 1 2, "read_file");
  (N.shiftl 1 3, "read_dir");
  (N.shiftl 1 4, "remove_dir");
  (N.shiftl 1 5, "remove_file");
  (N.shiftl 1 6, "make_char");
  (N.shiftl 1 7, "make_dir");
  (N.shiftl 1 8, "make_reg");
  (N.shiftl 1 9, "make_sock");
  (N.shiftl 1 10, "make_fifo");
  (N.shiftl 1 11, "make_block");
  (N.shiftl 1 12, "make_sym");
  (N.shiftl 1 13, "refer");
  (N.shiftl 1 14, "truncate");
  (N.shiftl 1 15, "ioctl_dev");
  (N.shiftl 1 16, "resolve_unix")
].

Definition NETWORK_ACCESS_NAMES : list (N * string) := [
  (N.shiftl 1 0, "bind_tcp");
  (N.shiftl 1 1, "connect_tcp");
  (N.shiftl 1 2, "bind_udp");
  (N.shiftl 1 3, "connect_send_udp")
].

Definition SCOPE_NAMES : list (N * string) := [
  (N.shiftl 1 0, "abstract_unix_socket");
  (N.shiftl 1 1, "signal")
].

(** The macro [access_type!] as a class: a mask type with its name table. *)
Class AccessType (M : Type) := {
  from_bits : N → M;
  bits : M → N;
  name_table : list (N * string);
}.
#[global] Hint Mode AccessType ! : typeclass_instances.
Arguments name_table M {_}.

Record FilesystemAccess := mkFilesystemAccess { fs_bits : N }.
Record NetworkAccess := mkNetworkAccess { net_bits : N }.
Record ScopeAccess := mkScopeAccess { scope_bits : N }.

#[export] Instance FilesystemAccess_access : AccessType FilesystemAccess :=
  {| from_bits := mkFilesystemAccess; bits := fs_bits; name_table := FILESYSTEM_ACCESS_NAMES |}.
#[export] Instance NetworkAccess_access : AccessType NetworkAccess :=
  {| from_bits := mkNetworkAccess; bits := net_bits; name_table := NETWORK_ACCESS_NAMES |}.
#[export] Instance ScopeAccess_access : AccessType ScopeAccess :=
  {| from_bits := mkScopeAccess; bits := scope_bits; name_table := SCOPE_NAMES |}.

#[export] Instance FilesystemAccess_eq_dec : EqDecision FilesystemAccess.
Proof. solve_decision. Defined.
#[export] Instance NetworkAccess_eq_dec : EqDecision NetworkAccess.
Proof. solve_decision. Defined.
#[export] Instance ScopeAccess_eq_dec : EqDecision ScopeAccess.
Proof. solve_decision. Defined.
#[export] Program Instance FilesystemAccess_countable : Countable FilesystemAccess :=
  inj_countable' fs_bits mkFilesystemAccess _.
Next Obligation. by intros []. Qed.
#[export] Program Instance NetworkAccess_countable : Countable NetworkAccess :=
  inj_countable' net_bits mkNetworkAccess _.
Next Obligation. by intros []. Qed.

(** [$table.iter().fold(0, |bits, (bit, _)| bits | bit)]. *)
Definition table_bits (table : list (N * string)) : N :=
  foldl (λ acc entry, N.lor acc entry.1) 0 table.

(** [!x] on [u64]. *)
Definition u64_not (x : N) : N := N.lxor x u64_max.

Record AccessName := mkAccessName { name_bit : N; name_as_str : string }.

Section access.
Context {M : Type} `{AccessType M}.

Definition known_bits (m : M) : N := N.land (bits m) (table_bits (name_table M)).
Definition unknown_bits (m : M) : N := N.land (bits m) (u64_not (table_bits (name_table M))).
Definition known_names (m : M) : list AccessName :=
  (λ entry, mkAccessName entry.1 entry.2) <$>
    filter (λ entry, N.land (bits m) entry.1 ≠ 0) (name_table M).
Definition all_known_names : list AccessName :=
  (λ entry, mkAccessName entry.1 entry.2) <$> name_table M.
End access.
Arguments all_known_names M {_}.

(** ** Request categories *)

Record BlockerType := from_raw { raw : N }.
#[export] Instance BlockerType_eq_dec : EqDecision BlockerType.
Proof. solve_decision. Defined.
#[export] Program Instance BlockerType_countable : Countable BlockerType :=
  inj_countable' raw from_raw _.
Next Obligation. by intros []. Qed.

Definition PTRACE : BlockerType := from_raw 1.
Definition FS_CHANGE_TOPOLOGY : BlockerType := from_raw 2.
Definition FS_ACCESS : BlockerType := from_raw 3.
Definition NET_ACCESS : BlockerType := from_raw 4.
Definition SCOPE_ABSTRACT_UNIX_SOCKET : BlockerType := from_raw 5.
Definition SCOPE_SIGNAL : BlockerType := from_raw 6.

Inductive FilesystemBlockers :=
| Access (access : FilesystemAccess)
| ChangeTopology
| Other (request_type : BlockerType) (access : FilesystemAccess).

Definition classify (request_type : BlockerType) (access : FilesystemAccess) : FilesystemBlockers :=
  if raw request_type =? raw FS_ACCESS then Access access
  else if (raw request_type =? raw FS_CHANGE_TOPOLOGY) && (fs_bits access =? 0) then ChangeTopology
  else Other request_type access.

Inductive DomainMembership :=
| Unsandboxed
| Sandboxed (id : DomainId).
#[export] Instance DomainMembership_eq_dec : EqDecision DomainMembership.
Proof. solve_decision. Defined.

Definition membership_domain_id (m : DomainMembership) : option DomainId :=
  match m with
  | Unsandboxed => None
  | Sandboxed id => Some id
  end.

Definition membership_from (value : option DomainId) : DomainMembership :=
  match value with
  | Some id => Sandboxed id
  | None => Unsandboxed
  end.

#[export] Program Instance DomainMembership_countable : Countable DomainMembership :=
  inj_countable' membership_domain_id membership_from _.
Next Obligation. by intros []. Qed.

(** ** Event structs *)

Record HierarchySnapshot := mkHierarchySnapshot {
  hs_domain_id : DomainId;
  hs_parent_id : option DomainId;
  hs_creator_tgid : ProcessId;
  hs_creator_comm : CapturedCommand;
}.

Record DenialContext := mkDenialContext {
  dc_hierarchy : HierarchySnapshot;
  dc_cumulative_denial_count : N;
  dc_same_exec : bool;
  dc_logged : bool;
}.

Record CreateRulesetEvent := mkCreateRulesetEvent {
  cre_timestamp : KernelTimestamp;
  cre_ruleset_id : RulesetId;
  cre_ruleset_version : N;
  cre_handled_fs : FilesystemAccess;
  cre_handled_net : NetworkAccess;
  cre_scoped : ScopeAccess;
}.

Record AddRulePathBeneathEvent := mkAddRulePathBeneathEvent {
  arp_timestamp : KernelTimestamp;
  arp_ruleset_id : RulesetId;
  arp_ruleset_version : N;
  arp_access_rights : FilesystemAccess;
  arp_device : N;
  arp_inode : N;
  arp_pathname : CapturedPath;
}.

Record AddRuleNetPortEvent := mkAddRuleNetPortEvent {
  arn_timestamp : KernelTimestamp;
  arn_ruleset_id : RulesetId;
  arn_ruleset_version : N;
  arn_access_rights : NetworkAccess;
  arn_port : N;
}.

Record CreateDomainEvent := mkCreateDomainEvent {
  cde_timestamp : KernelTimestamp;
  cde_ruleset_id : RulesetId;
  cde_ruleset_version : N;
  cde_domain_id : DomainId;
  cde_parent_id : option DomainId;
  cde_creator_tgid : ProcessId;
  cde_creator_comm : CapturedCommand;
}.

Record DenyAccessFsEvent := mkDenyAccessFsEvent {
  dfs_timestamp : KernelTimestamp;
  dfs_context : DenialContext;
  dfs_blockers_type : BlockerType;
  dfs_blockers_access : FilesystemAccess;
  dfs_device : N;
  dfs_inode : N;
  dfs_pathname : CapturedPath;
}.

Definition dfs_blockers (e : DenyAccessFsEvent) : FilesystemBlockers :=
  classify (dfs_blockers_type e) (dfs_blockers_access e).

Record DenyAccessNetEvent := mkDenyAccessNetEvent {
  dne_timestamp : KernelTimestamp;
  dne_context : DenialContext;
  dne_blockers_type : BlockerType;
  dne_blockers_access : NetworkAccess;
  dne_source_port : N;
  dne_destination_port : N;
}.

Record DenyPtraceEvent := mkDenyPtraceEvent {
  dpt_timestamp : KernelTimestamp;
  dpt_context : DenialContext;
  dpt_tracee_domain : DomainMembership;
  dpt_tracee_pid : ProcessId;
  dpt_tracee_comm : CapturedCommand;
}.

Record DenyScopeSignalEvent := mkDenyScopeSignalEvent {
  dsi_timestamp : KernelTimestamp;
  dsi_context : DenialContext;
  dsi_target_domain : DomainMembership;
  dsi_target_pid : ProcessId;
  dsi_target_comm : CapturedCommand;
}.

Record DenyScopeAbstractUnixSocketEvent := mkDenyScopeAbstractUnixSocketEvent {
  dau_timestamp : KernelTimestamp;
  dau_context : DenialContext;
  dau_peer_domain : DomainMembership;
  dau_peer_pid : option ProcessId;
  dau_abstract_name : CapturedAbstractUnixSocketName;
}.

Record FreeDomainEvent := mkFreeDomainEvent {
  fde_timestamp : KernelTimestamp;
  fde_domain_id : DomainId;
  fde_denial_count : N;
}.

Record FreeRulesetEvent := mkFreeRulesetEvent {
  fre_timestamp : KernelTimestamp;
  fre_ruleset_id : RulesetId;
  fre_ruleset_version : N;
}.

Record EnforceDomainEvent := mkEnforceDomainEvent {
  ede_timestamp : KernelTimestamp;
  ede_domain_id : DomainId;
  ede_enforcing_tid : ThreadId;
  ede_complete : bool;
  ede_process_wide : bool;
  ede_no_new_privs : bool;
}.

Inductive Event :=
| CreateRuleset (event : CreateRulesetEvent)
| AddRulePathBeneath (event : AddRulePathBeneathEvent)
| AddRuleNetPort (event : AddRuleNetPortEvent)
| CreateDomain (event : CreateDomainEvent)
| DenyAccessFs (event : DenyAccessFsEvent)
| DenyAccessNet (event : DenyAccessNetEvent)
| DenyPtrace (event : DenyPtraceEvent)
| DenyScopeSignal (event : DenyScopeSignalEvent)
| DenyScopeAbstractUnixSocket (event : DenyScopeAbstractUnixSocketEvent)
| FreeDomain (event : FreeDomainEvent)
| FreeRuleset (event : FreeRulesetEvent)
| EnforceDomain (event : EnforceDomainEvent).

(** ** The traits [Observation] and [Denial] *)

Class Observation (T : Type) := timestamp : T → KernelTimestamp.
Class Denial (T : Type) `{Observation T} := context : T → DenialContext.
#[global] Hint Mode Observation ! : typeclass_instances.
#[global] Hint Mode Denial ! - : typeclass_instances.

#[export] Instance CreateRulesetEvent_obs : Observation CreateRulesetEvent := cre_timestamp.
#[export] Instance AddRulePathBeneathEvent_obs : Observation AddRulePathBeneathEvent := arp_timestamp.
#[export] Instance AddRuleNetPortEvent_obs : Observation AddRuleNetPortEvent := arn_timestamp.
#[export] Instance CreateDomainEvent_obs : Observation CreateDomainEvent := cde_timestamp.
#[export] Instance DenyAccessFsEvent_obs : Observation DenyAccessFsEvent := dfs_timestamp.
#[export] Instance DenyAccessNetEvent_obs : Observation DenyAccessNetEvent := dne_timestamp.
#[export] Instance DenyPtraceEvent_obs : Observation DenyPtraceEvent := dpt_timestamp.
#[export] Instance DenyScopeSignalEvent_obs : Observation DenyScopeSignalEvent := dsi_timestamp.
#[export] Instance DenyScopeAbstractUnixSocketEvent_obs :
  Observation DenyScopeAbstractUnixSocketEvent := dau_timestamp.
#[export] Instance FreeDomainEvent_obs : Observation FreeDomainEvent := fde_timestamp.
#[export] Instance FreeRulesetEvent_obs : Observation FreeRulesetEvent := fre_timestamp.
#[export] Instance EnforceDomainEvent_obs : Observation EnforceDomainEvent := ede_timestamp.

#[export] Instance DenyAccessFsEvent_denial : Denial DenyAccessFsEvent := dfs_context.
#[export] Instance DenyAccessNetEvent_denial : Denial DenyAccessNetEvent := dne_context.
#[export] Instance DenyPtraceEvent_denial : Denial DenyPtraceEvent := dpt_context.
#[export] Instance DenyScopeSignalEvent_denial : Denial DenyScopeSignalEvent := dsi_context.
#[export] Instance DenyScopeAbstractUnixSocketEvent_denial :
  Denial DenyScopeAbstractUnixSocketEvent := dau_context.

Definition event_timestamp (e : Event) : KernelTimestamp :=
  match e with
  | CreateRuleset e => timestamp e
  | AddRulePathBeneath e => timestamp e
  | AddRuleNetPort e => timestamp e
  | CreateDomain e => timestamp e
  | DenyAccessFs e => timestamp e
  | DenyAccessNet e => timestamp e
  | DenyPtrace e => timestamp e
  | DenyScopeSignal e => timestamp e
  | DenyScopeAbstractUnixSocket e => timestamp e
  | FreeDomain e => timestamp e
  | FreeRuleset e => timestamp e
  | EnforceDomain e => timestamp e
  end.
#[export] Instance Event_obs : Observation Event := event_timestamp.

#[export] Instance HierarchySnapshot_eq_dec : EqDecision HierarchySnapshot.
Proof. solve_decision. Defined.
#[export] Instance DenialContext_eq_dec : EqDecision DenialContext.
Proof. solve_decision. Defined.
#[export] Instance CreateRulesetEvent_eq_dec : EqDecision CreateRulesetEvent.
Proof. solve_decision. Defined.
#[export] Instance AddRulePathBeneathEvent_eq_dec : EqDecision AddRulePathBeneathEvent.
Proof. solve_decision. Defined.
#[export] Instance AddRuleNetPortEvent_eq_dec : EqDecision AddRuleNetPortEvent.
Proof. solve_decision. Defined.
#[export] Instance CreateDomainEvent_eq_dec : EqDecision CreateDomainEvent.
Proof. solve_decision. Defined.
#[export] Instance DenyAccessFsEvent_eq_dec : EqDecision DenyAccessFsEvent.
Proof. solve_decision. Defined.
#[export] Instance DenyAccessNetEvent_eq_dec : EqDecision DenyAccessNetEvent.
Proof. solve_decision. Defined.
#[export] Instance DenyPtraceEvent_eq_dec : EqDecision DenyPtraceEvent.
Proof. solve_decision. Defined.
#[export] Instance DenyScopeSignalEvent_eq_dec : EqDecision DenyScopeSignalEvent.
Proof. solve_decision. Defined.
#[export] Instance DenyScopeAbstractUnixSocketEvent_eq_dec : EqDecision DenyScopeAbstractUnixSocketEvent.
Proof. solve_decision. Defined.
#[export] Instance FreeDomainEvent_eq_dec : EqDecision FreeDomainEvent.
Proof. solve_decision. Defined.
#[export] Instance FreeRulesetEvent_eq_dec : EqDecision FreeRulesetEvent.
Proof. solve_decision. Defined.
#[export] Instance EnforceDomainEvent_eq_dec : EqDecision EnforceDomainEvent.
Proof. solve_decision. Defined.
#[export] Instance Event_eq_dec : EqDecision Event.
Proof. solve_decision. Defined.

(** ** Invariants of the value types *)

Definition u32_ok (n : N) : Prop := n < 2 ^ 32.
Definition u64_ok (n : N) : Prop := n < 2 ^ 64.
Definition id_valid {K} (i : LandlockId K) : Prop := MIN_LANDLOCK_ID <= id_get i ∧ u64_ok (id_get i).
Definition pid_valid (p : ProcessId) : Prop := pid_get p ≠ 0 ∧ u32_ok (pid_get p).
Definition tid_valid (t : ThreadId) : Prop := tid_get t ≠ 0 ∧ u32_ok (tid_get t).
Definition option_valid {A} (P : A → Prop) (o : option A) : Prop :=
  match o with Some a => P a | None => True end.
Definition membership_valid (m : DomainMembership) : Prop :=
  option_valid id_valid (membership_domain_id m).

Definition hierarchy_valid (h : HierarchySnapshot) : Prop :=
  id_valid (hs_domain_id h) ∧ option_valid id_valid (hs_parent_id h) ∧
  pid_valid (hs_creator_tgid h) ∧ captured_valid (hs_creator_comm h).

Definition context_valid (c : DenialContext) : Prop :=
  hierarchy_valid (dc_hierarchy c) ∧ u64_ok (dc_cumulative_denial_count c).

(** What the field types of every event struct guarantee. *)
Definition event_valid (e : Event) : Prop :=
  u64_ok (as_nanoseconds (timestamp e)) ∧
  match e with
  | CreateRuleset e =>
      id_valid (cre_ruleset_id e) ∧ u64_ok (cre_ruleset_version e) ∧
      u64_ok (bits (cre_handled_fs e)) ∧ u64_ok (bits (cre_handled_net e)) ∧
      u64_ok (bits (cre_scoped e))
  | AddRulePathBeneath e =>
      id_valid (arp_ruleset_id e) ∧ u64_ok (arp_ruleset_version e) ∧
      u64_ok (bits (arp_access_rights e)) ∧ u32_ok (arp_device e) ∧ u64_ok (arp_inode e) ∧
      captured_valid (arp_pathname e)
  | AddRuleNetPort e =>
      id_valid (arn_ruleset_id e) ∧ u64_ok (arn_ruleset_version e) ∧
      u64_ok (bits (arn_access_rights e)) ∧ u64_ok (arn_port e)
  | CreateDomain e =>
      id_valid (cde_ruleset_id e) ∧ u64_ok (cde_ruleset_version e) ∧
      id_valid (cde_domain_id e) ∧ option_valid id_valid (cde_parent_id e) ∧
      pid_valid (cde_creator_tgid e) ∧ captured_valid (cde_creator_comm e)
  | DenyAccessFs e =>
      context_valid (context e) ∧ u32_ok (raw (dfs_blockers_type e)) ∧
      u64_ok (bits (dfs_blockers_access e)) ∧ u32_ok (dfs_device e) ∧ u64_ok (dfs_inode e) ∧
      captured_valid (dfs_pathname e)
  | DenyAccessNet e =>
      context_valid (context e) ∧ u32_ok (raw (dne_blockers_type e)) ∧
      u64_ok (bits (dne_blockers_access e)) ∧ u64_ok (dne_source_port e) ∧
      u64_ok (dne_destination_port e)
  | DenyPtrace e =>
      context_valid (context e) ∧ membership_valid (dpt_tracee_domain e) ∧
      pid_valid (dpt_tracee_pid e) ∧ captured_valid (dpt_tracee_comm e)
  | DenyScopeSignal e =>
      context_valid (context e) ∧ membership_valid (dsi_target_domain e) ∧
      pid_valid (dsi_target_pid e) ∧ captured_valid (dsi_target_comm e)
  | DenyScopeAbstractUnixSocket e =>
      context_valid (context e) ∧ membership_valid (dau_peer_domain e) ∧
      option_valid pid_valid (dau_peer_pid e) ∧ captured_valid (dau_abstract_name e)
  | FreeDomain e => id_valid (fde_domain_id e) ∧ u64_ok (fde_denial_count e)
  | FreeRuleset e => id_valid (fre_ruleset_id e) ∧ u64_ok (fre_ruleset_version e)
  | EnforceDomain e => id_valid (ede_domain_id e) ∧ tid_valid (ede_enforcing_tid e)
  end.

(** ** Lemmas *)

Lemma landlock_id_new_Ok {K} v (i : LandlockId K) :
  landlock_id_new v = Ok i ↔ i = mkLandlockId v ∧ MIN_LANDLOCK_ID <= v.
Proof.
  unfold landlock_id_new, MIN_LANDLOCK_ID.
  destruct (N.eqb_spec v 0), (N.leb_spec 0x100000000 v); simpl;
    split; (intros [= <-] || intros [-> ?]); try lia; done.
Qed.

Lemma process_id_new_Ok v p : process_id_new v = Ok p ↔ p = mkProcessId v ∧ v ≠ 0.
Proof. unfold process_id_new. destruct (N.eqb_spec v 0); naive_solver. Qed.

Lemma thread_id_new_Ok v p : thread_id_new v = Ok p ↔ p = mkThreadId v ∧ v ≠ 0.
Proof. unfold thread_id_new. destruct (N.eqb_spec v 0); naive_solver. Qed.

Lemma testbit_foldl_lor {A} (f : A → N) l acc n :
  N.testbit (foldl (λ acc x, N.lor acc (f x)) acc l) n =
  N.testbit acc n || existsb (λ x, N.testbit (f x) n) l.
Proof.
  revert acc. induction l as [|x l IH]; intros acc; simpl.
  - by rewrite orb_false_r.
  - by rewrite IH, N.lor_spec, orb_assoc.
Qed.

Lemma testbit_u64_max n : N.testbit u64_max n = (n <? 64).
Proof.
  change u64_max with (N.ones 64). destruct (N.ltb_spec n 64).
  - by apply N.ones_spec_low.
  - by apply N.ones_spec_high.
Qed.

Lemma u64_ok_testbit a n : u64_ok a → 64 <= n → N.testbit a n = false.
Proof.
  intros Ha Hn. destruct (decide (a = 0)) as [->|]; [apply N.bits_0|].
  apply N.bits_above_log2. apply N.lt_le_trans with 64; [|done].
  apply N.log2_lt_pow2; [lia|done].
Qed.

Lemma testbit_existsb_filter (l : list (N * string)) a n :
  Forall (λ entry, ∃ i, i < 64 ∧ entry.1 = 2 ^ i) l →
  existsb (λ x, N.testbit x.1 n) (filter (λ entry, N.land a entry.1 ≠ 0) l) =
  N.testbit a n && existsb (λ x, N.testbit x.1 n) l.
Proof.
  induction 1 as [|[b s] l (i & Hi & Hb) Hl IH]; simpl; [by rewrite andb_false_r|].
  simpl in Hb. subst b. rewrite filter_cons. rewrite N.pow2_bits_eqb. case_decide as Hd; simpl in Hd.
  - simpl. rewrite N.pow2_bits_eqb, IH. apply land_pow2_ne_0 in Hd.
    destruct (N.eqb_spec i n) as [->|]; simpl; [by rewrite Hd|done].
  - rewrite IH. destruct (N.eqb_spec i n) as [->|]; simpl; [|done].
    destruct (N.testbit a n) eqn:E; [|done].
    by apply land_pow2_ne_0 in E.
Qed.

(** The table of a mask type is a list of distinct single bits of a [u64]. *)
Class AccessLaws (M : Type) `{AccessType M} := {
  table_single_bits : Forall (λ entry, ∃ i, i < 64 ∧ entry.1 = 2 ^ i) (name_table M);
  table_distinct : NoDup (name_table M).*1;
}.

Ltac solve_access_laws :=
  cbv [name_table FilesystemAccess_access NetworkAccess_access ScopeAccess_access
       FILESYSTEM_ACCESS_NAMES NETWORK_ACCESS_NAMES SCOPE_NAMES];
  split;
  [repeat (apply Forall_cons_2;
    [match goal with |- ∃ _, _ ∧ (?b, _).1 = _ => by exists (N.log2 b); vm_compute end|]);
   apply Forall_nil_2
  |apply (bool_decide_unpack _); vm_compute; exact I].

#[export] Instance FilesystemAccess_laws : AccessLaws FilesystemAccess.
Proof. solve_access_laws. Qed.
#[export] Instance NetworkAccess_laws : AccessLaws NetworkAccess.
Proof. solve_access_laws. Qed.
#[export] Instance ScopeAccess_laws : AccessLaws ScopeAccess.
Proof. solve_access_laws. Qed.

Section access_lemmas.
Context {M : Type} `{AccessLaws M}.

Lemma testbit_known_bits (m : M) n :
  N.testbit (known_bits m) n =
  N.testbit (bits m) n && existsb (λ entry, N.testbit entry.1 n) (name_table M).
Proof. unfold known_bits, table_bits. by rewrite N.land_spec, testbit_foldl_lor, N.bits_0. Qed.

Lemma testbit_unknown_bits (m : M) n :
  u64_ok (bits m) →
  N.testbit (unknown_bits m) n =
  N.testbit (bits m) n && negb (existsb (λ entry, N.testbit entry.1 n) (name_table M)).
Proof.
  intros Hm. unfold unknown_bits, u64_not, table_bits.
  rewrite N.land_spec, N.lxor_spec, testbit_foldl_lor, N.bits_0, testbit_u64_max. simpl.
  destruct (N.ltb_spec n 64); [by rewrite xorb_true_r|].
  by rewrite u64_ok_testbit.
Qed.

Lemma known_unknown_partition (m : M) :
  u64_ok (bits m) →
  N.lor (known_bits m) (unknown_bits m) = bits m ∧ N.land (known_bits m) (unknown_bits m) = 0.
Proof.
  intros Hm. split; apply N.bits_inj; intros n;
    rewrite ?N.lor_spec, ?N.land_spec, ?N.bits_0, testbit_known_bits, testbit_unknown_bits by done;
    destruct (N.testbit (bits m) n), (existsb _ _); done.
Qed.

Lemma known_names_bits (m : M) :
  foldl (λ acc name, N.lor acc (name_bit name)) 0 (known_names m) = known_bits m.
Proof.
  apply N.bits_inj. intros n. rewrite testbit_known_bits, testbit_foldl_lor, N.bits_0. simpl.
  unfold known_names. rewrite <-(testbit_existsb_filter _ _ _ table_single_bits).
  induction (filter _ _) as [|x l IH]; [done|]. simpl. f_equal. exact IH.
Qed.
End access_lemmas.
