(* ===== verification/Builder.v ===== *)
(** * Typestate builders (src/event/mod.rs, [typestate_builder!])

    The macro gives a record a builder with one setter per field. The type of
    the builder says which fields were supplied: a setter exists only while its
    field is [Missing], and [build] only when every field is [Present]. Here a
    slot is an [option], [None] for [Missing]; a call that Rust would not
    compile is [None]. A builder is generic in the list of its fields, as the
    macro is, and each use of the macro is an instance of [Typestate]. *)

From S2P Require Import Prelude CapturedBytes Event.

(** ** The macro *)

(** A record constructor with the given fields. *)
Fixpoint Constructor (fields : list Set) (R : Type) : Type :=
  match fields with
  | [] => R
  | T :: fields => T → Constructor fields R
  end.

Class Typestate (R : Type) := {
  fields : list Set;
  construct : Constructor fields R;
}.
Arguments fields R {_}.
Arguments construct R {_}.

(** The slots of a builder. *)
Fixpoint Builder (fields : list Set) : Set :=
  match fields with
  | [] => unit
  | T :: fields => option T * Builder fields
  end.

Fixpoint missing (fields : list Set) : Builder fields :=
  match fields with
  | [] => ()
  | T :: fields => (None, missing fields)
  end.

Definition builder (R : Type) `{Typestate R} : Builder (fields R) := missing (fields R).

(** A call of the setter of one field. *)
Inductive Call : list Set → Type :=
| here {T : Set} {fields} (value : T) : Call (T :: fields)
| there {T : Set} {fields} (c : Call fields) : Call (T :: fields).

Fixpoint supply {fields} (c : Call fields) : Builder fields → option (Builder fields) :=
  match c with
  | here value => λ b, match b.1 with
                       | None => Some (Some value, b.2)
                       | Some _ => None
                       end
  | there c => λ b, pair b.1 <$> supply c b.2
  end.

Fixpoint build_with {R} (fields : list Set) : Constructor fields R → Builder fields → option R :=
  match fields with
  | [] => λ r _, Some r
  | T :: fields => λ k b, value ← b.1; build_with fields (k value) b.2
  end.

Definition build_record {R} `{Typestate R} (b : Builder (fields R)) : option R := build_with (fields R) (construct R) b.

(** A chain of setter calls. *)
Fixpoint supply_all {fields} (calls : list (Call fields)) (b : Builder fields) : option (Builder fields) :=
  match calls with
  | [] => Some b
  | c :: calls => b ← supply c b; supply_all calls b
  end.

(** [R::builder()], the setters of [calls], [build()]. *)
Definition built {R} `{Typestate R} (calls : list (Call (fields R))) : option R :=
  b ← supply_all calls (builder R); build_record b.

(** ** Its uses *)

#[export] Instance HierarchySnapshot_builder : Typestate HierarchySnapshot :=
  {| fields := [DomainId : Set; option DomainId; ProcessId; CapturedCommand]; construct := mkHierarchySnapshot |}.
#[export] Instance DenialContext_builder : Typestate DenialContext :=
  {| fields := [HierarchySnapshot; N; bool; bool]; construct := mkDenialContext |}.
#[export] Instance CreateRulesetEvent_builder : Typestate CreateRulesetEvent :=
  {| fields := [KernelTimestamp; RulesetId; N; FilesystemAccess; NetworkAccess; ScopeAccess];
     construct := mkCreateRulesetEvent |}.
#[export] Instance AddRulePathBeneathEvent_builder : Typestate AddRulePathBeneathEvent :=
  {| fields := [KernelTimestamp; RulesetId; N; FilesystemAccess; N; N; CapturedPath];
     construct := mkAddRulePathBeneathEvent |}.
#[export] Instance AddRuleNetPortEvent_builder : Typestate AddRuleNetPortEvent :=
  {| fields := [KernelTimestamp; RulesetId; N; NetworkAccess; N]; construct := mkAddRuleNetPortEvent |}.
#[export] Instance CreateDomainEvent_builder : Typestate CreateDomainEvent :=
  {| fields := [KernelTimestamp; RulesetId; N; DomainId; option DomainId; ProcessId; CapturedCommand];
     construct := mkCreateDomainEvent |}.
#[export] Instance DenyAccessFsEvent_builder : Typestate DenyAccessFsEvent :=
  {| fields := [KernelTimestamp; DenialContext; BlockerType; FilesystemAccess; N; N; CapturedPath];
     construct := mkDenyAccessFsEvent |}.
#[export] Instance DenyAccessNetEvent_builder : Typestate DenyAccessNetEvent :=
  {| fields := [KernelTimestamp; DenialContext; BlockerType; NetworkAccess; N; N]; construct := mkDenyAccessNetEvent |}.
#[export] Instance DenyPtraceEvent_builder : Typestate DenyPtraceEvent :=
  {| fields := [KernelTimestamp; DenialContext; DomainMembership; ProcessId; CapturedCommand];
     construct := mkDenyPtraceEvent |}.
#[export] Instance DenyScopeSignalEvent_builder : Typestate DenyScopeSignalEvent :=
  {| fields := [KernelTimestamp; DenialContext; DomainMembership; ProcessId; CapturedCommand];
     construct := mkDenyScopeSignalEvent |}.
#[export] Instance DenyScopeAbstractUnixSocketEvent_builder : Typestate DenyScopeAbstractUnixSocketEvent :=
  {| fields := [KernelTimestamp; DenialContext; DomainMembership; option ProcessId; CapturedAbstractUnixSocketName];
     construct := mkDenyScopeAbstractUnixSocketEvent |}.
#[export] Instance FreeDomainEvent_builder : Typestate FreeDomainEvent :=
  {| fields := [KernelTimestamp; DomainId; N]; construct := mkFreeDomainEvent |}.
#[export] Instance FreeRulesetEvent_builder : Typestate FreeRulesetEvent :=
  {| fields := [KernelTimestamp; RulesetId; N]; construct := mkFreeRulesetEvent |}.
#[export] Instance EnforceDomainEvent_builder : Typestate EnforceDomainEvent :=
  {| fields := [KernelTimestamp; DomainId; ThreadId; bool; bool; bool]; construct := mkEnforceDomainEvent |}.

(** ** One value for every field *)

Fixpoint Values (fields : list Set) : Set :=
  match fields with
  | [] => unit
  | T :: fields => T * Values fields
  end.

Fixpoint construct_from {R} (fields : list Set) : Constructor fields R → Values fields → R :=
  match fields with
  | [] => λ r _, r
  | T :: fields => λ k vs, construct_from fields (k vs.1) vs.2
  end.

(** The setter calls that supply the values, in the order of the fields. *)
Fixpoint calls_of (fields : list Set) : Values fields → list (Call fields) :=
  match fields with
  | [] => λ _, []
  | T :: fields => λ vs, here vs.1 :: (there <$> calls_of fields vs.2)
  end.

Fixpoint full (fields : list Set) : Values fields → Builder fields :=
  match fields with
  | [] => λ _, ()
  | T :: fields => λ vs, (Some vs.1, full fields vs.2)
  end.

(** The calls that have been made, by the slots they filled. *)
Fixpoint present (fields : list Set) : Builder fields → list (Call fields) :=
  match fields with
  | [] => λ _, []
  | T :: fields => λ b, (here <$> option_list b.1) ++ (there <$> present fields b.2)
  end.

(** The calls still to be made to get the values. *)
Fixpoint rest (fields : list Set) : Values fields → Builder fields → list (Call fields) :=
  match fields with
  | [] => λ _ _, []
  | T :: fields => λ vs b,
      match b.1 with
      | None => here vs.1 :: (there <$> rest fields vs.2 b.2)
      | Some _ => there <$> rest fields vs.2 b.2
      end
  end.

(** No slot has another value. *)
Fixpoint agrees (fields : list Set) : Values fields → Builder fields → Prop :=
  match fields with
  | [] => λ _ _, True
  | T :: fields => λ vs b, (b.1 = None ∨ b.1 = Some vs.1) ∧ agrees fields vs.2 b.2
  end.

(** Calls of the first field, and of the others. *)
Definition first_call {fs} (c : Call fs) : match fs return Type with [] => unit | T :: _ => option T end :=
  match c with here v => Some v | there _ => None end.
Definition other_call {fs} (c : Call fs) : match fs return Type with [] => unit | _ :: fs => option (Call fs) end :=
  match c with here _ => None | there c => Some c end.

Lemma here_inj {T : Set} {fs} (v v' : T) : here (fields := fs) v = here v' → v = v'.
Proof. intros Heq. apply (f_equal first_call) in Heq. by injection Heq. Qed.
Lemma there_inj {T : Set} {fs} (c c' : Call fs) : there (T := T) c = there c' → c = c'.
Proof. intros Heq. apply (f_equal other_call) in Heq. by injection Heq. Qed.

Lemma supply_present {fs} (c : Call fs) b b' : supply c b = Some b' → present fs b' ≡ₚ c :: present fs b.
Proof.
  induction c as [T fs v|T fs c IH]; destruct b as [[x|] b]; simpl; intros Hs; try done.
  - by injection Hs as <-.
  - apply fmap_Some in Hs as (b1 & Hb & ->). apply IH in Hb. simpl. rewrite Hb. csimpl. constructor.
  - apply fmap_Some in Hs as (b1 & Hb & ->). apply IH in Hb. simpl. by rewrite Hb.
Qed.

Lemma supply_all_present {fs} (calls : list (Call fs)) b b' :
  supply_all calls b = Some b' → present fs b' ≡ₚ calls ++ present fs b.
Proof.
  revert b. induction calls as [|c calls IH]; intros b; simpl; [by intros [= ->]|].
  intros (b1 & Hs & ->%IH)%bind_Some. apply supply_present in Hs as ->. by rewrite Permutation_middle.
Qed.

Lemma present_missing fs : present fs (missing fs) = [].
Proof. induction fs as [|T fs IH]; [done|]. simpl. by rewrite IH. Qed.

Lemma present_full fs vs : present fs (full fs vs) = calls_of fs vs.
Proof. induction fs as [|T fs IH]; [done|]. simpl. by rewrite IH. Qed.

Lemma build_with_full {R} fs (k : Constructor fs R) b r :
  build_with fs k b = Some r ↔ ∃ vs, b = full fs vs ∧ r = construct_from fs k vs.
Proof.
  induction fs as [|T fs IH]; simpl.
  - split; [intros [= <-]; exists (); by destruct b|by intros (vs & _ & ->)].
  - destruct b as [[x|] b]; simpl; [rewrite IH|]; split.
    + intros (vs & -> & ->). by exists (x, vs).
    + intros ([v vs] & [= -> ->] & ->). by exists vs.
    + done.
    + by intros (vs & [=] & _).
Qed.

Lemma supply_rest {fs} (c : Call fs) vs b :
  agrees fs vs b → c ∈ rest fs vs b →
  ∃ b', supply c b = Some b' ∧ agrees fs vs b' ∧ rest fs vs b ≡ₚ c :: rest fs vs b'.
Proof.
  induction c as [T fs v|T fs c IH]; destruct vs as [v' vs], b as [slot b]; simpl; intros [Hslot Ha] Hin.
  - destruct slot as [x|]; [by apply list_elem_of_fmap in Hin as (? & [=] & _)|].
    apply elem_of_cons in Hin as [->%here_inj|Hin]; [|by apply list_elem_of_fmap in Hin as (? & [=] & _)].
    eexists. split; [done|]. simpl. split; [split; [by right|done]|done].
  - assert (c ∈ rest fs vs b) as Hc.
    { destruct slot as [x|]; [|apply elem_of_cons in Hin as [[=]|Hin]];
        apply list_elem_of_fmap in Hin as (c' & ->%there_inj & Hin); done. }
    destruct (IH vs b Ha Hc) as (b' & -> & Ha' & Hp). eexists. split; [done|]. simpl. split; [done|].
    destruct slot as [x|]; rewrite Hp; csimpl; [done|constructor].
Qed.

Lemma rest_nil fs vs b : agrees fs vs b → rest fs vs b = [] → b = full fs vs.
Proof.
  induction fs as [|T fs IH]; [by destruct b|]. destruct vs as [v vs], b as [[x|] b]; simpl; [|done].
  intros [[?|[= ->]] Ha] Hr; [done|]. apply fmap_nil_inv in Hr. f_equal. by apply IH.
Qed.

Lemma supply_all_rest {fs} (calls : list (Call fs)) vs b :
  agrees fs vs b → calls ≡ₚ rest fs vs b → supply_all calls b = Some (full fs vs).
Proof.
  revert b. induction calls as [|c calls IH]; intros b Ha Hp; simpl.
  - f_equal. apply rest_nil; [done|]. symmetry. by apply Permutation_nil_l.
  - destruct (supply_rest c vs b Ha) as (b' & -> & Ha' & Hr); [rewrite <- Hp; left|]. simpl.
    apply IH; [done|]. rewrite Hr in Hp. by apply Permutation_cons_inv in Hp.
Qed.

Lemma rest_missing fs vs : agrees fs vs (missing fs) ∧ rest fs vs (missing fs) = calls_of fs vs.
Proof.
  induction fs as [|T fs IH]; [done|]. destruct vs as [v vs]. simpl. destruct (IH vs) as [Ha ->].
  split; [split; [by left|done]|done].
Qed.

(** C18: a chain of setters followed by [build] compiles exactly when it
    supplies every field once, in whatever order, and then builds the record
    with these values: a missing or repeated field is refused, and the order of
    the calls never matters. *)
Theorem built_iff {R} `{Typestate R} (calls : list (Call (fields R))) (r : R) :
  built calls = Some r ↔
  ∃ values, calls ≡ₚ calls_of (fields R) values ∧ r = construct_from (fields R) (construct R) values.
Proof.
  unfold built, build_record, builder. split.
  - intros (b & Hs & (vs & -> & ->)%build_with_full)%bind_Some. exists vs. split; [|done].
    apply supply_all_present in Hs. rewrite present_missing, app_nil_r, present_full in Hs. done.
  - intros (vs & Hp & ->). destruct (rest_missing (fields R) vs) as [Ha Hr].
    rewrite (supply_all_rest calls vs) by (done || by rewrite Hr). simpl. apply build_with_full. by exists vs.
Qed.

(** The examples of the documentation: a missing field, a repeated field. *)
Example built_examples (t t' : KernelTimestamp) (id : DomainId) :
  built (R := FreeDomainEvent) [there (there (here 7)); here t; there (here id)] = Some (mkFreeDomainEvent t id 7) ∧
  built (R := FreeDomainEvent) [here t; there (here id)] = None ∧
  built (R := FreeDomainEvent) [here t; here t'] = None.
Proof. done. Qed.
