(* ===== verification/Wire.v ===== *)
(** * The private wire format (src/wire.rs, src/bpf/event.h)

    [decode] turns one fixed-size ring-buffer sample into a semantic event. The
    builder chains of the source evaluate their fallible arguments in order, so
    each chain is a sequence of [let?] in the same order, and the first failing
    field decides the error. [from_ne_bytes] depends on the target; every
    definition takes the target's endianness.

    [encode] is the producer's record layout: the offsets and widths that
    event.h asserts, written over an arbitrary buffer, so that the bytes no
    field covers are unconstrained. *)

From S2P Require Import Prelude CapturedBytes Event.

Definition RECORD_SIZE : N := 352.
Definition TIMESTAMP_OFFSET : N := 0.
Definition TYPE_OFFSET : N := 8.
Definition UNION_OFFSET : N := 16.
Definition COMM_SIZE : N := 16.
Definition PATH_SIZE : N := 256.
Definition ABSTRACT_UNIX_SOCKET_NAME_MAX_LEN : N := 107.

Definition CREATE_RULESET : N := 1.
Definition ADD_RULE_PATH_BENEATH : N := 2.
Definition ADD_RULE_NET_PORT : N := 3.
Definition CREATE_DOMAIN : N := 4.
Definition DENY_ACCESS_FS : N := 5.
Definition DENY_ACCESS_NET : N := 6.
Definition DENY_PTRACE : N := 7.
Definition DENY_SCOPE_SIGNAL : N := 8.
Definition DENY_SCOPE_ABSTRACT_UNIX_SOCKET : N := 9.
Definition FREE_DOMAIN : N := 10.
Definition FREE_RULESET : N := 11.
Definition ENFORCE_DOMAIN : N := 12.

Inductive DecodeError :=
| Length (expected actual : N)
| Boolean (field : string) (value : N)
| CapturedBytesInvalid (field : string) (source : CapturedBytesError)
| AbstractUnixSocketNameLength (value maximum : N)
| Id (field : string) (value : N)
| TaskId (field : string)
| EventKind (value : N)
| Field (field : string).

#[export] Instance DecodeError_eq_dec : EqDecision DecodeError.
Proof. solve_decision. Defined.

Section decoder.
Variable target_endian : endian.

Definition slice_at (data : list byte) (offset size : N) (field : string) :
    result (list byte) DecodeError :=
  let? last := ok_or (checked_add usize_max offset size) (Field field) in
  ok_or (slice_get data offset last) (Field field).

(** [try_into] succeeds when the slice has the array's length. *)
Definition bytes (n : N) (data : list byte) (offset : N) (field : string) :
    result (list byte) DecodeError :=
  let? slice := slice_at data offset n field in
  if len slice =? n then Ok slice else Err (Field field).

Definition u32_at (data : list byte) (offset : N) (field : string) : result N DecodeError :=
  let? array := bytes 4 data offset field in
  Ok (from_ne_bytes target_endian array).

Definition u64_at (data : list byte) (offset : N) (field : string) : result N DecodeError :=
  let? array := bytes 8 data offset field in
  Ok (from_ne_bytes target_endian array).

Definition captured_c_string {K} `{CapturedBytesOrigin K}
    (value : list byte) (omitted : bool) (field : string) :
    result (CapturedBytes K) DecodeError :=
  let last := default (len value) (position is_nul value) in
  let? value := ok_or (slice_get value 0 last) (Field field) in
  map_err (CapturedBytesInvalid field) (captured_new value omitted).

Definition boolean_at (data : list byte) (offset : N) (field : string) : result bool DecodeError :=
  let? value := ok_or (data !! N.to_nat offset) (Field field) in
  match Byte.to_N value with
  | 0 => Ok false
  | 1 => Ok true
  | v => Err (Boolean field v)
  end.

Definition captured_at {K} `{CapturedBytesOrigin K}
    (data : list byte) (offset size omitted_offset : N) (field omitted_field : string) :
    result (CapturedBytes K) DecodeError :=
  let? value := slice_at data offset size field in
  let? omitted := boolean_at data omitted_offset omitted_field in
  captured_c_string value omitted field.

Definition abstract_unix_socket_name_at (data : list byte) (length_offset name_offset : N) :
    result CapturedAbstractUnixSocketName DecodeError :=
  let FIELD := "abstract_unix_socket_name"%string in
  let? length := u32_at data length_offset "abstract_unix_socket_name_length" in
  if ABSTRACT_UNIX_SOCKET_NAME_MAX_LEN <? length
  then Err (AbstractUnixSocketNameLength length ABSTRACT_UNIX_SOCKET_NAME_MAX_LEN)
  else
    let? value := slice_at data name_offset length FIELD in
    map_err (CapturedBytesInvalid FIELD) (captured_new value false).

Definition command_at (data : list byte) (offset : N) (field : string) :
    result CapturedCommand DecodeError :=
  let? value := slice_at data offset COMM_SIZE field in
  captured_c_string value false field.

Definition id {K} (value : N) (field : string) : result (LandlockId K) DecodeError :=
  map_err (λ _, Id field value) (landlock_id_new value).

Definition process_id (value : N) (field : string) : result ProcessId DecodeError :=
  map_err (λ _, TaskId field) (process_id_new value).

Definition thread_id (value : N) (field : string) : result ThreadId DecodeError :=
  map_err (λ _, TaskId field) (thread_id_new value).

Definition optional_process_id (value : N) : option ProcessId := ok (process_id_new value).

Definition parent (value : N) (field : string) : result (option DomainId) DecodeError :=
  if value =? 0 then Ok None else map_ok Some (id value field).

Definition domain_membership (value : N) (field : string) : result DomainMembership DecodeError :=
  if value =? 0 then Ok Unsandboxed else map_ok Sandboxed (id value field).

Definition denial_context (data : list byte) : result DenialContext DecodeError :=
  let? v := u64_at data UNION_OFFSET "domain_id" in
  let? domain_id := id v "domain_id" in
  let? v := u64_at data 24 "parent_id" in
  let? parent_id := parent v "parent_id" in
  let? v := u32_at data 32 "creator_tgid" in
  let? creator_tgid := process_id v "creator_tgid" in
  let? creator_comm := command_at data 36 "creator_comm" in
  let? cumulative_denial_count := u64_at data 56 "cumulative_denial_count" in
  let? same_exec := boolean_at data 72 "same_exec" in
  let? logged := boolean_at data 73 "logged" in
  Ok (mkDenialContext (mkHierarchySnapshot domain_id parent_id creator_tgid creator_comm)
        cumulative_denial_count same_exec logged).

Definition decode_create_ruleset (data : list byte) (timestamp : KernelTimestamp) :
    result Event DecodeError :=
  let? v := u64_at data 16 "ruleset_id" in
  let? ruleset_id := id v "ruleset_id" in
  let? ruleset_version := u64_at data 24 "ruleset_version" in
  let? handled_fs := u64_at data 32 "handled_fs" in
  let? handled_net := u64_at data 40 "handled_net" in
  let? scoped := u64_at data 48 "scoped" in
  Ok (CreateRuleset (mkCreateRulesetEvent timestamp ruleset_id ruleset_version
        (from_bits handled_fs) (from_bits handled_net) (from_bits scoped))).

Definition decode_add_rule_path_beneath (data : list byte) (timestamp : KernelTimestamp) :
    result Event DecodeError :=
  let? v := u64_at data 16 "ruleset_id" in
  let? ruleset_id := id v "ruleset_id" in
  let? ruleset_version := u64_at data 24 "ruleset_version" in
  let? access_rights := u64_at data 32 "access_rights" in
  let? device := u32_at data 40 "device" in
  let? inode := u64_at data 48 "inode" in
  let? pathname := captured_at data 56 PATH_SIZE 44 "pathname" "pathname_bytes_omitted" in
  Ok (AddRulePathBeneath (mkAddRulePathBeneathEvent timestamp ruleset_id ruleset_version
        (from_bits access_rights) device inode pathname)).

Definition decode_add_rule_net_port (data : list byte) (timestamp : KernelTimestamp) :
    result Event DecodeError :=
  let? v := u64_at data 16 "ruleset_id" in
  let? ruleset_id := id v "ruleset_id" in
  let? ruleset_version := u64_at data 24 "ruleset_version" in
  let? access_rights := u64_at data 32 "access_rights" in
  let? port := u64_at data 40 "port" in
  Ok (AddRuleNetPort (mkAddRuleNetPortEvent timestamp ruleset_id ruleset_version
        (from_bits access_rights) port)).

Definition decode_create_domain (data : list byte) (timestamp : KernelTimestamp) :
    result Event DecodeError :=
  let? v := u64_at data 16 "ruleset_id" in
  let? ruleset_id := id v "ruleset_id" in
  let? ruleset_version := u64_at data 24 "ruleset_version" in
  let? v := u64_at data 32 "domain_id" in
  let? domain_id := id v "domain_id" in
  let? v := u64_at data 40 "parent_id" in
  let? parent_id := parent v "parent_id" in
  let? v := u32_at data 48 "creator_tgid" in
  let? creator_tgid := process_id v "creator_tgid" in
  let? creator_comm := command_at data 52 "creator_comm" in
  Ok (CreateDomain (mkCreateDomainEvent timestamp ruleset_id ruleset_version
        domain_id parent_id creator_tgid creator_comm)).

Definition decode_deny_access_fs (data : list byte) (timestamp : KernelTimestamp) :
    result Event DecodeError :=
  let? context := denial_context data in
  let? blockers_type := u32_at data 52 "blockers_type" in
  let? blockers_access := u64_at data 64 "blockers_access" in
  let? device := u32_at data 80 "device" in
  let? inode := u64_at data 88 "inode" in
  let? pathname := captured_at data 96 PATH_SIZE 84 "pathname" "pathname_bytes_omitted" in
  Ok (DenyAccessFs (mkDenyAccessFsEvent timestamp context (from_raw blockers_type)
        (from_bits blockers_access) device inode pathname)).

Definition decode_deny_access_net (data : list byte) (timestamp : KernelTimestamp) :
    result Event DecodeError :=
  let? context := denial_context data in
  let? blockers_type := u32_at data 52 "blockers_type" in
  let? blockers_access := u64_at data 64 "blockers_access" in
  let? source_port := u64_at data 80 "source_port" in
  let? destination_port := u64_at data 88 "destination_port" in
  Ok (DenyAccessNet (mkDenyAccessNetEvent timestamp context (from_raw blockers_type)
        (from_bits blockers_access) source_port destination_port)).

Definition decode_deny_ptrace (data : list byte) (timestamp : KernelTimestamp) :
    result Event DecodeError :=
  let? context := denial_context data in
  let? v := u64_at data 80 "tracee_domain" in
  let? tracee_domain := domain_membership v "tracee_domain" in
  let? v := u32_at data 88 "tracee_pid" in
  let? tracee_pid := process_id v "tracee_pid" in
  let? tracee_comm := command_at data 92 "tracee_comm" in
  Ok (DenyPtrace (mkDenyPtraceEvent timestamp context tracee_domain tracee_pid tracee_comm)).

Definition decode_deny_scope_signal (data : list byte) (timestamp : KernelTimestamp) :
    result Event DecodeError :=
  let? context := denial_context data in
  let? v := u64_at data 80 "target_domain" in
  let? target_domain := domain_membership v "target_domain" in
  let? v := u32_at data 88 "target_pid" in
  let? target_pid := process_id v "target_pid" in
  let? target_comm := command_at data 92 "target_comm" in
  Ok (DenyScopeSignal (mkDenyScopeSignalEvent timestamp context target_domain target_pid
        target_comm)).

Definition decode_deny_scope_abstract_unix_socket (data : list byte)
    (timestamp : KernelTimestamp) : result Event DecodeError :=
  let? context := denial_context data in
  let? v := u64_at data 80 "peer_domain" in
  let? peer_domain := domain_membership v "peer_domain" in
  let? v := u32_at data 88 "peer_pid" in
  let? abstract_name := abstract_unix_socket_name_at data 92 96 in
  Ok (DenyScopeAbstractUnixSocket (mkDenyScopeAbstractUnixSocketEvent timestamp context
        peer_domain (optional_process_id v) abstract_name)).

Definition decode_free_domain (data : list byte) (timestamp : KernelTimestamp) :
    result Event DecodeError :=
  let? v := u64_at data 16 "domain_id" in
  let? domain_id := id v "domain_id" in
  let? denial_count := u64_at data 24 "denial_count" in
  Ok (FreeDomain (mkFreeDomainEvent timestamp domain_id denial_count)).

Definition decode_free_ruleset (data : list byte) (timestamp : KernelTimestamp) :
    result Event DecodeError :=
  let? v := u64_at data 16 "ruleset_id" in
  let? ruleset_id := id v "ruleset_id" in
  let? ruleset_version := u64_at data 24 "ruleset_version" in
  Ok (FreeRuleset (mkFreeRulesetEvent timestamp ruleset_id ruleset_version)).

Definition decode_enforce_domain (data : list byte) (timestamp : KernelTimestamp) :
    result Event DecodeError :=
  let? v := u64_at data 16 "domain_id" in
  let? domain_id := id v "domain_id" in
  let? v := u32_at data 24 "enforcing_tid" in
  let? enforcing_tid := thread_id v "enforcing_tid" in
  let? complete := boolean_at data 28 "complete" in
  let? process_wide := boolean_at data 29 "process_wide" in
  let? no_new_privs := boolean_at data 30 "no_new_privs" in
  Ok (EnforceDomain (mkEnforceDomainEvent timestamp domain_id enforcing_tid complete
        process_wide no_new_privs)).

(** The [match event_type] of [decode]. *)
Definition decode_event (event_type : N) (data : list byte) (timestamp : KernelTimestamp) :
    result Event DecodeError :=
  if event_type =? CREATE_RULESET then decode_create_ruleset data timestamp
  else if event_type =? ADD_RULE_PATH_BENEATH then decode_add_rule_path_beneath data timestamp
  else if event_type =? ADD_RULE_NET_PORT then decode_add_rule_net_port data timestamp
  else if event_type =? CREATE_DOMAIN then decode_create_domain data timestamp
  else if event_type =? DENY_ACCESS_FS then decode_deny_access_fs data timestamp
  else if event_type =? DENY_ACCESS_NET then decode_deny_access_net data timestamp
  else if event_type =? DENY_PTRACE then decode_deny_ptrace data timestamp
  else if event_type =? DENY_SCOPE_SIGNAL then decode_deny_scope_signal data timestamp
  else if event_type =? DENY_SCOPE_ABSTRACT_UNIX_SOCKET
    then decode_deny_scope_abstract_unix_socket data timestamp
  else if event_type =? FREE_DOMAIN then decode_free_domain data timestamp
  else if event_type =? FREE_RULESET then decode_free_ruleset data timestamp
  else if event_type =? ENFORCE_DOMAIN then decode_enforce_domain data timestamp
  else Err (EventKind event_type).

Definition decode (data : list byte) : result Event DecodeError :=
  if negb (len data =? RECORD_SIZE) then Err (Length RECORD_SIZE (len data))
  else
    let? event_type := ok_or (data !! N.to_nat TYPE_OFFSET) (Field "event_type") in
    let? nanoseconds := u64_at data TIMESTAMP_OFFSET "timestamp" in
    decode_event (Byte.to_N event_type) data (from_nanoseconds nanoseconds).

(** ** The producer's layout *)

Definition put8 (off : nat) (v : N) (data : list byte) : list byte :=
  list_inserts off [byte_of_N v] data.
Definition put32 (off : nat) (v : N) (data : list byte) : list byte :=
  list_inserts off (to_ne_bytes target_endian 4 v) data.
Definition put64 (off : nat) (v : N) (data : list byte) : list byte :=
  list_inserts off (to_ne_bytes target_endian 8 v) data.
Definition put_bytes (off : nat) (bs data : list byte) : list byte := list_inserts off bs data.
Definition put_bool (off : nat) (b : bool) (data : list byte) : list byte :=
  put8 off (if b then 1 else 0) data.

(** A char array of [size] bytes holding [bs], NUL-terminated when it fits. *)
Definition put_c_string (off size : nat) (bs data : list byte) : list byte :=
  put_bytes off (bs ++ if decide (length bs < size)%nat then [Byte.x00] else []) data.

Definition parent_raw (p : option DomainId) : N := from_option id_get 0 p.
Definition peer_pid_raw (p : option ProcessId) : N := from_option pid_get 0 p.

Definition put_header (kind : N) (t : KernelTimestamp) (data : list byte) : list byte :=
  put8 8 kind (put64 0 (as_nanoseconds t) data).

Definition put_context (c : DenialContext) (data : list byte) : list byte :=
  let h := dc_hierarchy c in
  put_bool 73 (dc_logged c) $ put_bool 72 (dc_same_exec c) $
  put64 56 (dc_cumulative_denial_count c) $
  put_c_string 36 16 (as_bytes (hs_creator_comm h)) $
  put32 32 (pid_get (hs_creator_tgid h)) $
  put64 24 (parent_raw (hs_parent_id h)) $
  put64 16 (id_get (hs_domain_id h)) data.

Definition encode (data : list byte) (e : Event) : list byte :=
  match e with
  | CreateRuleset e =>
      put64 48 (bits (cre_scoped e)) $ put64 40 (bits (cre_handled_net e)) $
      put64 32 (bits (cre_handled_fs e)) $ put64 24 (cre_ruleset_version e) $
      put64 16 (id_get (cre_ruleset_id e)) $ put_header CREATE_RULESET (timestamp e) data
  | AddRulePathBeneath e =>
      put_c_string 56 256 (as_bytes (arp_pathname e)) $ put64 48 (arp_inode e) $
      put_bool 44 (bytes_omitted (arp_pathname e)) $ put32 40 (arp_device e) $
      put64 32 (bits (arp_access_rights e)) $ put64 24 (arp_ruleset_version e) $
      put64 16 (id_get (arp_ruleset_id e)) $ put_header ADD_RULE_PATH_BENEATH (timestamp e) data
  | AddRuleNetPort e =>
      put64 40 (arn_port e) $ put64 32 (bits (arn_access_rights e)) $
      put64 24 (arn_ruleset_version e) $ put64 16 (id_get (arn_ruleset_id e)) $
      put_header ADD_RULE_NET_PORT (timestamp e) data
  | CreateDomain e =>
      put_c_string 52 16 (as_bytes (cde_creator_comm e)) $ put32 48 (pid_get (cde_creator_tgid e)) $
      put64 40 (parent_raw (cde_parent_id e)) $ put64 32 (id_get (cde_domain_id e)) $
      put64 24 (cde_ruleset_version e) $ put64 16 (id_get (cde_ruleset_id e)) $
      put_header CREATE_DOMAIN (timestamp e) data
  | DenyAccessFs e =>
      put_c_string 96 256 (as_bytes (dfs_pathname e)) $ put64 88 (dfs_inode e) $
      put_bool 84 (bytes_omitted (dfs_pathname e)) $ put32 80 (dfs_device e) $
      put64 64 (bits (dfs_blockers_access e)) $ put32 52 (raw (dfs_blockers_type e)) $
      put_context (context e) $ put_header DENY_ACCESS_FS (timestamp e) data
  | DenyAccessNet e =>
      put64 88 (dne_destination_port e) $ put64 80 (dne_source_port e) $
      put64 64 (bits (dne_blockers_access e)) $ put32 52 (raw (dne_blockers_type e)) $
      put_context (context e) $ put_header DENY_ACCESS_NET (timestamp e) data
  | DenyPtrace e =>
      put_c_string 92 16 (as_bytes (dpt_tracee_comm e)) $ put32 88 (pid_get (dpt_tracee_pid e)) $
      put64 80 (parent_raw (membership_domain_id (dpt_tracee_domain e))) $
      put_context (context e) $ put_header DENY_PTRACE (timestamp e) data
  | DenyScopeSignal e =>
      put_c_string 92 16 (as_bytes (dsi_target_comm e)) $ put32 88 (pid_get (dsi_target_pid e)) $
      put64 80 (parent_raw (membership_domain_id (dsi_target_domain e))) $
      put_context (context e) $ put_header DENY_SCOPE_SIGNAL (timestamp e) data
  | DenyScopeAbstractUnixSocket e =>
      put_bytes 96 (as_bytes (dau_abstract_name e)) $
      put32 92 (len (as_bytes (dau_abstract_name e))) $
      put32 88 (peer_pid_raw (dau_peer_pid e)) $
      put64 80 (parent_raw (membership_domain_id (dau_peer_domain e))) $
      put_context (context e) $ put_header DENY_SCOPE_ABSTRACT_UNIX_SOCKET (timestamp e) data
  | FreeDomain e =>
      put64 24 (fde_denial_count e) $ put64 16 (id_get (fde_domain_id e)) $
      put_header FREE_DOMAIN (timestamp e) data
  | FreeRuleset e =>
      put64 24 (fre_ruleset_version e) $ put64 16 (id_get (fre_ruleset_id e)) $
      put_header FREE_RULESET (timestamp e) data
  | EnforceDomain e =>
      put_bool 30 (ede_no_new_privs e) $ put_bool 29 (ede_process_wide e) $
      put_bool 28 (ede_complete e) $ put32 24 (tid_get (ede_enforcing_tid e)) $
      put64 16 (id_get (ede_domain_id e)) $ put_header ENFORCE_DOMAIN (timestamp e) data
  end.

End decoder.

(** ** Reading a window of a record *)

Section reads.
Context (E : endian).
Implicit Types data bs : list byte.

Lemma slice_at_window data off n field :
  off + n <= len data → len data <= usize_max →
  slice_at data off n field = Ok (window (N.to_nat off) (N.to_nat n) data).
Proof.
  intros H1 H2. unfold slice_at, checked_add.
  rewrite (proj2 (N.leb_le _ _)) by lia. simpl. by rewrite slice_get_window.
Qed.

Lemma slice_at_inserts_ne data bs off off' n field :
  (N.to_nat off + N.to_nat n ≤ off' ∨ off' + length bs ≤ N.to_nat off)%nat →
  slice_at (list_inserts off' bs data) off n field = slice_at data off n field.
Proof.
  intros H. unfold slice_at. destruct (checked_add _ off n) as [last|] eqn:El; simpl; [|done].
  unfold checked_add in El. case_match; simplify_eq.
  unfold slice_get, len. rewrite length_inserts. case_match; [|done]. do 2 f_equal.
  replace (N.to_nat (off + n - off)) with (N.to_nat n) by lia.
  by apply window_inserts_ne.
Qed.

Lemma boolean_at_inserts_ne data bs off off' field :
  (N.to_nat off < off' ∨ off' + length bs ≤ N.to_nat off)%nat →
  boolean_at (list_inserts off' bs data) off field = boolean_at data off field.
Proof.
  intros H. unfold boolean_at. do 2 f_equal.
  destruct H; [by apply list_lookup_inserts_lt|by apply list_lookup_inserts_ge].
Qed.

Lemma boolean_at_put_bool data (b : bool) off off' field :
  off = N.of_nat off' → (off' < length data)%nat →
  boolean_at (list_inserts off' [byte_of_N (if b then 1 else 0)] data) off field = Ok b.
Proof.
  intros -> H. unfold boolean_at. rewrite Nat2N.id. simpl.
  rewrite list_lookup_insert_eq by done. by destruct b.
Qed.

Lemma bytes_put data bs off off' n field :
  off = N.of_nat off' → n = len bs → (off' + length bs ≤ length data)%nat →
  len data <= usize_max →
  bytes n (list_inserts off' bs data) off field = Ok bs.
Proof.
  intros -> -> H1 H2. unfold bytes, len in *.
  rewrite slice_at_window; unfold len; rewrite ?length_inserts; [|lia|lia]. simpl.
  rewrite !Nat2N.id, window_inserts_same by lia. by rewrite N.eqb_refl.
Qed.

Lemma u64_at_put64 data v off off' field :
  off = N.of_nat off' → u64_ok v → (off' + 8 ≤ length data)%nat → len data <= usize_max →
  u64_at E (list_inserts off' (to_ne_bytes E 8 v) data) off field = Ok v.
Proof.
  intros Ho Hv H1 H2. unfold u64_at.
  rewrite bytes_put; unfold len; rewrite ?length_to_ne_bytes; try done. simpl.
  by rewrite from_to_ne_bytes.
Qed.

Lemma u32_at_put32 data v off off' field :
  off = N.of_nat off' → u32_ok v → (off' + 4 ≤ length data)%nat → len data <= usize_max →
  u32_at E (list_inserts off' (to_ne_bytes E 4 v) data) off field = Ok v.
Proof.
  intros Ho Hv H1 H2. unfold u32_at.
  rewrite bytes_put; unfold len; rewrite ?length_to_ne_bytes; try done. simpl.
  by rewrite from_to_ne_bytes.
Qed.

Lemma u64_at_inserts_ne data bs off off' field :
  (N.to_nat off + 8 ≤ off' ∨ off' + length bs ≤ N.to_nat off)%nat →
  u64_at E (list_inserts off' bs data) off field = u64_at E data off field.
Proof. intros H. unfold u64_at, bytes. by rewrite slice_at_inserts_ne. Qed.

Lemma u32_at_inserts_ne data bs off off' field :
  (N.to_nat off + 4 ≤ off' ∨ off' + length bs ≤ N.to_nat off)%nat →
  u32_at E (list_inserts off' bs data) off field = u32_at E data off field.
Proof. intros H. unfold u32_at, bytes. by rewrite slice_at_inserts_ne. Qed.
End reads.

(** ** Captured byte fields *)

Section captured_reads.
Context (E : endian).
Implicit Types data bs : list byte.

Lemma captured_c_string_split {K} `{CapturedBytesOrigin K} value o field :
  ∃ bs, captured_c_string (K := K) value o field =
          map_err (CapturedBytesInvalid field) (captured_new bs o) ∧
        Byte.x00 ∉ bs ∧ (value = bs ∨ ∃ tail, value = bs ++ Byte.x00 :: tail).
Proof.
  unfold captured_c_string. destruct (position is_nul value) as [p|] eqn:Hp; simpl.
  - apply position_Some in Hp as (bs & x & tail & -> & <- & Hx & Hbs).
    apply is_nul_true in Hx as ->. exists bs.
    assert (Byte.x00 ∉ bs) as Hn.
    { apply position_nul_None, position_None. done. }
    split; [|eauto]. unfold slice_get, len. rewrite length_app.
    rewrite (proj2 (N.leb_le _ _)), (proj2 (N.leb_le _ _)) by (simpl; lia). simpl.
    rewrite N.sub_0_r, Nat2N.id, drop_0. by rewrite take_app_length.
  - apply position_nul_None in Hp. exists value. split; [|eauto].
    unfold slice_get, len.
    rewrite (proj2 (N.leb_le _ _)), (proj2 (N.leb_le _ _)) by lia. simpl.
    rewrite N.sub_0_r, Nat2N.id, drop_0. by rewrite take_ge.
Qed.

(** [v] is [bs], or [bs] followed by a terminator. *)
Definition nul_prefix (bs v : list byte) : Prop :=
  Byte.x00 ∉ bs ∧ (v = bs ∨ ∃ tail, v = bs ++ Byte.x00 :: tail).

Lemma nul_prefix_inv bs x v :
  nul_prefix bs (x :: v) →
  (bs = [] ∧ x = Byte.x00) ∨ ∃ bs', bs = x :: bs' ∧ x ≠ Byte.x00 ∧ nul_prefix bs' v.
Proof.
  intros [Hn Hv]. destruct bs as [|y bs].
  - left. destruct Hv as [|[t ?]]; simplify_eq/=; done.
  - right. apply not_elem_of_cons in Hn as [Hy Hn]. exists bs.
    destruct Hv as [|[t ?]]; simplify_eq/=; repeat split; eauto.
Qed.

Lemma nul_split_unique bs bs' v : nul_prefix bs v → nul_prefix bs' v → bs = bs'.
Proof.
  revert bs bs'. induction v as [|x v IH]; intros bs bs' H H'.
  - destruct H as [_ [<-|[t Ht]]], H' as [_ [<-|[t' Ht']]]; try done; by destruct bs || by destruct bs'.
  - apply nul_prefix_inv in H as [[-> ->]|(b & -> & Hx & H)];
      apply nul_prefix_inv in H' as [[-> ?]|(b' & -> & Hx' & H')]; try done.
    f_equal. by apply IH.
Qed.

Lemma captured_c_string_prefix {K} `{CapturedBytesOrigin K} value bs o field :
  Byte.x00 ∉ bs → (value = bs ∨ ∃ tail, value = bs ++ Byte.x00 :: tail) →
  captured_c_string (K := K) value o field =
    map_err (CapturedBytesInvalid field) (captured_new bs o).
Proof.
  intros Hn Hv. destruct (captured_c_string_split (K := K) value o field) as (bs' & -> & Hn' & Hv').
  by rewrite (nul_split_unique bs bs' value).
Qed.

Lemma captured_c_string_Ok {K} `{CapturedBytesOrigin K} value o field (c : CapturedBytes K) :
  captured_c_string value o field = Ok c →
  captured_valid c ∧ bytes_omitted c = o ∧ Byte.x00 ∉ as_bytes c ∧
  (value = as_bytes c ∨ ∃ tail, value = as_bytes c ++ Byte.x00 :: tail).
Proof.
  intros Hc. destruct (captured_c_string_split (K := K) value o field) as (bs & Heq & Hn & Hv).
  rewrite Heq in Hc. apply map_err_Ok, captured_new_Ok in Hc as [-> Hval]. done.
Qed.

(** What a char array holds after the producer stored [bs] in it. *)
Lemma slice_at_put_c_string data bs off off' size size' field :
  off = N.of_nat off' → size = N.of_nat size' → (length bs ≤ size')%nat →
  (off' + size' ≤ length data)%nat → len data <= usize_max →
  ∃ value, slice_at (put_c_string off' size' bs data) off size field = Ok value ∧
    (value = bs ∨ ∃ tail, value = bs ++ Byte.x00 :: tail).
Proof.
  intros -> -> Hl H1 H2. unfold put_c_string, put_bytes.
  set (w := bs ++ _). assert (length w ≤ size')%nat as Hw.
  { subst w. rewrite length_app. case_decide; simpl; lia. }
  eexists. split.
  { apply slice_at_window; unfold len in *; rewrite length_inserts; lia. }
  rewrite !Nat2N.id. set (v := window _ _ _).
  assert (take (length w) v = w) as Ht.
  { subst v. unfold window. rewrite take_take, Nat.min_l by done.
    apply window_inserts_same; [done|lia]. }
  assert (length v = size') as Hlv by (subst v; apply length_window; rewrite length_inserts; lia).
  rewrite <-(take_drop (length w) v), Ht. subst w. case_decide.
  - right. eexists. by rewrite <-app_assoc.
  - left. rewrite app_nil_r in *. rewrite drop_ge by lia. by rewrite app_nil_r.
Qed.

Lemma mk_captured_eta {K} (c : CapturedBytes K) : mkCapturedBytes (as_bytes c) (bytes_omitted c) = c.
Proof. by destruct c. Qed.

Lemma captured_c_string_valid {K} `{CapturedBytesOrigin K} (c : CapturedBytes K) value field :
  captured_valid c → ALLOWS_NUL K = false →
  (value = as_bytes c ∨ ∃ tail, value = as_bytes c ++ Byte.x00 :: tail) →
  captured_c_string value (bytes_omitted c) field = Ok c.
Proof.
  intros Hc Hn Hv. rewrite (captured_c_string_prefix _ (as_bytes c)); [|by apply Hc|done].
  apply map_err_Ok, captured_new_Ok. by rewrite mk_captured_eta.
Qed.

Lemma command_at_put data (c : CapturedCommand) off off' field :
  off = N.of_nat off' → captured_valid c → (off' + 16 ≤ length data)%nat →
  len data <= usize_max →
  command_at (put_c_string off' 16 (as_bytes c) data) off field = Ok c.
Proof.
  intros Ho Hc H1 H2. unfold command_at.
  destruct (slice_at_put_c_string data (as_bytes c) off off' COMM_SIZE 16 field)
    as (value & -> & Hv); try done.
  { destruct Hc as (_ & Hl & _). unfold len in Hl. simpl in Hl. lia. }
  simpl. assert (bytes_omitted c = false) as Hom.
  { destruct Hc as (_ & _ & Hom). destruct (bytes_omitted c); [|done]. by destruct Hom. }
  rewrite <-Hom. by apply captured_c_string_valid.
Qed.

Lemma pathname_at_put data (c : CapturedPath) off off' omitted_off field omitted_field :
  off = N.of_nat off' → captured_valid c → (off' + 256 ≤ length data)%nat →
  len data <= usize_max →
  (N.to_nat omitted_off < off')%nat →
  boolean_at data omitted_off omitted_field = Ok (bytes_omitted c) →
  captured_at (put_c_string off' 256 (as_bytes c) data) off PATH_SIZE omitted_off
    field omitted_field = Ok c.
Proof.
  intros Ho Hc H1 H2 H3 Hb. unfold captured_at.
  destruct (slice_at_put_c_string data (as_bytes c) off off' PATH_SIZE 256 field)
    as (value & -> & Hv); try done.
  { destruct Hc as (_ & Hl & _). unfold len in Hl. simpl in Hl. lia. }
  simpl. unfold put_c_string, put_bytes.
  rewrite boolean_at_inserts_ne, Hb by (left; done). simpl. by apply captured_c_string_valid.
Qed.

Lemma abstract_name_at_put data (c : CapturedAbstractUnixSocketName) length_off off off' :
  off = N.of_nat off' → captured_valid c → (off' + 107 ≤ length data)%nat →
  len data <= usize_max → (N.to_nat length_off + 4 ≤ off')%nat →
  u32_at E data length_off "abstract_unix_socket_name_length" = Ok (len (as_bytes c)) →
  abstract_unix_socket_name_at E (list_inserts off' (as_bytes c) data) length_off off = Ok c.
Proof.
  intros -> Hc H1 H2 H3 Hu. unfold abstract_unix_socket_name_at.
  rewrite u32_at_inserts_ne, Hu by (left; lia). simpl.
  destruct Hc as (Hn & Hl & Hom) eqn:EHc. unfold len in *. simpl in Hl.
  change ABSTRACT_UNIX_SOCKET_NAME_MAX_LEN with 107.
  rewrite (proj2 (N.ltb_ge _ _)) by lia.
  rewrite slice_at_window; unfold len in *; rewrite ?length_inserts; [|lia|lia]. simpl.
  rewrite !Nat2N.id, window_inserts_same by lia.
  apply map_err_Ok, captured_new_Ok. split; [|done]. destruct c as [bs []]; [|done].
  by destruct Hom.
Qed.

Lemma slice_command_ne data bs off off' field :
  (N.to_nat off + 16 ≤ off' ∨ off' + length bs ≤ N.to_nat off)%nat →
  command_at (list_inserts off' bs data) off field = command_at data off field.
Proof. intros H. unfold command_at. by rewrite slice_at_inserts_ne. Qed.
End captured_reads.

(** ** Evaluating the decoder on an encoded record *)

Section c_string_frame.
Context (E : endian).

Lemma length_c_string size (bs : list byte) :
  (length bs ≤ size)%nat →
  (length (bs ++ if decide (length bs < size)%nat then [Byte.x00] else []) ≤ size)%nat.
Proof. intros H. rewrite length_app. case_decide; simpl; lia. Qed.

Lemma length_put_c_string off size bs data : length (put_c_string off size bs data) = length data.
Proof. apply length_inserts. Qed.

Lemma u64_at_c_string_ne data bs off off' size field :
  (length bs ≤ size)%nat → (N.to_nat off + 8 ≤ off' ∨ off' + size ≤ N.to_nat off)%nat →
  u64_at E (put_c_string off' size bs data) off field = u64_at E data off field.
Proof. intros ? H. pose proof (length_c_string size bs). apply u64_at_inserts_ne. lia. Qed.

Lemma u32_at_c_string_ne data bs off off' size field :
  (length bs ≤ size)%nat → (N.to_nat off + 4 ≤ off' ∨ off' + size ≤ N.to_nat off)%nat →
  u32_at E (put_c_string off' size bs data) off field = u32_at E data off field.
Proof. intros ? H. pose proof (length_c_string size bs). apply u32_at_inserts_ne. lia. Qed.

Lemma boolean_at_c_string_ne data bs off off' size field :
  (length bs ≤ size)%nat → (N.to_nat off < off' ∨ off' + size ≤ N.to_nat off)%nat →
  boolean_at (put_c_string off' size bs data) off field = boolean_at data off field.
Proof. intros ? H. pose proof (length_c_string size bs). apply boolean_at_inserts_ne. lia. Qed.

Lemma command_at_c_string_ne data bs off off' size field :
  (length bs ≤ size)%nat → (N.to_nat off + 16 ≤ off' ∨ off' + size ≤ N.to_nat off)%nat →
  command_at (put_c_string off' size bs data) off field = command_at data off field.
Proof. intros ? H. pose proof (length_c_string size bs). apply slice_command_ne. lia. Qed.

Lemma lookup_c_string_lt data bs off size i :
  (i < off)%nat → put_c_string off size bs data !! i = data !! i.
Proof. apply list_lookup_inserts_lt. Qed.
End c_string_frame.

Lemma id_Ok {K} v field (i : LandlockId K) :
  id v field = Ok i ↔ v = id_get i ∧ MIN_LANDLOCK_ID <= v.
Proof.
  unfold id. rewrite map_err_Ok, landlock_id_new_Ok. destruct i; simpl; naive_solver.
Qed.

Lemma id_valid_Ok {K} (i : LandlockId K) field : id_valid i → id (id_get i) field = Ok i.
Proof. intros [? ?]. by apply id_Ok. Qed.

Lemma parent_Ok v field p :
  parent v field = Ok p ↔ v = parent_raw p ∧ option_valid (λ i, MIN_LANDLOCK_ID <= id_get i) p.
Proof.
  unfold parent, parent_raw. destruct (N.eqb_spec v 0) as [->|Hv].
  - destruct p as [i|]; simpl; [|naive_solver]. unfold MIN_LANDLOCK_ID.
    split; [done|]. lia.
  - rewrite map_ok_Ok. setoid_rewrite id_Ok. destruct p as [i|]; simpl; naive_solver.
Qed.

Lemma parent_valid_Ok p field :
  option_valid id_valid p → parent (parent_raw p) field = Ok p.
Proof. intros H. apply parent_Ok. split; [done|]. destruct p; [apply H|done]. Qed.

Lemma domain_membership_parent v field :
  domain_membership v field = map_ok membership_from (parent v field).
Proof.
  unfold domain_membership, parent. case_match; [done|]. by destruct (id v field).
Qed.

Lemma membership_from_domain_id m : membership_from (membership_domain_id m) = m.
Proof. by destruct m. Qed.
Lemma membership_domain_id_from o : membership_domain_id (membership_from o) = o.
Proof. by destruct o. Qed.

Lemma membership_valid_Ok m field :
  membership_valid m → domain_membership (parent_raw (membership_domain_id m)) field = Ok m.
Proof.
  intros H. rewrite domain_membership_parent, parent_valid_Ok by done. simpl.
  by rewrite membership_from_domain_id.
Qed.

Lemma process_id_valid_Ok p field : pid_valid p → process_id (pid_get p) field = Ok p.
Proof.
  intros [? ?]. unfold process_id. apply map_err_Ok, process_id_new_Ok. by destruct p.
Qed.

Lemma thread_id_valid_Ok t field : tid_valid t → thread_id (tid_get t) field = Ok t.
Proof.
  intros [? ?]. unfold thread_id. apply map_err_Ok, thread_id_new_Ok. by destruct t.
Qed.

Lemma optional_process_id_raw o :
  option_valid pid_valid o → optional_process_id (peer_pid_raw o) = o.
Proof.
  destruct o as [[p]|]; simpl; [|done]. intros [Hp _]. unfold optional_process_id, process_id_new.
  simpl in *. by rewrite (proj2 (N.eqb_neq _ _)).
Qed.

Lemma parent_raw_u64 p : option_valid id_valid p → u64_ok (parent_raw p).
Proof. destruct p as [i|]; [by intros [? ?]|done]. Qed.

Lemma peer_pid_raw_u32 p : option_valid pid_valid p → u32_ok (peer_pid_raw p).
Proof. destruct p as [i|]; [by intros [? ?]|done]. Qed.

Lemma captured_path_length (c : CapturedPath) :
  captured_valid c → (length (as_bytes c) ≤ 256)%nat.
Proof. intros (_ & H & _). unfold len in H. simpl in H. lia. Qed.
Lemma captured_command_length (c : CapturedCommand) :
  captured_valid c → (length (as_bytes c) ≤ 15)%nat.
Proof. intros (_ & H & _). unfold len in H. simpl in H. lia. Qed.
Lemma captured_name_length (c : CapturedAbstractUnixSocketName) :
  captured_valid c → (length (as_bytes c) ≤ 107)%nat.
Proof. intros (_ & H & _). unfold len in H. simpl in H. lia. Qed.

Lemma captured_name_u32 (c : CapturedAbstractUnixSocketName) :
  captured_valid c → u32_ok (len (as_bytes c)).
Proof. intros H. apply captured_name_length in H. unfold len, u32_ok. lia. Qed.

#[export] Hint Resolve id_valid_Ok parent_valid_Ok membership_valid_Ok process_id_valid_Ok
  thread_id_valid_Ok parent_raw_u64 peer_pid_raw_u32 captured_name_u32 : wire.

(** Side conditions: disjoint windows, record sizes, integer widths. *)
Ltac wire_length := repeat first [rewrite length_inserts | rewrite length_put_c_string].
Ltac wire_side :=
  wire_length; rewrite ?length_to_ne_bytes; simpl length;
  first [done | lia | by eauto with wire | by (left; simpl; lia) | by (right; simpl; lia)
        | match goal with H : _ ∧ u64_ok _ |- u64_ok _ => apply H end ].
Ltac wire_len :=
  unfold len; wire_length;
  match goal with H : length _ = 352%nat |- _ => rewrite H end; by vm_compute.


Lemma decode_at E data kind t :
  length data = 352%nat → data !! 8%nat = Some (byte_of_N kind) → kind < 256 →
  u64_at E data 0 "timestamp" = Ok t →
  decode E data = decode_event E kind data (from_nanoseconds t).
Proof.
  intros Hl Hk Hb Ht. unfold decode, len. rewrite Hl.
  change (N.to_nat TYPE_OFFSET) with 8%nat. change TIMESTAMP_OFFSET with 0.
  rewrite Hk, Ht. simpl. by rewrite to_N_byte_of_N.
Qed.

(** One reader applied to a record whose outermost write is known: the field
    itself, or a write to a disjoint window. *)
Ltac wire_read :=
  match goal with
  | |- context [u64_at ?E (list_inserts ?o (to_ne_bytes ?E 8 ?v) ?d) ?off ?f] =>
      first [ rewrite (u64_at_put64 E d v off o f) by (done || wire_side || wire_len)
            | rewrite (u64_at_inserts_ne E d _ off o f) by wire_side ]
  | |- context [u32_at ?E (list_inserts ?o (to_ne_bytes ?E 4 ?v) ?d) ?off ?f] =>
      first [ rewrite (u32_at_put32 E d v off o f) by (done || wire_side || wire_len)
            | rewrite (u32_at_inserts_ne E d _ off o f) by wire_side ]
  | |- context [u64_at ?E (list_inserts ?o ?bs ?d) ?off ?f] =>
      rewrite (u64_at_inserts_ne E d bs off o f) by wire_side
  | |- context [u32_at ?E (list_inserts ?o ?bs ?d) ?off ?f] =>
      rewrite (u32_at_inserts_ne E d bs off o f) by wire_side
  | |- context [u64_at ?E (put_c_string ?o ?n ?bs ?d) ?off ?f] =>
      rewrite (u64_at_c_string_ne E d bs off o n f) by wire_side
  | |- context [u32_at ?E (put_c_string ?o ?n ?bs ?d) ?off ?f] =>
      rewrite (u32_at_c_string_ne E d bs off o n f) by wire_side
  | |- context [boolean_at (list_inserts ?o [byte_of_N (if ?b then 1 else 0)] ?d) ?off ?f] =>
      first [ rewrite (boolean_at_put_bool d b off o f) by (done || wire_side)
            | rewrite (boolean_at_inserts_ne d _ off o f) by wire_side ]
  | |- context [boolean_at (list_inserts ?o ?bs ?d) ?off ?f] =>
      rewrite (boolean_at_inserts_ne d bs off o f) by wire_side
  | |- context [boolean_at (put_c_string ?o ?n ?bs ?d) ?off ?f] =>
      rewrite (boolean_at_c_string_ne d bs off o n f) by wire_side
  | |- context [command_at (list_inserts ?o ?bs ?d) ?off ?f] =>
      rewrite (slice_command_ne d bs off o f) by wire_side
  | |- context [command_at (put_c_string ?o ?n ?bs ?d) ?off ?f] =>
      first [ rewrite (command_at_put d _ off o f) by (done || wire_side || wire_len)
            | rewrite (command_at_c_string_ne d bs off o n f) by wire_side ]
  | |- context [captured_at (put_c_string ?o ?n ?bs ?d) ?off ?size ?oo ?f ?f'] =>
      rewrite (pathname_at_put d _ off o oo f f');
        [|done|done|wire_side|wire_len|simpl; lia|repeat wire_read; done]
  | |- context [abstract_unix_socket_name_at ?E (list_inserts ?o ?bs ?d) ?loff ?off] =>
      rewrite (abstract_name_at_put E d _ loff off o);
        [|done|done|wire_side|wire_len|simpl; lia|repeat wire_read; done]
  end.

Ltac wire_lookup :=
  repeat first
    [ rewrite list_lookup_inserts_lt by (simpl; lia)
    | rewrite lookup_c_string_lt by (simpl; lia)
    | rewrite list_lookup_inserts by (wire_length; simpl; lia) ].

(** Splits the validity of every field and of the values inside it. *)
Ltac wire_valid :=
  repeat match goal with
  | H : _ ∧ _ |- _ => destruct H
  | H : context_valid _ |- _ => destruct H
  | H : hierarchy_valid _ |- _ => destruct H as (? & ? & ? & ?)
  | H : id_valid ?i |- _ =>
      lazymatch goal with
      | _ : u64_ok (id_get i) |- _ => fail
      | _ => assert (u64_ok (id_get i)) by apply H
      end
  | H : pid_valid ?p |- _ =>
      lazymatch goal with
      | _ : u32_ok (pid_get p) |- _ => fail
      | _ => assert (u32_ok (pid_get p)) by apply H
      end
  | H : tid_valid ?p |- _ =>
      lazymatch goal with
      | _ : u32_ok (tid_get p) |- _ => fail
      | _ => assert (u32_ok (tid_get p)) by apply H
      end
  | H : captured_valid ?c |- _ =>
      lazymatch goal with
      | _ : (length (as_bytes c) ≤ _)%nat |- _ => fail
      | _ => first [ pose proof (captured_path_length c H)
                   | pose proof (captured_command_length c H)
                   | pose proof (captured_name_length c H) ]
      end
  end.

Ltac wire_eval :=
  repeat first
    [ wire_read
    | rewrite id_valid_Ok by done
    | rewrite parent_valid_Ok by done
    | rewrite membership_valid_Ok by done
    | rewrite process_id_valid_Ok by done
    | rewrite thread_id_valid_Ok by done
    | rewrite optional_process_id_raw by done
    | progress cbn [result_bind] ].

(** Reduces [decode] of a record whose kind and timestamp were written to the
    arm of that kind. *)
Ltac wire_dispatch :=
  match goal with
  | |- context [list_inserts 8 [byte_of_N ?kind] (list_inserts 0 (to_ne_bytes ?E 8 ?t) _)] =>
      rewrite (decode_at E _ kind t);
        [|by wire_length|by wire_lookup|done|by repeat wire_read];
      cbv beta iota delta [decode_event CREATE_RULESET ADD_RULE_PATH_BENEATH ADD_RULE_NET_PORT
        CREATE_DOMAIN DENY_ACCESS_FS DENY_ACCESS_NET DENY_PTRACE DENY_SCOPE_SIGNAL
        DENY_SCOPE_ABSTRACT_UNIX_SOCKET FREE_DOMAIN FREE_RULESET ENFORCE_DOMAIN N.eqb Pos.eqb]
  end.

Ltac wire_arm :=
  cbv beta delta [decode_create_ruleset decode_add_rule_path_beneath decode_add_rule_net_port
    decode_create_domain decode_deny_access_fs decode_deny_access_net decode_deny_ptrace
    decode_deny_scope_signal decode_deny_scope_abstract_unix_socket decode_free_domain
    decode_free_ruleset decode_enforce_domain denial_context UNION_OFFSET].

(** Equality of an event with the record rebuilt from its fields. *)
Ltac wire_eta :=
  repeat match goal with
  | |- Ok (_ ?e) = Ok (_ ?e) => reflexivity
  | e : CreateRulesetEvent |- _ => destruct e
  | e : AddRulePathBeneathEvent |- _ => destruct e
  | e : AddRuleNetPortEvent |- _ => destruct e
  | e : CreateDomainEvent |- _ => destruct e
  | e : DenyAccessFsEvent |- _ => destruct e
  | e : DenyAccessNetEvent |- _ => destruct e
  | e : DenyPtraceEvent |- _ => destruct e
  | e : DenyScopeSignalEvent |- _ => destruct e
  | e : DenyScopeAbstractUnixSocketEvent |- _ => destruct e
  | e : FreeDomainEvent |- _ => destruct e
  | e : FreeRulesetEvent |- _ => destruct e
  | e : EnforceDomainEvent |- _ => destruct e
  | c : DenialContext |- _ => destruct c
  | h : HierarchySnapshot |- _ => destruct h
  | t : KernelTimestamp |- _ => destruct t
  | m : FilesystemAccess |- _ => destruct m
  | m : NetworkAccess |- _ => destruct m
  | m : ScopeAccess |- _ => destruct m
  | b : BlockerType |- _ => destruct b
  end; reflexivity.

Ltac wire_unfold :=
  unfold encode, put_context, put_header, put_bool, put_bytes, put64, put32, put8.

Lemma decode_encode_aux E data e :
  length data = 352%nat → event_valid e → decode E (encode E data e) = Ok e.
Proof.
  intros Hlen [Ht He]. cbn [timestamp Event_obs] in Ht.
  destruct e; cbn [event_timestamp] in Ht; wire_valid; wire_unfold;
    wire_dispatch; wire_arm; wire_eval; wire_eta.
Qed.
