(* ===== verification/WireSpec.v ===== *)
(** * The decoder accepts exactly the records the producer lays out

    [decode_Ok] characterises every successful decode: the input has the
    record's size, the event satisfies its types' invariants, and every byte
    the layout covers holds the event's field. The error theorems say which
    failure a malformed sample gets and that the reads of a full-size record
    stay in bounds. *)

From S2P Require Import Prelude CapturedBytes Event Wire.

(** ** What each reader's success says of the buffer *)

Section reads_Ok.
Context (E : endian).
Implicit Types data : list byte.

Lemma slice_at_Ok data off n field bs :
  slice_at data off n field = Ok bs →
  off + n <= len data ∧ bs = window (N.to_nat off) (N.to_nat n) data.
Proof.
  unfold slice_at. rewrite result_bind_Ok. intros (last & Hl & Hs).
  apply ok_or_Ok in Hl, Hs. unfold checked_add in Hl. case_match; simplify_eq.
  unfold slice_get in Hs. case_match eqn:Hc; simplify_eq.
  apply andb_prop in Hc as [_ Hc%N.leb_le]. split; [done|].
  unfold window. do 2 f_equal. lia.
Qed.

Lemma bytes_Ok data n off field bs :
  bytes n data off field = Ok bs →
  bs = window (N.to_nat off) (N.to_nat n) data ∧ len bs = n.
Proof.
  unfold bytes. rewrite result_bind_Ok. intros (s & Hs & Hb).
  apply slice_at_Ok in Hs as [_ ->]. case_match eqn:Hc; simplify_eq.
  by apply N.eqb_eq in Hc.
Qed.

Lemma put_ne_bytes_window data off n :
  length (window off n data) = n →
  list_inserts off (to_ne_bytes E n (from_ne_bytes E (window off n data))) data = data.
Proof. intros Hl. rewrite <-Hl at 1. rewrite to_from_ne_bytes. apply inserts_window. Qed.

Lemma u64_at_Ok data off field v :
  u64_at E data off field = Ok v → u64_ok v ∧ put64 E (N.to_nat off) v data = data.
Proof.
  unfold u64_at. rewrite result_bind_Ok. intros (bs & [-> Hl]%bytes_Ok & [= <-]).
  unfold len in Hl. split.
  - pose proof (from_ne_bytes_bound E (window (N.to_nat off) (N.to_nat 8) data)) as Hb.
    unfold len in Hb. by rewrite Hl in Hb.
  - apply put_ne_bytes_window. simpl in *. lia.
Qed.

Lemma u32_at_Ok data off field v :
  u32_at E data off field = Ok v → u32_ok v ∧ put32 E (N.to_nat off) v data = data.
Proof.
  unfold u32_at. rewrite result_bind_Ok. intros (bs & [-> Hl]%bytes_Ok & [= <-]).
  unfold len in Hl. split.
  - pose proof (from_ne_bytes_bound E (window (N.to_nat off) (N.to_nat 4) data)) as Hb.
    unfold len in Hb. by rewrite Hl in Hb.
  - apply put_ne_bytes_window. simpl in *. lia.
Qed.

Lemma boolean_at_Ok data off field b :
  boolean_at data off field = Ok b → put_bool (N.to_nat off) b data = data.
Proof.
  unfold boolean_at. rewrite result_bind_Ok. intros (x & Hx%ok_or_Ok & Hb).
  unfold put_bool, put8. simpl. apply list_insert_id. rewrite Hx. f_equal.
  rewrite <-(byte_of_N_to_N x). f_equal. repeat case_match; simplify_eq; done.
Qed.

Lemma inserts_prefix (bs tail data : list byte) off n :
  window off n data = bs ++ tail → list_inserts off bs data = data.
Proof.
  intros Hw. enough (bs = window off (length bs) data) as -> by apply inserts_window.
  assert (length bs ≤ n)%nat as Hle.
  { apply (f_equal length) in Hw. unfold window in Hw. rewrite length_app, length_take in Hw. lia. }
  transitivity (take (length bs) (window off n data)); [by rewrite Hw, take_app_length|].
  unfold window. by rewrite take_take, Nat.min_l.
Qed.

Lemma put_c_string_id data bs off n :
  (off + n ≤ length data)%nat →
  (window off n data = bs ∨ ∃ tail, window off n data = bs ++ Byte.x00 :: tail) →
  put_c_string off n bs data = data.
Proof.
  intros Hl Hw. assert (length (window off n data) = n) as Hn by by apply length_window.
  unfold put_c_string, put_bytes. destruct Hw as [<-|[tail Hw]].
  - rewrite decide_False by lia. rewrite app_nil_r. apply inserts_window.
  - rewrite Hw, length_app in Hn. simpl in Hn. rewrite decide_True by lia.
    apply inserts_prefix with tail n. by rewrite Hw, <-app_assoc.
Qed.

Lemma command_at_Ok data off field (c : CapturedCommand) :
  command_at data off field = Ok c →
  captured_valid c ∧ put_c_string (N.to_nat off) 16 (as_bytes c) data = data.
Proof.
  unfold command_at. rewrite result_bind_Ok. intros (v & [Hl ->]%slice_at_Ok & Hc).
  apply captured_c_string_Ok in Hc as (Hv & _ & _ & Hc). split; [done|].
  apply put_c_string_id; [unfold len, COMM_SIZE in Hl; lia|done].
Qed.

Lemma pathname_at_Ok data off ooff field ofield (c : CapturedPath) :
  captured_at data off PATH_SIZE ooff field ofield = Ok c →
  captured_valid c ∧ put_c_string (N.to_nat off) 256 (as_bytes c) data = data ∧
  put_bool (N.to_nat ooff) (bytes_omitted c) data = data.
Proof.
  unfold captured_at. rewrite result_bind_Ok. intros (v & [Hl ->]%slice_at_Ok & Hc).
  apply result_bind_Ok in Hc as (o & Ho%boolean_at_Ok & Hc).
  apply captured_c_string_Ok in Hc as (Hv & -> & _ & Hc). split; [done|]. split; [|done].
  apply put_c_string_id; [unfold len, PATH_SIZE in Hl; lia|done].
Qed.

Lemma abstract_name_at_Ok data loff off (c : CapturedAbstractUnixSocketName) :
  abstract_unix_socket_name_at E data loff off = Ok c →
  captured_valid c ∧ put_bytes (N.to_nat off) (as_bytes c) data = data ∧
  put32 E (N.to_nat loff) (len (as_bytes c)) data = data.
Proof.
  unfold abstract_unix_socket_name_at. rewrite result_bind_Ok.
  intros (n & [_ Hn]%u32_at_Ok & Hc). case_match; [done|].
  apply result_bind_Ok in Hc as (v & [Hl ->]%slice_at_Ok & Hc).
  apply map_err_Ok, captured_new_Ok in Hc as [-> Hv]. simpl. split; [done|]. split.
  - apply inserts_window.
  - unfold len in *. rewrite length_window by lia. by rewrite N2Nat.id.
Qed.
End reads_Ok.

Lemma process_id_Ok v field p : process_id v field = Ok p ↔ v = pid_get p ∧ v ≠ 0.
Proof. unfold process_id. rewrite map_err_Ok, process_id_new_Ok. destruct p; naive_solver. Qed.

Lemma thread_id_Ok v field p : thread_id v field = Ok p ↔ v = tid_get p ∧ v ≠ 0.
Proof. unfold thread_id. rewrite map_err_Ok, thread_id_new_Ok. destruct p; naive_solver. Qed.

Lemma domain_membership_Ok v field m :
  domain_membership v field = Ok m ↔
  v = parent_raw (membership_domain_id m) ∧
  option_valid (λ i, MIN_LANDLOCK_ID <= id_get i) (membership_domain_id m).
Proof.
  rewrite domain_membership_parent, map_ok_Ok. setoid_rewrite parent_Ok. split.
  - intros (p & ? & ->). by rewrite membership_domain_id_from.
  - intros H. exists (membership_domain_id m). by rewrite membership_from_domain_id.
Qed.

Lemma optional_process_id_raw' v : peer_pid_raw (optional_process_id v) = v.
Proof. unfold optional_process_id, process_id_new. by destruct (N.eqb_spec v 0) as [->|]. Qed.

Lemma optional_process_id_valid v : u32_ok v → option_valid pid_valid (optional_process_id v).
Proof.
  unfold optional_process_id, process_id_new. destruct (N.eqb_spec v 0) as [->|]; simpl; [done|].
  intros. by split.
Qed.

Lemma option_id_valid (p : option DomainId) :
  option_valid (λ i, MIN_LANDLOCK_ID <= id_get i) p → u64_ok (parent_raw p) →
  option_valid id_valid p.
Proof. destruct p; [|done]. intros. by split. Qed.

(** ** The arms *)

(** Turns a successful chain of reads into the facts its fields satisfy. *)
Ltac read_facts :=
  repeat match goal with
  | H : result_bind _ _ = Ok _ |- _ => apply result_bind_Ok in H as (? & ? & H)
  | H : u64_at _ _ _ _ = Ok _ |- _ => apply u64_at_Ok in H as [? H]
  | H : u32_at _ _ _ _ = Ok _ |- _ => apply u32_at_Ok in H as [? H]
  | H : boolean_at _ _ _ = Ok _ |- _ => apply boolean_at_Ok in H
  | H : command_at _ _ _ = Ok _ |- _ => apply command_at_Ok in H as [? H]
  | H : captured_at _ _ _ _ _ _ = Ok _ |- _ =>
      apply pathname_at_Ok in H as (? & H & ?)
  | H : abstract_unix_socket_name_at _ _ _ _ = Ok _ |- _ =>
      apply abstract_name_at_Ok in H as (? & H & ?)
  | H : id _ _ = Ok _ |- _ => apply id_Ok in H as [-> H]
  | H : parent _ _ = Ok _ |- _ => apply parent_Ok in H as [-> H]
  | H : domain_membership _ _ = Ok _ |- _ => apply domain_membership_Ok in H as [-> H]
  | H : process_id _ _ = Ok _ |- _ => apply process_id_Ok in H as [-> H]
  | H : thread_id _ _ = Ok _ |- _ => apply thread_id_Ok in H as [-> H]
  | H : Ok _ = Ok _ |- _ => injection H as <-
  end.

Ltac event_facts :=
  simpl; split_and!;
  first [ by eauto using option_id_valid, optional_process_id_valid
        | by apply option_id_valid
        | by split; eauto ].

Ltac unfold_traits :=
  unfold timestamp, context, Event_obs, event_timestamp, CreateRulesetEvent_obs,
    AddRulePathBeneathEvent_obs, AddRuleNetPortEvent_obs, CreateDomainEvent_obs,
    DenyAccessFsEvent_obs, DenyAccessNetEvent_obs, DenyPtraceEvent_obs, DenyScopeSignalEvent_obs,
    DenyScopeAbstractUnixSocketEvent_obs, FreeDomainEvent_obs, FreeRulesetEvent_obs,
    EnforceDomainEvent_obs, DenyAccessFsEvent_denial, DenyAccessNetEvent_denial,
    DenyPtraceEvent_denial, DenyScopeSignalEvent_denial, DenyScopeAbstractUnixSocketEvent_denial.

(** Every write of a chain puts back what was read from the buffer. *)
Ltac puts_id :=
  repeat match goal with
  | H : context [N.to_nat ?n] |- _ => let m := eval compute in (N.to_nat n) in
      change (N.to_nat n) with m in H
  end;
  rewrite ?optional_process_id_raw';
  repeat match goal with H : _ = ?data |- context [?data] => rewrite H end;
  reflexivity.

Lemma denial_context_Ok E data c :
  denial_context E data = Ok c → context_valid c ∧ put_context E c data = data.
Proof.
  unfold denial_context. intros H. read_facts. split.
  - unfold context_valid, hierarchy_valid. event_facts.
  - unfold put_context. simpl. puts_id.
Qed.

(** What an arm that succeeds on [data] gives, once the record's header was read. *)
Definition arm_ok (E : endian) (data : list byte) (kind : N) (t : KernelTimestamp)
    (arm : result Event DecodeError) : Prop :=
  ∀ e, put_header E kind t data = data → u64_ok (as_nanoseconds t) → arm = Ok e →
       event_valid e ∧ encode E data e = data.

Ltac arm_proof :=
  intros e Hh Ht H; unfold event_valid;
  cbv beta delta [decode_create_ruleset decode_add_rule_path_beneath decode_add_rule_net_port
    decode_create_domain decode_deny_access_fs decode_deny_access_net decode_deny_ptrace
    decode_deny_scope_signal decode_deny_scope_abstract_unix_socket decode_free_domain
    decode_free_ruleset decode_enforce_domain] in H;
  read_facts;
  try match goal with H : denial_context _ _ = Ok _ |- _ =>
        apply denial_context_Ok in H as [? H] end;
  split; [unfold_traits; event_facts|unfold encode; unfold_traits; simpl; puts_id].

Section arms.
Context (E : endian) (data : list byte) (t : KernelTimestamp).

Lemma create_ruleset_ok : arm_ok E data CREATE_RULESET t (decode_create_ruleset E data t).
Proof. arm_proof. Qed.
Lemma add_rule_path_beneath_ok :
  arm_ok E data ADD_RULE_PATH_BENEATH t (decode_add_rule_path_beneath E data t).
Proof. arm_proof. Qed.
Lemma add_rule_net_port_ok : arm_ok E data ADD_RULE_NET_PORT t (decode_add_rule_net_port E data t).
Proof. arm_proof. Qed.
Lemma create_domain_ok : arm_ok E data CREATE_DOMAIN t (decode_create_domain E data t).
Proof. arm_proof. Qed.
Lemma deny_access_fs_ok : arm_ok E data DENY_ACCESS_FS t (decode_deny_access_fs E data t).
Proof. arm_proof. Qed.
Lemma deny_access_net_ok : arm_ok E data DENY_ACCESS_NET t (decode_deny_access_net E data t).
Proof. arm_proof. Qed.
Lemma deny_ptrace_ok : arm_ok E data DENY_PTRACE t (decode_deny_ptrace E data t).
Proof. arm_proof. Qed.
Lemma deny_scope_signal_ok : arm_ok E data DENY_SCOPE_SIGNAL t (decode_deny_scope_signal E data t).
Proof. arm_proof. Qed.
Lemma deny_scope_abstract_unix_socket_ok :
  arm_ok E data DENY_SCOPE_ABSTRACT_UNIX_SOCKET t (decode_deny_scope_abstract_unix_socket E data t).
Proof. arm_proof. Qed.
Lemma free_domain_ok : arm_ok E data FREE_DOMAIN t (decode_free_domain E data t).
Proof. arm_proof. Qed.
Lemma free_ruleset_ok : arm_ok E data FREE_RULESET t (decode_free_ruleset E data t).
Proof. arm_proof. Qed.
Lemma enforce_domain_ok : arm_ok E data ENFORCE_DOMAIN t (decode_enforce_domain E data t).
Proof. arm_proof. Qed.
End arms.

Lemma put_kind_id data b : data !! 8%nat = Some b → put8 8 (Byte.to_N b) data = data.
Proof. intros Hb. unfold put8. simpl. apply list_insert_id. by rewrite byte_of_N_to_N. Qed.

Lemma decode_event_Ok E data kind t e :
  put_header E kind t data = data → u64_ok (as_nanoseconds t) →
  decode_event E kind data t = Ok e → event_valid e ∧ encode E data e = data.
Proof.
  intros Hh Ht H. unfold decode_event in H.
  repeat (case_match eqn:Hk; [apply N.eqb_eq in Hk as ->|clear Hk]); [..|done];
    revert e Hh Ht H;
    first [ apply create_ruleset_ok | apply add_rule_path_beneath_ok | apply add_rule_net_port_ok
          | apply create_domain_ok | apply deny_access_fs_ok | apply deny_access_net_ok
          | apply deny_ptrace_ok | apply deny_scope_signal_ok
          | apply deny_scope_abstract_unix_socket_ok | apply free_domain_ok
          | apply free_ruleset_ok | apply enforce_domain_ok ].
Qed.

Lemma decode_Ok_inv E data e :
  decode E data = Ok e → length data = 352%nat ∧ event_valid e ∧ encode E data e = data.
Proof.
  unfold decode. case_match eqn:Hl; [done|]. apply negb_false_iff, N.eqb_eq in Hl.
  rewrite result_bind_Ok. intros (b & Hb%ok_or_Ok & H).
  apply result_bind_Ok in H as (t & [Ht Hp]%u64_at_Ok & H).
  split; [unfold len, RECORD_SIZE in Hl; lia|].
  apply decode_event_Ok with (Byte.to_N b) (from_nanoseconds t); [|done..].
  unfold put_header. change (N.to_nat TIMESTAMP_OFFSET) with 0%nat in Hp. simpl. rewrite Hp.
  by apply put_kind_id.
Qed.

(** ** Errors of a full-size record *)

(** Errors that only a sample of the wrong size or kind may cause. *)
Definition structural (e : DecodeError) : Prop :=
  match e with
  | Length _ _ | EventKind _ | Field _ => True
  | _ => False
  end.

(** [c] does not fail for a structural reason. *)
Definition in_bounds {A} (c : result A DecodeError) : Prop :=
  ∀ e, c = Err e → ¬ structural e.

Section in_bounds.
Context (E : endian) (data : list byte) (Hdata : length data = 352%nat).

Lemma in_bounds_Ok {A} (a : A) : in_bounds (Ok a).
Proof. by intros e. Qed.

Lemma in_bounds_bind {A B} (c : result A DecodeError) (k : A → result B DecodeError) :
  in_bounds c → (∀ a, in_bounds (k a)) → in_bounds (result_bind c k).
Proof. destruct c; intros Hc Hk e; simpl; [apply Hk|]. intros [= <-]. by apply Hc. Qed.

Lemma in_bounds_map_err {A F} (f : F → DecodeError) (c : result A F) :
  (∀ x, ¬ structural (f x)) → in_bounds (map_err f c).
Proof. destruct c; intros Hf e; simpl; [done|]. intros [= <-]. apply Hf. Qed.

Lemma in_bounds_map_ok {A B} (f : A → B) (c : result A DecodeError) :
  in_bounds c → in_bounds (map_ok f c).
Proof. destruct c; intros Hc e; simpl; [done|]. intros [= <-]. by apply Hc. Qed.

Lemma in_bounds_slice_at off n field : off + n <= 352 → in_bounds (slice_at data off n field).
Proof.
  intros H. rewrite slice_at_window; [apply in_bounds_Ok|unfold len; lia|].
  unfold len. by rewrite Hdata.
Qed.

Lemma in_bounds_bytes n off field : off + n <= 352 → in_bounds (bytes n data off field).
Proof.
  intros H. unfold bytes. rewrite slice_at_window; [|unfold len; lia|unfold len; by rewrite Hdata].
  simpl. unfold len. rewrite length_window by lia. rewrite N2Nat.id, N.eqb_refl. apply in_bounds_Ok.
Qed.

Lemma in_bounds_u64_at off field : off + 8 <= 352 → in_bounds (u64_at E data off field).
Proof. intros H. apply in_bounds_bind; [by apply in_bounds_bytes|]. intros. apply in_bounds_Ok. Qed.

Lemma in_bounds_u32_at off field : off + 4 <= 352 → in_bounds (u32_at E data off field).
Proof. intros H. apply in_bounds_bind; [by apply in_bounds_bytes|]. intros. apply in_bounds_Ok. Qed.

Lemma in_bounds_boolean_at off field : off < 352 → in_bounds (boolean_at data off field).
Proof.
  intros H. unfold boolean_at.
  destruct (lookup_lt_is_Some_2 data (N.to_nat off)) as [b ->]; [lia|]. simpl.
  intros e. repeat case_match; intros [= <-]; simpl; tauto.
Qed.

Lemma in_bounds_c_string {K} `{CapturedBytesOrigin K} value o field :
  in_bounds (captured_c_string (K := K) value o field).
Proof.
  destruct (captured_c_string_split (K := K) value o field) as (bs & -> & _).
  apply in_bounds_map_err; by intros ? [].
Qed.

Lemma in_bounds_command_at off field : off + 16 <= 352 → in_bounds (command_at data off field).
Proof.
  intros H. apply in_bounds_bind; [by apply in_bounds_slice_at|]. intros. apply in_bounds_c_string.
Qed.

Lemma in_bounds_pathname_at off ooff field ofield :
  off + 256 <= 352 → ooff < 352 →
  in_bounds (captured_at (K := PathnameOrigin) data off PATH_SIZE ooff field ofield).
Proof.
  intros H1 H2. apply in_bounds_bind; [by apply in_bounds_slice_at|]. intros.
  apply in_bounds_bind; [by apply in_bounds_boolean_at|]. intros. apply in_bounds_c_string.
Qed.

Lemma in_bounds_abstract_name_at loff off :
  loff + 4 <= 352 → off + 107 <= 352 →
  in_bounds (abstract_unix_socket_name_at E data loff off).
Proof.
  intros H1 H2. apply in_bounds_bind; [by apply in_bounds_u32_at|]. intros n.
  destruct (N.ltb_spec ABSTRACT_UNIX_SOCKET_NAME_MAX_LEN n) as [|Hn].
  { intros e [= <-]. simpl. tauto. }
  unfold ABSTRACT_UNIX_SOCKET_NAME_MAX_LEN in Hn.
  apply in_bounds_bind; [apply in_bounds_slice_at; lia|]. intros. apply in_bounds_map_err; by intros ? [].
Qed.

Lemma in_bounds_id {K} v field : in_bounds (id (K := K) v field).
Proof. apply in_bounds_map_err; by intros ? []. Qed.
Lemma in_bounds_process_id v field : in_bounds (process_id v field).
Proof. apply in_bounds_map_err; by intros ? []. Qed.
Lemma in_bounds_thread_id v field : in_bounds (thread_id v field).
Proof. apply in_bounds_map_err; by intros ? []. Qed.
Lemma in_bounds_parent v field : in_bounds (parent v field).
Proof.
  unfold parent. case_match; [apply in_bounds_Ok|]. apply in_bounds_map_ok, in_bounds_id.
Qed.
Lemma in_bounds_membership v field : in_bounds (domain_membership v field).
Proof. rewrite domain_membership_parent. apply in_bounds_map_ok, in_bounds_parent. Qed.
End in_bounds.

#[export] Hint Resolve in_bounds_Ok in_bounds_id in_bounds_process_id in_bounds_thread_id
  in_bounds_parent in_bounds_membership : wire_total.
#[export] Hint Extern 1 (in_bounds (u64_at _ _ _ _)) => by apply in_bounds_u64_at : wire_total.
#[export] Hint Extern 1 (in_bounds (u32_at _ _ _ _)) => by apply in_bounds_u32_at : wire_total.
#[export] Hint Extern 1 (in_bounds (boolean_at _ _ _)) => by apply in_bounds_boolean_at : wire_total.
#[export] Hint Extern 1 (in_bounds (command_at _ _ _)) => by apply in_bounds_command_at : wire_total.
#[export] Hint Extern 1 (in_bounds (captured_at _ _ _ _ _ _)) =>
  by apply in_bounds_pathname_at : wire_total.
#[export] Hint Extern 1 (in_bounds (abstract_unix_socket_name_at _ _ _ _)) =>
  by apply in_bounds_abstract_name_at : wire_total.

Ltac bounds_chain :=
  repeat (apply in_bounds_bind; [by eauto with wire_total|intros ?]); apply in_bounds_Ok.

Ltac bounds_arm :=
  cbv beta delta [decode_create_ruleset decode_add_rule_path_beneath decode_add_rule_net_port
    decode_create_domain decode_deny_access_fs decode_deny_access_net decode_deny_ptrace
    decode_deny_scope_signal decode_deny_scope_abstract_unix_socket decode_free_domain
    decode_free_ruleset decode_enforce_domain]; bounds_chain.

Lemma in_bounds_denial_context E data :
  length data = 352%nat → in_bounds (denial_context E data).
Proof. intros Hdata. unfold denial_context, UNION_OFFSET. bounds_chain. Qed.
#[export] Hint Resolve in_bounds_denial_context : wire_total.

Definition known_kind (k : N) : Prop := 1 <= k <= 12.

Lemma decode_event_in_bounds E data k t :
  length data = 352%nat → known_kind k → in_bounds (decode_event E k data t).
Proof.
  intros Hdata Hk. unfold decode_event.
  repeat (let He := fresh in case_match eqn:He; [clear He; by bounds_arm|apply N.eqb_neq in He]).
  intros. exfalso. unfold known_kind, CREATE_RULESET, ADD_RULE_PATH_BENEATH, ADD_RULE_NET_PORT,
    CREATE_DOMAIN, DENY_ACCESS_FS, DENY_ACCESS_NET, DENY_PTRACE, DENY_SCOPE_SIGNAL,
    DENY_SCOPE_ABSTRACT_UNIX_SOCKET, FREE_DOMAIN, FREE_RULESET, ENFORCE_DOMAIN in *. lia.
Qed.

Lemma decode_event_unknown E data k t :
  ¬ known_kind k → decode_event E k data t = Err (EventKind k).
Proof.
  intros Hk. unfold decode_event.
  repeat (case_match eqn:He; [apply N.eqb_eq in He as ->; by destruct Hk|clear He]). done.
Qed.

(** The kind byte and the timestamp of a full-size record are always read. *)
Lemma decode_full_size E data :
  length data = 352%nat →
  ∃ b t, data !! 8%nat = Some b ∧ u64_at E data 0 "timestamp" = Ok t ∧
         decode E data = decode_event E (Byte.to_N b) data (from_nanoseconds t).
Proof.
  intros Hl. destruct (lookup_lt_is_Some_2 data 8) as [b Hb]; [lia|].
  destruct (u64_at E data 0 "timestamp") as [t|e] eqn:Ht; [exists b, t; split_and!; [done..|]|].
  - apply decode_at; [done| |apply to_N_lt_256|done]. by rewrite byte_of_N_to_N.
  - exfalso. pose proof (in_bounds_u64_at E data Hl 0 "timestamp") as Hi.
    unfold u64_at, bytes in Ht. rewrite slice_at_window in Ht; [|unfold len; lia|by unfold len; rewrite Hl].
    simpl in Ht. unfold len in Ht. rewrite length_window in Ht by (simpl; lia). done.
Qed.

(** ** Theorems *)

(** C1: [decode] succeeds exactly on the full-size records that hold, at the
    offsets and widths of the producer's layout, the fields of an event that
    satisfies every type invariant; the event is then the one the record
    holds. Nothing else is accepted and nothing is lost. *)
Theorem decode_iff E data e :
  decode E data = Ok e ↔ length data = 352%nat ∧ event_valid e ∧ encode E data e = data.
Proof.
  split; [apply decode_Ok_inv|]. intros (Hl & Hv & He). rewrite <-He. by apply decode_encode_aux.
Qed.

(** Whatever a reserved record held before, the event stored into it is
    the event decoded from it. *)
Theorem decode_encode E data e :
  length data = 352%nat → event_valid e → decode E (encode E data e) = Ok e.
Proof. apply decode_encode_aux. Qed.

(** A sample of the record's size never fails for its size or for a field
    outside it, and fails for its kind exactly when the kind byte names none
    of the twelve events; a sample of any other size fails with both sizes. *)
Theorem decode_errors E data :
  (length data ≠ 352%nat → decode E data = Err (Length RECORD_SIZE (len data))) ∧
  (length data = 352%nat →
    (∀ field, decode E data ≠ Err (Field field)) ∧
    (∀ expected actual, decode E data ≠ Err (Length expected actual)) ∧
    (∀ k, decode E data = Err (EventKind k) ↔
       ∃ b, data !! 8%nat = Some b ∧ Byte.to_N b = k ∧ ¬ known_kind k)).
Proof.
  split.
  - intros Hl. unfold decode. destruct (N.eqb_spec (len data) RECORD_SIZE) as [H|]; [|done].
    unfold len, RECORD_SIZE in H. lia.
  - intros Hl. destruct (decode_full_size E data Hl) as (b & t & Hb & _ & ->).
    assert (known_kind (Byte.to_N b) ∨ ¬ known_kind (Byte.to_N b)) as [Hk|Hk]
      by (unfold known_kind; lia).
    + pose proof (decode_event_in_bounds E data _ (from_nanoseconds t) Hl Hk) as Hi.
      split_and!; [intros field He|intros ?? He|]; [by apply Hi in He..|].
      intros k. split; [intros He; by apply Hi in He|].
      intros (b' & Hb' & <- & Hk'). simplify_eq. by destruct Hk'.
    + rewrite decode_event_unknown by done. split_and!; [done..|]. intros k. split.
      * intros [= <-]. eauto.
      * intros (b' & Hb' & <- & _). by simplify_eq.
Qed.

(** ** Concrete records

    Two of the records of tests/fixtures/wire, which the repository generates
    independently of the Rust layout code, decode to the events its tests
    expect. *)

Definition hex_digit (a : Ascii.ascii) : N :=
  let n := Ascii.N_of_ascii a in if n <? 58 then n - 48 else n - 87.

Fixpoint unhex (s : string) : list byte :=
  match s with
  | String a (String b s') => byte_of_N (16 * hex_digit a + hex_digit b) :: unhex s'
  | _ => []
  end.

Definition fixture_09_big : list byte := unhex (
   "99000000000000090900000000000000d000000000000009a0000000000000095100000931352d627974652d" +:+
   "636f6d6d616e640000000000c10000000000000980000000800100090100000000000000e900000000000009" +:+
   "a80000090000000a7365727669636500ff005a5a5a5a5a5a5a5a5a5a5a5a5a5a5a5a5a5a5a5a5a5a5a5a5a5a" +:+
   "5a5a5a5a5a5a5a5a5a5a5a5a5a5a5a5a5a5a5a5a5a5a5a5a5a5a5a5a5a5a5a5a5a5a5a5a5a5a5a5a5a5a5a5a" +:+
   "5a5a5a5a5a5a5a5a5a5a5a5a5a5a5a5a5a5a5a5a5a5a5a5a5a5a5a0000000000000000000000000000000000" +:+
   "0000000000000000000000000000000000000000000000000000000000000000000000000000000000000000" +:+
   "0000000000000000000000000000000000000000000000000000000000000000000000000000000000000000" +:+
   "0000000000000000000000000000000000000000000000000000000000000000000000000000000000000000").

Definition fixture_05_little : list byte := unhex (
   "0500000000000055050000000000000005000000000000d000000000000000000500005163726561746f722d" +:+
   "35007461696c21210300000005000000000000c1050001800000008001000000000000000500007201000000" +:+
   "0500000000000083505050505050505050505050505050505050505050505050505050505050505050505050" +:+
   "5050505050505050505050505050505050505050505050505050505050505050505050505050505050505050" +:+
   "5050505050505050505050505050505050505050505050505050505050505050505050505050505050505050" +:+
   "5050505050505050505050505050505050505050505050505050505050505050505050505050505050505050" +:+
   "5050505050505050505050505050505050505050505050505050505050505050505050505050505050505050" +:+
   "5050505050505050505050505050505050505050505050505050505050505050505050505050505050505050").


Definition event_09 : Event :=
  DenyScopeAbstractUnixSocket {|
    dau_timestamp := from_nanoseconds 0x9900000000000009;
    dau_context := {|
      dc_hierarchy := {|
        hs_domain_id := mkLandlockId 0xD000000000000009;
        hs_parent_id := Some (mkLandlockId 0xA000000000000009);
        hs_creator_tgid := mkProcessId 0x51000009;
        hs_creator_comm := mkCapturedBytes (bytes_of_string "15-byte-command") false |};
      dc_cumulative_denial_count := 0xC100000000000009;
      dc_same_exec := true;
      dc_logged := false |};
    dau_peer_domain := Sandboxed (mkLandlockId 0xE900000000000009);
    dau_peer_pid := Some (mkProcessId 0xA8000009);
    dau_abstract_name :=
      mkCapturedBytes (bytes_of_string "service" ++ [Byte.x00; Byte.xff; Byte.x00]) false |}.

Definition event_05 : Event :=
  DenyAccessFs {|
    dfs_timestamp := from_nanoseconds 0x5500000000000005;
    dfs_context := {|
      dc_hierarchy := {|
        hs_domain_id := mkLandlockId 0xD000000000000005;
        hs_parent_id := None;
        hs_creator_tgid := mkProcessId 0x51000005;
        hs_creator_comm := mkCapturedBytes (bytes_of_string "creator-5") false |};
      dc_cumulative_denial_count := 0xC100000000000005;
      dc_same_exec := true;
      dc_logged := false |};
    dfs_blockers_type := from_raw 3;
    dfs_blockers_access := mkFilesystemAccess 0x8000000080010005;
    dfs_device := 0x72000005;
    dfs_inode := 0x8300000000000005;
    dfs_pathname := mkCapturedBytes (replicate 256 (byte_of_N 80)) true |}.

Example fixture_09_decodes : decode Big fixture_09_big = Ok event_09.
Proof. vm_compute. reflexivity. Qed.

Example fixture_05_decodes : decode Little fixture_05_little = Ok event_05.
Proof. vm_compute. reflexivity. Qed.

Lemma event_09_valid : event_valid event_09.
Proof. by destruct (decode_Ok_inv _ _ _ fixture_09_decodes) as (_ & ? & _). Qed.

Lemma decode_encode_witness :
  decode Little (encode Little fixture_05_little event_09) = Ok event_09.
Proof. apply (decode_encode Little fixture_05_little event_09); [reflexivity|exact event_09_valid]. Defined.
