(* ===== verification/Bpf.v ===== *)
(** * The BPF programs (src/bpf/landlock_observability.bpf.c, vmlinux.h)

    Each program runs at a Landlock tracepoint. It reserves a record in the
    ring buffer, clears it, copies facts about kernel objects into the fields
    that event.h lays out, and submits the record or discards it. A record is a
    list of bytes; a store is a write at the offset that event.h asserts.

    The kernel is a parameter. Its objects are records with the fields that
    vmlinux.h declares; a pointer that a program tests for null is an [option],
    and so is the inode of a path, which one program reads without a test. The
    helpers that copy kernel memory are the class [Helpers]; what the running
    task and the ring provide is a [BpfContext]. C's [int] and [long] are [Z],
    converted to unsigned where they are stored. *)

From S2P Require Import Prelude CapturedBytes Event Wire.

(** ** Helpers and kernel objects *)

Class Helpers := {
  KernelString : Type;
  KernelMemory : Type;
  (** [bpf_probe_read_kernel_str(dst, size, p)]: what it stored and returned. *)
  probe_read_kernel_str : N → KernelString → list byte * Z;
  (** [bpf_probe_read_kernel(dst, size, p + offset)]: what it stored, if it
      succeeded. *)
  probe_read_kernel : KernelMemory → N → N → option (list byte);
  (** What [BPF_CORE_READ] evaluates to when a pointer cannot be read. *)
  faulted : N;
}.

Record BpfContext := mkBpfContext {
  ring_has_room : bool;
  ktime_get_ns : N;
  current_pid_tgid : N;
  current_comm : list byte;
}.

Definition u32_of_int (z : Z) : N := Z.to_N (z mod 2 ^ 32).
Definition u64_of_long (z : Z) : N := Z.to_N (z mod 2 ^ 64).

Record upid := mkPid { pid_nr : Z }.

Record access_masks := mkAccessMasks { mask_fs : N; mask_net : N; mask_scope : N }.
Record landlock_ruleset := mkRuleset { kr_id : N; kr_version : N; kr_handled_masks : access_masks }.
Record landlock_blockers := mkBlockers { kb_access : N; kb_type : N }.

Record super_block := mkSuperBlock { s_dev : N }.
Record inode := mkInode { i_ino : N }.
Record dentry := mkDentry { d_sb : super_block; d_inode : option inode }.
Record path := mkPath { path_dentry : dentry }.

(** [sin_port] is the two bytes in memory. *)
Record sockaddr_storage := mkSockaddr { sa_family : N; sin_port : byte * byte }.

Section objects.
Context `{Helpers}.

Record landlock_details := mkDetails { details_pid : option upid; details_comm : KernelString }.

Inductive landlock_hierarchy := mkHierarchy {
  h_parent : option landlock_hierarchy;
  h_id : N;
  h_num_denials : Z;
  h_details : option landlock_details;
}.

Record landlock_domain := mkDomain { d_hierarchy : landlock_hierarchy }.
Record task_struct := mkTask { task_tgid : Z; task_comm : KernelString }.
Record unix_address := mkUnixAddress { ua_len : Z; ua_sun_path : KernelMemory }.

(** A socket; [unix_addr] is the field that [unix_sk] finds behind it. *)
Record sock := mkSock { sk_peer_pid : option upid; unix_addr : option unix_address }.
End objects.

(** ** Constants *)

Definition TASK_COMM_LEN : N := 16.
Definition PATH_MAX_LEN : N := 256.

Definition AF_UNSPEC : N := 0.
Definition AF_INET : N := 2.
Definition AF_INET6 : N := 10.

Definition LANDLOCK_ACCESS_NET_BIND_TCP : N := N.shiftl 1 0.
Definition LANDLOCK_ACCESS_NET_CONNECT_TCP : N := N.shiftl 1 1.
Definition LANDLOCK_ACCESS_NET_BIND_UDP : N := N.shiftl 1 2.
Definition LANDLOCK_ACCESS_NET_CONNECT_SEND_UDP : N := N.shiftl 1 3.
Definition LANDLOCK_ACCESS_NET_BIND : N := N.lor LANDLOCK_ACCESS_NET_BIND_TCP LANDLOCK_ACCESS_NET_BIND_UDP.
Definition LANDLOCK_ACCESS_NET_CONNECT_SEND : N :=
  N.lor LANDLOCK_ACCESS_NET_CONNECT_TCP LANDLOCK_ACCESS_NET_CONNECT_SEND_UDP.

Definition SOCKADDR_PORT_END : Z := 4.

Definition HAS_CHECKED_PORT (addrlen : Z) (address_family socket_family : N) : bool :=
  (SOCKADDR_PORT_END <=? addrlen)%Z &&
  ((address_family =? AF_INET) || (address_family =? AF_INET6) ||
   ((address_family =? AF_UNSPEC) && (socket_family =? AF_INET))).
Definition LEGACY_SOURCE_PORT (access : N) (has_port : bool) (port : N) : N :=
  if has_port && negb (N.land access LANDLOCK_ACCESS_NET_BIND =? 0) then port else 0.
Definition LEGACY_DESTINATION_PORT (access : N) (has_port : bool) (port : N) : N :=
  if has_port && negb (N.land access LANDLOCK_ACCESS_NET_CONNECT_SEND =? 0) then port else 0.

(** The static assertions of the source. *)
Example static_assertions :
  LEGACY_SOURCE_PORT LANDLOCK_ACCESS_NET_BIND_TCP true 7 = 7 ∧
  LEGACY_DESTINATION_PORT LANDLOCK_ACCESS_NET_CONNECT_TCP true 7 = 7 ∧
  LEGACY_DESTINATION_PORT LANDLOCK_ACCESS_NET_CONNECT_TCP true 0 = 0 ∧
  LEGACY_SOURCE_PORT LANDLOCK_ACCESS_NET_BIND_TCP false 7 = 0 ∧
  LEGACY_DESTINATION_PORT LANDLOCK_ACCESS_NET_CONNECT_TCP false 7 = 0 ∧
  LEGACY_SOURCE_PORT (N.shiftl 1 63) true 7 = 0 ∧ LEGACY_DESTINATION_PORT (N.shiftl 1 63) true 7 = 0 ∧
  HAS_CHECKED_PORT 4 AF_INET AF_INET6 = true ∧ HAS_CHECKED_PORT 4 AF_UNSPEC AF_INET = true ∧
  HAS_CHECKED_PORT 3 AF_INET AF_INET = false ∧ HAS_CHECKED_PORT (-1) AF_INET AF_INET = false ∧
  HAS_CHECKED_PORT 4 AF_UNSPEC AF_INET6 = false.
Proof. by vm_compute. Qed.

Section programs.
Context (target_endian : endian) `{Helpers}.

Abbreviation put64 := (Wire.put64 target_endian).
Abbreviation put32 := (Wire.put32 target_endian).

(** ** Records of the ring buffer *)

Inductive Submission :=
| NotReserved
| Discarded
| Submitted (record : list byte).

(** [alloc_event]: the reserved record is cleared. *)
Definition alloc_event (ctx : BpfContext) : option (list byte) :=
  if ring_has_room ctx then Some (replicate (N.to_nat RECORD_SIZE) Byte.x00) else None.

(** The frame of every program: no record, no work; [None] discards it. *)
Definition with_event (ctx : BpfContext) (fill : list byte → option (list byte)) : Submission :=
  match alloc_event ctx with
  | None => NotReserved
  | Some ev =>
      match fill ev with
      | Some ev => Submitted ev
      | None => Discarded
      end
  end.

(** The timestamp and the type. *)
Definition fill_header (ctx : BpfContext) (type : N) (ev : list byte) : list byte :=
  put8 8 type (put64 0 (ktime_get_ns ctx) ev).

(** ** Parts of a record *)

(** [bpf_ntohs] of the port as it is loaded. *)
Definition ntohs (value : N) : N :=
  match target_endian with
  | Little => N.lor (N.shiftl (N.land value 255) 8) (N.shiftr value 8)
  | Big => value
  end.

(** The source and destination ports. *)
Definition project_checked_port (blockers_access socket_family : N) (address : sockaddr_storage)
    (addrlen : Z) : N * N :=
  let address_family := sa_family address in
  let has_port := HAS_CHECKED_PORT addrlen address_family socket_family in
  let port := if has_port then ntohs (from_ne_bytes target_endian [(sin_port address).1; (sin_port address).2]) else 0 in
  (LEGACY_SOURCE_PORT blockers_access has_port port, LEGACY_DESTINATION_PORT blockers_access has_port port).

(** [offsetof(struct sockaddr_un, sun_path) + 1]. *)
Definition prefix_len : Z := 3.

(** Writes the name and its length, or fails. *)
Definition capture_abstract_unix_socket_name (dst dst_len : nat) (peer : sock) (ev : list byte) :
    option (list byte) :=
  match unix_addr peer with
  | None => Some (put32 dst_len 0 ev)
  | Some addr =>
      let sockaddr_len := ua_len addr in
      if ((sockaddr_len <? prefix_len) ||
          (prefix_len + Z.of_N ABSTRACT_UNIX_SOCKET_NAME_MAX_LEN <? sockaddr_len))%Z then None
      else
        let name_len := u32_of_int (sockaddr_len - prefix_len) in
        match probe_read_kernel (ua_sun_path addr) 0 1 with
        | None => None
        | Some namespace =>
            if negb (bool_decide (namespace = [Byte.x00])) then None
            else if name_len =? 0 then Some (put32 dst_len name_len ev)
            else
              match probe_read_kernel (ua_sun_path addr) 1 name_len with
              | None => None
              | Some name => Some (put32 dst_len name_len (put_bytes dst name ev))
              end
        end
  end.

(** Writes the path and whether it is longer, or fails. *)
Definition capture_path (dst bytes_omitted : nat) (source : KernelString) (ev : list byte) : option (list byte) :=
  let buffer := replicate (N.to_nat (PATH_MAX_LEN + 2)) Byte.x00 in
  let '(stored, length) := probe_read_kernel_str (PATH_MAX_LEN + 2) source in
  let buffer := put_bytes 0 stored buffer in
  if (length <? 0)%Z then None
  else Some (put_bool bytes_omitted (Z.of_N (PATH_MAX_LEN + 1) <? length)%Z
               (put_bytes dst (take (N.to_nat PATH_MAX_LEN) buffer) ev)).

(** [bpf_core_read_str] into a [comm] field: its result is not looked at. *)
Definition read_comm (dst : nat) (source : KernelString) (ev : list byte) : list byte :=
  put_bytes dst (probe_read_kernel_str TASK_COMM_LEN source).1 ev.

Definition fill_deny_header (h : landlock_hierarchy) (ev : list byte) : list byte :=
  let ev := put64 16 (h_id h) ev in
  let ev := put64 56 (u64_of_long (h_num_denials h)) ev in
  let ev := put64 24 (from_option h_id 0 (h_parent h)) ev in
  match h_details h with
  | Some details =>
      let ev := put32 32 (from_option (λ p, u32_of_int (pid_nr p)) 0 (details_pid details)) ev in
      read_comm 36 (details_comm details) ev
  | None => put8 36 0 (put32 32 0 ev)
  end.

(** ** The programs *)

Definition handle_create_ruleset (ctx : BpfContext) (ruleset : landlock_ruleset) : Submission :=
  with_event ctx (λ ev,
    let ev := fill_header ctx CREATE_RULESET ev in
    let ev := put64 16 (kr_id ruleset) ev in
    let ev := put64 24 (kr_version ruleset) ev in
    let ev := put64 32 (mask_fs (kr_handled_masks ruleset)) ev in
    let ev := put64 40 (mask_net (kr_handled_masks ruleset)) ev in
    let ev := put64 48 (mask_scope (kr_handled_masks ruleset)) ev in
    Some ev).

Definition handle_add_rule_path_beneath (ctx : BpfContext) (ruleset : landlock_ruleset) (access_rights : N)
    (p : path) (pathname : KernelString) : Submission :=
  with_event ctx (λ ev,
    let ev := fill_header ctx ADD_RULE_PATH_BENEATH ev in
    let ev := put64 16 (kr_id ruleset) ev in
    let ev := put64 24 (kr_version ruleset) ev in
    let ev := put64 32 access_rights ev in
    let ev := put32 40 (s_dev (d_sb (path_dentry p))) ev in
    let ev := put64 48 (from_option i_ino faulted (d_inode (path_dentry p))) ev in
    capture_path 56 44 pathname ev).

Definition handle_add_rule_net_port (ctx : BpfContext) (ruleset : landlock_ruleset) (access_rights port : N) :
    Submission :=
  with_event ctx (λ ev,
    let ev := fill_header ctx ADD_RULE_NET_PORT ev in
    let ev := put64 16 (kr_id ruleset) ev in
    let ev := put64 24 (kr_version ruleset) ev in
    let ev := put64 32 access_rights ev in
    let ev := put64 40 port ev in
    Some ev).

Definition handle_create_domain (ctx : BpfContext) (new_dom : landlock_domain) (ruleset : landlock_ruleset) :
    Submission :=
  with_event ctx (λ ev,
    let ev := fill_header ctx CREATE_DOMAIN ev in
    let ev := put64 16 (kr_id ruleset) ev in
    let ev := put64 24 (kr_version ruleset) ev in
    let ev := put64 32 (h_id (d_hierarchy new_dom)) ev in
    let ev := put64 40 (from_option h_id 0 (h_parent (d_hierarchy new_dom))) ev in
    let ev := put32 48 (N.shiftr (current_pid_tgid ctx) 32) ev in
    let ev := put_bytes 52 (current_comm ctx) ev in
    Some ev).

Definition handle_enforce_domain (ctx : BpfContext) (domain : landlock_domain)
    (complete process_wide no_new_privs : bool) : Submission :=
  with_event ctx (λ ev,
    let ev := fill_header ctx ENFORCE_DOMAIN ev in
    let ev := put64 16 (h_id (d_hierarchy domain)) ev in
    let ev := put32 24 (current_pid_tgid ctx mod 2 ^ 32) ev in
    let ev := put_bool 28 complete ev in
    let ev := put_bool 29 process_wide ev in
    let ev := put_bool 30 no_new_privs ev in
    Some ev).

Definition handle_deny_access_fs (ctx : BpfContext) (hierarchy : landlock_hierarchy) (same_exec logged : bool)
    (blockers : landlock_blockers) (p : path) (pathname : KernelString) : Submission :=
  with_event ctx (λ ev,
    let ev := fill_header ctx DENY_ACCESS_FS ev in
    let ev := fill_deny_header hierarchy ev in
    let ev := put32 52 (kb_type blockers) ev in
    let ev := put64 64 (kb_access blockers) ev in
    let ev := put_bool 72 same_exec ev in
    let ev := put_bool 73 logged ev in
    let ev := put32 80 (s_dev (d_sb (path_dentry p))) ev in
    let ev := put64 88 (from_option i_ino 0 (d_inode (path_dentry p))) ev in
    capture_path 96 84 pathname ev).

Definition handle_deny_access_net (ctx : BpfContext) (hierarchy : landlock_hierarchy) (same_exec logged : bool)
    (blockers : landlock_blockers) (socket_family : N) (address : sockaddr_storage) (addrlen : Z) : Submission :=
  let blockers_access := kb_access blockers in
  with_event ctx (λ ev,
    let ev := fill_header ctx DENY_ACCESS_NET ev in
    let ev := fill_deny_header hierarchy ev in
    let ev := put32 52 (kb_type blockers) ev in
    let ev := put64 64 blockers_access ev in
    let ev := put_bool 72 same_exec ev in
    let ev := put_bool 73 logged ev in
    let '(sport, dport) := project_checked_port blockers_access socket_family address addrlen in
    Some (put64 88 dport (put64 80 sport ev))).

Definition handle_deny_ptrace (ctx : BpfContext) (hierarchy : landlock_hierarchy) (same_exec logged : bool)
    (tracee_domain_id : N) (tracee : task_struct) : Submission :=
  with_event ctx (λ ev,
    let ev := fill_header ctx DENY_PTRACE ev in
    let ev := fill_deny_header hierarchy ev in
    let ev := put64 64 0 ev in
    let ev := put_bool 72 same_exec ev in
    let ev := put_bool 73 logged ev in
    let ev := put64 80 tracee_domain_id ev in
    let ev := put32 88 (u32_of_int (task_tgid tracee)) ev in
    Some (read_comm 92 (task_comm tracee) ev)).

Definition handle_deny_scope_signal (ctx : BpfContext) (hierarchy : landlock_hierarchy) (same_exec logged : bool)
    (target_domain_id : N) (target : task_struct) : Submission :=
  with_event ctx (λ ev,
    let ev := fill_header ctx DENY_SCOPE_SIGNAL ev in
    let ev := fill_deny_header hierarchy ev in
    let ev := put64 64 0 ev in
    let ev := put_bool 72 same_exec ev in
    let ev := put_bool 73 logged ev in
    let ev := put64 80 target_domain_id ev in
    let ev := put32 88 (u32_of_int (task_tgid target)) ev in
    Some (read_comm 92 (task_comm target) ev)).

Definition handle_deny_scope_abstract_unix_socket (ctx : BpfContext) (hierarchy : landlock_hierarchy)
    (same_exec logged : bool) (peer_domain_id : N) (peer : sock) : Submission :=
  with_event ctx (λ ev,
    ev ← capture_abstract_unix_socket_name 96 92 peer ev;
    let ev := fill_header ctx DENY_SCOPE_ABSTRACT_UNIX_SOCKET ev in
    let ev := fill_deny_header hierarchy ev in
    let ev := put64 64 0 ev in
    let ev := put_bool 72 same_exec ev in
    let ev := put_bool 73 logged ev in
    let ev := put64 80 peer_domain_id ev in
    let ev := put32 88 (from_option (λ p, u32_of_int (pid_nr p)) 0 (sk_peer_pid peer)) ev in
    Some ev).

Definition handle_free_domain (ctx : BpfContext) (hierarchy : landlock_hierarchy) : Submission :=
  with_event ctx (λ ev,
    let ev := fill_header ctx FREE_DOMAIN ev in
    let ev := put64 16 (h_id hierarchy) ev in
    let ev := put64 24 (u64_of_long (h_num_denials hierarchy)) ev in
    Some ev).

Definition handle_free_ruleset (ctx : BpfContext) (ruleset : landlock_ruleset) : Submission :=
  with_event ctx (λ ev,
    let ev := fill_header ctx FREE_RULESET ev in
    let ev := put64 16 (kr_id ruleset) ev in
    let ev := put64 24 (kr_version ruleset) ev in
    Some ev).
End programs.
