(* ===== verification/BpfSpec.v ===== *)
(** * Producer and consumer agree

    What each BPF program writes is the record that the decoder of the library
    reads back as the event that took place in the kernel: [event_of] says
    which event that is, in terms of the kernel objects alone. *)

From S2P Require Import Prelude CapturedBytes Event Wire Bpf.

(** ** What the helpers promise *)

Class HelperLaws `{Helpers} := {
  (** The NUL-terminated string at an address, if it can be read. *)
  string_at : KernelString → option (list byte);
  string_nul_free p s : string_at p = Some s → Byte.x00 ∉ s;
  (** At most [size - 1] bytes are copied and a NUL is stored after them; the
      length returned counts it. *)
  read_str_ok p s size :
    string_at p = Some s → 0 < size →
    probe_read_kernel_str size p =
      (take (N.to_nat size - 1) s ++ [Byte.x00], Z.min (Z.of_nat (length s) + 1) (Z.of_N size));
  read_str_length p size : (length (probe_read_kernel_str size p).1 ≤ N.to_nat size)%nat;
  read_str_fault p size : string_at p = None → ((probe_read_kernel_str size p).2 < 0)%Z;
  read_memory_length m offset size bs : probe_read_kernel m offset size = Some bs → len bs = size;
}.

(** ** Writes to disjoint windows *)

Lemma inserts_comm {A} off off' (bs bs' data : list A) :
  (off + length bs ≤ off' ∨ off' + length bs' ≤ off)%nat →
  list_inserts off bs (list_inserts off' bs' data) = list_inserts off' bs' (list_inserts off bs data).
Proof.
  intros Hd. apply list_eq. intros i.
  assert (∀ o (b d : list A), list_inserts o b d !! i =
    if decide (o ≤ i < o + length b ∧ i < length d)%nat then b !! (i - o)%nat else d !! i) as Hl.
  { intros o b d. case_decide as Hi; [destruct Hi; by apply list_lookup_inserts|].
    destruct (decide (i < o)%nat); [by apply list_lookup_inserts_lt|].
    destruct (decide (o + length b ≤ i)%nat); [by apply list_lookup_inserts_ge|].
    rewrite !lookup_ge_None_2; [done|lia|rewrite length_inserts; lia]. }
  rewrite !Hl, !length_inserts. repeat case_decide; try done; lia.
Qed.

(** Writing a prefix of what is there changes nothing. *)
Lemma inserts_absorb {A} off (bs tail data : list A) :
  list_inserts off bs (list_inserts off (bs ++ tail) data) = list_inserts off (bs ++ tail) data.
Proof.
  apply list_eq. intros i. destruct (decide (i < off)%nat); [by apply list_lookup_inserts_lt|].
  destruct (decide (off + length bs ≤ i)%nat); [by apply list_lookup_inserts_ge|].
  destruct (decide (i < length data)%nat).
  - rewrite !list_lookup_inserts by (rewrite ?length_inserts, ?length_app; lia). by rewrite lookup_app_l by lia.
  - rewrite !lookup_ge_None_2; [done|rewrite !length_inserts; lia..].
Qed.

(** Sorts nested writes by their offset. *)
Ltac sort_writes :=
  repeat match goal with
  | |- context [list_inserts ?o1 ?b1 (list_inserts ?o2 ?b2 ?d)] =>
      let c := eval vm_compute in (Nat.ltb o1 o2) in
      lazymatch c with
      | true => rewrite (inserts_comm o1 o2 b1 b2 d)
                  by (left; rewrite ?length_to_ne_bytes; simpl length; lia)
      end
  end.

Section described.
Context `{HelperLaws}.

(** ** The event that took place *)

Inductive Tracepoint :=
| TpCreateRuleset (ruleset : landlock_ruleset)
| TpAddRulePathBeneath (ruleset : landlock_ruleset) (access_rights : N) (p : path) (pathname : KernelString)
| TpAddRuleNetPort (ruleset : landlock_ruleset) (access_rights port : N)
| TpCreateDomain (new_dom : landlock_domain) (ruleset : landlock_ruleset)
| TpEnforceDomain (domain : landlock_domain) (complete process_wide no_new_privs : bool)
| TpDenyAccessFs (h : landlock_hierarchy) (same_exec logged : bool) (blockers : landlock_blockers) (p : path)
    (pathname : KernelString)
| TpDenyAccessNet (h : landlock_hierarchy) (same_exec logged : bool) (blockers : landlock_blockers)
    (socket_family : N) (address : sockaddr_storage) (addrlen : Z)
| TpDenyPtrace (h : landlock_hierarchy) (same_exec logged : bool) (tracee_domain_id : N) (tracee : task_struct)
| TpDenyScopeSignal (h : landlock_hierarchy) (same_exec logged : bool) (target_domain_id : N) (target : task_struct)
| TpDenyScopeAbstractUnixSocket (h : landlock_hierarchy) (same_exec logged : bool) (peer_domain_id : N) (peer : sock)
| TpFreeDomain (h : landlock_hierarchy)
| TpFreeRuleset (ruleset : landlock_ruleset).

(** The program attached to the tracepoint. *)
Definition run_program (E : endian) (ctx : BpfContext) (t : Tracepoint) : Submission :=
  match t with
  | TpCreateRuleset r => handle_create_ruleset E ctx r
  | TpAddRulePathBeneath r access p name => handle_add_rule_path_beneath E ctx r access p name
  | TpAddRuleNetPort r access port => handle_add_rule_net_port E ctx r access port
  | TpCreateDomain d r => handle_create_domain E ctx d r
  | TpEnforceDomain d complete process_wide nnp => handle_enforce_domain E ctx d complete process_wide nnp
  | TpDenyAccessFs h same_exec logged b p name => handle_deny_access_fs E ctx h same_exec logged b p name
  | TpDenyAccessNet h same_exec logged b family address addrlen =>
      handle_deny_access_net E ctx h same_exec logged b family address addrlen
  | TpDenyPtrace h same_exec logged id tracee => handle_deny_ptrace E ctx h same_exec logged id tracee
  | TpDenyScopeSignal h same_exec logged id target => handle_deny_scope_signal E ctx h same_exec logged id target
  | TpDenyScopeAbstractUnixSocket h same_exec logged id peer =>
      handle_deny_scope_abstract_unix_socket E ctx h same_exec logged id peer
  | TpFreeDomain h => handle_free_domain E ctx h
  | TpFreeRuleset r => handle_free_ruleset E ctx r
  end.

Definition domain_of (h : landlock_hierarchy) : DomainId := mkLandlockId (h_id h).
Definition ruleset_of (r : landlock_ruleset) : RulesetId := mkLandlockId (kr_id r).

(** A C string in an array. *)
Fixpoint before_nul (bs : list byte) : list byte :=
  match bs with
  | [] => []
  | b :: bs => if is_nul b then [] else b :: before_nul bs
  end.

(** Zero is no domain. *)
Definition member_of (domain_id : N) : DomainMembership :=
  if domain_id =? 0 then Unsandboxed else Sandboxed (mkLandlockId domain_id).

Definition command_of (p : KernelString) : option CapturedCommand :=
  s ← string_at p; Some (mkCapturedBytes s false).

(** All of a path up to its first 256 bytes. *)
Definition path_of (p : KernelString) : option CapturedPath :=
  s ← string_at p; Some (mkCapturedBytes (take 256 s) (256 <? len s)).

(** The name behind the NUL that marks the abstract namespace; no address is
    the empty name. *)
Definition name_of (peer : sock) : option CapturedAbstractUnixSocketName :=
  match unix_addr peer with
  | None => Some (mkCapturedBytes [] false)
  | Some addr =>
      let size := (ua_len addr - prefix_len)%Z in
      if ((size <? 0) || (107 <? size))%Z then None
      else
        mark ← probe_read_kernel (ua_sun_path addr) 0 1;
        if bool_decide (mark = [Byte.x00]) then
          if (size =? 0)%Z then Some (mkCapturedBytes [] false)
          else name ← probe_read_kernel (ua_sun_path addr) 1 (Z.to_N size); Some (mkCapturedBytes name false)
        else None
  end.

Definition snapshot_of (h : landlock_hierarchy) : option HierarchySnapshot :=
  details ← h_details h;
  creator ← details_pid details;
  comm ← command_of (details_comm details);
  Some (mkHierarchySnapshot (domain_of h) (domain_of <$> h_parent h) (mkProcessId (u32_of_int (pid_nr creator))) comm).

Definition context_of (h : landlock_hierarchy) (same_exec logged : bool) : option DenialContext :=
  snapshot ← snapshot_of h;
  Some (mkDenialContext snapshot (u64_of_long (h_num_denials h)) same_exec logged).

(** The port in network byte order, if the address is long enough and of a
    family that has one. *)
Definition checked_port (socket_family : N) (address : sockaddr_storage) (addrlen : Z) : N :=
  if HAS_CHECKED_PORT addrlen (sa_family address) socket_family
  then from_ne_bytes Big [(sin_port address).1; (sin_port address).2] else 0.

Definition event_of (ctx : BpfContext) (t : Tracepoint) : option Event :=
  let now := from_nanoseconds (ktime_get_ns ctx) in
  match t with
  | TpCreateRuleset r =>
      let masks := kr_handled_masks r in
      Some (CreateRuleset (mkCreateRulesetEvent now (ruleset_of r) (kr_version r) (from_bits (mask_fs masks))
              (from_bits (mask_net masks)) (from_bits (mask_scope masks))))
  | TpAddRulePathBeneath r access p name =>
      i ← d_inode (path_dentry p);
      pathname ← path_of name;
      Some (AddRulePathBeneath (mkAddRulePathBeneathEvent now (ruleset_of r) (kr_version r) (from_bits access)
              (s_dev (d_sb (path_dentry p))) (i_ino i) pathname))
  | TpAddRuleNetPort r access port =>
      Some (AddRuleNetPort (mkAddRuleNetPortEvent now (ruleset_of r) (kr_version r) (from_bits access) port))
  | TpCreateDomain d r =>
      Some (CreateDomain (mkCreateDomainEvent now (ruleset_of r) (kr_version r) (domain_of (d_hierarchy d))
              (domain_of <$> h_parent (d_hierarchy d)) (mkProcessId (current_pid_tgid ctx / 2 ^ 32))
              (mkCapturedBytes (before_nul (current_comm ctx)) false)))
  | TpEnforceDomain d complete process_wide nnp =>
      Some (EnforceDomain (mkEnforceDomainEvent now (domain_of (d_hierarchy d))
              (mkThreadId (current_pid_tgid ctx mod 2 ^ 32)) complete process_wide nnp))
  | TpDenyAccessFs h same_exec logged b p name =>
      c ← context_of h same_exec logged;
      pathname ← path_of name;
      Some (DenyAccessFs (mkDenyAccessFsEvent now c (from_raw (kb_type b)) (from_bits (kb_access b))
              (s_dev (d_sb (path_dentry p))) (from_option i_ino 0 (d_inode (path_dentry p))) pathname))
  | TpDenyAccessNet h same_exec logged b family address addrlen =>
      c ← context_of h same_exec logged;
      let port := checked_port family address addrlen in
      Some (DenyAccessNet (mkDenyAccessNetEvent now c (from_raw (kb_type b)) (from_bits (kb_access b))
              (if N.testbit (kb_access b) 0 || N.testbit (kb_access b) 2 then port else 0)
              (if N.testbit (kb_access b) 1 || N.testbit (kb_access b) 3 then port else 0)))
  | TpDenyPtrace h same_exec logged id tracee =>
      c ← context_of h same_exec logged;
      comm ← command_of (task_comm tracee);
      Some (DenyPtrace (mkDenyPtraceEvent now c (member_of id) (mkProcessId (u32_of_int (task_tgid tracee))) comm))
  | TpDenyScopeSignal h same_exec logged id target =>
      c ← context_of h same_exec logged;
      comm ← command_of (task_comm target);
      Some (DenyScopeSignal (mkDenyScopeSignalEvent now c (member_of id)
              (mkProcessId (u32_of_int (task_tgid target))) comm))
  | TpDenyScopeAbstractUnixSocket h same_exec logged id peer =>
      c ← context_of h same_exec logged;
      name ← name_of peer;
      Some (DenyScopeAbstractUnixSocket (mkDenyScopeAbstractUnixSocketEvent now c (member_of id)
              (p ← sk_peer_pid peer; optional_process_id (u32_of_int (pid_nr p))) name))
  | TpFreeDomain h => Some (FreeDomain (mkFreeDomainEvent now (domain_of h) (u64_of_long (h_num_denials h))))
  | TpFreeRuleset r => Some (FreeRuleset (mkFreeRulesetEvent now (ruleset_of r) (kr_version r)))
  end.
End described.

(** ** The record is the layout of the event *)

Section agreement.
Context (E : endian) `{HelperLaws}.

(** What the kernel guarantees: the name of the running task is a
    NUL-terminated array, its identifiers and the clock fill 64 bits. *)
Definition context_ok (ctx : BpfContext) : Prop :=
  length (current_comm ctx) = 16%nat ∧ Byte.x00 ∈ current_comm ctx ∧ u64_ok (current_pid_tgid ctx) ∧
  u64_ok (ktime_get_ns ctx).

Abbreviation zeroed := (replicate 352 Byte.x00).

Lemma before_nul_split bs :
  Byte.x00 ∈ bs → Byte.x00 ∉ before_nul bs ∧ ∃ tail, bs = before_nul bs ++ Byte.x00 :: tail.
Proof.
  induction bs as [|b bs IH]; [by intros ?%not_elem_of_nil|]. intros Hin. simpl. destruct (is_nul b) eqn:Hb.
  - apply is_nul_true in Hb as ->. split; [apply not_elem_of_nil|by exists bs].
  - assert (b ≠ Byte.x00) as Hne by (intros ->; by destruct (proj2 (is_nul_true Byte.x00) eq_refl)).
    apply elem_of_cons in Hin as [?|Hin]; [done|]. destruct (IH Hin) as (Hn & tail & Ht).
    split; [by apply not_elem_of_cons|]. exists tail. simpl. by f_equal.
Qed.

(** ** Ports *)

Lemma ntohs_big a b : ntohs E (from_ne_bytes E [a; b]) = from_ne_bytes Big [a; b].
Proof.
  destruct E; [|done]. unfold ntohs, from_ne_bytes, reverse. simpl.
  pose proof (to_N_lt_256 a). pose proof (to_N_lt_256 b).
  change 255 with (N.ones 8). rewrite N.land_ones, N.shiftr_div_pow2. change (2 ^ 8) with 256.
  rewrite !N.add_0_r, (N.mul_comm 256), N.Div0.mod_add, N.mod_small, N.div_add, N.div_small, N.add_0_l by lia.
  assert (N.land (Byte.to_N b) (N.shiftl (Byte.to_N a) 8) = 0) as Hl.
  { apply N.bits_inj. intros i. rewrite N.land_spec, N.bits_0.
    destruct (N.lt_ge_cases i 8) as [Hi|Hi]; [by rewrite N.shiftl_spec_low, andb_false_r|].
    rewrite (N.bits_above_log2 (Byte.to_N b)); [done|].
    destruct (N.eq_dec (Byte.to_N b) 0) as [->|]; [simpl; lia|]. apply N.log2_lt_pow2; [lia|].
    eapply N.lt_le_trans; [done|]. change 256 with (2 ^ 8). by apply N.pow_le_mono_r. }
  rewrite N.lor_comm, <- N.lxor_lor, <- N.add_nocarry_lxor by done. rewrite N.shiftl_mul_pow2. change (2 ^ 8) with 256. lia.
Qed.

Lemma land_two_bits access i j :
  negb (N.land access (N.lor (N.shiftl 1 i) (N.shiftl 1 j)) =? 0) = N.testbit access i || N.testbit access j.
Proof.
  assert (∀ k, N.testbit (N.lor (N.shiftl 1 i) (N.shiftl 1 j)) k = (i =? k) || (j =? k)) as Hm.
  { intros k. rewrite N.lor_spec, !N.shiftl_1_l, !N.pow2_bits_eqb. done. }
  destruct (N.eqb_spec (N.land access (N.lor (N.shiftl 1 i) (N.shiftl 1 j))) 0) as [Hz|Hz]; simpl; symmetry.
  - apply orb_false_intro.
    + pose proof (f_equal (λ x, N.testbit x i) Hz) as Hi. cbn beta in Hi.
      rewrite N.land_spec, Hm, N.bits_0, N.eqb_refl, andb_true_r in Hi. done.
    + pose proof (f_equal (λ x, N.testbit x j) Hz) as Hj. cbn beta in Hj.
      rewrite N.land_spec, Hm, N.bits_0, N.eqb_refl, orb_true_r, andb_true_r in Hj. done.
  - apply orb_true_iff. destruct (N.testbit access i) eqn:Hi; [by left|right].
    destruct (N.testbit access j) eqn:Hj; [done|]. exfalso. apply Hz. apply N.bits_inj. intros k.
    rewrite N.land_spec, Hm, N.bits_0. destruct (N.eqb_spec i k) as [->|]; [by rewrite Hi|].
    destruct (N.eqb_spec j k) as [->|]; [by rewrite Hj|]. by rewrite andb_false_r.
Qed.

Lemma project_checked_port_spec access family address addrlen :
  project_checked_port E access family address addrlen =
  let port := checked_port family address addrlen in
  (if N.testbit access 0 || N.testbit access 2 then port else 0,
   if N.testbit access 1 || N.testbit access 3 then port else 0).
Proof.
  unfold project_checked_port, checked_port, LEGACY_SOURCE_PORT, LEGACY_DESTINATION_PORT.
  unfold LANDLOCK_ACCESS_NET_BIND, LANDLOCK_ACCESS_NET_CONNECT_SEND. unfold LANDLOCK_ACCESS_NET_BIND_TCP,
    LANDLOCK_ACCESS_NET_BIND_UDP, LANDLOCK_ACCESS_NET_CONNECT_TCP, LANDLOCK_ACCESS_NET_CONNECT_SEND_UDP.
  rewrite !land_two_bits. destruct (HAS_CHECKED_PORT _ _ _); simpl; [by rewrite ntohs_big|].
  by repeat case_match.
Qed.

(** ** Strings *)

Lemma read_comm_c_string off p (c : CapturedCommand) ev :
  command_of p = Some c → captured_valid c → read_comm off p ev = put_c_string off 16 (as_bytes c) ev.
Proof.
  unfold command_of. intros (s & Hs & [= <-])%bind_Some Hv%captured_command_length. simpl in *.
  unfold read_comm, put_c_string. rewrite (read_str_ok p s) by done. simpl.
  rewrite take_ge by lia. by rewrite decide_True by lia.
Qed.

(** What [bpf_get_current_comm] stored. *)
Lemma current_comm_c_string ctx :
  context_ok ctx → ∃ tail, current_comm ctx = (before_nul (current_comm ctx) ++
    if decide (length (before_nul (current_comm ctx)) < 16)%nat then [Byte.x00] else []) ++ tail.
Proof.
  intros (Hl & Hin & _). apply before_nul_split in Hin as (_ & tail & Ht). exists tail.
  rewrite decide_True; [by rewrite <- app_assoc|]. rewrite Ht, length_app in Hl. simpl in Hl. lia.
Qed.

(** The path in the record: the first 256 bytes, a NUL if they are fewer, and
    anything after it. *)
Lemma capture_path_written dst om p (c : CapturedPath) ev :
  path_of p = Some c →
  ∃ stored tail,
    stored = (as_bytes c ++ if decide (length (as_bytes c) < 256)%nat then [Byte.x00] else []) ++ tail ∧
    length stored = 256%nat ∧
    capture_path dst om p ev = Some (put_bool om (bytes_omitted c) (put_bytes dst stored ev)).
Proof.
  unfold path_of. intros (s & Hs & [= <-])%bind_Some. simpl. unfold capture_path.
  rewrite (read_str_ok p s) by done. change (N.to_nat (PATH_MAX_LEN + 2) - 1)%nat with 257%nat.
  change (N.to_nat (PATH_MAX_LEN + 2)) with 258%nat. change (N.to_nat PATH_MAX_LEN) with 256%nat.
  rewrite (proj2 (Z.ltb_ge _ _)) by lia.
  set (stored := take 257 s ++ [Byte.x00]).
  assert (length stored ≤ 258)%nat as Hlen by (unfold stored; rewrite length_app, length_take; cbn [length]; lia).
  assert (put_bytes 0 stored (replicate 258 Byte.x00) = stored ++ replicate (258 - length stored) Byte.x00) as ->.
  { unfold put_bytes. apply list_eq. intros i. destruct (decide (i < length stored)%nat).
    - rewrite list_lookup_inserts, lookup_app_l by (rewrite ?length_replicate; lia). f_equal. lia.
    - rewrite list_lookup_inserts_ge, lookup_app_r by lia. destruct (decide (i < 258)%nat).
      + rewrite !lookup_replicate_2 by lia. done.
      + rewrite !lookup_ge_None_2; [done|rewrite length_replicate; lia..]. }
  assert ((Z.of_N (PATH_MAX_LEN + 1) <? Z.min (Z.of_nat (length s) + 1) (Z.of_N (PATH_MAX_LEN + 2)))%Z =
    (256 <? len s)) as ->.
  { unfold len, PATH_MAX_LEN. destruct (Z.ltb_spec (Z.of_N (256 + 1)) (Z.min (Z.of_nat (length s) + 1) (Z.of_N (256 + 2))));
      destruct (N.ltb_spec 256 (N.of_nat (length s))); try done; lia. }
  destruct (decide (length (take 256 s) < 256)%nat) as [Hlt|Hge].
  - rewrite length_take in Hlt. assert (stored = s ++ [Byte.x00]) as Hst by (unfold stored; by rewrite take_ge by lia).
    clearbody stored. subst stored. rewrite take_ge by lia. rewrite length_app in Hlen. cbn [length] in Hlen.
    eexists _, (replicate (256 - (length s + 1)) Byte.x00). split; [done|].
    split; [rewrite !length_app, length_replicate; cbn [length]; lia|].
    do 3 f_equal. rewrite take_app_ge, length_app by (rewrite length_app; cbn [length]; lia). cbn [length].
    f_equal. rewrite take_replicate. f_equal. lia.
  - rewrite length_take in Hge. exists (take 256 s), []. rewrite !app_nil_r. split; [done|].
    split; [rewrite length_take; lia|].
    do 3 f_equal. subst stored. rewrite <- app_assoc, take_app_le by (rewrite length_take; lia).
    by rewrite take_take.
Qed.

Lemma capture_path_unreadable dst om p ev : path_of p = None → capture_path dst om p ev = None.
Proof.
  unfold path_of, capture_path. destruct (string_at p) eqn:Hs; [done|]. intros _.
  pose proof (read_str_fault p (PATH_MAX_LEN + 2) Hs) as Hf.
  destruct (probe_read_kernel_str _ p) as [stored n]. simpl in Hf. by rewrite (proj2 (Z.ltb_lt _ _)).
Qed.

Lemma capture_name_written dst dst_len peer ev :
  capture_abstract_unix_socket_name E dst dst_len peer ev =
  (λ c : CapturedAbstractUnixSocketName,
     put32 E dst_len (len (as_bytes c)) (put_bytes dst (as_bytes c) ev)) <$> name_of peer.
Proof.
  unfold capture_abstract_unix_socket_name, name_of. destruct (unix_addr peer) as [addr|]; [|done].
  change (Z.of_N ABSTRACT_UNIX_SOCKET_NAME_MAX_LEN) with 107%Z.
  set (size := (ua_len addr - prefix_len)%Z).
  assert ((ua_len addr <? prefix_len)%Z = (size <? 0)%Z) as -> by (subst size; lia).
  assert ((prefix_len + 107 <? ua_len addr)%Z = (107 <? size)%Z) as -> by (subst size; lia).
  destruct ((size <? 0) || (107 <? size))%Z eqn:Hrange; [done|].
  apply orb_false_elim in Hrange as [Hlo%Z.ltb_ge Hhi%Z.ltb_ge].
  destruct (probe_read_kernel (ua_sun_path addr) 0 1) as [mark|]; [|done]. simpl.
  assert (u32_of_int size = Z.to_N size) as -> by (unfold u32_of_int; rewrite Z.mod_small by lia; done).
  destruct (bool_decide (mark = [Byte.x00])); [|done]. simpl.
  destruct (Z.eqb_spec size 0) as [->|Hs]; [done|].
  rewrite (proj2 (N.eqb_neq _ _)) by lia.
  destruct (probe_read_kernel (ua_sun_path addr) 1 (Z.to_N size)) as [name|] eqn:Hn; [|done]. simpl.
  by rewrite (read_memory_length _ _ _ _ Hn).
Qed.

(** ** The header of a denial *)

Lemma fill_deny_header_written h same_exec logged c ev :
  context_of h same_exec logged = Some c → context_valid c →
  fill_deny_header E h ev =
    put_c_string 36 16 (as_bytes (hs_creator_comm (dc_hierarchy c)))
      (put32 E 32 (pid_get (hs_creator_tgid (dc_hierarchy c)))
        (put64 E 24 (parent_raw (hs_parent_id (dc_hierarchy c)))
          (put64 E 56 (dc_cumulative_denial_count c)
            (put64 E 16 (id_get (hs_domain_id (dc_hierarchy c))) ev)))) ∧
  dc_same_exec c = same_exec ∧ dc_logged c = logged.
Proof.
  unfold context_of, snapshot_of. intros (snap & (d & Hd & (p & Hp & (comm & Hc & [= <-])%bind_Some)%bind_Some)%bind_Some
    & [= <-])%bind_Some [(_ & _ & _ & Hv) _]. simpl in *. unfold fill_deny_header. rewrite Hd, Hp.
  rewrite (read_comm_c_string _ _ comm) by done. split; [|done].
  simpl. by destruct (h_parent h).
Qed.

Lemma parent_raw_member id : parent_raw (membership_domain_id (member_of id)) = id.
Proof. unfold member_of. by destruct (N.eqb_spec id 0) as [->|]. Qed.

Lemma peer_pid_raw_optional v : peer_pid_raw (optional_process_id v) = v.
Proof. unfold optional_process_id, process_id_new. by destruct (N.eqb_spec v 0) as [->|]. Qed.

(** ** Every program writes the layout of its event *)

Ltac unfold_writes :=
  unfold put_context, put_header, fill_header, put_c_string, put_bool, put_bytes, Wire.put64, Wire.put32, put8.

(** Treats each C string as one value whose length is known. *)
Ltac name_c_strings :=
  repeat match goal with
  | |- context [?bs ++ (if decide (length ?bs < ?n)%nat then [Byte.x00] else [])] =>
      let cs := fresh "cs" in
      assert (length (bs ++ (if decide (length bs < n)%nat then [Byte.x00] else [])) ≤ n)%nat
        by (apply length_c_string; lia);
      set (cs := bs ++ (if decide (length bs < n)%nat then [Byte.x00] else [])) in *; clearbody cs
  end.

Lemma with_event_room ctx fill :
  ring_has_room ctx = true →
  with_event ctx fill = match fill zeroed with Some r => Submitted r | None => Discarded end.
Proof. intros Hr. unfold with_event, alloc_event. by rewrite Hr. Qed.

(** Compares two nests of writes, of which one may rewrite the beginning of
    what the other has stored. *)
Ltac same_record :=
  cbn [encode]; unfold_writes; cbn -[list_inserts to_ne_bytes byte_of_N];
  rewrite ?parent_raw_member, ?peer_pid_raw_optional; name_c_strings; sort_writes;
  try match goal with Hst : ?stored = _ ++ _ |- _ => rewrite Hst, ?inserts_absorb end; reflexivity.

(** A record with the stored string as its initial contents. *)
Ltac over_stored off stored z :=
  exists (put_bytes off stored z); split; [unfold put_bytes; by rewrite length_inserts|];
  apply (f_equal Submitted); same_record.
Ltac over_cleared z := exists z; split; [done|]; apply (f_equal Submitted); same_record.

Lemma record_is_layout ctx t e :
  ring_has_room ctx = true → context_ok ctx → event_of ctx t = Some e → event_valid e →
  ∃ data, length data = 352%nat ∧ run_program E ctx t = Submitted (encode E data e).
Proof.
  intros Hroom Hctx He [_ Hv]. assert (length zeroed = 352%nat) as Hz by done.
  destruct t; cbn [event_of run_program] in *;
    unfold handle_create_ruleset, handle_add_rule_path_beneath, handle_add_rule_net_port, handle_create_domain,
      handle_enforce_domain, handle_deny_access_fs, handle_deny_access_net, handle_deny_ptrace, handle_deny_scope_signal,
      handle_deny_scope_abstract_unix_socket, handle_free_domain, handle_free_ruleset;
    rewrite with_event_room by done; revert Hz; generalize zeroed; intros z Hz.
  - injection He as <-. over_cleared z.
  - apply bind_Some in He as (i & Hi & (c & Hc & [= <-])%bind_Some). rewrite Hi. cbn in Hv. wire_valid.
    edestruct (capture_path_written 56 44 pathname c) as (stored & tail & Hst & Hl & ->); [done|].
    over_stored 56%nat stored z.
  - injection He as <-. over_cleared z.
  - injection He as <-. cbn in Hv. wire_valid. destruct (current_comm_c_string ctx Hctx) as (tail & Hst).
    destruct Hctx as (Hl & _ & _). cbn [as_bytes] in *.
    set (s := before_nul (current_comm ctx)) in *. clearbody s. set (comm := current_comm ctx) in *. clearbody comm.
    rewrite N.shiftr_div_pow2. destruct (h_parent (d_hierarchy new_dom)); over_stored 52%nat comm z.
  - injection He as <-. over_cleared z.
  - apply bind_Some in He as (c & Hc & (path & Hp & [= <-])%bind_Some). cbn in Hv. wire_valid.
    destruct (fill_deny_header_written h same_exec logged c (fill_header E ctx DENY_ACCESS_FS z)) as (-> & <- & <-); [done..|].
    edestruct (capture_path_written 96 84 pathname path) as (stored & tail & Hst & Hl & ->); [done|].
    over_stored 96%nat stored z.
  - apply bind_Some in He as (c & Hc & [= <-]). cbn in Hv. wire_valid.
    destruct (fill_deny_header_written h same_exec logged c (fill_header E ctx DENY_ACCESS_NET z)) as (-> & <- & <-); [done..|].
    rewrite project_checked_port_spec. over_cleared z.
  - apply bind_Some in He as (c & Hc & (comm & Hp & [= <-])%bind_Some). cbn in Hv. wire_valid.
    destruct (fill_deny_header_written h same_exec logged c (fill_header E ctx DENY_PTRACE z)) as (-> & <- & <-); [done..|].
    rewrite (read_comm_c_string _ _ comm) by done. over_stored 64%nat (to_ne_bytes E 8 0) z.
  - apply bind_Some in He as (c & Hc & (comm & Hp & [= <-])%bind_Some). cbn in Hv. wire_valid.
    destruct (fill_deny_header_written h same_exec logged c (fill_header E ctx DENY_SCOPE_SIGNAL z)) as (-> & <- & <-); [done..|].
    rewrite (read_comm_c_string _ _ comm) by done. over_stored 64%nat (to_ne_bytes E 8 0) z.
  - apply bind_Some in He as (c & Hc & (name & Hn & [= <-])%bind_Some). cbn in Hv. wire_valid.
    rewrite capture_name_written, Hn. cbn [fmap option_fmap option_map mbind option_bind].
    edestruct (fill_deny_header_written h same_exec logged c) as (-> & <- & <-); [done..|].
    destruct (sk_peer_pid peer) as [p|]; over_stored 64%nat (to_ne_bytes E 8 0) z.
  - injection He as <-. over_cleared z.
  - injection He as <-. over_cleared z.
Qed.

Lemma program_decodes ctx t e :
  ring_has_room ctx = true → context_ok ctx → event_of ctx t = Some e → event_valid e →
  ∃ record, run_program E ctx t = Submitted record ∧ decode E record = Ok e.
Proof.
  intros Hroom Hctx He Hv. destruct (record_is_layout ctx t e Hroom Hctx He Hv) as (data & Hl & Hr).
  exists (encode E data e). split; [done|]. by apply decode_encode_aux.
Qed.

(** C2: the BPF programs and the decoder agree. Whatever the byte order, when
    there is room in the ring, the program at a tracepoint submits a record
    that the library decodes as the event that took place: every identity,
    mask, port and count is that of the kernel object, a path is kept up to its
    first 256 bytes and marked exactly when it is longer. *)
Theorem bpf_records_decode ctx t e :
  ring_has_room ctx = true → context_ok ctx → event_of ctx t = Some e → event_valid e →
  ∃ record, run_program E ctx t = Submitted record ∧ decode E record = Ok e.
Proof. apply program_decodes. Qed.

(** The path or the name cannot be captured. *)
Definition unreadable (t : Tracepoint) : Prop :=
  match t with
  | TpAddRulePathBeneath _ _ _ name | TpDenyAccessFs _ _ _ _ _ name => path_of name = None
  | TpDenyScopeAbstractUnixSocket _ _ _ _ peer => name_of peer = None
  | _ => False
  end.

(** A program submits a record unless the ring is full or the path or
    socket name cannot be read; then it submits nothing, never a made-up one. *)
Theorem bpf_submissions ctx t :
  (run_program E ctx t = NotReserved ↔ ring_has_room ctx = false) ∧
  (run_program E ctx t = Discarded ↔ ring_has_room ctx = true ∧ unreadable t).
Proof.
  assert (∀ fill, (with_event ctx fill = NotReserved ↔ ring_has_room ctx = false) ∧
    (with_event ctx fill = Discarded ↔ ring_has_room ctx = true ∧ fill zeroed = None)) as Hw.
  { intros fill. unfold with_event, alloc_event. destruct (ring_has_room ctx); [|naive_solver].
    change (N.to_nat RECORD_SIZE) with 352%nat. destruct (fill zeroed); naive_solver. }
  assert (∀ fill P, (fill zeroed = None ↔ P) → (with_event ctx fill = NotReserved ↔ ring_has_room ctx = false) ∧
    (with_event ctx fill = Discarded ↔ ring_has_room ctx = true ∧ P)) as Hp.
  { intros fill P HP. rewrite <- HP. apply Hw. }
  assert (∀ dst om p ev, capture_path dst om p ev = None ↔ path_of p = None) as Hpath.
  { intros dst om p ev. split; [|apply capture_path_unreadable]. destruct (path_of p) as [c|] eqn:Hc; [|done].
    destruct (capture_path_written dst om p c ev Hc) as (? & ? & _ & _ & ->). done. }
  destruct t; cbn [run_program unreadable]; apply Hp; try apply Hpath; try done.
  rewrite capture_name_written. by destruct (name_of peer).
Qed.

(** ** A creator that is not known *)

Definition denied_by (t : Tracepoint) : option landlock_hierarchy :=
  match t with
  | TpDenyAccessFs h _ _ _ _ _ | TpDenyAccessNet h _ _ _ _ _ _ | TpDenyPtrace h _ _ _ _
  | TpDenyScopeSignal h _ _ _ _ | TpDenyScopeAbstractUnixSocket h _ _ _ _ => Some h
  | _ => None
  end.

(** The creator's process is missing from the hierarchy. *)
Definition creator_unknown (h : landlock_hierarchy) : Prop :=
  from_option (λ d, from_option (λ p, u32_of_int (pid_nr p)) 0 (details_pid d)) 0 (h_details h) = 0.

Lemma fill_deny_header_unknown h ev :
  creator_unknown h →
  ∃ comm, (length comm ≤ 16)%nat ∧
    fill_deny_header E h ev =
      list_inserts 36 comm (put32 E 32 0 (put64 E 24 (parent_raw (domain_of <$> h_parent h))
        (put64 E 56 (u64_of_long (h_num_denials h)) (put64 E 16 (id_get (domain_of h)) ev)))).
Proof.
  unfold creator_unknown, fill_deny_header. intros Hc.
  assert (from_option h_id 0 (h_parent h) = parent_raw (domain_of <$> h_parent h)) as -> by by destruct (h_parent h).
  destruct (h_details h) as [d|]; simpl in Hc.
  - rewrite Hc. exists (probe_read_kernel_str TASK_COMM_LEN (details_comm d)).1. split; [|done].
    apply (read_str_length _ TASK_COMM_LEN).
  - exists [byte_of_N 0]. split; [simpl; lia|done].
Qed.

(** Reads of a denial's header stop at the creator. *)
Lemma denial_context_unknown data (id : DomainId) parent_id :
  u64_at E data 16 "domain_id" = Ok (id_get id) → id_valid id →
  u64_at E data 24 "parent_id" = Ok (parent_raw parent_id) → option_valid id_valid parent_id →
  u32_at E data 32 "creator_tgid" = Ok 0 →
  denial_context E data = Err (TaskId "creator_tgid").
Proof.
  intros H1 Hid H2 Hp H3. unfold denial_context, UNION_OFFSET. rewrite H1. cbn [result_bind]. rewrite id_valid_Ok by done.
  cbn [result_bind]. rewrite H2. cbn [result_bind]. rewrite parent_valid_Ok by done. cbn [result_bind]. by rewrite H3.
Qed.

(** Evaluates [decode] up to the creator. *)
Ltac decode_unknown :=
  unfold_writes; cbv zeta; wire_dispatch; unfold decode_deny_access_fs, decode_deny_access_net, decode_deny_ptrace,
    decode_deny_scope_signal, decode_deny_scope_abstract_unix_socket;
  lazymatch goal with
  | Hc : creator_unknown ?h |- _ => rewrite (denial_context_unknown _ (domain_of h) (domain_of <$> h_parent h))
  end; [reflexivity|by repeat wire_read|done|by repeat wire_read|done|by repeat wire_read].

(** C37: a denial whose creator the kernel no longer knows is reported as such.
    The record carries zero for it, and the library refuses that record with
    the error that names the creator, never with an event of process zero. *)
Theorem unknown_creator_refused ctx t h record :
  context_ok ctx → denied_by t = Some h → creator_unknown h →
  id_valid (domain_of h) → option_valid id_valid (domain_of <$> h_parent h) →
  run_program E ctx t = Submitted record → decode E record = Err (TaskId "creator_tgid").
Proof.
  intros (_ & _ & _ & Hnow) Ht Hc Hid Hp Hr. assert (length zeroed = 352%nat) as Hz by done.
  assert (u64_ok (id_get (domain_of h))) by apply Hid.
  assert (u64_ok (parent_raw (domain_of <$> h_parent h))) by by apply parent_raw_u64.
  assert (ring_has_room ctx = true) as Hroom.
  { destruct (ring_has_room ctx) eqn:Hroom; [done|]. exfalso. revert Hr.
    destruct t; simpl in Ht; try done; simplify_eq; cbn [run_program];
      unfold handle_deny_access_fs, handle_deny_access_net, handle_deny_ptrace, handle_deny_scope_signal,
        handle_deny_scope_abstract_unix_socket, with_event, alloc_event; by rewrite Hroom. }
  destruct t; simpl in Ht; try done; simplify_eq; cbn [run_program] in Hr;
    unfold handle_deny_access_fs, handle_deny_access_net, handle_deny_ptrace, handle_deny_scope_signal,
      handle_deny_scope_abstract_unix_socket in Hr;
    rewrite with_event_room in Hr by done; revert Hr Hz; generalize zeroed; intros z Hr Hz; cbv zeta in Hr.
  - destruct (fill_deny_header_unknown h (fill_header E ctx DENY_ACCESS_FS z) Hc) as (comm & Hl & Hf).
    rewrite Hf in Hr. destruct (path_of pathname) as [c|] eqn:Hpath; [|by rewrite capture_path_unreadable in Hr].
    edestruct (capture_path_written 96 84 pathname c) as (stored & tail & _ & Hls & Hw); [done|].
    rewrite Hw in Hr. injection Hr as <-. decode_unknown.
  - destruct (fill_deny_header_unknown h (fill_header E ctx DENY_ACCESS_NET z) Hc) as (comm & Hl & Hf).
    rewrite Hf in Hr. destruct (project_checked_port _ _ _ _ _) as [sport dport]. injection Hr as <-. decode_unknown.
  - destruct (fill_deny_header_unknown h (fill_header E ctx DENY_PTRACE z) Hc) as (comm & Hl & Hf).
    rewrite Hf in Hr. injection Hr as <-. unfold read_comm.
    pose proof (read_str_length (task_comm tracee) TASK_COMM_LEN). decode_unknown.
  - destruct (fill_deny_header_unknown h (fill_header E ctx DENY_SCOPE_SIGNAL z) Hc) as (comm & Hl & Hf).
    rewrite Hf in Hr. injection Hr as <-. unfold read_comm.
    pose proof (read_str_length (task_comm target) TASK_COMM_LEN). decode_unknown.
  - rewrite capture_name_written in Hr. destruct (name_of peer) as [c|]; [|done]. simpl in Hr.
    edestruct fill_deny_header_unknown as (comm & Hl & Hf); [exact Hc|]. rewrite Hf in Hr. injection Hr as <-.
    decode_unknown.
Qed.
End agreement.

(** ** A kernel memory *)

(** Strings that can be read or not, and bytes at an address. *)
#[local] Instance memory_helpers : Helpers := {|
  KernelString := option (list byte);
  KernelMemory := list byte;
  probe_read_kernel_str size p :=
    match p with
    | None => ([], -14)%Z
    | Some bs =>
        if size =? 0 then ([], 0%Z)
        else (take (N.to_nat size - 1) (before_nul bs) ++ [Byte.x00],
              Z.min (Z.of_nat (length (before_nul bs)) + 1) (Z.of_N size))
    end;
  probe_read_kernel m offset size :=
    if offset + size <=? len m then Some (take (N.to_nat size) (drop (N.to_nat offset) m)) else None;
  faulted := 0;
|}.

Lemma before_nul_free bs : Byte.x00 ∉ before_nul bs.
Proof.
  induction bs as [|b bs IH]; simpl; [apply not_elem_of_nil|]. destruct (is_nul b) eqn:Hb; [apply not_elem_of_nil|].
  apply not_elem_of_cons. split; [|done]. intros <-. by destruct (proj2 (is_nul_true Byte.x00) eq_refl).
Qed.

#[local] Instance memory_laws : HelperLaws.
Proof.
  refine {| string_at := fmap before_nul : KernelString → _ |}; simpl.
  - intros p s (bs & -> & ->)%fmap_Some. apply before_nul_free.
  - intros p s size (bs & -> & ->)%fmap_Some Hs. by rewrite (proj2 (N.eqb_neq _ _)) by lia.
  - intros [bs|] size; [|simpl; lia]. destruct (N.eqb_spec size 0); simpl; [lia|].
    rewrite length_app, length_take. cbn [length]. lia.
  - by intros [bs|] size.
  - intros m offset size bs. destruct (N.leb_spec (offset + size) (len m)) as [Hle|]; [|done]. intros [= <-].
    unfold len in *. rewrite length_take, length_drop. lia.
Defined.

(** A process that is not allowed to write to a file. *)
Definition the_context : BpfContext :=
  mkBpfContext true 1000 (N.shiftl 7 32 + 8) (bytes_of_string "sh" ++ replicate 14 Byte.x00).
Definition the_hierarchy (creator : option upid) : landlock_hierarchy :=
  mkHierarchy (Some (mkHierarchy None (MIN_LANDLOCK_ID + 1) 0 None)) (MIN_LANDLOCK_ID + 2) 3
    (Some (mkDetails creator (Some (bytes_of_string "sandboxer")))).
Definition the_denial (creator : option upid) : Tracepoint :=
  TpDenyAccessFs (the_hierarchy creator) true false (mkBlockers 2 16) (mkPath (mkDentry (mkSuperBlock 5) (Some (mkInode 9))))
    (Some (replicate 300 Byte.x61)).

Lemma the_context_ok : context_ok the_context.
Proof. split_and!; [done|apply (bool_decide_unpack _); by vm_compute|done..]. Qed.

(** The event of that denial, its path cut at 256 bytes. *)
Lemma the_denial_event :
  ∃ e, event_of the_context (the_denial (Some (mkPid 42))) = Some (DenyAccessFs e) ∧ event_valid (DenyAccessFs e) ∧
    len (as_bytes (dfs_pathname e)) = 256 ∧ bytes_omitted (dfs_pathname e) = true.
Proof.
  eexists. split; [by vm_compute|]. split; [|done].
  repeat split; try done; try (intros _; apply (bool_decide_unpack _); by vm_compute).
Qed.

Lemma bpf_records_decode_witness :
  ∃ record e, run_program Little the_context (the_denial (Some (mkPid 42))) = Submitted record ∧
    decode Little record = Ok e.
Proof.
  destruct the_denial_event as (e & He & Hv & _).
  destruct (bpf_records_decode Little the_context (the_denial (Some (mkPid 42))) (DenyAccessFs e) eq_refl the_context_ok He Hv)
    as (record & Hr & Hd).
  by exists record, (DenyAccessFs e).
Defined.

Lemma unknown_creator_refused_witness :
  ∃ record, run_program Big the_context (the_denial None) = Submitted record ∧
    decode Big record = Err (TaskId "creator_tgid").
Proof.
  destruct (run_program Big the_context (the_denial None)) as [| |record] eqn:Hr; [by vm_compute in Hr..|].
  exists record. split; [done|].
  apply (unknown_creator_refused Big the_context (the_denial None) (the_hierarchy None) record the_context_ok eq_refl eq_refl);
    [by split|by split|done].
Defined.
