(* ===== verification/State.v ===== *)
(** * Reconstructed state (src/state.rs)

    [State] holds the facts learned about rulesets and domains from an event
    stream in which events may be missing, repeated or out of order. Hash maps
    are finite maps; [apply] is the match of [State::apply], one handler per
    arm. A mutation of one struct through [&mut] is a setter; the setters of a
    struct change only the fields they name. *)

From S2P Require Import Prelude Lattice CapturedBytes Event.

Inductive LifecycleState := Allocated | Deallocated.
#[export] Instance LifecycleState_eq_dec : EqDecision LifecycleState.
Proof. solve_decision. Defined.

Inductive DomainParent :=
| Root
| ParentDomain (id : DomainId).
#[export] Instance DomainParent_eq_dec : EqDecision DomainParent.
Proof. solve_decision. Defined.

Record RulesetVersion := mkRulesetVersion {
  rv_ruleset_id : RulesetId;
  rv_ruleset_version : N;
}.

Record FilesystemRuleState := mkFilesystemRuleState {
  fr_device : N;
  fr_inode : N;
  fr_access_rights : FilesystemAccess;
  fr_pathname : CapturedPath;
  fr_pathname_timestamp : KernelTimestamp;
}.

Record NetworkRuleState := mkNetworkRuleState {
  nr_port : N;
  nr_access_rights : NetworkAccess;
}.

Record RulesetState := mkRulesetState {
  rs_id : RulesetId;
  rs_lifecycle : LifecycleState;
  rs_creation_timestamp : option KernelTimestamp;
  rs_handled_fs : option FilesystemAccess;
  rs_handled_net : option NetworkAccess;
  rs_scoped : option ScopeAccess;
  rs_max_observed_version : N;
  rs_final_version : option N;
  rs_free_timestamp : option KernelTimestamp;
  rs_filesystem_rules : gmap (N * N) FilesystemRuleState;
  rs_network_rules : gmap N NetworkRuleState;
}.

Record DomainState := mkDomainState {
  ds_id : DomainId;
  ds_lifecycle : LifecycleState;
  ds_creation_timestamp : option KernelTimestamp;
  ds_parent : option DomainParent;
  ds_creator_tgid : option ProcessId;
  ds_creator_comm : option CapturedCommand;
  ds_ruleset : option RulesetVersion;
  ds_cumulative_denial_count : option N;
  ds_final_denial_count : option N;
  ds_free_timestamp : option KernelTimestamp;
  ds_enforcement_events : gmap ThreadId EnforceDomainEvent;
  ds_any_process_wide_enforcement : bool;
}.

Record State := mkState {
  rulesets : gmap RulesetId RulesetState;
  domains : gmap DomainId DomainState;
}.

Definition state_new : State := mkState ∅ ∅.

(** ** Helpers *)

Definition timestamp_value (t : KernelTimestamp) : N := as_nanoseconds t.

(** [current.is_none_or(p)]. *)
Definition is_none_or {A} (o : option A) (p : A → bool) : bool :=
  match o with None => true | Some a => p a end.

Definition update_latest_timestamp (current : option KernelTimestamp) (candidate : KernelTimestamp) :
    option KernelTimestamp :=
  if is_none_or current (λ value, timestamp_value value <=? timestamp_value candidate)
  then Some candidate else current.

(** At [u64], the only instance the program uses. *)
Definition update_max (current : option N) (candidate : N) : option N :=
  if is_none_or current (λ value, value <=? candidate) then Some candidate else current.

(** [if self.lifecycle != Deallocated { self.lifecycle = Allocated }]. *)
Definition mark_lifecycle_allocated (l : LifecycleState) : LifecycleState :=
  if decide (l ≠ Deallocated) then Allocated else l.

(** ** Rulesets *)

Definition ruleset_state_new (id : RulesetId) (lifecycle : LifecycleState) (version : N) :
    RulesetState :=
  mkRulesetState id lifecycle None None None None version None None ∅ ∅.

Definition rs_set_lifecycle (l : LifecycleState) (r : RulesetState) : RulesetState :=
  mkRulesetState (rs_id r) l (rs_creation_timestamp r) (rs_handled_fs r) (rs_handled_net r)
    (rs_scoped r) (rs_max_observed_version r) (rs_final_version r) (rs_free_timestamp r)
    (rs_filesystem_rules r) (rs_network_rules r).

Definition ruleset_mark_allocated (r : RulesetState) : RulesetState :=
  rs_set_lifecycle (mark_lifecycle_allocated (rs_lifecycle r)) r.

Definition update_version (version : N) (r : RulesetState) : RulesetState :=
  mkRulesetState (rs_id r) (rs_lifecycle r) (rs_creation_timestamp r) (rs_handled_fs r)
    (rs_handled_net r) (rs_scoped r) (N.max (rs_max_observed_version r) version)
    (rs_final_version r) (rs_free_timestamp r) (rs_filesystem_rules r) (rs_network_rules r).

Definition rs_set_creation (e : CreateRulesetEvent) (r : RulesetState) : RulesetState :=
  mkRulesetState (rs_id r) (rs_lifecycle r) (Some (timestamp e)) (Some (cre_handled_fs e))
    (Some (cre_handled_net e)) (Some (cre_scoped e)) (rs_max_observed_version r)
    (rs_final_version r) (rs_free_timestamp r) (rs_filesystem_rules r) (rs_network_rules r).

Definition rs_set_final (version : option N) (t : option KernelTimestamp) (r : RulesetState) :
    RulesetState :=
  mkRulesetState (rs_id r) (rs_lifecycle r) (rs_creation_timestamp r) (rs_handled_fs r)
    (rs_handled_net r) (rs_scoped r) (rs_max_observed_version r) version t
    (rs_filesystem_rules r) (rs_network_rules r).

Definition rs_set_filesystem_rules (m : gmap (N * N) FilesystemRuleState) (r : RulesetState) :
    RulesetState :=
  mkRulesetState (rs_id r) (rs_lifecycle r) (rs_creation_timestamp r) (rs_handled_fs r)
    (rs_handled_net r) (rs_scoped r) (rs_max_observed_version r) (rs_final_version r)
    (rs_free_timestamp r) m (rs_network_rules r).

Definition rs_set_network_rules (m : gmap N NetworkRuleState) (r : RulesetState) : RulesetState :=
  mkRulesetState (rs_id r) (rs_lifecycle r) (rs_creation_timestamp r) (rs_handled_fs r)
    (rs_handled_net r) (rs_scoped r) (rs_max_observed_version r) (rs_final_version r)
    (rs_free_timestamp r) (rs_filesystem_rules r) m.

Definition creation_replaced (current : option KernelTimestamp) (t : KernelTimestamp) : bool :=
  is_none_or current (λ c, timestamp_value c <=? timestamp_value t).

Definition on_create_ruleset (e : CreateRulesetEvent) (r : RulesetState) : RulesetState :=
  let r := update_version (cre_ruleset_version e) (ruleset_mark_allocated r) in
  if creation_replaced (rs_creation_timestamp r) (timestamp e) then rs_set_creation e r else r.

Definition filesystem_rule_merge (e : AddRulePathBeneathEvent) (rule : FilesystemRuleState) :
    FilesystemRuleState :=
  let rights := from_bits (N.lor (bits (fr_access_rights rule)) (bits (arp_access_rights e))) in
  if timestamp_value (fr_pathname_timestamp rule) <=? timestamp_value (timestamp e)
  then mkFilesystemRuleState (fr_device rule) (fr_inode rule) rights (arp_pathname e) (timestamp e)
  else mkFilesystemRuleState (fr_device rule) (fr_inode rule) rights (fr_pathname rule)
         (fr_pathname_timestamp rule).

Definition filesystem_rule_new (e : AddRulePathBeneathEvent) : FilesystemRuleState :=
  mkFilesystemRuleState (arp_device e) (arp_inode e) (arp_access_rights e) (arp_pathname e)
    (timestamp e).

Definition on_add_rule_path_beneath (e : AddRulePathBeneathEvent) (r : RulesetState) :
    RulesetState :=
  let r := update_version (arp_ruleset_version e) (ruleset_mark_allocated r) in
  let key := (arp_device e, arp_inode e) in
  rs_set_filesystem_rules
    (match rs_filesystem_rules r !! key with
     | Some rule => <[key := filesystem_rule_merge e rule]> (rs_filesystem_rules r)
     | None => <[key := filesystem_rule_new e]> (rs_filesystem_rules r)
     end) r.

Definition network_rule_merge (e : AddRuleNetPortEvent) (rule : NetworkRuleState) :
    NetworkRuleState :=
  mkNetworkRuleState (nr_port rule)
    (from_bits (N.lor (bits (nr_access_rights rule)) (bits (arn_access_rights e)))).

Definition on_add_rule_net_port (e : AddRuleNetPortEvent) (r : RulesetState) : RulesetState :=
  let r := update_version (arn_ruleset_version e) (ruleset_mark_allocated r) in
  rs_set_network_rules
    (entry_and_modify (arn_port e) (network_rule_merge e)
       (mkNetworkRuleState (arn_port e) (arn_access_rights e)) (rs_network_rules r)) r.

Definition on_ruleset_used (version : N) (r : RulesetState) : RulesetState :=
  update_version version (ruleset_mark_allocated r).

Definition on_free_ruleset (e : FreeRulesetEvent) (r : RulesetState) : RulesetState :=
  let r := rs_set_lifecycle Deallocated r in
  let r := rs_set_final (update_max (rs_final_version r) (fre_ruleset_version e))
             (update_latest_timestamp (rs_free_timestamp r) (timestamp e)) r in
  update_version (fre_ruleset_version e) r.

(** ** Domains *)

Definition domain_state_new (id : DomainId) (lifecycle : LifecycleState) : DomainState :=
  mkDomainState id lifecycle None None None None None None None None ∅ false.

Definition ds_set_lifecycle (l : LifecycleState) (d : DomainState) : DomainState :=
  mkDomainState (ds_id d) l (ds_creation_timestamp d) (ds_parent d) (ds_creator_tgid d)
    (ds_creator_comm d) (ds_ruleset d) (ds_cumulative_denial_count d) (ds_final_denial_count d)
    (ds_free_timestamp d) (ds_enforcement_events d) (ds_any_process_wide_enforcement d).

Definition domain_mark_allocated (d : DomainState) : DomainState :=
  ds_set_lifecycle (mark_lifecycle_allocated (ds_lifecycle d)) d.

Definition ds_set_cumulative (count : option N) (d : DomainState) : DomainState :=
  mkDomainState (ds_id d) (ds_lifecycle d) (ds_creation_timestamp d) (ds_parent d)
    (ds_creator_tgid d) (ds_creator_comm d) (ds_ruleset d) count (ds_final_denial_count d)
    (ds_free_timestamp d) (ds_enforcement_events d) (ds_any_process_wide_enforcement d).

Definition known_parent (p : option DomainId) : DomainParent :=
  match p with
  | Some id => ParentDomain id
  | None => Root
  end.

Definition ds_set_creation (e : CreateDomainEvent) (d : DomainState) : DomainState :=
  mkDomainState (ds_id d) (ds_lifecycle d) (Some (timestamp e))
    (Some (known_parent (cde_parent_id e))) (Some (cde_creator_tgid e)) (Some (cde_creator_comm e))
    (Some (mkRulesetVersion (cde_ruleset_id e) (cde_ruleset_version e)))
    (ds_cumulative_denial_count d) (ds_final_denial_count d) (ds_free_timestamp d)
    (ds_enforcement_events d) (ds_any_process_wide_enforcement d).

Definition ds_set_parent (p : option DomainParent) (d : DomainState) : DomainState :=
  mkDomainState (ds_id d) (ds_lifecycle d) (ds_creation_timestamp d) p
    (ds_creator_tgid d) (ds_creator_comm d) (ds_ruleset d) (ds_cumulative_denial_count d)
    (ds_final_denial_count d) (ds_free_timestamp d) (ds_enforcement_events d)
    (ds_any_process_wide_enforcement d).

Definition ds_set_creator (tgid : option ProcessId) (comm : option CapturedCommand)
    (d : DomainState) : DomainState :=
  mkDomainState (ds_id d) (ds_lifecycle d) (ds_creation_timestamp d) (ds_parent d) tgid comm
    (ds_ruleset d) (ds_cumulative_denial_count d) (ds_final_denial_count d) (ds_free_timestamp d)
    (ds_enforcement_events d) (ds_any_process_wide_enforcement d).

Definition ds_set_final (count : option N) (t : option KernelTimestamp) (d : DomainState) :
    DomainState :=
  mkDomainState (ds_id d) (ds_lifecycle d) (ds_creation_timestamp d) (ds_parent d)
    (ds_creator_tgid d) (ds_creator_comm d) (ds_ruleset d) (ds_cumulative_denial_count d)
    count t (ds_enforcement_events d) (ds_any_process_wide_enforcement d).

Definition ds_set_enforcement (m : gmap ThreadId EnforceDomainEvent) (any : bool)
    (d : DomainState) : DomainState :=
  mkDomainState (ds_id d) (ds_lifecycle d) (ds_creation_timestamp d) (ds_parent d)
    (ds_creator_tgid d) (ds_creator_comm d) (ds_ruleset d) (ds_cumulative_denial_count d)
    (ds_final_denial_count d) (ds_free_timestamp d) m any.

Definition on_create_domain (e : CreateDomainEvent) (d : DomainState) : DomainState :=
  let d := domain_mark_allocated d in
  let d := ds_set_cumulative (update_max (ds_cumulative_denial_count d) 0) d in
  if creation_replaced (ds_creation_timestamp d) (timestamp e) then ds_set_creation e d else d.

Definition on_free_domain (e : FreeDomainEvent) (d : DomainState) : DomainState :=
  let d := ds_set_lifecycle Deallocated d in
  let d := ds_set_final (update_max (ds_final_denial_count d) (fde_denial_count e))
             (update_latest_timestamp (ds_free_timestamp d) (timestamp e)) d in
  ds_set_cumulative (update_max (ds_cumulative_denial_count d) (fde_denial_count e)) d.

Definition enforcement_merge (e current : EnforceDomainEvent) : EnforceDomainEvent :=
  if timestamp_value (timestamp current) <=? timestamp_value (timestamp e) then e else current.

Definition on_enforce_domain (e : EnforceDomainEvent) (d : DomainState) : DomainState :=
  let d := domain_mark_allocated d in
  ds_set_enforcement
    (entry_and_modify (ede_enforcing_tid e) (enforcement_merge e) e (ds_enforcement_events d))
    (ds_any_process_wide_enforcement d || ede_process_wide e) d.

(** [state.parent.is_none()] and [creator_tgid.is_none() && creator_comm.is_none()]. *)
Definition is_none {A} (o : option A) : bool := match o with None => true | Some _ => false end.

Definition on_denial (c : DenialContext) (d : DomainState) : DomainState :=
  let h := dc_hierarchy c in
  let d := domain_mark_allocated d in
  let d := if is_none (ds_parent d)
           then ds_set_parent (Some (known_parent (hs_parent_id h))) d else d in
  let d := if is_none (ds_creator_tgid d) && is_none (ds_creator_comm d)
           then ds_set_creator (Some (hs_creator_tgid h)) (Some (hs_creator_comm h)) d else d in
  ds_set_cumulative
    (update_max (ds_cumulative_denial_count d) (dc_cumulative_denial_count c)) d.

(** ** The arms of [State::apply] *)

Definition update_ruleset (id : RulesetId) (lifecycle : LifecycleState) (version : N)
    (f : RulesetState → RulesetState) (s : State) : State :=
  mkState (entry_modify id (ruleset_state_new id lifecycle version) f (rulesets s)) (domains s).

Definition update_domain (id : DomainId) (lifecycle : LifecycleState)
    (f : DomainState → DomainState) (s : State) : State :=
  mkState (rulesets s) (entry_modify id (domain_state_new id lifecycle) f (domains s)).

(** [self.domains.entry(id).or_insert_with(|| DomainState::new(id, Allocated))]. *)
Definition placeholder (id : DomainId) (s : State) : State :=
  mkState (rulesets s) (entry_ensure id (domain_state_new id Allocated) (domains s)).

Definition placeholder_opt (o : option DomainId) (s : State) : State :=
  match o with Some id => placeholder id s | None => s end.

Definition apply_create_ruleset (e : CreateRulesetEvent) (s : State) : State :=
  update_ruleset (cre_ruleset_id e) Allocated (cre_ruleset_version e) (on_create_ruleset e) s.

Definition apply_add_rule_path_beneath (e : AddRulePathBeneathEvent) (s : State) : State :=
  update_ruleset (arp_ruleset_id e) Allocated (arp_ruleset_version e)
    (on_add_rule_path_beneath e) s.

Definition apply_add_rule_net_port (e : AddRuleNetPortEvent) (s : State) : State :=
  update_ruleset (arn_ruleset_id e) Allocated (arn_ruleset_version e) (on_add_rule_net_port e) s.

Definition apply_create_domain (e : CreateDomainEvent) (s : State) : State :=
  let s := update_ruleset (cde_ruleset_id e) Allocated (cde_ruleset_version e)
             (on_ruleset_used (cde_ruleset_version e)) s in
  let s := placeholder_opt (cde_parent_id e) s in
  update_domain (cde_domain_id e) Allocated (on_create_domain e) s.

Definition apply_free_domain (e : FreeDomainEvent) (s : State) : State :=
  update_domain (fde_domain_id e) Deallocated (on_free_domain e) s.

Definition apply_free_ruleset (e : FreeRulesetEvent) (s : State) : State :=
  update_ruleset (fre_ruleset_id e) Deallocated (fre_ruleset_version e) (on_free_ruleset e) s.

Definition apply_enforce_domain (e : EnforceDomainEvent) (s : State) : State :=
  update_domain (ede_domain_id e) Allocated (on_enforce_domain e) s.

Definition apply_denial (c : DenialContext) (membership : option DomainMembership) (s : State) :
    State :=
  let h := dc_hierarchy c in
  let s := update_domain (hs_domain_id h) Allocated (on_denial c) s in
  let s := placeholder_opt (hs_parent_id h) s in
  match membership with
  | Some (Sandboxed other_id) => placeholder other_id s
  | _ => s
  end.

Definition apply (s : State) (event : Event) : State :=
  match event with
  | CreateRuleset e => apply_create_ruleset e s
  | AddRulePathBeneath e => apply_add_rule_path_beneath e s
  | AddRuleNetPort e => apply_add_rule_net_port e s
  | CreateDomain e => apply_create_domain e s
  | DenyAccessFs e => apply_denial (context e) None s
  | DenyAccessNet e => apply_denial (context e) None s
  | DenyPtrace e => apply_denial (context e) (Some (dpt_tracee_domain e)) s
  | DenyScopeSignal e => apply_denial (context e) (Some (dsi_target_domain e)) s
  | DenyScopeAbstractUnixSocket e => apply_denial (context e) (Some (dau_peer_domain e)) s
  | FreeDomain e => apply_free_domain e s
  | FreeRuleset e => apply_free_ruleset e s
  | EnforceDomain e => apply_enforce_domain e s
  end.

(** The state after a stream of events. *)
Definition replay (s : State) (events : list Event) : State := foldl apply s events.

(** ** Queries *)

Definition filesystem_rule (r : RulesetState) (device inode : N) : option FilesystemRuleState :=
  rs_filesystem_rules r !! (device, inode).
Definition network_rule (r : RulesetState) (port : N) : option NetworkRuleState :=
  rs_network_rules r !! port.
Definition filesystem_rule_count (r : RulesetState) : N := N.of_nat (size (rs_filesystem_rules r)).
Definition network_rule_count (r : RulesetState) : N := N.of_nat (size (rs_network_rules r)).
Definition enforcement_event (d : DomainState) (tid : ThreadId) : option EnforceDomainEvent :=
  ds_enforcement_events d !! tid.
Definition enforcement_event_count (d : DomainState) : N :=
  N.of_nat (size (ds_enforcement_events d)).

(** [!is_empty()] then [values().all(no_new_privs)]. *)
Definition no_new_privs (d : DomainState) : option bool :=
  if bool_decide (ds_enforcement_events d = ∅) then None
  else Some (forallb (λ kv, ede_no_new_privs kv.2) (map_to_list (ds_enforcement_events d))).

Definition ruleset (s : State) (id : RulesetId) : option RulesetState := rulesets s !! id.
Definition domain (s : State) (id : DomainId) : option DomainState := domains s !! id.
Definition ruleset_count (s : State) : N := N.of_nat (size (rulesets s)).
Definition domain_count (s : State) : N := N.of_nat (size (domains s)).
