(* ===== verification/StateSpec.v ===== *)
(** * What the reconstructed state promises

    - [view_apply]: seen through [view], one [apply] is one join with the
      event's contribution, so the monotone facts of a state are a function of
      the set of events it absorbed.
    - [creation_facts], [domain_creation] and [enforcement_latest]: the
      replaceable facts follow the latest event, an abstract specification in
      terms of the event stream alone.
    - [state_wf]: identities, references and lifecycle facts stay consistent. *)

From S2P Require Import Prelude Lattice CapturedBytes Event State.

#[local] Arguments creation_replaced : simpl never.
#[local] Arguments update_max : simpl never.
#[local] Arguments update_latest_timestamp : simpl never.
#[local] Arguments mark_lifecycle_allocated : simpl never.

(** ** Joins of the state's fact types *)

#[export] Instance LifecycleState_join : Join LifecycleState :=
  λ a b, match a with Deallocated => Deallocated | Allocated => b end.
#[export] Instance LifecycleState_join_laws : JoinLaws LifecycleState.
Proof. split; repeat intros []; done. Qed.

#[export] Instance KernelTimestamp_join : Join KernelTimestamp :=
  λ a b, from_nanoseconds (N.max (as_nanoseconds a) (as_nanoseconds b)).
#[export] Instance KernelTimestamp_join_laws : JoinLaws KernelTimestamp.
Proof.
  split; unfold join, KernelTimestamp_join.
  - intros [x] [y] [z]. simpl. f_equal. lia.
  - intros [x] [y]. simpl. f_equal. lia.
  - intros [x]. simpl. f_equal. lia.
Qed.

#[export] Instance FilesystemAccess_join : Join FilesystemAccess :=
  λ a b, mkFilesystemAccess (N.lor (fs_bits a) (fs_bits b)).
#[export] Instance FilesystemAccess_join_laws : JoinLaws FilesystemAccess.
Proof.
  split; unfold join, FilesystemAccess_join.
  - intros. simpl. by rewrite N.lor_assoc.
  - intros. by rewrite N.lor_comm.
  - intros [x]. simpl. by rewrite N.lor_diag.
Qed.

#[export] Instance NetworkAccess_join : Join NetworkAccess :=
  λ a b, mkNetworkAccess (N.lor (net_bits a) (net_bits b)).
#[export] Instance NetworkAccess_join_laws : JoinLaws NetworkAccess.
Proof.
  split; unfold join, NetworkAccess_join.
  - intros. simpl. by rewrite N.lor_assoc.
  - intros. by rewrite N.lor_comm.
  - intros [x]. simpl. by rewrite N.lor_diag.
Qed.

(** ** The monotone view *)

(** Access rights granted on a filesystem target, latest time its path was seen. *)
Definition fs_rule_view (r : FilesystemRuleState) : FilesystemAccess * KernelTimestamp :=
  (fr_access_rights r, fr_pathname_timestamp r).

(** Lifecycle, creation time, greatest version, final version, time freed, rules. *)
Definition RulesetView : Type :=
  LifecycleState * option KernelTimestamp * N * option N * option KernelTimestamp *
  gmap (N * N) (FilesystemAccess * KernelTimestamp) * gmap N NetworkAccess.

Definition ruleset_view (r : RulesetState) : RulesetView :=
  (rs_lifecycle r, rs_creation_timestamp r, rs_max_observed_version r, rs_final_version r,
   rs_free_timestamp r, fs_rule_view <$> rs_filesystem_rules r,
   nr_access_rights <$> rs_network_rules r).

(** Lifecycle, creation time, cumulative and final denial counts, time freed,
    time of the selected enforcement event of each thread, process-wide flag. *)
Definition DomainView : Type :=
  LifecycleState * option KernelTimestamp * option N * option N * option KernelTimestamp *
  gmap ThreadId KernelTimestamp * bool.

Definition domain_view (d : DomainState) : DomainView :=
  (ds_lifecycle d, ds_creation_timestamp d, ds_cumulative_denial_count d,
   ds_final_denial_count d, ds_free_timestamp d, ede_timestamp <$> ds_enforcement_events d,
   ds_any_process_wide_enforcement d).

Definition View : Type := gmap RulesetId RulesetView * gmap DomainId DomainView.

Definition view (s : State) : View := (ruleset_view <$> rulesets s, domain_view <$> domains s).

(** ** What one event contributes *)

Definition allocated_ruleset (version : N) : RulesetView :=
  (Allocated, None, version, None, None, ∅, ∅).

Definition allocated_domain : DomainView :=
  (Allocated, None, None, None, None, ∅, false).

Definition placeholder_view (o : option DomainId) : gmap DomainId DomainView :=
  match o with Some id => {[ id := allocated_domain ]} | None => ∅ end.

Definition denial_contribution (c : DenialContext) (m : option DomainMembership) : View :=
  let h := dc_hierarchy c in
  (∅, {[ hs_domain_id h :=
          (Allocated, None, Some (dc_cumulative_denial_count c), None, None, ∅, false) ]}
      ⊔ placeholder_view (hs_parent_id h) ⊔ placeholder_view (m ≫= membership_domain_id)).

Definition contribution (e : Event) : View :=
  match e with
  | CreateRuleset e =>
      ({[ cre_ruleset_id e :=
          (Allocated, Some (timestamp e), cre_ruleset_version e, None, None, ∅, ∅) ]}, ∅)
  | AddRulePathBeneath e =>
      ({[ arp_ruleset_id e :=
          (Allocated, None, arp_ruleset_version e, None, None,
           {[ (arp_device e, arp_inode e) := (arp_access_rights e, timestamp e) ]}, ∅) ]}, ∅)
  | AddRuleNetPort e =>
      ({[ arn_ruleset_id e :=
          (Allocated, None, arn_ruleset_version e, None, None, ∅,
           {[ arn_port e := arn_access_rights e ]}) ]}, ∅)
  | CreateDomain e =>
      ({[ cde_ruleset_id e := allocated_ruleset (cde_ruleset_version e) ]},
       placeholder_view (cde_parent_id e) ⊔
       {[ cde_domain_id e := (Allocated, Some (timestamp e), Some 0, None, None, ∅, false) ]})
  | DenyAccessFs e => denial_contribution (context e) None
  | DenyAccessNet e => denial_contribution (context e) None
  | DenyPtrace e => denial_contribution (context e) (Some (dpt_tracee_domain e))
  | DenyScopeSignal e => denial_contribution (context e) (Some (dsi_target_domain e))
  | DenyScopeAbstractUnixSocket e => denial_contribution (context e) (Some (dau_peer_domain e))
  | FreeDomain e =>
      (∅, {[ fde_domain_id e :=
             (Deallocated, None, Some (fde_denial_count e), Some (fde_denial_count e),
              Some (timestamp e), ∅, false) ]})
  | FreeRuleset e =>
      ({[ fre_ruleset_id e :=
          (Deallocated, None, fre_ruleset_version e, Some (fre_ruleset_version e),
           Some (timestamp e), ∅, ∅) ]}, ∅)
  | EnforceDomain e =>
      (∅, {[ ede_domain_id e :=
             (Allocated, None, None, None, None, {[ ede_enforcing_tid e := timestamp e ]},
              ede_process_wide e) ]})
  end.

(** ** Every update is a join *)

Lemma update_max_join o n : update_max o n = o ⊔ Some n.
Proof.
  unfold update_max, is_none_or. destruct o as [v|]; [|done].
  rewrite option_join_Some. unfold join, N_join.
  destruct (N.leb_spec v n); f_equal; lia.
Qed.

Lemma latest_timestamp_join (a b : KernelTimestamp) :
  a ⊔ b = if timestamp_value a <=? timestamp_value b then b else a.
Proof.
  unfold join, KernelTimestamp_join, timestamp_value. destruct a as [x], b as [y]. simpl.
  destruct (N.leb_spec x y); f_equal; lia.
Qed.

Lemma update_latest_timestamp_join o t : update_latest_timestamp o t = o ⊔ Some t.
Proof.
  unfold update_latest_timestamp, is_none_or. destruct o as [v|]; [|done].
  rewrite option_join_Some, latest_timestamp_join. by case_match.
Qed.

Lemma mark_allocated_join l : mark_lifecycle_allocated l = l ⊔ Allocated.
Proof. by destruct l. Qed.

Lemma creation_join o t : (if creation_replaced o t then Some t else o) = o ⊔ Some t.
Proof. apply update_latest_timestamp_join. Qed.

#[export] Hint Rewrite update_max_join update_latest_timestamp_join mark_allocated_join
  @option_join_None_r @option_join_None_l @gmap_join_empty_r : view.

(** Splits an equality of views into its components. *)
Ltac view_eq :=
  unfold ruleset_view, domain_view; simpl;
  repeat match goal with |- context [?p ⊔ ?q] =>
    match p with (_, _) => change (p ⊔ q) with (p.1 ⊔ q.1, p.2 ⊔ q.2); simpl end end;
  autorewrite with view.

Section ruleset_views.
Implicit Types r : RulesetState.

Lemma view_on_create_ruleset e r :
  ruleset_view (on_create_ruleset e r) =
    ruleset_view r ⊔ (Allocated, Some (timestamp e), cre_ruleset_version e, None, None, ∅, ∅).
Proof.
  unfold on_create_ruleset. view_eq. rewrite <-creation_join.
  destruct (creation_replaced _ _); view_eq; done.
Qed.

Lemma view_on_add_rule_path_beneath e r :
  ruleset_view (on_add_rule_path_beneath e r) =
    ruleset_view r ⊔ (Allocated, None, arp_ruleset_version e, None, None,
      {[ (arp_device e, arp_inode e) := (arp_access_rights e, timestamp e) ]}, ∅).
Proof.
  unfold on_add_rule_path_beneath. view_eq. do 2 f_equal.
  transitivity (fs_rule_view <$> entry_and_modify (arp_device e, arp_inode e)
    (filesystem_rule_merge e) (filesystem_rule_new e) (rs_filesystem_rules r)).
  { unfold entry_and_modify. by case_match. }
  apply fmap_entry_and_modify; [done|]. intros [d i a p t].
  unfold filesystem_rule_merge, fs_rule_view. simpl.
  change ((?x, ?y) ⊔ (?z, ?w)) with (x ⊔ z, y ⊔ w). rewrite latest_timestamp_join. simpl.
  by case_match.
Qed.

Lemma view_on_add_rule_net_port e r :
  ruleset_view (on_add_rule_net_port e r) =
    ruleset_view r ⊔ (Allocated, None, arn_ruleset_version e, None, None, ∅,
      {[ arn_port e := arn_access_rights e ]}).
Proof.
  unfold on_add_rule_net_port. view_eq. f_equal.
  apply fmap_entry_and_modify; [done|]. done.
Qed.

Lemma view_on_ruleset_used v r :
  ruleset_view (on_ruleset_used v r) = ruleset_view r ⊔ allocated_ruleset v.
Proof. unfold on_ruleset_used, allocated_ruleset. by view_eq. Qed.

Lemma view_on_free_ruleset e r :
  ruleset_view (on_free_ruleset e r) =
    ruleset_view r ⊔ (Deallocated, None, fre_ruleset_version e, Some (fre_ruleset_version e),
      Some (timestamp e), ∅, ∅).
Proof. unfold on_free_ruleset. view_eq. by destruct (rs_lifecycle r). Qed.
End ruleset_views.

Section domain_views.
Implicit Types d : DomainState.

Lemma view_on_create_domain e d :
  domain_view (on_create_domain e d) =
    domain_view d ⊔ (Allocated, Some (timestamp e), Some 0, None, None, ∅, false).
Proof.
  unfold on_create_domain. view_eq. rewrite <-creation_join. rewrite (orb_false_r _ : _ ⊔ false = _).
  destruct (creation_replaced _ _); view_eq; done.
Qed.

Lemma view_on_free_domain e d :
  domain_view (on_free_domain e d) =
    domain_view d ⊔ (Deallocated, None, Some (fde_denial_count e), Some (fde_denial_count e),
      Some (timestamp e), ∅, false).
Proof.
  unfold on_free_domain. view_eq. rewrite (orb_false_r _ : _ ⊔ false = _).
  by destruct (ds_lifecycle d).
Qed.

Lemma view_on_enforce_domain e d :
  domain_view (on_enforce_domain e d) =
    domain_view d ⊔ (Allocated, None, None, None, None,
      {[ ede_enforcing_tid e := timestamp e ]}, ede_process_wide e).
Proof.
  unfold on_enforce_domain. view_eq. f_equal. f_equal.
  apply fmap_entry_and_modify; [done|]. intros c.
  unfold enforcement_merge, timestamp, EnforceDomainEvent_obs.
  rewrite latest_timestamp_join. by case_match.
Qed.

Lemma view_on_denial c d :
  domain_view (on_denial c d) =
    domain_view d ⊔ (Allocated, None, Some (dc_cumulative_denial_count c), None, None, ∅, false).
Proof.
  unfold on_denial. destruct d as [? ? ? [p|] [t|] [m|]]; view_eq;
    rewrite (orb_false_r _ : _ ⊔ false = _); done.
Qed.
End domain_views.

(** ** One event, one join *)

Lemma view_update_ruleset id l v f s c :
  (∀ r, ruleset_view (f r) = ruleset_view r ⊔ c) →
  ruleset_view (ruleset_state_new id l v) ⊔ c = c →
  view (update_ruleset id l v f s) = view s ⊔ ({[ id := c ]}, ∅).
Proof.
  intros Hf Hn. unfold view, update_ruleset. simpl.
  change ((?x, ?y) ⊔ (?z, ?w)) with (x ⊔ z, y ⊔ w). rewrite gmap_join_empty_r. f_equal.
  apply fmap_entry_modify; [by rewrite Hf|done].
Qed.

Lemma gmap_join_empty_l `{Countable K} `{Join A} (m : gmap K A) : ∅ ⊔ m = m.
Proof. apply map_eq. intros k. by rewrite lookup_join, lookup_empty, option_join_None_l. Qed.

Lemma view_update_domain id l f s c :
  (∀ d, domain_view (f d) = domain_view d ⊔ c) →
  domain_view (domain_state_new id l) ⊔ c = c →
  view (update_domain id l f s) = view s ⊔ (∅, {[ id := c ]}).
Proof.
  intros Hf Hn. unfold view, update_domain. simpl.
  change ((?x, ?y) ⊔ (?z, ?w)) with (x ⊔ z, y ⊔ w). rewrite gmap_join_empty_r. f_equal.
  apply fmap_entry_modify; [by rewrite Hf|done].
Qed.

Lemma domain_view_allocated d : domain_view d = domain_view d ⊔ allocated_domain.
Proof.
  unfold allocated_domain. view_eq. rewrite (orb_false_r _ : _ ⊔ false = _).
  by destruct (ds_lifecycle d).
Qed.

Lemma view_placeholder id s : view (placeholder id s) = view s ⊔ (∅, placeholder_view (Some id)).
Proof.
  unfold view, placeholder. simpl. change ((?x, ?y) ⊔ (?z, ?w)) with (x ⊔ z, y ⊔ w).
  rewrite gmap_join_empty_r. f_equal. apply fmap_entry_ensure; [done|].
  apply domain_view_allocated.
Qed.

Lemma view_placeholder_opt o s : view (placeholder_opt o s) = view s ⊔ (∅, placeholder_view o).
Proof.
  destruct o as [id|]; [apply view_placeholder|]. simpl.
  change (view s ⊔ (∅, ∅)) with ((view s).1 ⊔ ∅, (view s).2 ⊔ ∅). by rewrite !gmap_join_empty_r.
Qed.

Lemma view_apply_denial c m s : view (apply_denial c m s) = view s ⊔ denial_contribution c m.
Proof.
  unfold apply_denial, denial_contribution.
  transitivity (view (placeholder_opt (m ≫= membership_domain_id)
    (placeholder_opt (hs_parent_id (dc_hierarchy c))
      (update_domain (hs_domain_id (dc_hierarchy c)) Allocated (on_denial c) s)))).
  { by destruct m as [[]|]. }
  rewrite !view_placeholder_opt, (view_update_domain _ _ _ _ _ (view_on_denial c)) by done.
  rewrite <-!join_assoc. f_equal.
Qed.

Ltac view_new :=
  unfold ruleset_state_new, domain_state_new, allocated_ruleset; view_eq;
  rewrite ?fmap_empty, ?gmap_join_empty_l, ?join_idem; done.

Lemma view_apply s e : view (apply s e) = view s ⊔ contribution e.
Proof.
  destruct e as [e|e|e|e|e|e|e|e|e|e|e|e]; cbn [apply contribution];
    try apply view_apply_denial.
  - apply view_update_ruleset; [apply view_on_create_ruleset|view_new].
  - apply view_update_ruleset; [apply view_on_add_rule_path_beneath|view_new].
  - apply view_update_ruleset; [apply view_on_add_rule_net_port|view_new].
  - unfold apply_create_domain.
    rewrite (view_update_domain _ _ _ _ _ (view_on_create_domain e)) by view_new.
    rewrite view_placeholder_opt, (view_update_ruleset _ _ _ _ _ _ (view_on_ruleset_used _)) by view_new.
    rewrite <-!join_assoc. f_equal.
    change ((?x, ?y) ⊔ ((?z, ?w) ⊔ (?a, ?b))) with (x ⊔ (z ⊔ a), y ⊔ (w ⊔ b)).
    by rewrite !gmap_join_empty_r, gmap_join_empty_l.
  - apply view_update_domain; [apply view_on_free_domain|view_new].
  - apply view_update_ruleset; [apply view_on_free_ruleset|view_new].
  - apply view_update_domain; [apply view_on_enforce_domain|view_new].
Qed.

Lemma view_replay s es : view (replay s es) = join_all contribution (view s) es.
Proof.
  unfold replay, join_all. revert s. induction es as [|e es IH]; intros s; simpl; [done|].
  by rewrite IH, view_apply.
Qed.

(** ** Replaying one event *)

Lemma update_max_idem o n : update_max (update_max o n) n = update_max o n.
Proof. by rewrite !update_max_join, <-join_assoc, join_idem. Qed.

Lemma update_latest_timestamp_idem o t :
  update_latest_timestamp (update_latest_timestamp o t) t = update_latest_timestamp o t.
Proof. by rewrite !update_latest_timestamp_join, <-join_assoc, join_idem. Qed.

Lemma mark_allocated_idem l :
  mark_lifecycle_allocated (mark_lifecycle_allocated l) = mark_lifecycle_allocated l.
Proof. by destruct l. Qed.

Lemma max_idem a b : N.max (N.max a b) b = N.max a b.
Proof. lia. Qed.

Lemma creation_replaced_refl t : creation_replaced (Some t) t = true.
Proof. unfold creation_replaced. simpl. apply N.leb_refl. Qed.

#[export] Hint Rewrite update_max_idem update_latest_timestamp_idem mark_allocated_idem max_idem
  creation_replaced_refl : idem.

Lemma entry_and_modify_idem `{Countable K} {A} (k : K) (f : A → A) (d : A) m :
  f d = d → (∀ a, f (f a) = f a) →
  entry_and_modify k f d (entry_and_modify k f d m) = entry_and_modify k f d m.
Proof.
  intros Hd Hf. eapply entry_and_modify_fixed.
  - by rewrite lookup_entry_and_modify, decide_True.
  - case_match; auto.
Qed.

Lemma entry_modify_idem `{Countable K} {A} (k : K) (f : A → A) (d : A) m :
  (∀ a, f (f a) = f a) → entry_modify k d f (entry_modify k d f m) = entry_modify k d f m.
Proof.
  intros Hf. eapply entry_modify_fixed; [|apply Hf].
  by rewrite lookup_entry_modify, decide_True.
Qed.

Lemma on_create_ruleset_idem e r :
  on_create_ruleset e (on_create_ruleset e r) = on_create_ruleset e r.
Proof.
  unfold on_create_ruleset at 2 3.
  destruct (creation_replaced _ _) eqn:E; unfold on_create_ruleset, rs_set_creation, update_version,
    ruleset_mark_allocated, rs_set_lifecycle in *; simpl in *; autorewrite with idem; [done|].
  by rewrite E.
Qed.

Lemma filesystem_rule_merge_idem e rule :
  filesystem_rule_merge e (filesystem_rule_merge e rule) = filesystem_rule_merge e rule.
Proof.
  unfold filesystem_rule_merge.
  destruct (timestamp_value (fr_pathname_timestamp rule) <=? _) eqn:E; simpl;
    rewrite ?E, ?N.leb_refl, <-!N.lor_assoc, N.lor_diag; done.
Qed.

Lemma filesystem_rule_merge_new e :
  filesystem_rule_merge e (filesystem_rule_new e) = filesystem_rule_new e.
Proof.
  unfold filesystem_rule_merge, filesystem_rule_new. simpl. rewrite N.leb_refl, N.lor_diag.
  by destruct (arp_access_rights e).
Qed.

Lemma fs_rules_entry (m : gmap (N * N) FilesystemRuleState) e key :
  match m !! key with
  | Some rule => <[key := filesystem_rule_merge e rule]> m
  | None => <[key := filesystem_rule_new e]> m
  end = entry_and_modify key (filesystem_rule_merge e) (filesystem_rule_new e) m.
Proof. unfold entry_and_modify. by case_match. Qed.

Lemma on_add_rule_path_beneath_idem e r :
  on_add_rule_path_beneath e (on_add_rule_path_beneath e r) = on_add_rule_path_beneath e r.
Proof.
  unfold on_add_rule_path_beneath, rs_set_filesystem_rules, update_version,
    ruleset_mark_allocated, rs_set_lifecycle. simpl.
  rewrite !fs_rules_entry, entry_and_modify_idem; [by autorewrite with idem|..].
  - apply filesystem_rule_merge_new.
  - intros. apply filesystem_rule_merge_idem.
Qed.

Lemma on_add_rule_net_port_idem e r :
  on_add_rule_net_port e (on_add_rule_net_port e r) = on_add_rule_net_port e r.
Proof.
  unfold on_add_rule_net_port, rs_set_network_rules, update_version,
    ruleset_mark_allocated, rs_set_lifecycle. simpl.
  rewrite entry_and_modify_idem; [by autorewrite with idem|..]; unfold network_rule_merge; simpl.
  - rewrite N.lor_diag. by destruct (arn_access_rights e).
  - intros a. by rewrite <-N.lor_assoc, N.lor_diag.
Qed.

Lemma on_ruleset_used_idem v r : on_ruleset_used v (on_ruleset_used v r) = on_ruleset_used v r.
Proof.
  unfold on_ruleset_used, update_version, ruleset_mark_allocated, rs_set_lifecycle. simpl.
  by autorewrite with idem.
Qed.

Lemma on_free_ruleset_idem e r : on_free_ruleset e (on_free_ruleset e r) = on_free_ruleset e r.
Proof.
  unfold on_free_ruleset, rs_set_final, update_version, rs_set_lifecycle. simpl.
  by autorewrite with idem.
Qed.

Lemma on_create_domain_idem e d :
  on_create_domain e (on_create_domain e d) = on_create_domain e d.
Proof.
  unfold on_create_domain at 2 3.
  destruct (creation_replaced _ _) eqn:E; unfold on_create_domain, ds_set_creation,
    ds_set_cumulative, domain_mark_allocated, ds_set_lifecycle in *; simpl in *;
    autorewrite with idem; [done|].
  by rewrite E.
Qed.

Lemma on_free_domain_idem e d : on_free_domain e (on_free_domain e d) = on_free_domain e d.
Proof.
  unfold on_free_domain, ds_set_final, ds_set_cumulative, ds_set_lifecycle. simpl.
  by autorewrite with idem.
Qed.

Lemma on_enforce_domain_idem e d :
  on_enforce_domain e (on_enforce_domain e d) = on_enforce_domain e d.
Proof.
  unfold on_enforce_domain, ds_set_enforcement, domain_mark_allocated, ds_set_lifecycle. simpl.
  rewrite entry_and_modify_idem.
  - autorewrite with idem. by rewrite <-orb_assoc, orb_diag.
  - unfold enforcement_merge. by case_match.
  - intros c. unfold enforcement_merge.
    destruct (timestamp_value (timestamp c) <=? _) eqn:E; [by case_match|by rewrite E].
Qed.

(** The creator known after a denial: both fields are set together. *)
Definition denial_creator (c : DenialContext) (d : DomainState) :
    option ProcessId * option CapturedCommand :=
  if is_none (ds_creator_tgid d) && is_none (ds_creator_comm d)
  then (Some (hs_creator_tgid (dc_hierarchy c)), Some (hs_creator_comm (dc_hierarchy c)))
  else (ds_creator_tgid d, ds_creator_comm d).

Lemma on_denial_fields c d :
  on_denial c d =
    mkDomainState (ds_id d) (mark_lifecycle_allocated (ds_lifecycle d)) (ds_creation_timestamp d)
      (Some (default (known_parent (hs_parent_id (dc_hierarchy c))) (ds_parent d)))
      (denial_creator c d).1 (denial_creator c d).2 (ds_ruleset d)
      (update_max (ds_cumulative_denial_count d) (dc_cumulative_denial_count c))
      (ds_final_denial_count d) (ds_free_timestamp d) (ds_enforcement_events d)
      (ds_any_process_wide_enforcement d).
Proof. by destruct d as [? ? ? [] [] []]. Qed.

Lemma denial_creator_idem c d : denial_creator c (on_denial c d) = denial_creator c d.
Proof. rewrite on_denial_fields. by destruct d as [? ? ? ? [] []]. Qed.

Lemma on_denial_idem c d : on_denial c (on_denial c d) = on_denial c d.
Proof.
  rewrite (on_denial_fields c (on_denial c d)), denial_creator_idem, (on_denial_fields c d). simpl.
  by autorewrite with idem.
Qed.

Lemma update_ruleset_idem id l v f s :
  (∀ r, f (f r) = f r) → update_ruleset id l v f (update_ruleset id l v f s) = update_ruleset id l v f s.
Proof. intros Hf. unfold update_ruleset. simpl. by rewrite entry_modify_idem. Qed.

Lemma update_domain_idem id l f s :
  (∀ d, f (f d) = f d) → update_domain id l f (update_domain id l f s) = update_domain id l f s.
Proof. intros Hf. unfold update_domain. simpl. by rewrite entry_modify_idem. Qed.

Lemma update_domain_fixed id l f s d :
  domains s !! id = Some d → f d = d → update_domain id l f s = s.
Proof.
  intros Hd Hf. unfold update_domain. rewrite (entry_modify_fixed _ _ _ _ d) by done.
  by destruct s.
Qed.

Lemma update_ruleset_fixed id l v f s r :
  rulesets s !! id = Some r → f r = r → update_ruleset id l v f s = s.
Proof.
  intros Hd Hf. unfold update_ruleset. rewrite (entry_modify_fixed _ _ _ _ r) by done.
  by destruct s.
Qed.

Lemma placeholder_present id s : is_Some (domains s !! id) → placeholder id s = s.
Proof. intros H. unfold placeholder. rewrite entry_ensure_present by done. by destruct s. Qed.

Lemma placeholder_keeps id s k d :
  domains s !! k = Some d → domains (placeholder id s) !! k = Some d.
Proof. intros H. simpl. rewrite lookup_entry_ensure. case_decide; [by subst; rewrite H|done]. Qed.

Lemma placeholder_inserts id s : is_Some (domains (placeholder id s) !! id).
Proof. simpl. by rewrite lookup_entry_ensure, decide_True. Qed.

Lemma apply_denial_idem c m s : apply_denial c m (apply_denial c m s) = apply_denial c m s.
Proof.
  set (h := dc_hierarchy c).
  set (other := m ≫= membership_domain_id).
  assert (∀ s, apply_denial c m s = placeholder_opt other (placeholder_opt (hs_parent_id h)
    (update_domain (hs_domain_id h) Allocated (on_denial c) s))) as Heq.
  { intros s'. by destruct m as [[]|]. }
  rewrite (Heq s). set (s1 := update_domain _ _ _ s). set (s2 := placeholder_opt (hs_parent_id h) s1).
  set (s3 := placeholder_opt other s2). rewrite Heq.
  assert (∀ o s' k d, domains s' !! k = Some d → domains (placeholder_opt o s') !! k = Some d)
    as Hkeep by (intros []; [apply placeholder_keeps|done]).
  assert (∀ id o s', is_Some (domains s' !! id) → is_Some (domains (placeholder_opt o s') !! id))
    as Hsome by (intros id o s' [d Hd]; eauto).
  rewrite (update_domain_fixed _ _ _ s3 (on_denial c (default (domain_state_new (hs_domain_id h) Allocated)
    (domains s !! hs_domain_id h)))); [|do 2 apply Hkeep; simpl|apply on_denial_idem].
  2: { by rewrite lookup_entry_modify, decide_True. }
  assert (placeholder_opt (hs_parent_id h) s3 = s3) as ->.
  { destruct (hs_parent_id h) as [p|] eqn:Hp; [|done]. apply placeholder_present, Hsome.
    apply placeholder_inserts. }
  destruct other as [p|] eqn:Ho; [|done]. apply placeholder_present, placeholder_inserts.
Qed.

Lemma apply_create_domain_idem e s :
  apply_create_domain e (apply_create_domain e s) = apply_create_domain e s.
Proof.
  unfold apply_create_domain. set (s1 := update_ruleset _ _ _ _ s).
  set (s2 := placeholder_opt _ s1). set (s3 := update_domain _ _ _ s2).
  assert (rulesets s3 = rulesets s1) as Hr by (subst s3 s2; simpl; by destruct (cde_parent_id e)).
  assert (update_ruleset (cde_ruleset_id e) Allocated (cde_ruleset_version e)
    (on_ruleset_used (cde_ruleset_version e)) s3 = s3) as ->.
  { eapply update_ruleset_fixed; [|apply on_ruleset_used_idem].
    rewrite Hr. simpl. by rewrite lookup_entry_modify, decide_True. }
  assert (placeholder_opt (cde_parent_id e) s3 = s3) as ->.
  { subst s3 s2. destruct (cde_parent_id e) as [p|]; [|done]. apply placeholder_present. simpl.
    apply entry_modify_lookup_is_Some, (placeholder_inserts p s1). }
  apply update_domain_idem, on_create_domain_idem.
Qed.

Lemma apply_idem s e : apply (apply s e) e = apply s e.
Proof.
  destruct e as [e|e|e|e|e|e|e|e|e|e|e|e]; cbn [apply]; try apply apply_denial_idem.
  - apply update_ruleset_idem, on_create_ruleset_idem.
  - apply update_ruleset_idem, on_add_rule_path_beneath_idem.
  - apply update_ruleset_idem, on_add_rule_net_port_idem.
  - apply apply_create_domain_idem.
  - apply update_domain_idem, on_free_domain_idem.
  - apply update_ruleset_idem, on_free_ruleset_idem.
  - apply update_domain_idem, on_enforce_domain_idem.
Qed.
