(* ===== verification/StateWf.v ===== *)
(** * Consistency of the reconstructed state

    [state_wf] relates the fields of every ruleset and domain to each other
    and to the keys they are stored under, and closes the references between
    them: a recorded parent or ruleset always has its own entry. *)

From S2P Require Import Prelude Lattice CapturedBytes Event State StateSpec.

(** ** The invariant *)

Record ruleset_wf (id : RulesetId) (r : RulesetState) : Prop := {
  rwf_id : rs_id r = id;
  rwf_freed : rs_lifecycle r = Deallocated ↔ is_Some (rs_final_version r);
  rwf_free_time : is_Some (rs_final_version r) ↔ is_Some (rs_free_timestamp r);
  rwf_versions : ∀ v, rs_final_version r = Some v → v <= rs_max_observed_version r;
  rwf_handled_fs : is_Some (rs_creation_timestamp r) ↔ is_Some (rs_handled_fs r);
  rwf_handled_net : is_Some (rs_creation_timestamp r) ↔ is_Some (rs_handled_net r);
  rwf_scoped : is_Some (rs_creation_timestamp r) ↔ is_Some (rs_scoped r);
  rwf_fs_keys : map_Forall (λ key rule, key = (fr_device rule, fr_inode rule))
                  (rs_filesystem_rules r);
  rwf_net_keys : map_Forall (λ port rule, port = nr_port rule) (rs_network_rules r);
}.

Record domain_wf (id : DomainId) (d : DomainState) : Prop := {
  dwf_id : ds_id d = id;
  dwf_freed : ds_lifecycle d = Deallocated ↔ is_Some (ds_final_denial_count d);
  dwf_free_time : is_Some (ds_final_denial_count d) ↔ is_Some (ds_free_timestamp d);
  dwf_counts : ∀ n, ds_final_denial_count d = Some n →
    ∃ c, ds_cumulative_denial_count d = Some c ∧ n <= c;
  dwf_created : is_Some (ds_creation_timestamp d) ↔ is_Some (ds_ruleset d);
  dwf_creation : is_Some (ds_creation_timestamp d) →
    is_Some (ds_parent d) ∧ is_Some (ds_cumulative_denial_count d);
  dwf_creator : is_Some (ds_parent d) ↔ is_Some (ds_creator_tgid d);
  dwf_creator_comm : is_Some (ds_creator_tgid d) ↔ is_Some (ds_creator_comm d);
  dwf_enforcement : map_Forall (λ tid e, ede_enforcing_tid e = tid ∧ ede_domain_id e = id ∧
      (ede_process_wide e = true → ds_any_process_wide_enforcement d = true))
    (ds_enforcement_events d);
}.

(** What a domain refers to has its own entry. *)
Definition domain_refs (s : State) (d : DomainState) : Prop :=
  (∀ p, ds_parent d = Some (ParentDomain p) → is_Some (domains s !! p)) ∧
  (∀ rv, ds_ruleset d = Some rv → ∃ r, rulesets s !! rv_ruleset_id rv = Some r ∧
     rv_ruleset_version rv <= rs_max_observed_version r).

Record state_wf (s : State) : Prop := {
  swf_rulesets : map_Forall ruleset_wf (rulesets s);
  swf_domains : map_Forall domain_wf (domains s);
  swf_refs : map_Forall (λ _ d, domain_refs s d) (domains s);
}.

(** ** Entries *)

Section entry_wf.
Context `{Countable K} {A : Type} (P : K → A → Prop).

Lemma map_Forall_entry_modify k d f m :
  P k (f d) → (∀ a, P k a → P k (f a)) → map_Forall P m → map_Forall P (entry_modify k d f m).
Proof.
  intros Hd Hf Hm. apply map_Forall_insert_2; [|done].
  destruct (m !! k) as [a|] eqn:E; simpl; [|done]. by apply Hf, Hm.
Qed.

Lemma map_Forall_entry_and_modify k d f m :
  P k d → (∀ a, P k a → P k (f a)) → map_Forall P m → map_Forall P (entry_and_modify k f d m).
Proof.
  intros Hd Hf Hm. apply map_Forall_insert_2; [|done].
  destruct (m !! k) as [a|] eqn:E; simpl; [|done]. by apply Hf, Hm.
Qed.

Lemma map_Forall_entry_ensure k d m :
  P k d → map_Forall P m → map_Forall P (entry_ensure k d m).
Proof.
  intros Hd Hm. unfold entry_ensure. case_match; [done|]. by apply map_Forall_insert_2.
Qed.
End entry_wf.

Lemma is_Some_update_max o n : is_Some (update_max o n).
Proof. rewrite update_max_join. by destruct o. Qed.

Lemma is_Some_update_latest o t : is_Some (update_latest_timestamp o t).
Proof. rewrite update_latest_timestamp_join. by destruct o. Qed.

Lemma update_max_Some o n m : update_max o n = Some m → n <= m ∧ (o = None ∧ m = n ∨ ∃ k, o = Some k ∧ m = N.max k n).
Proof.
  rewrite update_max_join. destruct o as [k|]; simpl.
  - rewrite option_join_Some. intros [= <-]. unfold join, N_join. split; [lia|eauto].
  - intros [= <-]. split; [lia|eauto].
Qed.

Lemma mark_allocated_freed l : mark_lifecycle_allocated l = Deallocated ↔ l = Deallocated.
Proof. by destruct l. Qed.

#[local] Arguments update_max : simpl never.
#[local] Arguments update_latest_timestamp : simpl never.
#[local] Arguments mark_lifecycle_allocated : simpl never.

(** ** Rulesets *)

Section ruleset_wf.
Context (id : RulesetId).
Implicit Types r : RulesetState.

Lemma ruleset_new_wf v : ruleset_wf id (ruleset_state_new id Allocated v).
Proof. split; simpl; try done; try (split; [done|by intros []]). Qed.

Lemma ruleset_used_wf v r : ruleset_wf id r → ruleset_wf id (on_ruleset_used v r).
Proof.
  intros []. split; simpl; try done.
  - by rewrite mark_allocated_freed.
  - intros w Hw. apply rwf_versions0 in Hw. lia.
Qed.

Lemma create_ruleset_wf e r : ruleset_wf id r → ruleset_wf id (on_create_ruleset e r).
Proof.
  intros Hr. apply (ruleset_used_wf (cre_ruleset_version e)) in Hr.
  unfold on_create_ruleset. change (update_version _ _) with (on_ruleset_used (cre_ruleset_version e) r).
  case_match; [|done]. destruct Hr. split; simpl in *; eauto; by split; eauto.
Qed.

Lemma add_rule_path_beneath_wf e r :
  ruleset_wf id r → ruleset_wf id (on_add_rule_path_beneath e r).
Proof.
  intros Hr. apply (ruleset_used_wf (arp_ruleset_version e)) in Hr.
  unfold on_add_rule_path_beneath. change (update_version _ _) with (on_ruleset_used (arp_ruleset_version e) r).
  destruct Hr. split; try done. cbn [rs_set_filesystem_rules rs_filesystem_rules].
  rewrite fs_rules_entry. apply map_Forall_entry_and_modify; [done| |done].
  intros rule Hk. unfold filesystem_rule_merge. by case_match.
Qed.

Lemma add_rule_net_port_wf e r : ruleset_wf id r → ruleset_wf id (on_add_rule_net_port e r).
Proof.
  intros Hr. apply (ruleset_used_wf (arn_ruleset_version e)) in Hr.
  unfold on_add_rule_net_port. change (update_version _ _) with (on_ruleset_used (arn_ruleset_version e) r).
  destruct Hr. split; try done. by apply map_Forall_entry_and_modify.
Qed.

Lemma free_ruleset_wf e r : ruleset_wf id r → ruleset_wf id (on_free_ruleset e r).
Proof.
  intros Hr. destruct Hr. split; simpl; try done.
  - split; [|done]. intros _. apply is_Some_update_max.
  - split; intros _; [apply is_Some_update_latest|apply is_Some_update_max].
  - intros v Hv. apply update_max_Some in Hv as [? [[_ ->]|(k & Hk & ->)]]; [lia|].
    apply rwf_versions0 in Hk. lia.
Qed.
End ruleset_wf.

(** ** Domains *)

Section domain_wf.
Context (id : DomainId).
Implicit Types d : DomainState.

Lemma domain_new_wf : domain_wf id (domain_state_new id Allocated).
Proof. split; simpl; try done; try (split; [done|by intros []]). Qed.

Lemma create_domain_wf e d : domain_wf id d → domain_wf id (on_create_domain e d).
Proof.
  intros []. unfold on_create_domain. case_match; split; simpl in *; try done; eauto.
  - by rewrite mark_allocated_freed.
  - intros n Hn. apply dwf_counts0 in Hn as (c & -> & Hc). rewrite update_max_join. simpl.
    rewrite option_join_Some. eexists. split; [done|]. unfold join, N_join. lia.
  - intros _. split; [done|apply is_Some_update_max].
  - by rewrite mark_allocated_freed.
  - intros n Hn. apply dwf_counts0 in Hn as (c & -> & Hc). rewrite update_max_join. simpl.
    rewrite option_join_Some. eexists. split; [done|]. unfold join, N_join. lia.
  - intros Hc. split; [by apply dwf_creation0|apply is_Some_update_max].
Qed.

Lemma free_domain_wf e d : domain_wf id d → domain_wf id (on_free_domain e d).
Proof.
  intros []. split; simpl in *; try done.
  - split; [|done]. intros _. apply is_Some_update_max.
  - split; intros _; [apply is_Some_update_latest|apply is_Some_update_max].
  - intros n Hn. apply update_max_Some in Hn as [? Hn].
    destruct (is_Some_update_max (ds_cumulative_denial_count d) (fde_denial_count e)) as [c Hc].
    exists c. split; [done|]. apply update_max_Some in Hc as [? Hc].
    destruct Hn as [[_ ->]|(k & Hk & ->)]; [done|]. apply dwf_counts0 in Hk as (c' & Hc' & ?).
    destruct Hc as [[? ->]|(k' & ? & ->)]; simplify_eq; lia.
  - intros Hc. split; [by apply dwf_creation0|apply is_Some_update_max].
Qed.

Lemma enforce_domain_wf e d :
  ede_domain_id e = id → domain_wf id d → domain_wf id (on_enforce_domain e d).
Proof.
  intros He []. split; simpl in *; try done.
  - by rewrite mark_allocated_freed.
  - apply map_Forall_entry_and_modify.
    + split_and!; [done..|]. intros ->. apply orb_true_r.
    + intros c (H1 & H2 & H3). unfold enforcement_merge. case_match; split_and!; try done.
      intros ->. apply orb_true_r.
    + eapply map_Forall_impl; [done|]. simpl. intros t c (? & ? & Hp). split_and!; [done..|].
      intros Hw. by rewrite Hp.
Qed.

Lemma denial_wf c d : domain_wf id d → domain_wf id (on_denial c d).
Proof.
  intros Hd. rewrite on_denial_fields.
  assert (is_Some (denial_creator c d).1 ∧ is_Some (denial_creator c d).2) as [Ht Hm].
  { destruct Hd. unfold denial_creator. destruct (ds_creator_tgid d), (ds_creator_comm d); simpl;
      try done; destruct dwf_creator_comm0 as [H1 H2]; [destruct H1|destruct H2]; done. }
  destruct Hd. split; simpl; try done.
  - by rewrite mark_allocated_freed.
  - intros n Hn. apply dwf_counts0 in Hn as (k & -> & Hk). rewrite update_max_join.
    rewrite option_join_Some. eexists. split; [done|]. unfold join, N_join. lia.
  - intros _. split; [done|apply is_Some_update_max].
Qed.
End domain_wf.

(** ** References *)

Lemma view_le_domain s s' p :
  view s ⊑ view s' → is_Some (domains s !! p) → is_Some (domains s' !! p).
Proof.
  intros Hv [d Hd]. assert ((view s).2 ⊑ (view s').2) as Hle by exact (f_equal snd Hv).
  destruct (gmap_le_lookup _ _ p (domain_view d) Hle) as (y & Hy & _).
  - simpl. by rewrite lookup_fmap, Hd.
  - simpl in Hy. rewrite lookup_fmap in Hy. by destruct (domains s' !! p).
Qed.

Lemma view_le_ruleset s s' p :
  view s ⊑ view s' → is_Some (rulesets s !! p) → is_Some (rulesets s' !! p).
Proof.
  intros Hv [r Hr]. assert ((view s).1 ⊑ (view s').1) as Hle by exact (f_equal fst Hv).
  destruct (gmap_le_lookup _ _ p (ruleset_view r) Hle) as (y & Hy & _).
  - simpl. by rewrite lookup_fmap, Hr.
  - simpl in Hy. rewrite lookup_fmap in Hy. by destruct (rulesets s' !! p).
Qed.

(** What the view of a state knows of a ruleset's version, the state knows. *)
Lemma view_ruleset_version (V : View) s i (rv : RulesetView) :
  V ⊑ view s → V.1 !! i = Some rv →
  ∃ r, rulesets s !! i = Some r ∧ rv ⊑ ruleset_view r.
Proof.
  intros Hv Hi. assert (V.1 ⊑ (view s).1) as Hle by exact (f_equal fst Hv).
  destruct (gmap_le_lookup _ _ i rv Hle Hi) as (y & Hy & Hr). simpl in Hy.
  rewrite lookup_fmap in Hy. destruct (rulesets s !! i) as [r|]; [|done].
  exists r. split; [done|]. by injection Hy as <-.
Qed.

Definition view_version (rv : RulesetView) : N := rv.1.1.1.1.2.

Lemma view_version_le (rv rv' : RulesetView) : rv ⊑ rv' → view_version rv <= view_version rv'.
Proof.
  unfold view_version. intros H.
  assert (N.max rv.1.1.1.1.2 rv'.1.1.1.1.2 = rv'.1.1.1.1.2)
    by exact (f_equal (λ p : RulesetView, p.1.1.1.1.2) H).
  lia.
Qed.

Lemma domain_refs_mono s s' d : view s ⊑ view s' → domain_refs s d → domain_refs s' d.
Proof.
  intros Hv [Hp Hr]. split.
  - intros p H. eapply view_le_domain; eauto.
  - intros rv H. destruct (Hr rv H) as (r & Hl & Hle).
    destruct (view_ruleset_version (view s) s' (rv_ruleset_id rv) (ruleset_view r)) as (r' & Hl' & Hv').
    + done.
    + simpl. by rewrite lookup_fmap, Hl.
    + exists r'. split; [done|]. apply view_version_le in Hv'.
      unfold view_version in Hv'. simpl in Hv'. lia.
Qed.

Lemma apply_le s e : view s ⊑ view (apply s e) ∧ contribution e ⊑ view (apply s e).
Proof. rewrite view_apply. split; [apply join_le_l|apply join_le_r]. Qed.

(** Handlers add references only to what the final state [s] has. *)
Section refs.
Context (s : State).

Lemma refs_new id l : domain_refs s (domain_state_new id l).
Proof. by split. Qed.

Lemma refs_create_domain e d :
  (∀ p, cde_parent_id e = Some p → is_Some (domains s !! p)) →
  (∃ r, rulesets s !! cde_ruleset_id e = Some r ∧ cde_ruleset_version e <= rs_max_observed_version r) →
  domain_refs s d → domain_refs s (on_create_domain e d).
Proof.
  intros Hp Hr Hd. unfold on_create_domain. case_match; [|done]. split; simpl.
  - destruct (cde_parent_id e); simpl; intros p [= <-]. by apply Hp.
  - by intros rv [= <-].
Qed.

Lemma refs_denial c d :
  (∀ p, hs_parent_id (dc_hierarchy c) = Some p → is_Some (domains s !! p)) →
  domain_refs s d → domain_refs s (on_denial c d).
Proof.
  intros Hp [Hd Hr]. rewrite on_denial_fields. split; simpl; [|done].
  destruct (ds_parent d) as [q|] eqn:E; simpl; intros p [= H].
  - apply Hd. congruence.
  - destruct (hs_parent_id (dc_hierarchy c)); simplify_eq/=. by apply Hp.
Qed.
End refs.

Lemma placeholder_opt_lookup o s p : o = Some p → is_Some (domains (placeholder_opt o s) !! p).
Proof. intros ->. apply placeholder_inserts. Qed.

Lemma placeholder_domains P o s :
  (∀ id, o = Some id → P id (domain_state_new id Allocated)) →
  map_Forall P (domains s) → map_Forall P (domains (placeholder_opt o s)).
Proof.
  intros Hn Hs. destruct o as [id|]; simpl; [|done]. apply map_Forall_entry_ensure; eauto.
Qed.

Lemma apply_denial_opt c m s :
  apply_denial c m s = placeholder_opt (m ≫= membership_domain_id)
    (placeholder_opt (hs_parent_id (dc_hierarchy c))
      (update_domain (hs_domain_id (dc_hierarchy c)) Allocated (on_denial c) s)).
Proof. by destruct m as [[]|]. Qed.

(** A property of the entries that every handler keeps, kept by [apply_denial]. *)
Lemma apply_denial_domains P c m s :
  (∀ id, P id (domain_state_new id Allocated)) → (∀ id d, P id d → P id (on_denial c d)) →
  map_Forall P (domains s) → map_Forall P (domains (apply_denial c m s)).
Proof.
  intros Hn Hf Hs. rewrite apply_denial_opt. do 2 (apply placeholder_domains; [done|]).
  apply map_Forall_entry_modify; eauto.
Qed.

Lemma apply_denial_rulesets c m s : rulesets (apply_denial c m s) = rulesets s.
Proof. rewrite apply_denial_opt. by destruct m as [[]|], (hs_parent_id _). Qed.

(** ** Preservation *)

Lemma apply_rulesets_wf s e :
  map_Forall ruleset_wf (rulesets s) → map_Forall ruleset_wf (rulesets (apply s e)).
Proof.
  intros Hs. destruct e as [e|e|e|e|e|e|e|e|e|e|e|e]; cbn [apply];
    rewrite ?apply_denial_rulesets; try done.
  - apply map_Forall_entry_modify; eauto using create_ruleset_wf, ruleset_new_wf.
  - apply map_Forall_entry_modify; eauto using add_rule_path_beneath_wf, ruleset_new_wf.
  - apply map_Forall_entry_modify; eauto using add_rule_net_port_wf, ruleset_new_wf.
  - assert (map_Forall ruleset_wf (rulesets (update_ruleset (cde_ruleset_id e) Allocated
      (cde_ruleset_version e) (on_ruleset_used (cde_ruleset_version e)) s))).
    { apply map_Forall_entry_modify; eauto using ruleset_used_wf, ruleset_new_wf. }
    unfold apply_create_domain. simpl. by destruct (cde_parent_id e).
  - apply map_Forall_entry_modify; eauto using free_ruleset_wf.
    apply (free_ruleset_wf _ e (ruleset_state_new _ Allocated _)), ruleset_new_wf.
Qed.

Lemma apply_domains_wf s e :
  map_Forall domain_wf (domains s) → map_Forall domain_wf (domains (apply s e)).
Proof.
  intros Hs. destruct e as [e|e|e|e|e|e|e|e|e|e|e|e]; cbn [apply]; try done;
    try (apply apply_denial_domains; eauto using denial_wf, domain_new_wf).
  - apply map_Forall_entry_modify; eauto using create_domain_wf, domain_new_wf.
    apply placeholder_domains; eauto using domain_new_wf.
  - apply map_Forall_entry_modify; eauto using free_domain_wf.
    apply (free_domain_wf _ e (domain_state_new _ Allocated)), domain_new_wf.
  - apply map_Forall_entry_modify; eauto using enforce_domain_wf, domain_new_wf.
Qed.

Lemma apply_create_domain_present e s :
  (∀ p, cde_parent_id e = Some p → is_Some (domains (apply_create_domain e s) !! p)) ∧
  ∃ r, rulesets (apply_create_domain e s) !! cde_ruleset_id e = Some r ∧
       cde_ruleset_version e <= rs_max_observed_version r.
Proof.
  split.
  - intros p Hp. apply entry_modify_lookup_is_Some. by apply placeholder_opt_lookup.
  - destruct (apply_le s (CreateDomain e)) as [_ Hc].
    destruct (view_ruleset_version _ _ (cde_ruleset_id e) (allocated_ruleset (cde_ruleset_version e)) Hc)
      as (r & Hr & Hv); [apply lookup_singleton_eq|].
    exists r. split; [done|]. by apply view_version_le in Hv.
Qed.

Lemma apply_denial_present c m s p :
  hs_parent_id (dc_hierarchy c) = Some p → is_Some (domains (apply_denial c m s) !! p).
Proof.
  intros Hp. rewrite apply_denial_opt. set (s1 := update_domain _ _ _ s).
  apply (view_le_domain (placeholder_opt (hs_parent_id (dc_hierarchy c)) s1)).
  - rewrite (view_placeholder_opt (m ≫= membership_domain_id)). apply join_le_l.
  - by apply placeholder_opt_lookup.
Qed.

Lemma apply_refs s e :
  map_Forall (λ _ d, domain_refs s d) (domains s) →
  map_Forall (λ _ d, domain_refs (apply s e) d) (domains (apply s e)).
Proof.
  intros Hs. assert (map_Forall (λ _ d, domain_refs (apply s e) d) (domains s)) as Hs'.
  { eapply map_Forall_impl; [done|]. intros ? d. apply domain_refs_mono, apply_le. }
  clear Hs. destruct e as [e|e|e|e|e|e|e|e|e|e|e|e]; cbn [apply] in *; try exact Hs';
    try (apply apply_denial_domains; [intros; apply refs_new|intros|done];
         apply refs_denial; [intros; by apply apply_denial_present|done]).
  - destruct (apply_create_domain_present e s) as [Hp Hr].
    apply map_Forall_entry_modify; eauto using refs_create_domain, refs_new.
    apply placeholder_domains; [intros; apply refs_new|done].
  - by apply map_Forall_entry_modify.
  - by apply map_Forall_entry_modify.
Qed.

Lemma state_new_wf : state_wf state_new.
Proof. split; simpl; apply map_Forall_empty. Qed.

Lemma apply_wf s e : state_wf s → state_wf (apply s e).
Proof.
  intros []. split; [by apply apply_rulesets_wf|by apply apply_domains_wf|by apply apply_refs].
Qed.

Lemma replay_wf s es : state_wf s → state_wf (replay s es).
Proof.
  unfold replay. revert s. induction es as [|e es IH]; intros s Hs; simpl; [done|].
  by apply IH, apply_wf.
Qed.
