(* ===== verification/StateHistory.v ===== *)
(** * The reconstructed state as a function of the event history

    The replaceable facts of the state, specified from the stream alone:
    creation facts, selected enforcement events and rule paths are those of
    the latest matching event; the identity facts a denial carries are used
    only while no creation event was seen, and then the first denial's. *)

From S2P Require Import Prelude Lattice CapturedBytes Event State StateSpec StateWf.

#[local] Arguments creation_replaced : simpl never.
#[local] Arguments update_max : simpl never.

(** ** What one event touches *)

Definition denial_parts (e : Event) : option (DenialContext * option DomainMembership) :=
  match e with
  | DenyAccessFs e => Some (context e, None)
  | DenyAccessNet e => Some (context e, None)
  | DenyPtrace e => Some (context e, Some (dpt_tracee_domain e))
  | DenyScopeSignal e => Some (context e, Some (dsi_target_domain e))
  | DenyScopeAbstractUnixSocket e => Some (context e, Some (dau_peer_domain e))
  | _ => None
  end.

Definition ruleset_effect (e : Event) :
    option (RulesetId * LifecycleState * N * (RulesetState → RulesetState)) :=
  match e with
  | CreateRuleset e =>
      Some (cre_ruleset_id e, Allocated, cre_ruleset_version e, on_create_ruleset e)
  | AddRulePathBeneath e =>
      Some (arp_ruleset_id e, Allocated, arp_ruleset_version e, on_add_rule_path_beneath e)
  | AddRuleNetPort e =>
      Some (arn_ruleset_id e, Allocated, arn_ruleset_version e, on_add_rule_net_port e)
  | CreateDomain e =>
      Some (cde_ruleset_id e, Allocated, cde_ruleset_version e, on_ruleset_used (cde_ruleset_version e))
  | FreeRuleset e =>
      Some (fre_ruleset_id e, Deallocated, fre_ruleset_version e, on_free_ruleset e)
  | _ => None
  end.

Definition domain_effect (e : Event) :
    option (DomainId * LifecycleState * (DomainState → DomainState)) :=
  match e with
  | CreateDomain e => Some (cde_domain_id e, Allocated, on_create_domain e)
  | FreeDomain e => Some (fde_domain_id e, Deallocated, on_free_domain e)
  | EnforceDomain e => Some (ede_domain_id e, Allocated, on_enforce_domain e)
  | _ => (λ p, (hs_domain_id (dc_hierarchy p.1), Allocated, on_denial p.1)) <$> denial_parts e
  end.

(** Domains that [e] names besides the one it is about. *)
Definition named_domains (e : Event) : list DomainId :=
  match e with
  | CreateDomain e => option_list (cde_parent_id e)
  | _ =>
      match denial_parts e with
      | Some (c, m) =>
          option_list (hs_parent_id (dc_hierarchy c)) ++ option_list (m ≫= membership_domain_id)
      | None => []
      end
  end.

Lemma lookup_placeholder_opt o s id :
  domains (placeholder_opt o s) !! id =
    if decide (o = Some id) then Some (default (domain_state_new id Allocated) (domains s !! id))
    else domains s !! id.
Proof.
  destruct o as [k|]; simpl; [|done]. rewrite lookup_entry_ensure.
  repeat case_decide; simplify_eq; done.
Qed.

Lemma apply_rulesets_lookup s e id :
  rulesets (apply s e) !! id =
    match ruleset_effect e with
    | Some (k, l, v, f) =>
        if decide (k = id) then Some (f (default (ruleset_state_new id l v) (rulesets s !! id)))
        else rulesets s !! id
    | None => rulesets s !! id
    end.
Proof.
  destruct e as [e|e|e|e|e|e|e|e|e|e|e|e]; cbn [apply ruleset_effect];
    rewrite ?apply_denial_rulesets; try done; try (simpl; rewrite lookup_entry_modify; case_decide; by subst).
  transitivity (rulesets (update_ruleset (cde_ruleset_id e) Allocated (cde_ruleset_version e)
             (on_ruleset_used (cde_ruleset_version e)) s) !! id).
  - unfold apply_create_domain. simpl. by destruct (cde_parent_id e).
  - simpl. rewrite lookup_entry_modify. case_decide; by subst.
Qed.

Lemma apply_denial_lookup c m s id :
  domains (apply_denial c m s) !! id =
    if decide (hs_domain_id (dc_hierarchy c) = id)
    then Some (on_denial c (default (domain_state_new id Allocated) (domains s !! id)))
    else if decide (id ∈ option_list (hs_parent_id (dc_hierarchy c)) ++
                         option_list (m ≫= membership_domain_id))
    then Some (default (domain_state_new id Allocated) (domains s !! id))
    else domains s !! id.
Proof.
  rewrite apply_denial_opt, !lookup_placeholder_opt. simpl. rewrite lookup_entry_modify.
  destruct (decide (hs_domain_id (dc_hierarchy c) = id)) as [<-|].
  - by repeat case_decide.
  - destruct (hs_parent_id (dc_hierarchy c)) as [p|], (m ≫= membership_domain_id) as [q|]; simpl;
      repeat case_decide; simplify_eq; try done; set_solver.
Qed.

Lemma apply_domains_lookup s e id :
  domains (apply s e) !! id =
    match domain_effect e with
    | Some (k, l, f) =>
        if decide (k = id) then Some (f (default (domain_state_new id l) (domains s !! id)))
        else if decide (id ∈ named_domains e)
        then Some (default (domain_state_new id Allocated) (domains s !! id))
        else domains s !! id
    | None => domains s !! id
    end.
Proof.
  destruct e as [e|e|e|e|e|e|e|e|e|e|e|e];
    cbn [apply domain_effect named_domains denial_parts fmap option_fmap option_map fst snd];
    try apply apply_denial_lookup; try done;
    try (simpl; rewrite lookup_entry_modify; case_decide; by subst).
  unfold apply_create_domain. simpl. rewrite lookup_entry_modify, !lookup_placeholder_opt. simpl.
  destruct (decide (cde_domain_id e = id)) as [<-|].
  - case_decide; [|done]. by destruct (domains s !! cde_domain_id e).
  - destruct (cde_parent_id e) as [p|]; simpl; repeat case_decide; simplify_eq; try done; set_solver.
Qed.

(** ** Slots that follow the latest event *)

Lemma replay_snoc s es e : replay s (es ++ [e]) = apply (replay s es) e.
Proof. unfold replay. by rewrite foldl_app. Qed.

Lemma omap_snoc {A B} (f : A → option B) l x : omap f (l ++ [x]) = omap f l ++ option_list (f x).
Proof. rewrite omap_app. simpl. by destruct (f x). Qed.

Lemma replay_latest {X} (time : X → N) (slot : State → option X) (sel : Event → option X) es :
  slot state_new = None →
  (∀ s e, state_wf s →
     slot (apply s e) = match sel e with Some c => latest_update time (slot s) c | None => slot s end) →
  slot (replay state_new es) = latest time (omap sel es).
Proof.
  intros H0 Hstep. induction es as [|e es IH] using rev_ind; [done|].
  rewrite replay_snoc, omap_snoc, Hstep by apply replay_wf, state_new_wf.
  destruct (sel e) as [c|]; simpl; [by rewrite latest_snoc, IH|by rewrite app_nil_r].
Qed.

(** *** Creation of a ruleset *)

Definition CreationFacts : Type :=
  KernelTimestamp * FilesystemAccess * NetworkAccess * ScopeAccess.

Definition facts_time (f : CreationFacts) : N := as_nanoseconds f.1.1.1.

Definition creation_facts (r : RulesetState) : option CreationFacts :=
  t ← rs_creation_timestamp r; fs ← rs_handled_fs r; net ← rs_handled_net r;
  sc ← rs_scoped r; Some (t, fs, net, sc).

(** The creation events of ruleset [id] in a stream. *)
Definition creates_ruleset (id : RulesetId) (e : Event) : option CreationFacts :=
  match e with
  | CreateRuleset e =>
      if decide (cre_ruleset_id e = id)
      then Some (timestamp e, cre_handled_fs e, cre_handled_net e, cre_scoped e) else None
  | _ => None
  end.

Lemma creation_facts_on_create id e r :
  ruleset_wf id r →
  creation_facts (on_create_ruleset e r) =
    latest_update facts_time (creation_facts r)
      (timestamp e, cre_handled_fs e, cre_handled_net e, cre_scoped e).
Proof.
  intros [_ _ _ _ Hf Hn Hs _ _]. unfold on_create_ruleset, creation_facts. simpl.
  destruct (rs_creation_timestamp r) as [t|] eqn:Et; simpl.
  - destruct (proj1 Hf) as [f Ef]; [done|]. destruct (proj1 Hn) as [n En]; [done|].
    destruct (proj1 Hs) as [sc Esc]; [done|]. rewrite Ef, En, Esc. simpl.
    unfold creation_replaced, facts_time, timestamp_value. simpl.
    destruct (_ <=? _); simpl; by rewrite ?Et, ?Ef, ?En, ?Esc.
  - done.
Qed.

Lemma ruleset_creation_latest es id :
  ruleset (replay state_new es) id ≫= creation_facts = latest facts_time (omap (creates_ruleset id) es).
Proof.
  apply (replay_latest facts_time (λ s, ruleset s id ≫= creation_facts)); [done|].
  intros s e Hwf. unfold ruleset. rewrite apply_rulesets_lookup.
  destruct e as [e|e|e|e|e|e|e|e|e|e|e|e]; simpl; try done; try case_decide as Hid; try done.
  - simpl. destruct (rulesets s !! id) as [r|] eqn:Hr; simpl.
    + apply (creation_facts_on_create id). by apply (swf_rulesets _ Hwf).
    + done.
  - subst. by destruct (rulesets s !! _) as [r|].
  - subst. by destruct (rulesets s !! _) as [r|].
  - subst. by destruct (rulesets s !! _) as [r|].
  - subst. by destruct (rulesets s !! _) as [r|].
Qed.

(** *** Enforcement of a domain by a thread *)

Definition enforces (id : DomainId) (tid : ThreadId) (e : Event) : option EnforceDomainEvent :=
  match e with
  | EnforceDomain e =>
      if decide (ede_domain_id e = id ∧ ede_enforcing_tid e = tid) then Some e else None
  | _ => None
  end.

Definition enforcement_time (e : EnforceDomainEvent) : N := as_nanoseconds (timestamp e).

Lemma enforcement_event_on_denial c d tid :
  enforcement_event (on_denial c d) tid = enforcement_event d tid.
Proof. by rewrite on_denial_fields. Qed.

Lemma enforcement_event_on_enforce e d tid :
  enforcement_event (on_enforce_domain e d) tid =
    if decide (ede_enforcing_tid e = tid)
    then latest_update enforcement_time (enforcement_event d tid) e else enforcement_event d tid.
Proof.
  unfold enforcement_event, on_enforce_domain. simpl. rewrite lookup_entry_and_modify.
  case_decide; [|done]. subst. destruct (ds_enforcement_events d !! _) as [c|]; simpl; [|done].
  unfold enforcement_merge, enforcement_time, timestamp_value. by case_match.
Qed.

(** A fact of one domain changes only through the event's effect on it. *)
Lemma domain_slot_step {X} (g : DomainState → option X) s e id :
  (∀ l, g (domain_state_new id l) = None) →
  domain (apply s e) id ≫= g =
    match domain_effect e with
    | Some (k, l, f) =>
        if decide (k = id) then g (f (default (domain_state_new id l) (domain s id)))
        else domain s id ≫= g
    | None => domain s id ≫= g
    end.
Proof.
  intros Hg. unfold domain. rewrite apply_domains_lookup.
  destruct (domain_effect e) as [[[k l] f]|]; [|done]. case_decide; [done|].
  case_decide; [|done]. destruct (domains s !! id); [done|]. apply Hg.
Qed.

(** When the effect keeps the fact, so does the event. *)
Lemma slot_default {X} (g : DomainState → option X) id l (o : option DomainState) :
  (∀ l, g (domain_state_new id l) = None) → g (default (domain_state_new id l) o) = o ≫= g.
Proof. intros Hg. destruct o; [done|]. apply Hg. Qed.

Lemma enforcement_latest_aux es id tid :
  (domain (replay state_new es) id ≫= λ d, enforcement_event d tid) =
    latest enforcement_time (omap (enforces id tid) es).
Proof.
  apply (replay_latest enforcement_time (λ s, domain s id ≫= λ d, enforcement_event d tid));
    [done|]. intros s e _. rewrite domain_slot_step by done.
  destruct e as [e|e|e|e|e|e|e|e|e|e|e|e];
    cbn [domain_effect denial_parts enforces fmap option_fmap option_map fst snd]; try done;
    try (case_decide; [|done]); rewrite ?enforcement_event_on_denial;
    try by apply (slot_default (λ d, enforcement_event d tid)).
  - transitivity (enforcement_event (default (domain_state_new id Allocated) (domain s id)) tid).
    + unfold on_create_domain. by case_match.
    + by apply (slot_default (λ d, enforcement_event d tid)).
  - rewrite enforcement_event_on_enforce.
    rewrite (slot_default (λ d, enforcement_event d tid)) by done.
    repeat case_decide; naive_solver.
Qed.

(** *** The path of a filesystem rule *)

Definition fs_path (rule : FilesystemRuleState) : KernelTimestamp * CapturedPath :=
  (fr_pathname_timestamp rule, fr_pathname rule).

Definition path_time (p : KernelTimestamp * CapturedPath) : N := as_nanoseconds p.1.

Definition adds_path (id : RulesetId) (device inode : N) (e : Event) :
    option (KernelTimestamp * CapturedPath) :=
  match e with
  | AddRulePathBeneath e =>
      if decide (arp_ruleset_id e = id ∧ arp_device e = device ∧ arp_inode e = inode)
      then Some (timestamp e, arp_pathname e) else None
  | _ => None
  end.

Definition rule_path (device inode : N) (r : RulesetState) : option (KernelTimestamp * CapturedPath) :=
  fs_path <$> filesystem_rule r device inode.

Lemma rule_path_on_add e r device inode :
  rule_path device inode (on_add_rule_path_beneath e r) =
    if decide (arp_device e = device ∧ arp_inode e = inode)
    then latest_update path_time (rule_path device inode r) (timestamp e, arp_pathname e)
    else rule_path device inode r.
Proof.
  unfold rule_path, filesystem_rule, on_add_rule_path_beneath. simpl.
  rewrite fs_rules_entry, lookup_entry_and_modify. case_decide as H1; case_decide as H2; try naive_solver.
  rewrite H1. destruct (rs_filesystem_rules r !! (device, inode)) as [rule|]; simpl; [|done].
  unfold filesystem_rule_merge, path_time, timestamp_value. simpl. by case_match.
Qed.

Lemma rule_path_latest es id device inode :
  ruleset (replay state_new es) id ≫= rule_path device inode =
    latest path_time (omap (adds_path id device inode) es).
Proof.
  apply (replay_latest path_time (λ s, ruleset s id ≫= rule_path device inode)); [done|].
  intros s e _. unfold ruleset. rewrite apply_rulesets_lookup.
  destruct e as [e|e|e|e|e|e|e|e|e|e|e|e]; cbn [ruleset_effect adds_path]; try done.
  - case_decide; [|done]. simpl. unfold on_create_ruleset.
    destruct (rulesets s !! id); simpl; by repeat case_match.
  - destruct (decide (arp_ruleset_id e = id)) as [Hid|]; simpl.
    + rewrite rule_path_on_add. destruct (rulesets s !! id); simpl;
        repeat case_decide; naive_solver.
    + case_decide; naive_solver.
  - case_decide; [|done]. simpl. by destruct (rulesets s !! id).
  - case_decide; [|done]. simpl. by destruct (rulesets s !! id).
  - case_decide; [|done]. simpl. by destruct (rulesets s !! id).
Qed.

(** *** Identity of a domain: creation events first, else the first denial *)

(** Creation time, parent, creator and ruleset, each with what is known of it. *)
Definition IdentityFacts : Type :=
  option KernelTimestamp * option DomainParent * option ProcessId * option CapturedCommand *
  option RulesetVersion.

Definition identity_of (o : option DomainState) : IdentityFacts :=
  match o with
  | Some d => (ds_creation_timestamp d, ds_parent d, ds_creator_tgid d, ds_creator_comm d, ds_ruleset d)
  | None => (None, None, None, None, None)
  end.

Definition creates_domain (id : DomainId) (e : Event) : option CreateDomainEvent :=
  match e with
  | CreateDomain e => if decide (cde_domain_id e = id) then Some e else None
  | _ => None
  end.

Definition domain_creation_time (e : CreateDomainEvent) : N := as_nanoseconds (timestamp e).

Definition denies_in (id : DomainId) (e : Event) : option HierarchySnapshot :=
  p ← denial_parts e;
  if decide (hs_domain_id (dc_hierarchy p.1) = id) then Some (dc_hierarchy p.1) else None.

Definition identity_spec (creations : list CreateDomainEvent) (denials : list HierarchySnapshot) :
    IdentityFacts :=
  match latest domain_creation_time creations with
  | Some c =>
      (Some (timestamp c), Some (known_parent (cde_parent_id c)), Some (cde_creator_tgid c),
       Some (cde_creator_comm c), Some (mkRulesetVersion (cde_ruleset_id c) (cde_ruleset_version c)))
  | None =>
      match head denials with
      | Some h =>
          (None, Some (known_parent (hs_parent_id h)), Some (hs_creator_tgid h),
           Some (hs_creator_comm h), None)
      | None => (None, None, None, None, None)
      end
  end.

Definition identity_history (id : DomainId) (es : list Event) : IdentityFacts :=
  identity_spec (omap (creates_domain id) es) (omap (denies_in id) es).

Lemma identity_default id l o : identity_of (Some (default (domain_state_new id l) o)) = identity_of o.
Proof. by destruct o. Qed.

Lemma identity_step s e id :
  identity_of (domain (apply s e) id) =
    match domain_effect e with
    | Some (k, l, f) =>
        if decide (k = id) then identity_of (Some (f (default (domain_state_new id l) (domain s id))))
        else identity_of (domain s id)
    | None => identity_of (domain s id)
    end.
Proof.
  unfold domain. rewrite apply_domains_lookup.
  destruct (domain_effect e) as [[[k l] f]|]; [|done]. case_decide; [done|].
  case_decide; [|done]. apply identity_default.
Qed.

Lemma identity_on_create e d creations denials :
  identity_of (Some d) = identity_spec creations denials →
  identity_of (Some (on_create_domain e d)) = identity_spec (creations ++ [e]) denials.
Proof.
  unfold identity_spec. rewrite latest_snoc. intros Hd. unfold on_create_domain.
  destruct (latest domain_creation_time creations) as [c|]; simpl in *.
  - unfold creation_replaced, domain_creation_time, timestamp_value.
    injection Hd as Ht Hp Hg Hm Hr. simpl. rewrite Ht. simpl.
    destruct (_ <=? _); simpl; congruence.
  - assert (ds_creation_timestamp d = None) as -> by (destruct (head denials); congruence). done.
Qed.

Lemma identity_on_denial c d creations denials :
  identity_of (Some d) = identity_spec creations denials →
  identity_of (Some (on_denial c d)) = identity_spec creations (denials ++ [dc_hierarchy c]).
Proof.
  unfold identity_spec. intros Hd. rewrite on_denial_fields. unfold denial_creator.
  destruct (latest domain_creation_time creations) as [e|]; [|destruct denials as [|h denials]];
    simpl in *; injection Hd as Ht Hp Hg Hm Hr; simpl; rewrite Ht, Hp, Hg, Hm, Hr; done.
Qed.

Lemma identity_kept_free e d : identity_of (Some (on_free_domain e d)) = identity_of (Some d).
Proof. done. Qed.
Lemma identity_kept_enforce e d : identity_of (Some (on_enforce_domain e d)) = identity_of (Some d).
Proof. done. Qed.

Lemma domain_identity_aux es id :
  identity_of (domain (replay state_new es) id) = identity_history id es.
Proof.
  induction es as [|e es IH] using rev_ind; [done|].
  rewrite replay_snoc, identity_step. unfold identity_history in *. rewrite !omap_snoc.
  destruct e as [e|e|e|e|e|e|e|e|e|e|e|e];
    cbn [domain_effect denies_in denial_parts creates_domain fmap option_fmap option_map fst snd
         mbind option_bind];
    try (case_decide); cbn [option_list]; rewrite ?app_nil_r; try done;
    try (apply identity_on_denial; by rewrite identity_default);
    try (apply identity_on_create; by rewrite identity_default).
  - by rewrite identity_kept_free, identity_default.
  - by rewrite identity_kept_enforce, identity_default.
Qed.
