(* ===== verification/StateTheorems.v ===== *)
(** * Theorems on the reconstructed state (src/state.rs)

    The claims on [State]: refinement to a join, insensitivity to order and
    repetition, persistence, consistency, and the latest-wins specifications
    of the replaceable facts. *)

From S2P Require Import Prelude Lattice CapturedBytes Event State StateSpec StateWf StateHistory.

(** Two states with the same monotone facts. *)
Definition same_facts (s s' : State) : Prop := view s = view s'.

#[export] Instance same_facts_equivalence : Equivalence same_facts.
Proof. unfold same_facts. split; [by intros s|by intros s s'|intros s s' s''; congruence]. Qed.

#[export] Instance apply_proper : Proper (same_facts ==> (=) ==> same_facts) apply.
Proof. intros s s' Hs e e' <-. unfold same_facts. by rewrite !view_apply, Hs. Qed.

#[export] Instance replay_proper : Proper (same_facts ==> (=) ==> same_facts) replay.
Proof. intros s s' Hs es es' <-. unfold same_facts. by rewrite !view_replay, Hs. Qed.

(** C3: refinement. Seen through its monotone facts (lifecycles, greatest and
    final versions and counts, latest times, unions of rights, selected
    enforcement times), a state after a stream is the join of the state before
    it with the contribution of each event: every arm of [apply] implements a
    join in the abstract semilattice of facts. *)
Theorem replay_refines_join s es :
  view (replay s es) = join_all contribution (view s) es.
Proof. apply view_replay. Qed.

(** Two streams with the same events, in any order and with any
    repetitions, leave the same monotone facts. *)
Theorem replay_order_insensitive s es es' :
  (∀ e, e ∈ es ↔ e ∈ es') → view (replay s es) = view (replay s es').
Proof. intros He. rewrite !view_replay. by apply join_all_set. Qed.

(** Applying the same observation twice is applying it once, on the whole
    state and whatever it held. *)
Theorem apply_idempotent s e : apply (apply s e) e = apply s e.
Proof. apply apply_idem. Qed.

(** C17: every reachable state is consistent: objects are stored under their
    own identity, a ruleset or domain is deallocated exactly when a final
    version or count and a free time are known, final values are bounded by
    the observed maxima, creation facts are known together, enforcement
    entries carry their own thread and domain, and every parent and ruleset a
    domain refers to has an entry (with at least the referenced version). *)
Theorem reachable_state_consistent es : state_wf (replay state_new es).
Proof. apply replay_wf, state_new_wf. Qed.

(** ** Facts are never lost *)

Lemma replay_le s es : view s ⊑ view (replay s es).
Proof.
  rewrite view_replay. destruct (proj1 (join_all_lub contribution (view s) es _)
    (reflexivity (join_all contribution (view s) es))) as [H _]. exact H.
Qed.

Lemma lifecycle_le (l l' : LifecycleState) : l ⊑ l' → l = Deallocated → l' = Deallocated.
Proof. by destruct l, l'. Qed.

Lemma rights_le (a b : FilesystemAccess) : a ⊑ b → N.land (bits a) (bits b) = bits a.
Proof.
  intros H. assert (N.lor (fs_bits a) (fs_bits b) = fs_bits b) as Hb by exact (f_equal fs_bits H).
  simpl. rewrite <-Hb. apply N.bits_inj. intros n. rewrite N.land_spec, N.lor_spec.
  by destruct (N.testbit (fs_bits a) n).
Qed.

(** No observation removes an object or weakens a fact: a known ruleset
    stays known, deallocation is terminal, versions do not decrease and
    observed filesystem rights are never withdrawn. *)
Theorem ruleset_facts_persist s es id r :
  ruleset s id = Some r →
  ∃ r', ruleset (replay s es) id = Some r' ∧
    (rs_lifecycle r = Deallocated → rs_lifecycle r' = Deallocated) ∧
    rs_max_observed_version r <= rs_max_observed_version r' ∧
    ∀ device inode rule, filesystem_rule r device inode = Some rule →
      ∃ rule', filesystem_rule r' device inode = Some rule' ∧
        N.land (bits (fr_access_rights rule)) (bits (fr_access_rights rule')) =
        bits (fr_access_rights rule).
Proof.
  unfold ruleset. intros Hr. destruct (view_ruleset_version (view s) (replay s es) id (ruleset_view r))
    as (r' & Hr' & Hle); [apply replay_le|simpl; by rewrite lookup_fmap, Hr|].
  exists r'. split; [done|]. split_and!.
  - apply lifecycle_le. exact (f_equal (λ v : RulesetView, v.1.1.1.1.1.1) Hle).
  - exact (view_version_le _ _ Hle).
  - intros device inode rule Hrule. unfold filesystem_rule in *.
    assert (fs_rule_view <$> rs_filesystem_rules r ⊑ fs_rule_view <$> rs_filesystem_rules r') as Hm
      by exact (f_equal (λ v : RulesetView, v.1.2) Hle).
    destruct (gmap_le_lookup _ _ (device, inode) (fs_rule_view rule) Hm) as (y & Hy & Hv);
      [by rewrite lookup_fmap, Hrule|].
    rewrite lookup_fmap in Hy. destruct (rs_filesystem_rules r' !! _) as [rule'|]; simplify_eq/=.
    exists rule'. split; [done|]. apply rights_le. exact (f_equal fst Hv).
Qed.

(** ** Latest wins *)

(** The creation facts of a ruleset (time and the three masks) are those
    of its latest creation event, the last applied among equal timestamps, and
    are absent together when none was seen. *)
Theorem ruleset_creation_history es id facts :
  ruleset (replay state_new es) id ≫= creation_facts = Some facts ↔
  is_latest facts_time (omap (creates_ruleset id) es) facts.
Proof. rewrite ruleset_creation_latest. apply latest_Some. Qed.

(** C23: what a state says of a domain's creation, parent, creator and ruleset
    is what its latest creation event says; while none was seen, what the
    first denial in that domain says; and nothing otherwise. *)
Theorem domain_identity_history es id :
  identity_of (domain (replay state_new es) id) = identity_history id es.
Proof. apply domain_identity_aux. Qed.

(** The enforcement event selected for a thread of a domain is the one
    with the greatest timestamp, the last applied among equals. *)
Theorem enforcement_history es id tid e :
  (domain (replay state_new es) id ≫= λ d, enforcement_event d tid) = Some e ↔
  is_latest enforcement_time (omap (enforces id tid) es) e.
Proof. rewrite enforcement_latest_aux. apply latest_Some. Qed.

(** The path shown for a filesystem rule is the one of the latest rule
    event for that device and inode. *)
Theorem rule_path_history es id device inode p :
  ruleset (replay state_new es) id ≫= rule_path device inode = Some p ↔
  is_latest path_time (omap (adds_path id device inode) es) p.
Proof. rewrite rule_path_latest. apply latest_Some. Qed.

Lemma no_new_privs_spec d :
  no_new_privs d =
    if decide (ds_enforcement_events d = ∅) then None
    else Some (bool_decide (map_Forall (λ _ e, ede_no_new_privs e = true) (ds_enforcement_events d))).
Proof.
  unfold no_new_privs. case_bool_decide; case_decide; try done. f_equal.
  apply eq_true_iff_eq. rewrite forallb_forall, bool_decide_eq_true, map_Forall_to_list, Forall_forall.
  split; intros Ha [k e] He; specialize (Ha (k, e)); simpl in *; apply Ha;
    by apply list_elem_of_In.
Qed.

(** The summary of [no_new_privs] is the weakest latest observation: it
    is false exactly when the latest enforcement of some thread lacked it, and
    true exactly when some thread was seen and the latest of each had it. *)
Theorem no_new_privs_history es id d :
  domain (replay state_new es) id = Some d →
  (no_new_privs d = Some false ↔
     ∃ tid e, is_latest enforcement_time (omap (enforces id tid) es) e ∧ ede_no_new_privs e = false) ∧
  (no_new_privs d = Some true ↔
     (∃ tid e, is_latest enforcement_time (omap (enforces id tid) es) e) ∧
     ∀ tid e, is_latest enforcement_time (omap (enforces id tid) es) e → ede_no_new_privs e = true).
Proof.
  intros Hd. assert (∀ tid e, is_latest enforcement_time (omap (enforces id tid) es) e ↔
    ds_enforcement_events d !! tid = Some e) as Hl.
  { intros tid e. by rewrite <-latest_Some, <-enforcement_latest_aux, Hd. }
  setoid_rewrite Hl. rewrite no_new_privs_spec. case_decide as He.
  - rewrite He. setoid_rewrite lookup_empty. naive_solver.
  - apply map_choose in He as (t & e & He). split.
    + split.
      * intros [= Hb%bool_decide_eq_false].
        apply map_not_Forall in Hb as (t' & e' & Hl' & Hn); [|apply _].
        exists t', e'. split; [done|]. by destruct (ede_no_new_privs e').
      * intros (t' & e' & Hl' & Hn). f_equal. apply bool_decide_eq_false. intros Ha.
        apply Ha in Hl'. congruence.
    + split.
      * intros [= Hb%bool_decide_eq_true]. split; [eauto|]. intros. by eapply Hb.
      * intros [_ Ha]. f_equal. apply bool_decide_eq_true. intros t' e' Hl'. eauto.
Qed.

(** ** Concrete streams *)

Definition sample_domain : DomainId := mkLandlockId 0x100000002.
Definition sample_ruleset : RulesetId := mkLandlockId 0x100000001.

Definition sample_enforce (t tid : N) (nnp : bool) : Event :=
  EnforceDomain (mkEnforceDomainEvent (from_nanoseconds t) sample_domain (mkThreadId tid)
    true false nnp).

Definition sample_add_rule (t rights : N) : Event :=
  AddRulePathBeneath (mkAddRulePathBeneathEvent (from_nanoseconds t) sample_ruleset t
    (mkFilesystemAccess rights) 8 9 (mkCapturedBytes [] false)).

Definition sample_free_ruleset : Event :=
  FreeRuleset (mkFreeRulesetEvent (from_nanoseconds 50) sample_ruleset 3).

(** Two threads, one of them without [no_new_privs], seen out of order. *)
Definition sample_stream : list Event :=
  [sample_add_rule 20 4; sample_enforce 7 2 true; sample_enforce 5 2 false; sample_enforce 6 3 false].

Lemma replay_order_insensitive_witness :
  view (replay state_new [sample_add_rule 20 4; sample_free_ruleset]) =
  view (replay state_new [sample_free_ruleset; sample_add_rule 20 4; sample_free_ruleset]).
Proof. apply (replay_order_insensitive state_new). intros e. set_solver. Defined.

Lemma ruleset_facts_persist_witness :
  ∃ r, ruleset (replay state_new [sample_free_ruleset]) sample_ruleset = Some r ∧
  ∃ r', ruleset (replay (replay state_new [sample_free_ruleset]) sample_stream) sample_ruleset = Some r' ∧
    rs_lifecycle r' = Deallocated.
Proof.
  eexists. split; [vm_compute; reflexivity|].
  destruct (ruleset_facts_persist (replay state_new [sample_free_ruleset]) sample_stream sample_ruleset _
    eq_refl) as (r' & Hr' & Hl & _).
  exists r'. split; [exact Hr'|apply Hl; reflexivity].
Defined.

Lemma no_new_privs_history_witness :
  ∃ d, domain (replay state_new sample_stream) sample_domain = Some d ∧
  (no_new_privs d = Some false ↔
     ∃ tid e, is_latest enforcement_time (omap (enforces sample_domain tid) sample_stream) e ∧
              ede_no_new_privs e = false) ∧
  no_new_privs d = Some false.
Proof.
  eexists. split; [vm_compute; reflexivity|]. split; [|vm_compute; reflexivity].
  apply (no_new_privs_history sample_stream sample_domain). vm_compute. reflexivity.
Defined.
