(* ===== verification/Aggregate.v ===== *)
(** * Bounded denial aggregation (src/aggregate.rs)

    [DenialAggregator] retains at most [capacity] denial keys and evicts the
    key observed least recently. A [HashMap] is a finite map together with the
    order in which the standard library happens to iterate over it, the
    variable [iter]; no theorem depends on that order beyond its being an
    enumeration of the map. [try_reserve] is the allocator's answer. *)

From S2P Require Import Prelude CapturedBytes Event.

Definition DEFAULT_CAPACITY : N := 1000.

Record FilesystemDenialKey := mkFilesystemDenialKey {
  fk_domain_id : DomainId;
  fk_blockers_type : BlockerType;
  fk_blockers_access : FilesystemAccess;
  fk_device : N;
  fk_inode : N;
}.

Record NetworkDenialKey := mkNetworkDenialKey {
  nk_domain_id : DomainId;
  nk_blockers_type : BlockerType;
  nk_blockers_access : NetworkAccess;
  nk_source_port : N;
  nk_destination_port : N;
}.

Record PtraceDenialKey := mkPtraceDenialKey {
  pk_domain_id : DomainId;
  pk_tracee_domain : DomainMembership;
  pk_tracee_pid : ProcessId;
  pk_tracee_comm : CapturedCommand;
}.

Record SignalDenialKey := mkSignalDenialKey {
  sk_domain_id : DomainId;
  sk_target_domain : DomainMembership;
  sk_target_pid : ProcessId;
  sk_target_comm : CapturedCommand;
}.

Record AbstractUnixSocketDenialKey := mkAbstractUnixSocketDenialKey {
  ak_domain_id : DomainId;
  ak_peer_domain : DomainMembership;
  ak_abstract_name : CapturedAbstractUnixSocketName;
}.

Inductive DenialKey :=
| Filesystem (key : FilesystemDenialKey)
| Network (key : NetworkDenialKey)
| Ptrace (key : PtraceDenialKey)
| Signal (key : SignalDenialKey)
| AbstractUnixSocket (key : AbstractUnixSocketDenialKey).

Definition fk_blockers (key : FilesystemDenialKey) : FilesystemBlockers :=
  classify (fk_blockers_type key) (fk_blockers_access key).

Definition key_domain_id (key : DenialKey) : DomainId :=
  match key with
  | Filesystem key => fk_domain_id key
  | Network key => nk_domain_id key
  | Ptrace key => pk_domain_id key
  | Signal key => sk_domain_id key
  | AbstractUnixSocket key => ak_domain_id key
  end.

(** The derived [Eq] and [Hash] compare every field. *)
#[export] Instance FilesystemDenialKey_eq_dec : EqDecision FilesystemDenialKey.
Proof. solve_decision. Defined.
#[export] Instance NetworkDenialKey_eq_dec : EqDecision NetworkDenialKey.
Proof. solve_decision. Defined.
#[export] Instance PtraceDenialKey_eq_dec : EqDecision PtraceDenialKey.
Proof. solve_decision. Defined.
#[export] Instance SignalDenialKey_eq_dec : EqDecision SignalDenialKey.
Proof. solve_decision. Defined.
#[export] Instance AbstractUnixSocketDenialKey_eq_dec : EqDecision AbstractUnixSocketDenialKey.
Proof. solve_decision. Defined.
#[export] Instance DenialKey_eq_dec : EqDecision DenialKey.
Proof. solve_decision. Defined.

#[export] Program Instance FilesystemDenialKey_countable : Countable FilesystemDenialKey :=
  inj_countable' (λ k, (fk_domain_id k, fk_blockers_type k, fk_blockers_access k, fk_device k, fk_inode k))
    (λ '(d, t, a, dev, ino), mkFilesystemDenialKey d t a dev ino) _.
Next Obligation. by intros []. Qed.
#[export] Program Instance NetworkDenialKey_countable : Countable NetworkDenialKey :=
  inj_countable' (λ k, (nk_domain_id k, nk_blockers_type k, nk_blockers_access k, nk_source_port k,
                        nk_destination_port k))
    (λ '(d, t, a, s, p), mkNetworkDenialKey d t a s p) _.
Next Obligation. by intros []. Qed.
#[export] Program Instance PtraceDenialKey_countable : Countable PtraceDenialKey :=
  inj_countable' (λ k, (pk_domain_id k, pk_tracee_domain k, pk_tracee_pid k, pk_tracee_comm k))
    (λ '(d, t, p, c), mkPtraceDenialKey d t p c) _.
Next Obligation. by intros []. Qed.
#[export] Program Instance SignalDenialKey_countable : Countable SignalDenialKey :=
  inj_countable' (λ k, (sk_domain_id k, sk_target_domain k, sk_target_pid k, sk_target_comm k))
    (λ '(d, t, p, c), mkSignalDenialKey d t p c) _.
Next Obligation. by intros []. Qed.
#[export] Program Instance AbstractUnixSocketDenialKey_countable :
    Countable AbstractUnixSocketDenialKey :=
  inj_countable' (λ k, (ak_domain_id k, ak_peer_domain k, ak_abstract_name k))
    (λ '(d, p, n), mkAbstractUnixSocketDenialKey d p n) _.
Next Obligation. by intros []. Qed.
#[export] Program Instance DenialKey_countable : Countable DenialKey :=
  inj_countable' (λ k, match k with
      | Filesystem k => inl (inl k)
      | Network k => inl (inr k)
      | Ptrace k => inr (inl k)
      | Signal k => inr (inr (inl k))
      | AbstractUnixSocket k => inr (inr (inr k))
      end)
    (λ s, match s with
      | inl (inl k) => Filesystem k
      | inl (inr k) => Network k
      | inr (inl k) => Ptrace k
      | inr (inr (inl k)) => Signal k
      | inr (inr (inr k)) => AbstractUnixSocket k
      end) _.
Next Obligation. by intros []. Qed.

Inductive DenialAggregatorBuildErrorKind := InvalidCapacity | Reservation.

(** [Failure] stands for [std::collections::TryReserveError]. *)
Record DenialAggregatorBuildError (Failure : Type) := mkBuildError {
  be_kind : DenialAggregatorBuildErrorKind;
  be_configured : N;
  be_source : option Failure;
}.
Arguments mkBuildError {Failure} _ _ _.
Arguments be_kind {Failure} _.
Arguments be_configured {Failure} _.
Arguments be_source {Failure} _.

Record AggregatedDenial := mkAggregatedDenial {
  ad_key : DenialKey;
  ad_occurrence_count : N;
  ad_first_timestamp : KernelTimestamp;
  ad_latest_timestamp : KernelTimestamp;
  ad_same_exec : bool;
  ad_logged : bool;
  ad_latest_event : Event;
  ad_last_observed_sequence : N;
}.

Record DenialAggregator := mkDenialAggregator {
  agg_capacity : N;
  agg_entries : gmap DenialKey AggregatedDenial;
  agg_ingestion_sequence : N;
}.

Record DenialAggregatorBuilder := mkDenialAggregatorBuilder { builder_capacity : N }.

Definition aggregator_new : DenialAggregator := mkDenialAggregator DEFAULT_CAPACITY ∅ 0.

Definition builder_default : DenialAggregatorBuilder := mkDenialAggregatorBuilder DEFAULT_CAPACITY.

Definition set_capacity (_ : DenialAggregatorBuilder) (capacity : N) : DenialAggregatorBuilder :=
  mkDenialAggregatorBuilder capacity.

Definition build {Failure} (try_reserve : N → result unit Failure) (b : DenialAggregatorBuilder) :
    result DenialAggregator (DenialAggregatorBuildError Failure) :=
  if builder_capacity b =? 0
  then Err (mkBuildError InvalidCapacity (builder_capacity b) None)
  else
    let? _ := map_err (λ source, mkBuildError Reservation (builder_capacity b) (Some source))
                (try_reserve (builder_capacity b)) in
    Ok (mkDenialAggregator (builder_capacity b) ∅ 0).

Definition denial_key_context (event : Event) : option (DenialKey * DenialContext) :=
  match event with
  | DenyAccessFs d =>
      Some (Filesystem (mkFilesystemDenialKey (hs_domain_id (dc_hierarchy (context d)))
              (dfs_blockers_type d) (dfs_blockers_access d) (dfs_device d) (dfs_inode d)), context d)
  | DenyAccessNet d =>
      Some (Network (mkNetworkDenialKey (hs_domain_id (dc_hierarchy (context d)))
              (dne_blockers_type d) (dne_blockers_access d) (dne_source_port d)
              (dne_destination_port d)), context d)
  | DenyPtrace d =>
      Some (Ptrace (mkPtraceDenialKey (hs_domain_id (dc_hierarchy (context d)))
              (dpt_tracee_domain d) (dpt_tracee_pid d) (dpt_tracee_comm d)), context d)
  | DenyScopeSignal d =>
      Some (Signal (mkSignalDenialKey (hs_domain_id (dc_hierarchy (context d)))
              (dsi_target_domain d) (dsi_target_pid d) (dsi_target_comm d)), context d)
  | DenyScopeAbstractUnixSocket d =>
      Some (AbstractUnixSocket (mkAbstractUnixSocketDenialKey
              (hs_domain_id (dc_hierarchy (context d))) (dau_peer_domain d) (dau_abstract_name d)),
            context d)
  | _ => None
  end.

Definition denial_facts (event : Event) : option (DenialKey * bool * bool) :=
  '(key, context) ← denial_key_context event;
  Some (key, dc_same_exec context, dc_logged context).

Definition set_sequence (sequence : N) (e : AggregatedDenial) : AggregatedDenial :=
  mkAggregatedDenial (ad_key e) (ad_occurrence_count e) (ad_first_timestamp e)
    (ad_latest_timestamp e) (ad_same_exec e) (ad_logged e) (ad_latest_event e) sequence.

(** The mutations of the entry on a hit. *)
Definition record_hit (event : Event) (same_exec logged : bool) (sequence : N)
    (e : AggregatedDenial) : AggregatedDenial :=
  mkAggregatedDenial (ad_key e) (saturating_add u64_max (ad_occurrence_count e) 1)
    (ad_first_timestamp e) (timestamp event) same_exec logged event sequence.

Definition record_first (key : DenialKey) (event : Event) (same_exec logged : bool) (sequence : N) :
    AggregatedDenial :=
  mkAggregatedDenial key 1 (timestamp event) (timestamp event) same_exec logged event sequence.

(** [Iterator::min_by_key]: the first of the least elements. *)
Fixpoint min_by_key {A} (f : A → N) (l : list A) : option A :=
  match l with
  | [] => None
  | x :: l' =>
      match min_by_key f l' with
      | Some y => if f y <? f x then Some y else Some x
      | None => Some x
      end
  end.

Definition Entry : Type := DenialKey * AggregatedDenial.

Definition entry_sequence (e : Entry) : N := ad_last_observed_sequence e.2.

#[export] Instance by_sequence_dec : RelDecision (λ e e' : Entry, entry_sequence e <= entry_sequence e').
Proof. intros e e'. apply N.le_dec. Defined.

(** [sort_unstable_by_key]. Elements with equal keys may come in any order in
    Rust; here sequences are distinct. *)
Definition sort_by_sequence (l : list Entry) : list Entry :=
  merge_sort (λ e e', entry_sequence e <= entry_sequence e') l.

(** [for entry in recency { sequence = sequence.saturating_add(1); ... }]. *)
Fixpoint renumber (recency : list Entry) (sequence : N) (m : gmap DenialKey AggregatedDenial) :
    gmap DenialKey AggregatedDenial * N :=
  match recency with
  | [] => (m, sequence)
  | (k, e) :: recency' =>
      let sequence := saturating_add u128_max sequence 1 in
      renumber recency' sequence (<[k := set_sequence sequence e]> m)
  end.

Section aggregator.
Variable iter : gmap DenialKey AggregatedDenial → list Entry.

Definition compact (a : DenialAggregator) : DenialAggregator :=
  let '(m, sequence) := renumber (sort_by_sequence (iter (agg_entries a))) 0 (agg_entries a) in
  mkDenialAggregator (agg_capacity a) m sequence.

Definition next_ingestion_sequence (a : DenialAggregator) : DenialAggregator * N :=
  let a := if agg_ingestion_sequence a =? u128_max then compact a else a in
  let sequence := saturating_add u128_max (agg_ingestion_sequence a) 1 in
  (mkDenialAggregator (agg_capacity a) (agg_entries a) sequence, sequence).

Definition aggregator_len (a : DenialAggregator) : N := N.of_nat (size (agg_entries a)).

Definition with_entries (a : DenialAggregator) (m : gmap DenialKey AggregatedDenial) :
    DenialAggregator :=
  mkDenialAggregator (agg_capacity a) m (agg_ingestion_sequence a).

(** The entries after room was made, [None] when the early return is taken. *)
Definition evict (a : DenialAggregator) : option (gmap DenialKey AggregatedDenial) :=
  if agg_capacity a <=? aggregator_len a
  then least ← min_by_key entry_sequence (iter (agg_entries a));
       Some (delete least.1 (agg_entries a))
  else Some (agg_entries a).

Definition observe_entry (a : DenialAggregator) (event : Event) :
    DenialAggregator * option AggregatedDenial :=
  match denial_facts event with
  | None => (a, None)
  | Some (key, same_exec, logged) =>
      let '(a, sequence) := next_ingestion_sequence a in
      match agg_entries a !! key with
      | Some entry =>
          let entry := record_hit event same_exec logged sequence entry in
          (with_entries a (<[key := entry]> (agg_entries a)), Some entry)
      | None =>
          match evict a with
          | None => (a, None)
          | Some m =>
              let entry := record_first key event same_exec logged sequence in
              (with_entries a (<[key := entry]> m), Some entry)
          end
      end
  end.

Definition observe (a : DenialAggregator) (event : Event) : DenialAggregator :=
  (observe_entry a event).1.

Definition observe_all (a : DenialAggregator) (events : list Event) : DenialAggregator :=
  foldl observe a events.
End aggregator.

Definition aggregator_get (a : DenialAggregator) (key : DenialKey) : option AggregatedDenial :=
  agg_entries a !! key.

Definition aggregator_is_empty (a : DenialAggregator) : bool := aggregator_len a =? 0.
