(* ===== verification/AggregateSpec.v ===== *)
(** * The aggregator implements a least-recently-observed list

    The abstract aggregator is a list of entries, the least recently observed
    first, with no sequence numbers. [represents] relates it to the hash map
    and its sequence numbers; [observe_refines] is the simulation, which also
    shows that the iteration order of the hash map and the compaction of the
    sequence numbers are invisible. *)

From S2P Require Import Prelude CapturedBytes Event Aggregate.

(** ** The abstract aggregator *)

Record LruEntry := mkLruEntry {
  le_key : DenialKey;
  le_count : N;
  le_first : KernelTimestamp;
  le_latest : KernelTimestamp;
  le_same_exec : bool;
  le_logged : bool;
  le_event : Event;
}.

Definition forget (e : AggregatedDenial) : LruEntry :=
  mkLruEntry (ad_key e) (ad_occurrence_count e) (ad_first_timestamp e) (ad_latest_timestamp e)
    (ad_same_exec e) (ad_logged e) (ad_latest_event e).

Definition lru_first (key : DenialKey) (event : Event) (same_exec logged : bool) : LruEntry :=
  mkLruEntry key 1 (timestamp event) (timestamp event) same_exec logged event.

Definition lru_hit (event : Event) (same_exec logged : bool) (e : LruEntry) : LruEntry :=
  mkLruEntry (le_key e) (saturating_add u64_max (le_count e) 1) (le_first e) (timestamp event)
    same_exec logged event.

Definition lru_observe (capacity : N) (l : list LruEntry) (event : Event) : list LruEntry :=
  match denial_facts event with
  | None => l
  | Some (key, same_exec, logged) =>
      match head (filter (λ e, le_key e = key) l) with
      | Some e => filter (λ e, le_key e ≠ key) l ++ [lru_hit event same_exec logged e]
      | None =>
          (if capacity <=? len l then tail l else l) ++ [lru_first key event same_exec logged]
      end
  end.

Definition lru_observe_all (capacity : N) (events : list Event) : list LruEntry :=
  foldl (lru_observe capacity) [] events.

(** ** The representation *)

Abbreviation seq_of := ad_last_observed_sequence.

Definition keyed (l : list AggregatedDenial) : list Entry := (λ e, (ad_key e, e)) <$> l.

(** [l] lists the retained entries, least recently observed first. *)
Record represents (l : list AggregatedDenial) (a : DenialAggregator) : Prop := {
  rep_keys : NoDup (ad_key <$> l);
  rep_entries : agg_entries a = list_to_map (keyed l);
  rep_sorted : StronglySorted (λ e e', seq_of e < seq_of e') l;
  rep_bound : Forall (λ e, seq_of e <= agg_ingestion_sequence a) l;
  rep_sequence : agg_ingestion_sequence a <= u128_max;
  rep_capacity : 0 < agg_capacity a <= usize_max;
  rep_size : len l <= agg_capacity a;
}.

Lemma keyed_fst l : (keyed l).*1 = ad_key <$> l.
Proof. unfold keyed. rewrite <-list_fmap_compose. by apply list_fmap_ext. Qed.

Lemma elem_of_keyed l k e : (k, e) ∈ keyed l ↔ e ∈ l ∧ ad_key e = k.
Proof. unfold keyed. rewrite list_elem_of_fmap. naive_solver. Qed.

Lemma rep_lookup l a k e :
  represents l a → agg_entries a !! k = Some e ↔ e ∈ l ∧ ad_key e = k.
Proof.
  intros []. rewrite rep_entries0, <-elem_of_keyed. symmetry.
  apply elem_of_list_to_map. by rewrite keyed_fst.
Qed.

Lemma rep_lookup_None l a k :
  represents l a → agg_entries a !! k = None ↔ k ∉ ad_key <$> l.
Proof. intros []. rewrite rep_entries0, <-not_elem_of_list_to_map. by rewrite keyed_fst. Qed.

Lemma rep_len l a : represents l a → aggregator_len a = len l.
Proof.
  intros []. unfold aggregator_len, len.
  rewrite rep_entries0, map_size_list_to_map by (by rewrite keyed_fst).
  unfold keyed. by rewrite length_fmap.
Qed.

Lemma represents_empty c : 0 < c <= usize_max → represents [] (mkDenialAggregator c ∅ 0).
Proof. intros Hc. split; simpl; try done; try constructor. unfold len. simpl. lia. Qed.

Lemma sorted_seq_inj l x y :
  StronglySorted (λ e e', seq_of e < seq_of e') l → x ∈ l → y ∈ l → seq_of x = seq_of y → x = y.
Proof.
  induction 1 as [|z l Hl IH Hz]; [by intros ?%not_elem_of_nil|].
  rewrite Forall_forall in Hz. rewrite !elem_of_cons. intros [->|Hx] [->|Hy] Hs; auto.
  - apply Hz in Hy. lia.
  - apply Hz in Hx. lia.
Qed.

(** ** Filters by key *)

Lemma filter_key_eq_none (l : list LruEntry) k :
  k ∉ le_key <$> l → filter (λ e, le_key e = k) l = [].
Proof.
  induction l as [|e l IH]; [done|]. rewrite fmap_cons, not_elem_of_cons. intros [He Hl].
  rewrite filter_cons_False; [by apply IH|congruence].
Qed.

Lemma filter_key_ne_all (l : list LruEntry) k :
  k ∉ le_key <$> l → filter (λ e, le_key e ≠ k) l = l.
Proof.
  induction l as [|e l IH]; [done|]. rewrite fmap_cons, not_elem_of_cons. intros [He Hl].
  rewrite filter_cons_True; [by rewrite IH|congruence].
Qed.

Lemma filter_key_split l1 e l2 k :
  le_key e = k → NoDup (le_key <$> l1 ++ e :: l2) →
  filter (λ e, le_key e = k) (l1 ++ e :: l2) = [e] ∧
  filter (λ e, le_key e ≠ k) (l1 ++ e :: l2) = l1 ++ l2.
Proof.
  intros Hk Hnd. rewrite fmap_app, fmap_cons, NoDup_app, NoDup_cons in Hnd.
  destruct Hnd as (_ & H1 & H2 & _). rewrite Hk in *.
  assert (k ∉ le_key <$> l1) by (intros Hin; apply (H1 k Hin); by left).
  rewrite !filter_app, filter_key_eq_none, filter_key_ne_all by done. split.
  - by rewrite filter_cons_True, filter_key_eq_none.
  - rewrite filter_cons_False by (intros Hn; by apply Hn). by rewrite filter_key_ne_all.
Qed.

Lemma forget_keys (l : list AggregatedDenial) : le_key <$> (forget <$> l) = ad_key <$> l.
Proof. rewrite <-list_fmap_compose. by apply list_fmap_ext. Qed.

(** ** Sequence numbers *)

(** Entries renumbered from [n] on, in the order of the list. *)
Fixpoint renum (n : N) (l : list AggregatedDenial) : list AggregatedDenial :=
  match l with
  | [] => []
  | e :: l' => set_sequence (n + 1) e :: renum (n + 1) l'
  end.

Lemma renum_keys n l : ad_key <$> renum n l = ad_key <$> l.
Proof. revert n. induction l as [|e l IH]; intros n; [done|]. simpl. by rewrite IH. Qed.

Lemma renum_forget n l : forget <$> renum n l = forget <$> l.
Proof. revert n. induction l as [|e l IH]; intros n; [done|]. simpl. by rewrite IH. Qed.

Lemma renum_len n l : len (renum n l) = len l.
Proof.
  unfold len. f_equal. rewrite <-(length_fmap forget), renum_forget. apply length_fmap.
Qed.

Lemma renum_bounds n l : Forall (λ e, n < seq_of e <= n + len l) (renum n l).
Proof.
  revert n. induction l as [|e l IH]; intros n; simpl; constructor.
  - unfold len. simpl. lia.
  - eapply Forall_impl; [apply IH|]. unfold len. simpl. intros. lia.
Qed.

Lemma renum_sorted n l : StronglySorted (λ e e', seq_of e < seq_of e') (renum n l).
Proof.
  revert n. induction l as [|e l IH]; intros n; simpl; constructor; [apply IH|].
  eapply Forall_impl; [apply renum_bounds|]. simpl. intros. lia.
Qed.

Lemma renumber_spec l n m :
  NoDup (ad_key <$> l) → n + len l <= u128_max →
  renumber (keyed l) n m = (list_to_map (keyed (renum n l)) ∪ m, n + len l).
Proof.
  revert n m. induction l as [|e l IH]; intros n m Hnd Hn; simpl.
  - rewrite (left_id_L ∅ (∪)). f_equal. unfold len. simpl. lia.
  - apply NoDup_cons in Hnd as [He Hnd]. unfold len in *. simpl in Hn.
    rewrite saturating_add_exact by lia. rewrite IH by (done || lia). f_equal; [|simpl; lia].
    rewrite <-insert_union_l, <-insert_union_r; [done|].
    apply not_elem_of_list_to_map. by rewrite keyed_fst, renum_keys.
Qed.

Section order.
Context (iter : gmap DenialKey AggregatedDenial → list Entry).
Hypothesis iter_enumerates : ∀ m, iter m ≡ₚ map_to_list m.

Lemma iter_perm l a : represents l a → iter (agg_entries a) ≡ₚ keyed l.
Proof.
  intros []. rewrite iter_enumerates, rep_entries0. apply map_to_list_to_map. by rewrite keyed_fst.
Qed.

Lemma sorted_by_sequence l a :
  represents l a → sort_by_sequence (iter (agg_entries a)) = keyed l.
Proof.
  intros Hr. assert (Transitive (λ e e' : Entry, entry_sequence e <= entry_sequence e'))
    by (intros ???; lia).
  assert (Total (λ e e' : Entry, entry_sequence e <= entry_sequence e')) by (intros ??; lia).
  assert (sort_by_sequence (iter (agg_entries a)) ≡ₚ keyed l) as Hp.
  { unfold sort_by_sequence. rewrite merge_sort_Permutation. by apply iter_perm. }
  apply StronglySorted_unique_strong with (λ e e', entry_sequence e <= entry_sequence e'); [| | |done].
  - intros [k1 e1] [k2 e2]. rewrite Hp, !elem_of_keyed. unfold entry_sequence. simpl.
    intros [H1 <-] [H2 <-] ? ?. by rewrite (sorted_seq_inj l e1 e2 (rep_sorted _ _ Hr)) by (done || lia).
  - by apply StronglySorted_merge_sort.
  - unfold keyed. eapply StronglySorted_fmap, (rep_sorted _ _ Hr). unfold entry_sequence.
    simpl. intros. lia.
Qed.

Lemma u128_capacity : usize_max + 1 < u128_max.
Proof. by vm_compute. Qed.

Lemma rep_next l a :
  represents l a →
  ∃ l', represents l' (next_ingestion_sequence iter a).1 ∧ forget <$> l' = forget <$> l ∧
    Forall (λ e, seq_of e < (next_ingestion_sequence iter a).2) l' ∧
    agg_ingestion_sequence (next_ingestion_sequence iter a).1 = (next_ingestion_sequence iter a).2 ∧
    agg_capacity (next_ingestion_sequence iter a).1 = agg_capacity a.
Proof.
  intros Hr. pose proof u128_capacity. unfold next_ingestion_sequence.
  destruct (N.eqb_spec (agg_ingestion_sequence a) u128_max) as [Hmax|Hmax].
  - unfold compact. rewrite (sorted_by_sequence l a Hr).
    destruct Hr. rewrite renumber_spec by (done || lia).
    exists (renum 0 l). rewrite N.add_0_l. simpl. rewrite saturating_add_exact by lia.
    assert (Forall (λ e, seq_of e < len l + 1) (renum 0 l)) as Hb.
    { eapply Forall_impl; [apply renum_bounds|]. simpl. intros. lia. }
    split_and!; [|apply renum_forget|done..].
    split; simpl; rewrite ?renum_keys; try done.
    + rewrite rep_entries0. apply map_eq. intros k. rewrite lookup_union.
      destruct (list_to_map (keyed (renum 0 l)) !! k) as [e|] eqn:E;
        [by destruct ((list_to_map (keyed l) : gmap DenialKey AggregatedDenial) !! k)|].
      rewrite (left_id_L None (∪)).
      apply not_elem_of_list_to_map in E. rewrite keyed_fst, renum_keys in E.
      apply not_elem_of_list_to_map. by rewrite keyed_fst.
    + apply renum_sorted.
    + eapply Forall_impl; [apply Hb|]. simpl. intros. lia.
    + lia.
    + by rewrite renum_len.
  - destruct Hr. exists l. simpl. rewrite saturating_add_exact by lia.
    split_and!; try done; [split; simpl; try done; try lia|].
    + eapply Forall_impl; [done|]. simpl. intros. lia.
    + eapply Forall_impl; [done|]. simpl. intros. lia.
Qed.

(** ** Removing and appending an entry *)

Lemma rep_remove la e lb a :
  represents (la ++ e :: lb) a →
  represents (la ++ lb) (with_entries a (delete (ad_key e) (agg_entries a))).
Proof.
  intros []. rewrite fmap_app, fmap_cons in rep_keys0.
  assert (NoDup (ad_key e :: (ad_key <$> la ++ lb))) as Hnd.
  { rewrite fmap_app, Permutation_middle. done. }
  apply NoDup_cons in Hnd as [He Hnd].
  apply Forall_app in rep_bound0 as [? [? ?]%Forall_cons].
  apply StronglySorted_app in rep_sorted0 as (Hlt & ? & [? ?]%StronglySorted_cons).
  split; simpl; try done.
  - rewrite rep_entries0, (list_to_map_proper _ ((ad_key e, e) :: keyed (la ++ lb))).
    + simpl. apply delete_insert_id. apply not_elem_of_list_to_map. by rewrite keyed_fst.
    + by rewrite keyed_fst, fmap_app, fmap_cons.
    + unfold keyed. by rewrite !fmap_app, fmap_cons, Permutation_middle.
  - apply StronglySorted_app. split_and!; [|done..]. intros x y Hx Hy. apply Hlt; [done|by right].
  - by apply Forall_app.
  - unfold len in *. rewrite length_app in *. simpl in *. lia.
Qed.

Lemma rep_append l a e m :
  represents l (with_entries a m) → ad_key e ∉ ad_key <$> l → len l < agg_capacity a →
  Forall (λ e', seq_of e' < seq_of e) l → seq_of e = agg_ingestion_sequence a →
  represents (l ++ [e]) (with_entries a (<[ad_key e := e]> m)).
Proof.
  intros [] He Hlen Hlt Hseq. simpl in *. split; simpl; try done.
  - rewrite fmap_app. apply NoDup_app. split_and!; [done| |apply NoDup_singleton].
    intros k Hk ->%list_elem_of_singleton. done.
  - unfold keyed. rewrite fmap_app. simpl. rewrite list_to_map_snoc; [by f_equal|].
    by rewrite keyed_fst.
  - apply StronglySorted_app. split_and!; [|done|repeat constructor].
    intros x y Hx ->%list_elem_of_singleton. by rewrite Forall_forall in Hlt; apply Hlt.
  - apply Forall_app. split; [done|]. constructor; [lia|done].
  - unfold len in *. rewrite length_app. simpl. lia.
Qed.

Lemma min_by_key_spec {A} (f : A → N) l :
  match min_by_key f l with
  | Some x => x ∈ l ∧ ∀ y, y ∈ l → f x <= f y
  | None => l = []
  end.
Proof.
  induction l as [|x l IH]; simpl; [done|].
  destruct (min_by_key f l) as [y|]; [destruct IH as [Hy Hmin]|subst l].
  - destruct (N.ltb_spec (f y) (f x)) as [Hlt|Hle]; (split; [set_solver|]);
      intros z [->|Hz]%elem_of_cons; try lia; apply Hmin in Hz; lia.
  - split; [set_solver|]. intros z ->%list_elem_of_singleton. done.
Qed.

Lemma evict_full e l a :
  represents (e :: l) a → agg_capacity a <= len (e :: l) →
  evict iter a = Some (delete (ad_key e) (agg_entries a)).
Proof.
  intros Hr Hfull. unfold evict. rewrite (rep_len _ _ Hr), (proj2 (N.leb_le _ _)) by done.
  pose proof (min_by_key_spec entry_sequence (iter (agg_entries a))) as Hm.
  pose proof (iter_perm _ _ Hr) as Hp.
  destruct (min_by_key _ _) as [[k x]|]; simpl.
  - destruct Hm as [Hin Hmin]. rewrite Hp, elem_of_keyed in Hin. destruct Hin as [Hin <-].
    apply rep_sorted, StronglySorted_cons in Hr as Hs. destruct Hs as [Hs _].
    rewrite Forall_forall in Hs.
    assert (seq_of x <= seq_of e) as Hle.
    { apply (Hmin (ad_key e, e)). rewrite Hp, elem_of_keyed. split; [by left|done]. }
    apply elem_of_cons in Hin as [->|Hin]; [done|]. apply Hs in Hin. lia.
  - rewrite Hm in Hp. by apply Permutation_nil_l in Hp.
Qed.

Lemma evict_room l a :
  represents l a → len l < agg_capacity a → evict iter a = Some (agg_entries a).
Proof.
  intros Hr Hroom. unfold evict. by rewrite (rep_len _ _ Hr), (proj2 (N.leb_gt _ _)).
Qed.

Lemma with_entries_id a : with_entries a (agg_entries a) = a.
Proof. by destruct a. Qed.

(** ** The simulation *)

Lemma observe_hit l a key event same_exec logged e :
  represents l a → Forall (λ e, seq_of e < agg_ingestion_sequence a) l →
  agg_entries a !! key = Some e →
  ∃ l', represents (l' ++ [record_hit event same_exec logged (agg_ingestion_sequence a) e])
          (with_entries a (<[key := record_hit event same_exec logged (agg_ingestion_sequence a) e]>
             (agg_entries a))) ∧
    head (filter (λ e, le_key e = key) (forget <$> l)) = Some (forget e) ∧
    forget <$> l' = filter (λ e, le_key e ≠ key) (forget <$> l).
Proof.
  intros Hr Hlt He. apply (rep_lookup _ _ _ _ Hr) in He as [He Hk].
  apply list_elem_of_split in He as (la & lb & ->). exists (la ++ lb).
  pose proof (rep_remove _ _ _ _ Hr) as Hr'. rewrite Hk in Hr'. subst key. split.
  - apply Forall_app in Hlt as [Ha [_ Hb]%Forall_cons].
    rewrite <-insert_delete_eq.
    apply (rep_append _ _ (record_hit event same_exec logged (agg_ingestion_sequence a) e)); try done.
    + simpl. pose proof (rep_keys _ _ Hr) as Hnd.
      rewrite fmap_app, fmap_cons, <-Permutation_middle, <-fmap_app in Hnd.
      by apply NoDup_cons in Hnd as [? _].
    + pose proof (rep_size _ _ Hr) as Hs. unfold len in *. rewrite length_app in *. simpl in *. lia.
    + simpl. by apply Forall_app.
  - pose proof (rep_keys _ _ Hr) as Hnd. rewrite <-forget_keys in Hnd.
    rewrite fmap_app, fmap_cons in *.
    destruct (filter_key_split _ (forget e) _ (ad_key e) eq_refl Hnd) as [-> ->].
    split; [done|by rewrite fmap_app].
Qed.

Lemma observe_miss l a key event same_exec logged :
  represents l a → Forall (λ e, seq_of e < agg_ingestion_sequence a) l →
  agg_entries a !! key = None →
  ∃ m l', evict iter a = Some m ∧
    represents (l' ++ [record_first key event same_exec logged (agg_ingestion_sequence a)])
      (with_entries a (<[key := record_first key event same_exec logged (agg_ingestion_sequence a)]> m)) ∧
    head (filter (λ e, le_key e = key) (forget <$> l)) = None ∧
    forget <$> l' = (if agg_capacity a <=? len l then tail (forget <$> l) else forget <$> l).
Proof.
  intros Hr Hlt Hn. apply (rep_lookup_None _ _ _ Hr) in Hn.
  rewrite filter_key_eq_none by (by rewrite forget_keys).
  destruct (N.leb_spec (agg_capacity a) (len l)) as [Hfull|Hroom].
  - destruct l as [|e l].
    { pose proof (rep_capacity _ _ Hr). unfold len in Hfull. simpl in Hfull. lia. }
    exists (delete (ad_key e) (agg_entries a)), l. split_and!; try done; [by apply (evict_full e l)|].
    apply (rep_append l a (record_first key event same_exec logged (agg_ingestion_sequence a)));
      try done; simpl.
    + apply (rep_remove [] e l a Hr).
    + set_solver.
    + pose proof (rep_size _ _ Hr) as Hs. unfold len in *. simpl in *. lia.
    + by apply Forall_cons in Hlt as [_ ?].
  - exists (agg_entries a), l. split_and!; try done; [by apply (evict_room l)|].
    apply (rep_append l a (record_first key event same_exec logged (agg_ingestion_sequence a))); try done.
    by rewrite with_entries_id.
Qed.

Lemma observe_refines l a event :
  represents l a →
  ∃ l', represents l' (observe iter a event) ∧
    forget <$> l' = lru_observe (agg_capacity a) (forget <$> l) event ∧
    agg_capacity (observe iter a event) = agg_capacity a ∧
    (observe_entry iter a event).2 = (if denial_facts event then last l' else None).
Proof.
  intros Hr. unfold observe, observe_entry, lru_observe.
  destruct (denial_facts event) as [[[key same_exec] logged]|]; [|by exists l].
  destruct (rep_next l a Hr) as (l1 & Hr1 & Hf & Hlt & Hseq & Hcap).
  destruct (next_ingestion_sequence iter a) as [a1 sequence]. simpl in *. subst sequence.
  rewrite <-Hf. destruct (agg_entries a1 !! key) as [e|] eqn:Hk.
  - destruct (observe_hit l1 a1 key event same_exec logged e Hr1 Hlt Hk) as (l' & Hr' & -> & Hf').
    eexists. simpl. split_and!; [exact Hr'|by rewrite fmap_app, Hf'|done|by rewrite last_snoc].
  - destruct (observe_miss l1 a1 key event same_exec logged Hr1 Hlt Hk) as (m & l' & -> & Hr' & -> & Hf').
    eexists. simpl. split_and!; [exact Hr'| |done|by rewrite last_snoc].
    rewrite fmap_app, Hf', Hcap. unfold len. by rewrite length_fmap.
Qed.

Lemma observe_all_refines l a events :
  represents l a →
  ∃ l', represents l' (observe_all iter a events) ∧
    forget <$> l' = foldl (lru_observe (agg_capacity a)) (forget <$> l) events ∧
    agg_capacity (observe_all iter a events) = agg_capacity a.
Proof.
  unfold observe_all. revert l a. induction events as [|e es IH]; intros l a Hr; simpl; [by exists l|].
  destruct (observe_refines l a e Hr) as (l' & Hr' & Hf & Hc & _).
  destruct (IH l' _ Hr') as (l'' & Hr'' & Hf'' & Hc''). exists l''.
  by rewrite Hf'', Hc'', Hc, Hf.
Qed.
End order.

(** ** Keys in the order of their last observation *)

Definition key_of (event : Event) : option DenialKey := (λ f, f.1.1) <$> denial_facts event.

(** Each key once, in the order of its last occurrence. *)
Definition recency_list (keys : list DenialKey) : list DenialKey :=
  foldl (λ acc k, filter (λ k', k' ≠ k) acc ++ [k]) [] keys.

Definition last_n {A} (n : nat) (l : list A) : list A := drop (length l - n) l.

Lemma filter_ne_id {A} `{EqDecision A} (k : A) (l : list A) : k ∉ l → filter (λ k', k' ≠ k) l = l.
Proof.
  induction l as [|x l IH]; [done|]. rewrite not_elem_of_cons. intros [Hx Hl].
  rewrite filter_cons_True; [by rewrite IH|congruence].
Qed.

Lemma filter_ne_split {A} `{EqDecision A} (k : A) (l : list A) :
  NoDup l → k ∈ l → ∃ l1 l2, l = l1 ++ k :: l2 ∧ k ∉ l1 ∧ k ∉ l2 ∧ filter (λ k', k' ≠ k) l = l1 ++ l2.
Proof.
  intros Hnd Hk. apply list_elem_of_split in Hk as (l1 & l2 & ->). exists l1, l2.
  apply NoDup_app in Hnd as (_ & H1 & [H2 _]%NoDup_cons).
  assert (k ∉ l1) by (intros Hin; apply (H1 k Hin); by left).
  split_and!; try done. rewrite filter_app, filter_cons_False by (intros Hn; by apply Hn).
  by rewrite !filter_ne_id.
Qed.

Lemma recency_snoc ks k : recency_list (ks ++ [k]) = filter (λ k', k' ≠ k) (recency_list ks) ++ [k].
Proof. unfold recency_list. by rewrite foldl_app. Qed.

Lemma recency_NoDup ks : NoDup (recency_list ks).
Proof.
  induction ks as [|k ks IH] using rev_ind; [constructor|]. rewrite recency_snoc.
  apply NoDup_app. split_and!; [by apply NoDup_filter| |apply NoDup_singleton].
  intros x [Hx _]%list_elem_of_filter ->%list_elem_of_singleton. done.
Qed.

Lemma lru_keys_step capacity l event :
  le_key <$> lru_observe capacity l event =
    match key_of event with
    | None => le_key <$> l
    | Some k =>
        (if decide (k ∈ le_key <$> l) then filter (λ k', k' ≠ k) (le_key <$> l)
         else if capacity <=? len l then tail (le_key <$> l) else le_key <$> l) ++ [k]
    end.
Proof.
  unfold lru_observe, key_of. destruct (denial_facts event) as [[[k se] lg]|]; [|done]. simpl.
  assert (le_key <$> filter (λ e, le_key e ≠ k) l = filter (λ k', k' ≠ k) (le_key <$> l)) as Hf.
  { induction l as [|e l IH]; [done|]. rewrite fmap_cons, !filter_cons.
    repeat case_decide; try done. by rewrite fmap_cons, IH. }
  case_decide as Hk.
  - destruct (head (filter (λ e, le_key e = k) l)) as [e|] eqn:He.
    + rewrite fmap_app, Hf. simpl. apply head_Some_elem_of, list_elem_of_filter in He as [-> _]. done.
    + apply head_None in He. apply list_elem_of_fmap in Hk as (e & -> & Hin).
      assert (e ∈ filter (λ e', le_key e' = le_key e) l) as Hx by by apply list_elem_of_filter.
      rewrite He in Hx. by apply not_elem_of_nil in Hx.
  - rewrite filter_key_eq_none by done. simpl. rewrite fmap_app. f_equal. case_match; [|done].
    by destruct l.
Qed.

(** Moving [k] to the end of a window of the most recent keys. *)
Lemma last_n_move_in {A} `{EqDecision A} n (l : list A) k :
  NoDup l → k ∈ last_n n l →
  last_n n (filter (λ k', k' ≠ k) l ++ [k]) = filter (λ k', k' ≠ k) (last_n n l) ++ [k].
Proof.
  intros Hnd Hk. unfold last_n in *. set (pre := take (length l - n) l).
  set (win := drop (length l - n) l) in *. assert (l = pre ++ win) as Hl by (symmetry; apply take_drop).
  assert (length pre = length l - n)%nat as Hp by (subst pre; rewrite length_take; lia).
  clearbody pre win. subst l. rewrite length_app in Hp.
  destruct (filter_ne_split k win) as (l1 & l2 & -> & _ & _ & Hf);
    [by apply NoDup_app in Hnd as (_ & _ & ?)|done|].
  assert (k ∉ pre) by (apply NoDup_app in Hnd as (_ & Hd & _); intros Hin; by apply (Hd k Hin)).
  rewrite filter_app, filter_ne_id, Hf by done. rewrite <-app_assoc, drop_app_le.
  - rewrite drop_ge; [done|]. rewrite !length_app in *. simpl in *. lia.
  - rewrite !length_app in *. simpl in *. lia.
Qed.

Lemma last_n_move_out {A} `{EqDecision A} n (l : list A) k :
  NoDup l → (0 < n)%nat → k ∉ last_n n l →
  last_n n (filter (λ k', k' ≠ k) l ++ [k]) =
    (if decide (n ≤ length (last_n n l))%nat then tail (last_n n l) else last_n n l) ++ [k].
Proof.
  intros Hnd Hn Hk. unfold last_n in *. destruct (decide (n ≤ length l)%nat) as [Hfull|Hroom].
  - set (pre := take (length l - n) l). set (win := drop (length l - n) l) in *.
    assert (l = pre ++ win) as Hl by (symmetry; apply take_drop).
    assert (length win = n) as Hw by (subst win; rewrite length_drop; lia).
    clearbody pre win. subst l. rewrite decide_True by lia. destruct win as [|x win]; [simpl in *; lia|].
    rewrite filter_app, (filter_ne_id k (x :: win)) by done. rewrite <-app_assoc, drop_app_ge.
    + simpl. rewrite !length_app. simpl. replace (_ - _ - _)%nat with 1%nat; [done|].
      simpl in Hw. rewrite length_app. simpl. lia.
    + rewrite !length_app. simpl in *. lia.
  - replace (length l - n)%nat with 0%nat in * by lia. rewrite drop_0 in *.
    rewrite decide_False by lia. rewrite filter_ne_id by done.
    replace (length (l ++ [k]) - n)%nat with 0%nat; [done|]. rewrite length_app. simpl. lia.
Qed.

Definition keys_of (events : list Event) : list DenialKey := omap key_of events.

Lemma keys_of_snoc es e : keys_of (es ++ [e]) = keys_of es ++ option_list (key_of e).
Proof. unfold keys_of. rewrite omap_app. simpl. by destruct (key_of e). Qed.

Lemma lru_snoc c es e : lru_observe_all c (es ++ [e]) = lru_observe c (lru_observe_all c es) e.
Proof. unfold lru_observe_all. by rewrite foldl_app. Qed.

Lemma lru_retains c es :
  0 < c → le_key <$> lru_observe_all c es = last_n (N.to_nat c) (recency_list (keys_of es)).
Proof.
  intros Hc. induction es as [|e es IH] using rev_ind; [done|].
  rewrite lru_snoc, lru_keys_step, keys_of_snoc. destruct (key_of e) as [k|]; simpl; [|by rewrite app_nil_r].
  rewrite recency_snoc. pose proof (recency_NoDup (keys_of es)) as Hnd.
  assert (len (lru_observe_all c es) = len (last_n (N.to_nat c) (recency_list (keys_of es)))) as Hlen.
  { rewrite <-IH. unfold len. by rewrite length_fmap. }
  rewrite IH, Hlen. case_decide as Hk.
  - by rewrite last_n_move_in.
  - rewrite last_n_move_out by (done || lia). unfold len.
    case_match eqn:Hle; case_decide; try done; [apply N.leb_le in Hle|apply N.leb_gt in Hle]; lia.
Qed.

(** ** Exact summaries while every key fits *)

Definition matching (k : DenialKey) (events : list Event) : list Event :=
  filter (λ e, key_of e = Some k) events.

(** The summary of the events with key [k]: how many, the first and the last. *)
Definition summary (k : DenialKey) (events : list Event) : option LruEntry :=
  first ← head (matching k events);
  latest ← last (matching k events);
  '(_, same_exec, logged) ← denial_facts latest;
  Some (mkLruEntry k (N.min u64_max (len (matching k events))) (timestamp first) (timestamp latest)
          same_exec logged latest).

Definition lru_get (k : DenialKey) (l : list LruEntry) : option LruEntry :=
  head (filter (λ e, le_key e = k) l).

Lemma head_app {A} (l l' : list A) : head (l ++ l') = match head l with Some x => Some x | None => head l' end.
Proof. by destruct l. Qed.

Lemma filter_eq_filter_ne k k' (l : list LruEntry) :
  k ≠ k' → filter (λ e, le_key e = k) (filter (λ e, le_key e ≠ k') l) = filter (λ e, le_key e = k) l.
Proof.
  intros Hk. induction l as [|e l IH]; [done|]. rewrite !filter_cons.
  repeat case_decide; rewrite ?filter_cons; repeat case_decide; try congruence.
Qed.

Lemma filter_eq_filter_ne_same k (l : list LruEntry) :
  filter (λ e, le_key e = k) (filter (λ e, le_key e ≠ k) l) = [].
Proof.
  induction l as [|e l IH]; [done|]. rewrite filter_cons. case_decide; [|done].
  by rewrite filter_cons, decide_False.
Qed.

Lemma lru_get_observe c l e k :
  len l < c ∨ (∃ k', key_of e = Some k' ∧ k' ∈ le_key <$> l) ∨ key_of e = None →
  lru_get k (lru_observe c l e) =
    match denial_facts e with
    | Some (k', same_exec, logged) =>
        if decide (k' = k)
        then Some (match lru_get k l with
                   | Some x => lru_hit e same_exec logged x
                   | None => lru_first k e same_exec logged
                   end)
        else lru_get k l
    | None => lru_get k l
    end.
Proof.
  intros Hroom. unfold lru_observe, lru_get, key_of in *.
  destruct (denial_facts e) as [[[k' se] lg]|]; [|done]. simpl in Hroom.
  destruct (head (filter (λ e0, le_key e0 = k') l)) as [x|] eqn:Hx.
  - pose proof Hx as Hx'. apply head_Some_elem_of, list_elem_of_filter in Hx' as [Hkx _].
    rewrite filter_app, head_app. case_decide as Hk.
    + subst k. rewrite filter_eq_filter_ne_same. simpl. rewrite filter_cons_True by done. by rewrite Hx.
    + rewrite filter_eq_filter_ne by done. destruct (head (filter (λ e0, le_key e0 = k) l)); [done|].
      rewrite filter_cons_False by (simpl; congruence). done.
  - assert (k' ∉ le_key <$> l) as Hk'.
    { intros (y & -> & Hy)%list_elem_of_fmap. apply head_None in Hx.
      assert (y ∈ filter (λ e0, le_key e0 = le_key y) l) as Hin by by apply list_elem_of_filter.
      rewrite Hx in Hin. by apply not_elem_of_nil in Hin. }
    assert (len l < c) by naive_solver.
    rewrite (proj2 (N.leb_gt _ _)) by done. rewrite filter_app, head_app. case_decide as Hk.
    + subst k. rewrite Hx. by rewrite filter_cons_True.
    + destruct (head (filter (λ e0, le_key e0 = k) l)); [done|]. by rewrite filter_cons_False.
Qed.

Lemma matching_snoc k es e :
  matching k (es ++ [e]) = matching k es ++ (if decide (key_of e = Some k) then [e] else []).
Proof. unfold matching. rewrite filter_app, filter_cons. by case_decide. Qed.

Lemma summary_snoc k es e :
  summary k (es ++ [e]) =
    match denial_facts e with
    | Some (k', same_exec, logged) =>
        if decide (k' = k)
        then Some (match summary k es with
                   | Some x => lru_hit e same_exec logged x
                   | None => lru_first k e same_exec logged
                   end)
        else summary k es
    | None => summary k es
    end.
Proof.
  assert (∀ x, x ∈ matching k es → is_Some (denial_facts x)) as Hall.
  { intros x [Hx _]%list_elem_of_filter. unfold key_of in Hx. by destruct (denial_facts x). }
  unfold summary. rewrite matching_snoc. unfold key_of in *.
  destruct (denial_facts e) as [[[k' se] lg]|] eqn:He; simpl; [|by rewrite app_nil_r].
  case_decide as Hk; case_decide as Hk'; try congruence; [|by rewrite app_nil_r].
  rewrite last_snoc, head_app. simpl. rewrite He. simpl.
  destruct (matching k es) as [|x xs] eqn:Hm; [done|]. simpl head.
  destruct (last (x :: xs)) as [y|] eqn:Hy; [|by apply last_None in Hy].
  destruct (Hall y) as [[[? ?] ?] Hf]; [by apply last_Some_elem_of|].
  assert (N.min u64_max (len ((x :: xs) ++ [e])) =
          saturating_add u64_max (N.min u64_max (len (x :: xs))) 1) as ->.
  { unfold saturating_add, len. rewrite length_app. simpl. lia. }
  simpl. by rewrite Hf.
Qed.

Lemma recency_length_mono ks ks' :
  (length (recency_list ks) ≤ length (recency_list (ks ++ ks')))%nat.
Proof.
  induction ks' as [|k ks' IH] using rev_ind; [by rewrite app_nil_r|].
  rewrite app_assoc, recency_snoc, length_app. simpl.
  destruct (decide (k ∈ recency_list (ks ++ ks'))) as [Hk|Hk].
  - destruct (filter_ne_split k (recency_list (ks ++ ks')) (recency_NoDup _) Hk) as (l1 & l2 & Heq & _ & _ & ->).
    rewrite Heq in IH. rewrite length_app in *. simpl in *. lia.
  - rewrite filter_ne_id by done. lia.
Qed.

(** While every key fits, nothing is evicted and every key has its exact summary. *)
Lemma lru_exact c es k :
  (length (recency_list (keys_of es)) ≤ N.to_nat c)%nat → 0 < c →
  lru_get k (lru_observe_all c es) = summary k es.
Proof.
  intros Hfit Hc. induction es as [|e es IH] using rev_ind; [done|].
  rewrite keys_of_snoc in Hfit. pose proof (recency_length_mono (keys_of es) (option_list (key_of e))).
  rewrite lru_snoc, summary_snoc, lru_get_observe; [rewrite IH by lia; done|].
  destruct (key_of e) as [k'|] eqn:Hk; [|by right; right].
  assert (le_key <$> lru_observe_all c es = recency_list (keys_of es)) as Hkeys.
  { rewrite lru_retains by done. unfold last_n. by replace (_ - _)%nat with 0%nat by lia. }
  destruct (decide (k' ∈ recency_list (keys_of es))) as [Hin|Hout].
  - right. left. exists k'. by rewrite Hkeys.
  - left. simpl in Hfit. rewrite recency_snoc, filter_ne_id, length_app in Hfit by done. simpl in Hfit.
    unfold len. rewrite <-(length_fmap le_key), Hkeys. lia.
Qed.

(** ** Theorems *)

Section theorems.
Context (iter : gmap DenialKey AggregatedDenial → list Entry).
Hypothesis iter_enumerates : ∀ m, iter m ≡ₚ map_to_list m.

Lemma get_represented l a k :
  represents l a → forget <$> aggregator_get a k = lru_get k (forget <$> l).
Proof.
  intros Hr. unfold aggregator_get, lru_get. destruct (agg_entries a !! k) as [e|] eqn:He.
  - apply (rep_lookup _ _ _ _ Hr) in He as [He Hk]. apply list_elem_of_split in He as (l1 & l2 & ->).
    pose proof (rep_keys _ _ Hr) as Hnd. rewrite <-forget_keys, fmap_app, fmap_cons in Hnd.
    rewrite fmap_app, fmap_cons.
    by destruct (filter_key_split _ (forget e) _ k Hk Hnd) as [-> _].
  - apply (rep_lookup_None _ _ _ Hr) in He. by rewrite filter_key_eq_none by (by rewrite forget_keys).
Qed.

(** C4: simulation. From an empty aggregator, whatever the iteration order of
    the hash map, a stream of observations leaves exactly the entries of the
    abstract least-recently-observed list of the same capacity: sequence
    numbers, their compaction at [u128::MAX] and the search for the victim
    implement recency, and the bound on the number of keys always holds. *)
Theorem observe_all_lru c events :
  0 < c <= usize_max →
  ∃ l, represents l (observe_all iter (mkDenialAggregator c ∅ 0) events) ∧
       forget <$> l = lru_observe_all c events ∧
       aggregator_len (observe_all iter (mkDenialAggregator c ∅ 0) events) <= c.
Proof.
  intros Hc. destruct (observe_all_refines iter iter_enumerates [] _ events (represents_empty c Hc))
    as (l & Hr & Hf & Hcap). exists l. split_and!; [done..|].
  rewrite (rep_len _ _ Hr). simpl in Hcap. rewrite <-Hcap. apply (rep_size _ _ Hr).
Qed.

(** One observation, from any represented state: a denial returns the
    entry it updated, now the most recent of the list; any other event returns
    nothing and changes nothing; the early return of a full but empty map is
    never taken. *)
Theorem observe_entry_step l a event :
  represents l a →
  ∃ l', represents l' (observe iter a event) ∧
    forget <$> l' = lru_observe (agg_capacity a) (forget <$> l) event ∧
    (observe_entry iter a event).2 = (if denial_facts event then last l' else None).
Proof.
  intros Hr. destruct (observe_refines iter iter_enumerates l a event Hr) as (l' & ? & ? & _ & ?). eauto.
Qed.

(** The keys retained after a stream are the [c] most recently observed
    distinct ones. *)
Theorem retained_keys c events k :
  0 < c <= usize_max →
  is_Some (aggregator_get (observe_all iter (mkDenialAggregator c ∅ 0) events) k) ↔
  k ∈ last_n (N.to_nat c) (recency_list (keys_of events)).
Proof.
  intros Hc. destruct (observe_all_refines iter iter_enumerates [] _ events (represents_empty c Hc))
    as (l & Hr & Hf & _). simpl in Hf. rewrite <-lru_retains by lia. unfold lru_observe_all.
  rewrite <-Hf, forget_keys. unfold aggregator_get. rewrite is_Some_alt.
  destruct (_ !! k) as [e|] eqn:He.
  - apply (rep_lookup _ _ _ _ Hr) in He as [He <-]. split; [|done]. intros _. by apply list_elem_of_fmap_2.
  - by apply (rep_lookup_None _ _ _ Hr) in He.
Qed.

Lemma elem_of_recency_list ks k : k ∈ recency_list ks → k ∈ ks.
Proof.
  induction ks as [|k' ks IH] using rev_ind; [done|]. rewrite recency_snoc, !elem_of_app, list_elem_of_filter.
  naive_solver.
Qed.

(** A retained key was observed. *)
Lemma retained_in_keys c events k :
  0 < c <= usize_max → is_Some (aggregator_get (observe_all iter (mkDenialAggregator c ∅ 0) events) k) → k ∈ keys_of events.
Proof.
  intros Hc. destruct (observe_all_refines iter iter_enumerates [] _ events (represents_empty c Hc))
    as (l & Hr & Hf & _). simpl in Hf. intros [e He].
  apply (rep_lookup _ _ _ _ Hr) in He as [He <-]. apply elem_of_recency_list.
  assert (ad_key e ∈ last_n (N.to_nat c) (recency_list (keys_of events))) as Hk.
  { rewrite <-lru_retains by lia. unfold lru_observe_all. rewrite <-Hf, forget_keys. by apply list_elem_of_fmap_2. }
  unfold last_n in Hk. rewrite <- (take_drop (length (recency_list (keys_of events)) - N.to_nat c)). apply elem_of_app. by right.
Qed.

(** While the distinct keys of a stream fit the capacity, the entry of
    each key is the exact summary of its events: their number (saturating at
    [u64::MAX]), the time of the first, and the time, flags and event of the
    last ingested. *)
Theorem exact_while_keys_fit c events k :
  0 < c <= usize_max → (length (recency_list (keys_of events)) ≤ N.to_nat c)%nat →
  forget <$> aggregator_get (observe_all iter (mkDenialAggregator c ∅ 0) events) k = summary k events.
Proof.
  intros Hc Hfit. destruct (observe_all_refines iter iter_enumerates [] _ events (represents_empty c Hc))
    as (l & Hr & Hf & _). rewrite (get_represented l) by done. simpl in Hf. rewrite Hf.
  apply lru_exact; [done|lia].
Qed.
End theorems.

(** ** Concrete streams *)

Definition sample_denial (port t : N) : Event :=
  DenyAccessNet (mkDenyAccessNetEvent (from_nanoseconds t)
    (mkDenialContext (mkHierarchySnapshot (mkLandlockId 0x100000001) None (mkProcessId 7)
       (mkCapturedBytes [] false)) 1 true false)
    NET_ACCESS (mkNetworkAccess 2) 0 port).

Definition sample_denial_key (port : N) : DenialKey :=
  Network (mkNetworkDenialKey (mkLandlockId 0x100000001) NET_ACCESS (mkNetworkAccess 2) 0 port).

Definition sample_denials : list Event :=
  [sample_denial 80 1; sample_denial 443 2; sample_denial 80 3; sample_denial 22 4].

(** An entry observed just before the sequence numbers run out. *)
Definition sample_entry (port sequence : N) : AggregatedDenial :=
  record_first (sample_denial_key port) (sample_denial port 1) true false sequence.

Definition exhausted_aggregator : DenialAggregator :=
  mkDenialAggregator 2
    (list_to_map (keyed [sample_entry 80 (u128_max - 1); sample_entry 443 u128_max])) u128_max.

Lemma exhausted_represented :
  represents [sample_entry 80 (u128_max - 1); sample_entry 443 u128_max] exhausted_aggregator.
Proof.
  split; simpl; try done.
  - apply (bool_decide_unpack _). by vm_compute.
  - repeat constructor.
  - by repeat constructor.
Qed.

Lemma observe_all_lru_witness :
  ∃ l, represents l (observe_all map_to_list (mkDenialAggregator 2 ∅ 0) sample_denials) ∧
       forget <$> l = lru_observe_all 2 sample_denials ∧
       aggregator_len (observe_all map_to_list (mkDenialAggregator 2 ∅ 0) sample_denials) <= 2.
Proof. apply (observe_all_lru map_to_list (λ m, reflexivity _) 2 sample_denials). by vm_compute. Defined.

(** The sequence numbers are compacted and the least recent key makes room. *)
Lemma observe_entry_step_witness :
  ∃ l', represents l' (observe map_to_list exhausted_aggregator (sample_denial 22 9)) ∧
    forget <$> l' = lru_observe 2 (forget <$> [sample_entry 80 (u128_max - 1); sample_entry 443 u128_max])
                      (sample_denial 22 9) ∧
    (observe_entry map_to_list exhausted_aggregator (sample_denial 22 9)).2 = last l'.
Proof.
  apply (observe_entry_step map_to_list (λ m, reflexivity _)
    [sample_entry 80 (u128_max - 1); sample_entry 443 u128_max] exhausted_aggregator).
  exact exhausted_represented.
Defined.

Lemma retained_keys_witness :
  is_Some (aggregator_get (observe_all map_to_list (mkDenialAggregator 2 ∅ 0) sample_denials)
    (sample_denial_key 80)).
Proof.
  apply (retained_keys map_to_list (λ m, reflexivity _) 2 sample_denials (sample_denial_key 80)).
  - by vm_compute.
  - apply (bool_decide_unpack _). by vm_compute.
Defined.

Lemma exact_while_keys_fit_witness :
  forget <$> aggregator_get (observe_all map_to_list (mkDenialAggregator 3 ∅ 0) sample_denials)
    (sample_denial_key 80) = summary (sample_denial_key 80) sample_denials.
Proof.
  apply (exact_while_keys_fit map_to_list (λ m, reflexivity _) 3 sample_denials (sample_denial_key 80)).
  - by vm_compute.
  - apply (bool_decide_unpack _). by vm_compute.
Defined.
