(* ===== verification/StateIter.v ===== *)
(** * Iterating over a state (src/state.rs, src/aggregate.rs)

    The iterators yield the values of a hash map in an order that the program
    does not choose. The order is a class; the theorems hold for every one. *)

From S2P Require Import Prelude CapturedBytes Event State StateWf Aggregate AggregateSpec.

(** An order in which the entries of a [HashMap] are visited: each once. *)
Class HashOrder := {
  visit : ∀ {K A} `{Countable K}, gmap K A → list (K * A);
  visit_all : ∀ {K A} `{Countable K} (m : gmap K A), visit m ≡ₚ map_to_list m;
}.

Section iterators.
Context `{HashOrder}.

(** [HashMap::values]. *)
Definition values {K A} `{Countable K} (m : gmap K A) : list A := (visit m).*2.

Definition iter_filesystem_rules (r : RulesetState) : list FilesystemRuleState := values (rs_filesystem_rules r).
Definition iter_network_rules (r : RulesetState) : list NetworkRuleState := values (rs_network_rules r).
Definition iter_enforcement_events (d : DomainState) : list EnforceDomainEvent := values (ds_enforcement_events d).
Definition iter_rulesets (s : State) : list RulesetState := values (rulesets s).
Definition iter_domains (s : State) : list DomainState := values (domains s).
Definition iter_entries (a : DenialAggregator) : list AggregatedDenial := values (agg_entries a).


(** ** Each value once, under its key *)

(** What an iterator over a map promises, where [key] reads the key off a value. *)
Record enumerates {K A} (key : A → K) (count : N) (get : K → option A) (l : list A) : Prop := {
  en_count : len l = count;
  en_distinct : NoDup (key <$> l);
  en_lookup : ∀ a, a ∈ l ↔ get (key a) = Some a;
}.

Lemma values_enumerates {K A} `{Countable K} (m : gmap K A) (key : A → K) :
  map_Forall (λ k a, key a = k) m → enumerates key (N.of_nat (size m)) (λ k, m !! k) (values m).
Proof.
  intros Hk. unfold values. assert (key <$> (visit m).*2 = (visit m).*1) as Hkeys.
  { rewrite <- list_fmap_compose. apply list_fmap_ext. intros i [k a] Hi. apply list_elem_of_lookup_2 in Hi.
    rewrite visit_all in Hi. apply elem_of_map_to_list in Hi. by apply Hk. }
  split.
  - unfold len. by rewrite length_fmap, visit_all, length_map_to_list.
  - rewrite Hkeys, visit_all. apply NoDup_fst_map_to_list.
  - intros a. rewrite list_elem_of_fmap. split.
    + intros ([k a'] & -> & Hin). rewrite visit_all in Hin. apply elem_of_map_to_list in Hin. simpl.
      by rewrite (Hk k a' Hin).
    + intros Ha. exists (key a, a). split; [done|]. rewrite visit_all. by apply elem_of_map_to_list.
Qed.

(** The iterators show a state completely. In every state that a stream of
    events leaves, the iterators over rulesets and domains, over the rules of
    each ruleset and over the enforcement events of each domain yield as many
    values as the count says, no two of them under the same identity, and
    exactly those that the lookup by identity finds. *)
Theorem iterators_exact es :
  let s := replay state_new es in
  enumerates rs_id (ruleset_count s) (ruleset s) (iter_rulesets s) ∧
  enumerates ds_id (domain_count s) (domain s) (iter_domains s) ∧
  (∀ r, r ∈ iter_rulesets s →
     enumerates (λ rule, (fr_device rule, fr_inode rule)) (filesystem_rule_count r)
       (λ key, filesystem_rule r key.1 key.2) (iter_filesystem_rules r) ∧
     enumerates nr_port (network_rule_count r) (network_rule r) (iter_network_rules r)) ∧
  (∀ d, d ∈ iter_domains s →
     enumerates ede_enforcing_tid (enforcement_event_count d) (enforcement_event d) (iter_enforcement_events d)).
Proof.
  assert (state_wf (replay state_new es)) as [Hr Hd _] by apply replay_wf, state_new_wf.
  set (s := replay state_new es) in *. clearbody s. cbv zeta.
  assert (enumerates rs_id (ruleset_count s) (ruleset s) (iter_rulesets s)) as Her.
  { apply values_enumerates. intros id r Hi. by apply Hr in Hi as []. }
  assert (enumerates ds_id (domain_count s) (domain s) (iter_domains s)) as Hed.
  { apply values_enumerates. intros id d Hi. by apply Hd in Hi as []. }
  split_and!; [done..| |].
  - intros r Hin. apply (en_lookup _ _ _ _ Her) in Hin. destruct (Hr _ _ Hin). split.
    + pose proof (values_enumerates (rs_filesystem_rules r) (λ rule, (fr_device rule, fr_inode rule))) as He.
      destruct He as [H1 H2 H3]; [intros k a Ha; symmetry; by apply (rwf_fs_keys k a)|]. by split.
    + apply values_enumerates. intros k a Ha. symmetry. by apply (rwf_net_keys k a).
  - intros d Hin. apply (en_lookup _ _ _ _ Hed) in Hin. destruct (Hd _ _ Hin). apply values_enumerates. intros k a Ha. by apply dwf_enforcement in Ha as [].
Qed.

(** The same of the retained denials, after every stream of events and for
    every capacity: the iterator yields each retained entry once, under its
    key, and as many as the length and at most the capacity. *)
Theorem entries_exact c es :
  0 < c <= usize_max →
  let a := observe_all visit (mkDenialAggregator c ∅ 0) es in
  enumerates ad_key (aggregator_len a) (aggregator_get a) (iter_entries a) ∧ len (iter_entries a) <= c.
Proof.
  intros Hc. cbv zeta.
  destruct (observe_all_refines visit visit_all [] _ es (represents_empty c Hc)) as (l & Hr & _ & Hcap).
  set (a := observe_all _ _ _) in *. clearbody a.
  assert (enumerates ad_key (aggregator_len a) (aggregator_get a) (iter_entries a)) as He.
  { apply values_enumerates. intros k e Hk. by apply (rep_lookup l a k e Hr) in Hk as [_ ?]. }
  split; [done|]. rewrite (en_count _ _ _ _ He), (rep_len _ _ Hr). simpl in Hcap. rewrite <- Hcap. apply (rep_size _ _ Hr).
Qed.
End iterators.

(** The order of stdpp's maps. *)
#[local] Instance canonical_order : HashOrder := {| visit _ _ _ _ m := map_to_list m; visit_all _ _ _ _ m := reflexivity _ |}.

Lemma entries_exact_witness :
  let a := observe_all visit (mkDenialAggregator 2 ∅ 0) sample_denials in
  enumerates ad_key (aggregator_len a) (aggregator_get a) (iter_entries a) ∧ len (iter_entries a) <= 2.
Proof. apply (entries_exact 2 sample_denials). split; vm_compute; congruence. Defined.
