(* ===== verification/Tracepoint.v ===== *)
(** * Kernel-support diagnosis (src/collector/tracepoint.rs)

    A failed load is reclassified as an unsupported kernel only when the
    canonical BTF conclusively lacks a tracepoint of the interface. The BTF
    parser is not part of the program: its answer is the argument [btf], the
    names of the typedefs in file order ([None] for an unnamed one) or the
    error of the parse. *)

From S2P Require Import Prelude.

Section tracepoint.
(** libbpf_rs::Error, of which the code uses only its kind. *)
Context {BpfError : Type}.

(** libbpf_rs::ErrorKind, non-exhaustive: the code distinguishes two kinds. *)
Inductive ErrorKind := NotFound | OtherKind | AnotherKind.

Context (error_kind : BpfError → ErrorKind).

Definition GENERATION_1_TARGETS : list (list byte) := bytes_of_string <$> [
  "btf_trace_landlock_create_ruleset";
  "btf_trace_landlock_add_rule_path_beneath";
  "btf_trace_landlock_add_rule_net_port";
  "btf_trace_landlock_create_domain";
  "btf_trace_landlock_enforce_domain";
  "btf_trace_landlock_deny_access_fs";
  "btf_trace_landlock_deny_access_net";
  "btf_trace_landlock_deny_ptrace";
  "btf_trace_landlock_deny_scope_signal";
  "btf_trace_landlock_deny_scope_abstract_unix_socket";
  "btf_trace_landlock_free_domain";
  "btf_trace_landlock_free_ruleset"
]%string.

Definition GENERATION_1_COMPLETE : N := N.shiftl 1 (len GENERATION_1_TARGETS) - 1.

Definition should_diagnose (kind : ErrorKind) : bool :=
  match kind with NotFound | OtherKind => true | AnotherKind => false end.

(** [1_u16.checked_shl(index)]: [None] from the width of the type on. *)
Definition generation_1_target_bit (index : N) : option N :=
  if (index <=? u32_max) && (index <? 16) then Some (N.shiftl 1 index) else None.

Definition mark_generation_1_target (mask : N) (name : list byte) : N :=
  match position (λ target, bool_decide (name = target)) GENERATION_1_TARGETS with
  | Some index =>
      match generation_1_target_bit index with
      | Some bit => N.lor mask bit
      | None => mask
      end
  | None => mask
  end.

(** The loop over the typedefs, with its early exit. *)
Fixpoint mark_all (mask : N) (typedefs : list (option (list byte))) : N :=
  match typedefs with
  | [] => mask
  | Some name :: rest =>
      let mask := mark_generation_1_target mask name in
      if mask =? GENERATION_1_COMPLETE then mask else mark_all mask rest
  | None :: rest => mark_all mask rest
  end.

Definition generation_1_target_mask (btf : result (list (option (list byte))) BpfError) :
    result N BpfError :=
  let? typedefs := btf in Ok (mark_all 0 typedefs).

Definition generation_1_is_missing_with (load_error : BpfError)
    (target_mask : unit → result N BpfError) : bool :=
  should_diagnose (error_kind load_error) &&
  match target_mask () with
  | Ok mask => negb (mask =? GENERATION_1_COMPLETE)
  | Err _ => false
  end.

Definition generation_1_is_missing (btf : result (list (option (list byte))) BpfError)
    (load_error : BpfError) : bool :=
  generation_1_is_missing_with load_error (λ _, generation_1_target_mask btf).
End tracepoint.

(** ** The mask is the set of targets found *)

(** Bit [i] of the mask stands for the [i]-th target. *)
Definition marks (mask : N) (names : list (option (list byte))) : Prop :=
  ∀ i, N.testbit mask i = true ↔
    ∃ target, GENERATION_1_TARGETS !! N.to_nat i = Some target ∧ Some target ∈ names.

Lemma targets_NoDup : NoDup GENERATION_1_TARGETS.
Proof. apply (bool_decide_unpack _). by vm_compute. Qed.

Lemma position_lookup {A} (p : A → bool) l n :
  position p l = Some n → ∃ x, l !! N.to_nat n = Some x ∧ p x = true.
Proof.
  intros (l1 & x & l2 & -> & <- & Hx & _)%position_Some. exists x. split; [|done].
  unfold len. rewrite Nat2N.id. by rewrite list_lookup_middle.
Qed.

Lemma complete_testbit i : N.testbit GENERATION_1_COMPLETE i = (i <? 12).
Proof.
  change GENERATION_1_COMPLETE with (N.ones 12). destruct (N.ltb_spec i 12).
  - by apply N.ones_spec_low.
  - by apply N.ones_spec_high.
Qed.

Lemma marks_step mask names name :
  marks mask names → marks (mark_generation_1_target mask name) (names ++ [Some name]).
Proof.
  intros Hm i. unfold mark_generation_1_target.
  destruct (position _ GENERATION_1_TARGETS) as [index|] eqn:Hp.
  - apply position_lookup in Hp as (target & Hl & ->%bool_decide_eq_true).
    assert (N.to_nat index < length GENERATION_1_TARGETS)%nat as Hlt by by apply lookup_lt_Some in Hl.
    simpl in Hlt. unfold generation_1_target_bit.
    rewrite (proj2 (N.leb_le _ _)), (proj2 (N.ltb_lt _ _)) by (unfold u32_max; lia). simpl.
    rewrite N.lor_spec, orb_true_iff, (Hm i), N.shiftl_1_l, N.pow2_bits_eqb, N.eqb_eq.
    setoid_rewrite elem_of_app. setoid_rewrite list_elem_of_singleton. split.
    + intros [(t & ? & ?)| ->]; eauto.
    + intros (t & Ht & [Hin|[= ->]]); [eauto|]. right.
      apply N2Nat.inj, (NoDup_lookup _ _ _ _ targets_NoDup Hl Ht).
  - apply position_None in Hp. rewrite Forall_forall in Hp. rewrite (Hm i).
    setoid_rewrite elem_of_app. setoid_rewrite list_elem_of_singleton. split.
    + intros (t & ? & ?). eauto.
    + intros (t & Ht & [Hin|[= ->]]); [eauto|]. apply list_elem_of_lookup_2, Hp in Ht.
      by apply bool_decide_eq_false in Ht.
Qed.

Lemma marks_complete mask names :
  marks mask names →
  mask = GENERATION_1_COMPLETE ↔ ∀ target, target ∈ GENERATION_1_TARGETS → Some target ∈ names.
Proof.
  intros Hm. split.
  - intros -> target (i & Hi)%list_elem_of_lookup.
    assert (i < 12)%nat as Hlt by exact (lookup_lt_Some _ _ _ Hi).
    destruct (Hm (N.of_nat i)) as [(t & Ht & Hin) _].
    + rewrite complete_testbit. apply N.ltb_lt. lia.
    + rewrite Nat2N.id in Ht. by simplify_eq.
  - intros Hall. apply N.bits_inj. intros i. rewrite complete_testbit.
    apply eq_true_iff_eq. rewrite (Hm i), N.ltb_lt. split.
    + intros (t & Ht & _). apply lookup_lt_Some in Ht. simpl in Ht. lia.
    + intros Hi. destruct (lookup_lt_is_Some_2 GENERATION_1_TARGETS (N.to_nat i)) as [t Ht];
        [simpl; lia|]. eauto using list_elem_of_lookup_2.
Qed.

Lemma marks_skip mask names : marks mask names → marks mask (names ++ [None]).
Proof.
  intros Hm i. rewrite (Hm i). setoid_rewrite elem_of_app. setoid_rewrite list_elem_of_singleton.
  naive_solver.
Qed.

(** The early exit loses nothing: the mask is complete exactly when all targets are present. *)
Lemma mark_all_complete typedefs mask names :
  marks mask names →
  mark_all mask typedefs = GENERATION_1_COMPLETE ↔
  ∀ target, target ∈ GENERATION_1_TARGETS → Some target ∈ names ++ typedefs.
Proof.
  revert mask names. induction typedefs as [|[name|] rest IH]; intros mask names Hm.
  - rewrite app_nil_r. by apply marks_complete.
  - cbn [mark_all]. apply marks_step with (name := name) in Hm. rewrite (cons_middle _ names), app_assoc.
    destruct (N.eqb_spec (mark_generation_1_target mask name) GENERATION_1_COMPLETE) as [Hc|Hc].
    + split; [|done]. intros _ target Ht. apply elem_of_app. left.
      by apply (proj1 (marks_complete _ _ Hm) Hc).
    + by apply IH.
  - cbn [mark_all]. rewrite (cons_middle _ names), app_assoc. by apply IH, marks_skip.
Qed.

Lemma marks_empty : marks 0 [].
Proof.
  intros i. rewrite N.bits_0. split; [done|]. intros (? & _ & []%not_elem_of_nil).
Qed.

Lemma missing_generation_iff {BpfError} (error_kind : BpfError → ErrorKind) btf load_error :
  generation_1_is_missing error_kind btf load_error = true ↔
  error_kind load_error ≠ AnotherKind ∧
  ∃ typedefs, btf = Ok typedefs ∧
    ∃ target, target ∈ GENERATION_1_TARGETS ∧ Some target ∉ typedefs.
Proof.
  unfold generation_1_is_missing, generation_1_is_missing_with, generation_1_target_mask.
  rewrite andb_true_iff. destruct btf as [typedefs|]; simpl; [|naive_solver].
  pose proof (mark_all_complete typedefs 0 [] marks_empty) as Hm. simpl in Hm.
  assert (should_diagnose (error_kind load_error) = true ↔ error_kind load_error ≠ AnotherKind) as ->
    by by destruct (error_kind load_error).
  rewrite negb_true_iff, N.eqb_neq, Hm. split.
  - intros [Hk Hn]. split; [done|]. exists typedefs. split; [done|].
    destruct (decide (Exists (λ target, Some target ∉ typedefs) GENERATION_1_TARGETS)) as [He|He].
    + by apply Exists_exists in He.
    + destruct Hn. intros target Ht. destruct (decide (Some target ∈ typedefs)) as [|Hx]; [done|].
      destruct He. apply Exists_exists. eauto.
  - intros (Hk & ? & [= <-] & target & Ht & Hx). split; [done|]. eauto.
Qed.

(** A load failure is reclassified as an unsupported kernel exactly when
    its kind is one a missing tracepoint produces, the canonical BTF could be
    parsed, and one of the twelve targets is not among its typedefs; the early
    exit of the scan and the width of the mask do not matter. *)
Theorem missing_generation_spec {BpfError} (error_kind : BpfError → ErrorKind) btf load_error :
  generation_1_is_missing error_kind btf load_error = true ↔
  error_kind load_error ≠ AnotherKind ∧
  ∃ typedefs, btf = Ok typedefs ∧
    ∃ target, target ∈ GENERATION_1_TARGETS ∧ Some target ∉ typedefs.
Proof. apply missing_generation_iff. Qed.
