(* ===== verification/Collector.v ===== *)
(** * Event collection (src/collector.rs)

    The worker thread decodes ring-buffer samples into a bounded channel and
    reports its own end through a second channel of three slots; the consumer
    thread receives from both. This file has the operations of each half as
    functions of the state they share; [CollectorSystem] interleaves them.

    A [sync_channel] is a bounded queue with its two ends. [recv_timeout] here
    is the answer at the moment it returns, where "not ready" means that the
    time is over; [Deadline] has the waiting itself. Boxed errors are the
    constructors of [ErrorDetail]; libbpf's errors are the type [BpfError]. *)

From S2P Require Import Prelude CapturedBytes Event Wire.

Definition DEFAULT_EVENT_CAPACITY : N := 1024.
Definition MIN_EVENT_CAPACITY : N := 1.
Definition MAX_EVENT_CAPACITY : N := 65536.
Definition TERMINAL_CAPACITY : N := 3.

(** ** Configuration *)

Inductive CollectorConfigErrorKind := InvalidEventCapacity.

Record CollectorConfigError := mkCollectorConfigError {
  cce_kind : CollectorConfigErrorKind;
  cce_configured : N;
}.

Record CollectorConfigBuilder := mkCollectorConfigBuilder { ccb_event_capacity : N }.
Record CollectorConfig := mkCollectorConfig { cc_event_capacity : N }.

Definition config_builder_default : CollectorConfigBuilder :=
  mkCollectorConfigBuilder DEFAULT_EVENT_CAPACITY.

Definition event_capacity (_ : CollectorConfigBuilder) (capacity : N) : CollectorConfigBuilder :=
  mkCollectorConfigBuilder capacity.

Definition config_build (b : CollectorConfigBuilder) : result CollectorConfig CollectorConfigError :=
  if negb ((MIN_EVENT_CAPACITY <=? ccb_event_capacity b) &&
           (ccb_event_capacity b <=? MAX_EVENT_CAPACITY))
  then Err (mkCollectorConfigError InvalidEventCapacity (ccb_event_capacity b))
  else Ok (mkCollectorConfig (ccb_event_capacity b)).

(** ** Channels *)

Record Chan (A : Type) := mkChan {
  ch_capacity : N;
  ch_queue : list A;
  ch_senders : bool;
  ch_receiver : bool;
}.
Arguments mkChan {A} _ _ _ _.
Arguments ch_capacity {A} _.
Arguments ch_queue {A} _.
Arguments ch_senders {A} _.
Arguments ch_receiver {A} _.

Inductive SendOutcome := Sent | Full | SendDisconnected.
#[export] Instance SendOutcome_eq_dec : EqDecision SendOutcome.
Proof. solve_decision. Defined.

Inductive RecvOutcome (A : Type) := Received (a : A) | NotReady | RecvDisconnected.
Arguments Received {A} _.
Arguments NotReady {A}.
Arguments RecvDisconnected {A}.

Definition sync_channel {A} (capacity : N) : Chan A := mkChan capacity [] true true.

Definition try_send {A} (c : Chan A) (a : A) : Chan A * SendOutcome :=
  if negb (ch_receiver c) then (c, SendDisconnected)
  else if ch_capacity c <=? len (ch_queue c) then (c, Full)
  else (mkChan (ch_capacity c) (ch_queue c ++ [a]) (ch_senders c) (ch_receiver c), Sent).

(** Buffered messages are received even after every sender is gone. *)
Definition chan_recv {A} (c : Chan A) : Chan A * RecvOutcome A :=
  match ch_queue c with
  | a :: rest => (mkChan (ch_capacity c) rest (ch_senders c) (ch_receiver c), Received a)
  | [] => (c, if ch_senders c then NotReady else RecvDisconnected)
  end.

Definition drop_senders {A} (c : Chan A) : Chan A :=
  mkChan (ch_capacity c) (ch_queue c) false (ch_receiver c).

Definition drop_receiver {A} (c : Chan A) : Chan A :=
  mkChan (ch_capacity c) [] (ch_senders c) false.

(** ** Errors and deliveries *)

Inductive CollectorReceiveErrorKind :=
| MalformedSample
| OutputQueueFull
| PollFailure
| WorkerPanic
| WorkerStop.

(** A panic payload is a [String], a [&'static str], or some other value, whose
    destructor may panic in turn. *)
Inductive PanicPayload :=
| StringPayload (message : string)
| StrPayload (message : string)
| OpaquePayload (on_drop : option PanicPayload).

Record CollectorWorkerPanic := mkCollectorWorkerPanic { panic_message : option string }.

(** The value [from_payload] returns; [Panic] shows that dropping an opaque
    payload does not unwind. *)
Definition from_payload (payload : PanicPayload) : CollectorWorkerPanic :=
  match payload with
  | StringPayload message => mkCollectorWorkerPanic (Some message)
  | StrPayload message => mkCollectorWorkerPanic (Some message)
  | OpaquePayload _ => mkCollectorWorkerPanic None
  end.

Section collector.
Context {BpfError : Type}.


Inductive ErrorDetail :=
| SourceDecode (error : DecodeError)
| SourceBpf (error : BpfError)
| SourcePanic (panic : CollectorWorkerPanic)
| Static (detail : string).

Record CollectorReceiveError := mkCollectorReceiveError {
  error_kind_of : CollectorReceiveErrorKind;
  error_detail : ErrorDetail;
}.

Definition receive_error (kind : CollectorReceiveErrorKind) (message : string) :
    CollectorReceiveError :=
  mkCollectorReceiveError kind (Static message).

Definition worker_stop : CollectorReceiveError :=
  receive_error WorkerStop "collector worker is no longer running".

Definition output_queue_full : CollectorReceiveError :=
  receive_error OutputQueueFull "one or more delivery entries were omitted".

Definition worker_receive_panic (payload : PanicPayload) : CollectorReceiveError :=
  mkCollectorReceiveError WorkerPanic (SourcePanic (from_payload payload)).

Definition Delivery : Type := result Event CollectorReceiveError.

Record DeliveryEntry := mkDeliveryEntry {
  delivery : Delivery;
  output_full_before : bool;
}.

(** ** The state the two halves share *)

Record Shared := mkShared {
  deliveries : Chan DeliveryEntry;
  terminal : Chan CollectorReceiveError;
  running : bool;
  output_full_pending : bool;
  callback_panic : option PanicPayload;
}.

Definition shared_new (capacity : N) : Shared :=
  mkShared (sync_channel capacity) (sync_channel TERMINAL_CAPACITY) true false None.

Definition set_deliveries (c : Chan DeliveryEntry) (s : Shared) : Shared :=
  mkShared c (terminal s) (running s) (output_full_pending s) (callback_panic s).
Definition set_terminal (c : Chan CollectorReceiveError) (s : Shared) : Shared :=
  mkShared (deliveries s) c (running s) (output_full_pending s) (callback_panic s).
Definition set_running (b : bool) (s : Shared) : Shared :=
  mkShared (deliveries s) (terminal s) b (output_full_pending s) (callback_panic s).
Definition set_output_full_pending (b : bool) (s : Shared) : Shared :=
  mkShared (deliveries s) (terminal s) (running s) b (callback_panic s).
Definition set_callback_panic (p : option PanicPayload) (s : Shared) : Shared :=
  mkShared (deliveries s) (terminal s) (running s) (output_full_pending s) p.

(** [let _ = terminal.try_send(error);]. *)
Definition send_terminal (error : CollectorReceiveError) (s : Shared) : Shared :=
  set_terminal (try_send (terminal s) error).1 s.

(** ** The worker half *)

Section worker.
Context (target_endian : endian).

Definition malformed (error : DecodeError) : CollectorReceiveError :=
  mkCollectorReceiveError MalformedSample (SourceDecode error).

Definition decoded (data : list byte) : Delivery := map_err malformed (decode target_endian data).

(** [DeliveryQueue::deliver] after its test of [running], with the code it
    returns to the ring buffer. *)
Definition deliver_entry (data : list byte) (s : Shared) : Shared * Z :=
  let entry := mkDeliveryEntry (decoded data) (output_full_pending s) in
  let '(c, outcome) := try_send (deliveries s) entry in
  let s := set_deliveries c s in
  match outcome with
  | Sent => (set_output_full_pending false s, 0%Z)
  | Full => (set_output_full_pending true s, 0%Z)
  | SendDisconnected => (set_running false s, (-1)%Z)
  end.

(** [DeliveryQueue::deliver]. The consumer may clear [running] between the test
    and the rest; [CollectorSystem] takes them as two steps. *)
Definition deliver (data : list byte) (s : Shared) : Shared * Z :=
  if negb (running s) then (s, (-1)%Z) else deliver_entry data s.

(** A callback that returns a code, or panics. *)
Definition catch_callback_panic (callback : Shared → result (Shared * Z) (Shared * PanicPayload))
    (s : Shared) : Shared * Z :=
  match callback s with
  | Ok r => r
  | Err (s, payload) => (set_callback_panic (Some payload) s, (-1)%Z)
  end.

Definition take_callback_panic (s : Shared) : Shared * option PanicPayload :=
  (set_callback_panic None s, callback_panic s).

Definition report_callback_panic (s : Shared) : Shared * bool :=
  let '(s, taken) := take_callback_panic s in
  match taken with
  | None => (s, false)
  | Some payload =>
      let pending := output_full_pending s in
      let s := set_output_full_pending false s in
      let s := if pending then send_terminal output_queue_full s else s in
      (send_terminal (worker_receive_panic payload) s, true)
  end.

Definition poll_failure (error : BpfError) : CollectorReceiveError :=
  mkCollectorReceiveError PollFailure (SourceBpf error).

(** The body of the loop after [ring.poll] returned [polled]; [true] when the
    loop goes on. *)
Definition after_poll (polled : result unit BpfError) (s : Shared) : Shared * bool :=
  let '(s, reported) := report_callback_panic s in
  if reported then (s, false)
  else
    match polled with
    | Ok _ => (s, true)
    | Err error =>
        if running s then
          let s := if output_full_pending s then send_terminal output_queue_full s else s in
          (send_terminal (poll_failure error) s, false)
        else (s, false)
    end.
End worker.

(** ** The consumer half

    The consumer owns [pending_delivery]; the other fields of [Collector] are
    ends of the shared channels. *)

Record Consumer := mkConsumer { pending_delivery : option Delivery }.

Inductive TryReceiveError :=
| TryEmpty
| TryCollector (error : CollectorReceiveError).

Inductive ReceiveTimeoutError :=
| Timeout
| TimeoutCollector (error : CollectorReceiveError).

Definition unpair (c : Consumer) (entry : DeliveryEntry) : Consumer * Delivery :=
  if output_full_before entry
  then (mkConsumer (Some (delivery entry)), Err output_queue_full)
  else (c, delivery entry).

Definition worker_termination_nonblocking : option CollectorReceiveError := Some worker_stop.

Definition terminal_now_nonblocking (s : Shared) : Shared * option CollectorReceiveError :=
  let '(ch, outcome) := chan_recv (terminal s) in
  let s := set_terminal ch s in
  match outcome with
  | Received error => (s, Some error)
  | RecvDisconnected => (s, worker_termination_nonblocking)
  | NotReady => (s, None)
  end.

Definition terminal_or_stop_nonblocking (s : Shared) : Shared * option CollectorReceiveError :=
  let '(ch, outcome) := chan_recv (terminal s) in
  let s := set_terminal ch s in
  match outcome with
  | Received error => (s, Some error)
  | NotReady => (s, None)
  | RecvDisconnected => (s, worker_termination_nonblocking)
  end.

Definition terminal_until (s : Shared) : Shared * option CollectorReceiveError :=
  let '(ch, outcome) := chan_recv (terminal s) in
  let s := set_terminal ch s in
  match outcome with
  | Received error => (s, Some error)
  | NotReady => terminal_now_nonblocking s
  | RecvDisconnected => (s, Some worker_stop)
  end.

(** [map_or(Err(Empty), |error| Err(Collector(error)))]. *)
Definition terminal_result {E} (none : E) (some : CollectorReceiveError → E)
    (o : option CollectorReceiveError) : result Event E :=
  match o with
  | Some error => Err (some error)
  | None => Err none
  end.

Definition try_recv (c : Consumer) (s : Shared) :
    Consumer * Shared * result Event TryReceiveError :=
  match pending_delivery c with
  | Some d => (mkConsumer None, s, map_err TryCollector d)
  | None =>
      let '(ch, outcome) := chan_recv (deliveries s) in
      let s := set_deliveries ch s in
      match outcome with
      | Received entry =>
          let '(c, d) := unpair c entry in (c, s, map_err TryCollector d)
      | NotReady =>
          let '(s, o) := terminal_now_nonblocking s in
          (c, s, terminal_result TryEmpty TryCollector o)
      | RecvDisconnected =>
          let '(s, o) := terminal_or_stop_nonblocking s in
          (c, s, terminal_result TryEmpty TryCollector o)
      end
  end.

Definition recv_timeout (c : Consumer) (s : Shared) :
    Consumer * Shared * result Event ReceiveTimeoutError :=
  match pending_delivery c with
  | Some d => (mkConsumer None, s, map_err TimeoutCollector d)
  | None =>
      let '(ch, outcome) := chan_recv (deliveries s) in
      let s := set_deliveries ch s in
      match outcome with
      | Received entry =>
          let '(c, d) := unpair c entry in (c, s, map_err TimeoutCollector d)
      | NotReady =>
          let '(s, o) := terminal_now_nonblocking s in
          (c, s, terminal_result Timeout TimeoutCollector o)
      | RecvDisconnected =>
          let '(s, o) := terminal_until s in
          (c, s, terminal_result Timeout TimeoutCollector o)
      end
  end.

(** [Drop for Collector] stops the worker; the fields, and with them the
    receiving ends, are dropped after it. *)
Definition drop_collector (s : Shared) : Shared := set_running false s.
End collector.
