(* ===== verification/CollectorSystem.v ===== *)
(** * The two halves of a collector, interleaved

    A step relation over the shared state, the program point of the worker
    and the program point of the consumer. The environment chooses the samples
    the ring buffer holds, what [poll] returns and where a panic starts.

    A step accesses the shared memory at most once, but for accesses that the
    other thread cannot tell apart: [callback_panic] and [output_full_pending]
    are the worker's own, and [running] is only ever cleared. So a callback takes
    two steps, the test of [running] and the rest, a receive takes one step per
    channel, and the worker sends its errors one by one. *)

From S2P Require Import Prelude CapturedBytes Event Wire Collector.

Section system.
Context {BpfError : Type} (target_endian : endian).

Abbreviation Shared := (@Shared BpfError).
Abbreviation Delivery := (@Delivery BpfError).
Abbreviation DeliveryEntry := (@DeliveryEntry BpfError).
Abbreviation Consumer := (@Consumer BpfError).
Abbreviation ReceiveError := (@CollectorReceiveError BpfError).

(** Where the worker is: at the loop's test, inside [poll], inside a callback
    that found [running] set, about to send the errors that end the loop,
    unwinding or returning from [worker_main], after it with the caught panic,
    done. *)
Inductive WorkerPoint :=
| Looping
| InPoll
| InCallback (data : list byte)
| Reporting (errors : list ReceiveError)
| Returning (panic : option PanicPayload)
| Caught (panic : option PanicPayload)
| Finished.

(** Where the consumer is: between calls, inside a receive that found the
    delivery channel empty, inside [drop], gone. *)
Inductive ConsumerPoint :=
| Idle
| AtTerminal
| Dropping
| Gone.

Record System := mkSystem {
  shared : Shared;
  worker : WorkerPoint;
  consumer : Consumer;
  consumer_point : ConsumerPoint;
}.

Definition system_new (capacity : N) : System :=
  mkSystem (shared_new capacity) Looping (mkConsumer None) Idle.

Inductive Label :=
| Internal
| Accepted (d : Delivery)
| Omitted (d : Delivery)
| Announced (error : ReceiveError)
| Got (d : Delivery)
| GotTerminal (error : ReceiveError)
| GotStop.

(** What became of the sample in [deliver_entry]. *)
Definition sample_label (data : list byte) (s : Shared) : Label :=
  match (try_send (deliveries s) (mkDeliveryEntry (decoded target_endian data) (output_full_pending s))).2 with
  | Sent => Accepted (decoded target_endian data)
  | Full => Omitted (decoded target_endian data)
  | SendDisconnected => Internal
  end.

(** The errors [after_poll] sends, in order. *)
Definition announcements (polled : result unit BpfError) (s : Shared) : list ReceiveError :=
  let notice := if output_full_pending s then [output_queue_full] else [] in
  match callback_panic s, polled with
  | Some payload, _ => notice ++ [worker_receive_panic payload]
  | None, Err error => if running s then notice ++ [poll_failure error] else []
  | None, Ok _ => []
  end.

(** What [after_poll] does to the memory but for sending. *)
Definition after_poll_unsent (polled : result unit BpfError) (s : Shared) : Shared :=
  set_terminal (terminal s) (after_poll polled s).1.

Inductive step : System → Label → System → Prop :=
| w_enter s c p :
    running s = true → step (mkSystem s Looping c p) Internal (mkSystem s InPoll c p)
| w_leave s c p :
    running s = false → step (mkSystem s Looping c p) Internal (mkSystem s (Returning None) c p)
| w_callback s c p data :
    running s = true → step (mkSystem s InPoll c p) Internal (mkSystem s (InCallback data) c p)
| w_callback_stopped s c p (data : list byte) :
    running s = false → step (mkSystem s InPoll c p) Internal (mkSystem s InPoll c p)
| w_sample s c p data :
    step (mkSystem s (InCallback data) c p) (sample_label data s)
         (mkSystem (deliver_entry target_endian data s).1 InPoll c p)
| w_callback_panic s w c p payload :
    w = InPoll ∨ (∃ data, w = InCallback data) →
    step (mkSystem s w c p) Internal
         (mkSystem (catch_callback_panic (λ s, Err (s, payload)) s).1 InPoll c p)
| w_poll_return s c p polled :
    step (mkSystem s InPoll c p) Internal
         (mkSystem (after_poll_unsent polled s)
            (if (after_poll polled s).2 then Looping else Reporting (announcements polled s)) c p)
| w_report s c p error errors :
    step (mkSystem s (Reporting (error :: errors)) c p) (Announced error)
         (mkSystem (send_terminal error s) (Reporting errors) c p)
| w_reported s c p :
    step (mkSystem s (Reporting []) c p) Internal (mkSystem s (Returning None) c p)
| w_panic s w c p payload :
    w = Looping ∨ w = InPoll ∨ w = Returning None →
    step (mkSystem s w c p) Internal (mkSystem s (Returning (Some payload)) c p)
| w_drop_deliveries s c p panic :
    step (mkSystem s (Returning panic) c p) Internal
         (mkSystem (set_deliveries (drop_senders (deliveries s)) s) (Caught panic) c p)
| w_caught s c p payload :
    step (mkSystem s (Caught (Some payload)) c p) (Announced (worker_receive_panic payload))
         (mkSystem (send_terminal (worker_receive_panic payload) s) (Caught None) c p)
| w_finish s c p :
    step (mkSystem s (Caught None) c p) Internal
         (mkSystem (set_terminal (drop_senders (terminal s)) s) Finished c p)
| c_pending s w d :
    step (mkSystem s w (mkConsumer (Some d)) Idle) (Got d) (mkSystem s w (mkConsumer None) Idle)
| c_received s w ch entry :
    chan_recv (deliveries s) = (ch, Received entry) →
    step (mkSystem s w (mkConsumer None) Idle) (Got (unpair (mkConsumer None) entry).2)
         (mkSystem (set_deliveries ch s) w (unpair (mkConsumer None) entry).1 Idle)
| c_not_received s w ch :
    chan_recv (deliveries s) = (ch, NotReady) ∨ chan_recv (deliveries s) = (ch, RecvDisconnected) →
    step (mkSystem s w (mkConsumer None) Idle) Internal (mkSystem s w (mkConsumer None) AtTerminal)
| c_terminal s w c ch error :
    chan_recv (terminal s) = (ch, Received error) →
    step (mkSystem s w c AtTerminal) (GotTerminal error) (mkSystem (set_terminal ch s) w c Idle)
| c_stopped s w c ch :
    chan_recv (terminal s) = (ch, RecvDisconnected) →
    step (mkSystem s w c AtTerminal) GotStop (mkSystem s w c Idle)
| c_none s w c ch :
    chan_recv (terminal s) = (ch, NotReady) →
    step (mkSystem s w c AtTerminal) Internal (mkSystem s w c Idle)
| c_drop s w c :
    step (mkSystem s w c Idle) Internal (mkSystem (drop_collector s) w c Dropping)
| c_gone s w c :
    step (mkSystem s w c Dropping) Internal
         (mkSystem (set_terminal (drop_receiver (terminal s))
                     (set_deliveries (drop_receiver (deliveries s)) s)) w c Gone).

(** The systems reachable from a prepared collector, with the labels passed. *)
Inductive reaches (capacity : N) : list Label → System → Prop :=
| reach_new : reaches capacity [] (system_new capacity)
| reach_step tr s l s' :
    reaches capacity tr s → step s l s' → reaches capacity (tr ++ [l]) s'.

(** ** Reading a trace *)

(** The samples that met the queue, each with whether it was accepted. *)
Definition sample_of (l : Label) : option (Delivery * bool) :=
  match l with
  | Accepted d => Some (d, true)
  | Omitted d => Some (d, false)
  | _ => None
  end.

Definition samples (tr : list Label) : list (Delivery * bool) := omap sample_of tr.

Definition got_of (l : Label) : option Delivery :=
  match l with Got d => Some d | _ => None end.

Definition received (tr : list Label) : list Delivery := omap got_of tr.

Definition terminal_of (l : Label) : option ReceiveError :=
  match l with GotTerminal e => Some e | _ => None end.

Definition received_terminal (tr : list Label) : list ReceiveError := omap terminal_of tr.

Definition announced_of (l : Label) : option ReceiveError :=
  match l with Announced e => Some e | _ => None end.

Definition announced (tr : list Label) : list ReceiveError := omap announced_of tr.

(** ** What the consumer is owed

    Every accepted delivery in order, with one notice before the first one
    accepted after one or more omissions. [omitting] tells whether the samples
    just before were omitted. *)
Fixpoint account (omitting : bool) (h : list (Delivery * bool)) : list Delivery :=
  match h with
  | [] => []
  | (d, true) :: h' => (if omitting then [Err output_queue_full] else []) ++ d :: account false h'
  | (_, false) :: h' => account true h'
  end.

Fixpoint omitting_after (omitting : bool) (h : list (Delivery * bool)) : bool :=
  match h with
  | [] => omitting
  | (_, accepted) :: h' => omitting_after (negb accepted) h'
  end.

(** A queued entry as the two results the consumer will get of it. *)
Definition unfold_entry (e : DeliveryEntry) : list Delivery :=
  (if output_full_before e then [Err output_queue_full] else []) ++ [delivery e].

Definition owed (s : System) : list Delivery :=
  option_list (pending_delivery (consumer s)) ++ concat (unfold_entry <$> ch_queue (deliveries (shared s))).

Lemma account_snoc b h d a :
  account b (h ++ [(d, a)]) =
    account b h ++ (if a : bool
                    then (if omitting_after b h then [Err output_queue_full] else []) ++ [d]
                    else []).
Proof.
  revert b. induction h as [|[d' []] h IH]; intros b; simpl.
  - by destruct a.
  - rewrite IH. simpl. by rewrite <-app_assoc.
  - apply IH.
Qed.

Lemma omitting_after_snoc b h d a : omitting_after b (h ++ [(d, a)]) = negb a.
Proof. revert b. induction h as [|[d' a'] h IH]; intros b; simpl; [done|apply IH]. Qed.

(** ** The invariant *)

(** How many terminal errors may have been announced by then or are about to
    be. *)
Definition terminal_budget (w : WorkerPoint) : nat :=
  match w with
  | Looping | InPoll | InCallback _ => 0
  | Reporting _ | Returning _ | Caught (Some _) => 2
  | Caught None | Finished => 3
  end.

(** The errors the worker is about to announce. *)
Definition unsent (w : WorkerPoint) : list ReceiveError :=
  match w with Reporting errors => errors | _ => [] end.

Definition in_loop (w : WorkerPoint) : bool :=
  match w with Looping | InPoll | InCallback _ => true | _ => false end.

Definition is_gone (p : ConsumerPoint) : bool := match p with Gone => true | _ => false end.

(** The notice owed for samples omitted at the end. *)
Definition last_notice (tr : list Label) : list ReceiveError :=
  if omitting_after false (samples tr) then [output_queue_full] else [].

Record invariant (capacity : N) (tr : list Label) (s : System) : Prop := {
  inv_delivery_capacity : ch_capacity (deliveries (shared s)) = capacity;
  inv_terminal_capacity : ch_capacity (terminal (shared s)) = TERMINAL_CAPACITY;
  inv_delivery_receiver : ch_receiver (deliveries (shared s)) = negb (is_gone (consumer_point s));
  inv_terminal_receiver : ch_receiver (terminal (shared s)) = negb (is_gone (consumer_point s));
  inv_bound : len (ch_queue (deliveries (shared s))) <= capacity;
  inv_owed : is_gone (consumer_point s) = false → received tr ++ owed s = account false (samples tr);
  inv_terminal : is_gone (consumer_point s) = false →
    received_terminal tr ++ ch_queue (terminal (shared s)) = announced tr;
  inv_flag : in_loop (worker s) = true →
    output_full_pending (shared s) = omitting_after false (samples tr);
  inv_budget : (length (announced tr ++ unsent (worker s)) ≤ terminal_budget (worker s))%nat;
  inv_shape : ∃ panics, (length panics ≤ terminal_budget (worker s) - 2)%nat ∧
    (announced tr ++ unsent (worker s) = panics ∨
     ∃ e, announced tr ++ unsent (worker s) = last_notice tr ++ e :: panics);
}.

Lemma invariant_new capacity : invariant capacity [] (system_new capacity).
Proof. split; simpl; try done; try (unfold len; simpl; lia). exists []. simpl. eauto. Qed.

Lemma samples_snoc tr l : samples (tr ++ [l]) = samples tr ++ option_list (sample_of l).
Proof. unfold samples. rewrite omap_app. simpl. by destruct (sample_of l). Qed.
Lemma received_snoc tr l : received (tr ++ [l]) = received tr ++ option_list (got_of l).
Proof. unfold received. rewrite omap_app. simpl. by destruct (got_of l). Qed.
Lemma received_terminal_snoc tr l :
  received_terminal (tr ++ [l]) = received_terminal tr ++ option_list (terminal_of l).
Proof. unfold received_terminal. rewrite omap_app. simpl. by destruct (terminal_of l). Qed.
Lemma announced_snoc tr l :
  announced (tr ++ [l]) = announced tr ++ option_list (announced_of l).
Proof. unfold announced. rewrite omap_app. simpl. by destruct (announced_of l). Qed.

(** Labels that record nothing keep every reading of the trace. *)
Lemma trace_internal tr :
  samples (tr ++ [Internal]) = samples tr ∧ received (tr ++ [Internal]) = received tr ∧
  received_terminal (tr ++ [Internal]) = received_terminal tr ∧
  announced (tr ++ [Internal]) = announced tr.
Proof. by rewrite samples_snoc, received_snoc, received_terminal_snoc, announced_snoc, !app_nil_r. Qed.

(** ** The operations on the shared state *)

Definition send_all (c : Chan ReceiveError) (es : list ReceiveError) : Chan ReceiveError :=
  foldl (λ c e, (try_send c e).1) c es.

Lemma after_poll_spec polled (s : Shared) :
  deliveries (after_poll polled s).1 = deliveries s ∧
  terminal (after_poll polled s).1 = send_all (terminal s) (announcements polled s) ∧
  ((after_poll polled s).2 = true →
     announcements polled s = [] ∧ output_full_pending (after_poll polled s).1 = output_full_pending s).
Proof.
  unfold after_poll, report_callback_panic, take_callback_panic, announcements.
  destruct (callback_panic s) as [payload|]; simpl.
  - destruct (output_full_pending s); simpl; done.
  - destruct polled as [u|e]; simpl; [done|].
    destruct (running s); simpl; [|done]. by destruct (output_full_pending s).
Qed.

Lemma send_all_room c es :
  ch_receiver c = true → (length (ch_queue c) + length es ≤ N.to_nat (ch_capacity c))%nat →
  ch_queue (send_all c es) = ch_queue c ++ es.
Proof.
  revert c. induction es as [|e es IH]; intros c Hr Hl; simpl; [by rewrite app_nil_r|].
  unfold try_send. rewrite Hr. simpl in *. rewrite (proj2 (N.leb_gt _ _)) by (unfold len; lia). simpl.
  rewrite IH; simpl; [by rewrite <-app_assoc|done|]. rewrite length_app. simpl. lia.
Qed.

Lemma send_all_ends c es :
  ch_receiver (send_all c es) = ch_receiver c ∧ ch_capacity (send_all c es) = ch_capacity c.
Proof.
  revert c. induction es as [|e es IH]; intros c; simpl; [done|].
  destruct (IH (try_send c e).1) as [-> ->]. unfold try_send. by repeat case_match.
Qed.

Lemma announcements_shape polled (s : Shared) :
  announcements polled s = [] ∨
  ∃ e, announcements polled s = (if output_full_pending s then [output_queue_full] else []) ++ [e].
Proof.
  unfold announcements. destruct (callback_panic s), polled; eauto. destruct (running s); eauto.
Qed.

(** ** Preservation *)

Lemma deliver_entry_spec data (s : Shared) :
  let entry := mkDeliveryEntry (decoded target_endian data) (output_full_pending s) in
  terminal (deliver_entry target_endian data s).1 = terminal s ∧
  match sample_label data s with
  | Accepted d =>
      d = decoded target_endian data ∧ ch_receiver (deliveries s) = true ∧
      len (ch_queue (deliveries s)) < ch_capacity (deliveries s) ∧
      deliveries (deliver_entry target_endian data s).1 =
        mkChan (ch_capacity (deliveries s)) (ch_queue (deliveries s) ++ [entry])
          (ch_senders (deliveries s)) (ch_receiver (deliveries s)) ∧
      output_full_pending (deliver_entry target_endian data s).1 = false
  | Omitted d =>
      ch_capacity (deliveries s) <= len (ch_queue (deliveries s)) ∧
      deliveries (deliver_entry target_endian data s).1 = deliveries s ∧
      output_full_pending (deliver_entry target_endian data s).1 = true
  | Internal =>
      deliveries (deliver_entry target_endian data s).1 = deliveries s ∧
      output_full_pending (deliver_entry target_endian data s).1 = output_full_pending s
  | _ => False
  end.
Proof.
  unfold deliver_entry, sample_label, try_send.
  destruct (ch_receiver (deliveries s)) eqn:Hr; simpl; [|done].
  destruct (N.leb_spec (ch_capacity (deliveries s)) (len (ch_queue (deliveries s)))); simpl; done.
Qed.

(** A step that records nothing and touches neither queue, flag nor consumer. *)
Lemma invariant_internal capacity tr s s' :
  invariant capacity tr s →
  deliveries (shared s') = deliveries (shared s) → terminal (shared s') = terminal (shared s) →
  output_full_pending (shared s') = output_full_pending (shared s) →
  consumer s' = consumer s → is_gone (consumer_point s') = is_gone (consumer_point s) →
  (in_loop (worker s') = true → in_loop (worker s) = true) → unsent (worker s') = unsent (worker s) →
  (terminal_budget (worker s) ≤ terminal_budget (worker s'))%nat →
  invariant capacity (tr ++ [Internal]) s'.
Proof.
  intros [] Hd Ht Hf Hc Hg Hw Hu Hb. destruct (trace_internal tr) as (H1 & H2 & H3 & H4).
  split; unfold owed, last_notice in *; rewrite ?Hd, ?Ht, ?Hf, ?Hc, ?Hg, ?Hu, ?H1, ?H2, ?H3, ?H4; auto; try lia.
  destruct inv_shape0 as (panics & Hp & Hs). exists panics. split; [lia|done].
Qed.

Lemma invariant_sample capacity tr (s : Shared) c p data :
  invariant capacity tr (mkSystem s (InCallback data) c p) →
  invariant capacity (tr ++ [sample_label data s])
    (mkSystem (deliver_entry target_endian data s).1 InPoll c p).
Proof.
  intros Hinv. destruct (deliver_entry_spec data s) as [Ht Hl]. destruct (sample_label data s) as [|d|d|?|?|?|] eqn:El;
    try done.
  { destruct Hl as [Hd Hf]. by apply (invariant_internal _ _ (mkSystem s (InCallback data) c p)). }
  - destruct Hl as (-> & Hr & Hlt & Hd & Hf). destruct Hinv. simpl in *. rewrite app_nil_r in inv_budget0.
    split; simpl; rewrite ?Hd, ?Ht, ?Hf, ?received_snoc, ?received_terminal_snoc, ?announced_snoc,
      ?samples_snoc, ?app_nil_r; simpl; auto.
    + unfold len in *. rewrite length_app. simpl. lia.
    + intros Hg. rewrite account_snoc. rewrite <-inv_owed0 by done. unfold owed. simpl.
      rewrite Hd. simpl. rewrite fmap_app, concat_app. simpl. rewrite app_nil_r, <-inv_flag0 by done.
      unfold unfold_entry at 2. simpl. by rewrite <-!app_assoc.
    + by rewrite omitting_after_snoc.
    + exists []. split; [done|]. left. by apply nil_length_inv, Nat.le_0_r.
  - destruct Hl as (Hfull & Hd & Hf). destruct Hinv. simpl in *. rewrite app_nil_r in inv_budget0.
    split; simpl; rewrite ?Hd, ?Ht, ?Hf, ?received_snoc, ?received_terminal_snoc, ?announced_snoc,
      ?samples_snoc, ?app_nil_r; simpl; auto.
    + intros Hg. rewrite account_snoc, app_nil_r. unfold owed in *. simpl in *. rewrite Hd. auto.
    + by rewrite omitting_after_snoc.
    + exists []. split; [done|]. left. by apply nil_length_inv, Nat.le_0_r.
Qed.

(** While the worker loops nothing was announced, so the terminal queue is empty. *)
Lemma loop_terminal_empty capacity tr s :
  invariant capacity tr s → in_loop (worker s) = true →
  announced tr = [] ∧ (is_gone (consumer_point s) = false → ch_queue (terminal (shared s)) = []).
Proof.
  intros [] Hw. assert (announced tr = []) as Ha.
  { rewrite length_app in inv_budget0. apply nil_length_inv. destruct (worker s); simpl in *; done || lia. }
  split; [done|]. intros Hg. apply inv_terminal0 in Hg. rewrite Ha in Hg. by apply app_nil in Hg as [_ ?].
Qed.

Lemma after_poll_unsent_spec polled (s : Shared) :
  deliveries (after_poll_unsent polled s) = deliveries s ∧ terminal (after_poll_unsent polled s) = terminal s ∧
  ((after_poll polled s).2 = true →
     announcements polled s = [] ∧ output_full_pending (after_poll_unsent polled s) = output_full_pending s).
Proof. destruct (after_poll_spec polled s) as (Hd & _ & Hgo). done. Qed.

Lemma invariant_poll_return capacity tr (s : Shared) c p polled :
  invariant capacity tr (mkSystem s InPoll c p) →
  invariant capacity (tr ++ [Internal])
    (mkSystem (after_poll_unsent polled s)
       (if (after_poll polled s).2 then Looping else Reporting (announcements polled s)) c p).
Proof.
  intros Hinv. destruct (loop_terminal_empty _ _ _ Hinv eq_refl) as [Ha _].
  destruct (after_poll_unsent_spec polled s) as (Hd & Ht & Hgo). destruct (trace_internal tr) as (H1 & H2 & H3 & H4).
  destruct Hinv. simpl in *. rewrite Ha in *.
  split; rewrite ?H1, ?H2, ?H3, ?H4, ?Ha; simpl; rewrite ?Hd, ?Ht; auto.
  - unfold owed in *. simpl in *. by rewrite Hd.
  - destruct (after_poll polled s).2; [|done]. intros _. destruct (Hgo eq_refl) as [_ ->]; auto.
  - destruct (after_poll polled s).2; simpl; [lia|].
    destruct (announcements_shape polled s) as [->|[e ->]]; [simpl; lia|].
    rewrite length_app. destruct (output_full_pending s); simpl; lia.
  - exists []. split; [simpl; lia|]. unfold last_notice. rewrite H1, <-inv_flag0 by done.
    destruct (after_poll polled s).2; [by left|apply announcements_shape].
Qed.

(** Sending an error that is due, outside of the loop. *)
Lemma invariant_announce capacity tr (s : Shared) w w' c p e :
  invariant capacity tr (mkSystem s w c p) → in_loop w' = false →
  (length (announced tr ++ e :: unsent w') ≤ terminal_budget w')%nat →
  (∃ panics, (length panics ≤ terminal_budget w' - 2)%nat ∧
    (announced tr ++ e :: unsent w' = panics ∨ ∃ e', announced tr ++ e :: unsent w' = last_notice tr ++ e' :: panics)) →
  invariant capacity (tr ++ [Announced e]) (mkSystem (send_terminal e s) w' c p).
Proof.
  intros [] Hw Hb Hs. simpl in *. destruct (send_all_ends (terminal s) [e]) as [Hr Hc]. simpl in Hr, Hc.
  assert (last_notice (tr ++ [Announced e]) = last_notice tr) as Hn
    by (unfold last_notice; by rewrite samples_snoc, app_nil_r).
  split; simpl; rewrite ?received_snoc, ?received_terminal_snoc, ?announced_snoc,
    ?samples_snoc, ?app_nil_r, ?Hr, ?Hc; simpl; rewrite <- ?app_assoc, ?Hn; auto; [|by rewrite Hw].
  intros Hg. pose proof (send_all_room (terminal s) [e]) as Hq. simpl in Hq.
  rewrite Hq; rewrite ?inv_terminal_receiver0, ?Hg; try done.
  - by rewrite app_assoc, inv_terminal0.
  - rewrite inv_terminal_capacity0. apply inv_terminal0 in Hg. apply (f_equal length) in Hg.
    assert (terminal_budget w' ≤ 3)%nat by (destruct w' as [| | | | |[]|]; simpl; lia).
    rewrite length_app in Hg, Hb. unfold TERMINAL_CAPACITY. simpl length in *. lia.
Qed.

Lemma invariant_report capacity tr (s : Shared) c p e es :
  invariant capacity tr (mkSystem s (Reporting (e :: es)) c p) →
  invariant capacity (tr ++ [Announced e]) (mkSystem (send_terminal e s) (Reporting es) c p).
Proof. intros Hinv. pose proof Hinv as []. by apply (invariant_announce _ _ _ _ _ _ _ _ Hinv). Qed.

Lemma invariant_caught capacity tr (s : Shared) c p payload :
  invariant capacity tr (mkSystem s (Caught (Some payload)) c p) →
  invariant capacity (tr ++ [Announced (worker_receive_panic payload)])
    (mkSystem (send_terminal (worker_receive_panic payload) s) (Caught None) c p).
Proof.
  intros Hinv. pose proof Hinv as []. simpl in *. rewrite app_nil_r in *.
  apply (invariant_announce _ _ _ _ _ _ _ _ Hinv); simpl; [done|rewrite length_app; simpl; lia|].
  destruct inv_shape0 as (panics & Hp & Hs). assert (panics = []) as -> by (by apply nil_length_inv; lia).
  exists [worker_receive_panic payload]. split; [simpl; lia|].
  destruct Hs as [->|[e ->]]; [by left|]. right. exists e. by rewrite <-app_assoc.
Qed.

(** Dropping the sending end of a channel keeps its queue. *)
Lemma invariant_drop_senders capacity tr (s : Shared) w w' c p f g :
  invariant capacity tr (mkSystem s w c p) →
  (f = drop_senders ∨ f = λ ch, ch) → (g = drop_senders ∨ g = λ ch, ch) →
  in_loop w' = false → unsent w' = unsent w → (terminal_budget w ≤ terminal_budget w')%nat →
  invariant capacity (tr ++ [Internal])
    (mkSystem (set_terminal (g (terminal s)) (set_deliveries (f (deliveries s)) s)) w' c p).
Proof.
  intros [] Hf Hg Hw Hu Hb. destruct (trace_internal tr) as (H1 & H2 & H3 & H4). simpl in *.
  assert (∀ ch : Chan DeliveryEntry, ch_queue (f ch) = ch_queue ch ∧ ch_capacity (f ch) = ch_capacity ch ∧
    ch_receiver (f ch) = ch_receiver ch) as Hd by (by intros ch; destruct Hf as [->| ->]).
  assert (∀ ch : Chan ReceiveError, ch_queue (g ch) = ch_queue ch ∧ ch_capacity (g ch) = ch_capacity ch ∧
    ch_receiver (g ch) = ch_receiver ch) as Ht by (by intros ch; destruct Hg as [->| ->]).
  destruct (Hd (deliveries s)) as (D1 & D2 & D3), (Ht (terminal s)) as (T1 & T2 & T3).
  split; unfold owed, last_notice in *; simpl in *; rewrite ?D1, ?D2, ?D3, ?T1, ?T2, ?T3, ?Hu, ?H1, ?H2, ?H3, ?H4;
    auto; try lia; try congruence.
  destruct inv_shape0 as (panics & Hp & Hs). exists panics. split; [lia|done].
Qed.

Lemma chan_recv_Received {A} (c ch : Chan A) a :
  chan_recv c = (ch, Received a) →
  ch_queue c = a :: ch_queue ch ∧ ch_capacity ch = ch_capacity c ∧ ch_receiver ch = ch_receiver c.
Proof. unfold chan_recv. destruct (ch_queue c) as [|b q]; [by destruct (ch_senders c)|]. by intros [= <- <-]. Qed.

Lemma invariant_got capacity tr (s : Shared) w d :
  invariant capacity tr (mkSystem s w (mkConsumer (Some d)) Idle) →
  invariant capacity (tr ++ [Got d]) (mkSystem s w (mkConsumer None) Idle).
Proof.
  intros []. simpl in *. split; simpl; unfold last_notice in *; rewrite ?received_snoc,
    ?received_terminal_snoc, ?announced_snoc, ?samples_snoc, ?app_nil_r; simpl; auto.
  intros _. rewrite <-inv_owed0 by done. unfold owed. simpl. by rewrite <-app_assoc.
Qed.

Lemma invariant_received capacity tr (s : Shared) w ch entry :
  invariant capacity tr (mkSystem s w (mkConsumer None) Idle) →
  chan_recv (deliveries s) = (ch, Received entry) →
  invariant capacity (tr ++ [Got (unpair (mkConsumer None) entry).2])
    (mkSystem (set_deliveries ch s) w (unpair (mkConsumer None) entry).1 Idle).
Proof.
  intros [] (Hq & Hc & Hr)%chan_recv_Received. simpl in *.
  split; simpl; unfold last_notice in *; rewrite ?received_snoc,
    ?received_terminal_snoc, ?announced_snoc, ?samples_snoc, ?app_nil_r, ?Hc, ?Hr; simpl; auto.
  - unfold len in *. rewrite Hq in inv_bound0. simpl in *. lia.
  - intros _. rewrite <-inv_owed0 by done. unfold owed. simpl. rewrite Hq. simpl.
    unfold unfold_entry at 2, unpair. destruct (output_full_before entry); simpl; by rewrite <-app_assoc.
Qed.

Lemma invariant_terminal capacity tr (s : Shared) w c ch error :
  invariant capacity tr (mkSystem s w c AtTerminal) →
  chan_recv (terminal s) = (ch, Received error) →
  invariant capacity (tr ++ [GotTerminal error]) (mkSystem (set_terminal ch s) w c Idle).
Proof.
  intros [] (Hq & Hc & Hr)%chan_recv_Received. simpl in *.
  split; simpl; unfold last_notice in *; rewrite ?received_snoc,
    ?received_terminal_snoc, ?announced_snoc, ?samples_snoc, ?app_nil_r, ?Hc, ?Hr; simpl; auto.
  intros _. rewrite <-inv_terminal0 by done. rewrite Hq. by rewrite <-app_assoc.
Qed.

Lemma invariant_stop capacity tr (s : Shared) w c :
  invariant capacity tr (mkSystem s w c AtTerminal) →
  invariant capacity (tr ++ [GotStop]) (mkSystem s w c Idle).
Proof.
  intros []. split; unfold owed, last_notice in *; simpl in *; rewrite ?received_snoc,
    ?received_terminal_snoc, ?announced_snoc, ?samples_snoc, ?app_nil_r; simpl; auto.
Qed.

Lemma invariant_gone capacity tr (s : Shared) w c :
  invariant capacity tr (mkSystem s w c Dropping) →
  invariant capacity (tr ++ [Internal])
    (mkSystem (set_terminal (drop_receiver (terminal s))
                (set_deliveries (drop_receiver (deliveries s)) s)) w c Gone).
Proof.
  intros []. destruct (trace_internal tr) as (H1 & H2 & H3 & H4). simpl in *.
  split; unfold last_notice in *; simpl in *; rewrite ?H1, ?H2, ?H3, ?H4; auto; try done.
  unfold len. simpl. lia.
Qed.

Lemma invariant_step capacity tr s l s' :
  invariant capacity tr s → step s l s' → invariant capacity (tr ++ [l]) s'.
Proof.
  intros Hinv Hstep. destruct Hstep;
    try (by apply (invariant_internal _ _ _ _ Hinv); simpl; try done; lia).
  - by apply invariant_sample.
  - destruct H as [->|[data ->]]; by apply (invariant_internal _ _ _ _ Hinv).
  - by apply invariant_poll_return.
  - by apply invariant_report.
  - destruct H as [->|[->| ->]]; apply (invariant_internal _ _ _ _ Hinv); simpl; try done; lia.
  - apply (invariant_drop_senders _ _ s (Returning panic) (Caught panic) c p drop_senders (λ ch, ch)); simpl;
      eauto. destruct panic; simpl; lia.
  - by apply invariant_caught.
  - apply (invariant_drop_senders _ _ s (Caught None) Finished c p (λ ch, ch) drop_senders); simpl; eauto.
  - by apply invariant_got.
  - by apply invariant_received.
  - by apply invariant_terminal.
  - by apply invariant_stop.
  - by apply invariant_gone.
Qed.

Lemma reaches_invariant capacity tr s : reaches capacity tr s → invariant capacity tr s.
Proof. induction 1; [apply invariant_new|by eapply invariant_step]. Qed.
End system.
