(* ===== verification/CollectorTheorems.v ===== *)
(** * Theorems on collection (src/collector.rs)

    Nothing accepted is lost or reordered, every omission is announced once,
    terminal errors always find a slot, and a drained collector ends with
    [WorkerStop]. One theorem shows an interleaving in which a terminal error
    overtakes a buffered delivery. *)

From S2P Require Import Prelude CapturedBytes Event Wire Collector CollectorSystem.

Section theorems.
Context {BpfError : Type} (E : endian).

(** C5: complete account. At any moment of any interleaving, what the consumer
    received followed by what is buffered for it is every accepted delivery in
    arrival order, with exactly one [OutputQueueFull] notice before the first
    delivery accepted after one or more omissions and none elsewhere; the
    queue never exceeds its capacity. *)
Theorem deliveries_accounted capacity tr (s : @System BpfError) :
  reaches E capacity tr s → is_gone (consumer_point s) = false →
  received tr ++ owed s = account false (samples tr) ∧
  len (ch_queue (deliveries (shared s))) <= capacity.
Proof. intros []%reaches_invariant Hg. auto. Qed.

(** C19: the three terminal slots are always enough: every error the worker
    announces is received by the consumer or waits for it, in order, and at
    most three are ever announced. *)
Theorem terminal_errors_kept capacity tr (s : @System BpfError) :
  reaches E capacity tr s → is_gone (consumer_point s) = false →
  received_terminal tr ++ ch_queue (terminal (shared s)) = announced tr ∧
  (length (announced tr) ≤ 3)%nat.
Proof.
  intros []%reaches_invariant Hg. split; [auto|]. rewrite length_app in inv_budget.
  destruct (worker s) as [| | | |[]|[]|]; simpl in *; lia.
Qed.

(** When the loop ends on a failed poll or a panic of the callback while
    the collector is in use, its last samples are accounted for too: the
    errors it sends are the notice of an omission exactly when the last sample
    was omitted, then the failure itself. *)
Theorem last_omission_announced capacity tr (s : @Shared BpfError) c p polled :
  reaches E capacity tr (mkSystem s InPoll c p) → running s = true →
  (after_poll polled s).2 = false →
  ∃ failure,
    announcements polled s =
      (if omitting_after false (samples tr) then [output_queue_full] else []) ++ [failure] ∧
    (error_kind_of failure = PollFailure ∨ error_kind_of failure = WorkerPanic).
Proof.
  intros Hr Hrun Hend. apply reaches_invariant, inv_flag in Hr; [|done]. simpl in Hr. rewrite <-Hr.
  unfold after_poll, report_callback_panic, take_callback_panic in Hend. unfold announcements.
  destruct (callback_panic s) as [payload|]; simpl in *; [eexists; split; [done|by right]|].
  destruct polled as [u|e]; [done|]. rewrite Hrun. eexists. split; [done|by left].
Qed.

(** ** One call is one or two steps *)

(** The labels of the steps a call to [try_recv] takes when nothing intervenes. *)
Inductive steps : @System BpfError → list (@Label BpfError) → @System BpfError → Prop :=
| steps_nil s : steps s [] s
| steps_cons s l s' tr s'' : step E s l s' → steps s' tr s'' → steps s (l :: tr) s''.

(** What a label of the look at the terminal channel returns. *)
Definition label_terminal (l : @Label BpfError) : option (@CollectorReceiveError BpfError) :=
  match l with
  | GotTerminal e => Some e
  | GotStop => Some worker_stop
  | _ => None
  end.

(** What a label returns to the caller of [try_recv]. *)
Definition label_result (l : @Label BpfError) : option (result Event (@TryReceiveError BpfError)) :=
  match l with
  | Got d => Some (map_err TryCollector d)
  | _ => Err ∘ TryCollector <$> label_terminal l
  end.

(** A channel without a message is left as it is. *)
Lemma set_deliveries_same (s : @Shared BpfError) : set_deliveries (deliveries s) s = s.
Proof. by destruct s. Qed.
Lemma set_terminal_same (s : @Shared BpfError) : set_terminal (terminal s) s = s.
Proof. by destruct s. Qed.
Lemma chan_recv_nothing {A} (c ch : Chan A) o :
  chan_recv c = (ch, o) → (∀ a, o ≠ Received a) → ch = c.
Proof. unfold chan_recv. repeat case_match; intros [= <- <-] Ho; [done..|by destruct (Ho a)]. Qed.

(** The look at the terminal channel is one step. *)
Lemma terminal_now_step (s : @Shared BpfError) w c :
  ∃ l, step E (mkSystem s w c AtTerminal) l (mkSystem (terminal_now_nonblocking s).1 w c Idle) ∧
    label_terminal l = (terminal_now_nonblocking s).2 ∧ got_of l = None.
Proof.
  unfold terminal_now_nonblocking. destruct (chan_recv (terminal s)) as [ch o] eqn:Hc. destruct o as [e| |]; simpl.
  - exists (GotTerminal e). split; [|done]. by eapply c_terminal.
  - rewrite (chan_recv_nothing _ _ _ Hc), set_terminal_same by done. exists Internal. split; [by eapply c_none|done].
  - rewrite (chan_recv_nothing _ _ _ Hc), set_terminal_same by done. exists GotStop. split; [by eapply c_stopped|done].
Qed.

Lemma terminal_or_stop_now (s : @Shared BpfError) : terminal_or_stop_nonblocking s = terminal_now_nonblocking s.
Proof. unfold terminal_or_stop_nonblocking, terminal_now_nonblocking. by destruct (chan_recv _) as [? []]. Qed.

(** The consumer's part of [try_recv] is a run of the step relation whose last
    label is the result: the two-step receive is the function the code has. *)
Theorem try_recv_is_run c s w :
  ∃ tr, steps (mkSystem s w c Idle) tr
          (mkSystem (try_recv c s).1.2 w (try_recv c s).1.1 Idle) ∧
        default (Err TryEmpty) (last tr ≫= label_result) = (try_recv c s).2.
Proof.
  unfold try_recv. destruct c as [[d|]]; simpl.
  - exists [Got d]. split; [|done]. eapply steps_cons; [constructor|constructor].
  - destruct (chan_recv (deliveries s)) as [ch o] eqn:Hc. destruct (terminal_now_step s w (mkConsumer None)) as (l & Hl & Ht & Hg).
    destruct o as [entry| |]; simpl.
    + destruct (unpair (mkConsumer None) entry) as [c' d] eqn:Hu. exists [Got d]. split; [|done].
      pose proof (c_received E s w ch entry Hc) as Hs. rewrite Hu in Hs. simpl in *.
      eapply steps_cons; [exact Hs|constructor].
    + rewrite (chan_recv_nothing _ _ _ Hc) in * by done. rewrite set_deliveries_same.
      exists [Internal; l]. destruct (terminal_now_nonblocking s) as [s' o]. simpl in *. split; [|by destruct l; simplify_eq/=].
      eapply steps_cons; [eapply c_not_received; by left|]. eapply steps_cons; [exact Hl|constructor].
    + rewrite (chan_recv_nothing _ _ _ Hc) in * by done. rewrite set_deliveries_same, terminal_or_stop_now.
      exists [Internal; l]. destruct (terminal_now_nonblocking s) as [s' o]. simpl in *. split; [|by destruct l; simplify_eq/=].
      eapply steps_cons; [eapply c_not_received; by right|]. eapply steps_cons; [exact Hl|constructor].
Qed.

Lemma steps_app s tr s' tr' s'' : steps s tr s' → steps s' tr' s'' → steps s (tr ++ tr') s''.
Proof. induction 1; [done|]. intros. econstructor; eauto. Qed.

Lemma reaches_steps capacity tr s tr' s' : reaches E capacity tr s → steps s tr' s' → reaches E capacity (tr ++ tr') s'.
Proof.
  intros Hr Hs. revert tr Hr. induction Hs as [s|s l s1 tr' s2 Hs Hss IH]; intros tr Hr; [by rewrite app_nil_r|].
  rewrite cons_middle, app_assoc. apply IH. by eapply reach_step.
Qed.

(** A callback is a run of one or two steps of the worker. *)
Theorem deliver_is_run data s c p :
  ∃ tr, steps (mkSystem s InPoll c p) tr (mkSystem (deliver E data s).1 InPoll c p).
Proof.
  unfold deliver. destruct (running s) eqn:Hr; simpl.
  - eexists. eapply steps_cons; [by apply (w_callback E _ _ _ data)|]. eapply steps_cons; [apply w_sample|constructor].
  - eexists. eapply steps_cons; [by apply (w_callback_stopped E _ _ _ data)|constructor].
Qed.

Lemma report_is_run es (s : @Shared BpfError) c p :
  ∃ tr, announced tr = es ∧
    steps (mkSystem s (Reporting es) c p) tr (mkSystem (set_terminal (send_all (terminal s) es) s) (Returning None) c p).
Proof.
  revert s. induction es as [|e es IH]; intros s.
  - exists [Internal]. split; [done|]. simpl. rewrite set_terminal_same. eapply steps_cons; [apply w_reported|constructor].
  - destruct (IH (send_terminal e s)) as (tr & Ha & Hs). exists (Announced e :: tr). split; [by rewrite <- Ha|].
    eapply steps_cons; [apply w_report|]. by destruct s.
Qed.

(** The end of a turn of the loop is a run of the worker, which announces the
    errors it sends one by one. *)
Theorem after_poll_is_run polled s c p :
  ∃ tr, announced tr = announcements polled s ∧
    steps (mkSystem s InPoll c p) tr
      (mkSystem (after_poll polled s).1 (if (after_poll polled s).2 then Looping else Returning None) c p).
Proof.
  pose proof (w_poll_return E s c p polled) as Hp. destruct (after_poll_spec polled s) as (_ & Ht & Hgo).
  destruct (after_poll polled s).2 eqn:Hg.
  - destruct (Hgo eq_refl) as [Ha _]. rewrite Ha in Ht. exists [Internal]. split; [by rewrite Ha|].
    eapply steps_cons; [exact Hp|]. unfold after_poll_unsent. simpl in Ht. rewrite <- Ht, set_terminal_same. constructor.
  - destruct (report_is_run (announcements polled s) (after_poll_unsent polled s) c p) as (tr & Ha & Hs).
    exists (Internal :: tr). split; [exact Ha|]. eapply steps_cons; [exact Hp|].
    replace (after_poll polled s).1 with
      (set_terminal (send_all (terminal (after_poll_unsent polled s)) (announcements polled s)) (after_poll_unsent polled s));
      [done|].
    unfold after_poll_unsent. simpl. rewrite <- Ht. by destruct (after_poll polled s).1.
Qed.

(** ** Draining a finished collector *)

Fixpoint drain (n : nat) (c : @Consumer BpfError) (s : @Shared BpfError) :
    list (result Event (@TryReceiveError BpfError)) :=
  match n with
  | O => []
  | S n' => let '(c, s, r) := try_recv c s in r :: drain n' c s
  end.

Definition remaining (c : @Consumer BpfError) (s : @Shared BpfError) :
    list (result Event (@TryReceiveError BpfError)) :=
  (map_err TryCollector <$>
     option_list (pending_delivery c) ++ concat (unfold_entry <$> ch_queue (deliveries s))) ++
  ((λ e, Err (TryCollector e)) <$> ch_queue (terminal s)).

Definition senders_gone (s : @Shared BpfError) : Prop :=
  ch_senders (deliveries s) = false ∧ ch_senders (terminal s) = false.

Lemma try_recv_remaining c s :
  senders_gone s →
  let '(c', s', r) := try_recv c s in
  senders_gone s' ∧
  match remaining c s with
  | x :: rest => r = x ∧ remaining c' s' = rest
  | [] => r = Err (TryCollector worker_stop) ∧ remaining c' s' = []
  end.
Proof.
  intros [Hd Ht]. unfold try_recv, remaining, chan_recv, terminal_or_stop_nonblocking, chan_recv.
  destruct c as [[d|]]; simpl; [done|].
  destruct (ch_queue (deliveries s)) as [|entry q] eqn:Hq; simpl.
  - rewrite Hd. simpl. destruct (ch_queue (terminal s)) as [|e qt] eqn:Hqt; simpl.
    + rewrite Ht. simpl. rewrite Hq, Hqt. done.
    + rewrite Hq. done.
  - unfold unpair, unfold_entry at 1. destruct (output_full_before entry); simpl; done.
Qed.

Lemma drain_remaining n c s k :
  senders_gone s → n = (length (remaining c s) + k)%nat →
  drain n c s = remaining c s ++ replicate k (Err (TryCollector worker_stop)).
Proof.
  revert c s k. induction n as [|n IH]; intros c s k Hs Hn; simpl.
  - assert (remaining c s = []) as -> by (apply nil_length_inv; lia). assert (k = 0%nat) as -> by lia. done.
  - pose proof (try_recv_remaining c s Hs) as Hr. destruct (try_recv c s) as [[c' s'] r].
    destruct Hr as [Hs' Hr]. destruct (remaining c s) as [|x rest] eqn:Hm; simpl in *.
    + destruct Hr as [-> Hr]. destruct k as [|k]; [lia|]. simpl. f_equal.
      rewrite (IH c' s' k Hs') by (rewrite Hr; simpl; lia). by rewrite Hr.
    + destruct Hr as [-> Hr]. f_equal. rewrite (IH c' s' k Hs') by (rewrite Hr; lia). by rewrite Hr.
Qed.

(** Once the worker has finished, repeated receives return, in this order,
    the delivery held back by a notice, every buffered delivery with its
    notice, every terminal error, and from then on [WorkerStop], each after
    finitely many calls. *)
Theorem finished_collector_drains c s k :
  senders_gone s →
  drain (length (remaining c s) + k) c s =
    remaining c s ++ replicate k (Err (TryCollector worker_stop)).
Proof. intros Hs. by apply drain_remaining. Qed.
(** ** Stopping *)

(** The steps a worker that was stopped has left, but for the callbacks of the
    poll it is in. *)
Definition steps_left (w : @WorkerPoint BpfError) : nat :=
  match w with
  | InCallback _ => 9
  | InPoll => 8
  | Looping => 5
  | Reporting errors => 5 + length errors
  | Returning None => 4
  | Returning (Some _) => 3
  | Caught (Some _) => 2
  | Caught None => 1
  | Finished => 0
  end.

(** The callbacks that already found the collector running. *)
Definition callbacks (w : @WorkerPoint BpfError) : nat :=
  match w with InCallback _ => 1 | _ => 0 end.

Lemma deliver_entry_stopped data (s : @Shared BpfError) : running s = false → running (deliver_entry E data s).1 = false.
Proof. intros Hr. unfold deliver_entry. destruct (try_send _ _) as [ch []]; by simpl. Qed.

Lemma after_poll_running polled (s : @Shared BpfError) : running (after_poll polled s).1 = running s.
Proof.
  unfold after_poll, report_callback_panic, take_callback_panic. destruct (callback_panic s); simpl.
  - by destruct (output_full_pending s).
  - destruct polled; [done|]. simpl. destruct (running s) eqn:Hr; [|done]. by destruct (output_full_pending s).
Qed.

Lemma announcements_length polled (s : @Shared BpfError) : (length (announcements polled s) ≤ 2)%nat.
Proof.
  destruct (announcements_shape polled s) as [->|[e ->]]; [simpl; lia|].
  rewrite length_app. destruct (output_full_pending s); simpl; lia.
Qed.

Lemma poll_return_left polled (s : @Shared BpfError) :
  (steps_left (if (after_poll polled s).2 then Looping else Reporting (announcements polled s)) ≤ 7)%nat.
Proof. pose proof (announcements_length polled s). destruct (after_poll polled s).2; simpl; lia. Qed.

Lemma stopped_step (s : @System BpfError) l s' :
  step E s l s' → running (shared s) = false →
  running (shared s') = false ∧ (length (option_list (sample_of l)) + callbacks (worker s') ≤ callbacks (worker s))%nat ∧
  (steps_left (worker s') ≤ steps_left (worker s))%nat.
Proof.
  intros Hs Hr. destruct Hs; simpl in *; try (split_and!; done || (simpl; lia)); try congruence.
  - rewrite deliver_entry_stopped by done. unfold sample_label. split_and!; [done| |lia]. by destruct (try_send _ _).2; simpl; lia.
  - destruct H as [->|[data ->]]; split_and!; done || (simpl; lia).
  - pose proof (poll_return_left polled s). rewrite after_poll_running. split_and!; [done| |lia].
    by destruct (after_poll polled s).2.
  - destruct H as [->|[->| ->]]; split_and!; done || (simpl; lia).
  - destruct panic; split_and!; done || (simpl; lia).
Qed.

(** The worker can always take a step towards its end. *)
Lemma stopped_progress (s : @System BpfError) :
  running (shared s) = false →
  worker s = Finished ∨ ∃ l s', step E s l s' ∧ running (shared s') = false ∧
    consumer s' = consumer s ∧ consumer_point s' = consumer_point s ∧
    (steps_left (worker s') < steps_left (worker s))%nat.
Proof.
  destruct s as [s w c p]. simpl. intros Hr.
  destruct w as [| |data|[|error errors]|panic|[payload|]|]; [right..|by left]; eexists _, _; split.
  - by apply w_leave.
  - split_and!; [done..|simpl; lia].
  - apply (w_poll_return E _ _ _ (Ok ())).
  - pose proof (poll_return_left (Ok ()) s). simpl in *. rewrite after_poll_running. split_and!; [done..|lia].
  - apply w_sample.
  - simpl. rewrite deliver_entry_stopped by done. split_and!; [done..|lia].
  - apply w_reported.
  - split_and!; [done..|simpl; lia].
  - apply w_report.
  - split_and!; [done..|simpl; lia].
  - apply w_drop_deliveries.
  - split_and!; [done..|destruct panic; simpl; lia].
  - apply w_caught.
  - split_and!; [done..|simpl; lia].
  - apply w_finish.
  - split_and!; [done..|simpl; lia].
Qed.

Lemma stopped_finishes n (s : @System BpfError) :
  running (shared s) = false → (steps_left (worker s) ≤ n)%nat →
  ∃ tr s', (length tr ≤ n)%nat ∧ steps s tr s' ∧ worker s' = Finished ∧
    consumer s' = consumer s ∧ consumer_point s' = consumer_point s.
Proof.
  revert s. induction n as [|n IH]; intros s Hr Hn; destruct (stopped_progress s Hr) as [Hw|(l & s1 & Hs & Hr1 & Hc & Hp & Hlt)].
  - exists [], s. split; [simpl; lia|]. split; [constructor|done].
  - lia.
  - exists [], s. split; [simpl; lia|]. split; [constructor|done].
  - destruct (IH s1 Hr1) as (tr & s2 & Hl & Hss & Hw & Hc2 & Hp2); [lia|]. exists (l :: tr), s2.
    rewrite Hc2, Hp2. split; [simpl; lia|]. split; [by econstructor|done].
Qed.

(** A reachable worker is never further than nine steps from its end. *)
Lemma reaches_steps_left capacity tr s : reaches E capacity tr s → (steps_left (worker s) ≤ 9)%nat.
Proof.
  intros [_ _ _ _ _ _ _ _ Hb _]%reaches_invariant. rewrite length_app in Hb.
  destruct (worker s) as [| | | |[]|[]|]; simpl in *; lia.
Qed.

Lemma steps_stopped (s : @System BpfError) tr s' :
  running (shared s) = false → steps s tr s' →
  running (shared s') = false ∧ (length (samples tr) + callbacks (worker s') ≤ callbacks (worker s))%nat ∧
  (steps_left (worker s') ≤ steps_left (worker s))%nat.
Proof.
  intros Hr Hs. induction Hs as [s|s l s1 tr s2 Hs Hss IH]; [split_and!; done|].
  destruct (stopped_step s l s1 Hs Hr) as (Hr1 & Hl & Hle). destruct (IH Hr1) as (? & Hsm & Hle2).
  assert (samples (l :: tr) = option_list (sample_of l) ++ samples tr) as ->
    by (unfold samples; simpl; by destruct (sample_of l)).
  rewrite length_app. split_and!; [done|lia|lia].
Qed.

(** C32: dropping the collector ends the worker. Once a reachable collector
    was told to stop, whatever the two threads do next: the worker is never told
    to run again; no more samples reach the queue than the one of a callback
    that had already found the collector running; the worker only moves towards
    its end, and nine steps of its own at most, with the consumer standing
    still, take it there, so that joining it does not block for ever once the
    poll it is in returns. *)
Theorem stopped_worker_ends capacity tr0 (s : @System BpfError) tr s' :
  reaches E capacity tr0 s → running (shared s) = false → steps s tr s' →
  running (shared s') = false ∧ (length (samples tr) ≤ callbacks (worker s))%nat ∧
  (steps_left (worker s') ≤ steps_left (worker s))%nat ∧
  ∃ tr2 s2, (length tr2 ≤ 9)%nat ∧ steps s' tr2 s2 ∧ worker s2 = Finished ∧
    consumer s2 = consumer s' ∧ consumer_point s2 = consumer_point s'.
Proof.
  intros Hreach Hr Hs. destruct (steps_stopped s tr s' Hr Hs) as (Hr' & Hsm & Hle). split_and!; [done|lia|done|].
  apply stopped_finishes; [done|]. eapply reaches_steps_left. by eapply reaches_steps.
Qed.
End theorems.

(** C40: a receive looks at the deliveries first and at the terminal channel
    second. A sample accepted and a poll that fails between the two looks make
    the failure overtake the delivery: the consumer is told of the end of the
    collection while an accepted delivery is still buffered. *)
Theorem terminal_error_may_overtake (E : endian) :
  ∃ tr (s : @System unit),
    reaches E 1 tr s ∧ consumer_point s = Idle ∧
    received tr = [] ∧ received_terminal tr = [poll_failure ()] ∧
    owed s = [decoded E []].
Proof.
  eexists _, _. split_and!.
  - eapply (reaches_steps E 1 []); [apply reach_new|].
    eapply steps_cons; [eapply c_not_received; left; reflexivity|].
    eapply steps_cons; [by apply w_enter|]. eapply steps_cons; [by apply (w_callback E _ _ _ [])|].
    eapply steps_cons; [apply w_sample|]. eapply steps_cons; [apply (w_poll_return E _ _ _ (Err ()))|].
    eapply steps_cons; [apply w_report|]. eapply steps_cons; [eapply c_terminal; reflexivity|constructor].
  - reflexivity.
  - reflexivity.
  - reflexivity.
  - reflexivity.
Qed.

(** ** A concrete run: one slot, two samples omitted, then one accepted *)

Definition omission_run : list (@Label unit) :=
  [Internal; Internal; Accepted (decoded Little []); Internal; Omitted (decoded Little []); Internal;
   Omitted (decoded Little []); Got (decoded Little []); Internal; Accepted (decoded Little []); Got (Err output_queue_full)].

Definition omission_end : @System unit :=
  mkSystem (mkShared (sync_channel 1) (sync_channel 3) true false None) InPoll
    (mkConsumer (Some (decoded Little []))) Idle.

Lemma omission_reached : reaches Little 1 omission_run omission_end.
Proof.
  pose proof (reach_new (BpfError := unit) Little 1) as H0.
  eapply reach_step in H0; [|by apply w_enter].
  do 3 (eapply reach_step in H0; [|by apply (w_callback Little _ _ _ [])]; eapply reach_step in H0; [|apply w_sample]).
  eapply reach_step in H0; [|eapply c_received; reflexivity].
  eapply reach_step in H0; [|by apply (w_callback Little _ _ _ [])]. eapply reach_step in H0; [|apply w_sample].
  eapply reach_step in H0; [|eapply c_received; reflexivity].
  exact H0.
Qed.

Lemma deliveries_accounted_witness :
  received omission_run ++ owed omission_end = account false (samples omission_run) ∧
  len (ch_queue (deliveries (shared omission_end))) <= 1.
Proof. apply (deliveries_accounted Little 1); [exact omission_reached|reflexivity]. Defined.

(** The worst end of a worker: a sample was omitted, the poll failed, and a
    panic starts when the loop has ended. One error was taken, two wait. *)
Definition terminal_run : list (@Label unit) :=
  [Internal; Internal; Accepted (decoded Little []); Internal; Omitted (decoded Little []); Internal;
   Announced output_queue_full; Announced (poll_failure ()); Internal; Internal; Internal;
   Announced (worker_receive_panic (OpaquePayload None)); Got (decoded Little []); Internal; GotTerminal output_queue_full].

Definition terminal_end : @System unit :=
  mkSystem (mkShared (mkChan 1 [] false true)
      (mkChan 3 [poll_failure (); worker_receive_panic (OpaquePayload None)] true true) true true None)
    (Caught None) (mkConsumer None) Idle.

Lemma terminal_reached : reaches Little 1 terminal_run terminal_end.
Proof.
  pose proof (reach_new (BpfError := unit) Little 1) as H0.
  eapply reach_step in H0; [|by apply w_enter].
  do 2 (eapply reach_step in H0; [|by apply (w_callback Little _ _ _ [])]; eapply reach_step in H0; [|apply w_sample]).
  eapply reach_step in H0; [|apply (w_poll_return Little _ _ _ (Err ()))].
  do 2 (eapply reach_step in H0; [|apply w_report]). eapply reach_step in H0; [|apply w_reported].
  eapply reach_step in H0; [|by apply (w_panic Little _ _ _ _ (OpaquePayload None)); auto].
  eapply reach_step in H0; [|apply w_drop_deliveries]. eapply reach_step in H0; [|apply w_caught].
  eapply reach_step in H0; [|eapply c_received; reflexivity].
  eapply reach_step in H0; [|eapply c_not_received; right; reflexivity].
  eapply reach_step in H0; [|eapply c_terminal; reflexivity].
  exact H0.
Qed.

Lemma terminal_errors_kept_witness :
  received_terminal terminal_run ++ ch_queue (terminal (shared terminal_end)) = announced terminal_run ∧
  (length (announced terminal_run) ≤ 3)%nat.
Proof. apply (terminal_errors_kept Little 1); [exact terminal_reached|reflexivity]. Defined.

Lemma last_omission_announced_witness :
  ∃ failure,
    announcements (Err ()) (shared omission_end) =
      (if omitting_after false (samples omission_run) then [output_queue_full] else []) ++ [failure] ∧
    (error_kind_of failure = PollFailure ∨ error_kind_of failure = WorkerPanic).
Proof.
  apply (last_omission_announced Little 1 omission_run (shared omission_end) (mkConsumer (Some (decoded Little [])))
    Idle); [exact omission_reached|reflexivity|reflexivity].
Defined.

(** A delivery held back, one buffered with a notice, one terminal error. *)
Definition finished_shared : @Shared unit :=
  mkShared (mkChan 2 [mkDeliveryEntry (decoded Little []) true] false true)
    (mkChan 3 [poll_failure ()] false true) true false None.

Lemma finished_collector_drains_witness :
  drain 6 (mkConsumer (Some (decoded Little []))) finished_shared =
    remaining (mkConsumer (Some (decoded Little []))) finished_shared ++
    replicate 2 (Err (TryCollector worker_stop)).
Proof.
  apply (finished_collector_drains (mkConsumer (Some (decoded Little []))) finished_shared 2).
  split; reflexivity.
Defined.

(** The consumer drops the collector while a callback has found it running:
    its sample is still accepted. *)
Definition stopped_in_callback : @System unit :=
  mkSystem (drop_collector (shared omission_end)) (InCallback []) (mkConsumer (Some (decoded Little []))) Dropping.

Lemma stopped_worker_ends_witness :
  ∃ tr s', samples tr = [(decoded Little [], true)] ∧ steps Little stopped_in_callback tr s' ∧
    running (shared s') = false ∧ (length (samples tr) ≤ 1)%nat ∧
    ∃ tr2 s2, (length tr2 ≤ 9)%nat ∧ steps Little s' tr2 s2 ∧ worker s2 = Finished.
Proof.
  assert (reaches Little 1 (omission_run ++ [Internal; Internal]) stopped_in_callback) as Hr.
  { eapply reaches_steps; [exact omission_reached|]. eapply steps_cons; [by apply (w_callback Little _ _ _ [])|].
    eapply steps_cons; [apply c_drop|constructor]. }
  assert (steps Little stopped_in_callback [Accepted (decoded Little [])]
    (mkSystem (deliver_entry Little [] (shared stopped_in_callback)).1 InPoll (consumer stopped_in_callback) Dropping)) as Hs.
  { eapply steps_cons; [exact (w_sample Little _ _ _ [])|constructor]. }
  eexists _, _. split; [|split; [exact Hs|]]; [reflexivity|].
  destruct (stopped_worker_ends Little 1 _ stopped_in_callback _ _ Hr eq_refl Hs)
    as (H1 & H2 & _ & tr2 & s2 & H3 & H4 & H5 & _).
  split; [exact H1|]. split; [exact H2|]. by exists tr2, s2.
Defined.
