(* ===== verification/Deadline.v ===== *)
(** * Waiting with a deadline (src/collector.rs)

    [Collector::recv_timeout] waits twice, for a delivery and then for the end
    of the worker, on one budget of time. Here the call is a function of the
    moment at which it starts: the clock, the shared memory, and the memory as
    the worker will leave it after each of its next steps, with the time of the
    step. Time is in nanoseconds.

    The thread may be kept from running between two statements; [Pauses] says
    for how long. Reading the clock and starting to wait are one moment. *)

From S2P Require Import Prelude CapturedBytes Event Wire Collector CollectorSystem CollectorTheorems.

Section deadline.
Context {BpfError : Type} (E : endian).

Abbreviation Shared := (@Shared BpfError).
Abbreviation Consumer := (@Consumer BpfError).
Abbreviation Label := (@Label BpfError).
Abbreviation WorkerPoint := (@WorkerPoint BpfError).
Abbreviation ReceiveTimeoutError := (@ReceiveTimeoutError BpfError).

Record Moment := mkMoment {
  now : N;
  memory : Shared;
  later : list (N * Shared);
}.

Record Pauses := mkPauses {
  before_waiting : N;
  before_terminal : N;
  before_last_look : N;
}.

(** ** The passing of time *)

(** Nothing is looked at until [t]; steps at [t] itself come after it. *)
Fixpoint pass_until (t at_ : N) (s : Shared) (future : list (N * Shared)) : Moment :=
  match future with
  | (t', s') :: future' => if t' <? t then pass_until t t' s' future' else mkMoment (N.max at_ t) s future
  | [] => mkMoment (N.max at_ t) s []
  end.

Definition pause (d : N) (m : Moment) : Moment := pass_until (now m + d) (now m) (memory m) (later m).

(** Blocks until the channel has a message or no sender, or until [t]. *)
Fixpoint block_until {A} (channel : Shared → Chan A) (t at_ : N) (s : Shared) (future : list (N * Shared)) : Moment :=
  match (chan_recv (channel s)).2 with
  | NotReady =>
      match future with
      | (t', s') :: future' =>
          if t' <=? t then block_until channel t t' s' future' else mkMoment (N.max at_ t) s future
      | [] => mkMoment (N.max at_ t) s []
      end
  | _ => mkMoment at_ s future
  end.

(** [Receiver::recv_timeout]: the moment it returns, and the message taken. *)
Definition chan_recv_timeout {A} (channel : Shared → Chan A) (set_channel : Chan A → Shared → Shared) (timeout : N)
    (m : Moment) : Moment * RecvOutcome A :=
  let m := block_until channel (now m + timeout) (now m) (memory m) (later m) in
  let '(ch, outcome) := chan_recv (channel (memory m)) in
  (mkMoment (now m) (set_channel ch (memory m)) (later m), outcome).

(** ** The deadline *)

Record ReceiveDeadline := mkReceiveDeadline { started : N; timeout_of : N }.

Definition deadline_new (timeout : N) (m : Moment) : ReceiveDeadline := mkReceiveDeadline (now m) timeout.

(** [timeout.saturating_sub(started.elapsed())]. *)
Definition deadline_remaining (d : ReceiveDeadline) (m : Moment) : N := timeout_of d - (now m - started d).

Definition terminal_now_at (m : Moment) : Moment * option CollectorReceiveError :=
  let '(s, o) := terminal_now_nonblocking (memory m) in (mkMoment (now m) s (later m), o).

Definition terminal_until_at (pauses : Pauses) (deadline : ReceiveDeadline) (m : Moment) :
    Moment * option CollectorReceiveError :=
  let '(m, outcome) := chan_recv_timeout terminal set_terminal (deadline_remaining deadline m) m in
  match outcome with
  | Received error => (m, Some error)
  | NotReady => terminal_now_at (pause (before_last_look pauses) m)
  | RecvDisconnected => (m, Some worker_stop)
  end.

Definition recv_timeout_at (pauses : Pauses) (timeout : N) (c : Consumer) (m : Moment) :
    Consumer * Moment * result Event ReceiveTimeoutError :=
  match pending_delivery c with
  | Some d => (mkConsumer None, m, map_err TimeoutCollector d)
  | None =>
      let deadline := deadline_new timeout m in
      let m := pause (before_waiting pauses) m in
      let '(m, outcome) := chan_recv_timeout deliveries set_deliveries (deadline_remaining deadline m) m in
      match outcome with
      | Received entry => let '(c, d) := unpair c entry in (c, m, map_err TimeoutCollector d)
      | NotReady =>
          let '(m, o) := terminal_now_at (pause (before_terminal pauses) m) in
          (c, m, terminal_result Timeout TimeoutCollector o)
      | RecvDisconnected =>
          let '(m, o) := terminal_until_at pauses deadline (pause (before_terminal pauses) m) in
          (c, m, terminal_result Timeout TimeoutCollector o)
      end
  end.

(** ** What the worker does meanwhile *)

(** A step that does not depend on the consumer. *)
Definition worker_step (s : Shared) (w : WorkerPoint) (l : Label) (s' : Shared) (w' : WorkerPoint) : Prop :=
  ∀ c p, step E (mkSystem s w c p) l (mkSystem s' w' c p).

(** The future is a run of the worker. *)
Inductive worker_run : N → Shared → WorkerPoint → list (N * Shared) → Prop :=
| run_end t s w : worker_run t s w []
| run_step t s w t' l s' w' future :
    t <= t' → worker_step s w l s' w' → worker_run t' s' w' future → worker_run t s w ((t', s') :: future).

Definition worker_moment (m : Moment) (w : WorkerPoint) : Prop := worker_run (now m) (memory m) w (later m).

(** ** Clocks *)

Lemma pass_until_now t at_ s future : at_ <= t → now (pass_until t at_ s future) = t.
Proof.
  revert at_ s. induction future as [|[t' s'] future IH]; intros at_ s Hle; simpl; [lia|].
  destruct (N.ltb_spec t' t); [apply IH; lia|simpl; lia].
Qed.

Lemma pause_now d m : now (pause d m) = now m + d.
Proof. apply pass_until_now. lia. Qed.

Lemma block_until_now {A} (channel : Shared → Chan A) t at_ s future :
  at_ <= t →
  now (block_until channel t at_ s future) <= t ∧
  ((chan_recv (channel (memory (block_until channel t at_ s future)))).2 = NotReady →
   now (block_until channel t at_ s future) = t).
Proof.
  revert at_ s. induction future as [|[t' s'] future IH]; intros at_ s Hle; simpl;
    destruct (chan_recv (channel s)).2 eqn:Ho; simpl; rewrite ?Ho; try (split; [lia|done]); [lia|].
  destruct (N.leb_spec t' t); [by apply IH|simpl; lia].
Qed.

Lemma chan_recv_timeout_now {A} (channel : Shared → Chan A) set_channel timeout m :
  let '(m', outcome) := chan_recv_timeout channel set_channel timeout m in
  now m' <= now m + timeout ∧ (outcome = NotReady → now m' = now m + timeout).
Proof.
  unfold chan_recv_timeout. cbv zeta.
  destruct (block_until_now channel (now m + timeout) (now m) (memory m) (later m)) as [Hle Hn]; [lia|].
  destruct (chan_recv _) as [ch outcome]. simpl in *. split; [done|]. intros ->. auto.
Qed.

(** ** Runs *)

(** Time passes for [m], and the worker goes on. *)
Definition passes_to (m : Moment) (w : WorkerPoint) (m' : Moment) : Prop :=
  now m <= now m' ∧
  ∃ tr w', (∀ c p, steps E (mkSystem (memory m) w c p) tr (mkSystem (memory m') w' c p)) ∧ worker_moment m' w'.

Lemma passes_refl m w t :
  worker_moment m w → now m <= t → (∀ t' s' future, later m = (t', s') :: future → t <= t') →
  passes_to m w (mkMoment t (memory m) (later m)).
Proof.
  unfold worker_moment. destruct m as [n s f]. simpl. intros Hw Ht Hf. split; [done|]. exists [], w.
  split; [intros; constructor|]. inversion Hw; subst; econstructor; eauto.
Qed.

Lemma passes_step t s w t' l s' w' future m' :
  t <= t' → worker_step s w l s' w' → passes_to (mkMoment t' s' future) w' m' →
  passes_to (mkMoment t s ((t', s') :: future)) w m'.
Proof.
  intros Ht Hs (Hle & tr & w'' & Hr & Hw). simpl in *. split; [simpl; lia|]. exists (l :: tr), w''. split; [|done].
  intros c p. econstructor; [apply Hs|apply Hr].
Qed.

Lemma pass_until_passes t at_ s w future :
  worker_run at_ s w future → passes_to (mkMoment at_ s future) w (pass_until t at_ s future).
Proof.
  intros Hr. induction Hr as [at_ s w|at_ s w t' l s' w' future Hle Hs Hr IH]; simpl.
  - apply (passes_refl (mkMoment at_ s [])); simpl; [constructor|lia|done].
  - destruct (N.ltb_spec t' t); [by eapply passes_step|].
    apply (passes_refl (mkMoment at_ s ((t', s') :: future))); simpl; [by econstructor|lia|].
    intros ? ? ? [= <- _ _]. lia.
Qed.

Lemma block_until_passes {A} (channel : Shared → Chan A) t at_ s w future :
  worker_run at_ s w future → passes_to (mkMoment at_ s future) w (block_until channel t at_ s future).
Proof.
  assert (∀ at_ s w future, worker_run at_ s w future → passes_to (mkMoment at_ s future) w (mkMoment at_ s future)) as Hstay.
  { intros at0 s0 w0 f0 H0. apply (passes_refl (mkMoment at0 s0 f0)); simpl; [done|lia|].
    intros ? ? ? ->. by inversion H0. }
  intros Hr. induction Hr as [at_ s w|at_ s w t' l s' w' future Hle Hs Hr IH]; simpl.
  - destruct (chan_recv (channel s)).2; try (apply Hstay; constructor).
    apply (passes_refl (mkMoment at_ s [])); simpl; [constructor|lia|done].
  - destruct (chan_recv (channel s)).2; try (apply Hstay; by econstructor).
    destruct (N.leb_spec t' t); [by eapply passes_step|].
    apply (passes_refl (mkMoment at_ s ((t', s') :: future))); simpl; [by econstructor|lia|].
    intros ? ? ? [= <- _ _]. lia.
Qed.

Lemma pause_passes d m w : worker_moment m w → passes_to m w (pause d m).
Proof. intros Hw. destruct m. by apply pass_until_passes. Qed.

(** ** The budget *)

Lemma terminal_until_at_now pauses d m :
  started d <= now m →
  let '(m', o) := terminal_until_at pauses d m in
  now m' <= N.max (now m) (started d + timeout_of d) + before_last_look pauses ∧
  (o = None → started d + timeout_of d <= now m').
Proof.
  intros Hs. unfold terminal_until_at, deadline_remaining, terminal_now_at.
  pose proof (chan_recv_timeout_now terminal set_terminal (timeout_of d - (now m - started d)) m) as Hw.
  destruct (chan_recv_timeout _ _ _ _) as [m1 outcome]. destruct Hw as [Hle Hn].
  destruct outcome as [error| |]; [split; [lia|done]| |split; [lia|done]].
  specialize (Hn eq_refl). destruct (terminal_now_nonblocking _) as [s o]. simpl. rewrite pause_now. split; [lia|].
  intros _. lia.
Qed.

(** C35: one budget of time covers both waits. A receive with a timeout returns
    by its deadline, but for the time its thread was kept from running; and it
    answers [Timeout] only when the whole timeout has passed. *)
Theorem recv_timeout_budget pauses timeout c m w :
  worker_moment m w →
  let '(_, m', r) := recv_timeout_at pauses timeout c m in
  now m' <= now m + N.max timeout (before_waiting pauses) + before_terminal pauses + before_last_look pauses ∧
  (r = Err Timeout → now m + timeout <= now m').
Proof.
  intros Hw. unfold recv_timeout_at. destruct (pending_delivery c) as [[]|]; simpl; try (split; [lia|done]).
  unfold deadline_remaining. simpl. pose proof (pause_now (before_waiting pauses) m) as Hp.
  apply (pause_passes (before_waiting pauses)) in Hw as (_ & _ & w0 & _ & Hw0).
  set (m0 := pause _ m) in *. clearbody m0.
  destruct (block_until_passes deliveries (now m0 + (timeout - (now m0 - now m))) _ _ _ _ Hw0) as [Hmono _].
  pose proof (chan_recv_timeout_now deliveries set_deliveries (timeout - (now m0 - now m)) m0) as Hw.
  unfold chan_recv_timeout in *. cbv zeta in *. set (m1 := block_until _ _ _ _ _) in *. clearbody m1.
  destruct (chan_recv (deliveries (memory m1))) as [ch outcome]. destruct Hw as [Hle Hn]. simpl in Hle, Hn, Hmono.
  set (m2 := mkMoment _ _ _) in *. assert (now m2 = now m1) by done.
  pose proof (pause_now (before_terminal pauses) m2) as Hp1. simpl in Hp1. destruct outcome as [entry| |].
  - destruct (unpair c entry) as [c' []]; (split; [lia|done]).
  - specialize (Hn eq_refl). unfold terminal_now_at. destruct (terminal_now_nonblocking _) as [s o]. simpl. lia.
  - pose proof (terminal_until_at_now pauses (mkReceiveDeadline (now m) timeout) (pause (before_terminal pauses) m2)) as Ht.
    unfold deadline_new. destruct (terminal_until_at _ _ _) as [m3 o]. simpl in Ht, Hp1.
    destruct Ht as [Ht1 Ht2]; [lia|]. split; [lia|]. destruct o; [done|]. intros _. by apply Ht2.
Qed.
(** ** A timed receive is a run *)

(** What a label returns to the caller of [recv_timeout]. *)
Definition label_answer (l : Label) : option (result Event ReceiveTimeoutError) :=
  match l with
  | Got d => Some (map_err TimeoutCollector d)
  | _ => Err ∘ TimeoutCollector <$> label_terminal l
  end.

Definition answer (tr : list Label) : result Event ReceiveTimeoutError :=
  default (Err Timeout) (last tr ≫= label_answer).

Lemma answer_snoc tr l : answer (tr ++ [l]) = default (Err Timeout) (label_answer l).
Proof. unfold answer. by rewrite last_snoc. Qed.

Lemma answer_app tr tr' : tr' ≠ [] → answer (tr ++ tr') = answer tr'.
Proof. intros Hne. destruct tr' as [|l tr' _] using rev_ind; [done|]. by rewrite app_assoc, !answer_snoc. Qed.

Lemma answer_terminal l o :
  label_terminal l = o → got_of l = None → default (Err Timeout) (label_answer l) = terminal_result Timeout TimeoutCollector o.
Proof. by intros <- Hg; destruct l. Qed.

Lemma steps_snoc s tr s' l s'' :
  steps E s tr s' → step (BpfError := BpfError) E s' l s'' → steps E s (tr ++ [l]) s''.
Proof. intros H1 H2. eapply steps_app; [done|]. econstructor; [done|constructor]. Qed.

(** The first wait ends with the delivery, or at the terminal channel. *)
Lemma wait_delivery_run timeout m w :
  worker_moment m w →
  let '(m', outcome) := chan_recv_timeout deliveries set_deliveries timeout m in
  now m <= now m' ∧ ∃ tr w',
    match outcome with
    | Received entry =>
        steps E (mkSystem (memory m) w (mkConsumer None) Idle) (tr ++ [Got (unpair (mkConsumer None) entry).2])
          (mkSystem (memory m') w' (unpair (mkConsumer None) entry).1 Idle)
    | _ => steps E (mkSystem (memory m) w (mkConsumer None) Idle) tr (mkSystem (memory m') w' (mkConsumer None) AtTerminal) ∧
           worker_moment m' w'
    end.
Proof.
  intros Hw. unfold chan_recv_timeout. cbv zeta. destruct m as [t s f].
  destruct (block_until_passes deliveries (t + timeout) t s w f Hw) as (Hle & tr & w' & Hr & Hw'). cbn [now memory later] in *.
  set (m1 := block_until _ _ _ _ _) in *. clearbody m1. destruct (chan_recv _) as [ch outcome] eqn:Hc. split; [done|].
  destruct outcome as [entry| |]; simpl.
  - exists tr, w'. eapply steps_snoc; [apply Hr|by apply c_received].
  - rewrite (chan_recv_nothing _ _ _ Hc), set_deliveries_same by done. exists (tr ++ [Internal]), w'. destruct m1. split; [|done].
    eapply steps_snoc; [apply Hr|]. eapply c_not_received. by left.
  - rewrite (chan_recv_nothing _ _ _ Hc), set_deliveries_same by done. exists (tr ++ [Internal]), w'. destruct m1. split; [|done].
    eapply steps_snoc; [apply Hr|]. eapply c_not_received. by right.
Qed.

(** The look at the terminal channel after a pause. *)
Lemma terminal_now_run d m w c :
  worker_moment m w →
  let '(m', o) := terminal_now_at (pause d m) in
  now m <= now m' ∧ ∃ tr w',
    steps E (mkSystem (memory m) w c AtTerminal) tr (mkSystem (memory m') w' c Idle) ∧
    answer tr = terminal_result Timeout TimeoutCollector o.
Proof.
  intros Hw. apply (pause_passes d) in Hw as (Hle & tr & w' & Hr & _). unfold terminal_now_at.
  destruct (terminal_now_step E (memory (pause d m)) w' c) as (l & Hs & Hl & Hg).
  destruct (terminal_now_nonblocking _) as [s o]. simpl in *. split; [done|]. exists (tr ++ [l]), w'.
  split; [eapply steps_snoc; [apply Hr|done]|]. rewrite answer_snoc. by apply answer_terminal.
Qed.

Lemma terminal_until_run pauses d m w c :
  worker_moment m w →
  let '(m', o) := terminal_until_at pauses d m in
  now m <= now m' ∧ ∃ tr w',
    steps E (mkSystem (memory m) w c AtTerminal) tr (mkSystem (memory m') w' c Idle) ∧
    answer tr = terminal_result Timeout TimeoutCollector o.
Proof.
  intros Hw. unfold terminal_until_at, chan_recv_timeout. cbv zeta. destruct m as [t s f]. cbn [now memory later].
  destruct (block_until_passes terminal (t + deadline_remaining d (mkMoment t s f)) t s w f Hw) as (Hle & tr & w' & Hr & Hw').
  cbn [now memory later] in *. set (m1 := block_until _ _ _ _ _) in *. clearbody m1.
  destruct (chan_recv _) as [ch outcome] eqn:Hc. destruct outcome as [error| |].
  - split; [done|]. exists (tr ++ [GotTerminal error]), w'. rewrite answer_snoc. split; [|done].
    eapply steps_snoc; [apply Hr|by eapply c_terminal].
  - rewrite (chan_recv_nothing _ _ _ Hc), set_terminal_same by done. destruct m1 as [t1 s1 f1]. cbn [now memory later] in *.
    pose proof (terminal_now_run (before_last_look pauses) (mkMoment t1 s1 f1) w' c Hw') as Ht.
    destruct (terminal_now_at _) as [m2 o]. destruct Ht as (Hle2 & tr2 & w2 & Hr2 & Ha). simpl in Hle2, Hr2. split; [lia|].
    exists (tr ++ tr2), w2. split; [eapply steps_app; [apply Hr|done]|].
    rewrite answer_app; [done|]. intros ->. by inversion Hr2.
  - rewrite (chan_recv_nothing _ _ _ Hc), set_terminal_same by done. split; [done|].
    exists (tr ++ [GotStop]), w'. rewrite answer_snoc. split; [|done]. eapply steps_snoc; [apply Hr|by eapply c_stopped].
Qed.

(** C36: a receive with a timeout is a run of the interleaved system. However
    its two waits fall between the steps of the worker, the memory it leaves
    is reached by steps of the worker and of the consumer, and its answer is
    the last label, so that what holds of every run holds of it; the clock
    never goes back. *)
Theorem recv_timeout_is_run pauses timeout c m w :
  worker_moment m w →
  let '(c', m', r) := recv_timeout_at pauses timeout c m in
  now m <= now m' ∧ ∃ tr w',
    steps E (mkSystem (memory m) w c Idle) tr (mkSystem (memory m') w' c' Idle) ∧ answer tr = r.
Proof.
  intros Hw. unfold recv_timeout_at. destruct c as [[d|]]; simpl.
  { split; [lia|]. exists [Got d], w. split; [econstructor; constructor|done]. }
  apply (pause_passes (before_waiting pauses)) in Hw as (Hle & tr & w0 & Hr & Hw0).
  set (m0 := pause _ m) in *. clearbody m0.
  pose proof (wait_delivery_run (deadline_remaining (deadline_new timeout m) m0) m0 w0 Hw0) as Hd.
  destruct (chan_recv_timeout _ _ _ _) as [m1 outcome]. destruct Hd as (Hle1 & tr1 & w1 & Hr1).
  assert (∀ m2 (o : option CollectorReceiveError),
    steps E (mkSystem (memory m0) w0 (mkConsumer None) Idle) tr1 (mkSystem (memory m1) w1 (mkConsumer None) AtTerminal) →
    now m1 <= now m2 ∧ (∃ tr w', steps E (mkSystem (memory m1) w1 (mkConsumer None) AtTerminal) tr
      (mkSystem (memory m2) w' (mkConsumer None) Idle) ∧ answer tr = terminal_result Timeout TimeoutCollector o) →
    now m <= now m2 ∧ ∃ tr w', steps E (mkSystem (memory m) w (mkConsumer None) Idle) tr
      (mkSystem (memory m2) w' (mkConsumer None) Idle) ∧ answer tr = terminal_result Timeout TimeoutCollector o) as Hend.
  { intros m2 o Hr2 (Hle2 & tr2 & w2 & Hr3 & Ha). split; [lia|]. exists (tr ++ tr1 ++ tr2), w2.
    split; [eapply steps_app; [apply Hr|]; by eapply steps_app|].
    rewrite app_assoc, answer_app; [done|]. intros ->. by inversion Hr3. }
  destruct outcome as [entry| |].
  - destruct (unpair (mkConsumer None) entry) as [c' d] eqn:Hu. simpl in Hr1. split; [lia|].
    exists (tr ++ tr1 ++ [Got d]), w1. split; [eapply steps_app; [apply Hr|done]|]. by rewrite app_assoc, answer_snoc.
  - destruct Hr1 as [Hr1 Hw1]. pose proof (terminal_now_run (before_terminal pauses) m1 w1 (mkConsumer None) Hw1) as Ht.
    destruct (terminal_now_at _) as [m2 o]. eauto.
  - destruct Hr1 as [Hr1 Hw1].
    destruct (pause_passes (before_terminal pauses) m1 w1 Hw1) as (Hle2 & tr2 & w2 & Hr2 & Hw2).
    pose proof (terminal_until_run pauses (deadline_new timeout m) _ w2 (mkConsumer None) Hw2) as Ht.
    destruct (terminal_until_at _ _ _) as [m2 o]. apply Hend; [done|]. destruct Ht as (Hle3 & tr3 & w3 & Hr3 & Ha). split; [lia|].
    exists (tr2 ++ tr3), w3. split; [eapply steps_app; [apply Hr2|done]|]. rewrite answer_app; [done|]. intros ->. by inversion Hr3.
Qed.

(** ** The first moment with an answer *)

(** A delivery waits, or none can come and the end of the worker is known. *)
Definition answerable (s : Shared) : bool :=
  match (chan_recv (deliveries s)).2 with
  | Received _ => true
  | NotReady => false
  | RecvDisconnected => match (chan_recv (terminal s)).2 with NotReady => false | _ => true end
  end.

Fixpoint first_answerable (t at_ : N) (s : Shared) (future : list (N * Shared)) : Moment :=
  if answerable s then mkMoment at_ s future
  else
    match future with
    | (t', s') :: future' => if t' <=? t then first_answerable t t' s' future' else mkMoment (N.max at_ t) s future
    | [] => mkMoment (N.max at_ t) s []
    end.

(** The senders of each channel last as long as the code keeps them. *)
Definition senders_match (s : Shared) (w : WorkerPoint) : Prop :=
  ch_senders (deliveries s) = match w with Caught _ | Finished => false | _ => true end ∧
  ch_senders (terminal s) = match w with Finished => false | _ => true end.

Lemma send_senders {A} (c : Chan A) a : ch_senders (try_send c a).1 = ch_senders c.
Proof. unfold try_send. by repeat case_match. Qed.

Lemma deliver_entry_senders data (s : Shared) :
  ch_senders (deliveries (deliver_entry E data s).1) = ch_senders (deliveries s) ∧
  terminal (deliver_entry E data s).1 = terminal s.
Proof.
  unfold deliver_entry.
  pose proof (send_senders (deliveries s) (mkDeliveryEntry (decoded E data) (output_full_pending s))) as Hs.
  destruct (try_send _ _) as [ch []]; simpl in *; by rewrite Hs.
Qed.

Lemma senders_step s l s' : step E s l s' → senders_match (shared s) (worker s) → senders_match (shared s') (worker s').
Proof.
  unfold senders_match. intros Hs. destruct Hs; simpl; try done.
  - destruct (deliver_entry_senders data s) as [-> ->]. done.
  - by destruct H as [->|[data ->]].
  - destruct (after_poll_unsent_spec polled s) as (Hd & Ht & _). simpl in Hd. rewrite Hd. by destruct (after_poll polled s).2.
  - rewrite send_senders. done.
  - by destruct H as [->|[->| ->]].
  - by intros [_ ->].
  - rewrite send_senders. done.
  - by intros [-> _].
  - unfold chan_recv in H. repeat case_match; simplify_eq; done.
  - unfold chan_recv in H. repeat case_match; simplify_eq; done.
Qed.

Lemma reaches_senders capacity tr s : reaches E capacity tr s → senders_match (shared s) (worker s).
Proof. induction 1; [done|by eapply senders_step]. Qed.

(** Once no delivery can come, none comes. *)
Lemma disconnected_step s w l s' w' :
  worker_step s w l s' w' → senders_match s w → (chan_recv (deliveries s)).2 = RecvDisconnected →
  (chan_recv (deliveries s')).2 = RecvDisconnected.
Proof.
  intros Hs [Hd _] Hc. assert (ch_senders (deliveries s) = false) as Hf.
  { unfold chan_recv in Hc. destruct (ch_queue _); [|done]. by destruct (ch_senders _). }
  rewrite Hf in Hd. specialize (Hs (mkConsumer None) Gone). inversion Hs; subst; simpl in *; try done.
Qed.

(** After a disconnection, the wait for the terminal channel is the wait for
    an answer. *)
Lemma block_terminal_answerable t at_ s w future :
  worker_run at_ s w future → senders_match s w → (chan_recv (deliveries s)).2 = RecvDisconnected →
  first_answerable t at_ s future = block_until terminal t at_ s future ∧
  (chan_recv (deliveries (memory (block_until terminal t at_ s future)))).2 = RecvDisconnected.
Proof.
  intros Hr. induction Hr as [at_ s w|at_ s w t' l s' w' future Hle Hs Hr IH]; intros Hm Hc; simpl;
    unfold answerable; rewrite Hc; destruct (chan_recv (terminal s)).2; try done.
  destruct (N.leb_spec t' t); [|done]. apply IH; [|by eapply disconnected_step].
  apply (senders_step _ _ _ (Hs (mkConsumer None) Idle) Hm).
Qed.

Lemma two_waits_answerable t at_ s w future :
  worker_run at_ s w future → senders_match s w →
  let m1 := block_until deliveries t at_ s future in
  match (chan_recv (deliveries (memory m1))).2 with
  | RecvDisconnected =>
      let m2 := block_until terminal t (now m1) (memory m1) (later m1) in
      first_answerable t at_ s future = m2 ∧ (chan_recv (deliveries (memory m2))).2 = RecvDisconnected
  | _ => first_answerable t at_ s future = m1
  end.
Proof.
  intros Hr. induction Hr as [at_ s w|at_ s w t' l s' w' future Hle Hs Hr IH]; intros Hm; simpl.
  - destruct (chan_recv (deliveries s)).2 eqn:Hc; simpl; rewrite Hc; unfold answerable; rewrite ?Hc; try done.
    by destruct (chan_recv (terminal s)).2.
  - destruct (chan_recv (deliveries s)).2 eqn:Hc; simpl.
    + rewrite Hc. unfold answerable. by rewrite Hc.
    + assert (answerable s = false) as -> by (unfold answerable; by rewrite Hc).
      destruct (N.leb_spec t' t); [|simpl; by rewrite Hc]. apply IH. apply (senders_step _ _ _ (Hs (mkConsumer None) Idle) Hm).
    + rewrite Hc. apply (block_terminal_answerable t at_ s w ((t', s') :: future)); [by econstructor|done..].
Qed.

Lemma pause_none m w : worker_moment m w → pause 0 m = m.
Proof.
  unfold worker_moment, pause. destruct m as [t s future]. simpl. rewrite N.add_0_r. intros Hr.
  destruct future as [|[t' s'] future]; simpl; [by rewrite N.max_id|]. inversion Hr; subst.
  rewrite (proj2 (N.ltb_ge t' t)) by done. by rewrite N.max_id.
Qed.

(** The wait for the terminal channel answers what [terminal_until] does when it
    ends. *)
Lemma terminal_until_waits delay d m w :
  worker_moment m w →
  terminal_until_at (mkPauses delay 0 0) d m =
  (let m2 := block_until terminal (now m + deadline_remaining d m) (now m) (memory m) (later m) in
   let '(s, o) := terminal_until (memory m2) in (mkMoment (now m2) s (later m2), o)).
Proof.
  intros Hw. unfold terminal_until_at, chan_recv_timeout. cbv zeta. destruct m as [t s f]. cbn [now memory later].
  destruct (block_until_passes terminal (t + deadline_remaining d (mkMoment t s f)) t s w f Hw) as (_ & _ & w2 & _ & Hw2).
  set (m2 := block_until _ _ _ _ _) in *. clearbody m2. unfold terminal_until.
  destruct (chan_recv (terminal (memory m2))) as [ch o] eqn:Hc. destruct o; [done| |done].
  rewrite (chan_recv_nothing _ _ _ Hc), set_terminal_same by done. destruct m2 as [t2 s2 f2]. cbn [now memory later] in *.
  rewrite (pause_none _ w2) by done. unfold terminal_now_at. cbn [now memory later]. by destruct (terminal_now_nonblocking s2).
Qed.

(** Once no delivery can come, [recv_timeout] looks at the terminal channel. *)
Lemma recv_timeout_disconnected (s : Shared) :
  (chan_recv (deliveries s)).2 = RecvDisconnected →
  recv_timeout (mkConsumer None) s =
  (let '(s, o) := terminal_until s in (mkConsumer None, s, terminal_result Timeout TimeoutCollector o)).
Proof.
  intros Hd. unfold recv_timeout. cbn [pending_delivery]. destruct (chan_recv (deliveries s)) as [ch o] eqn:Hc. simpl in Hd. subst o.
  by rewrite (chan_recv_nothing _ _ _ Hc), set_deliveries_same by done.
Qed.

(** C9: the two waits are one wait. Take a receive with a timeout on any
    reachable collector, whose thread may be kept from running before it waits
    but not between its looks. A delivery that is held back is returned at once.
    Otherwise the answer is what [recv_timeout] answers to the memory at the
    first moment, by the deadline, at which a delivery waits or, the delivery
    channel being disconnected, an error waits in the terminal channel or that
    channel is disconnected too; and at the deadline if there is no such moment.
    An error sent while a delivery may still come does not end the wait. *)
Theorem recv_timeout_first_answer capacity tr delay timeout c m w :
  reaches E capacity tr (mkSystem (memory m) w c Idle) → worker_moment m w →
  recv_timeout_at (mkPauses delay 0 0) timeout c m =
  match pending_delivery c with
  | Some d => (mkConsumer None, m, map_err TimeoutCollector d)
  | None =>
      let m0 := pause delay m in
      let m1 := first_answerable (N.max (now m0) (now m + timeout)) (now m0) (memory m0) (later m0) in
      let '(c, s, r) := recv_timeout c (memory m1) in
      (c, mkMoment (now m1) s (later m1), r)
  end.
Proof.
  intros Hreach Hw. unfold recv_timeout_at. cbn [before_waiting before_terminal].
  destruct c as [[d|]]; cbn [pending_delivery]; [done|]. pose proof (pause_now delay m) as Hn.
  destruct (pause_passes delay m w Hw) as (_ & tr0 & w0 & Hr & Hw0). eapply reaches_steps in Hreach; [|apply Hr].
  apply reaches_senders in Hreach. cbn [shared worker] in Hreach. cbv zeta. set (m0 := pause delay m) in *. clearbody m0.
  unfold deadline_remaining at 1. cbn [started timeout_of deadline_new]. unfold chan_recv_timeout at 1. cbv zeta.
  replace (now m0 + (timeout - (now m0 - now m))) with (N.max (now m0) (now m + timeout)) by lia.
  set (stop := N.max (now m0) (now m + timeout)). assert (now m0 <= stop) as Hstop by lia.
  pose proof (two_waits_answerable stop (now m0) (memory m0) w0 (later m0) Hw0 Hreach) as H2. cbv zeta in H2.
  destruct (block_until_passes deliveries stop (now m0) (memory m0) w0 (later m0) Hw0) as (Hle & _ & w1 & _ & Hw1).
  destruct (block_until_now deliveries stop (now m0) (memory m0) (later m0)) as [Hup _]; [lia|].
  set (m1 := block_until deliveries _ _ _ _) in *. clearbody m1. simpl in Hle.
  destruct (chan_recv (deliveries (memory m1))) as [ch outcome] eqn:Hc. simpl in H2. destruct outcome as [entry| |].
  - rewrite H2. unfold recv_timeout. cbn [pending_delivery]. rewrite Hc. by destruct (unpair _ entry).
  - rewrite H2. unfold recv_timeout. cbn [pending_delivery]. rewrite Hc.
    rewrite (chan_recv_nothing _ _ _ Hc), set_deliveries_same by done. unfold terminal_now_at.
    destruct m1 as [t1 s1 f1]. cbn [now memory later] in *. rewrite (pause_none _ w1) by done. cbn [now memory later].
    by destruct (terminal_now_nonblocking s1).
  - destruct H2 as [-> Hd2]. rewrite (chan_recv_nothing _ _ _ Hc), set_deliveries_same by done.
    destruct m1 as [t1 s1 f1]. cbn [now memory later] in *. rewrite (pause_none _ w1) by done.
    rewrite (terminal_until_waits _ _ _ w1) by done. unfold deadline_remaining. cbn [now memory later started timeout_of deadline_new].
    replace (t1 + (timeout - (t1 - now m))) with stop by (unfold stop in *; lia).
    rewrite recv_timeout_disconnected by done. by destruct (terminal_until _).
Qed.
End deadline.

(** ** A poll that fails while the consumer waits *)

Definition failing_moment : @Moment unit :=
  let s := shared_new 1 in
  let failed := send_terminal (poll_failure ()) s in
  let dropped := set_deliveries (drop_senders (deliveries failed)) failed in
  mkMoment 0 s [(5, s); (9, s); (10, failed); (11, failed); (30, dropped);
                (40, set_terminal (drop_senders (terminal dropped)) dropped)].

Lemma failing_run : worker_moment Little failing_moment Looping.
Proof.
  unfold worker_moment, failing_moment. cbv zeta. cbn [now memory later].
  eapply run_step; [lia|intros c p; by apply w_enter|].
  eapply (run_step Little _ _ _ _ _ _ (Reporting [poll_failure ()]));
    [lia|intros c p; exact (w_poll_return Little (shared_new 1) c p (Err ()))|].
  eapply run_step; [lia|intros c p; apply w_report|].
  eapply run_step; [lia|intros c p; apply w_reported|].
  eapply run_step; [lia|intros c p; apply w_drop_deliveries|].
  eapply run_step; [lia|intros c p; apply w_finish|constructor].
Qed.

(** The failure is told when the deliveries are disconnected; with a shorter
    timeout, when the time is over; before it, the answer is [Timeout]. *)
Example failing_answers :
  ((λ r, (now r.1.2, r.2)) (recv_timeout_at (mkPauses 0 0 0) 100 (mkConsumer None) failing_moment) =
     (30, Err (TimeoutCollector (poll_failure ())))) ∧
  ((λ r, (now r.1.2, r.2)) (recv_timeout_at (mkPauses 0 0 0) 20 (mkConsumer None) failing_moment) =
     (20, Err (TimeoutCollector (poll_failure ())))) ∧
  ((λ r, (now r.1.2, r.2)) (recv_timeout_at (mkPauses 0 0 0) 7 (mkConsumer None) failing_moment) = (7, Err Timeout)).
Proof. by vm_compute. Qed.

Lemma recv_timeout_budget_witness :
  let '(_, m', r) := recv_timeout_at (mkPauses 1 2 3) 6 (mkConsumer None) failing_moment in
  now m' <= 11 ∧ (r = Err Timeout → 6 <= now m').
Proof. exact (recv_timeout_budget Little (mkPauses 1 2 3) 6 (mkConsumer None) failing_moment Looping failing_run). Defined.

Lemma recv_timeout_is_run_witness :
  let '(c', m', r) := recv_timeout_at (mkPauses 1 2 3) 100 (mkConsumer None) failing_moment in
  0 <= now m' ∧ ∃ tr w',
    steps Little (mkSystem (shared_new 1) Looping (mkConsumer None) Idle) tr (mkSystem (memory m') w' c' Idle) ∧ answer tr = r.
Proof. exact (recv_timeout_is_run Little (mkPauses 1 2 3) 100 (mkConsumer None) failing_moment Looping failing_run). Defined.

(** Late by three, with a deadline at a hundred: the end of the worker is known
    at 30. *)
Lemma recv_timeout_first_answer_witness :
  recv_timeout_at (mkPauses 3 0 0) 100 (mkConsumer None) failing_moment =
    (let m1 := first_answerable 100 3 (shared_new 1) (later failing_moment) in
     let '(c, s, r) := recv_timeout (mkConsumer None) (memory m1) in (c, mkMoment (now m1) s (later m1), r)) ∧
  now (first_answerable 100 3 (shared_new 1) (later failing_moment)) = 30.
Proof.
  split; [|reflexivity].
  exact (recv_timeout_first_answer Little 1 [] 3 100 (mkConsumer None) failing_moment Looping (reach_new Little 1) failing_run).
Defined.
