(* ===== verification/Panic.v ===== *)
(** * Containment of panics (src/collector.rs)

    A call may unwind with a payload, and dropping a payload may unwind again.
    The operations that handle panics are written here with that effect, and
    shown to be the pure functions that the rest of the development uses: none
    of them unwinds, whatever the payloads. *)

From S2P Require Import Prelude CapturedBytes Event Wire Collector.

(** ** Unwinding *)

Inductive Unwind (A : Type) := Returns (a : A) | Unwinds (payload : PanicPayload).
Arguments Returns {A} _.
Arguments Unwinds {A} _.

Definition unwind_bind {A B} (u : Unwind A) (f : A → Unwind B) : Unwind B :=
  match u with
  | Returns a => f a
  | Unwinds payload => Unwinds payload
  end.

(** [std::panic::catch_unwind]. *)
Definition catch_unwind {A} (u : Unwind A) : result A PanicPayload :=
  match u with
  | Returns a => Ok a
  | Unwinds payload => Err payload
  end.

(** The destructor of a payload. *)
Definition drop_payload (payload : PanicPayload) : Unwind unit :=
  match payload with
  | OpaquePayload (Some secondary) => Unwinds secondary
  | _ => Returns ()
  end.

(** [std::mem::forget] runs no destructor. *)
Definition forget_payload (payload : PanicPayload) : Unwind unit := Returns ().

Definition suppress_panic_payload (payload : PanicPayload) : Unwind unit :=
  match catch_unwind (drop_payload payload) with
  | Err secondary_payload => forget_payload secondary_payload
  | Ok _ => Returns ()
  end.

(** ** The worker's report *)

Section report.
Context {BpfError : Type}.

Abbreviation Shared := (@Shared BpfError).
Abbreviation ReceiveError := (@CollectorReceiveError BpfError).

(** The two downcasts. *)
Definition downcast_string (payload : PanicPayload) : result string PanicPayload :=
  match payload with StringPayload message => Ok message | _ => Err payload end.
Definition downcast_str (payload : PanicPayload) : result string PanicPayload :=
  match payload with StrPayload message => Ok message | _ => Err payload end.

Definition from_payload_unwind (payload : PanicPayload) : Unwind CollectorWorkerPanic :=
  match downcast_string payload with
  | Ok message => Returns (mkCollectorWorkerPanic (Some message))
  | Err payload =>
      match downcast_str payload with
      | Ok message => Returns (mkCollectorWorkerPanic (Some message))
      | Err payload => unwind_bind (suppress_panic_payload payload) (λ _, Returns (mkCollectorWorkerPanic None))
      end
  end.

Definition worker_receive_panic_unwind (payload : PanicPayload) : Unwind ReceiveError :=
  unwind_bind (from_payload_unwind payload) (λ panic, Returns (mkCollectorReceiveError WorkerPanic (SourcePanic panic))).

(** ** The mailbox of the callback *)

(** [Mutex::lock]: the content, as an error when a panic poisoned it. *)
Definition lock {A} (poisoned : bool) (content : A) : result A A := if poisoned then Err content else Ok content.

Definition callback_panic_state (poisoned : bool) (content : option PanicPayload) : option PanicPayload :=
  match lock poisoned content with
  | Ok state => state
  | Err poisoned => poisoned
  end.

(** [catch_callback_panic], where the mailbox may be poisoned and the callback
    is the shared state it leaves with its code or its payload. *)
Definition catch_callback_panic_unwind (poisoned : bool) (callback : Shared → Shared * Unwind Z) (s : Shared) :
    Shared * Unwind Z :=
  let '(s, outcome) := callback s in
  match catch_unwind outcome with
  | Ok code => (s, Returns code)
  | Err payload =>
      let previous := callback_panic_state poisoned (callback_panic s) in
      let s := set_callback_panic (Some payload) s in
      (s, unwind_bind (match previous with
                       | Some previous => suppress_panic_payload previous
                       | None => Returns ()
                       end) (λ _, Returns (-1)%Z))
  end.

Definition report_callback_panic_unwind (poisoned : bool) (s : Shared) : Shared * Unwind bool :=
  match callback_panic_state poisoned (callback_panic s) with
  | None => (set_callback_panic None s, Returns false)
  | Some payload =>
      let s := set_callback_panic None s in
      let pending := output_full_pending s in
      let s := set_output_full_pending false s in
      let s := if pending then send_terminal output_queue_full s else s in
      match worker_receive_panic_unwind payload with
      | Returns error => (send_terminal error s, Returns true)
      | Unwinds payload => (s, Unwinds payload)
      end
  end.

(** [Worker::run_with] after [worker_main] ended. *)
Definition run_with (worker_main : Shared → Shared * Unwind unit) (s : Shared) : Shared * Unwind unit :=
  let '(s, outcome) := worker_main s in
  match catch_unwind outcome with
  | Ok _ => (s, Returns ())
  | Err payload =>
      match worker_receive_panic_unwind payload with
      | Returns error => (send_terminal error s, Returns ())
      | Unwinds payload => (s, Unwinds payload)
      end
  end.

(** ** Nothing unwinds *)

Lemma suppress_returns payload : suppress_panic_payload payload = Returns ().
Proof. by destruct payload as [| |[]]. Qed.

Lemma from_payload_returns payload : from_payload_unwind payload = Returns (from_payload payload).
Proof. destruct payload; [done..|]. unfold from_payload_unwind. simpl. by rewrite suppress_returns. Qed.

Lemma worker_receive_panic_returns payload : worker_receive_panic_unwind payload = Returns (worker_receive_panic payload).
Proof. unfold worker_receive_panic_unwind. by rewrite from_payload_returns. Qed.

Lemma callback_panic_state_content poisoned content : callback_panic_state poisoned content = content.
Proof. by destruct poisoned. Qed.

(** The callback of [catch_callback_panic] as the pure model has it. *)
Definition caught_callback (callback : Shared → Shared * Unwind Z) (s : Shared) : result (Shared * Z) (Shared * PanicPayload) :=
  match callback s with
  | (s, Returns code) => Ok (s, code)
  | (s, Unwinds payload) => Err (s, payload)
  end.

(** C33: no panic escapes into C or out of the worker. Whatever the payload, also
    one whose destructor panics with another such payload, and whether or not
    the mailbox is poisoned: the callback given to libbpf returns a code, the
    report of its panic returns, and the worker returns; what they leave and
    return is what the pure operations say. *)
Theorem panics_contained poisoned callback worker_main (s : Shared) :
  catch_callback_panic_unwind poisoned callback s =
    (let '(s', code) := catch_callback_panic (caught_callback callback) s in (s', Returns code)) ∧
  report_callback_panic_unwind poisoned s =
    (let '(s', reported) := report_callback_panic s in (s', Returns reported)) ∧
  run_with worker_main s =
    (match worker_main s with
     | (s', Returns _) => s'
     | (s', Unwinds payload) => send_terminal (worker_receive_panic payload) s'
     end, Returns ()).
Proof.
  split_and!.
  - unfold catch_callback_panic_unwind, catch_callback_panic, caught_callback. destruct (callback s) as [s' [code|payload]]; [done|].
    simpl. rewrite callback_panic_state_content. destruct (callback_panic s'); simpl; by rewrite ?suppress_returns.
  - unfold report_callback_panic_unwind, report_callback_panic, take_callback_panic. rewrite callback_panic_state_content.
    destruct (callback_panic s) as [payload|]; [|done]. by rewrite worker_receive_panic_returns.
  - unfold run_with. destruct (worker_main s) as [s' [[]|payload]]; [done|]. simpl. by rewrite worker_receive_panic_returns.
Qed.
End report.

(** A payload whose destructor panics with a payload of the same kind: dropping
    it unwinds, suppressing it does not. *)
Definition hostile : PanicPayload := OpaquePayload (Some (OpaquePayload (Some (StrPayload "again")))).

Example hostile_payload :
  drop_payload hostile = Unwinds (OpaquePayload (Some (StrPayload "again"))) ∧
  suppress_panic_payload hostile = Returns () ∧ from_payload_unwind hostile = Returns (mkCollectorWorkerPanic None).
Proof. done. Qed.
