(* ===== verification/Privilege.v ===== *)
(** * Collection privileges (src/privilege.rs)

    [Privileges] is a state machine over a thread's credentials. The kernel is
    not part of the program: its calls are the fields of the class [Kernel],
    each a function of a world that returns the next world and a result, and
    [KernelLaws] states the documented behaviour the code relies on. The
    trait [FinalizationOps] is a class; [production_ops] is its instance over a
    kernel. [?] in code that changes credentials is the bind of the
    state-and-error monad [Priv]. *)

From S2P Require Import Prelude.

(** ** Errors *)

Inductive PrivilegeErrorKind :=
| NotSingleThreaded
| MissingSetupCapability
| AlreadyFinalized
| Inspect
| Transition
| Verify.

(** [Io] and [Errno] details keep the operation; their sources are types. *)
Inductive PrivilegeErrorDetail (IoError Errno : Type) :=
| Message (message : string)
| IoDetail (operation : string) (source : IoError)
| ErrnoDetail (operation : string) (source : Errno).
Arguments Message {IoError Errno} _.
Arguments IoDetail {IoError Errno} _ _.
Arguments ErrnoDetail {IoError Errno} _ _.

Record PrivilegeError (IoError Errno : Type) := mkPrivilegeError {
  pe_kind : PrivilegeErrorKind;
  pe_detail : PrivilegeErrorDetail IoError Errno;
}.
Arguments mkPrivilegeError {IoError Errno} _ _.
Arguments pe_kind {IoError Errno} _.
Arguments pe_detail {IoError Errno} _.

(** ** Capability sets: a [u64] bit mask each *)

Record CapabilitySets := mkCapabilitySets {
  cap_effective : N;
  cap_permitted : N;
  cap_inheritable : N;
}.
#[export] Instance CapabilitySets_eq_dec : EqDecision CapabilitySets.
Proof. solve_decision. Defined.

Definition empty_capabilities : CapabilitySets := mkCapabilitySets 0 0 0.

(** [a.contains(b)]. *)
Definition set_contains (a b : N) : bool := N.land a b =? b.

Definition KNOWN_CAPABILITY_BITS : N := 64.

(** [1_u64.checked_shl(index)]. *)
Definition capability (index : N) : option N :=
  if index <? 64 then Some (N.shiftl 1 index) else None.

(** ** The kernel *)

Class Kernel (W IoError Errno : Type) := {
  CAP_BPF : N;
  CAP_PERFMON : N;
  CAP_SETPCAP : N;
  (** The entries of /proc/self/task. *)
  k_read_tasks : W → W * result (list (result unit IoError)) IoError;
  k_capabilities : W → W * result CapabilitySets Errno;
  k_set_capabilities : CapabilitySets → W → W * result unit Errno;
  k_no_new_privs : W → W * result bool Errno;
  k_set_no_new_privs : W → W * result unit Errno;
  k_clear_ambient : W → W * result unit Errno;
  k_in_ambient : N → W → W * result bool Errno;
  k_in_bounding : N → W → W * result bool Errno;
  k_remove_bounding : N → W → W * result unit Errno;
  is_inval : Errno → bool;
}.
#[global] Hint Mode Kernel ! - - : typeclass_instances.
Arguments CAP_BPF W {IoError Errno _}.
Arguments CAP_PERFMON W {IoError Errno _}.
Arguments CAP_SETPCAP W {IoError Errno _}.
Arguments is_inval W {IoError Errno _} _.

(** ** The state-and-error monad *)

Definition Priv (W IoError Errno A : Type) : Type := W → W * result A (PrivilegeError IoError Errno).

Definition priv_ret {W IoError Errno A} (a : A) : Priv W IoError Errno A := λ w, (w, Ok a).
Definition priv_err {W IoError Errno A} (e : PrivilegeError IoError Errno) : Priv W IoError Errno A :=
  λ w, (w, Err e).
Definition priv_bind {W IoError Errno A B} (c : Priv W IoError Errno A) (k : A → Priv W IoError Errno B) :
    Priv W IoError Errno B :=
  λ w, match c w with
       | (w, Ok a) => k a w
       | (w, Err e) => (w, Err e)
       end.

Notation "'let!' x ':=' c 'in' k" :=
  (priv_bind c (λ x, k))
  (at level 10, x name, c at level 100, k at level 200,
   format "'[v' 'let!'  x  ':='  c  'in'  '/' k ']'") : rust_scope.

Section privilege.
Context {W IoError Errno : Type} `{Kernel W IoError Errno}.

Abbreviation Priv := (Priv W IoError Errno).
Abbreviation Error := (PrivilegeError IoError Errno).

Definition error_message (kind : PrivilegeErrorKind) (message : string) : Error :=
  mkPrivilegeError kind (Message message).
Definition inspect_io (operation : string) (error : IoError) : Error :=
  mkPrivilegeError Inspect (IoDetail operation error).
Definition inspect_errno (operation : string) (error : Errno) : Error :=
  mkPrivilegeError Inspect (ErrnoDetail operation error).
Definition transition_errno (operation : string) (error : Errno) : Error :=
  mkPrivilegeError Transition (ErrnoDetail operation error).

(** A kernel call with [map_err]. *)
Definition call {A F} (op : W → W * result A F) (f : F → Error) : Priv A :=
  λ w, let '(w, r) := op w in (w, map_err f r).

(** [tasks.next().transpose()]. *)
Definition next_entry (entries : list (result unit IoError)) :
    result (option unit * list (result unit IoError)) IoError :=
  match entries with
  | [] => Ok (None, [])
  | Ok e :: rest => Ok (Some e, rest)
  | Err e :: _ => Err e
  end.

Definition check_single_threaded : Priv unit :=
  let! tasks := call k_read_tasks (inspect_io "read /proc/self/task") in
  let! first := call (λ w, (w, next_entry tasks)) (inspect_io "read /proc/self/task") in
  let! second := call (λ w, (w, next_entry first.2)) (inspect_io "read /proc/self/task") in
  match first.1, second.1 with
  | Some _, None => priv_ret ()
  | _, _ => priv_err (error_message NotSingleThreaded "the process is not single-threaded")
  end.

Definition current_capabilities : Priv CapabilitySets :=
  call k_capabilities (inspect_errno "read capability sets").
Definition change_capabilities (sets : CapabilitySets) : Priv unit :=
  call (k_set_capabilities sets) (transition_errno "set capability sets").
Definition current_no_new_privs : Priv bool :=
  call k_no_new_privs (inspect_errno "read no_new_privs").
Definition enable_no_new_privs : Priv unit :=
  call k_set_no_new_privs (transition_errno "set no_new_privs").
Definition clear_ambient : Priv unit :=
  call k_clear_ambient (transition_errno "clear ambient capabilities").
Definition ambient_contains (cap : N) : Priv bool :=
  call (k_in_ambient cap) (inspect_errno "read ambient capability set").

Definition bounding_contains (cap : N) : Priv (option bool) :=
  λ w, match k_in_bounding cap w with
       | (w, Ok value) => (w, Ok (Some value))
       | (w, Err error) =>
           if is_inval W error then (w, Ok None)
           else (w, Err (inspect_errno "read capability bounding set" error))
       end.

Definition remove_bounding (cap : N) : Priv unit :=
  call (k_remove_bounding cap) (transition_errno "reduce capability bounding set").

(** [for capability in (0..BITS).map_while(capability)]. *)
Fixpoint for_capabilities (indices : list N) (action : N → Priv unit) : Priv unit :=
  match indices with
  | [] => priv_ret ()
  | index :: rest =>
      match capability index with
      | None => priv_ret ()
      | Some cap =>
          let! supported := bounding_contains cap in
          match supported with
          | None => priv_ret ()
          | Some _ => let! _ := action cap in for_capabilities rest action
          end
      end
  end.

Definition capability_indices : list N := N.of_nat <$> seq 0 (N.to_nat KNOWN_CAPABILITY_BITS).

Definition each_supported_capability (action : N → Priv unit) : Priv unit :=
  for_capabilities capability_indices action.

Definition clear_bounding : Priv unit :=
  each_supported_capability (λ cap,
    let! contained := bounding_contains cap in
    match contained with
    | Some true => remove_bounding cap
    | _ => priv_ret ()
    end).

Definition verify_capability (cap : N) : Priv unit :=
  let! ambient := ambient_contains cap in
  if ambient : bool
  then priv_err (error_message Verify "the ambient capability set is not empty")
  else
    let! contained := bounding_contains cap in
    match contained with
    | Some true => priv_err (error_message Verify "the capability bounding set is not empty")
    | _ => priv_ret ()
    end.

Definition verify (expected : CapabilitySets) : Priv unit :=
  let! nnp := current_no_new_privs in
  if negb nnp then priv_err (error_message Verify "no_new_privs is not set")
  else
    let! current := current_capabilities in
    if decide (current = expected) then each_supported_capability verify_capability
    else priv_err (error_message Verify "capability sets differ from the requested state").
End privilege.

(** ** The policy state machine *)

Inductive Policy := Minimized | Preserved | VerificationPending | PolicyFinished.
Inductive FinalizationMode := Explicit | Cleanup.
#[export] Instance Policy_eq_dec : EqDecision Policy.
Proof. solve_decision. Defined.

Class FinalizationOps (W IoError Errno : Type) := {
  op_check_thread : Priv W IoError Errno unit;
  op_clear_ambient : Priv W IoError Errno unit;
  op_clear_bounding : Priv W IoError Errno unit;
  op_clear_capabilities : Priv W IoError Errno unit;
  op_verify : Priv W IoError Errno unit;
}.

Definition already_finalized {IoError Errno} : PrivilegeError IoError Errno :=
  error_message AlreadyFinalized
    "minimized privileges cannot be reused after final capability removal".

(** The steps before the final removal of the capabilities. *)
Definition remove_authority `{FinalizationOps W IoError Errno} : Priv W IoError Errno unit :=
  let! _ := op_check_thread in
  let! _ := op_clear_ambient in
  let! _ := op_check_thread in
  let! _ := op_clear_bounding in
  let! _ := op_check_thread in
  op_clear_capabilities.

(** [finish_policy_with]; the policy is the [&mut] argument. *)
Definition finish_policy_with `{FinalizationOps W IoError Errno} (policy : Policy)
    (mode : FinalizationMode) (w : W) : W * Policy * result unit (PrivilegeError IoError Errno) :=
  match policy with
  | Preserved | PolicyFinished => (w, policy, Ok ())
  | VerificationPending =>
      match mode with
      | Explicit => (w, policy, Err already_finalized)
      | Cleanup =>
          match op_verify w with
          | (w, Ok _) => (w, PolicyFinished, Ok ())
          | (w, Err e) => (w, policy, Err e)
          end
      end
  | Minimized =>
      match remove_authority w with
      | (w, Err e) => (w, Minimized, Err e)
      | (w, Ok _) =>
          match op_verify w with
          | (w, Err e) => (w, VerificationPending, Err e)
          | (w, Ok _) => (w, PolicyFinished, Ok ())
          end
      end
  end.

#[export] Instance production_ops `{Kernel W IoError Errno} : FinalizationOps W IoError Errno := {|
  op_check_thread := check_single_threaded;
  op_clear_ambient := clear_ambient;
  op_clear_bounding := clear_bounding;
  op_clear_capabilities := change_capabilities empty_capabilities;
  op_verify := verify empty_capabilities;
|}.

(** ** [Privileges]: a result, or the process aborted *)

Inductive outcome (A : Type) := Continues (a : A) | Aborts.
Arguments Continues {A} _.
Arguments Aborts {A}.

Section privileges.
Context {W IoError Errno : Type} `{Kernel W IoError Errno}.

Definition ensure_can_prepare (policy : Policy) : result unit (PrivilegeError IoError Errno) :=
  match policy with
  | VerificationPending | PolicyFinished => Err already_finalized
  | _ => Ok ()
  end.

Definition finish (policy : Policy) (w : W) : W * Policy * result unit (PrivilegeError IoError Errno) :=
  finish_policy_with policy Explicit w.

(** [Drop for Privileges], and the armed [Drop for MinimizationCleanup]. *)
Definition drop_policy (policy : Policy) (w : W) : outcome W :=
  match finish_policy_with (Errno := Errno) policy Cleanup w with
  | (w, _, Ok _) => Continues w
  | (_, _, Err _) => Aborts
  end.

Definition SETUP_CAPABILITIES : N := N.lor (CAP_BPF W) (CAP_PERFMON W).

Definition setup_sets : CapabilitySets := mkCapabilitySets SETUP_CAPABILITIES SETUP_CAPABILITIES 0.

(** The accumulation over the supported capabilities. *)
Fixpoint any_bounding (indices : list N) (acc : bool) : Priv W IoError Errno bool :=
  match indices with
  | [] => priv_ret acc
  | index :: rest =>
      match capability index with
      | None => priv_ret acc
      | Some cap =>
          let! supported := bounding_contains cap in
          match supported with
          | None => priv_ret acc
          | Some _ =>
              let! contained := bounding_contains cap in
              any_bounding rest (acc || match contained with Some true => true | _ => false end)
          end
      end
  end.

Definition preflight_minimization : Priv W IoError Errno unit :=
  let! _ := check_single_threaded in
  let! current := current_capabilities in
  if negb (set_contains (cap_permitted current) SETUP_CAPABILITIES)
  then priv_err (error_message MissingSetupCapability "CAP_BPF and CAP_PERFMON must be permitted")
  else
    let! bounding_nonempty := any_bounding capability_indices false in
    if bounding_nonempty && negb (set_contains (cap_effective current) (CAP_SETPCAP W))
    then priv_err (error_message MissingSetupCapability
           "CAP_SETPCAP is required to empty the capability bounding set")
    else priv_ret ().

(** The part of [minimize] under the armed cleanup guard. *)
Definition minimize_guarded : Priv W IoError Errno unit :=
  let! _ := check_single_threaded in
  let! _ := clear_ambient in
  let! _ := check_single_threaded in
  let! _ := clear_bounding in
  let! _ := check_single_threaded in
  let! _ := change_capabilities setup_sets in
  verify setup_sets.

Definition minimize (w : W) : outcome (W * result Policy (PrivilegeError IoError Errno)) :=
  match (let! _ := preflight_minimization in
         let! _ := check_single_threaded in
         enable_no_new_privs) w with
  | (w, Err e) => Continues (w, Err e)
  | (w, Ok _) =>
      match minimize_guarded w with
      | (w, Ok _) => Continues (w, Ok Minimized)
      | (w, Err e) =>
          match drop_policy Minimized w with
          | Continues w => Continues (w, Err e)
          | Aborts => Aborts
          end
      end
  end.

Definition preserve : Policy := Preserved.
End privileges.
Arguments SETUP_CAPABILITIES W {IoError Errno _}.
Arguments setup_sets W {IoError Errno _}.
