(* ===== verification/PrivilegeSpec.v ===== *)
(** * Credential safety of the privilege policy (src/privilege.rs)

    Proved against [KernelLaws]: no path through [minimize], [finish] or a
    drop lets the process continue with authority that was not verified gone.
    [finish_policy_with] alone is proved against any [FinalizationOps]. *)

From S2P Require Import Prelude Privilege.

(** ** The state machine, whatever the operations do *)

Section policy.
Context `{FinalizationOps W IoError Errno}.

(** Authority was removed for good: such a policy never becomes [Minimized] again. *)
Definition removed (p : Policy) : Prop := p = VerificationPending ∨ p = PolicyFinished.

Lemma finish_removed p mode (w : W) w' p' r :
  finish_policy_with p mode w = (w', p', r) → removed p → removed p'.
Proof.
  intros Hf [->| ->]; unfold removed in *; simpl in Hf.
  - destruct mode; [simplify_eq; auto|]. destruct (op_verify w) as [? []]; simplify_eq; auto.
  - simplify_eq. auto.
Qed.

(** The policy machine. Preserved and finished policies perform nothing.
    A policy whose removal is done but unverified is refused explicitly
    without any operation, and in cleanup only verified. A minimized policy
    stays minimized, hence reusable, when anything before the final removal
    fails; becomes pending when the verification fails; and finishes when both
    succeed. Success always means: nothing to do, or a verification that
    succeeded in the final world. *)
Theorem finish_policy_spec p mode (w : W) w' p' r :
  finish_policy_with p mode w = (w', p', r) →
  (p = Preserved → w' = w ∧ p' = Preserved ∧ r = Ok ()) ∧
  (p = PolicyFinished → w' = w ∧ p' = PolicyFinished ∧ r = Ok ()) ∧
  (p = VerificationPending → mode = Explicit → w' = w ∧ p' = p ∧ r = Err already_finalized) ∧
  (removed p → removed p') ∧
  (p = Minimized → p' = Minimized ↔ ∃ e, remove_authority w = (w', Err e) ∧ r = Err e) ∧
  (p' = PolicyFinished ↔ p = PolicyFinished ∨ (p ≠ Preserved ∧ r = Ok ())) ∧
  (r = Ok () → p = Preserved ∨ p = PolicyFinished ∨ ∃ w0, op_verify w0 = (w', Ok ())).
Proof.
  intros Hf. split_and!; try (by intros ->; simpl in Hf; simplify_eq).
  - intros -> ->. simpl in Hf. by simplify_eq.
  - by apply (finish_removed _ _ _ _ _ _ Hf).
  - intros ->. simpl in Hf. destruct (remove_authority w) as [w1 [[]|e]] eqn:Hr.
    + destruct (op_verify w1) as [w2 [[]|e]]; simplify_eq; naive_solver.
    + simplify_eq. naive_solver.
  - destruct p; simpl in Hf; simplify_eq; try naive_solver.
    + destruct (remove_authority w) as [w1 [[]|e]]; [|simplify_eq; naive_solver].
      destruct (op_verify w1) as [w2 [[]|e]]; simplify_eq; naive_solver.
    + destruct mode; [simplify_eq; naive_solver|].
      destruct (op_verify w) as [w2 [[]|e]]; simplify_eq; naive_solver.
  - intros ->. destruct p; simpl in Hf; auto; right; right.
    + destruct (remove_authority w) as [w1 [[]|e]]; [|by simplify_eq].
      destruct (op_verify w1) as [w2 [[]|e]] eqn:Hv; simplify_eq. eauto.
    + destruct mode; [by simplify_eq|].
      destruct (op_verify w) as [w2 [[]|e]] eqn:Hv; simplify_eq. eauto.
Qed.
End policy.

(** ** The kernel's documented behaviour *)

(** A thread's credentials. *)
Record Creds := mkCreds {
  c_caps : CapabilitySets;
  c_no_new_privs : bool;
  c_ambient : N;
  c_bounding : N;
}.

(** The bit of capability [i]. *)
Definition cap_bit (i : N) : N := N.shiftl 1 i.

Class KernelLaws (W IoError Errno : Type) `{Kernel W IoError Errno} := {
  creds : W → Creds;
  (** CAP_LAST_CAP: the ambient and bounding sets have no higher bit. *)
  last_cap : N;
  last_cap_fits : last_cap < 64;
  ambient_bits : ∀ w i, N.testbit (c_ambient (creds w)) i = true → i <= last_cap;
  bounding_bits : ∀ w i, N.testbit (c_bounding (creds w)) i = true → i <= last_cap;
  (** Inspections change nothing and, when they answer, answer truly. *)
  read_tasks_law : ∀ w, creds (k_read_tasks w).1 = creds w;
  capabilities_law : ∀ w w' r, k_capabilities w = (w', r) →
    creds w' = creds w ∧ ∀ c, r = Ok c → c = c_caps (creds w);
  no_new_privs_law : ∀ w w' r, k_no_new_privs w = (w', r) →
    creds w' = creds w ∧ ∀ b, r = Ok b → b = c_no_new_privs (creds w);
  in_ambient_law : ∀ i w w' r, k_in_ambient (cap_bit i) w = (w', r) →
    creds w' = creds w ∧ ∀ b, r = Ok b → b = N.testbit (c_ambient (creds w)) i;
  in_bounding_law : ∀ i w w' r, k_in_bounding (cap_bit i) w = (w', r) →
    creds w' = creds w ∧ (∀ b, r = Ok b → b = N.testbit (c_bounding (creds w)) i) ∧
    ∀ e, r = Err e → is_inval W e = true → last_cap < i;
  (** Changes take effect when they succeed, and a failed one changes nothing. *)
  set_capabilities_law : ∀ sets w w' r, k_set_capabilities sets w = (w', r) →
    match r with
    | Ok _ => c_caps (creds w') = sets ∧ c_no_new_privs (creds w') = c_no_new_privs (creds w)
    | Err _ => creds w' = creds w
    end;
  set_no_new_privs_law : ∀ w w' r, k_set_no_new_privs w = (w', r) →
    match r with
    | Ok _ => c_no_new_privs (creds w') = true ∧ c_caps (creds w') = c_caps (creds w)
    | Err _ => creds w' = creds w
    end;
}.

Section safety.
Context `{KernelLaws W IoError Errno}.

Abbreviation Priv := (Priv W IoError Errno).

Lemma priv_bind_Ok {A B} (c : Priv A) (k : A → Priv B) w w' b :
  priv_bind c k w = (w', Ok b) ↔ ∃ w1 a, c w = (w1, Ok a) ∧ k a w1 = (w', Ok b).
Proof. unfold priv_bind. destruct (c w) as [w1 [a|e]]; naive_solver. Qed.

(** A computation that only inspects. *)
Definition inspects {A} (c : Priv A) : Prop := ∀ w w' r, c w = (w', r) → creds w' = creds w.

Lemma inspects_bind {A B} (c : Priv A) (k : A → Priv B) :
  inspects c → (∀ a, inspects (k a)) → inspects (priv_bind c k).
Proof.
  intros Hc Hk w w' r. unfold priv_bind. destruct (c w) as [w1 [a|e]] eqn:E.
  - intros Hr. apply Hk in Hr. apply Hc in E. congruence.
  - intros [= <- <-]. by apply Hc in E.
Qed.

Lemma inspects_ret {A} (a : A) : inspects (priv_ret a).
Proof. by intros w w' r [= <- <-]. Qed.
Lemma inspects_err {A} e : inspects (priv_err (A := A) e).
Proof. by intros w w' r [= <- <-]. Qed.

Lemma inspects_call {A F} (op : W → W * result A F) f :
  (∀ w, creds (op w).1 = creds w) → inspects (call op f).
Proof.
  intros Hop w w' r. unfold call. specialize (Hop w). destruct (op w) as [w1 r1]. by intros [= <- <-].
Qed.

Lemma inspects_check : inspects check_single_threaded.
Proof.
  repeat (apply inspects_bind; [apply inspects_call; intros; simpl; auto using read_tasks_law|intros]).
  repeat case_match; apply inspects_ret || apply inspects_err.
Qed.

Lemma inspects_capabilities : inspects current_capabilities.
Proof.
  apply inspects_call. intros w. destruct (k_capabilities w) as [w' r] eqn:E.
  by apply capabilities_law in E as [? _].
Qed.

Lemma current_capabilities_Ok w w' c :
  current_capabilities w = (w', Ok c) → creds w' = creds w ∧ c = c_caps (creds w).
Proof.
  unfold current_capabilities, call. destruct (k_capabilities w) as [w1 r] eqn:E.
  intros [= <- Hr%map_err_Ok]. apply capabilities_law in E as [? Hc]. auto.
Qed.

Lemma current_no_new_privs_Ok w w' b :
  current_no_new_privs w = (w', Ok b) → creds w' = creds w ∧ b = c_no_new_privs (creds w).
Proof.
  unfold current_no_new_privs, call. destruct (k_no_new_privs w) as [w1 r] eqn:E.
  intros [= <- Hr%map_err_Ok]. apply no_new_privs_law in E as [? Hc]. auto.
Qed.

Lemma ambient_contains_Ok i w w' b :
  ambient_contains (cap_bit i) w = (w', Ok b) →
  creds w' = creds w ∧ b = N.testbit (c_ambient (creds w)) i.
Proof.
  unfold ambient_contains, call. destruct (k_in_ambient _ w) as [w1 r] eqn:E.
  intros [= <- Hr%map_err_Ok]. apply in_ambient_law in E as [? Hc]. auto.
Qed.

Lemma bounding_contains_Ok i w w' o :
  bounding_contains (cap_bit i) w = (w', Ok o) →
  creds w' = creds w ∧
  match o with
  | Some b => b = N.testbit (c_bounding (creds w)) i
  | None => last_cap < i
  end.
Proof.
  unfold bounding_contains. destruct (k_in_bounding _ w) as [w1 r] eqn:E.
  apply in_bounding_law in E as (Hc & Hb & Hi). destruct r as [b|e].
  - intros [= <- <-]. auto.
  - destruct (is_inval W e) eqn:He; intros [= <- <-]. eauto.
Qed.

Lemma inspects_bounding i : inspects (bounding_contains (cap_bit i)).
Proof.
  intros w w' r. unfold bounding_contains. destruct (k_in_bounding _ w) as [w1 r1] eqn:E.
  apply in_bounding_law in E as (Hc & _). repeat case_match; by intros [= <- <-].
Qed.

(** ** What a successful verification proves *)

Lemma verify_capability_Ok i w w' :
  verify_capability (cap_bit i) w = (w', Ok ()) →
  creds w' = creds w ∧ N.testbit (c_ambient (creds w)) i = false ∧
  N.testbit (c_bounding (creds w)) i = false ∨ creds w' = creds w ∧ last_cap < i.
Proof.
  unfold verify_capability. rewrite priv_bind_Ok. intros (w1 & a & [H1 ->]%ambient_contains_Ok & Hk).
  destruct (N.testbit (c_ambient (creds w)) i); [done|].
  apply priv_bind_Ok in Hk as (w2 & o & [H2 Ho]%bounding_contains_Ok & Hk).
  destruct o as [[]|]; [done|injection Hk as <-..].
  - left. rewrite H2, H1. rewrite H1 in Ho. done.
  - right. by rewrite H2, H1.
Qed.

(** Indices in increasing order: after an unsupported one, all are. *)
Lemma for_capabilities_verified indices w w' :
  StronglySorted N.le indices → Forall (λ i, i < 64) indices →
  for_capabilities indices verify_capability w = (w', Ok ()) →
  creds w' = creds w ∧
  Forall (λ i, i <= last_cap → N.testbit (c_ambient (creds w)) i = false ∧
                               N.testbit (c_bounding (creds w)) i = false) indices.
Proof.
  revert w. induction indices as [|i rest IH]; intros w Hs Hl; simpl.
  { intros [= <-]. auto. }
  apply StronglySorted_cons in Hs as [Hi Hs]. apply Forall_cons in Hl as [Hl Hr].
  unfold capability. rewrite (proj2 (N.ltb_lt _ _)) by done. change (N.shiftl 1 i) with (cap_bit i).
  rewrite priv_bind_Ok. intros (w1 & o & [H1 Ho]%bounding_contains_Ok & Hk). destruct o as [b|].
  - apply priv_bind_Ok in Hk as (w2 & [] & Hv & Hk). apply verify_capability_Ok in Hv.
    assert (creds w2 = creds w) as H2 by (destruct Hv as [[-> _]|[-> _]]; done).
    destruct (IH w2 Hs Hr Hk) as [H3 Hall]. split; [congruence|]. rewrite H2 in Hall.
    constructor; [|done]. rewrite H1 in Hv. intros Hle. destruct Hv as [(_ & Ha & Hb)|[_ Hgt]]; [done|lia].
  - injection Hk as <-. split; [done|]. constructor; [lia|].
    eapply Forall_impl; [exact Hi|]. simpl. intros j Hj ?. lia.
Qed.

Lemma indices_sorted : StronglySorted N.le capability_indices.
Proof.
  unfold capability_indices. eapply (StronglySorted_fmap _ Nat.le); [intros; lia|].
  generalize 0%nat. induction (N.to_nat KNOWN_CAPABILITY_BITS) as [|n IH]; intros k; simpl; constructor.
  - apply IH.
  - apply Forall_forall. intros x [? _]%elem_of_seq. lia.
Qed.

Lemma indices_all i : i < 64 ↔ i ∈ capability_indices.
Proof.
  unfold capability_indices, KNOWN_CAPABILITY_BITS. rewrite list_elem_of_fmap. split.
  - intros Hi. exists (N.to_nat i). split; [lia|]. apply elem_of_seq. lia.
  - intros (n & -> & Hn%elem_of_seq). lia.
Qed.

Lemma supported_all_clear (x : N) :
  (∀ i, N.testbit x i = true → i <= last_cap) →
  (∀ i, i ∈ capability_indices → i <= last_cap → N.testbit x i = false) → x = 0.
Proof.
  intros Hb Hc. apply N.bits_inj_0. intros i. destruct (N.testbit x i) eqn:E; [|done].
  apply Hb in E as Hi. rewrite Hc in E; [done| |done]. apply indices_all.
  pose proof last_cap_fits. lia.
Qed.

(** The credentials a verification for [sets] vouches for. *)
Definition verified (sets : CapabilitySets) (w : W) : Prop :=
  creds w = mkCreds sets true 0 0.

Lemma verify_sound sets w w' : verify sets w = (w', Ok ()) → verified sets w'.
Proof.
  unfold verify. rewrite priv_bind_Ok. intros (w1 & b & [H1 ->]%current_no_new_privs_Ok & Hk).
  destruct (c_no_new_privs (creds w)) eqn:Hn; simpl in Hk; [|done].
  apply priv_bind_Ok in Hk as (w2 & c & [H2 ->]%current_capabilities_Ok & Hk).
  case_decide as Hc; [|done].
  apply for_capabilities_verified in Hk as [H3 Hall]; [|apply indices_sorted|].
  2: { apply Forall_forall. intros i. apply indices_all. }
  unfold verified. rewrite H3, H2, H1. rewrite Forall_forall in Hall. rewrite H2, H1 in Hall. rewrite H1 in Hc.
  destruct (creds w) as [caps nnp amb bnd] eqn:Ec. simpl in *.
  assert (amb = 0) as ->.
  { apply supported_all_clear; [intros i|intros i ? ?; by apply Hall].
    pose proof (ambient_bits w i) as Ha. rewrite Ec in Ha. exact Ha. }
  assert (bnd = 0) as ->.
  { apply supported_all_clear; [intros i|intros i ? ?; by apply Hall].
    pose proof (bounding_bits w i) as Ha. rewrite Ec in Ha. exact Ha. }
  by subst.
Qed.

Lemma inspects_any_bounding indices acc : inspects (any_bounding indices acc).
Proof.
  revert acc. induction indices as [|i rest IH]; intros acc; simpl; [apply inspects_ret|].
  unfold capability. destruct (i <? 64); [|apply inspects_ret]. change (N.shiftl 1 i) with (cap_bit i).
  apply inspects_bind; [apply inspects_bounding|]. intros [b|]; [|apply inspects_ret].
  apply inspects_bind; [apply inspects_bounding|]. intros. apply IH.
Qed.

Lemma inspects_preflight : inspects preflight_minimization.
Proof.
  apply inspects_bind; [apply inspects_check|intros _].
  apply inspects_bind; [apply inspects_capabilities|intros c].
  case_match; [apply inspects_err|]. apply inspects_bind; [apply inspects_any_bounding|intros b].
  case_match; apply inspects_err || apply inspects_ret.
Qed.

Lemma drop_verified p w w' :
  p ≠ Preserved → p ≠ PolicyFinished → drop_policy p w = Continues w' → verified empty_capabilities w'.
Proof.
  intros Hp Hf. unfold drop_policy, finish_policy_with. destruct p; try done; simpl.
  - destruct (remove_authority w) as [w1 [[]|e]]; [|done].
    destruct (verify empty_capabilities w1) as [w2 [[]|e]] eqn:Hv; [|done].
    intros [= <-]. by eapply verify_sound.
  - destruct (verify empty_capabilities w) as [w2 [[]|e]] eqn:Hv; [|done].
    intros [= <-]. by eapply verify_sound.
Qed.

Lemma enable_no_new_privs_Err w w' e :
  enable_no_new_privs w = (w', Err e) → creds w' = creds w.
Proof.
  unfold enable_no_new_privs, call. destruct (k_set_no_new_privs w) as [w1 [[]|e1]] eqn:Hs; simpl; [done|].
  intros [= <- _]. by apply set_no_new_privs_law in Hs.
Qed.

Lemma before_guard_Err w w' e :
  (let! _ := preflight_minimization in
   let! _ := check_single_threaded in
   enable_no_new_privs) w = (w', Err e) → creds w' = creds w.
Proof.
  unfold priv_bind. destruct (preflight_minimization w) as [w1 [[]|e1]] eqn:H1;
    apply inspects_preflight in H1; [|by intros [= <- _]].
  destruct (check_single_threaded w1) as [w2 [[]|e2]] eqn:H2; apply inspects_check in H2;
    [|intros [= <- _]; congruence].
  intros H3%enable_no_new_privs_Err. congruence.
Qed.

Lemma minimize_result w w' r :
  minimize w = Continues (w', r) →
  match r with
  | Ok p => p = Minimized ∧ verified (setup_sets W) w'
  | Err _ => creds w' = creds w ∨ verified empty_capabilities w'
  end.
Proof.
  unfold minimize. destruct ((let! _ := preflight_minimization in _) w) as [w1 [[]|e1]] eqn:H1.
  - destruct (minimize_guarded w1) as [w2 [[]|e2]] eqn:H2.
    + intros [= <- <-]. split; [done|]. unfold minimize_guarded in H2.
      do 6 apply priv_bind_Ok in H2 as (? & [] & _ & H2). by eapply verify_sound.
    + destruct (drop_policy Minimized w2) as [w3|] eqn:H3; [|done]. intros [= <- <-].
      right. by eapply drop_verified in H3.
  - intros [= <- <-]. left. by apply before_guard_Err in H1.
Qed.

(** C10: [minimize] returns a minimized policy only with [no_new_privs] set,
    empty ambient and bounding sets and exactly the two setup capabilities
    effective and permitted. When it returns an error and the process goes on,
    either no credential was changed or all authority was verified removed. *)
Theorem minimize_safe w w' r :
  minimize w = Continues (w', r) →
  match r with
  | Ok p => p = Minimized ∧ verified (setup_sets W) w'
  | Err _ => creds w' = creds w ∨ verified empty_capabilities w'
  end.
Proof. apply minimize_result. Qed.

(** C22: a policy that changed the credentials is not outlived with authority
    left. Finishing a minimized policy successfully, and outliving the drop of a
    policy that is minimized or whose verification is pending, both mean that the
    thread's credentials were verified empty with [no_new_privs] set; any other
    end of the drop aborts the process, and a policy pending verification is
    never finished by [finish]. A policy that preserves the credentials, or was
    finished before, is left alone and changes nothing. *)
Theorem no_unverified_authority p w :
  (∀ w' p', finish p w = (w', p', Ok ()) →
     match p with
     | Minimized => p' = PolicyFinished ∧ verified empty_capabilities w'
     | VerificationPending => False
     | Preserved | PolicyFinished => p' = p ∧ w' = w
     end) ∧
  (∀ w', drop_policy p w = Continues w' →
     match p with
     | Minimized | VerificationPending => verified empty_capabilities w'
     | Preserved | PolicyFinished => w' = w
     end).
Proof.
  split.
  - intros w' p' Hf. unfold finish in Hf. destruct p; simpl in Hf; [|by simplify_eq|done|by simplify_eq].
    destruct (remove_authority w) as [w1 [[]|e]]; [|done].
    destruct (verify empty_capabilities w1) as [w2 [[]|e]] eqn:Hv; simplify_eq.
    split; [done|]. by eapply verify_sound.
  - intros w' Hd. destruct p; [by eapply drop_verified; [| |exact Hd]|by injection Hd|by eapply drop_verified; [| |exact Hd]|by injection Hd].
Qed.
End safety.

(** ** A cooperative kernel lets the policy finish *)

(** A single-threaded process whose calls succeed where the kernel allows them. *)
Class CooperativeKernel (W IoError Errno : Type) `{KernelLaws W IoError Errno} := {
  coop_tasks : ∀ (w : W), ∃ w', k_read_tasks w = (w', Ok [Ok ()]);
  coop_capabilities : ∀ (w : W), ∃ w' c, k_capabilities w = (w', Ok c);
  coop_no_new_privs : ∀ (w : W), ∃ w' b, k_no_new_privs w = (w', Ok b);
  coop_in_ambient : ∀ i (w : W), i <= last_cap → ∃ w' b, k_in_ambient (cap_bit i) w = (w', Ok b);
  coop_in_bounding : ∀ i (w : W), ∃ w' r, k_in_bounding (cap_bit i) w = (w', r) ∧
    match r with Ok _ => i <= last_cap | Err e => is_inval W e = true end;
  coop_clear_ambient : ∀ (w : W), ∃ w', k_clear_ambient w = (w', Ok ()) ∧
    creds w' = mkCreds (c_caps (creds w)) (c_no_new_privs (creds w)) 0 (c_bounding (creds w));
  coop_drop_capabilities : ∀ (w : W), c_ambient (creds w) = 0 →
    ∃ w', k_set_capabilities empty_capabilities w = (w', Ok ()) ∧
    creds w' = mkCreds empty_capabilities (c_no_new_privs (creds w)) 0 (c_bounding (creds w));
}.

Section liveness.
Context `{CooperativeKernel W IoError Errno}.

(** From any world with credentials [C], [c] returns [a] and leaves [C']. *)
Definition goes {A} (C : Creds) (c : Priv W IoError Errno A) (a : A) (C' : Creds) : Prop :=
  ∀ w, creds w = C → ∃ w', c w = (w', Ok a) ∧ creds w' = C'.

Lemma goes_bind {A B} C (c : Priv W IoError Errno A) a C1 (k : A → Priv W IoError Errno B) b C2 :
  goes C c a C1 → goes C1 (k a) b C2 → goes C (priv_bind c k) b C2.
Proof.
  intros Hc Hk w Hw. destruct (Hc w Hw) as (w1 & E1 & Hw1). destruct (Hk w1 Hw1) as (w2 & E2 & Hw2).
  exists w2. unfold priv_bind. by rewrite E1.
Qed.

Lemma goes_ret {A} C (a : A) : goes C (priv_ret a) a C.
Proof. intros w Hw. by exists w. Qed.

Lemma goes_check C : goes C check_single_threaded () C.
Proof.
  intros w Hw. destruct (coop_tasks w) as [w' Ht].
  exists w'. unfold check_single_threaded, priv_bind, call. rewrite Ht. simpl. split; [done|].
  pose proof (read_tasks_law w) as Hl. rewrite Ht in Hl. simpl in Hl. congruence.
Qed.

Lemma goes_bounding C i :
  goes C (bounding_contains (cap_bit i))
    (if decide (i <= last_cap) then Some (N.testbit (c_bounding C) i) else None) C.
Proof.
  intros w Hw. destruct (coop_in_bounding i w) as (w' & r & Hr & Hm). exists w'.
  pose proof Hr as Hlaw. apply in_bounding_law in Hlaw as (Hc & Hb & Hi). split; [|congruence].
  unfold bounding_contains. rewrite Hr. destruct r as [b|e].
  - rewrite decide_True by done. rewrite (Hb b eq_refl). congruence.
  - rewrite Hm. rewrite decide_False; [done|]. pose proof (Hi e eq_refl Hm). lia.
Qed.

Lemma goes_for_capabilities C indices action :
  Forall (λ i, i < 64) indices →
  (∀ i, i <= last_cap → goes C (action (cap_bit i)) () C) →
  goes C (for_capabilities indices action) () C.
Proof.
  intros Hl Ha. induction Hl as [|i rest Hi Hl IH]; simpl; [apply goes_ret|].
  unfold capability. rewrite (proj2 (N.ltb_lt _ _)) by done. change (N.shiftl 1 i) with (cap_bit i).
  eapply goes_bind; [apply goes_bounding|]. case_decide; [|apply goes_ret].
  eapply goes_bind; [by apply Ha|done].
Qed.

Lemma indices_bounded : Forall (λ i, i < 64) capability_indices.
Proof. apply Forall_forall. intros i. apply indices_all. Qed.

Lemma goes_clear_bounding caps nnp amb :
  goes (mkCreds caps nnp amb 0) clear_bounding () (mkCreds caps nnp amb 0).
Proof.
  apply goes_for_capabilities; [apply indices_bounded|]. intros i Hi.
  eapply goes_bind; [apply goes_bounding|]. rewrite decide_True by done. simpl.
  apply goes_ret.
Qed.

Lemma goes_verify sets : goes (mkCreds sets true 0 0) (verify sets) () (mkCreds sets true 0 0).
Proof.
  unfold verify. eapply goes_bind with true (mkCreds sets true 0 0).
  { intros w Hw. destruct (coop_no_new_privs w) as (w' & b & Hb). exists w'.
    unfold current_no_new_privs, call. rewrite Hb. apply no_new_privs_law in Hb as [Hc Hb].
    rewrite (Hb b eq_refl), Hc, Hw. done. }
  simpl. eapply goes_bind with sets (mkCreds sets true 0 0).
  { intros w Hw. destruct (coop_capabilities w) as (w' & c & Hc). exists w'.
    unfold current_capabilities, call. rewrite Hc. apply capabilities_law in Hc as [Hc Hb].
    rewrite (Hb c eq_refl), Hc, Hw. done. }
  rewrite decide_True by done. apply goes_for_capabilities; [apply indices_bounded|]. intros i Hi.
  eapply goes_bind with false (mkCreds sets true 0 0).
  { intros w Hw. destruct (coop_in_ambient i w Hi) as (w' & b & Hb). exists w'.
    unfold ambient_contains, call. rewrite Hb. apply in_ambient_law in Hb as [Hc Hb].
    rewrite (Hb b eq_refl), Hc, Hw. done. }
  eapply goes_bind; [apply goes_bounding|]. rewrite decide_True by done. simpl.
  apply goes_ret.
Qed.

Lemma goes_remove_authority sets :
  goes (mkCreds sets true 0 0) remove_authority () (mkCreds empty_capabilities true 0 0).
Proof.
  eapply goes_bind; [apply goes_check|]. eapply goes_bind with () (mkCreds sets true 0 0).
  { intros w Hw. destruct (coop_clear_ambient w) as (w' & Hc & Hw'). exists w'. simpl.
    unfold clear_ambient, call. rewrite Hc. by rewrite Hw', Hw. }
  eapply goes_bind; [apply goes_check|]. eapply goes_bind; [apply goes_clear_bounding|].
  eapply goes_bind; [apply goes_check|].
  intros w Hw. destruct (coop_drop_capabilities w) as (w' & Hc & Hw'); [by rewrite Hw|]. exists w'.
  simpl. unfold change_capabilities, call. rewrite Hc. by rewrite Hw', Hw.
Qed.

(** On a cooperative kernel, a policy that [minimize] returned can always
    be finished: the explicit finalization succeeds with verified empty
    credentials, and dropping the policy instead does not abort. *)
Theorem minimized_policy_finishes w :
  verified (setup_sets W) w →
  (∃ w', finish Minimized w = (w', PolicyFinished, Ok ()) ∧ verified empty_capabilities w') ∧
  (∃ w', drop_policy Minimized w = Continues w' ∧ verified empty_capabilities w').
Proof.
  intros Hw. destruct (goes_remove_authority _ w Hw) as (w1 & E1 & Hw1).
  destruct (goes_verify _ w1 Hw1) as (w2 & E2 & Hw2).
  assert (op_verify w1 = (w2, Ok ())) as Hop by exact E2.
  unfold finish, drop_policy, finish_policy_with. rewrite E1, Hop. split; by exists w2.
Qed.
End liveness.

(** ** A simulated kernel

    Capabilities 0 to 40, as in Linux 5.9 and later. Its world is a thread's
    credentials; permitted capabilities can only be dropped, dropping them
    lowers the ambient set, and reducing the bounding set needs CAP_SETPCAP. *)

Module Sim.
Definition mask (x : N) : N := N.land x (N.ones 41).
Definition EPERM : N := 1.
Definition EINVAL : N := 22.

Definition contains_bit (set cap : N) (w : Creds) : Creds * result bool N :=
  if cap <? 2 ^ 41 then (w, Ok (negb (N.land (mask set) cap =? 0))) else (w, Err EINVAL).

#[export] Instance kernel : Kernel Creds unit N := {|
  CAP_BPF := cap_bit 39;
  CAP_PERFMON := cap_bit 38;
  CAP_SETPCAP := cap_bit 8;
  k_read_tasks := λ w, (w, Ok [Ok ()]);
  k_capabilities := λ w, (w, Ok (c_caps w));
  k_set_capabilities := λ sets w,
    if set_contains (cap_permitted (c_caps w)) (cap_permitted sets)
    then (mkCreds sets (c_no_new_privs w)
            (N.land (c_ambient w) (N.land (cap_permitted sets) (cap_inheritable sets))) (c_bounding w), Ok ())
    else (w, Err EPERM);
  k_no_new_privs := λ w, (w, Ok (c_no_new_privs w));
  k_set_no_new_privs := λ w, (mkCreds (c_caps w) true (c_ambient w) (c_bounding w), Ok ());
  k_clear_ambient := λ w, (mkCreds (c_caps w) (c_no_new_privs w) 0 (c_bounding w), Ok ());
  k_in_ambient := λ cap w, contains_bit (c_ambient w) cap w;
  k_in_bounding := λ cap w, contains_bit (c_bounding w) cap w;
  k_remove_bounding := λ cap w,
    if set_contains (cap_effective (c_caps w)) (cap_bit 8)
    then (mkCreds (c_caps w) (c_no_new_privs w) (c_ambient w) (N.ldiff (c_bounding w) cap), Ok ())
    else (w, Err EPERM);
  is_inval := N.eqb EINVAL;
|}.

(** Conversion unfolds the kernel's table before the bit tests. *)
#[local] Strategy 1000 [contains_bit cap_bit mask].

Definition masked (w : Creds) : Creds :=
  mkCreds (c_caps w) (c_no_new_privs w) (mask (c_ambient w)) (mask (c_bounding w)).

Lemma mask_bits x i : N.testbit (mask x) i = true → i <= 40.
Proof.
  unfold mask. rewrite N.land_spec. destruct (N.lt_ge_cases i 41); [lia|].
  rewrite N.ones_spec_high by done. by rewrite andb_false_r.
Qed.

Lemma cap_bit_lt i : (cap_bit i <? 2 ^ 41) = (i <=? 40).
Proof.
  unfold cap_bit. rewrite N.shiftl_1_l. apply eq_true_iff_eq. rewrite N.ltb_lt, N.leb_le.
  rewrite <- N.pow_lt_mono_r_iff; lia.
Qed.

Lemma contains_bit_Ok set i w w' r :
  contains_bit set (cap_bit i) w = (w', r) →
  w' = w ∧ (∀ b, r = Ok b → b = N.testbit (mask set) i) ∧ ∀ e, r = Err e → 40 < i.
Proof.
  unfold contains_bit. rewrite cap_bit_lt. destruct (N.leb_spec i 40); intros [= <- <-]; split_and!; try done.
  intros b [= <-]. unfold cap_bit. rewrite N.shiftl_1_l. apply eq_true_iff_eq.
  rewrite negb_true_iff, N.eqb_neq. apply land_pow2_ne_0.
Qed.

Lemma in_ambient_Ok i w w' r :
  k_in_ambient (cap_bit i) w = (w', r) →
  masked w' = masked w ∧ ∀ b, r = Ok b → b = N.testbit (c_ambient (masked w)) i.
Proof. intros (-> & Hb & _)%contains_bit_Ok. exact (conj eq_refl Hb). Qed.

Lemma in_bounding_Ok i w w' r :
  k_in_bounding (cap_bit i) w = (w', r) →
  masked w' = masked w ∧ (∀ b, r = Ok b → b = N.testbit (c_bounding (masked w)) i) ∧
  ∀ e, r = Err e → is_inval Creds e = true → 40 < i.
Proof.
  intros (-> & Hb & He)%contains_bit_Ok.
  exact (conj eq_refl (conj Hb (λ e Hr _, He e Hr))).
Qed.

Lemma capabilities_Ok w w' r :
  k_capabilities w = (w', r) → masked w' = masked w ∧ ∀ c, r = Ok c → c = c_caps (masked w).
Proof. intros [= <- <-]. split; [done|]. by intros c [= <-]. Qed.

Lemma no_new_privs_Ok w w' r :
  k_no_new_privs w = (w', r) → masked w' = masked w ∧ ∀ b, r = Ok b → b = c_no_new_privs (masked w).
Proof. intros [= <- <-]. split; [done|]. by intros c [= <-]. Qed.

Lemma set_capabilities_Ok sets w w' r :
  k_set_capabilities sets w = (w', r) →
  match r with
  | Ok _ => c_caps (masked w') = sets ∧ c_no_new_privs (masked w') = c_no_new_privs (masked w)
  | Err _ => masked w' = masked w
  end.
Proof. simpl. case_match; by intros [= <- <-]. Qed.

Lemma set_no_new_privs_Ok w w' r :
  k_set_no_new_privs w = (w', r) →
  match r with
  | Ok _ => c_no_new_privs (masked w') = true ∧ c_caps (masked w') = c_caps (masked w)
  | Err _ => masked w' = masked w
  end.
Proof. by intros [= <- <-]. Qed.

Lemma last_cap_lt : 40 < 64.
Proof. lia. Qed.

#[export] Instance laws : KernelLaws Creds unit N := {|
  creds := masked;
  last_cap := 40;
  last_cap_fits := last_cap_lt;
  ambient_bits := λ w i, mask_bits (c_ambient w) i;
  bounding_bits := λ w i, mask_bits (c_bounding w) i;
  read_tasks_law := λ w, eq_refl;
  capabilities_law := capabilities_Ok;
  no_new_privs_law := no_new_privs_Ok;
  in_ambient_law := in_ambient_Ok;
  in_bounding_law := in_bounding_Ok;
  set_capabilities_law := set_capabilities_Ok;
  set_no_new_privs_law := set_no_new_privs_Ok;
|}.

Lemma contains_bit_low set i w :
  i <= 40 → ∃ b, contains_bit set (cap_bit i) w = (w, Ok b).
Proof. intros Hi. unfold contains_bit. rewrite cap_bit_lt, (proj2 (N.leb_le _ _)) by done. by eexists. Qed.

Lemma contains_bit_result set i w :
  ∃ r, contains_bit set (cap_bit i) w = (w, r) ∧
  match r with Ok _ => i <= 40 | Err e => N.eqb EINVAL e = true end.
Proof. unfold contains_bit. rewrite cap_bit_lt. destruct (N.leb_spec i 40); by eexists. Qed.

#[export] Instance cooperative : CooperativeKernel Creds unit N.
Proof.
  constructor.
  - intros w. by exists w.
  - intros w. by exists w, (c_caps w).
  - intros w. by exists w, (c_no_new_privs w).
  - intros i w Hi. destruct (contains_bit_low (c_ambient w) i w Hi) as [b Hb]. by exists w, b.
  - intros i w. destruct (contains_bit_result (c_bounding w) i w) as [r Hr]. by exists w, r.
  - intros w. eexists. split; [reflexivity|reflexivity].
  - intros w Ha. eexists (mkCreds empty_capabilities (c_no_new_privs w) 0 (c_bounding w)).
    split; [|reflexivity]. simpl. unfold set_contains. simpl. by rewrite !N.land_0_r.
Qed.

(** Full root credentials, with an inherited ambient capability. *)
Definition root : Creds :=
  mkCreds (mkCapabilitySets (N.ones 41) (N.ones 41) (cap_bit 10)) false (cap_bit 10) (N.ones 41).
Definition minimized : Creds := mkCreds (setup_sets Creds) true 0 0.
Definition cleared : Creds := mkCreds empty_capabilities true 0 0.
(** The setup capabilities without CAP_SETPCAP in the effective set. *)
Definition unable : Creds :=
  mkCreds (mkCapabilitySets (setup_sets Creds).(cap_permitted) (N.ones 41) 0) false 0 (N.ones 41).
End Sim.
Import Sim.

Lemma finish_policy_spec_witness :
  finish_policy_with (IoError := unit) (Errno := N) Minimized Explicit Sim.minimized = (Sim.cleared, PolicyFinished, Ok ()) ∧
  ∃ w0, op_verify (IoError := unit) (Errno := N) w0 = (Sim.cleared, Ok ()).
Proof.
  assert (finish_policy_with (IoError := unit) (Errno := N) Minimized Explicit Sim.minimized = (Sim.cleared, PolicyFinished, Ok ())) as Hf
    by (vm_compute; reflexivity).
  split; [exact Hf|].
  destruct (finish_policy_spec _ _ _ _ _ _ Hf) as (_ & _ & _ & _ & _ & _ & H).
  destruct (H eq_refl) as [E|[E|E]]; [discriminate E|discriminate E|exact E].
Defined.

Lemma minimize_safe_witness :
  minimize Sim.root = Continues (Sim.minimized, Ok Minimized) ∧
  verified (setup_sets Creds) Sim.minimized ∧
  ∃ e, minimize Sim.unable = Continues (Sim.unable, Err e) ∧
       (creds Sim.unable = creds Sim.unable ∨ verified empty_capabilities Sim.unable).
Proof.
  assert (minimize Sim.root = Continues (Sim.minimized, Ok Minimized)) as Hm by (vm_compute; reflexivity).
  split; [exact Hm|]. split; [exact (proj2 (minimize_safe _ _ _ Hm))|].
  eexists. assert (minimize Sim.unable = Continues (Sim.unable, Err (error_message MissingSetupCapability
    "CAP_SETPCAP is required to empty the capability bounding set"))) as He by (vm_compute; reflexivity).
  split; [exact He|]. exact (minimize_safe _ _ _ He).
Defined.

Lemma no_unverified_authority_witness :
  finish Minimized Sim.minimized = (Sim.cleared, PolicyFinished, Ok ()) ∧
  verified empty_capabilities Sim.cleared ∧
  drop_policy VerificationPending Sim.cleared = Continues Sim.cleared ∧
  ∀ w' p', finish Preserved Sim.root = (w', p', Ok ()) → p' = Preserved ∧ w' = Sim.root.
Proof.
  assert (finish Minimized Sim.minimized = (Sim.cleared, PolicyFinished, Ok ())) as Hf
    by (vm_compute; reflexivity).
  split; [exact Hf|]. split; [exact (proj2 (proj1 (no_unverified_authority Minimized Sim.minimized) _ _ Hf))|].
  split; [vm_compute; reflexivity|]. exact (proj1 (no_unverified_authority Preserved Sim.root)).
Defined.

Lemma minimized_policy_finishes_witness :
  (∃ w', finish Minimized Sim.minimized = (w', PolicyFinished, Ok ()) ∧ verified empty_capabilities w') ∧
  (∃ w', drop_policy Minimized Sim.minimized = Continues w' ∧ verified empty_capabilities w').
Proof. apply (minimized_policy_finishes Sim.minimized). vm_compute. reflexivity. Defined.
