(* ===== verification/Prepare.v ===== *)
(** * Preparation of a collector (src/collector.rs: [prepare])

    Preparation acquires libbpf resources one after the other, then gives up
    the setup privileges. libbpf is not part of the program: its calls are the
    fields of the class [Libbpf]. They read a world [W], which holds the
    credentials they run under, and change a world [B] of BPF resources; the
    privilege code changes [W]. What Rust's scopes drop on an early return is
    written out: [drop_links], [drop_object], [drop_resources]. *)

From S2P Require Import Prelude CapturedBytes Event Wire Collector Tracepoint Privilege.

(** ** Errors *)

Inductive CollectorPrepareErrorKind :=
| UnsupportedKernel
| Open
| Load
| Attach
| RingSetup
| PrivilegeKind.
#[export] Instance CollectorPrepareErrorKind_eq_dec : EqDecision CollectorPrepareErrorKind.
Proof. solve_decision. Defined.

(** The boxed source of the error. *)
Inductive PrepareSource (BpfError IoError Errno : Type) :=
| FromBpf (error : BpfError)
| FromPrivilege (error : PrivilegeError IoError Errno)
| NoEventsMap.
Arguments FromBpf {BpfError IoError Errno} _.
Arguments FromPrivilege {BpfError IoError Errno} _.
Arguments NoEventsMap {BpfError IoError Errno}.

Record CollectorPrepareError (BpfError IoError Errno : Type) := mkCollectorPrepareError {
  cpe_kind : CollectorPrepareErrorKind;
  cpe_source : PrepareSource BpfError IoError Errno;
}.
Arguments mkCollectorPrepareError {BpfError IoError Errno} _ _.
Arguments cpe_kind {BpfError IoError Errno} _.
Arguments cpe_source {BpfError IoError Errno} _.

(** ** libbpf *)

Class Libbpf (W B BpfError : Type) := {
  OpenObject : Type;
  Object : Type;
  Program : Type;
  Link : Type;
  BpfMap : Type;
  RingBuilder : Type;
  RingBuffer : Type;
  (** [ObjectBuilder::open_memory] of the embedded object. *)
  open_memory : W → B → B * result OpenObject BpfError;
  load_object : OpenObject → W → B → B * result Object BpfError;
  progs_mut : Object → list Program;
  attach : Program → W → B → B * result Link BpfError;
  maps : Object → list BpfMap;
  map_name : BpfMap → list byte;
  ring_add : BpfMap → W → B → B * result RingBuilder BpfError;
  ring_build : RingBuilder → W → B → B * result RingBuffer BpfError;
  drop_object : Object → B → B;
  drop_link : Link → B → B;
  drop_ring : RingBuffer → B → B;
  (** [Btf::from_path(VMLINUX_BTF)] and the names of its typedefs. *)
  vmlinux_typedefs : B → result (list (option (list byte))) BpfError;
  bpf_error_kind : BpfError → ErrorKind;
}.
#[global] Hint Mode Libbpf ! ! - : typeclass_instances.
Arguments OpenObject W B {BpfError _}.
Arguments Object W B {BpfError _}.
Arguments Program W B {BpfError _}.
Arguments Link W B {BpfError _}.
Arguments BpfMap W B {BpfError _}.
Arguments RingBuffer W B {BpfError _}.
Arguments vmlinux_typedefs W {B BpfError _} _.
Arguments bpf_error_kind W B {BpfError _} _.

Section prepare.
Context {W B BpfError IoError Errno : Type} `{Libbpf W B BpfError} `{Kernel W IoError Errno}.

Abbreviation Error := (CollectorPrepareError BpfError IoError Errno).
Abbreviation Link := (Link W B).

Record PreparedResources := mkPreparedResources {
  pr_ring : RingBuffer W B;
  pr_links : list Link;
  pr_object : Object W B;
}.

(** A [Vec<Link>] drops its elements in order. *)
Definition drop_links (links : list Link) (b : B) : B := foldl (λ b link, drop_link link b) b links.

(** The fields are dropped in the order they are declared. *)
Definition drop_resources (r : PreparedResources) (b : B) : B :=
  drop_object (pr_object r) (drop_links (pr_links r) (drop_ring (pr_ring r) b)).

Definition prepare_error (kind : CollectorPrepareErrorKind) (error : BpfError) : Error :=
  mkCollectorPrepareError kind (FromBpf error).
Definition from_privilege_error (error : PrivilegeError IoError Errno) : Error :=
  mkCollectorPrepareError PrivilegeKind (FromPrivilege error).

(** [object.progs_mut().map(attach).collect()]: the links made so far are
    dropped at the first failure. *)
Fixpoint attach_all (programs : list (Program W B)) (links : list Link) (w : W) (b : B) :
    B * result (list Link) BpfError :=
  match programs with
  | [] => (b, Ok links)
  | program :: rest =>
      match attach program w b with
      | (b, Ok link) => attach_all rest (links ++ [link]) w b
      | (b, Err e) => (drop_links links b, Err e)
      end
  end.

Definition EVENTS_NAME : list byte := bytes_of_string "events".

(** The block that builds the ring. *)
Definition prepare_ring (object : Object W B) (w : W) (b : B) : B * result (RingBuffer W B) Error :=
  match List.find (λ map, bool_decide (map_name map = EVENTS_NAME)) (maps object) with
  | None => (b, Err (mkCollectorPrepareError RingSetup NoEventsMap))
  | Some events =>
      match ring_add events w b with
      | (b, Err e) => (b, Err (prepare_error RingSetup e))
      | (b, Ok ring_builder) =>
          match ring_build ring_builder w b with
          | (b, Err e) => (b, Err (prepare_error RingSetup e))
          | (b, Ok ring) => (b, Ok ring)
          end
      end
  end.

Definition load_error (b : B) (error : BpfError) : Error :=
  prepare_error
    (if generation_1_is_missing (bpf_error_kind W B) (vmlinux_typedefs W b) error
     then UnsupportedKernel else Load) error.

Definition prepare_resources (w : W) (b : B) : B * result PreparedResources Error :=
  match open_memory w b with
  | (b, Err e) => (b, Err (prepare_error Open e))
  | (b, Ok open) =>
      match load_object open w b with
      | (b, Err e) => (b, Err (load_error b e))
      | (b, Ok object) =>
          match attach_all (progs_mut object) [] w b with
          | (b, Err e) => (drop_object object b, Err (prepare_error Attach e))
          | (b, Ok links) =>
              match prepare_ring object w b with
              | (b, Err e) => (drop_object object (drop_links links b), Err e)
              | (b, Ok ring) => (b, Ok (mkPreparedResources ring links object))
              end
          end
      end
  end.

(** The halves: the channels and flags they share, and the worker's resources. *)
Record Prepared := mkPrepared {
  prepared_shared : @Shared BpfError;
  prepared_consumer : @Consumer BpfError;
  prepared_resources : PreparedResources;
}.

Definition backend_prepare (event_capacity : N) (w : W) (b : B) : B * result Prepared Error :=
  match prepare_resources w b with
  | (b, Err e) => (b, Err e)
  | (b, Ok resources) =>
      (b, Ok (mkPrepared (shared_new event_capacity) (mkConsumer None) resources))
  end.

(** [finish()?; Ok(prepared)]: a failure drops what was prepared. *)
Definition finalize_prepared (prepared : Prepared)
    (finished : result unit Error) (b : B) : B * result Prepared Error :=
  match finished with
  | Err e => (drop_resources (prepared_resources prepared) b, Err e)
  | Ok _ => (b, Ok prepared)
  end.

(** [CollectorConfig::prepare]; the policy is the [&mut] argument. *)
Definition prepare (config : CollectorConfig) (policy : Policy) (w : W) (b : B) :
    W * B * Policy * result Prepared Error :=
  match ensure_can_prepare policy with
  | Err e => (w, b, policy, Err (from_privilege_error e))
  | Ok _ =>
      match backend_prepare (cc_event_capacity config) w b with
      | (b, Err e) => (w, b, policy, Err e)
      | (b, Ok prepared) =>
          let '(w, policy, finished) := finish policy w in
          let '(b, r) := finalize_prepared prepared (map_err from_privilege_error finished) b in
          (w, b, policy, r)
      end
  end.
End prepare.
