(* ===== verification/PrepareSpec.v ===== *)
(** * What a preparation leaves behind (src/collector.rs: [prepare])

    Against [LibbpfLaws], the ownership behaviour of libbpf-rs, and
    [KernelLaws]: a failed preparation releases every BPF resource, and the
    setup privileges are given up exactly when every resource is ready. *)

From S2P Require Import Prelude CapturedBytes Event Wire Collector Tracepoint Privilege PrivilegeSpec Prepare.

(** ** The ownership behaviour of libbpf-rs *)

Inductive Resource (O L R : Type) :=
| ROpen
| RObject (o : O)
| RLink (l : L)
| RRing (r : R).
Arguments ROpen {O L R}.
Arguments RObject {O L R} _.
Arguments RLink {O L R} _.
Arguments RRing {O L R} _.

Class LibbpfLaws (W B BpfError : Type) `{Libbpf W B BpfError} := {
  (** The resources the process holds; their order means nothing. *)
  live : B → list (Resource (Object W B) (Link W B) (RingBuffer W B));
  open_law : ∀ (w : W) (b b' : B) r, open_memory w b = (b', r) →
    live b' ≡ₚ match r with Ok _ => ROpen :: live b | Err _ => live b end;
  (** [load] consumes the open object, also when it fails. *)
  load_law : ∀ o (w : W) (b b' : B) r l, load_object o w b = (b', r) → live b ≡ₚ ROpen :: l →
    live b' ≡ₚ match r with Ok object => RObject object :: l | Err _ => l end;
  attach_law : ∀ p (w : W) (b b' : B) r, attach p w b = (b', r) →
    live b' ≡ₚ match r with Ok link => RLink link :: live b | Err _ => live b end;
  ring_add_law : ∀ m (w : W) (b b' : B) r, ring_add m w b = (b', r) → live b' ≡ₚ live b;
  ring_build_law : ∀ rb (w : W) (b b' : B) r, ring_build rb w b = (b', r) →
    live b' ≡ₚ match r with Ok ring => RRing ring :: live b | Err _ => live b end;
  drop_object_law : ∀ o (b : B) l, live b ≡ₚ RObject o :: l → live (drop_object o b) ≡ₚ l;
  drop_link_law : ∀ k (b : B) l, live b ≡ₚ RLink k :: l → live (drop_link k b) ≡ₚ l;
  drop_ring_law : ∀ r (b : B) l, live b ≡ₚ RRing r :: l → live (drop_ring r b) ≡ₚ l;
}.

Section resources.
Context {W B BpfError IoError Errno : Type} `{LibbpfLaws W B BpfError} `{Kernel W IoError Errno}.

(** What a successful preparation holds. *)
Definition held (r : PreparedResources (W := W) (B := B)) :
    list (Resource (Object W B) (Link W B) (RingBuffer W B)) :=
  RRing (pr_ring r) :: (RLink <$> pr_links r) ++ [RObject (pr_object r)].

Lemma drop_links_live links (b : B) l :
  live b ≡ₚ (RLink <$> links) ++ l → live (drop_links links b) ≡ₚ l.
Proof.
  revert b. induction links as [|k links IH]; intros b Hb; [done|].
  simpl. apply IH, drop_link_law. exact Hb.
Qed.

Lemma drop_resources_live r (b : B) l :
  live b ≡ₚ held r ++ l → live (drop_resources r b) ≡ₚ l.
Proof.
  intros Hb. unfold drop_resources, held in *.
  eapply drop_object_law, drop_links_live, drop_ring_law. rewrite Hb. simpl. by rewrite <- app_assoc.
Qed.

Lemma attach_all_live programs links (w : W) (b b' : B) r l :
  live b ≡ₚ (RLink <$> links) ++ l → attach_all programs links w b = (b', r) →
  live b' ≡ₚ match r with Ok links => (RLink <$> links) ++ l | Err _ => l end.
Proof.
  revert links b. induction programs as [|p programs IH]; intros links b Hb; simpl.
  { by intros [= <- <-]. }
  destruct (attach p w b) as [b1 [link|e]] eqn:Ha; apply attach_law in Ha.
  - apply IH. rewrite Ha, Hb, fmap_app. simpl. solve_Permutation.
  - intros [= <- <-]. apply drop_links_live. by rewrite Ha.
Qed.

Lemma prepare_ring_live object (w : W) (b b' : B) r :
  prepare_ring (IoError := IoError) (Errno := Errno) object w b = (b', r) →
  live b' ≡ₚ match r with Ok ring => RRing ring :: live b | Err _ => live b end.
Proof.
  unfold prepare_ring. case_match; [|by intros [= <- <-]].
  destruct (ring_add _ w b) as [b1 [rb|e]] eqn:Ha; apply ring_add_law in Ha; [|by intros [= <- <-]].
  destruct (ring_build rb w b1) as [b2 [ring|e]] eqn:Hr; apply ring_build_law in Hr;
    intros [= <- <-]; by rewrite Hr, Ha.
Qed.

Lemma prepare_resources_live (w : W) (b b' : B) r :
  prepare_resources (IoError := IoError) (Errno := Errno) w b = (b', r) →
  live b' ≡ₚ match r with Ok res => held res ++ live b | Err _ => live b end.
Proof.
  unfold prepare_resources.
  destruct (open_memory w b) as [b1 [o|e]] eqn:Ho; apply open_law in Ho; [|by intros [= <- <-]].
  destruct (load_object o w b1) as [b2 [object|e]] eqn:Hl;
    apply (load_law _ _ _ _ _ _ Hl) in Ho; [|by intros [= <- <-]].
  destruct (attach_all _ [] w b2) as [b3 [links|e]] eqn:Ha;
    apply attach_all_live with (l := RObject object :: live b) in Ha; [|done| |done].
  2: { intros [= <- <-]. by apply drop_object_law. }
  destruct (prepare_ring object w b3) as [b4 [ring|e]] eqn:Hr; apply prepare_ring_live in Hr;
    intros [= <- <-].
  - rewrite Hr, Ha. unfold held. simpl. by rewrite <- app_assoc.
  - eapply drop_object_law, drop_links_live. by rewrite Hr, Ha.
Qed.
End resources.

Section theorems.
Context {W B BpfError IoError Errno : Type}.
Context `{LibbpfLaws W B BpfError} `{KernelLaws W IoError Errno}.

(** Where a failed stage leaves its trace: the kind and source of the error. *)
Lemma prepare_resources_Err (w : W) (b b' : B) e :
  prepare_resources (IoError := IoError) (Errno := Errno) w b = (b', Err e) →
  match cpe_kind e with
  | Open => ∃ b1 err, open_memory w b = (b1, Err err) ∧ cpe_source e = FromBpf err
  | UnsupportedKernel | Load =>
      ∃ b0 o b1 err, open_memory w b = (b0, Ok o) ∧ load_object o w b0 = (b1, Err err) ∧
        cpe_source e = FromBpf err ∧
        (cpe_kind e = UnsupportedKernel ↔
         generation_1_is_missing (bpf_error_kind W B) (vmlinux_typedefs W b1) err = true)
  | Attach => ∃ b0 o b1 object b2 err, open_memory w b = (b0, Ok o) ∧
        load_object o w b0 = (b1, Ok object) ∧
        attach_all (progs_mut object) [] w b1 = (b2, Err err) ∧ cpe_source e = FromBpf err
  | RingSetup => ∃ b0 o b1 object b2 links b3, open_memory w b = (b0, Ok o) ∧
        load_object o w b0 = (b1, Ok object) ∧
        attach_all (progs_mut object) [] w b1 = (b2, Ok links) ∧
        prepare_ring object w b2 = (b3, Err e)
  | PrivilegeKind => False
  end.
Proof.
  unfold prepare_resources.
  destruct (open_memory w b) as [b0 [o|err]] eqn:Ho; [|intros [= <- <-]; simpl; eauto].
  destruct (load_object o w b0) as [b1 [object|err]] eqn:Hl.
  2: { intros [= <- <-]. unfold load_error. simpl.
       destruct (generation_1_is_missing _ _ err) eqn:Hm; exists b0, o, b1, err; by rewrite Hm. }
  destruct (attach_all _ [] w b1) as [b2 [links|err]] eqn:Ha; [|intros [= <- <-]; simpl; naive_solver].
  destruct (prepare_ring object w b2) as [b3 [ring|err]] eqn:Hr; intros [= <- <-].
  assert (cpe_kind err = RingSetup) as Hk.
  { revert Hr. unfold prepare_ring. repeat case_match; naive_solver. }
  rewrite Hk. naive_solver.
Qed.

Lemma prepare_resources_kind (w : W) (b b' : B) e :
  prepare_resources (IoError := IoError) (Errno := Errno) w b = (b', Err e) →
  cpe_kind e ≠ PrivilegeKind.
Proof. intros He%prepare_resources_Err Hk. by rewrite Hk in He. Qed.

(** Explicit finalization of a policy that may prepare. *)
Lemma finish_can_prepare policy (w w' : W) policy' r :
  ensure_can_prepare (IoError := IoError) (Errno := Errno) policy = Ok () →
  finish policy w = (w', policy', r) →
  match r with
  | Ok _ => policy = Preserved ∧ policy' = Preserved ∧ w' = w ∨
            policy = Minimized ∧ policy' = PolicyFinished ∧ verified empty_capabilities w'
  | Err _ => policy = Minimized ∧ (policy' = Minimized ∨ policy' = VerificationPending)
  end.
Proof.
  unfold finish. destruct policy; try done; intros _; simpl; [|intros [= <- <- <-]; auto].
  destruct (remove_authority w) as [w1 [[]|e]]; [|intros [= <- <- <-]; auto].
  destruct (verify empty_capabilities w1) as [w2 [[]|e]] eqn:Hv; intros [= <- <- <-]; [|auto].
  right. split_and!; [done..|]. by eapply verify_sound.
Qed.

Lemma ensure_can_prepare_Err policy e :
  ensure_can_prepare (IoError := IoError) (Errno := Errno) policy = Err e → removed policy.
Proof. unfold removed. destruct policy; naive_solver. Qed.

Lemma ensure_can_prepare_Ok policy u :
  ensure_can_prepare (IoError := IoError) (Errno := Errno) policy = Ok u →
  policy = Minimized ∨ policy = Preserved.
Proof. destruct policy; naive_solver. Qed.

Lemma prepare_live config policy (w w' : W) (b b' : B) policy' r :
  prepare config policy w b = (w', b', policy', r) →
  live b' ≡ₚ match r with
             | Ok prepared => held (prepared_resources prepared) ++ live b
             | Err _ => live b
             end.
Proof.
  unfold prepare, backend_prepare. destruct (ensure_can_prepare policy); [|by intros [= <- <- <- <-]].
  destruct (prepare_resources w b) as [b1 [res|e]] eqn:Hr; apply prepare_resources_live in Hr;
    [|by intros [= <- <- <- <-]].
  destruct (finish policy w) as [[w1 p1] [[]|e]]; simpl; intros [= <- <- <- <-]; [done|].
  by apply drop_resources_live.
Qed.

(** C21: a preparation that fails, at whatever stage, releases every BPF
    resource it acquired; one that succeeds holds exactly the ring, the links
    and the object it returns, on top of what was held before. *)
Theorem prepare_releases config policy (w w' : W) (b b' : B) policy' r :
  prepare config policy w b = (w', b', policy', r) →
  live b' ≡ₚ match r with
             | Ok prepared => held (prepared_resources prepared) ++ live b
             | Err _ => live b
             end.
Proof. apply prepare_live. Qed.

Lemma prepare_policy config policy (w w' : W) (b b' : B) policy' r :
  prepare config policy w b = (w', b', policy', r) →
  match r with
  | Ok prepared =>
      prepared_shared prepared = shared_new (cc_event_capacity config) ∧
      (policy = Preserved ∧ policy' = Preserved ∧ w' = w ∨
       policy = Minimized ∧ policy' = PolicyFinished ∧ verified empty_capabilities w')
  | Err e =>
      if decide (cpe_kind e = PrivilegeKind)
      then removed policy ∧ policy' = policy ∧ w' = w ∧ b' = b ∨
           policy = Minimized ∧ (policy' = Minimized ∨ policy' = VerificationPending)
      else policy' = policy ∧ w' = w ∧ (policy = Minimized ∨ policy = Preserved)
  end.
Proof.
  unfold prepare, backend_prepare. destruct (ensure_can_prepare policy) as [[]|e0] eqn:Hp.
  2: { intros [= <- <- <- <-]. simpl. apply ensure_can_prepare_Err in Hp. auto. }
  destruct (prepare_resources w b) as [b1 [res|e]] eqn:Hr.
  2: { intros [= <- <- <- <-]. apply prepare_resources_kind in Hr.
       rewrite decide_False by done. eauto using ensure_can_prepare_Ok. }
  destruct (finish policy w) as [[w1 p1] f] eqn:Hf.
  pose proof (finish_can_prepare _ _ _ _ _ Hp Hf) as Hs.
  destruct f as [[]|e]; simpl; intros [= <- <- <- <-]; simpl; auto.
Qed.

(** Every resource of a collector can be prepared. *)
Definition resources_ready (w : W) (b : B) : Prop :=
  ∃ b1 resources, prepare_resources (IoError := IoError) (Errno := Errno) w b = (b1, Ok resources).

(** The policy is finished only when every resource is ready. *)
Lemma prepare_ready config policy (w w' : W) (b b' : B) policy' r :
  prepare config policy w b = (w', b', policy', r) →
  match r with
  | Ok _ => resources_ready w b
  | Err e => cpe_kind e = PrivilegeKind →
             removed policy ∨ resources_ready w b
  end.
Proof.
  unfold prepare, backend_prepare. destruct (ensure_can_prepare policy) as [[]|e0] eqn:Hp.
  2: { intros [= <- <- <- <-] _. left. by apply ensure_can_prepare_Err in Hp. }
  destruct (prepare_resources w b) as [b1 [res|e]] eqn:Hr.
  - unfold resources_ready. destruct (finish policy w) as [[w1 p1] [[]|e]]; simpl; intros [= <- <- <- <-]; eauto.
  - apply prepare_resources_kind in Hr. by intros [= <- <- <- <-] ?.
Qed.

(** C11: a preparation gives the setup privileges up exactly when every
    resource is ready. Success under a minimized policy ends with verified
    empty credentials and a finished policy; a failure of another stage
    changes neither the credentials nor the policy, so the policy can be
    retried; a privilege failure either refused a used policy before touching
    anything, or, the resources being ready, left a minimized policy minimized
    or pending. *)
Theorem prepare_privileges config policy (w w' : W) (b b' : B) policy' r :
  prepare config policy w b = (w', b', policy', r) →
  match r with
  | Ok prepared =>
      resources_ready w b ∧
      prepared_shared prepared = shared_new (cc_event_capacity config) ∧
      (policy = Preserved ∧ policy' = Preserved ∧ w' = w ∨
       policy = Minimized ∧ policy' = PolicyFinished ∧ verified empty_capabilities w')
  | Err e =>
      if decide (cpe_kind e = PrivilegeKind)
      then removed policy ∧ policy' = policy ∧ w' = w ∧ b' = b ∨
           policy = Minimized ∧ (policy' = Minimized ∨ policy' = VerificationPending) ∧
           resources_ready w b
      else policy' = policy ∧ w' = w ∧ (policy = Minimized ∨ policy = Preserved)
  end.
Proof.
  intros Hp. pose proof (prepare_ready _ _ _ _ _ _ _ _ Hp) as Hr. apply prepare_policy in Hp.
  destruct r as [prepared|e]; [done|]. case_decide as Hk; [|done]. destruct Hp as [?|[-> ?]]; [by left|right].
  split_and!; [done..|]. destruct (Hr Hk) as [Hrem|?]; [by destruct Hrem|done].
Qed.

(** An error tells the first stage that failed and keeps its source. A
    failed load is reported as an unsupported kernel exactly when its kind may
    come from a missing tracepoint and the kernel's own type information was
    read and lacks one of the twelve. *)
Theorem prepare_error_stage config policy (w w' : W) (b b' : B) policy' e :
  prepare config policy w b = (w', b', policy', Err e) →
  (cpe_kind e = Open → ∃ b1 err, open_memory w b = (b1, Err err) ∧ cpe_source e = FromBpf err) ∧
  (cpe_kind e = UnsupportedKernel ∨ cpe_kind e = Load →
   ∃ b0 o b1 err, open_memory w b = (b0, Ok o) ∧ load_object o w b0 = (b1, Err err) ∧
     cpe_source e = FromBpf err ∧
     (cpe_kind e = UnsupportedKernel ↔
      bpf_error_kind W B err ≠ AnotherKind ∧
      ∃ typedefs, vmlinux_typedefs W b1 = Ok typedefs ∧
        ∃ target, target ∈ GENERATION_1_TARGETS ∧ Some target ∉ typedefs)) ∧
  (cpe_kind e = Attach → ∃ b0 o b1 object b2 err, open_memory w b = (b0, Ok o) ∧
     load_object o w b0 = (b1, Ok object) ∧
     attach_all (progs_mut object) [] w b1 = (b2, Err err) ∧ cpe_source e = FromBpf err) ∧
  (cpe_kind e = RingSetup → ∃ b0 o b1 object b2 links b3, open_memory w b = (b0, Ok o) ∧
     load_object o w b0 = (b1, Ok object) ∧
     attach_all (progs_mut object) [] w b1 = (b2, Ok links) ∧
     prepare_ring object w b2 = (b3, Err e)).
Proof.
  unfold prepare, backend_prepare. destruct (ensure_can_prepare policy) as [[]|e0].
  2: { intros [= <- <- <- <-]. simpl. naive_solver. }
  destruct (prepare_resources w b) as [b1 [res|e1]] eqn:Hr.
  - destruct (finish policy w) as [[w1 p1] [[]|e1]]; simpl; intros [= <- <- <- <-].
    simpl. naive_solver.
  - intros [= <- <- <- <-]. apply prepare_resources_Err in Hr. setoid_rewrite <- missing_generation_iff.
    destruct (cpe_kind e1); naive_solver.
Qed.
End theorems.

(** ** A simulated libbpf

    Two programs and an events map; loading needs the setup capabilities, and
    fails as on a kernel without the tracepoints unless [complete] is set. *)

Module SimBpf.
Import Sim.

Abbreviation res := (Resource unit N unit).
#[local] Instance res_eq_dec : EqDecision res.
Proof. solve_decision. Defined.

Record World := mkWorld { resources : list res; complete : bool }.

Fixpoint remove_first (r : res) (l : list res) : list res :=
  match l with
  | [] => []
  | x :: l => if decide (x = r) then l else x :: remove_first r l
  end.

Definition release (r : res) (b : World) : World :=
  mkWorld (remove_first r (resources b)) (complete b).
Definition acquire (r : res) (b : World) : World := mkWorld (r :: resources b) (complete b).

Definition typedefs (b : World) : list (option (list byte)) :=
  Some <$> (if complete b then GENERATION_1_TARGETS else []).
Definition permitted (w : Creds) : bool := set_contains (cap_effective (c_caps w)) (SETUP_CAPABILITIES Creds).

#[export] Instance libbpf : Libbpf Creds World ErrorKind := {|
  OpenObject := unit;
  Object := unit;
  Program := N;
  Link := N;
  BpfMap := list byte;
  RingBuilder := unit;
  RingBuffer := unit;
  open_memory := λ _ b, (acquire ROpen b, Ok ());
  load_object := λ _ w b,
    let b := release ROpen b in
    if negb (permitted w) then (b, Err AnotherKind)
    else if complete b then (acquire (RObject ()) b, Ok ()) else (b, Err OtherKind);
  progs_mut := λ _, [1; 2];
  attach := λ p _ b, (acquire (RLink p) b, Ok p);
  maps := λ _, [bytes_of_string "state"; EVENTS_NAME];
  map_name := λ name, name;
  ring_add := λ _ _ b, (b, Ok ());
  ring_build := λ _ _ b, (acquire (RRing ()) b, Ok ());
  drop_object := λ o b, release (RObject o) b;
  drop_link := λ l b, release (RLink l) b;
  drop_ring := λ r b, release (RRing r) b;
  vmlinux_typedefs := λ b, Ok (typedefs b);
  bpf_error_kind := λ e, e;
|}.

Lemma remove_first_elem r l : r ∈ l → r :: remove_first r l ≡ₚ l.
Proof.
  induction l as [|x l IH]; [by intros ?%elem_of_nil|]. simpl. rewrite elem_of_cons. case_decide; subst; [done|].
  intros [->|Hin]; [done|]. rewrite Permutation_swap. f_equiv. auto.
Qed.

Lemma release_live r b l : resources b ≡ₚ r :: l → resources (release r b) ≡ₚ l.
Proof.
  intros Hb. apply (Permutation_cons_inv (a := r)). rewrite <- Hb. apply remove_first_elem.
  rewrite Hb. apply list_elem_of_here.
Qed.

#[export] Instance laws : LibbpfLaws Creds World ErrorKind.
Proof.
  refine (Build_LibbpfLaws Creds World ErrorKind libbpf resources _ _ _ _ _ _ _ _); simpl.
  - by intros w b b' r [= <- <-].
  - intros o w b b' r l. destruct (negb (permitted w)), (complete b); intros [= <- <-] Hl;
      try by apply release_live. simpl. f_equiv. by apply release_live.
  - by intros p w b b' r [= <- <-].
  - by intros m w b b' r [= <- <-].
  - by intros rb w b b' r [= <- <-].
  - intros. by apply release_live.
  - intros. by apply release_live.
  - intros. by apply release_live.
Defined.

Definition supported : World := mkWorld [] true.
Definition ready : World := mkWorld [RRing (); RLink 2; RLink 1; RObject ()] true.
Definition old : World := mkWorld [] false.
Definition config : CollectorConfig := mkCollectorConfig 4.
Definition prepared : Prepared (W := Creds) (B := World) (BpfError := ErrorKind) :=
  mkPrepared (shared_new 4) (mkConsumer None) (mkPreparedResources (W := Creds) (B := World) () [1; 2] ()).
Definition unsupported : CollectorPrepareError ErrorKind unit N :=
  mkCollectorPrepareError UnsupportedKernel (FromBpf OtherKind).
End SimBpf.
Import Sim SimBpf.

Lemma sim_prepared :
  prepare SimBpf.config Minimized Sim.minimized SimBpf.supported =
    (Sim.cleared, SimBpf.ready, PolicyFinished, Ok SimBpf.prepared).
Proof. vm_compute. reflexivity. Qed.

Lemma sim_unsupported :
  prepare SimBpf.config Minimized Sim.minimized SimBpf.old =
    (Sim.minimized, SimBpf.old, Minimized, Err SimBpf.unsupported).
Proof. vm_compute. reflexivity. Qed.

Lemma prepare_releases_witness :
  live SimBpf.ready ≡ₚ held (prepared_resources SimBpf.prepared) ++ live SimBpf.supported ∧
  live SimBpf.old ≡ₚ live SimBpf.old.
Proof.
  exact (conj (prepare_releases _ _ _ _ _ _ _ _ sim_prepared) (prepare_releases _ _ _ _ _ _ _ _ sim_unsupported)).
Defined.

Lemma prepare_privileges_witness :
  resources_ready (IoError := unit) (Errno := N) Sim.minimized SimBpf.supported ∧ verified empty_capabilities Sim.cleared.
Proof.
  destruct (prepare_privileges _ _ _ _ _ _ _ _ sim_prepared) as (Hr & _ & [E|E]).
  - destruct E as [E _]. discriminate E.
  - exact (conj Hr (proj2 (proj2 E))).
Defined.

Lemma prepare_error_stage_witness :
  ∃ b0 o b1 err, open_memory Sim.minimized SimBpf.old = (b0, Ok o) ∧
    load_object o Sim.minimized b0 = (b1, Err err) ∧ cpe_source SimBpf.unsupported = FromBpf err.
Proof.
  destruct (proj1 (proj2 (prepare_error_stage _ _ _ _ _ _ _ _ sim_unsupported)) (or_introl eq_refl))
    as (b0 & o & b1 & err & Ho & Hl & Hs & _).
  exists b0, o, b1, err. exact (conj Ho (conj Hl Hs)).
Defined.
