(* ===== verification/Text.v ===== *)
(** * Formatted text

    Rust strings as byte strings, and the conversions of [write!] the program
    uses: [{}] and [{:x}] of an unsigned integer, and [{:02x}] of a byte. A
    string is read through [chars], its list of bytes. *)

From Stdlib Require Import DecimalString DecimalN HexadecimalString HexadecimalN.
From S2P Require Import Prelude.

Definition chars : string → list Ascii.ascii := String.list_ascii_of_string.

(** [{n}]. *)
Definition dec (n : N) : string := DecimalString.NilZero.string_of_uint (N.to_uint n).

(** [{n:x}]. *)
Definition hex (n : N) : string := HexadecimalString.NilZero.string_of_uint (N.to_hex_uint n).

(** A lower-case hexadecimal digit. *)
Definition hex_digit (n : N) : Ascii.ascii := Ascii.ascii_of_N (if n <? 10 then 48 + n else 87 + n).

(** [{byte:02x}]. *)
Definition hex02 (b : byte) : string :=
  String (hex_digit (Byte.to_N b / 16)) (String (hex_digit (Byte.to_N b mod 16)) EmptyString).

(** [parts.join(separator)]. *)
Definition join_with (separator : string) (parts : list string) : string := String.concat separator parts.

Lemma chars_app s t : chars (s +:+ t) = chars s ++ chars t.
Proof. induction s as [|c s IH]; [done|]. unfold chars in *. simpl. by rewrite IH. Qed.

Lemma chars_inj s t : chars s = chars t → s = t.
Proof.
  intros Hs. rewrite <- (String.string_of_list_ascii_of_string s).
  rewrite <- (String.string_of_list_ascii_of_string t). unfold chars in Hs. by rewrite Hs.
Qed.

Lemma hex_inj n m : hex n = hex m → n = m.
Proof.
  assert (∀ n, N.to_hex_uint n ≠ Hexadecimal.Nil) as Hn.
  { intros k Hk. assert (N.of_hex_uint (N.to_hex_uint k) = 0) as H0 by by rewrite Hk.
    rewrite HexadecimalN.Unsigned.of_to in H0. by subst. }
  unfold hex. intros Hh. apply (f_equal HexadecimalString.NilZero.uint_of_string) in Hh.
  rewrite !HexadecimalString.NilZero.usu in Hh by apply Hn. injection Hh as Hh.
  apply (f_equal N.of_hex_uint) in Hh. by rewrite !HexadecimalN.Unsigned.of_to in Hh.
Qed.

(** ** Sets of characters *)

Definition code (c : Ascii.ascii) : N := Ascii.N_of_ascii c.

Definition is_digit (c : Ascii.ascii) : bool := (48 <=? code c) && (code c <=? 57).
Definition is_hex_digit (c : Ascii.ascii) : bool := is_digit c || ((97 <=? code c) && (code c <=? 102)).

(** Every byte of [s] satisfies [p]. *)
Definition all_chars (p : Ascii.ascii → bool) (s : string) : Prop := forallb p (chars s) = true.

#[export] Instance all_chars_dec p s : Decision (all_chars p s).
Proof. unfold all_chars. apply _. Defined.

Lemma all_chars_app p s t : all_chars p (s +:+ t) ↔ all_chars p s ∧ all_chars p t.
Proof. unfold all_chars. by rewrite chars_app, forallb_app, andb_true_iff. Qed.

Lemma all_chars_elem p s c : all_chars p s → c ∈ chars s → p c = true.
Proof. unfold all_chars. rewrite forallb_forall. intros Hp Hc. apply Hp. by apply list_elem_of_In. Qed.

Lemma all_chars_weaken (p q : Ascii.ascii → bool) s :
  (∀ c, p c = true → q c = true) → all_chars p s → all_chars q s.
Proof. unfold all_chars. rewrite !forallb_forall. auto. Qed.

Lemma all_chars_dec_string n : all_chars is_digit (dec n).
Proof.
  unfold dec. assert (∀ d, all_chars is_digit (DecimalString.NilEmpty.string_of_uint d)) as Hd
    by (unfold all_chars; induction d; simpl; rewrite ?IHd; done).
  pose proof (Hd (N.to_uint n)) as H. by destruct (N.to_uint n).
Qed.

Lemma all_chars_hex n : all_chars is_hex_digit (hex n).
Proof.
  unfold hex. assert (∀ d, all_chars is_hex_digit (HexadecimalString.NilEmpty.string_of_uint d)) as Hd
    by (unfold all_chars; induction d; simpl; rewrite ?IHd; done).
  pose proof (Hd (N.to_hex_uint n)) as H. by destruct (N.to_hex_uint n).
Qed.

Lemma all_chars_concat p sep parts :
  all_chars p sep → Forall (all_chars p) parts → all_chars p (join_with sep parts).
Proof.
  intros Hs. unfold join_with. induction 1 as [|x parts Hx Hp IH]; [done|].
  destruct parts as [|y parts]; [done|]. change (String.concat sep (x :: y :: parts))
    with (x +:+ sep +:+ String.concat sep (y :: parts)). rewrite !all_chars_app. auto.
Qed.
