(* ===== verification/Batch.v ===== *)
(** * Batch output of lltop (lltop/src/batch.rs)

    [process] replays one event and returns the lines to print: the domains
    whose line changed, a dropped ruleset, the aggregated denial and the
    statistics. A [Vec] is a list; [&mut self] is threaded; the order in which
    the aggregator's hash map iterates is the variable [iter]. *)

From S2P Require Import Prelude CapturedBytes Event State Aggregate Text.

Inductive DenialKind := Fs | Net | KPtrace | KSignal | AbstractUnix.
#[export] Instance DenialKind_eq_dec : EqDecision DenialKind.
Proof. solve_decision. Defined.

Definition ALL : list DenialKind := [Fs; Net; KPtrace; KSignal; AbstractUnix].

(** [[u64; DENIAL_KIND_COUNT]]. *)
Record Counters := mkCounters {
  count_fs : N;
  count_net : N;
  count_ptrace : N;
  count_signal : N;
  count_abstract_unix : N;
}.

(** Reading and writing through [DenialKind::counter]. *)
Definition counter (kind : DenialKind) (c : Counters) : N :=
  match kind with
  | Fs => count_fs c
  | Net => count_net c
  | KPtrace => count_ptrace c
  | KSignal => count_signal c
  | AbstractUnix => count_abstract_unix c
  end.

Definition set_counter (kind : DenialKind) (n : N) (c : Counters) : Counters :=
  match kind with
  | Fs => mkCounters n (count_net c) (count_ptrace c) (count_signal c) (count_abstract_unix c)
  | Net => mkCounters (count_fs c) n (count_ptrace c) (count_signal c) (count_abstract_unix c)
  | KPtrace => mkCounters (count_fs c) (count_net c) n (count_signal c) (count_abstract_unix c)
  | KSignal => mkCounters (count_fs c) (count_net c) (count_ptrace c) n (count_abstract_unix c)
  | AbstractUnix => mkCounters (count_fs c) (count_net c) (count_ptrace c) (count_signal c) n
  end.

Definition label (kind : DenialKind) : string :=
  match kind with
  | Fs => "FS"
  | Net => "NET"
  | KPtrace => "PTRACE"
  | KSignal => "SIGNAL"
  | AbstractUnix => "ABSTRACT_UNIX"
  end.

Definition stats_label (kind : DenialKind) : string :=
  match kind with
  | Fs => "fs"
  | Net => "net"
  | KPtrace => "ptrace"
  | KSignal => "signal"
  | AbstractUnix => "abstract_unix"
  end.

Definition from_event (event : Event) : option DenialKind :=
  match event with
  | DenyAccessFs _ => Some Fs
  | DenyAccessNet _ => Some Net
  | DenyPtrace _ => Some KPtrace
  | DenyScopeSignal _ => Some KSignal
  | DenyScopeAbstractUnixSocket _ => Some AbstractUnix
  | _ => None
  end.

Record Stats := mkStats {
  total_denials : N;
  denials : Counters;
}.

Definition stats_default : Stats := mkStats 0 (mkCounters 0 0 0 0 0).

Definition stats_observe (kind : DenialKind) (s : Stats) : Stats :=
  mkStats (saturating_add u64_max (total_denials s) 1)
    (set_counter kind (saturating_add u64_max (counter kind (denials s)) 1) (denials s)).

Record Batch := mkBatch {
  batch_state : State;
  batch_denials : DenialAggregator;
  batch_stats : Stats;
  allocated_domains : N;
}.

Definition batch_new : Batch := mkBatch state_new aggregator_new stats_default 0.

(** ** The domains an event can affect *)

(** [add_denial(&mut ids, ..)] on an empty vector. *)
Definition add_denial (c : DenialContext) (membership : option DomainMembership) : list DomainId :=
  hs_domain_id (dc_hierarchy c) :: option_list (hs_parent_id (dc_hierarchy c)) ++
  match membership with
  | Some (Sandboxed id) => [id]
  | _ => []
  end.

#[export] Instance by_id_dec : RelDecision (λ a b : DomainId, id_get a <= id_get b).
Proof. intros a b. apply N.le_dec. Defined.

(** [Vec::dedup]: of equal neighbours one stays. *)
Fixpoint dedup (ids : list DomainId) : list DomainId :=
  match ids with
  | [] => []
  | x :: rest =>
      match rest with
      | [] => [x]
      | y :: _ => if decide (x = y) then dedup rest else x :: dedup rest
      end
  end.

(** The identities before sorting. *)
Definition collected_domain_ids (event : Event) : list DomainId :=
  match event with
  | CreateDomain e => cde_domain_id e :: option_list (cde_parent_id e)
  | FreeDomain e => [fde_domain_id e]
  | EnforceDomain e => [ede_domain_id e]
  | DenyAccessFs e => add_denial (context e) None
  | DenyAccessNet e => add_denial (context e) None
  | DenyPtrace e => add_denial (context e) (Some (dpt_tracee_domain e))
  | DenyScopeSignal e => add_denial (context e) (Some (dsi_target_domain e))
  | DenyScopeAbstractUnixSocket e => add_denial (context e) (Some (dau_peer_domain e))
  | _ => []
  end.

Definition affected_domain_ids (event : Event) : list DomainId :=
  dedup (merge_sort (λ a b : DomainId, id_get a <= id_get b) (collected_domain_ids event)).

Definition deallocated_ruleset_identity (s : State) (id : RulesetId) : option RulesetVersion :=
  r ← ruleset s id;
  if decide (rs_lifecycle r ≠ Deallocated) then None
  else version ← rs_final_version r; Some (mkRulesetVersion id version).

(** ** Formatting *)

(** [Display for LandlockId] and [RulesetVersion]. *)
Definition display_id {K} (id : LandlockId K) : string := hex (id_get id).
Definition display_ruleset_version (v : RulesetVersion) : string :=
  hex (id_get (rv_ruleset_id v)) +:+ "." +:+ dec (rv_ruleset_version v).

Definition is_ascii_alphanumeric (b : byte) : bool :=
  let n := Byte.to_N b in
  ((48 <=? n) && (n <=? 57)) || ((65 <=? n) && (n <=? 90)) || ((97 <=? n) && (n <=? 122)).

(** [matches!(byte, b'_' | b'-' | b'.' | b'/')]. *)
Definition is_plain_punctuation (b : byte) : bool :=
  existsb (Byte.eqb b) (bytes_of_string "_-./").

Definition escape_byte (b : byte) : string :=
  if is_ascii_alphanumeric b || is_plain_punctuation b
  then String (Ascii.ascii_of_byte b) EmptyString
  else "\x" +:+ hex02 b.

Definition ELLIPSIS : string := "…".

Definition escape {K} (value : CapturedBytes K) : string :=
  foldr (λ b s, escape_byte b +:+ s) (if bytes_omitted value then ELLIPSIS else "") (as_bytes value).

Definition format_domain (d : DomainState) : string :=
  let parent := match ds_parent d with
                | None => "?"
                | Some Root => "0"
                | Some (ParentDomain id) => display_id id
                end in
  let ruleset := match ds_ruleset d with
                 | None => "?"
                 | Some v => display_ruleset_version v
                 end in
  let creator := match ds_creator_comm d, ds_creator_tgid d with
                 | Some comm, Some tgid => escape comm +:+ "[" +:+ dec (pid_get tgid) +:+ "]"
                 | _, _ => "?"
                 end in
  let nnp := match no_new_privs d with
             | None => "?"
             | Some value => if value : bool then "1" else "0"
             end in
  "DOMAIN domain=" +:+ display_id (ds_id d) +:+ " parent=" +:+ parent +:+ " ruleset=" +:+ ruleset +:+
  " creator=" +:+ creator +:+ " no_new_privs=" +:+ nnp.

Definition access_blockers (prefix : string) (names : list string) (unknown : N) : string :=
  let parts := if negb (unknown =? 0) then names ++ ["0x" +:+ hex unknown] else names in
  match parts with
  | [] => "0x" +:+ hex unknown
  | _ => prefix +:+ ":" +:+ join_with "," parts
  end.

Definition filesystem_blockers (b : FilesystemBlockers) : string :=
  match b with
  | Access access => access_blockers "FS" (name_as_str <$> known_names access) (unknown_bits access)
  | ChangeTopology => "FS:change_topology"
  | Other request_type access =>
      if decide (request_type = FS_CHANGE_TOPOLOGY)
      then "FS:change_topology,access=0x" +:+ hex (bits access)
      else "FS:request_type=0x" +:+ hex (raw request_type) +:+ ",access=0x" +:+ hex (bits access)
  end.

Definition network_blockers (blockers_type : BlockerType) (access : NetworkAccess) : string :=
  if decide (blockers_type = NET_ACCESS)
  then access_blockers "Net" (name_as_str <$> known_names access) (unknown_bits access)
  else "Net:request_type=0x" +:+ hex (raw blockers_type) +:+ ",access=0x" +:+ hex (bits access).

Definition format_membership (value : DomainMembership) : string :=
  match value with
  | Unsandboxed => "0"
  | Sandboxed id => display_id id
  end.

Definition elapsed (first_ns latest_ns : N) : string :=
  let seconds := (latest_ns - first_ns) / 1000000000 in
  if seconds <? 60 then dec seconds +:+ "s"
  else if seconds <? 3600 then dec (seconds / 60) +:+ "m" +:+ dec (seconds mod 60) +:+ "s"
  else dec (seconds / 3600) +:+ "h" +:+ dec ((seconds mod 3600) / 60) +:+ "m".

(** The known names of a network request start with bind or connect. *)
Definition has_prefix (prefix : string) (e : DenyAccessNetEvent) : bool :=
  if decide (dne_blockers_type e = NET_ACCESS)
  then existsb (λ name, String.prefix prefix (name_as_str name)) (known_names (dne_blockers_access e))
  else false.

Definition network_target (e : DenyAccessNetEvent) : string :=
  match has_prefix "bind_" e, has_prefix "connect_" e with
  | true, false => "sport:" +:+ dec (dne_source_port e)
  | false, true => "dport:" +:+ dec (dne_destination_port e)
  | _, _ => "sport:" +:+ dec (dne_source_port e) +:+ ",dport:" +:+ dec (dne_destination_port e)
  end.

Definition DenialFields : Type := DomainId * string * string * option (string * DomainMembership).

Definition denial_domain {A} `{Denial A} (e : A) : DomainId := hs_domain_id (dc_hierarchy (context e)).

Definition denial_fields (event : Event) : option DenialFields :=
  match event with
  | DenyAccessFs e =>
      Some (denial_domain e, filesystem_blockers (dfs_blockers e), escape (dfs_pathname e), None)
  | DenyAccessNet e =>
      Some (denial_domain e, network_blockers (dne_blockers_type e) (dne_blockers_access e),
            network_target e, None)
  | DenyPtrace e =>
      Some (denial_domain e, "ptrace",
            "pid:" +:+ dec (pid_get (dpt_tracee_pid e)) +:+ ":" +:+ escape (dpt_tracee_comm e),
            Some ("tracee_domain", dpt_tracee_domain e))
  | DenyScopeSignal e =>
      Some (denial_domain e, "Scope:signal",
            "pid:" +:+ dec (pid_get (dsi_target_pid e)) +:+ ":" +:+ escape (dsi_target_comm e),
            Some ("target_domain", dsi_target_domain e))
  | DenyScopeAbstractUnixSocket e =>
      Some (denial_domain e, "Scope:abstract_unix_socket", "@" +:+ escape (dau_abstract_name e),
            Some ("peer_domain", dau_peer_domain e))
  | _ => None
  end.

Definition u8_from (b : bool) : string := if b then "1" else "0".

Definition format_denial (kind : DenialKind) (denial : AggregatedDenial) : option string :=
  fields ← denial_fields (ad_latest_event denial);
  let '(domain, blockers, target, relation) := (fields : DenialFields) in
  let relation := match relation with
                  | None => ""
                  | Some (l, membership) => " " +:+ l +:+ "=" +:+ format_membership membership
                  end in
  Some ("DENIAL type=" +:+ label kind +:+ " domain=" +:+ display_id domain +:+ " blockers=" +:+
        blockers +:+ " target=" +:+ target +:+ " count=" +:+ dec (ad_occurrence_count denial) +:+
        " age=" +:+ elapsed (as_nanoseconds (ad_first_timestamp denial))
                            (as_nanoseconds (ad_latest_timestamp denial)) +:+
        " same_exec=" +:+ u8_from (ad_same_exec denial) +:+ " logged=" +:+ u8_from (ad_logged denial) +:+
        relation).

Definition format_stats (allocated total : N) (stats : Stats) : string :=
  let kinds := join_with " "
    ((λ kind, stats_label kind +:+ "=" +:+ dec (counter kind (denials stats))) <$> ALL) in
  "STATS domains=" +:+ dec allocated +:+ "/" +:+ dec total +:+ " denials=" +:+
  dec (total_denials stats) +:+ " (" +:+ kinds +:+ ")".

(** ** One event *)

(** The line of a domain and whether it is allocated, when it exists. *)
Definition domain_line (s : State) (id : DomainId) : option (string * bool) :=
  (λ d, (format_domain d, bool_decide (ds_lifecycle d = Allocated))) <$> domain s id.

(** The [match] that follows the count of allocated domains. *)
Definition count_transition (previous current : option bool) (allocated : N) : N :=
  match previous, current with
  | Some true, Some false => allocated - 1
  | Some false, Some true | None, Some true => saturating_add usize_max allocated 1
  | _, _ => allocated
  end.

(** One turn of the loop over the affected domains. *)
Definition report_domain (s : State) (acc : N * list string)
    (entry : DomainId * option (string * bool)) : N * list string :=
  let '(allocated, records) := acc in
  let '(id, previous) := entry in
  let current := domain_line s id in
  (count_transition (snd <$> previous) (snd <$> current) allocated,
   if decide ((fst <$> current) ≠ (fst <$> previous))
   then records ++ option_list (fst <$> current) else records).

Definition format_drop_ruleset (v : RulesetVersion) : string :=
  "DROP_RULESET ruleset=" +:+ display_ruleset_version v.

#[export] Instance RulesetVersion_eq_dec : EqDecision RulesetVersion.
Proof. solve_decision. Defined.

(** The line of a ruleset that an event deallocated. *)
Definition drop_record (event : Event) (s s' : State) : list string :=
  match event with
  | FreeRuleset e =>
      let current := deallocated_ruleset_identity s' (fre_ruleset_id e) in
      if decide (current ≠ deallocated_ruleset_identity s (fre_ruleset_id e))
      then option_list (format_drop_ruleset <$> current) else []
  | _ => []
  end.

Section process.
Variable iter : gmap DenialKey AggregatedDenial → list Entry.

(** The aggregator after the event and the line of the denial. *)
Definition process_denial (event : Event) (a : DenialAggregator) : DenialAggregator * option string :=
  match from_event event with
  | None => (a, None)
  | Some kind =>
      let '(a, entry) := observe_entry iter a event in
      (a, denial ← entry; format_denial kind denial)
  end.

Definition process (b : Batch) (event : Event) : Batch * list string :=
  let affected := affected_domain_ids event in
  let previous := domain_line (batch_state b) <$> affected in
  let s := apply (batch_state b) event in
  let '(aggregator, denial_record) := process_denial event (batch_denials b) in
  let stats := match from_event event with
               | Some kind => stats_observe kind (batch_stats b)
               | None => batch_stats b
               end in
  let '(allocated, records) := foldl (report_domain s) (allocated_domains b, []) (zip affected previous) in
  let records := records ++ drop_record event (batch_state b) s ++ option_list denial_record in
  let records :=
    if decide (records ≠ [] ∨ (allocated_domains b, domain_count (batch_state b)) ≠ (allocated, domain_count s))
    then records ++ [format_stats allocated (domain_count s) stats] else records in
  (mkBatch s aggregator stats allocated, records).

(** The batch and all lines after a stream of events. *)
Definition process_all (b : Batch) (events : list Event) : Batch * list string :=
  foldl (λ acc event, let '(b, lines) := process acc.1 event in (b, acc.2 ++ lines)) (b, []) events.
End process.

(** [process_and_write]: one line per record and a flush, nothing when there
    is no record. [write_line] and [flush] are the writer's answers. *)
Definition process_and_write {O IoError : Type} (iter : gmap DenialKey AggregatedDenial → list Entry)
    (write_line : string → O → O * result unit IoError) (flush : O → O * result unit IoError)
    (b : Batch) (event : Event) (output : O) : Batch * O * result unit IoError :=
  let '(b, records) := process iter b event in
  let fix write_all (records : list string) (output : O) : O * result unit IoError :=
    match records with
    | [] => flush output
    | record :: rest =>
        match write_line record output with
        | (output, Ok _) => write_all rest output
        | (output, Err e) => (output, Err e)
        end
    end in
  match records with
  | [] => (b, output, Ok ())
  | _ => let '(output, r) := write_all records output in (b, output, r)
  end.
