(* ===== verification/BatchSpec.v ===== *)
(** * What the lines of lltop say (lltop/src/batch.rs)

    Escaping is invertible and confines captured bytes to one field; every
    record is one printable line; the counters are the ones of the stream; a
    domain is printed exactly when its line changed. *)

From S2P Require Import Prelude Lattice CapturedBytes Event State StateSpec StateWf StateHistory Aggregate AggregateSpec Text Batch.

(** ** Escaping *)

Definition BACKSLASH : N := 92.

(** Characters of an escaped value: never a space, a quote or a separator. *)
Definition field_char (c : Ascii.ascii) : bool :=
  is_ascii_alphanumeric (Ascii.byte_of_ascii c) || is_plain_punctuation (Ascii.byte_of_ascii c) ||
  (code c =? BACKSLASH) || existsb (λ e, code e =? code c) (chars ELLIPSIS).

(** The value of a hexadecimal digit. *)
Definition hex_value (c : Ascii.ascii) : N := if is_digit c then code c - 48 else code c - 87.

(** Reading an escaped value back. *)
Fixpoint unescape (l : list Ascii.ascii) : option (list byte * bool) :=
  match l with
  | [] => Some ([], false)
  | c :: rest =>
      if code c =? BACKSLASH then
        match rest with
        | _ :: h1 :: h2 :: rest =>
            '(bytes, omitted) ← unescape rest;
            Some (byte_of_N (16 * hex_value h1 + hex_value h2) :: bytes, omitted)
        | _ => None
        end
      else if code c =? 226 then Some ([], true)
      else '(bytes, omitted) ← unescape rest; Some (Ascii.byte_of_ascii c :: bytes, omitted)
  end.

Lemma unescape_byte b rest :
  unescape (chars (escape_byte b) ++ rest) =
  '(bytes, omitted) ← unescape rest; Some (b :: bytes, omitted).
Proof. destruct b; reflexivity. Qed.

Lemma escape_byte_field b : all_chars field_char (escape_byte b).
Proof. destruct b; reflexivity. Qed.

Lemma unescape_escape {K} (v : CapturedBytes K) :
  unescape (chars (escape v)) = Some (as_bytes v, bytes_omitted v).
Proof.
  unfold escape. induction (as_bytes v) as [|b bs IH]; simpl; [by destruct (bytes_omitted v)|].
  by rewrite chars_app, unescape_byte, IH.
Qed.

Lemma escape_field {K} (v : CapturedBytes K) : all_chars field_char (escape v).
Proof.
  unfold escape. induction (as_bytes v) as [|b bs IH]; simpl; [by destruct (bytes_omitted v)|].
  rewrite all_chars_app. auto using escape_byte_field.
Qed.

(** C38: escaping loses nothing and forges nothing: the captured bytes and the
    omission mark can be read back from the printed text, so different values
    print differently, and the text has only letters, digits, [_-./], the
    backslash and the ellipsis. *)
Theorem escape_roundtrip {K} (v : CapturedBytes K) :
  unescape (chars (escape v)) = Some (as_bytes v, bytes_omitted v) ∧
  (∀ v' : CapturedBytes K, escape v = escape v' ↔ v = v') ∧
  all_chars field_char (escape v).
Proof.
  split_and!; [apply unescape_escape| |apply escape_field]. intros v'. split; [|by intros ->].
  intros He. apply (f_equal (unescape ∘ chars)) in He. simpl in He. rewrite !unescape_escape in He.
  destruct v, v'. simpl in He. congruence.
Qed.

(** ** Every record is one line *)

(** Printable ASCII, and the bytes of the ellipsis: no line end, no control. *)
Definition line_char (c : Ascii.ascii) : bool :=
  ((32 <=? code c) && (code c <=? 126)) || existsb (λ e, code e =? code c) (chars ELLIPSIS).

Abbreviation line := (all_chars line_char).

(** A character predicate holds of all 256 bytes. *)
Ltac all_bytes := intros [[] [] [] [] [] [] [] []]; vm_compute; congruence.

Lemma field_char_line c : field_char c = true → line_char c = true.
Proof. revert c. all_bytes. Qed.
Lemma digit_line c : is_digit c = true → line_char c = true.
Proof. revert c. all_bytes. Qed.
Lemma hex_digit_line c : is_hex_digit c = true → line_char c = true.
Proof. revert c. all_bytes. Qed.

Create HintDb text discriminated.

Lemma line_escape {K} (v : CapturedBytes K) : line (escape v).
Proof. eapply all_chars_weaken; [apply field_char_line|apply escape_field]. Qed.
Lemma line_dec n : line (dec n).
Proof. eapply all_chars_weaken; [apply digit_line|apply all_chars_dec_string]. Qed.
Lemma line_hex n : line (hex n).
Proof. eapply all_chars_weaken; [apply hex_digit_line|apply all_chars_hex]. Qed.
#[export] Hint Resolve line_escape line_dec line_hex : text.

(** Splits a text into its parts; the literal ones are evaluated. *)
Ltac solve_line :=
  repeat first [rewrite all_chars_app; split | solve [auto with text] | reflexivity].

Lemma line_display_id {K} (id : LandlockId K) : line (display_id id).
Proof. apply line_hex. Qed.
Lemma line_ruleset_version v : line (display_ruleset_version v).
Proof. unfold display_ruleset_version. solve_line. Qed.
#[export] Hint Resolve line_display_id line_ruleset_version : text.

Lemma line_format_domain d : line (format_domain d).
Proof. unfold format_domain. repeat case_match; solve_line. Qed.

Lemma line_access_blockers prefix names unknown :
  line prefix → Forall line names → line (access_blockers prefix names unknown).
Proof.
  intros Hp Hn. unfold access_blockers.
  assert (Forall line (if negb (unknown =? 0) then names ++ ["0x" +:+ hex unknown] else names)) as Hf.
  { case_match; [|done]. apply Forall_app. split; [done|]. repeat constructor. solve_line. }
  destruct (if negb (unknown =? 0) then _ else _) as [|x parts]; [solve_line|].
  rewrite !all_chars_app. split_and!; [done..|]. by apply all_chars_concat.
Qed.

Lemma line_names {M} `{AccessType M} (m : M) :
  Forall (λ e, line e.2) (name_table M) → Forall line (name_as_str <$> known_names m).
Proof.
  rewrite !Forall_forall. intros Ht s (n & -> & Hn)%list_elem_of_fmap.
  apply list_elem_of_fmap in Hn as (e & -> & He). apply list_elem_of_filter in He as [_ He]. by apply Ht.
Qed.

Lemma line_filesystem_blockers b : line (filesystem_blockers b).
Proof.
  unfold filesystem_blockers. repeat case_match; try solve_line. apply line_access_blockers; [done|].
  apply line_names. by repeat constructor.
Qed.
Lemma line_network_blockers t a : line (network_blockers t a).
Proof.
  unfold network_blockers. case_match; [|solve_line]. apply line_access_blockers; [done|].
  apply line_names. by repeat constructor.
Qed.
Lemma line_elapsed a b : line (elapsed a b).
Proof. unfold elapsed. repeat case_match; solve_line. Qed.
Lemma line_membership m : line (format_membership m).
Proof. unfold format_membership. case_match; solve_line. Qed.
Lemma line_network_target e : line (network_target e).
Proof. unfold network_target. repeat case_match; solve_line. Qed.
Lemma line_label k : line (label k).
Proof. by destruct k. Qed.
Lemma line_u8 b : line (u8_from b).
Proof. by destruct b. Qed.
#[export] Hint Resolve line_filesystem_blockers line_network_blockers line_elapsed line_membership
  line_network_target line_label line_u8 : text.

Lemma line_format_denial kind denial s : format_denial kind denial = Some s → line s.
Proof.
  unfold format_denial. destruct (ad_latest_event denial); simpl; intros [= <-]; solve_line.
Qed.

Lemma line_format_stats allocated total stats : line (format_stats allocated total stats).
Proof. unfold format_stats. solve_line. apply all_chars_concat; [done|]. repeat constructor; solve_line. Qed.

Lemma line_drop_ruleset v : line (format_drop_ruleset v).
Proof. unfold format_drop_ruleset. solve_line. Qed.

(** ** The records of one event *)

Section process.
Variable iter : gmap DenialKey AggregatedDenial → list Entry.

(** The line of a domain when it differs between two states. *)
Definition changed (s s' : State) (id : DomainId) : option string :=
  if decide ((fst <$> domain_line s' id) ≠ (fst <$> domain_line s id)) then fst <$> domain_line s' id else None.

(** The count of allocated domains after the transition of one domain. *)
Definition recount (s s' : State) (n : N) (id : DomainId) : N :=
  count_transition (snd <$> domain_line s id) (snd <$> domain_line s' id) n.

Lemma report_fold s s' ids n records :
  foldl (report_domain s') (n, records) (zip ids (domain_line s <$> ids)) =
  (foldl (recount s s') n ids, records ++ omap (changed s s') ids).
Proof.
  revert n records. induction ids as [|id ids IH]; intros n records; simpl; [by rewrite app_nil_r|].
  rewrite IH. f_equal. unfold changed. case_decide; simpl; [|done].
  destruct (domain_line s' id); simpl; by rewrite <- ?app_assoc, ?app_nil_r.
Qed.

Lemma process_state b event : batch_state (process iter b event).1 = apply (batch_state b) event.
Proof. unfold process. by repeat case_match. Qed.

Lemma process_allocated b event :
  allocated_domains (process iter b event).1 =
  foldl (recount (batch_state b) (apply (batch_state b) event)) (allocated_domains b)
    (affected_domain_ids event).
Proof. unfold process. destruct (process_denial _ _ _). by rewrite report_fold. Qed.

(** The records before the statistics. *)
Definition body (b : Batch) (event : Event) : list string :=
  omap (changed (batch_state b) (apply (batch_state b) event)) (affected_domain_ids event) ++
  drop_record event (batch_state b) (apply (batch_state b) event) ++
  option_list (process_denial iter event (batch_denials b)).2.

Lemma process_records b event :
  let b' := (process iter b event).1 in
  let stats := format_stats (allocated_domains b') (domain_count (batch_state b')) (batch_stats b') in
  (process iter b event).2 = body b event ∨ (process iter b event).2 = body b event ++ [stats].
Proof.
  unfold process, body. destruct (process_denial _ _ _) as [a r]. rewrite report_fold. simpl.
  case_decide; auto.
Qed.

Lemma line_changed s s' id r : changed s s' id = Some r → line r.
Proof.
  unfold changed, domain_line. case_decide; [|done]. destruct (domain s' id); simpl; [|done].
  intros [= <-]. apply line_format_domain.
Qed.

Lemma line_body b event : Forall line (body b event).
Proof.
  unfold body. rewrite !Forall_app. split_and!.
  - apply Forall_forall. intros r (id & _ & Hr)%list_elem_of_omap. by eapply line_changed.
  - unfold drop_record. destruct event; try constructor. case_decide; [|constructor].
    destruct (deallocated_ruleset_identity _ _); simpl; repeat constructor. apply line_drop_ruleset.
  - unfold process_denial. destruct (from_event event); [|constructor].
    destruct (observe_entry _ _ _) as [a [e|]]; simpl; [|constructor].
    destruct (format_denial _ e) eqn:E; repeat constructor. by eapply line_format_denial.
Qed.

(** C39: whatever the events carried, each record that is printed is one line
    of printable characters: no captured byte can end a line, start another
    or reach the terminal as a control character. *)
Theorem process_prints_lines b event : Forall (all_chars line_char) (process iter b event).2.
Proof.
  destruct (process_records b event) as [-> | ->]; rewrite ?Forall_app; try split;
    auto using line_body, line_format_stats.
Qed.
End process.
