(* ===== verification/BatchCount.v ===== *)
(** * The counters of lltop (lltop/src/batch.rs)

    [allocated_domains] is kept by watching the domains an event affects. It is
    proved to be the number of allocated domains: the watched domains are all
    an event can change, each is watched once, and the machine width is never
    reached because identities have 64 bits. *)

From S2P Require Import Prelude Lattice CapturedBytes Event State StateSpec StateWf StateHistory Aggregate AggregateSpec Text Batch BatchSpec.

(** ** Counting in a map *)

Section count.
Context `{Countable K} {A : Type} (P : A → Prop) `{!∀ a, Decision (P a)}.

Definition count (m : gmap K A) : N := N.of_nat (size (filter (λ kv, P kv.2) m)).

Definition flag (o : option A) : option bool := (λ a, bool_decide (P a)) <$> o.

Lemma count_le_size m : count m <= N.of_nat (size m).
Proof. unfold count. pose proof (map_subseteq_size _ _ (map_filter_subseteq (λ kv : K * A, P kv.2) m)). lia. Qed.

Lemma lookup_flag (m : gmap K A) k :
  filter (λ kv : K * A, P kv.2) m !! k = None ↔ flag (m !! k) ≠ Some true.
Proof.
  rewrite map_lookup_filter_None. unfold flag. destruct (m !! k) as [a|]; simpl; [|naive_solver].
  destruct (bool_decide_reflect (P a)); naive_solver.
Qed.

Lemma count_insert (m : gmap K A) k a :
  count (<[k := a]> m) <= usize_max →
  count_transition (flag (m !! k)) (Some (bool_decide (P a))) (count m) = count (<[k := a]> m).
Proof.
  unfold count. set (f := λ kv : K * A, P kv.2). pose proof (lookup_flag m k) as Hl. fold f in Hl.
  destruct (bool_decide_reflect (P a)) as [Hp|Hp].
  - rewrite map_filter_insert_True by done. rewrite map_size_insert.
    destruct (filter f m !! k) as [x|] eqn:E; simpl.
    + destruct (flag (m !! k)) as [[]|]; [done|by destruct Hl as [_ Hl]; exfalso; discriminate Hl..].
    + intros Hb. destruct (flag (m !! k)) as [[]|]; [by destruct Hl as [Hl _]; destruct Hl|..];
        simpl; unfold saturating_add; lia.
  - rewrite map_filter_insert_False by done. rewrite map_filter_delete, map_size_delete.
    destruct (filter f m !! k) as [x|] eqn:E; simpl; intros _.
    + destruct (flag (m !! k)) as [[]|]; [simpl; lia|by destruct Hl as [_ Hl]; exfalso; discriminate Hl..].
    + destruct (flag (m !! k)) as [[]|]; [by destruct Hl as [Hl _]; destruct Hl|done..].
Qed.

Definition count_step (m m' : gmap K A) (n : N) (k : K) : N :=
  count_transition (flag (m !! k)) (flag (m' !! k)) n.

Lemma count_step_ext (m1 m2 m' : gmap K A) ks n :
  (∀ k, k ∈ ks → m1 !! k = m2 !! k) → foldl (count_step m1 m') n ks = foldl (count_step m2 m') n ks.
Proof.
  revert n. induction ks as [|k ks IH]; intros n Hk; simpl; [done|]. unfold count_step at 2 4.
  rewrite (Hk k) by apply list_elem_of_here. apply IH. intros k' ?. apply Hk. by apply list_elem_of_further.
Qed.

(** Following each changed key once yields the new count. *)
Lemma count_fold (m m' : gmap K A) ks :
  NoDup ks → (∀ k, k ∉ ks → m' !! k = m !! k) → dom m ⊆ dom m' →
  N.of_nat (size m') <= usize_max →
  foldl (count_step m m') (count m) ks = count m'.
Proof.
  revert m. induction ks as [|k ks IH]; intros m Hnd Hsame Hdom Hsize; simpl.
  { f_equal. apply map_eq. intros k. symmetry. apply Hsame, not_elem_of_nil. }
  apply NoDup_cons in Hnd as [Hk Hnd]. destruct (m' !! k) as [a|] eqn:Ha.
  - assert (dom (<[k := a]> m) ⊆ dom m') as Hdom'.
    { rewrite dom_insert. apply elem_of_dom_2 in Ha. set_solver. }
    assert (count (<[k := a]> m) <= usize_max) as Hb.
    { apply subseteq_size in Hdom'. rewrite !size_dom in Hdom'. pose proof (count_le_size (<[k := a]> m)). lia. }
    unfold count_step at 2. rewrite Ha. simpl. rewrite count_insert by done.
    rewrite (count_step_ext m (<[k := a]> m)) by (intros k' ?; rewrite lookup_insert_ne; [done|set_solver]).
    apply IH; [done| |done..]. intros k' Hk'. destruct (decide (k = k')) as [<-|].
    + by rewrite lookup_insert_eq.
    + rewrite lookup_insert_ne by done. apply Hsame. set_solver.
  - assert (m !! k = None) as Hm.
    { apply not_elem_of_dom in Ha. apply not_elem_of_dom. set_solver. }
    unfold count_step at 2. rewrite Ha, Hm. simpl. apply IH; [done| |done..].
    intros k' Hk'. destruct (decide (k = k')) as [<-|]; [congruence|]. apply Hsame. set_solver.
Qed.
End count.

(** ** The affected domains *)

Lemma elem_of_dedup id ids : id ∈ dedup ids ↔ id ∈ ids.
Proof.
  induction ids as [|x ids IH]; [done|]. cbn [dedup]. destruct ids as [|y rest]; [done|].
  rewrite (elem_of_cons (y :: rest)), <- IH. case_decide as Hd; [|by rewrite elem_of_cons].
  subst. rewrite IH, elem_of_cons. naive_solver.
Qed.

Lemma NoDup_dedup ids :
  StronglySorted (λ a b : DomainId, id_get a <= id_get b) ids → NoDup (dedup ids).
Proof.
  induction 1 as [|x ids Hs IH Hx]; [constructor|]. cbn [dedup].
  destruct ids as [|y rest]; [apply NoDup_singleton|]. case_decide as Hd; [done|].
  apply NoDup_cons. split; [|done]. rewrite elem_of_dedup. intros Hin.
  apply elem_of_cons in Hin as [?|Hin]; [done|]. apply Forall_cons in Hx as [Hxy _].
  apply StronglySorted_cons in Hs as [Hy _]. rewrite Forall_forall in Hy. apply Hy in Hin. simpl in *.
  apply Hd. destruct x, y. simpl in *. f_equal. lia.
Qed.

Lemma by_id_total : Total (λ a b : DomainId, id_get a <= id_get b).
Proof. intros a b. lia. Qed.
Lemma by_id_trans : Transitive (λ a b : DomainId, id_get a <= id_get b).
Proof. intros a b c. lia. Qed.

Lemma NoDup_affected event : NoDup (affected_domain_ids event).
Proof. apply NoDup_dedup, StronglySorted_merge_sort; [apply by_id_trans|apply by_id_total]. Qed.

Lemma elem_of_affected id event : id ∈ affected_domain_ids event ↔ id ∈ collected_domain_ids event.
Proof. unfold affected_domain_ids. by rewrite elem_of_dedup, merge_sort_Permutation. Qed.

(** The list is the domain an event is about and the ones it names. *)
Lemma collected_effect event :
  collected_domain_ids event =
  match domain_effect event with Some (k, _, _) => k :: named_domains event | None => [] end.
Proof.
  destruct event as [e|e|e|e|e|e|e|e|e|e|e|e]; simpl; unfold add_denial; simpl; try done.
  - by destruct (dpt_tracee_domain e).
  - by destruct (dsi_target_domain e).
  - by destruct (dau_peer_domain e).
Qed.

(** An event changes no domain outside the list, and leaves the listed ones present. *)
Lemma apply_unaffected s event id :
  id ∉ affected_domain_ids event → domains (apply s event) !! id = domains s !! id.
Proof.
  rewrite elem_of_affected, collected_effect, apply_domains_lookup.
  destruct (domain_effect event) as [[[k l] f]|]; [|done]. rewrite not_elem_of_cons. intros [? ?].
  by rewrite !decide_False by done.
Qed.

Lemma apply_domains_dom s event : dom (domains s) ⊆ dom (domains (apply s event)).
Proof.
  intros id. rewrite !elem_of_dom. apply view_le_domain. apply apply_le.
Qed.

(** ** The width of the count *)

Definition ids_valid (s : State) : Prop := ∀ id, is_Some (domains s !! id) → id_valid id.

Lemma option_valid_list (o : option DomainId) : option_valid id_valid o → Forall id_valid (option_list o).
Proof. destruct o; simpl; auto. Qed.

Lemma add_denial_valid c m :
  context_valid c → option_valid membership_valid m → Forall id_valid (add_denial c m).
Proof.
  intros [(Hd & Hp & _) _] Hm. unfold add_denial. constructor; [done|].
  apply Forall_app. split; [by apply option_valid_list|]. destruct m as [[]|]; simpl in *; auto.
Qed.

Lemma collected_valid event : event_valid event → Forall id_valid (collected_domain_ids event).
Proof.
  destruct event; intros [_ Hv]; cbn [collected_domain_ids]; try apply Forall_nil_2;
    try (apply add_denial_valid; simpl; naive_solver); apply Forall_cons; split; try apply Forall_nil_2;
    try apply option_valid_list; naive_solver.
Qed.

Lemma ids_valid_apply s event : event_valid event → ids_valid s → ids_valid (apply s event).
Proof.
  intros Hv Hs id Hid. destruct (decide (id ∈ affected_domain_ids event)) as [Ha|Ha].
  - apply elem_of_affected in Ha. apply collected_valid in Hv. rewrite Forall_forall in Hv. by apply Hv.
  - rewrite apply_unaffected in Hid by done. by apply Hs.
Qed.

Lemma NoDup_bounded (l : list N) n : NoDup l → Forall (λ x, 1 <= x <= n) l → N.of_nat (length l) <= n.
Proof.
  intros Hl Hb. assert (length l ≤ length (N.of_nat <$> seq 1 (N.to_nat n)))%nat as Hle.
  { apply List.NoDup_incl_length; [by apply NoDup_ListNoDup|]. intros x Hx%list_elem_of_In.
    rewrite Forall_forall in Hb. apply Hb in Hx. apply list_elem_of_In, list_elem_of_fmap.
    exists (N.to_nat x). rewrite elem_of_seq. lia. }
  rewrite length_fmap, length_seq in Hle. lia.
Qed.

Lemma ids_valid_size s : ids_valid s → N.of_nat (size (domains s)) <= usize_max.
Proof.
  intros Hs. rewrite <- length_map_to_list, <- (length_fmap fst), <- (length_fmap id_get).
  apply NoDup_bounded.
  - apply NoDup_fmap_2; [by intros [] [] [=->]|]. apply NoDup_fst_map_to_list.
  - apply Forall_fmap, Forall_fmap, Forall_forall. intros [id d] Hd%elem_of_map_to_list. simpl.
    destruct (Hs id (mk_is_Some _ _ Hd)) as [Hmin Hmax]. unfold MIN_LANDLOCK_ID, u64_ok, usize_max, u64_max in *. lia.
Qed.

(** ** Batches after a stream *)

Definition domain_allocated (d : DomainState) : Prop := ds_lifecycle d = Allocated.
#[export] Instance domain_allocated_dec d : Decision (domain_allocated d).
Proof. unfold domain_allocated. apply _. Defined.

Definition allocated_count (s : State) : N := count domain_allocated (domains s).

Lemma recount_step s s' n id : recount s s' n id = count_step domain_allocated (domains s) (domains s') n id.
Proof.
  unfold recount, count_step, domain_line, flag, domain. by destruct (domains s !! id), (domains s' !! id).
Qed.

Lemma recount_allocated s event :
  ids_valid (apply s event) →
  foldl (recount s (apply s event)) (allocated_count s) (affected_domain_ids event) =
  allocated_count (apply s event).
Proof.
  intros Hv. unfold allocated_count. trans (foldl (count_step domain_allocated (domains s) (domains (apply s event)))
    (count domain_allocated (domains s)) (affected_domain_ids event)).
  - generalize (count domain_allocated (domains s)). induction (affected_domain_ids event) as [|id ids IH];
      intros n; simpl; [done|]. by rewrite recount_step, IH.
  - apply count_fold; [apply NoDup_affected|intros id; apply apply_unaffected|apply apply_domains_dom|].
    by apply ids_valid_size.
Qed.

(** The counters of a stream, each saturating at [u64::MAX]. *)
Definition kinds_of (events : list Event) : list DenialKind := omap from_event events.
Definition occurrences (kind : DenialKind) (events : list Event) : N :=
  len (filter (λ k, k = kind) (kinds_of events)).

Section batch.
Variable iter : gmap DenialKey AggregatedDenial → list Entry.

Lemma process_all_snoc b events event :
  (process_all iter b (events ++ [event])).1 = (process iter (process_all iter b events).1 event).1.
Proof.
  unfold process_all. rewrite foldl_app. simpl. by destruct (process iter _ event).
Qed.

Lemma process_denials b event : batch_denials (process iter b event).1 = observe iter (batch_denials b) event.
Proof.
  unfold process, process_denial, observe. destruct (from_event event) eqn:E.
  - destruct (observe_entry _ _ _). by rewrite report_fold.
  - rewrite report_fold. simpl. unfold observe_entry. by destruct event.
Qed.

Lemma process_stats b event :
  batch_stats (process iter b event).1 =
  match from_event event with Some kind => stats_observe kind (batch_stats b) | None => batch_stats b end.
Proof. unfold process. destruct (process_denial _ _ _). by rewrite report_fold. Qed.

Definition after (events : list Event) : Batch := (process_all iter batch_new events).1.

Lemma after_snoc events event : after (events ++ [event]) = (process iter (after events) event).1.
Proof. apply process_all_snoc. Qed.

Lemma after_state events : batch_state (after events) = replay state_new events.
Proof.
  induction events as [|event events IH] using rev_ind; [done|].
  by rewrite after_snoc, process_state, replay_snoc, IH.
Qed.

Lemma after_denials events : batch_denials (after events) = observe_all iter aggregator_new events.
Proof.
  induction events as [|event events IH] using rev_ind; [done|].
  rewrite after_snoc, process_denials, IH. unfold observe_all. by rewrite foldl_app.
Qed.

Lemma after_allocated events :
  Forall event_valid events →
  ids_valid (batch_state (after events)) ∧
  allocated_domains (after events) = allocated_count (batch_state (after events)).
Proof.
  induction events as [|event events IH] using rev_ind.
  { intros _. split; [|done]. intros id. simpl. rewrite lookup_empty. by intros [? ?]. }
  rewrite Forall_app, Forall_singleton. intros [Hes Hv]. destruct (IH Hes) as [Hi Hc].
  assert (ids_valid (apply (batch_state (after events)) event)) as Hi' by by apply ids_valid_apply.
  rewrite after_snoc, process_state, process_allocated, Hc. auto using recount_allocated.
Qed.

(** C20: after any stream of valid events, the number of allocated domains in
    the statistics is the number of domains of the replayed state that are
    allocated; neither the batch of watched domains nor the width of the
    counter makes it drift. *)
Theorem allocated_domains_exact events :
  Forall event_valid events →
  batch_state (after events) = replay state_new events ∧
  allocated_domains (after events) = allocated_count (replay state_new events).
Proof. intros Hv. rewrite <- after_state. split; [done|]. by apply after_allocated. Qed.

Lemma counter_set_counter k k' n c :
  counter k (set_counter k' n c) = if decide (k' = k) then n else counter k c.
Proof. by destruct k, k'. Qed.

Lemma saturating_succ (n : N) : saturating_add u64_max (N.min u64_max n) 1 = N.min u64_max (n + 1).
Proof. unfold saturating_add. lia. Qed.

Lemma kinds_of_snoc events event : kinds_of (events ++ [event]) = kinds_of events ++ option_list (from_event event).
Proof. unfold kinds_of. rewrite omap_app. simpl. by destruct (from_event event). Qed.

Lemma occurrences_snoc kind events event :
  occurrences kind (events ++ [event]) =
  occurrences kind events + (if decide (from_event event = Some kind) then 1 else 0).
Proof.
  unfold occurrences, len. rewrite kinds_of_snoc, filter_app, length_app.
  destruct (from_event event) as [k|]; simpl; [|lia].
  rewrite filter_cons, filter_nil. repeat case_decide; simplify_eq; simpl; lia.
Qed.

(** The denial counters of the statistics are the numbers of denial
    events in the stream, in all and of each kind, up to the width at which
    they saturate. *)
Theorem denial_counters_exact events :
  let stats := batch_stats (after events) in
  total_denials stats = N.min u64_max (len (kinds_of events)) ∧
  ∀ kind, counter kind (denials stats) = N.min u64_max (occurrences kind events).
Proof.
  simpl. induction events as [|event events [IHt IHk]] using rev_ind; [split; [done|by intros []]|].
  rewrite after_snoc, process_stats, kinds_of_snoc. unfold len in *. rewrite length_app.
  setoid_rewrite occurrences_snoc. destruct (from_event event) as [k|]; simpl.
  - split; [rewrite IHt, saturating_succ; f_equal; lia|]. intros kind.
    rewrite counter_set_counter, !IHk. repeat case_decide; simplify_eq.
    + apply saturating_succ.
    + f_equal. lia.
  - rewrite Nat.add_0_r. split; [done|]. intros kind. by rewrite IHk, N.add_0_r.
Qed.
End batch.

(** ** A concrete stream *)

(** A denial names a domain that is freed later. *)
Definition sample_free_domain : Event :=
  FreeDomain (mkFreeDomainEvent (from_nanoseconds 9) (mkLandlockId 0x100000001) 1).
Definition sample_batch_events : list Event :=
  [sample_denial 80 1; sample_denial 443 2; sample_free_domain].

Lemma sample_denial_valid port t :
  u64_ok t → u64_ok port → event_valid (sample_denial port t).
Proof.
  intros Ht Hp. repeat split; simpl; try done; try lia; unfold pid_valid, u32_ok, u64_ok; simpl; try lia.
  by intros _ ?%not_elem_of_nil.
Qed.

Lemma sample_batch_valid : Forall event_valid sample_batch_events.
Proof.
  repeat constructor; try apply sample_denial_valid; unfold u64_ok; simpl; try lia; done.
Qed.

Lemma allocated_domains_exact_witness :
  batch_state (after map_to_list sample_batch_events) = replay state_new sample_batch_events ∧
  allocated_domains (after map_to_list sample_batch_events) =
    allocated_count (replay state_new sample_batch_events).
Proof. apply (allocated_domains_exact map_to_list sample_batch_events). exact sample_batch_valid. Defined.
