(* ===== verification/BatchReport.v ===== *)
(** * What lltop reports of each event (lltop/src/batch.rs)

    A domain is printed exactly when its line changed, a denial is always
    printed with its aggregated entry, and the statistics that follow are true
    of the replayed state. *)

From Stdlib Require Import Ascii.
From S2P Require Import Prelude Lattice CapturedBytes Event State StateSpec StateWf StateHistory Aggregate AggregateSpec Text Batch BatchSpec BatchCount.

(** ** Lines can be told apart *)

Lemma split_at_first {A} (c : A) l1 l2 r1 r2 :
  c ∉ l1 → c ∉ l2 → l1 ++ c :: r1 = l2 ++ c :: r2 → l1 = l2.
Proof.
  revert l2. induction l1 as [|x l1 IH]; intros [|y l2]; simpl; rewrite ?not_elem_of_cons; naive_solver.
Qed.

Lemma space_not_hex n : " "%char ∉ chars (hex n).
Proof. intros Hc. apply (all_chars_elem _ _ _ (all_chars_hex n)) in Hc. done. Qed.

Lemma format_domain_id d d' : format_domain d = format_domain d' → ds_id d = ds_id d'.
Proof.
  unfold format_domain, display_id. intros Hf. apply (f_equal chars) in Hf. rewrite !chars_app in Hf.
  apply app_inv_head in Hf. simpl in Hf. apply split_at_first in Hf; [|apply space_not_hex..].
  apply chars_inj, hex_inj in Hf. destruct (ds_id d), (ds_id d'). simpl in Hf. by subst.
Qed.

Lemma format_domain_not_drop d v : format_domain d ≠ format_drop_ruleset v.
Proof. discriminate. Qed.
Lemma format_domain_not_stats d n m st : format_domain d ≠ format_stats n m st.
Proof. discriminate. Qed.
Lemma format_domain_not_denial d kind e : Some (format_domain d) ≠ format_denial kind e.
Proof. unfold format_denial. destruct (denial_fields _) as [[[[? ?] ?] ?]|]; discriminate. Qed.

Lemma elem_of_option_list {A} (o : option A) a : a ∈ option_list o ↔ o = Some a.
Proof. destruct o; simpl; rewrite ?list_elem_of_singleton, ?elem_of_nil; naive_solver. Qed.

Section report.
Variable iter : gmap DenialKey AggregatedDenial → list Entry.

Lemma domain_in_body b event d :
  format_domain d ∈ body iter b event ↔
  ∃ id, id ∈ affected_domain_ids event ∧
        changed (batch_state b) (apply (batch_state b) event) id = Some (format_domain d).
Proof.
  unfold body. rewrite !elem_of_app, list_elem_of_omap. split; [|auto]. intros [?|[Hd|Hd]]; [done|..]; exfalso.
  - revert Hd. unfold drop_record. destruct event; try by intros ?%not_elem_of_nil.
    case_decide; [|by intros ?%not_elem_of_nil].
    destruct (deallocated_ruleset_identity _ _); simpl; [|by intros ?%not_elem_of_nil].
    intros Hd%list_elem_of_singleton. by apply format_domain_not_drop in Hd.
  - apply elem_of_option_list in Hd. revert Hd. unfold process_denial. destruct (from_event event); [|done].
    destruct (observe_entry _ _ _) as [a [e|]]; simpl; [|done]. intros Hd. symmetry in Hd.
    by apply format_domain_not_denial in Hd.
Qed.

Lemma domain_in_records b event d :
  format_domain d ∈ (process iter b event).2 ↔ format_domain d ∈ body iter b event.
Proof.
  destruct (process_records iter b event) as [-> | ->]; [done|]. rewrite elem_of_app. split; [|auto].
  intros [?|Hd%list_elem_of_singleton]; [done|]. by apply format_domain_not_stats in Hd.
Qed.

Lemma domain_line_text s id : fst <$> domain_line s id = format_domain <$> domain s id.
Proof. unfold domain_line. by destruct (domain s id). Qed.

Lemma changed_line s s' id r :
  changed s s' id = Some r ↔
  format_domain <$> domain s' id = Some r ∧ format_domain <$> domain s' id ≠ format_domain <$> domain s id.
Proof.
  unfold changed. rewrite !domain_line_text. generalize (format_domain <$> domain s id).
  generalize (format_domain <$> domain s' id). intros o o'. case_decide; naive_solver.
Qed.

(** C31: an event prints the line of a domain exactly when that line is not
    the one the replayed state had before: no change is missed, whichever
    domain it reaches, and nothing is repeated. *)
Theorem domain_printed_iff_changed events event id :
  let s := replay state_new events in
  let s' := replay state_new (events ++ [event]) in
  (∃ d, domain s' id = Some d ∧ format_domain d ∈ (process iter (after iter events) event).2) ↔
  format_domain <$> domain s' id ≠ format_domain <$> domain s id.
Proof.
  simpl. rewrite replay_snoc. setoid_rewrite domain_in_records. setoid_rewrite domain_in_body.
  rewrite after_state. set (s := replay state_new events). split.
  - intros (d & Hd & id' & _ & Hc). apply changed_line in Hc as [Hl Hne].
    apply fmap_Some in Hl as (d' & Hd' & Hl). apply format_domain_id in Hl.
    assert (state_wf (apply s event)) as Hwf by (apply apply_wf, replay_wf, state_new_wf).
    apply swf_domains in Hwf. pose proof (dwf_id _ _ (Hwf _ _ Hd)). pose proof (dwf_id _ _ (Hwf _ _ Hd')).
    assert (id' = id) as -> by congruence. done.
  - intros Hne. destruct (domain (apply s event) id) as [d|] eqn:Hd.
    + exists d. split; [done|]. exists id. split; [|apply changed_line; by rewrite Hd].
      destruct (decide (id ∈ affected_domain_ids event)) as [|Ha]; [done|]. destruct Hne.
      apply (apply_unaffected s) in Ha. unfold domain in *. by rewrite <- Ha, Hd.
    + destruct Hne. destruct (domain s id) as [d|] eqn:Hs; [|done].
      pose proof (apply_domains_dom s event id) as Hdom. rewrite !elem_of_dom in Hdom.
      unfold domain in *. rewrite Hd, Hs in Hdom. destruct Hdom; [by eexists|done].
Qed.

Lemma process_stats_last b event :
  (process iter b event).2 ≠ [] →
  let b' := (process iter b event).1 in
  last (process iter b event).2 =
  Some (format_stats (allocated_domains b') (domain_count (batch_state b')) (batch_stats b')).
Proof.
  unfold process. destruct (process_denial _ _ _) as [a r]. rewrite report_fold. simpl.
  case_decide as Hd; simpl; [intros _; apply last_snoc|]. intros Hne. destruct Hd. by left.
Qed.

(** Whenever an event prints anything, the last line has the statistics
    of the replayed state: the number of its allocated domains, of all its
    domains, and the denial counters. *)
Theorem statistics_follow events event :
  Forall event_valid (events ++ [event]) → (process iter (after iter events) event).2 ≠ [] →
  last (process iter (after iter events) event).2 =
  Some (format_stats (allocated_count (replay state_new (events ++ [event])))
          (domain_count (replay state_new (events ++ [event])))
          (batch_stats (after iter (events ++ [event])))).
Proof.
  intros Hv Hne. rewrite process_stats_last by done. simpl. rewrite <- after_snoc.
  destruct (after_allocated iter _ Hv) as [_ ->]. by rewrite after_state.
Qed.

Hypothesis iter_enumerates : ∀ m, iter m ≡ₚ map_to_list m.

Lemma observe_entry_event a event entry :
  (observe_entry iter a event).2 = Some entry → ad_latest_event entry = event.
Proof.
  unfold observe_entry. destruct (denial_facts event) as [[[key x] y]|]; [|done].
  destruct (next_ingestion_sequence iter a) as [a' n]. destruct (agg_entries a' !! key).
  - by intros [= <-].
  - destruct (evict iter a'); [|done]. by intros [= <-].
Qed.

Lemma observe_entry_total l a event :
  represents l a → is_Some (denial_facts event) → is_Some (observe_entry iter a event).2.
Proof.
  intros Hr [[[key x] y] Hd]. destruct (observe_refines iter iter_enumerates l a event Hr) as (l' & _ & Hf & _ & ->).
  rewrite Hd. unfold lru_observe in Hf. rewrite Hd in Hf. apply last_is_Some.
  intros ->. simpl in Hf. destruct (head _); symmetry in Hf; by apply app_eq_nil in Hf as [_ ?].
Qed.

Lemma from_event_facts event kind : from_event event = Some kind → is_Some (denial_facts event).
Proof. unfold denial_facts. by destruct event. Qed.

Lemma format_denial_event kind kind' event entry :
  from_event event = Some kind → ad_latest_event entry = event → is_Some (format_denial kind' entry).
Proof. intros Hk He. unfold format_denial. rewrite He. destruct event; done || eauto. Qed.

(** Every denial is reported: it updates an entry of the aggregator,
    which then holds that very event, and the line of this entry is printed. *)
Theorem denial_always_printed events event kind :
  from_event event = Some kind →
  ∃ entry line,
    (observe_entry iter (observe_all iter aggregator_new events) event).2 = Some entry ∧
    ad_latest_event entry = event ∧
    format_denial kind entry = Some line ∧ line ∈ (process iter (after iter events) event).2.
Proof.
  intros Hk. assert (0 < DEFAULT_CAPACITY <= usize_max) as Hc by done.
  destruct (observe_all_refines iter iter_enumerates [] _ events (represents_empty _ Hc)) as (l & Hr & _).
  destruct (observe_entry_total _ _ event Hr (from_event_facts _ _ Hk)) as [entry He].
  pose proof (observe_entry_event _ _ _ He) as Hl.
  destruct (format_denial_event _ kind _ _ Hk Hl) as [line Hf]. exists entry, line. split_and!; try done.
  assert (line ∈ body iter (after iter events) event) as Hb.
  { unfold body. rewrite !elem_of_app. right. right. apply elem_of_option_list.
    unfold process_denial. rewrite Hk, after_denials. change aggregator_new with (mkDenialAggregator DEFAULT_CAPACITY ∅ 0).
    destruct (observe_entry iter _ event) as [a o]. simpl in *. by rewrite He. }
  destruct (process_records iter (after iter events) event) as [-> | ->]; [done|]. apply elem_of_app. auto.
Qed.
End report.

(** Freeing a domain changes no line, only the statistics. *)
Lemma statistics_follow_witness :
  last (process map_to_list (after map_to_list [sample_denial 80 1; sample_denial 443 2]) sample_free_domain).2 =
  Some (format_stats 0 1 (batch_stats (after map_to_list sample_batch_events))).
Proof.
  apply (statistics_follow map_to_list [sample_denial 80 1; sample_denial 443 2] sample_free_domain).
  - exact sample_batch_valid.
  - vm_compute. discriminate.
Defined.

Lemma denial_always_printed_witness :
  ∃ entry line,
    (observe_entry map_to_list (observe_all map_to_list aggregator_new [sample_denial 80 1])
       (sample_denial 80 2)).2 = Some entry ∧
    ad_latest_event entry = sample_denial 80 2 ∧
    format_denial Net entry = Some line ∧
    line ∈ (process map_to_list (after map_to_list [sample_denial 80 1]) (sample_denial 80 2)).2.
Proof.
  apply (denial_always_printed map_to_list (λ m, reflexivity _) [sample_denial 80 1] (sample_denial 80 2) Net).
  reflexivity.
Defined.
