(* ===== verification/Utf8.v ===== *)
(** * UTF-8 (Rust's [str], [char] and [utf8_chunks])

    A [char] is its scalar value, a [str] the list of its characters; offsets
    into a [str] count bytes, as in Rust. [utf8_items] reads bytes the way
    [utf8_chunks] does: valid characters, and maximal invalid sequences of at
    most three bytes. Reading loses nothing: the bytes can be written back. *)

From S2P Require Import Prelude.

Notation char := N (only parsing).
Notation text := (list N) (only parsing).

(** ** Encoding *)

Definition len_utf8 (c : char) : N :=
  if c <? 0x80 then 1 else if c <? 0x800 then 2 else if c <? 0x10000 then 3 else 4.

Definition cont (n : N) : byte := byte_of_N (0x80 + n mod 64).

Definition encode_utf8 (c : char) : list byte :=
  if c <? 0x80 then [byte_of_N c]
  else if c <? 0x800 then [byte_of_N (0xC0 + c / 64); cont c]
  else if c <? 0x10000 then [byte_of_N (0xE0 + c / 4096); cont (c / 64); cont c]
  else [byte_of_N (0xF0 + c / 262144); cont (c / 4096); cont (c / 64); cont c].

(** [str::len] and [str::as_bytes]. *)
Definition byte_len (s : text) : N := foldr (λ c n, len_utf8 c + n) 0 s.
Definition str_bytes (s : text) : list byte := s ≫= encode_utf8.

(** ** Decoding *)

Definition in_range (lo hi : N) (b : byte) : bool := (lo <=? Byte.to_N b) && (Byte.to_N b <=? hi).
Definition is_cont (b : byte) : bool := in_range 0x80 0xBF b.

(** The low bits of a continuation byte. *)
Definition cont_bits (b : byte) : N := Byte.to_N b - 0x80.

(** The second byte allowed after a first byte of a three-byte sequence: no
    overlong form, no surrogate. *)
Definition second_of_3 (b0 b1 : byte) : bool :=
  if in_range 0xE0 0xE0 b0 then in_range 0xA0 0xBF b1
  else if in_range 0xED 0xED b0 then in_range 0x80 0x9F b1
  else is_cont b1.

(** The same for four bytes: no overlong form, nothing above U+10FFFF. *)
Definition second_of_4 (b0 b1 : byte) : bool :=
  if in_range 0xF0 0xF0 b0 then in_range 0x90 0xBF b1
  else if in_range 0xF4 0xF4 b0 then in_range 0x80 0x8F b1
  else is_cont b1.

Inductive item := Valid (c : char) | Invalid (bytes : list byte).

Fixpoint utf8_items (bs : list byte) : list item :=
  match bs with
  | [] => []
  | b0 :: r0 =>
      if in_range 0 0x7F b0 then Valid (Byte.to_N b0) :: utf8_items r0
      else if in_range 0xC2 0xDF b0 then
        match r0 with
        | b1 :: r1 =>
            if is_cont b1 then Valid ((Byte.to_N b0 - 0xC0) * 64 + cont_bits b1) :: utf8_items r1
            else Invalid [b0] :: utf8_items r0
        | [] => [Invalid [b0]]
        end
      else if in_range 0xE0 0xEF b0 then
        match r0 with
        | b1 :: r1 =>
            if second_of_3 b0 b1 then
              match r1 with
              | b2 :: r2 =>
                  if is_cont b2
                  then Valid ((Byte.to_N b0 - 0xE0) * 4096 + cont_bits b1 * 64 + cont_bits b2) :: utf8_items r2
                  else Invalid [b0; b1] :: utf8_items r1
              | [] => [Invalid [b0; b1]]
              end
            else Invalid [b0] :: utf8_items r0
        | [] => [Invalid [b0]]
        end
      else if in_range 0xF0 0xF4 b0 then
        match r0 with
        | b1 :: r1 =>
            if second_of_4 b0 b1 then
              match r1 with
              | b2 :: r2 =>
                  if is_cont b2 then
                    match r2 with
                    | b3 :: r3 =>
                        if is_cont b3
                        then Valid ((Byte.to_N b0 - 0xF0) * 262144 + cont_bits b1 * 4096 + cont_bits b2 * 64 +
                                    cont_bits b3) :: utf8_items r3
                        else Invalid [b0; b1; b2] :: utf8_items r2
                    | [] => [Invalid [b0; b1; b2]]
                    end
                  else Invalid [b0; b1] :: utf8_items r1
              | [] => [Invalid [b0; b1]]
              end
            else Invalid [b0] :: utf8_items r0
        | [] => [Invalid [b0]]
        end
      else Invalid [b0] :: utf8_items r0
  end.

(** The pairs [(chunk.valid(), chunk.invalid())]. *)
Fixpoint group_chunks (items : list item) : list (text * list byte) :=
  match items with
  | [] => []
  | Invalid bytes :: items => ([], bytes) :: group_chunks items
  | Valid c :: items =>
      match group_chunks items with
      | (valid, invalid) :: chunks => (c :: valid, invalid) :: chunks
      | [] => [([c], [])]
      end
  end.

Definition utf8_chunks (bs : list byte) : list (text * list byte) := group_chunks (utf8_items bs).

(** A string literal as a [str]. *)
Definition lit (s : string) : text :=
  omap (λ i, match i with Valid c => Some c | Invalid _ => None end) (utf8_items (bytes_of_string s)).

(** ** Reading back *)

Definition item_bytes (i : item) : list byte :=
  match i with
  | Valid c => encode_utf8 c
  | Invalid bytes => bytes
  end.

Lemma in_range_spec lo hi b : in_range lo hi b = true ↔ lo <= Byte.to_N b ∧ Byte.to_N b <= hi.
Proof. unfold in_range. rewrite andb_true_iff, !N.leb_le. done. Qed.

Lemma byte_of_N_eq n b : n = Byte.to_N b → byte_of_N n = b.
Proof. intros ->. apply byte_of_N_to_N. Qed.

(** Reduces membership in ranges to inequalities and divisions to equations. *)
Ltac utf8_arith :=
  unfold second_of_3, second_of_4, is_cont, cont_bits in *;
  repeat match goal with
  | H : in_range _ _ _ = true |- _ => apply in_range_spec in H
  | H : (if ?b then _ else _) = true |- _ => destruct b eqn:?
  | H : in_range ?lo ?hi ?b = false |- _ =>
      assert (¬ (lo <= Byte.to_N b ∧ Byte.to_N b <= hi)) by (rewrite <- in_range_spec, H; done); clear H
  end.

(** [lia] with divisions by constants. *)
Ltac div_lia := zify; Z.to_euclidean_division_equations; lia.

Lemma encode_2 b0 b1 :
  in_range 0xC2 0xDF b0 = true → is_cont b1 = true →
  encode_utf8 ((Byte.to_N b0 - 0xC0) * 64 + cont_bits b1) = [b0; b1].
Proof.
  intros. utf8_arith. unfold encode_utf8, cont. pose proof (to_N_lt_256 b0). pose proof (to_N_lt_256 b1).
  rewrite (proj2 (N.ltb_ge _ 0x80)) by lia. rewrite (proj2 (N.ltb_lt _ 0x800)) by lia.
  repeat f_equal; apply byte_of_N_eq; div_lia.
Qed.

Lemma encode_3 b0 b1 b2 :
  in_range 0xE0 0xEF b0 = true → second_of_3 b0 b1 = true → is_cont b2 = true →
  encode_utf8 ((Byte.to_N b0 - 0xE0) * 4096 + cont_bits b1 * 64 + cont_bits b2) = [b0; b1; b2].
Proof.
  intros. unfold encode_utf8, cont.
  assert (0x80 <= Byte.to_N b1 ∧ Byte.to_N b1 <= 0xBF ∧ (Byte.to_N b0 = 0xE0 → 0xA0 <= Byte.to_N b1)) by (utf8_arith; lia).
  utf8_arith; rewrite (proj2 (N.ltb_ge _ 0x80)), (proj2 (N.ltb_ge _ 0x800)), (proj2 (N.ltb_lt _ 0x10000)) by lia;
    repeat f_equal; apply byte_of_N_eq; div_lia.
Qed.

Lemma encode_4 b0 b1 b2 b3 :
  in_range 0xF0 0xF4 b0 = true → second_of_4 b0 b1 = true → is_cont b2 = true → is_cont b3 = true →
  encode_utf8 ((Byte.to_N b0 - 0xF0) * 262144 + cont_bits b1 * 4096 + cont_bits b2 * 64 + cont_bits b3) =
  [b0; b1; b2; b3].
Proof.
  intros. unfold encode_utf8, cont.
  assert (0x80 <= Byte.to_N b1 ∧ Byte.to_N b1 <= 0xBF ∧ (Byte.to_N b0 = 0xF0 → 0x90 <= Byte.to_N b1)) by (utf8_arith; lia).
  utf8_arith; rewrite (proj2 (N.ltb_ge _ 0x80)), (proj2 (N.ltb_ge _ 0x800)), (proj2 (N.ltb_ge _ 0x10000)) by lia;
    repeat f_equal; apply byte_of_N_eq; div_lia.
Qed.

Lemma encode_1 b0 : in_range 0 0x7F b0 = true → encode_utf8 (Byte.to_N b0) = [b0].
Proof.
  intros. utf8_arith. unfold encode_utf8. rewrite (proj2 (N.ltb_lt _ 0x80)) by lia. f_equal. apply byte_of_N_to_N.
Qed.

(** Reading loses nothing. *)
Lemma utf8_items_bytes bs : utf8_items bs ≫= item_bytes = bs.
Proof.
  remember (length bs) as n eqn:Hn. revert bs Hn.
  induction n as [n IH] using (well_founded_induction Nat.lt_wf_0). intros bs ->.
  assert (∀ r, (length r < length bs)%nat → utf8_items r ≫= item_bytes = r) as Hr by eauto. clear IH.
  destruct bs as [|b0 r0]; [done|]. simpl in Hr |- *.
  repeat match goal with
  | |- context [match ?x with true => _ | false => _ end] => destruct x eqn:?
  | |- context [match ?l with [] => _ | _ :: _ => _ end] => is_var l; destruct l
  end; rewrite ?bind_cons; cbn [item_bytes]; rewrite ?Hr by (simpl; lia); try done;
  rewrite ?encode_1, ?encode_2, ?encode_3, ?encode_4 by done; done.
Qed.
