(* ===== verification/Views.v ===== *)
(** * Views of captured bytes (src/event/string.rs)

    The unescaped views: the bytes as a platform string or path, which on Unix
    is any list of bytes; the lossy text; and the address of an abstract UNIX
    socket. *)

From S2P Require Import Prelude CapturedBytes Utf8.

(** [OsStr::from_bytes] and [Path::new] keep the bytes. *)
Definition as_path (v : CapturedBytes PathnameOrigin) : list byte := as_bytes v.
Definition as_os_str (v : CapturedBytes CommandOrigin) : list byte := as_bytes v.

Definition REPLACEMENT_CHARACTER : char := 0xFFFD.

(** [String::from_utf8_lossy]: one replacement per invalid sequence. *)
Definition from_utf8_lossy (bs : list byte) : text :=
  utf8_chunks bs ≫= λ '(valid, invalid), valid ++ match invalid with [] => [] | _ => [REPLACEMENT_CHARACTER] end.

Definition to_string_lossy {K} (v : CapturedBytes K) : text := from_utf8_lossy (as_bytes v).

(** The bytes of [sun_path], of which there are 108. *)
Definition SUN_PATH_LEN : N := 108.

(** [SocketAddr::from_abstract_name]: a NUL, then the name, if both fit. *)
Definition from_abstract_name (name : list byte) : result (list byte) string :=
  if SUN_PATH_LEN <? len name + 1 then Err "abstract socket name must be shorter than SUN_LEN"
  else Ok (Byte.x00 :: name).

Definition to_socket_addr (v : CapturedBytes AbstractUnixSocketNameOrigin) : result (list byte) string :=
  from_abstract_name (as_bytes v).

(** The address has room for every captured name: the conversion never fails
    on a valid value, and the name can be read off the address. *)
Theorem to_socket_addr_valid v : captured_valid v → to_socket_addr v = Ok (Byte.x00 :: as_bytes v).
Proof.
  intros (_ & Hl & _). unfold to_socket_addr, from_abstract_name. change (MAXIMUM_LEN AbstractUnixSocketNameOrigin) with 107 in Hl.
  unfold SUN_PATH_LEN. by rewrite (proj2 (N.ltb_ge _ _)) by lia.
Qed.

(** ** Lossy text *)

Definition item_text (i : item) : text := match i with Valid c => [c] | Invalid [] => [] | Invalid _ => [REPLACEMENT_CHARACTER] end.

Lemma lossy_items items :
  (group_chunks items ≫= λ '(valid, invalid), valid ++ match invalid with [] => [] | _ => [REPLACEMENT_CHARACTER] end) =
  items ≫= item_text.
Proof.
  induction items as [|[c|bytes] items IH]; [done| |]; csimpl; [|rewrite IH; by destruct bytes].
  rewrite <- IH. by destruct (group_chunks items) as [|[valid invalid] chunks].
Qed.

(** Bytes that are UTF-8 throughout. *)
Definition all_valid (bs : list byte) : Prop := Forall (λ i, ∃ c, i = Valid c) (utf8_items bs).

(** Nothing is lost of UTF-8: the lossy text of bytes that are UTF-8 throughout
    encodes to these bytes. *)
Theorem to_string_lossy_valid {K} (v : CapturedBytes K) :
  all_valid (as_bytes v) → str_bytes (to_string_lossy v) = as_bytes v.
Proof.
  intros Hv. unfold to_string_lossy, from_utf8_lossy, utf8_chunks. rewrite lossy_items.
  rewrite <- (utf8_items_bytes (as_bytes v)) at 2. unfold str_bytes. induction Hv as [|i items [c ->] Hi IH]; [done|].
  csimpl. by rewrite IH.
Qed.
