(* ===== verification/Build.v ===== *)
(** * The build script (build.rs)

    [main] tells Cargo when to run it again, and compiles the BPF programs for
    the byte order of the target, unless only the documentation is built.

    The environment is a function from names to byte strings, the output of the
    script a stream that may fail, and [SkeletonBuilder::build] a parameter. The
    result records the compilation that was asked for, if any. *)

From S2P Require Import Prelude Utf8.

Definition BPF_SOURCE : string := "src/bpf/landlock_observability.bpf.c".
Definition BPF_HEADERS : list string := ["src/bpf/event.h"; "src/bpf/vmlinux.h"].

(** What is given to [SkeletonBuilder]. *)
Record Compilation := mkCompilation {
  comp_source : string;
  comp_obj : list byte;
  comp_clang_args : list string;
}.

Section build.
Context {O IoError BuildError : Type}.
Context (write_line : string → O → O * result unit IoError) (flush : O → O * result unit IoError).
Context (skeleton_build : Compilation → result unit BuildError).

Inductive BuildScriptError :=
| ScriptIo (error : IoError)
| EndianNotSet
| UnknownEndian (value : text)
| OutDirNotSet
| ScriptBuild (error : BuildError).

(** [env::var]: not set, or not UTF-8, is an error. *)
Definition env_var (environment : string → option (list byte)) (name : string) : option text :=
  bs ← environment name;
  mapM (λ i, match i with Valid c => Some c | Invalid _ => None end) (utf8_items bs).

(** [PathBuf::join] of a relative name. *)
Definition path_join (directory : list byte) (name : string) : list byte :=
  match last directory with
  | Some b => if bool_decide (b = byte_of_N 47) then directory else directory ++ [byte_of_N 47]
  | None => []
  end ++ bytes_of_string name.

Definition target_endian_flag (value : text) : option string :=
  if bool_decide (value = lit "little") then Some "-mlittle-endian"
  else if bool_decide (value = lit "big") then Some "-mbig-endian"
  else None.

(** Lines written until one fails. *)
Fixpoint write_lines (lines : list string) (output : O) : O * result unit IoError :=
  match lines with
  | [] => (output, Ok ())
  | line :: lines =>
      match write_line line output with
      | (output, Ok _) => write_lines lines output
      | (output, Err e) => (output, Err e)
      end
  end.

Definition rerun_lines : list string :=
  ["cargo:rerun-if-changed=build.rs"; "cargo:rerun-if-env-changed=DOCS_RS";
   "cargo:rerun-if-env-changed=CARGO_CFG_TARGET_ENDIAN"; "cargo:rustc-check-cfg=cfg(docsrs_build)";
   "cargo:rerun-if-changed=" +:+ BPF_SOURCE] ++
  ((λ header, "cargo:rerun-if-changed=" +:+ header) <$> BPF_HEADERS).

(** The part that compiles. *)
Definition compile_programs (environment : string → option (list byte)) : option Compilation * result unit BuildScriptError :=
  match env_var environment "CARGO_CFG_TARGET_ENDIAN" with
  | None => (None, Err EndianNotSet)
  | Some value =>
      match target_endian_flag value with
      | None => (None, Err (UnknownEndian value))
      | Some flag =>
          match environment "OUT_DIR" with
          | None => (None, Err OutDirNotSet)
          | Some output_dir =>
              let compilation := mkCompilation BPF_SOURCE (path_join output_dir "landlock_observability.bpf.o")
                ["-Wall"; "-Wformat=2"; "-Werror"; flag] in
              (Some compilation, map_err ScriptBuild (skeleton_build compilation))
          end
      end
  end.

Definition build_main (environment : string → option (list byte)) (output : O) :
    O * option Compilation * result unit BuildScriptError :=
  match write_lines rerun_lines output with
  | (output, Err e) => (output, None, Err (ScriptIo e))
  | (output, Ok _) =>
      match environment "DOCS_RS" with
      | Some _ =>
          match write_lines ["cargo:rustc-cfg=docsrs_build"] output with
          | (output, Err e) => (output, None, Err (ScriptIo e))
          | (output, Ok _) =>
              let '(output, flushed) := flush output in (output, None, map_err ScriptIo flushed)
          end
      | None =>
          match flush output with
          | (output, Err e) => (output, None, Err (ScriptIo e))
          | (output, Ok _) => let '(compilation, r) := compile_programs environment in (output, compilation, r)
          end
      end
  end.

(** ** The programs have the byte order of the library *)

(** The value Cargo gives for a target, and the option of clang. *)
Definition endian_name (e : endian) : string := match e with Little => "little" | Big => "big" end.
Definition endian_option (e : endian) : string := match e with Little => "-mlittle-endian" | Big => "-mbig-endian" end.

Lemma target_endian_flag_Some value flag :
  target_endian_flag value = Some flag ↔ ∃ e, value = lit (endian_name e) ∧ flag = endian_option e.
Proof.
  unfold target_endian_flag. split.
  - repeat case_bool_decide; intros [= <-]; [by exists Little|by exists Big].
  - intros ([] & -> & ->); [by rewrite bool_decide_true|].
    rewrite bool_decide_false by (vm_compute; congruence). by rewrite bool_decide_true.
Qed.

Lemma compile_programs_args environment compilation r :
  compile_programs environment = (Some compilation, r) →
  ∃ e, env_var environment "CARGO_CFG_TARGET_ENDIAN" = Some (lit (endian_name e)) ∧
    comp_clang_args compilation = ["-Wall"; "-Wformat=2"; "-Werror"; endian_option e] ∧
    r = map_err ScriptBuild (skeleton_build compilation).
Proof.
  unfold compile_programs. destruct (env_var _ _) as [value|]; [|done].
  destruct (target_endian_flag value) as [flag|] eqn:Hf; [|done]. destruct (environment "OUT_DIR"); [|done].
  intros [= <- <-]. apply target_endian_flag_Some in Hf as (e & -> & ->). by exists e.
Qed.

(** C34: the BPF programs are built for the byte order of the library. The
    script never compiles for a documentation build, and otherwise only when the
    target's byte order is known, with the option of clang for that byte order;
    a success outside a documentation build means that this compilation was
    asked for and succeeded. *)
Theorem build_matches_target environment output :
  let '(_, compilation, r) := build_main environment output in
  (∀ c, compilation = Some c →
     environment "DOCS_RS" = None ∧ r = map_err ScriptBuild (skeleton_build c) ∧ comp_source c = BPF_SOURCE ∧
     ∃ e, env_var environment "CARGO_CFG_TARGET_ENDIAN" = Some (lit (endian_name e)) ∧
       comp_clang_args c = ["-Wall"; "-Wformat=2"; "-Werror"; endian_option e]) ∧
  (r = Ok () → environment "DOCS_RS" = None → ∃ c, compilation = Some c ∧ skeleton_build c = Ok ()).
Proof.
  unfold build_main. destruct (write_lines rerun_lines output) as [output1 [[]|e]]; [|done].
  destruct (environment "DOCS_RS").
  { destruct (write_lines _ output1) as [output2 [[]|e]]; [|done]. by destruct (flush output2) as [output3 []]. }
  destruct (flush output1) as [output2 [[]|e]]; [|done].
  destruct (compile_programs environment) as [compilation r] eqn:Hc. split.
  - intros c ->. pose proof Hc as Hs. apply compile_programs_args in Hc as (e & He & Ha & ->).
    split_and!; [done|done| |by exists e]. unfold compile_programs in Hs. by repeat case_match; simplify_eq/=.
  - intros -> _. destruct compilation as [c|].
    + exists c. split; [done|]. apply compile_programs_args in Hc as (e & _ & _ & Hr). by destruct (skeleton_build c) as [[]|].
    + unfold compile_programs in Hc. by repeat case_match.
Qed.
End build.

(** A little-endian target. *)
Definition little_environment (name : string) : option (list byte) :=
  if bool_decide (name = "CARGO_CFG_TARGET_ENDIAN") then Some (bytes_of_string "little")
  else if bool_decide (name = "OUT_DIR") then Some (bytes_of_string "/out/") else None.

Example little_build :
  (build_main (IoError := unit) (BuildError := unit) (λ line o, (o ++ [line], Ok ())) (λ o, (o, Ok ())) (λ _, Ok ())
     little_environment []).1.2 =
  Some (mkCompilation "src/bpf/landlock_observability.bpf.c" (bytes_of_string "/out/landlock_observability.bpf.o")
          ["-Wall"; "-Wformat=2"; "-Werror"; "-mlittle-endian"]).
Proof. by vm_compute. Qed.
