(* ===== verification/Display.v ===== *)
(** * Display of captured bytes (src/event/string.rs)

    [Display] shows valid UTF-8 as it is, except that the backslash is doubled
    and that characters of the control, format and separator categories are
    written as [\u{..}]; bytes that are not UTF-8 are written as [\x..]. The
    Unicode database is a parameter. A formatter that collects a [String] never
    fails, so the text is the value of [fmt]. *)

From Stdlib Require HexadecimalString HexadecimalN.
From S2P Require Import Prelude CapturedBytes Text Utf8.

(** The crate unicode-general-category: [get_general_category] and the
    categories the program names. *)
Class Unicode := {
  GeneralCategory : Type;
  GeneralCategory_eq_dec :: EqDecision GeneralCategory;
  Control : GeneralCategory;
  Format : GeneralCategory;
  LineSeparator : GeneralCategory;
  ParagraphSeparator : GeneralCategory;
  SpaceSeparator : GeneralCategory;
  get_general_category : char → GeneralCategory;
}.

Definition unsafe_category `{Unicode} (character : char) : bool :=
  let category := get_general_category character in
  bool_decide (category = Control) || bool_decide (category = Format) ||
  bool_decide (category = LineSeparator) || bool_decide (category = ParagraphSeparator) ||
  bool_decide (category = SpaceSeparator).

(** The categories whose characters must not reach a terminal or a log. *)
Definition hidden_categories `{Unicode} : list GeneralCategory :=
  [Control; Format; LineSeparator; ParagraphSeparator; SpaceSeparator].

(** The letters, digits and punctuation of ASCII and the ellipsis are in none
    of those categories; the characters below the space and those from 127 to
    159 are control characters (Unicode Character Database). *)
Class UnicodeLaws `{Unicode} := {
  graphic_ascii : ∀ c, 33 <= c → c <= 126 → get_general_category c ∉ hidden_categories;
  graphic_ellipsis : get_general_category 0x2026 ∉ hidden_categories;
  control_codes : ∀ c, c < 32 ∨ 127 <= c ∧ c < 160 → get_general_category c = Control;
}.

Definition BACKSLASH : char := 92.
Definition SPACE : char := 32.

(** One turn of the loop of [write_valid]. *)
Definition write_char `{Unicode} (character : char) : text :=
  if decide (character = BACKSLASH) then lit "\\"
  else if bool_decide (character ≠ SPACE) && unsafe_category character
  then lit "\u{" ++ lit (hex character) ++ lit "}"
  else [character].

Definition write_valid `{Unicode} (valid : text) : text := valid ≫= write_char.

Definition write_invalid (byte : byte) : text := lit ("\x" +:+ hex02 byte).

Definition write_escaped `{Unicode} {K} (v : CapturedBytes K) (omission : bool) : text :=
  (utf8_chunks (as_bytes v) ≫= λ '(valid, invalid), write_valid valid ++ (invalid ≫= write_invalid)) ++
  (if omission && bytes_omitted v then lit "…" else []).

Definition display `{Unicode} {K} `{CapturedBytesOrigin K} (v : CapturedBytes K) : text :=
  lit (DISPLAY_PREFIX K) ++ write_escaped v true.

(** The name and fields that [Debug] gives to [debug_struct]. [String::pop]
    removes the last character. *)
Definition debug `{Unicode} {K} `{CapturedBytesOrigin K} (v : CapturedBytes K) : string * text * bool :=
  let escaped := display v in
  (DEBUG_NAME K, if bytes_omitted v then take (length escaped - 1) escaped else escaped, bytes_omitted v).

Definition display_captured_error (e : CapturedBytesError) : string :=
  match e with
  | InteriorNul p => "captured bytes contain a NUL at position " +:+ dec p
  | TooLong length maximum => "captured byte length " +:+ dec length +:+ " exceeds the maximum " +:+ dec maximum
  | OmissionNotSupported => "this captured-byte origin cannot omit source bytes"
  | OmissionRequiresFullCapacity length capacity =>
      "omitted source bytes require a full " +:+ dec capacity +:+ "-byte capture, but length is " +:+ dec length
  end.

(** ** Literals *)

Lemma lit_ascii s : all_chars (λ c, code c <? 128) s → lit s = code <$> chars s.
Proof.
  unfold lit. induction s as [|c s IH]; [done|]. unfold all_chars. simpl. intros [Hc Hs]%andb_true_iff.
  apply N.ltb_lt in Hc. assert (Byte.to_N (byte_of_N (code c)) = code c) as Hb by (apply to_N_byte_of_N; lia).
  unfold code in Hb at 1. replace (in_range 0 127 (byte_of_N (Ascii.N_of_ascii c))) with true;
    [|symmetry; apply in_range_spec; lia].
  simpl. rewrite Hb. f_equal. by apply IH.
Qed.

Lemma hex_digit_ascii c : is_hex_digit c = true → (code c <? 128) = true.
Proof. revert c. intros [[] [] [] [] [] [] [] []]; vm_compute; congruence. Qed.

Lemma lit_hex n : lit (hex n) = code <$> chars (hex n).
Proof. apply lit_ascii. eapply all_chars_weaken; [apply hex_digit_ascii|apply all_chars_hex]. Qed.

(** ** Reading the text back *)

Definition hex_value (c : char) : N := if c <=? 57 then c - 48 else c - 87.

(** What the text stands for; [code_point] is the value read so far inside
    [\u{..}]. *)
Fixpoint read_back (code_point : option N) (l : text) : option (list byte) :=
  match code_point, l with
  | None, [] => Some []
  | Some _, [] => None
  | Some n, c :: rest =>
      if c =? 125 then app (encode_utf8 n) <$> read_back None rest
      else read_back (Some (n * 16 + hex_value c)) rest
  | None, c :: rest =>
      if c =? BACKSLASH then
        match rest with
        | 92 :: rest => cons (byte_of_N BACKSLASH) <$> read_back None rest
        | 120 :: h1 :: h2 :: rest =>
            cons (byte_of_N (16 * hex_value h1 + hex_value h2)) <$> read_back None rest
        | 117 :: 123 :: rest => read_back (Some 0) rest
        | _ => None
        end
      else app (encode_utf8 c) <$> read_back None rest
  end.

Lemma read_back_hex_acc d p rest :
  read_back (Some (N.pos p)) ((code <$> chars (HexadecimalString.NilEmpty.string_of_uint d)) ++ rest) =
  read_back (Some (N.pos (Pos.of_hex_uint_acc d p))) rest.
Proof.
  revert p. induction d; intros p; [done|..]; simpl; rewrite <- IHd; f_equal; f_equal;
    match goal with |- context [hex_value ?c] =>
      let v := eval vm_compute in (hex_value c) in change (hex_value c) with v end; lia.
Qed.

Lemma read_back_hex_uint d rest :
  read_back (Some 0) ((code <$> chars (HexadecimalString.NilEmpty.string_of_uint d)) ++ rest) =
  read_back (Some (N.of_hex_uint d)) rest.
Proof. induction d; [done|exact IHd|..]; apply read_back_hex_acc. Qed.

Lemma read_back_hex n rest : read_back (Some 0) (lit (hex n) ++ rest) = read_back (Some n) rest.
Proof.
  rewrite lit_hex. unfold hex. pose proof (read_back_hex_uint (N.to_hex_uint n) rest) as Hd.
  rewrite HexadecimalN.Unsigned.of_to in Hd. rewrite <- Hd. by destruct (N.to_hex_uint n).
Qed.

Section display.
Context `{Unicode}.

Lemma read_back_char c rest :
  read_back None (write_char c ++ rest) = app (encode_utf8 c) <$> read_back None rest.
Proof.
  unfold write_char. case_decide as Hb; [subst; simpl; by destruct (read_back None rest)|].
  destruct (_ && _).
  - rewrite <- !app_assoc. simpl. by rewrite read_back_hex.
  - simpl. apply N.eqb_neq in Hb. by rewrite Hb.
Qed.

Lemma read_back_invalid b rest : read_back None (write_invalid b ++ rest) = cons b <$> read_back None rest.
Proof. destruct b; reflexivity. Qed.

(** The text of one character or of one invalid sequence. *)
Definition write_item (i : item) : text :=
  match i with
  | Valid c => write_char c
  | Invalid bytes => bytes ≫= write_invalid
  end.

Lemma write_chunks items :
  (group_chunks items ≫= λ '(valid, invalid), write_valid valid ++ (invalid ≫= write_invalid)) =
  items ≫= write_item.
Proof.
  induction items as [|[c|bytes] items IH]; [done| |]; csimpl; [|by rewrite IH].
  rewrite <- IH. destruct (group_chunks items) as [|[valid invalid] chunks]; csimpl; [by rewrite !app_nil_r|].
  unfold write_valid. csimpl. by rewrite <- !app_assoc.
Qed.

Lemma read_back_item i rest :
  read_back None (write_item i ++ rest) = app (item_bytes i) <$> read_back None rest.
Proof.
  destruct i as [c|bytes]; [apply read_back_char|]. cbn [write_item item_bytes]. induction bytes as [|b bytes IH].
  - simpl. by destruct (read_back None rest).
  - rewrite bind_cons, <- app_assoc, read_back_invalid, IH. by destruct (read_back None rest).
Qed.

Lemma read_back_items items rest :
  read_back None ((items ≫= write_item) ++ rest) = app (items ≫= item_bytes) <$> read_back None rest.
Proof.
  induction items as [|i items IH]; [simpl; by destruct (read_back None rest)|].
  rewrite !bind_cons, <- app_assoc, read_back_item, IH. destruct (read_back None rest); simpl; by rewrite ?app_assoc.
Qed.

Definition ellipsis_bytes : list byte := encode_utf8 0x2026.

Lemma read_back_escaped {K} (v : CapturedBytes K) :
  read_back None (write_escaped v true) =
  Some (as_bytes v ++ (if bytes_omitted v then ellipsis_bytes else [])).
Proof.
  unfold write_escaped, utf8_chunks. rewrite write_chunks, read_back_items, utf8_items_bytes.
  by destruct (bytes_omitted v).
Qed.

(** C24: different captured values never look the same. The backslash is
    doubled, so escapes cannot be forged; an ellipsis at the end could also be
    the last character of the bytes, but a value with omitted bytes has all the
    bytes its origin allows, and no valid value has three more. *)
Theorem display_injective {K} `{CapturedBytesOrigin K} (v v' : CapturedBytes K) :
  captured_valid v → captured_valid v' → display v = display v' ↔ v = v'.
Proof.
  intros (_ & Hl & Ho) (_ & Hl' & Ho'). split; [|by intros ->]. intros [_ He]%app_inj_1; [|done].
  apply (f_equal (read_back None)) in He. rewrite !read_back_escaped in He. injection He as He.
  pose proof (f_equal len He) as Hlen. unfold len in *. rewrite !length_app in Hlen.
  destruct v as [bs []], v' as [bs' []]; simpl in *.
  - apply app_inj_2 in He as [-> _]; done.
  - destruct Ho as [_ Ho]; [done|]. lia.
  - destruct Ho' as [_ Ho']; [done|]. lia.
  - rewrite !app_nil_r in He. by rewrite He.
Qed.

(** ** Nothing unsafe is shown *)

Context `{!UnicodeLaws}.

(** A character that may reach a terminal or a log as it is. *)
Definition safe_char (c : char) : Prop := c = 32 ∨ get_general_category c ∉ hidden_categories.

Lemma unsafe_category_hidden c : unsafe_category c = false ↔ get_general_category c ∉ hidden_categories.
Proof.
  unfold unsafe_category, hidden_categories. rewrite !orb_false_iff, !bool_decide_eq_false, !not_elem_of_cons.
  pose proof (not_elem_of_nil (get_general_category c)). tauto.
Qed.

(** No safe character is a C0 or C1 control code. *)
Lemma safe_char_code c : safe_char c → ¬ (c < 32 ∨ 127 <= c ∧ c < 160).
Proof.
  intros [->|Hs] Hc; [lia|]. apply Hs. rewrite (control_codes c Hc). apply list_elem_of_here.
Qed.

Lemma graphic_lit s : all_chars (λ c, (33 <=? code c) && (code c <=? 126)) s → Forall safe_char (lit s).
Proof.
  intros Hs. rewrite lit_ascii.
  - apply Forall_fmap. apply Forall_forall. intros c Hc. eapply all_chars_elem in Hc; [|done].
    apply andb_true_iff in Hc as [H1 H2]. apply N.leb_le in H1, H2. right. by apply graphic_ascii.
  - eapply all_chars_weaken; [|done]. intros c [_ Hc]%andb_true_iff. apply N.leb_le in Hc. apply N.ltb_lt. lia.
Qed.

Lemma hex_digit_graphic c : is_hex_digit c = true → (33 <=? code c) && (code c <=? 126) = true.
Proof. revert c. intros [[] [] [] [] [] [] [] []]; vm_compute; congruence. Qed.

Lemma safe_write_char c : Forall safe_char (write_char c).
Proof.
  unfold write_char. case_decide; [by apply graphic_lit|].
  destruct (bool_decide (c ≠ SPACE) && unsafe_category c) eqn:E.
  - rewrite !Forall_app. split_and!; [by apply graphic_lit| |by apply graphic_lit].
    apply graphic_lit. eapply all_chars_weaken; [apply hex_digit_graphic|apply all_chars_hex].
  - constructor; [|done]. unfold safe_char. apply andb_false_iff in E as [E|E]; [|right; by apply unsafe_category_hidden].
    left. by apply bool_decide_eq_false, dec_stable in E.
Qed.

Lemma safe_write_invalid b : Forall safe_char (write_invalid b).
Proof. apply graphic_lit. by destruct b. Qed.

(** C25: whatever bytes the kernel reported, each character of the displayed
    text is a space or in none of the categories Control, Format, Line, Paragraph
    and Space Separator; so none is a control code, in particular none that
    starts an escape sequence of a terminal. *)
Theorem display_safe {K} `{CapturedBytesOrigin K} (v : CapturedBytes K) :
  Forall safe_char (lit (DISPLAY_PREFIX K)) →
  Forall safe_char (display v) ∧ Forall (λ c, ¬ (c < 32 ∨ 127 <= c ∧ c < 160)) (display v).
Proof.
  intros Hp. assert (Forall safe_char (display v)) as Hs; [|split; [done|by eapply Forall_impl, safe_char_code]].
  unfold display, write_escaped, utf8_chunks. rewrite write_chunks, !Forall_app.
  split_and!; [done| |].
  - apply Forall_bind, Forall_forall. intros [c|bytes] _; [apply safe_write_char|]. simpl.
    apply Forall_bind, Forall_forall. intros b _. apply safe_write_invalid.
  - destruct (true && bytes_omitted v); [|constructor]. constructor; [|done]. right. apply graphic_ellipsis.
Qed.

(** [Debug] shows the escaped bytes without the mark of omission. *)
Lemma debug_escaped {K} `{CapturedBytesOrigin K} (v : CapturedBytes K) :
  debug v = (DEBUG_NAME K, lit (DISPLAY_PREFIX K) ++ write_escaped v false, bytes_omitted v).
Proof.
  unfold debug, display, write_escaped. destruct v as [bs []]; simpl; [|done].
  rewrite !app_nil_r. set (l := utf8_chunks bs ≫= _). rewrite app_assoc, length_app. simpl.
  rewrite Nat.add_sub. by rewrite take_app_length.
Qed.
End display.

(** ** A concrete database *)

Module SampleUnicode.
Inductive Category := Cc | Cf | Zl | Zp | Zs | Graphic.
#[export] Instance Category_eq_dec : EqDecision Category.
Proof. solve_decision. Defined.

(** The characters of the Latin-1 blocks and the two line separators. *)
Definition category (c : char) : Category :=
  if (c <? 32) || ((127 <=? c) && (c <? 160)) then Cc
  else if (c =? 32) || (c =? 0xA0) then Zs
  else if c =? 0xAD then Cf
  else if c =? 0x2028 then Zl
  else if c =? 0x2029 then Zp
  else Graphic.

#[export] Instance sample_unicode : Unicode := {|
  Control := Cc; Format := Cf; LineSeparator := Zl; ParagraphSeparator := Zp; SpaceSeparator := Zs;
  get_general_category := category;
|}.

Ltac category_cases :=
  unfold category;
  repeat match goal with |- context [?a <? ?b] => destruct (N.ltb_spec a b); try lia
                       | |- context [?a <=? ?b] => destruct (N.leb_spec a b); try lia
                       | |- context [?a =? ?b] => destruct (N.eqb_spec a b); try lia end; try done.

Lemma graphic_shown : Graphic ∉ hidden_categories.
Proof. by apply (bool_decide_eq_true_1 _). Qed.

#[export] Instance sample_unicode_laws : UnicodeLaws.
Proof.
  split; [|exact graphic_shown|].
  - intros c H1 H2. assert (category c = Graphic) as E by category_cases. simpl. rewrite E. exact graphic_shown.
  - intros c Hc. simpl. category_cases.
Qed.
End SampleUnicode.

Section samples.
Import SampleUnicode.

(** The bell character, and the text of its escape. *)
Definition sample_bell : CapturedPath := mkCapturedBytes [Byte.x07] false.
Definition sample_forged : CapturedPath := mkCapturedBytes (bytes_of_string "\u{7}") false.
Definition sample_name : CapturedAbstractUnixSocketName :=
  mkCapturedBytes (bytes_of_string "a b" ++ [Byte.x00; Byte.xff]) false.

Example sample_displays :
  display sample_bell = lit "\u{7}" ∧
  display sample_forged = lit "\\u{7}" ∧
  display sample_name = lit "@a b\u{0}\xff".
Proof. vm_compute. auto. Qed.

Lemma display_injective_witness :
  captured_valid sample_bell ∧ captured_valid sample_forged ∧ display sample_bell ≠ display sample_forged.
Proof.
  assert (captured_valid sample_bell) as H1.
  { split_and!; simpl; [|done|done]. intros _. apply (bool_decide_eq_true_1 _). reflexivity. }
  assert (captured_valid sample_forged) as H2.
  { split_and!; simpl; [|done|done]. intros _. apply (bool_decide_eq_true_1 _). reflexivity. }
  split; [exact H1|]. split; [exact H2|].
  intros Hd. apply (display_injective sample_bell sample_forged H1 H2) in Hd. discriminate Hd.
Defined.

(** A name with an escape character, a byte that is not UTF-8, and a line
    separator. *)
Definition sample_hostile : CapturedAbstractUnixSocketName :=
  mkCapturedBytes [Byte.x61; Byte.x1b; Byte.xff; Byte.xe2; Byte.x80; Byte.xa8] false.

Lemma display_safe_witness :
  Forall safe_char (lit (DISPLAY_PREFIX AbstractUnixSocketNameOrigin)) ∧
  Forall safe_char (display sample_hostile) ∧ Forall (λ c, ¬ (c < 32 ∨ 127 <= c ∧ c < 160)) (display sample_hostile) ∧
  display sample_hostile = lit "@a\u{1b}\xff\u{2028}".
Proof.
  assert (Forall safe_char (lit (DISPLAY_PREFIX AbstractUnixSocketNameOrigin))) as Hp.
  { constructor; [|constructor]. right. by apply (bool_decide_eq_true_1 _). }
  destruct (display_safe sample_hostile Hp) as [H1 H2]. split; [exact Hp|]. split; [exact H1|]. split; [exact H2|].
  vm_compute. reflexivity.
Defined.
End samples.
