(* ===== verification/TuiFormat.v ===== *)
(** * Text of the terminal view (lltop/src/tui/format.rs)

    The names of rights and blockers, and [wrap], which cuts a text into lines.
    Offsets into a text count bytes; a slice at an offset inside a character
    is [None], as for Rust's checked slicing. The width of a text on the
    terminal is computed by the ratatui library: it is a parameter. *)

From S2P Require Import Prelude CapturedBytes Event Text Utf8 Display.

(** ** Rust's [str] *)

(** [str::char_indices], with offsets from [offset]. *)
Fixpoint char_indices_from (offset : N) (s : text) : list (N * char) :=
  match s with
  | [] => []
  | c :: s => (offset, c) :: char_indices_from (offset + len_utf8 c) s
  end.

Definition char_indices (s : text) : list (N * char) := char_indices_from 0 s.

(** [str::split_at_checked]. *)
Fixpoint split_at_checked (s : text) (mid : N) : option (text * text) :=
  if mid =? 0 then Some ([], s)
  else match s with
       | [] => None
       | c :: s =>
           if len_utf8 c <=? mid
           then '(before, after) ← split_at_checked s (mid - len_utf8 c); Some (c :: before, after)
           else None
       end.

(** [str::get(..end)]. *)
Definition get_to (s : text) (stop : N) : option text := fst <$> split_at_checked s stop.

Fixpoint starts_with (pattern s : text) : bool :=
  match pattern, s with
  | [], _ => true
  | p :: pattern, c :: s => (p =? c) && starts_with pattern s
  | _ :: _, [] => false
  end.

(** [str::rfind] of a nonempty pattern: the offset of the last match. *)
Fixpoint rfind (pattern s : text) : option N :=
  match s with
  | [] => None
  | c :: rest =>
      match rfind pattern rest with
      | Some index => Some (len_utf8 c + index)
      | None => if starts_with pattern s then Some 0 else None
      end
  end.

(** [parts.join(separator)]. *)
Fixpoint join_text (separator : text) (parts : list text) : text :=
  match parts with
  | [] => []
  | [part] => part
  | part :: parts => part ++ separator ++ join_text separator parts
  end.

(** [Option::or_else]. *)
Definition or_else {A} (o o' : option A) : option A := match o with Some a => Some a | None => o' end.

(** ** Names *)

Definition access (names : list string) (unknown : N) : text :=
  let parts := (lit <$> names) ++ (if negb (unknown =? 0) then [lit ("0x" +:+ hex unknown)] else []) in
  match parts with
  | [] => lit "0x0"
  | _ => join_text (lit ", ") parts
  end.

(** [filesystem_rights], [network_rights] and [scope_rights]. *)
Definition rights {M} `{AccessType M} (value : M) : text :=
  access (name_as_str <$> known_names value) (unknown_bits value).

Definition filesystem (value : FilesystemAccess) : text := lit "FS: " ++ rights value.
Definition network (value : NetworkAccess) : text := lit "Net: " ++ rights value.
Definition scope (value : ScopeAccess) : text := lit "Scope: " ++ rights value.

Definition filesystem_blocker (blockers : FilesystemBlockers) : text :=
  match blockers with
  | Access access => filesystem access
  | ChangeTopology => lit "FS: change_topology"
  | Other request_type access =>
      if decide (request_type = FS_CHANGE_TOPOLOGY)
      then lit ("FS: change_topology, access=0x" +:+ hex (bits access))
      else lit ("FS: request_type=0x" +:+ hex (raw request_type) +:+ ", access=0x" +:+ hex (bits access))
  end.

Definition network_blocker (blockers_type : BlockerType) (access : NetworkAccess) : text :=
  if decide (blockers_type = NET_ACCESS) then network access
  else lit ("Net: request_type=0x" +:+ hex (raw blockers_type) +:+ ", access=0x" +:+ hex (bits access)).

Definition format_timestamp (value : option KernelTimestamp) : text :=
  match value with
  | None => lit "?"
  | Some v => lit (dec (as_nanoseconds v) +:+ "ns")
  end.

Section wrap.
Variable display_width : text → N.

(** The [for] loop: the offset after the last character that fits, or after
    the first character when none does. *)
Fixpoint scan (width total : N) (indices : list (N * char)) (used_width byte_limit : N) : N :=
  match indices with
  | [] => byte_limit
  | (index, character) :: indices =>
      let character_width := display_width [character] in
      let character_end := N.min (saturating_add usize_max index (len_utf8 character)) total in
      if width <? saturating_add usize_max used_width character_width
      then (if byte_limit =? 0 then character_end else byte_limit)
      else scan width total indices (saturating_add usize_max used_width character_width) character_end
  end.

(** The offset at which a candidate line is cut. *)
Definition split_offset (candidate : text) (byte_limit : N) : N :=
  let after (pattern : text) (n : N) := index ← rfind pattern candidate; checked_add usize_max index n in
  let found := or_else (after (lit ", ") 2) (or_else (after (lit "/") 1) (after (lit " ") 1)) in
  match found with
  | Some index => if negb (index =? 0) then index else byte_limit
  | None => byte_limit
  end.

(** One turn of the [while] loop: the line and what remains. *)
Definition cut_line (remaining : text) (width : N) : text * text :=
  let byte_limit := scan width (byte_len remaining) (char_indices remaining) 0 0 in
  let candidate := default remaining (get_to remaining byte_limit) in
  default (remaining, []) (split_at_checked remaining (split_offset candidate byte_limit)).

Fixpoint wrap_loop (fuel : nat) (remaining : text) (width continuation_width : N) (output : list text) :
    option (list text) :=
  if width <? display_width remaining then
    match fuel with
    | O => None
    | S fuel =>
        let '(current, rest) := cut_line remaining width in
        wrap_loop fuel rest (N.max continuation_width 1) continuation_width (output ++ [current])
    end
  else Some (output ++ [remaining]).

(** One turn per character is enough. *)
Definition wrap (s : text) (first_width continuation_width : N) : option (list text) :=
  match s with
  | [] => Some [[]]
  | _ => wrap_loop (length s) s (N.max first_width 1) continuation_width []
  end.
End wrap.

(** The tests of the source, with East Asian characters two columns wide. *)
Definition sample_width (s : text) : N := foldr (λ c n, (if 0x1100 <=? c then 2 else 1) + n) 0 s.

Example wrap_tests :
  wrap sample_width (lit "read_file, write_file") 12 10 = Some [lit "read_file, "; lit "write_file"] ∧
  wrap sample_width (lit "/long/path/name") 10 8 = Some [lit "/long/"; lit "path/"; lit "name"] ∧
  wrap sample_width (lit "éééé") 2 2 = Some [lit "éé"; lit "éé"] ∧
  wrap sample_width (lit "界x") 1 1 = Some [lit "界"; lit "x"] ∧
  wrap sample_width (lit "abcdef") 3 2 = Some [lit "abc"; lit "de"; lit "f"].
Proof. vm_compute. auto. Qed.

(** ** Wrapping *)

Lemma len_utf8_pos c : 1 <= len_utf8 c.
Proof. unfold len_utf8. repeat case_match; lia. Qed.

Lemma byte_len_app s t : byte_len (s ++ t) = byte_len s + byte_len t.
Proof. unfold byte_len. induction s as [|c s IH]; simpl; [lia|]. rewrite IH. lia. Qed.

Lemma byte_len_length s : len s <= byte_len s.
Proof.
  unfold len, byte_len. induction s as [|c s IH]; simpl; [lia|]. pose proof (len_utf8_pos c). lia.
Qed.

(** A cut at the length of a prefix. *)
Lemma split_at_prefix s t : split_at_checked (s ++ t) (byte_len s) = Some (s, t).
Proof.
  induction s as [|c s IH]; simpl; [by destruct t|]. unfold byte_len in *. simpl.
  pose proof (len_utf8_pos c). rewrite (proj2 (N.eqb_neq _ 0)) by lia.
  rewrite (proj2 (N.leb_le _ _)) by lia. replace (len_utf8 c + _ - len_utf8 c) with (byte_len s) by (unfold byte_len; lia).
  unfold byte_len. by rewrite IH.
Qed.

Lemma get_to_prefix s t : get_to (s ++ t) (byte_len s) = Some s.
Proof. unfold get_to. by rewrite split_at_prefix. Qed.

Lemma starts_with_spec p s : starts_with p s = true ↔ ∃ rest, s = p ++ rest.
Proof.
  revert s. induction p as [|x p IH]; intros s; simpl; [naive_solver|].
  destruct s as [|c s]; [naive_solver|].
  rewrite andb_true_iff, N.eqb_eq, IH. split; [|naive_solver]. intros [-> [rest ->]]. by eexists.
Qed.

Lemma rfind_spec p s i : rfind p s = Some i → ∃ before after, s = before ++ p ++ after ∧ i = byte_len before.
Proof.
  revert i. induction s as [|c s IH]; intros i; [done|]. cbn [rfind]. destruct (rfind p s) as [j|].
  - intros [= <-]. destruct (IH j) as (before & after & -> & ->); [done|]. by exists (c :: before), after.
  - destruct (starts_with p (c :: s)) eqn:E; [|done]. intros [= <-].
    apply starts_with_spec in E as [rest E]. by exists [], rest.
Qed.

Section wrap_proofs.
Variable display_width : text → N.

(** The widths of the characters, added as the loop adds them. *)
Definition char_widths (s : text) : N := foldr (λ c n, display_width [c] + n) 0 s.

Lemma char_widths_app s t : char_widths (s ++ t) = char_widths s + char_widths t.
Proof. unfold char_widths. induction s as [|c s IH]; simpl; [lia|]. rewrite IH. lia. Qed.

(** A line fits [width], or it is one character that does not. *)
Definition line_fits (width : N) (line : text) : Prop := char_widths line <= width ∨ length line = 1%nat.

(** One more character does not fit [width]. *)
Definition full (width : N) (line following : text) : Prop :=
  match following with
  | [] => True
  | c :: _ => width < char_widths line + display_width [c]
  end.

(** The line ends with one of the separators. *)
Definition ends_with_separator (line : text) : Prop :=
  ∃ before separator, line = before ++ separator ∧ separator ∈ [lit ", "; lit "/"; lit " "].

(** The loop after the characters of [before] stops after a longer prefix. *)
Lemma scan_prefix width before rest :
  byte_len (before ++ rest) <= usize_max → char_widths before <= width → width < usize_max →
  ∃ chosen after, before ++ rest = chosen ++ after ∧ line_fits width chosen ∧ full width chosen after ∧
    (before ++ rest ≠ [] → chosen ≠ []) ∧
    scan display_width width (byte_len (before ++ rest)) (char_indices_from (byte_len before) rest)
      (char_widths before) (byte_len before) = byte_len chosen.
Proof.
  revert before. induction rest as [|c rest IH]; intros before Hlen Hw Hmax; simpl.
  - exists before, []. rewrite !app_nil_r. split_and!; try done. by left.
  - assert (byte_len (before ++ [c]) = byte_len before + len_utf8 c) as Hbc by (rewrite byte_len_app; simpl; lia).
    rewrite (cons_middle c before rest), app_assoc in *.
    pose proof Hlen as Hlen'. rewrite byte_len_app in Hlen'.
    assert (N.min (saturating_add usize_max (byte_len before) (len_utf8 c)) (byte_len ((before ++ [c]) ++ rest)) =
      byte_len (before ++ [c])) as Hend.
    { unfold saturating_add. rewrite (byte_len_app (before ++ [c]) rest). lia. }
    rewrite Hend. destruct (N.ltb_spec width (saturating_add usize_max (char_widths before) (display_width [c]))) as [Hlt|Hge].
    + destruct (N.eqb_spec (byte_len before) 0) as [H0|Hne].
      * assert (before = []) as ->.
        { pose proof (byte_len_length before). destruct before; [done|]. unfold len in *. simpl in *. lia. }
        exists [c], rest. unfold saturating_add in Hlt. split_and!; try done; [by right|].
        unfold full. destruct rest; [done|]. simpl in *. lia.
      * exists before, (c :: rest). unfold saturating_add in Hlt. split_and!; [by rewrite <- app_assoc|by left|simpl; lia| |done].
        intros _ ->. done.
    + assert (char_widths (before ++ [c]) = char_widths before + display_width [c]) as Hwc
        by (rewrite char_widths_app; simpl; lia).
      unfold saturating_add in *. rewrite N.min_r, <- Hwc, <- Hbc by lia.
      apply IH; [done|lia|done].
Qed.

Lemma rfind_offset p n candidate i :
  byte_len p = n → byte_len candidate <= usize_max →
  (index ← rfind p candidate; checked_add usize_max index n) = Some i →
  ∃ before after, candidate = before ++ after ∧ i = byte_len before ∧ n <= i ∧ ∃ start, before = start ++ p.
Proof.
  intros <- Hmax. destruct (rfind p candidate) as [j|] eqn:E; [|done]. simpl.
  apply rfind_spec in E as (before & after & -> & ->). unfold checked_add. case_match; [|done].
  intros [= <-]. exists (before ++ p), after. rewrite <- app_assoc, byte_len_app. split_and!; [done|done|lia|by eexists].
Qed.

(** A cut falls between two characters of the candidate, after at least one. *)
Lemma split_offset_prefix candidate :
  byte_len candidate <= usize_max → candidate ≠ [] →
  ∃ before after, candidate = before ++ after ∧ before ≠ [] ∧
    split_offset candidate (byte_len candidate) = byte_len before ∧ (ends_with_separator before ∨ after = []).
Proof.
  intros Hmax Hne. unfold split_offset.
  assert (∀ i n p before after, candidate = before ++ after → i = byte_len before → 1 <= n → n <= i →
    p ∈ [lit ", "; lit "/"; lit " "] → (∃ start, before = start ++ p) →
    ∃ before after, candidate = before ++ after ∧ before ≠ [] ∧
      (if negb (i =? 0) then i else byte_len candidate) = byte_len before ∧ (ends_with_separator before ∨ after = [])) as Hcut.
  { intros i n p before after -> -> H1 Hn Hp [start Hs]. exists before, after. rewrite (proj2 (N.eqb_neq _ _)) by lia.
    split_and!; [done| |done|left; by exists start, p]. intros ->. simpl in Hn. unfold byte_len in Hn. simpl in Hn. lia. }
  set (a := (index ← rfind (lit ", ") candidate; _)). set (b := (index ← rfind (lit "/") candidate; _)).
  set (d := (index ← rfind (lit " ") candidate; _)).
  destruct a as [i|] eqn:Ea; subst a; simpl.
  { apply rfind_offset in Ea as (x & y & ? & ? & ? & ?); [|done..]. eapply (Hcut i 2); [done..| |done]. set_solver. }
  destruct b as [i|] eqn:Eb; subst b; simpl.
  { apply rfind_offset in Eb as (x & y & ? & ? & ? & ?); [|done..]. eapply (Hcut i 1); [done..| |done]. set_solver. }
  destruct d as [i|] eqn:Ed; subst d; simpl.
  { apply rfind_offset in Ed as (x & y & ? & ? & ? & ?); [|done..]. eapply (Hcut i 1); [done..| |done]. set_solver. }
  exists candidate, []. rewrite app_nil_r. split_and!; [done..|by right].
Qed.

Lemma line_fits_prefix width before after : line_fits width (before ++ after) → before ≠ [] → line_fits width before.
Proof.
  intros [Hw|Hl] Hne; [left; rewrite char_widths_app in Hw; lia|].
  right. rewrite length_app in Hl. destruct before; [done|]. simpl in *. lia.
Qed.

Lemma cut_line_spec remaining width :
  byte_len remaining <= usize_max → width < usize_max → remaining ≠ [] →
  ∃ current rest, cut_line display_width remaining width = (current, rest) ∧ remaining = current ++ rest ∧
    current ≠ [] ∧ line_fits width current ∧ (ends_with_separator current ∨ full width current rest).
Proof.
  intros Hmax Hw Hne. destruct (scan_prefix width [] remaining) as (chosen & after & Heq & Hfit & Hfull & Hnz & Hs);
    [done|simpl; lia|done|]. simpl in *. unfold cut_line, char_indices. change (byte_len []) with 0 in Hs.
  change (char_widths []) with 0 in Hs. subst remaining. rewrite Hs, get_to_prefix. simpl.
  rewrite byte_len_app in Hmax.
  destruct (split_offset_prefix chosen) as (current & rest & -> & Hc & -> & Hsep); [lia|auto|].
  exists current, (rest ++ after). rewrite <- app_assoc, split_at_prefix. split_and!; [done..|by eapply line_fits_prefix|].
  destruct Hsep as [?| ->]; [by left|right]. by rewrite app_nil_r in Hfull.
Qed.

(** A text of no characters takes no room. *)
Hypothesis display_width_empty : display_width [] = 0.

(** Even past the width of offsets, a cut takes something off. *)
Lemma split_at_nonempty s n before after :
  split_at_checked s n = Some (before, after) → n ≠ 0 → before ≠ [] ∧ s = before ++ after.
Proof.
  revert n before after. induction s as [|c s IH]; intros n before after; simpl.
  - by destruct (N.eqb_spec n 0).
  - destruct (N.eqb_spec n 0); [done|]. destruct (len_utf8 c <=? n); [|done].
    destruct (split_at_checked s (n - len_utf8 c)) as [[b a]|] eqn:E; [|done]. simpl. intros [= <- <-] _.
    split; [done|]. destruct (N.eqb_spec (n - len_utf8 c) 0) as [H0|H0].
    + rewrite H0 in E. by destruct s; injection E as <- <-.
    + apply IH in E as [_ ->]; done.
Qed.

Lemma scan_nonzero width total indices used limit :
  0 < total → limit ≠ 0 → scan display_width width total indices used limit ≠ 0.
Proof.
  intros Ht. revert used limit. induction indices as [|[i c] indices IH]; intros used limit Hl; simpl; [done|].
  rewrite (proj2 (N.eqb_neq _ _)) by done. destruct (_ <? _); [done|]. apply IH.
  pose proof (len_utf8_pos c). unfold saturating_add. assert (0 < usize_max) by done. lia.
Qed.

Lemma cut_line_progress remaining width :
  remaining ≠ [] →
  (length (cut_line display_width remaining width).2 < length remaining)%nat.
Proof.
  intros Hne. destruct remaining as [|c s]; [done|]. unfold cut_line, char_indices.
  set (limit := scan _ _ _ _ _ _). assert (limit ≠ 0) as Hl.
  { unfold limit. assert (0 < usize_max) by done. pose proof (len_utf8_pos c). unfold saturating_add. simpl.
    destruct (_ <? _); [|apply scan_nonzero]; unfold byte_len, saturating_add; simpl; lia. }
  assert (∀ candidate, split_offset candidate limit ≠ 0) as Hs.
  { intros candidate. unfold split_offset. case_match; [|done]. destruct (N.eqb_spec n 0); done. }
  destruct (split_at_checked (c :: s) _) as [[before after]|] eqn:E; simpl; [|lia].
  apply split_at_nonempty in E as [Hb E]; [|apply Hs]. apply (f_equal length) in E.
  rewrite length_app in E. destruct before; [done|]. simpl in *. lia.
Qed.

Lemma wrap_loop_total fuel remaining width continuation output :
  (length remaining <= fuel)%nat →
  ∃ line lines, wrap_loop display_width fuel remaining width continuation output = Some (output ++ line :: lines).
Proof.
  revert remaining width output. induction fuel as [|fuel IH]; intros remaining width output Hf; simpl;
    destruct (N.ltb_spec width (display_width remaining)); [|by eauto| |by eauto].
  - destruct remaining; simpl in *; lia.
  - assert (remaining ≠ []) as Hne by (intros ->; lia).
    pose proof (cut_line_progress remaining width Hne). destruct (cut_line display_width remaining width) as [current rest].
    simpl in *. destruct (IH rest (N.max continuation 1) (output ++ [current])) as (line & lines & ->); [lia|].
    exists current, (line :: lines). by rewrite <- app_assoc.
Qed.

(** [wrap] returns at least one line. *)
Lemma wrap_total s first continuation :
  ∃ line lines, wrap display_width s first continuation = Some (line :: lines).
Proof.
  unfold wrap. destruct s as [|c s]; [by eauto|]. by apply (wrap_loop_total _ _ _ _ []).
Qed.

(** The room of the [i]-th line. *)
Definition line_width (first continuation : N) (i : nat) : N :=
  match i with O => first | S _ => continuation end.

(** What holds of a line of the given room that is followed by more text. *)
Definition line_ok (width : N) (line following : text) : Prop :=
  line ≠ [] ∧ line_fits width line ∧ (ends_with_separator line ∨ full width line following).

Lemma wrap_loop_spec fuel remaining width continuation output :
  (length remaining <= fuel)%nat → byte_len remaining <= usize_max → width < usize_max →
  N.max continuation 1 < usize_max →
  ∃ lines last, wrap_loop display_width fuel remaining width continuation output = Some (output ++ lines ++ [last]) ∧
    concat (lines ++ [last]) = remaining ∧
    (∀ i line, lines !! i = Some line →
       line_ok (line_width width (N.max continuation 1) i) line (concat (drop (S i) (lines ++ [last])))) ∧
    display_width last <= line_width width (N.max continuation 1) (length lines).
Proof.
  revert remaining width output. induction fuel as [|fuel IH]; intros remaining width output Hf Hmax Hw Hc; simpl;
    destruct (N.ltb_spec width (display_width remaining)) as [Hlt|Hge].
  1, 3: destruct remaining as [|c remaining]; [lia|]; simpl in Hf; try lia.
  - destruct (cut_line_spec (c :: remaining) width) as (current & rest & -> & E & Hne & Hfit & Hcut); [done..|].
    rewrite E in Hmax |- *. rewrite byte_len_app in Hmax.
    destruct (IH rest (N.max continuation 1) (output ++ [current])) as (lines & last & -> & <- & Hl & Hlast);
      [|lia|done|done|].
    { apply (f_equal length) in E. rewrite length_app in E. simpl in E. destruct current; [done|]. simpl in E. lia. }
    exists (current :: lines), last. rewrite <- !app_assoc. split_and!; [done|done| |].
    + intros [|i] line; simpl; [by intros [= <-]|]. intros Hi%Hl. by destruct i.
    + by destruct lines.
  - exists [], remaining. rewrite app_nil_l. simpl. rewrite app_nil_r. split_and!; [done|done|intros i line; by rewrite lookup_nil|done].
  - exists [], remaining. rewrite app_nil_l. simpl. rewrite app_nil_r. split_and!; [done|done|intros i line; by rewrite lookup_nil|done].
Qed.

Lemma line_fits_width width line :
  line_fits width line → display_width line <= char_widths line → display_width line <= width ∨ length line = 1%nat.
Proof. intros [?|?] ?; [left; lia|by right]. Qed.

(** C28: [wrap] always returns, for every text and even for widths of zero; the
    lines put together are the text, nothing added and nothing lost; the last
    line fits its room. No other line is empty: each is a single character, or
    its characters fit the room of the line when their widths are added up, so
    that the line fits too if it is no wider than its characters are; and each is
    cut after a separator, or as late as the widths of the characters allow. *)
Theorem wrap_spec s first continuation :
  byte_len s <= usize_max → first < usize_max → continuation < usize_max →
  ∃ lines last, wrap display_width s first continuation = Some (lines ++ [last]) ∧
    concat (lines ++ [last]) = s ∧
    display_width last <= line_width (N.max first 1) (N.max continuation 1) (length lines) ∧
    ∀ i line, lines !! i = Some line →
      let width := line_width (N.max first 1) (N.max continuation 1) i in
      line_ok width line (concat (drop (S i) (lines ++ [last]))) ∧
      (display_width line <= char_widths line → display_width line <= width ∨ length line = 1%nat).
Proof.
  intros Hmax Hf Hc.
  assert (∃ lines last, wrap display_width s first continuation = Some (lines ++ [last]) ∧
    concat (lines ++ [last]) = s ∧
    (∀ i line, lines !! i = Some line →
       line_ok (line_width (N.max first 1) (N.max continuation 1) i) line (concat (drop (S i) (lines ++ [last])))) ∧
    display_width last <= line_width (N.max first 1) (N.max continuation 1) (length lines))
    as (lines & last & Hw & Hs & Hl & Hlast).
  { unfold wrap. destruct s as [|c s].
    - exists [], []. split_and!; [done|done|intros i line; by rewrite lookup_nil|]. simpl. lia.
    - assert (1 < usize_max) by done. apply (wrap_loop_spec _ _ _ _ []); [done..|lia|lia]. }
  exists lines, last. split_and!; [done..|]. intros i line Hi%Hl. split; [done|]. apply line_fits_width, Hi.
Qed.
End wrap_proofs.

Lemma wrap_spec_witness :
  ∃ lines last, wrap sample_width (lit "/long/path/name") 10 0 = Some (lines ++ [last]) ∧
    concat (lines ++ [last]) = lit "/long/path/name" ∧
    sample_width last <= line_width (N.max 10 1) (N.max 0 1) (length lines) ∧
    ∀ i line, lines !! i = Some line →
      let width := line_width (N.max 10 1) (N.max 0 1) i in
      line_ok sample_width width line (concat (drop (S i) (lines ++ [last]))) ∧
      (sample_width line <= char_widths sample_width line → sample_width line <= width ∨ length line = 1%nat).
Proof. apply (wrap_spec sample_width); done. Defined.

(** ** Sequences that are wider than their characters

    The width of a text is not always the sum of the widths of its characters: a
    variation selector takes no room alone and can make the character before it
    wider. [wrap] adds up widths of characters, so such a line can be wider than
    its room. *)
Definition CLOUD : char := 0x2601.
Definition EMOJI_SELECTOR : char := 0xFE0F.

Theorem wrap_sequence_too_wide (display_width : text → N) :
  display_width [CLOUD] = 1 → display_width [EMOJI_SELECTOR] = 0 → display_width (lit "x") = 1 →
  display_width [CLOUD; EMOJI_SELECTOR] = 2 → display_width ([CLOUD; EMOJI_SELECTOR] ++ lit "x") = 3 →
  wrap display_width ([CLOUD; EMOJI_SELECTOR] ++ lit "x") 1 1 = Some [[CLOUD; EMOJI_SELECTOR]; lit "x"] ∧
  1 < display_width [CLOUD; EMOJI_SELECTOR].
Proof.
  intros Ha Hs Hx Has Hasx. split; [|lia]. unfold CLOUD, EMOJI_SELECTOR in *. change (lit "x") with [120] in *.
  unfold wrap, wrap_loop, cut_line, scan, char_indices. simpl in *.
  rewrite Hasx, Ha. simpl. rewrite Hs. simpl. rewrite Hx. simpl. by rewrite Hx.
Qed.

(** A width that is that of the library unicode-width on these texts. *)
Definition emoji_width (s : text) : N :=
  foldr (λ c n, (if c =? EMOJI_SELECTOR then 0 else 1) + n) 0 s +
  (if decide (EMOJI_SELECTOR ∈ tail s) then 1 else 0).

Example wrap_sequence_sample :
  wrap emoji_width ([CLOUD; EMOJI_SELECTOR] ++ lit "x") 1 1 = Some [[CLOUD; EMOJI_SELECTOR]; lit "x"] ∧
  1 < emoji_width [CLOUD; EMOJI_SELECTOR].
Proof. apply wrap_sequence_too_wide; vm_compute; reflexivity. Qed.
