(* ===== verification/Model.v ===== *)
(** * The model behind the terminal view (lltop/src/tui/model.rs)

    [ObservationModel] keeps the replayed state, the aggregated denials, the
    statistics and the latest time seen. [domain_tree] lists the domains in
    tree order, each with the last-child bit of every ancestor and its own.
    Its inner loop pops a stack; the model counts the turns, and
    [append_fuel] is proved enough in [ModelSpec]. The orders in which the hash
    maps iterate are the variables of the section. *)

From S2P Require Import Prelude Lattice CapturedBytes Event State Aggregate Batch.

(** [by_kind] is indexed as the array that [observe] destructures. *)
Record Stats := mkModelStats {
  stats_total : N;
  by_kind : Counters;
}.

Definition model_stats_default : Stats := mkModelStats 0 (mkCounters 0 0 0 0 0).

Record ObservationModel := mkObservationModel {
  model_state : State;
  model_denials : DenialAggregator;
  model_stats : Stats;
  latest_seen : KernelTimestamp;
}.

Definition model_new : ObservationModel :=
  mkObservationModel state_new aggregator_new model_stats_default (from_nanoseconds 0).

(** The counters after an event. *)
Definition model_stats_observe (event : Event) (s : Stats) : Stats :=
  let '(mkCounters fs net ptrace signal abstract_unix) := by_kind s in
  let increment (n : N) := saturating_add u64_max n 1 in
  let counted (c : Counters) := mkModelStats (increment (stats_total s)) c in
  match event with
  | DenyAccessFs _ => counted (mkCounters (increment fs) net ptrace signal abstract_unix)
  | DenyAccessNet _ => counted (mkCounters fs (increment net) ptrace signal abstract_unix)
  | DenyPtrace _ => counted (mkCounters fs net (increment ptrace) signal abstract_unix)
  | DenyScopeSignal _ => counted (mkCounters fs net ptrace (increment signal) abstract_unix)
  | DenyScopeAbstractUnixSocket _ => counted (mkCounters fs net ptrace signal (increment abstract_unix))
  | _ => s
  end.

Definition model_observe (iter : gmap DenialKey AggregatedDenial → list Entry)
    (m : ObservationModel) (event : Event) : ObservationModel :=
  mkObservationModel
    (apply (model_state m) event)
    (observe iter (model_denials m) event)
    (model_stats_observe event (model_stats m))
    (from_nanoseconds (N.max (as_nanoseconds (latest_seen m)) (as_nanoseconds (timestamp event)))).

(** The model after a stream of events. *)
Definition model_observe_all (iter : gmap DenialKey AggregatedDenial → list Entry)
    (m : ObservationModel) (events : list Event) : ObservationModel :=
  foldl (model_observe iter) m events.

Definition allocated_domains (m : ObservationModel) : N :=
  len (filter (λ kv : DomainId * DomainState, ds_lifecycle kv.2 = Allocated)
         (map_to_list (domains (model_state m)))).

Definition allocated_rulesets (m : ObservationModel) : N :=
  len (filter (λ kv : RulesetId * RulesetState, rs_lifecycle kv.2 = Allocated)
         (map_to_list (rulesets (model_state m)))).

Definition denial_age_ns (m : ObservationModel) (denial : AggregatedDenial) : N :=
  saturating_sub (as_nanoseconds (latest_seen m)) (as_nanoseconds (ad_latest_timestamp denial)).

Definition model_denial (m : ObservationModel) (key : DenialKey) : option AggregatedDenial :=
  aggregator_get (model_denials m) key.

Definition domain_ruleset (d : DomainState) : option RulesetId := rv_ruleset_id <$> ds_ruleset d.

(** ** The tree of domains *)

(** A line of the tree: a domain and its trail. *)
Notation Row := (DomainId * list bool)%type.

Notation Children := (gmap (option DomainId) (list DomainId)).

(** The key under which a domain is listed: its parent when the parent is
    itself known. *)
Definition parent_key (known : gmap DomainId DomainState) (d : DomainState) : option DomainId :=
  match ds_parent d with
  | None | Some Root => None
  | Some (ParentDomain id) => if known !! id then Some id else None
  end.

(** [children.entry(parent).or_default().push(id)] for every value. *)
Definition collect_children (known : gmap DomainId DomainState) (values : list DomainState) : Children :=
  foldl (λ c d, entry_modify (parent_key known d) [] (λ ids, ids ++ [ds_id d]) c) ∅ values.

Definition sort_by_id (ids : list DomainId) : list DomainId :=
  merge_sort (λ a b : DomainId, id_get a <= id_get b) ids.

(** The trail of the child at [index] of [descendants]. *)
Definition child_trail (trail : list bool) (descendants : list DomainId) (index : nat) : list bool :=
  trail ++ [bool_decide (index = length descendants - 1)%nat].

(** Pushes the children in reverse order, so that the first is popped first. *)
Definition push_descendants (trail : list bool) (descendants : list DomainId) (pending : list Row) :
    list Row :=
  foldl (λ p row, row :: p) pending
    (rev (imap (λ index child, (child, child_trail trail descendants index)) descendants)).

(** The [while let] loop of [append]; the head of [pending] is the top of the
    stack. [None] when the turns do not suffice. *)
Fixpoint append_loop (fuel : nat) (children : Children) (pending : list Row)
    (visited : gset DomainId) (output : list Row) : option (gset DomainId * list Row) :=
  match pending with
  | [] => Some (visited, output)
  | (id, trail) :: pending =>
      match fuel with
      | O => None
      | S fuel =>
          if decide (id ∈ visited) then append_loop fuel children pending visited output
          else
            let pending := match children !! Some id with
                           | Some descendants => push_descendants trail descendants pending
                           | None => pending
                           end in
            append_loop fuel children pending ({[ id ]} ∪ visited) (output ++ [(id, trail)])
      end
  end.

Definition append (fuel : nat) (id : DomainId) (trail : list bool) (children : Children)
    (acc : gset DomainId * list Row) : option (gset DomainId * list Row) :=
  append_loop fuel children [(id, trail)] acc.1 acc.2.

(** The loop over the roots. *)
Definition append_roots (fuel : nat) (children : Children) (acc : gset DomainId * list Row) :
    option (gset DomainId * list Row) :=
  let roots := default [] (children !! None) in
  foldl (λ acc row, acc ← acc; append fuel row.1 row.2 children acc) (Some acc)
    (imap (λ index root, (root, [bool_decide (index = length roots - 1)%nat])) roots).

(** The loop over the domains that no root reaches. *)
Definition append_remaining (fuel : nat) (children : Children) (remaining : list DomainId)
    (acc : gset DomainId * list Row) : option (gset DomainId * list Row) :=
  foldl (λ acc id, acc ← acc;
           if decide (id ∈ acc.1) then Some acc else append fuel id [true] children acc)
    (Some acc) remaining.

Section domain_tree.
(** [HashMap::values] of the state, and [iter] of the local map. *)
Variable iter_state : gmap DomainId DomainState → list DomainState.
Variable iter_known : gmap DomainId DomainState → list (DomainId * DomainState).

(** [self.state.domains().map(..).collect::<HashMap<_, _>>()]. *)
Definition known_domains (s : State) : gmap DomainId DomainState :=
  foldl (λ m d, <[ds_id d := d]> m) ∅ (iter_state (domains s)).

(** One turn per stack entry: the first one and one per listed child. *)
Definition append_fuel (known : gmap DomainId DomainState) : nat := S (size known).

Definition tree_children (known : gmap DomainId DomainState) : Children :=
  sort_by_id <$> collect_children known (iter_known known).*2.

Definition domain_tree (m : ObservationModel) : option (list Row) :=
  let known := known_domains (model_state m) in
  let children := tree_children known in
  let fuel := append_fuel known in
  acc ← append_roots fuel children (∅, []);
  acc ← append_remaining fuel children (sort_by_id (iter_known known).*1) acc;
  Some acc.2.
End domain_tree.
