(* ===== verification/ModelSpec.v ===== *)
(** * The domain tree (lltop/src/tui/model.rs)

    Whatever parents the events claimed, cycles included, the traversal ends
    within its turns and lists every domain once. When every domain has a
    chain of known parents up to a root, the stack of the source computes the
    recursive rendering [render]. *)

From stdpp Require Import relations.
From S2P Require Import Prelude Lattice CapturedBytes Event State StateWf StateTheorems Aggregate Batch BatchCount Model.

(** ** Lists and sorting *)

Lemma push_descendants_app trail descendants pending :
  push_descendants trail descendants pending =
  imap (λ index child, (child, child_trail trail descendants index)) descendants ++ pending.
Proof.
  unfold push_descendants. generalize (imap (λ index child, (child, child_trail trail descendants index)) descendants).
  intros rows. induction rows as [|r rows IH]; [done|]. simpl. by rewrite foldl_app, IH.
Qed.

Lemma sort_by_id_perm ids : sort_by_id ids ≡ₚ ids.
Proof. apply merge_sort_Permutation. Qed.

Lemma sort_by_id_sorted ids : StronglySorted (λ a b : DomainId, id_get a <= id_get b) (sort_by_id ids).
Proof. apply StronglySorted_merge_sort; [apply by_id_trans|apply by_id_total]. Qed.

Lemma sort_by_id_proper ids ids' : ids ≡ₚ ids' → sort_by_id ids = sort_by_id ids'.
Proof.
  intros Hp. eapply StronglySorted_unique_strong; [|apply sort_by_id_sorted..|by rewrite !sort_by_id_perm].
  intros [a] [b] _ _. simpl. intros. f_equal. lia.
Qed.

Lemma fst_imap_pair {A B} (f : nat → A → B) (l : list A) : (imap (λ i x, (x, f i x)) l).*1 = l.
Proof. revert f. induction l as [|x l IH]; intros f; simpl; [done|]. f_equal. apply (IH (λ i, f (S i))). Qed.

Lemma NoDup_fmap_filter {A B} (f : A → B) (P : A → Prop) `{∀ x, Decision (P x)} (l : list A) :
  NoDup (f <$> l) → NoDup (f <$> filter P l).
Proof.
  induction l as [|x l IH]; [done|]. rewrite filter_cons. simpl. intros [Hx Hl]%NoDup_cons.
  case_decide; [|auto]. simpl. apply NoDup_cons. split; [|auto]. intros (y & Hy & Hf)%list_elem_of_fmap.
  apply Hx. rewrite Hy. apply list_elem_of_fmap_2. by apply list_elem_of_filter in Hf as [_ ?].
Qed.

(** ** The table of children *)

(** The children listed under a key. *)
Definition kids (children : Children) (k : option DomainId) : list DomainId := default [] (children !! k).

Definition listed_under (known : gmap DomainId DomainState) (k : option DomainId) (d : DomainState) :
    Prop :=
  parent_key known d = k.
#[export] Instance listed_under_dec known k d : Decision (listed_under known k d).
Proof. unfold listed_under. apply _. Defined.

Lemma kids_collect_children known values k :
  kids (collect_children known values) k = ds_id <$> filter (listed_under known k) values.
Proof.
  unfold kids, collect_children. induction values as [|d values IH] using rev_ind; [done|].
  rewrite foldl_app, filter_app, fmap_app, filter_cons, filter_nil, <- IH. cbn [foldl].
  rewrite lookup_entry_modify. unfold listed_under. destruct (decide (parent_key known d = k)) as [->|Hne].
  - done.
  - simpl. by rewrite app_nil_r.
Qed.

Lemma kids_sorted children k : kids (sort_by_id <$> children) k = sort_by_id (kids children k).
Proof. unfold kids. rewrite lookup_fmap. by destruct (children !! k). Qed.

Lemma push_kids trail children id pending :
  match children !! Some id with
  | Some descendants => push_descendants trail descendants pending
  | None => pending
  end =
  imap (λ index child, (child, child_trail trail (kids children (Some id)) index)) (kids children (Some id)) ++
  pending.
Proof.
  unfold kids. destruct (children !! Some id) as [l|]; [|done]. apply push_descendants_app.
Qed.

(** ** The traversal *)

Section traversal.
Context (known : gmap DomainId DomainState) (values : list DomainState) (children : Children).
Hypothesis known_ids : ∀ id d, known !! id = Some d → ds_id d = id.
Hypothesis values_known : values ≡ₚ (map_to_list known).*2.
Hypothesis children_listed : ∀ k, kids children k ≡ₚ ds_id <$> filter (listed_under known k) values.

Lemma elem_of_values d : d ∈ values ↔ known !! ds_id d = Some d.
Proof.
  rewrite values_known, list_elem_of_fmap. split.
  - intros ([id d'] & -> & Hd%elem_of_map_to_list). simpl. by rewrite (known_ids _ _ Hd).
  - intros Hd. exists (ds_id d, d). by rewrite elem_of_map_to_list.
Qed.

Lemma elem_of_kids k id : id ∈ kids children k ↔ ∃ d, known !! id = Some d ∧ parent_key known d = k.
Proof.
  rewrite children_listed, list_elem_of_fmap. setoid_rewrite list_elem_of_filter.
  setoid_rewrite elem_of_values. unfold listed_under. split.
  - intros (d & -> & <- & Hd). eauto.
  - intros (d & Hd & <-). exists d. by rewrite (known_ids _ _ Hd).
Qed.

Lemma values_ids : ds_id <$> values ≡ₚ (map_to_list known).*1.
Proof.
  rewrite values_known, <- list_fmap_compose. apply Permutation_refl'. apply list_fmap_ext.
  intros i [id d] Hi. simpl. apply known_ids. apply elem_of_map_to_list. by eapply list_elem_of_lookup_2.
Qed.

Lemma NoDup_kids k : NoDup (kids children k).
Proof.
  rewrite children_listed. apply NoDup_fmap_filter. rewrite values_ids. apply NoDup_fst_map_to_list.
Qed.

(** The children that are still to be pushed. *)
Definition unpushed (visited : gset DomainId) (d : DomainState) : Prop :=
  match parent_key known d with Some p => p ∉ visited | None => False end.
#[local] Instance unpushed_dec visited d : Decision (unpushed visited d).
Proof. unfold unpushed. destruct (parent_key known d); apply _. Defined.

Definition turns (pending : list Row) (visited : gset DomainId) : nat :=
  length pending + length (filter (unpushed visited) values).

Lemma unpushed_visit id visited :
  id ∉ visited →
  length (filter (unpushed visited) values) =
  (length (kids children (Some id)) + length (filter (unpushed ({[ id ]} ∪ visited)) values))%nat.
Proof.
  intros Hid. rewrite (children_listed (Some id)), length_fmap. clear values_known children_listed.
  induction values as [|d vs IH]; [done|]. rewrite !filter_cons.
  assert (unpushed visited d ↔ listed_under known (Some id) d ∨ unpushed ({[ id ]} ∪ visited) d) as Hor.
  { unfold unpushed, listed_under. destruct (parent_key known d) as [p|]; [|naive_solver].
    destruct (decide (p = id)); set_solver. }
  assert (¬ (listed_under known (Some id) d ∧ unpushed ({[ id ]} ∪ visited) d)) as Hand.
  { unfold unpushed, listed_under. destruct (parent_key known d) as [p|]; set_solver. }
  repeat case_decide; simpl; tauto || lia.
Qed.

Lemma append_loop_ends fuel pending visited output :
  (turns pending visited <= fuel)%nat → is_Some (append_loop fuel children pending visited output).
Proof.
  revert pending visited output. induction fuel as [|fuel IH]; intros [|[id trail] pending] visited output;
    unfold turns; simpl; try lia; [by eauto..|].
  intros Ht. case_decide as Hv; [apply IH; unfold turns; lia|].
  apply IH. unfold turns. rewrite push_kids, length_app, length_imap.
  rewrite (unpushed_visit id visited Hv) in Ht. lia.
Qed.
Lemma turns_one row visited : (turns [row] visited <= S (size known))%nat.
Proof.
  unfold turns. simpl. apply le_n_S. etrans; [apply length_filter|].
  rewrite values_known, length_fmap, length_map_to_list. done.
Qed.

(** The visited set holds the identities listed so far, each listed once. *)
Definition listing (acc : gset DomainId * list Row) : Prop :=
  acc.1 = list_to_set acc.2.*1 ∧ NoDup acc.2.*1 ∧ acc.1 ⊆ dom known.

Lemma kid_known k id : id ∈ kids children k → id ∈ dom known.
Proof. rewrite elem_of_kids. intros (d & Hd & _). by eapply elem_of_dom_2. Qed.

Lemma append_loop_listing fuel pending acc acc' :
  append_loop fuel children pending acc.1 acc.2 = Some acc' → listing acc →
  Forall (λ row : Row, row.1 ∈ dom known) pending →
  listing acc' ∧ acc.1 ⊆ acc'.1 ∧ Forall (λ row : Row, row.1 ∈ acc'.1) pending.
Proof.
  revert pending acc. induction fuel as [|fuel IH]; intros [|[id trail] pending] [visited output]; simpl;
    try (by intros [= <-]; simpl; auto).
  intros Hl Hacc [Hid Hp]%Forall_cons. case_decide as Hv.
  - edestruct (IH pending (visited, output)) as (? & Hsub & ?); [done..|]. simpl in *. split_and!; [done..|].
    constructor; [by apply Hsub|done].
  - destruct Hacc as (He & Hn & Hk). simpl in *. rewrite push_kids in Hl.
    apply (IH _ ({[ id ]} ∪ visited, output ++ [(id, trail)])) in Hl as (? & Hsub & Hall).
    + simpl in *. apply Forall_app in Hall as [_ Hall]. split_and!; [done|set_solver|].
      constructor; [set_solver|done].
    + unfold listing. simpl. rewrite fmap_app. simpl. split_and!; [set_solver| |set_solver].
      apply NoDup_app. split_and!; [done| |apply NoDup_singleton]. intros x. set_solver.
    + apply Forall_app. split; [|done]. apply Forall_forall. intros row Hrow.
      apply (kid_known (Some id)). apply (list_elem_of_fmap_2 fst) in Hrow. by rewrite fst_imap_pair in Hrow.
Qed.

Lemma append_listing id trail acc :
  id ∈ dom known → listing acc →
  ∃ acc', append (S (size known)) id trail children acc = Some acc' ∧ listing acc' ∧
    acc.1 ⊆ acc'.1 ∧ id ∈ acc'.1.
Proof.
  intros Hid Hacc. destruct (append_loop_ends (S (size known)) [(id, trail)] acc.1 acc.2) as [acc' Ha];
    [apply turns_one|]. exists acc'. split; [done|].
  edestruct append_loop_listing as (? & ? & [? _]%Forall_cons); [done..| |done]. by constructor.
Qed.

(** A loop over entries that keep [listing] and only add to the visited set. *)
Lemma fold_listing {A} (f : gset DomainId * list Row → A → option (gset DomainId * list Row)) ids (g : A → DomainId) :
  (∀ acc x, x ∈ ids → listing acc → ∃ acc', f acc x = Some acc' ∧ listing acc' ∧ acc.1 ⊆ acc'.1 ∧ g x ∈ acc'.1) →
  ∀ acc, listing acc → ∃ acc', foldl (λ acc x, acc ← acc; f acc x) (Some acc) ids = Some acc' ∧
    listing acc' ∧ acc.1 ⊆ acc'.1 ∧ Forall (λ x, g x ∈ acc'.1) ids.
Proof.
  induction ids as [|x ids IH]; intros Hf acc Hacc; simpl; [by eauto 6|].
  destruct (Hf acc x) as (acc1 & -> & H1 & Hs & Hx); [set_solver|done|]. simpl.
  destruct (IH (λ acc y Hy, Hf acc y (list_elem_of_further _ _ _ Hy)) acc1 H1) as (acc' & -> & ? & ? & ?).
  exists acc'. split_and!; [done..|set_solver|]. constructor; [set_solver|done].
Qed.

Lemma append_roots_listing acc :
  listing acc → ∃ acc', append_roots (S (size known)) children acc = Some acc' ∧ listing acc'.
Proof.
  intros Hacc. unfold append_roots.
  edestruct (fold_listing (λ acc row, append (S (size known)) row.1 row.2 children acc)) as (acc' & ? & ? & _);
    [|done|by eauto]. intros acc1 row Hrow H1. apply append_listing; [|done].
  apply (kid_known None). apply (list_elem_of_fmap_2 fst) in Hrow. by rewrite fst_imap_pair in Hrow.
Qed.

Lemma append_remaining_listing ids acc :
  Forall (λ id, id ∈ dom known) ids → listing acc →
  ∃ acc', append_remaining (S (size known)) children ids acc = Some acc' ∧ listing acc' ∧
    Forall (λ id, id ∈ acc'.1) ids.
Proof.
  intros Hids Hacc. unfold append_remaining.
  edestruct (fold_listing (λ acc id, if decide (id ∈ acc.1) then Some acc
    else append (S (size known)) id [true] children acc) ids (λ id, id)) as (acc' & ? & ? & _ & ?);
    [|done|by eauto]. intros acc1 id Hid H1. simpl. case_decide; [by eauto|].
  apply append_listing; [|done]. rewrite Forall_forall in Hids. by apply Hids.
Qed.
End traversal.

(** ** The recursive rendering *)

(** A domain is listed below its parent when that domain is itself known, and
    with the roots otherwise. *)
Definition child_of (known : gmap DomainId DomainState) (k : option DomainId) (d : DomainState) : bool :=
  match ds_parent d with
  | Some (ParentDomain p) => if decide (p ∈ dom known) then bool_decide (k = Some p) else bool_decide (k = None)
  | Some Root | None => bool_decide (k = None)
  end.

Lemma child_of_listed known k d : child_of known k d = true ↔ listed_under known k d.
Proof.
  unfold child_of, listed_under, parent_key. destruct (ds_parent d) as [[|p]|];
    [rewrite bool_decide_eq_true; naive_solver| |rewrite bool_decide_eq_true; naive_solver].
  case_decide as Hp; rewrite elem_of_dom in Hp; rewrite bool_decide_eq_true;
    destruct (known !! p); naive_solver.
Qed.

(** The children of a domain, or the roots, in the order of their identities. *)
Definition child_ids (known : gmap DomainId DomainState) (k : option DomainId) : list DomainId :=
  merge_sort (λ a b : DomainId, id_get a <= id_get b)
    (ds_id <$> filter (λ d, child_of known k d = true) (map_to_list known).*2).

Lemma child_ids_listed known k :
  child_ids known k = sort_by_id (ds_id <$> filter (listed_under known k) (map_to_list known).*2).
Proof. unfold child_ids, sort_by_id. do 2 f_equal. apply list_filter_iff. intros d. apply child_of_listed. Qed.

(** The rows of [ids], siblings below [trail]: each has the bits of its
    ancestors, then whether no sibling follows. *)
Fixpoint sibling_rows (trail : list bool) (ids : list DomainId) : list Row :=
  match ids with
  | [] => []
  | id :: rest => (id, trail ++ [match rest with [] => true | _ :: _ => false end]) :: sibling_rows trail rest
  end.

Lemma sibling_rows_imap trail ids : imap (λ index id, (id, child_trail trail ids index)) ids = sibling_rows trail ids.
Proof.
  unfold child_trail. induction ids as [|id rest IH]; [done|]. cbn [imap]. simpl sibling_rows. f_equal.
  { f_equal. f_equal. destruct rest; [done|]. by rewrite bool_decide_eq_false_2. }
  rewrite <- IH. apply imap_ext. intros i x Hi. simpl. f_equal. f_equal. f_equal.
  apply lookup_lt_Some in Hi. apply bool_decide_ext. lia.
Qed.

Lemma fst_sibling_rows trail ids : (sibling_rows trail ids).*1 = ids.
Proof. induction ids as [|id ids IH]; [done|]. cbn [sibling_rows]. by rewrite fmap_cons, IH. Qed.

Lemma sibling_row_id row trail ids : row ∈ sibling_rows trail ids → row.1 ∈ ids.
Proof. intros Hr%(list_elem_of_fmap_2 fst). by rewrite fst_sibling_rows in Hr. Qed.

(** A domain, then each child with what is below it; [depth] bounds the depth. *)
Fixpoint render (known : gmap DomainId DomainState) (depth : nat) (row : Row) : list Row :=
  match depth with
  | O => []
  | S depth => row :: (sibling_rows row.2 (child_ids known (Some row.1)) ≫= render known depth)
  end.

Definition render_forest (known : gmap DomainId DomainState) : list Row :=
  sibling_rows [] (child_ids known None) ≫= render known (size known).

(** [p] is the known parent of [c]. *)
Definition parent_of (known : gmap DomainId DomainState) (p c : DomainId) : Prop :=
  ∃ d, known !! c = Some d ∧ parent_key known d = Some p.

Definition is_root (known : gmap DomainId DomainState) (r : DomainId) : Prop :=
  ∃ d, known !! r = Some d ∧ parent_key known d = None.

(** [c] is [n] generations below a root. *)
Definition at_depth (known : gmap DomainId DomainState) (n : nat) (c : DomainId) : Prop :=
  ∃ r, is_root known r ∧ nsteps (parent_of known) n r c.

(** Every domain has a finite chain of known parents up to a root. *)
Definition all_rooted (known : gmap DomainId DomainState) : Prop :=
  ∀ id, is_Some (known !! id) → ∃ n, at_depth known n id.

Section render.
Context (known : gmap DomainId DomainState) (children : Children).
Hypothesis known_ids : ∀ id d, known !! id = Some d → ds_id d = id.
Hypothesis children_eq : ∀ k, kids children k = child_ids known k.

Lemma child_ids_perm k : child_ids known k ≡ₚ ds_id <$> filter (listed_under known k) (map_to_list known).*2.
Proof. rewrite child_ids_listed. apply sort_by_id_perm. Qed.

Lemma elem_of_child_ids p c : c ∈ child_ids known (Some p) ↔ parent_of known p c.
Proof.
  rewrite <- children_eq. apply (elem_of_kids known (map_to_list known).*2); [done..|].
  intros k. by rewrite children_eq, child_ids_perm.
Qed.

Lemma elem_of_roots r : r ∈ child_ids known None ↔ is_root known r.
Proof.
  rewrite <- children_eq. apply (elem_of_kids known (map_to_list known).*2); [done..|].
  intros k. by rewrite children_eq, child_ids_perm.
Qed.

Lemma NoDup_child_ids k : NoDup (child_ids known k).
Proof.
  rewrite <- children_eq. apply (NoDup_kids known (map_to_list known).*2); [done..|].
  intros k'. by rewrite children_eq, child_ids_perm.
Qed.

Lemma parent_unique p p' c : parent_of known p c → parent_of known p' c → p = p'.
Proof. intros (d & Hd & Hp) (d' & Hd' & Hp'). congruence. Qed.

Lemma at_depth_S n p c : parent_of known p c → at_depth known (S n) c ↔ at_depth known n p.
Proof.
  intros Hpc. split; intros (r & Hr & Hn); exists r; (split; [done|]).
  - apply nsteps_inv_r in Hn as (p' & Hn & Hp'). by rewrite (parent_unique p p' c).
  - by eapply nsteps_r.
Qed.

Lemma at_depth_O_child p c : parent_of known p c → ¬ at_depth known 0 c.
Proof.
  intros (d & Hd & Hp) (r & (d' & Hr & Hrp) & Hn). inversion Hn; subst. congruence.
Qed.

Lemma at_depth_unique n m c : at_depth known n c → at_depth known m c → n = m.
Proof.
  revert m c. induction n as [|n IH]; intros m c Hn Hm.
  - destruct m as [|m]; [done|]. destruct Hm as (r & ? & (p & ? & Hp)%nsteps_inv_r).
    by destruct (at_depth_O_child p c).
  - destruct Hn as (r & Hr & (p & Hn & Hp)%nsteps_inv_r).
    destruct m as [|m]; [by destruct (at_depth_O_child p c)|].
    f_equal. apply (IH m p); [by exists r|]. by eapply at_depth_S.
Qed.

Lemma at_depth_nsteps n k a x :
  at_depth known n a → nsteps (parent_of known) k a x → at_depth known (n + k) x.
Proof.
  intros (r & Hr & Hn) Hk. exists r. split; [done|]. by eapply nsteps_trans.
Qed.

(** The ancestors of a domain at one depth are the same domain. *)
Lemma ancestor_unique n a b x :
  at_depth known n a → at_depth known n b → rtc (parent_of known) a x → rtc (parent_of known) b x → a = b.
Proof.
  intros Ha Hb [k Hak]%rtc_nsteps [j Hbj]%rtc_nsteps.
  assert (k = j) as <-.
  { pose proof (at_depth_unique _ _ _ (at_depth_nsteps _ _ _ _ Ha Hak) (at_depth_nsteps _ _ _ _ Hb Hbj)). lia. }
  clear Ha Hb. revert x Hak Hbj. induction k as [|k IH]; intros x Ha Hb; [inversion Ha; by inversion Hb; subst|].
  apply nsteps_inv_r in Ha as (p & Ha & Hp). apply nsteps_inv_r in Hb as (q & Hb & Hq).
  apply (IH p); [done|]. by rewrite (parent_unique p q x).
Qed.

Lemma elem_of_render depth rows x :
  x ∈ (rows ≫= render known depth).*1 → ∃ row, row ∈ rows ∧ rtc (parent_of known) row.1 x.
Proof.
  revert rows. induction depth as [|depth IH]; intros rows (y & -> & (row & Hy & Hrow)%list_elem_of_bind)%list_elem_of_fmap;
    simpl in Hy; [by apply not_elem_of_nil in Hy|].
  exists row. split; [done|]. apply elem_of_cons in Hy as [->|Hy]; [done|].
  destruct (IH (sibling_rows row.2 (child_ids known (Some row.1)))) as (c & Hc & Hx); [by apply list_elem_of_fmap_2|].
  apply rtc_l with c.1; [|done]. by eapply elem_of_child_ids, sibling_row_id.
Qed.

Lemma NoDup_render depth n rows :
  Forall (λ row : Row, at_depth known n row.1) rows → NoDup rows.*1 → NoDup (rows ≫= render known depth).*1.
Proof.
  revert n rows. induction depth as [|depth IH]; intros n rows Hd Hn.
  - replace (rows ≫= render known 0) with (@nil Row); [constructor|]. clear. by induction rows.
  - induction rows as [|[id trail] rows IHrows]; [constructor|].
    apply Forall_cons in Hd as [Hid Hd]. simpl in Hn. apply NoDup_cons in Hn as [Hnot Hn].
    set (below := sibling_rows trail (child_ids known (Some id)) ≫= render known depth).
    assert ((((id, trail) :: rows) ≫= render known (S depth)).*1 =
      id :: below.*1 ++ (rows ≫= render known (S depth)).*1) as -> by (unfold below; csimpl; by rewrite fmap_app).
    assert (∀ x, x ∈ below.*1 → tc (parent_of known) id x) as Hbelow.
    { intros x (c & Hc & Hx)%elem_of_render. eapply tc_rtc_r; [|done].
      constructor. by eapply elem_of_child_ids, sibling_row_id. }
    assert (∀ x, rtc (parent_of known) id x → x ∉ (rows ≫= render known (S depth)).*1) as Hother.
    { intros x Hx (row & Hrow & Hrx)%elem_of_render. apply Hnot.
      rewrite (ancestor_unique n id row.1 x); [by apply list_elem_of_fmap_2|done| |done..].
      rewrite Forall_forall in Hd. by apply Hd. }
    apply NoDup_cons. split; [rewrite not_elem_of_app; split|apply NoDup_app; split_and!].
    + intros [k Hk]%Hbelow%tc_nsteps. destruct Hk as [Hk Hs].
      pose proof (at_depth_unique _ _ _ Hid (at_depth_nsteps _ _ _ _ Hid Hs)). lia.
    + by apply Hother.
    + apply (IH (S n)).
      * apply Forall_forall. intros c Hc. eapply at_depth_S; [|done].
        by eapply elem_of_child_ids, sibling_row_id.
      * rewrite fst_sibling_rows. apply NoDup_child_ids.
    + intros x Hx%Hbelow. apply Hother. by apply tc_rtc.
    + by apply IHrows.
Qed.
(** What is below [id] is at most [depth] generations deep. *)
Fixpoint fits (depth : nat) (id : DomainId) : Prop :=
  match depth with
  | O => False
  | S depth => Forall (fits depth) (child_ids known (Some id))
  end.

Lemma fits_size depth n id (above : gset DomainId) :
  above ⊆ dom known → (∀ a, a ∈ above → ∃ j, (j < n)%nat ∧ at_depth known j a) →
  at_depth known n id → is_Some (known !! id) → (size known <= depth + size above)%nat → fits depth id.
Proof.
  revert n id above. induction depth as [|depth IH]; intros n id above Hsub Habove Hid Hk Hsize.
  - assert (above ≡ dom known) as Heq.
    { apply set_subseteq_size_equiv; [done|]. rewrite size_dom. simpl in Hsize. lia. }
    assert (id ∈ above) as (j & Hj & Hd)%Habove by (rewrite Heq; by apply elem_of_dom).
    pose proof (at_depth_unique _ _ _ Hid Hd). lia.
  - simpl. apply Forall_forall. intros c Hc%elem_of_child_ids. apply (IH (S n) c ({[ id ]} ∪ above)).
    + apply elem_of_dom in Hk. set_solver.
    + intros a [->%elem_of_singleton|Ha]%elem_of_union; [eauto with lia|].
      destruct (Habove a Ha) as (j & ? & ?). eauto with lia.
    + by eapply at_depth_S.
    + destruct Hc as (d & Hd & _). by eexists.
    + rewrite size_union, size_singleton; [lia|]. apply disjoint_singleton_l.
      intros (j & Hj & Hd)%Habove. pose proof (at_depth_unique _ _ _ Hid Hd). lia.
Qed.

Lemma fits_covers depth row x :
  fits depth row.1 → rtc (parent_of known) row.1 x → x ∈ (render known depth row).*1.
Proof.
  revert row. induction depth as [|depth IH]; intros [a trail]; simpl; [done|].
  intros Hf [->|(c & Hac & Hx)]%rtc_inv; [set_solver|]. apply elem_of_cons. right.
  rewrite Forall_forall in Hf. apply elem_of_child_ids in Hac.
  pose proof Hac as Hrow. rewrite <- (fst_sibling_rows trail) in Hrow.
  apply list_elem_of_fmap in Hrow as (row & -> & Hrow).
  assert (x ∈ (render known depth row).*1) as (y & -> & Hy)%list_elem_of_fmap by (apply IH; auto).
  apply list_elem_of_fmap_2, list_elem_of_bind. eauto.
Qed.

(** The stack holds the siblings still to be rendered. *)
Lemma append_loop_render depth rows fuel pending visited output :
  Forall (λ row : Row, fits depth row.1) rows → NoDup (rows ≫= render known depth).*1 →
  (∀ x, x ∈ (rows ≫= render known depth).*1 → x ∉ visited) →
  append_loop (length (rows ≫= render known depth) + fuel) children (rows ++ pending) visited output =
  append_loop fuel children pending (list_to_set (rows ≫= render known depth).*1 ∪ visited)
    (output ++ (rows ≫= render known depth)).
Proof.
  revert rows pending fuel visited output. induction depth as [|depth IH].
  { intros [|row rows] pending fuel visited output Hf; [|by apply Forall_cons in Hf as [[] _]].
    simpl. intros _ _. by rewrite (left_id_L ∅ _), app_nil_r. }
  induction rows as [|[id trail] rows IHrows]; intros pending fuel visited output Hf Hn Hv.
  { simpl. by rewrite (left_id_L ∅ _), app_nil_r. }
  apply Forall_cons in Hf as [Hid Hf]. simpl in Hid.
  set (below := sibling_rows trail (child_ids known (Some id)) ≫= render known depth).
  set (rest := rows ≫= render known (S depth)).
  assert (((id, trail) :: rows) ≫= render known (S depth) = (id, trail) :: below ++ rest) as E by done.
  rewrite E in Hn, Hv |- *. clear E. csimpl in *. rewrite fmap_app in Hn, Hv.
  apply NoDup_cons in Hn as [Hnot (Hnb & Hdis & Hnr)%NoDup_app].
  rewrite decide_False by (apply Hv, elem_of_cons; by left).
  rewrite push_kids, children_eq, length_app, <- Nat.add_assoc.
  rewrite sibling_rows_imap.
  unfold below at 1. rewrite IH; fold below; [|..|done|].
  - unfold rest at 1. rewrite IHrows; fold rest; [|done..|].
    + rewrite fmap_app, list_to_set_app_L, <- !app_assoc. f_equal. clear. set_solver.
    + intros x Hx. clearbody below rest. clear -Hv Hdis Hnot Hx. set_solver.
  - apply Forall_forall. intros row Hrow%sibling_row_id. rewrite Forall_forall in Hid. by apply Hid.
  - intros x Hx. clearbody below rest. clear -Hv Hdis Hnot Hx. set_solver.
Qed.
Lemma render_known depth rows :
  Forall (λ row : Row, row.1 ∈ dom known) rows → list_to_set (rows ≫= render known depth).*1 ⊆ dom known.
Proof.
  intros Hk x Hx%elem_of_list_to_set. apply elem_of_render in Hx as (row & Hrow & Hx).
  rewrite Forall_forall in Hk. apply Hk in Hrow.
  apply rtc_inv_r in Hx as [<-|(y & _ & d & Hd & _)]; [done|]. by eapply elem_of_dom_2.
Qed.

Lemma append_render row acc :
  fits (size known) row.1 → row.1 ∈ dom known → NoDup (render known (size known) row).*1 →
  (∀ x, x ∈ (render known (size known) row).*1 → x ∉ acc.1) →
  append (S (size known)) row.1 row.2 children acc =
  Some (list_to_set (render known (size known) row).*1 ∪ acc.1, acc.2 ++ render known (size known) row).
Proof.
  intros Hf Hk Hn Hv. pose proof (append_loop_render (size known) [row]) as Hl.
  pose proof (render_known (size known) [row]) as Hsub. csimpl in *. rewrite app_nil_r in *.
  assert (length (render known (size known) row) <= size known)%nat as Hlen.
  { rewrite <- (length_fmap fst), <- (size_list_to_set (C := gset DomainId)) by done.
    etrans; [apply subseteq_size, Hsub; by constructor|]. by rewrite size_dom. }
  unfold append. rewrite <- (surjective_pairing row).
  replace (S (size known)) with
    (length (render known (size known) row) + (S (size known) - length (render known (size known) row)))%nat by lia.
  specialize (Hl (S (size known) - length (render known (size known) row))%nat [] acc.1 acc.2).
  rewrite Hl; [|by constructor|done..]. destruct (S (size known) - _)%nat; done.
Qed.

Lemma fold_append_render rows acc :
  Forall (λ row : Row, fits (size known) row.1) rows → Forall (λ row : Row, row.1 ∈ dom known) rows →
  NoDup (rows ≫= render known (size known)).*1 →
  (∀ x, x ∈ (rows ≫= render known (size known)).*1 → x ∉ acc.1) →
  foldl (λ acc row, acc ← acc; append (S (size known)) row.1 row.2 children acc) (Some acc) rows =
  Some (list_to_set (rows ≫= render known (size known)).*1 ∪ acc.1,
        acc.2 ++ (rows ≫= render known (size known))).
Proof.
  revert acc. induction rows as [|row rows IH]; intros acc Hf Hk Hn Hv.
  { simpl. rewrite (left_id_L ∅ _), app_nil_r. by destruct acc. }
  apply Forall_cons in Hf as [Hf1 Hf], Hk as [Hk1 Hk]. csimpl in *. rewrite fmap_app in Hn, Hv |- *.
  apply NoDup_app in Hn as (Hn1 & Hdis & Hn).
  rewrite append_render; [|done..|set_solver]. simpl. rewrite IH; [|done..|set_solver]. simpl.
  rewrite <- app_assoc, list_to_set_app_L. do 2 f_equal. set_solver.
Qed.
End render.

(** ** The whole tree *)

Section tree.
Variable iter_state : gmap DomainId DomainState → list DomainState.
Variable iter_known : gmap DomainId DomainState → list (DomainId * DomainState).
Hypothesis iter_state_enumerates : ∀ m, iter_state m ≡ₚ (map_to_list m).*2.
Hypothesis iter_known_enumerates : ∀ m, iter_known m ≡ₚ map_to_list m.

Lemma foldl_insert_ids (l : list DomainState) (m : gmap DomainId DomainState) :
  foldl (λ m d, <[ds_id d := d]> m) m l = list_to_map (reverse ((λ d, (ds_id d, d)) <$> l)) ∪ m.
Proof.
  revert m. induction l as [|d l IH]; intros m; simpl; [by rewrite (left_id_L ∅ _)|].
  rewrite IH, reverse_cons, list_to_map_app, <- (assoc_L (∪)). simpl. f_equal.
  rewrite insert_empty. apply insert_union_singleton_l.
Qed.

Lemma known_domains_eq s :
  (∀ id d, domains s !! id = Some d → ds_id d = id) → known_domains iter_state s = domains s.
Proof.
  intros Hids. unfold known_domains. rewrite foldl_insert_ids, (right_id_L ∅ _).
  rewrite <- (list_to_map_to_list (domains s)) at 2.
  assert ((λ d, (ds_id d, d)) <$> iter_state (domains s) ≡ₚ map_to_list (domains s)) as Hp.
  { rewrite iter_state_enumerates, <- list_fmap_compose. apply Permutation_refl'.
    trans (id <$> map_to_list (domains s)); [|apply list_fmap_id]. apply list_fmap_ext.
    intros i [id d] Hi%list_elem_of_lookup_2%elem_of_map_to_list. simpl. by rewrite (Hids _ _ Hi). }
  apply list_to_map_proper; rewrite reverse_Permutation, Hp; [apply NoDup_fst_map_to_list|done].
Qed.

Lemma tree_children_listed known k :
  kids (tree_children iter_known known) k ≡ₚ
  ds_id <$> filter (listed_under known k) (iter_known known).*2.
Proof. unfold tree_children. by rewrite kids_sorted, sort_by_id_perm, kids_collect_children. Qed.

Lemma iter_known_values known : (iter_known known).*2 ≡ₚ (map_to_list known).*2.
Proof. by rewrite iter_known_enumerates. Qed.

Lemma domain_tree_listing m :
  (∀ id d, domains (model_state m) !! id = Some d → ds_id d = id) →
  ∃ rows, domain_tree iter_state iter_known m = Some rows ∧
    rows.*1 ≡ₚ (map_to_list (domains (model_state m))).*1.
Proof.
  intros Hids. unfold domain_tree. rewrite known_domains_eq by done.
  set (known := domains (model_state m)) in *. unfold append_fuel.
  pose proof (append_roots_listing known _ _ Hids (iter_known_values known) (tree_children_listed known)) as Hr.
  pose proof (append_remaining_listing known _ _ Hids (iter_known_values known) (tree_children_listed known)) as Hm.
  destruct (Hr (∅, [])) as (acc1 & -> & H1); [by split_and!; [|constructor|set_solver]|]. simpl.
  destruct (Hm (sort_by_id (iter_known known).*1) acc1) as (acc2 & -> & (He & Hn & Hk) & Hall); [|done|].
  { apply Forall_forall. intros id. rewrite sort_by_id_perm, iter_known_enumerates. intros ([? d] & -> & Hd)%list_elem_of_fmap.
    apply elem_of_map_to_list in Hd. by eapply elem_of_dom_2. }
  simpl. exists acc2.2. split; [done|]. apply NoDup_Permutation; [done|apply NoDup_fst_map_to_list|].
  intros id. rewrite Forall_forall in Hall. setoid_rewrite sort_by_id_perm in Hall.
  setoid_rewrite iter_known_enumerates in Hall. split; [|intros Hid%Hall; set_solver].
  intros Hid. assert (id ∈ dom known) as [d Hd]%elem_of_dom by set_solver.
  apply list_elem_of_fmap. exists (id, d). by rewrite elem_of_map_to_list.
Qed.
Lemma tree_children_eq known k : kids (tree_children iter_known known) k = child_ids known k.
Proof.
  unfold tree_children. rewrite child_ids_listed, kids_sorted, kids_collect_children. apply sort_by_id_proper.
  by rewrite iter_known_enumerates.
Qed.

Lemma append_remaining_visited fuel children ids acc :
  (∀ id, id ∈ ids → id ∈ acc.1) → append_remaining fuel children ids acc = Some acc.
Proof.
  intros Hv. unfold append_remaining. induction ids as [|id ids IH]; [done|]. simpl.
  rewrite decide_True by set_solver. apply IH. set_solver.
Qed.

Lemma domain_tree_render m :
  (∀ id d, domains (model_state m) !! id = Some d → ds_id d = id) → all_rooted (domains (model_state m)) →
  domain_tree iter_state iter_known m = Some (render_forest (domains (model_state m))).
Proof.
  intros Hids Hroot. unfold domain_tree. rewrite known_domains_eq by done.
  set (known := domains (model_state m)) in *. unfold append_fuel, append_roots.
  pose proof (tree_children_eq known) as Hc.
  change (default [] (tree_children iter_known known !! None)) with (kids (tree_children iter_known known) None).
  rewrite Hc. change (imap _ (child_ids known None)) with
    (imap (λ index id, (id, child_trail [] (child_ids known None) index)) (child_ids known None)).
  rewrite sibling_rows_imap.
  assert (∀ r, r ∈ sibling_rows [] (child_ids known None) → is_root known r.1) as Hroots.
  { intros r Hr. by eapply (elem_of_roots known), sibling_row_id. }
  assert (∀ r, is_root known r → r ∈ dom known) as Hknown.
  { intros r (d & Hd & _). by eapply elem_of_dom_2. }
  assert (∀ r, is_root known r → fits known (size known) r) as Hfits.
  { intros r Hr. eapply (fits_size known _ Hids Hc _ 0 r ∅); [set_solver..| | |lia].
    - exists r. split; [done|constructor].
    - by apply elem_of_dom, Hknown. }
  rewrite (fold_append_render known _ Hids Hc); simpl.
  - rewrite append_remaining_visited; [done|]. simpl. intros id Hid.
    rewrite sort_by_id_perm, iter_known_enumerates in Hid.
    apply list_elem_of_fmap in Hid as ([id' d] & -> & Hd%elem_of_map_to_list). simpl.
    destruct (Hroot id') as (n & r & Hr & Hn); [by eexists|].
    pose proof Hr as Hrow. apply (elem_of_roots known _ Hids Hc) in Hrow.
    rewrite <- (fst_sibling_rows []) in Hrow. apply list_elem_of_fmap in Hrow as (row & -> & Hrow).
    assert (id' ∈ (render known (size known) row).*1) as (y & -> & Hy)%list_elem_of_fmap.
    { apply (fits_covers known _ Hids Hc); [by apply Hfits|]. by eapply rtc_nsteps_2. }
    rewrite (right_id_L ∅ _). apply elem_of_list_to_set, list_elem_of_fmap_2, list_elem_of_bind. eauto.
  - apply Forall_forall. auto.
  - apply Forall_forall. auto.
  - apply (NoDup_render known _ Hids Hc _ 0).
    + apply Forall_forall. intros r Hr%Hroots. exists r.1. split; [done|constructor].
    + rewrite fst_sibling_rows. apply (NoDup_child_ids known _ Hids Hc).
  - set_solver.
Qed.
End tree.
