(* ===== verification/ModelTheorems.v ===== *)
(** * Theorems on the model behind the terminal view (lltop/src/tui/model.rs) *)

From S2P Require Import Prelude Lattice CapturedBytes Event State StateWf StateHistory StateTheorems Aggregate AggregateSpec Batch BatchCount Model ModelSpec.

(** ** Parents with smaller identities *)

(** Landlock numbers domains in the order of their creation, so a parent has
    the smaller identity. *)
Definition parents_smaller (known : gmap DomainId DomainState) : Prop :=
  map_Forall (λ id d, match ds_parent d with
                      | Some (ParentDomain p) => p ∈ dom known → id_get p < id_get id
                      | Some Root | None => True
                      end) known.

#[export] Instance parents_smaller_dec known : Decision (parents_smaller known).
Proof. apply map_Forall_dec. intros id d. destruct (ds_parent d) as [[]|]; apply _. Defined.

Lemma parent_key_known known d p : parent_key known d = Some p → is_Some (known !! p).
Proof.
  unfold parent_key. destruct (ds_parent d) as [[|id]|]; [done| |done].
  destruct (known !! id) eqn:E; [|done]. intros [= <-]. by eexists.
Qed.

Lemma parent_key_smaller known id d p :
  parents_smaller known → known !! id = Some d → parent_key known d = Some p → id_get p < id_get id.
Proof.
  intros Hs Hd Hp. pose proof (Hs _ _ Hd) as Hd'. pose proof (parent_key_known _ _ _ Hp) as Hk%elem_of_dom.
  unfold parent_key in Hp. simpl in Hd'. destruct (ds_parent d) as [[|q]|]; [done| |done].
  destruct (known !! q); [|done]. injection Hp as ->. auto.
Qed.

Lemma parents_smaller_rooted known : parents_smaller known → all_rooted known.
Proof.
  intros Hs [v]. induction v as [v IH] using (well_founded_induction N.lt_wf_0). intros [d Hd].
  destruct (parent_key known d) as [[p]|] eqn:Hk.
  - assert (p < v) as Hlt by (exact (parent_key_smaller _ _ _ _ Hs Hd Hk)).
    destruct (IH p Hlt) as (n & r & Hr & Hn); [by eapply parent_key_known|].
    exists (S n), r. split; [done|]. eapply nsteps_r; [done|]. by exists d.
  - exists 0%nat, (mkLandlockId v). split; [by exists d|constructor].
Qed.

(** ** The parts of the model *)

Section model.
Variable iter : gmap DenialKey AggregatedDenial → list Entry.

Definition model_after (events : list Event) : ObservationModel := model_observe_all iter model_new events.

Lemma model_after_snoc events event : model_after (events ++ [event]) = model_observe iter (model_after events) event.
Proof. unfold model_after, model_observe_all. by rewrite foldl_app. Qed.

Lemma model_after_state events : model_state (model_after events) = replay state_new events.
Proof.
  induction events as [|event events IH] using rev_ind; [done|].
  rewrite model_after_snoc, replay_snoc. simpl. by rewrite IH.
Qed.

Lemma model_after_denials events : model_denials (model_after events) = observe_all iter aggregator_new events.
Proof.
  induction events as [|event events IH] using rev_ind; [done|].
  rewrite model_after_snoc. unfold observe_all. rewrite foldl_app. simpl. by rewrite IH.
Qed.

Lemma model_after_stats events :
  model_stats (model_after events) =
  mkModelStats (total_denials (batch_stats (after iter events))) (denials (batch_stats (after iter events))).
Proof.
  induction events as [|event events IH] using rev_ind; [done|].
  rewrite model_after_snoc, after_snoc, process_stats. simpl. rewrite IH. unfold model_stats_observe. simpl.
  destruct (batch_stats (after iter events)) as [n []]. by destruct event.
Qed.

Lemma model_allocated m : Model.allocated_domains m = allocated_count (model_state m).
Proof.
  unfold Model.allocated_domains, allocated_count, count, len. f_equal.
  rewrite map_filter_alt, <- length_map_to_list, map_to_list_to_map; [done|].
  apply NoDup_fmap_filter, NoDup_fst_map_to_list.
Qed.

Lemma model_after_ids events id d :
  domains (model_state (model_after events)) !! id = Some d → ds_id d = id.
Proof.
  rewrite model_after_state. intros Hd. apply (dwf_id id d).
  exact (swf_domains _ (replay_wf _ events state_new_wf) id d Hd).
Qed.

(** C30: the terminal view and the batch output of one stream of valid events
    rest on the same facts: the same state, the same aggregated denials, the
    same denial counters; the number of allocated domains that the view counts
    anew is the one that the batch output keeps. *)
Theorem views_agree events :
  Forall event_valid events →
  let m := model_after events in
  let b := after iter events in
  model_state m = batch_state b ∧ model_denials m = batch_denials b ∧
  stats_total (model_stats m) = total_denials (batch_stats b) ∧
  by_kind (model_stats m) = denials (batch_stats b) ∧
  Model.allocated_domains m = Batch.allocated_domains b.
Proof.
  intros Hv. simpl. rewrite model_after_state, model_after_denials, model_after_stats, after_state, after_denials.
  split_and!; [done..|]. rewrite model_allocated, model_after_state.
  destruct (after_allocated iter events Hv) as [_ ->]. by rewrite after_state.
Qed.

(** ** The age of a denial *)

Hypothesis iter_enumerates : ∀ m, iter m ≡ₚ map_to_list m.

(** No entry is later than [t]. *)
Definition seen_by (t : N) (m : gmap DenialKey AggregatedDenial) : Prop :=
  map_Forall (λ _ d, as_nanoseconds (ad_latest_timestamp d) <= t) m.

Lemma seen_by_weaken t t' m : t <= t' → seen_by t m → seen_by t' m.
Proof. intros Ht Hm k d Hd. specialize (Hm k d Hd). simpl in *. lia. Qed.

Lemma renumber_seen_by t recency n m :
  seen_by t m → Forall (λ kv : Entry, as_nanoseconds (ad_latest_timestamp kv.2) <= t) recency →
  seen_by t (renumber recency n m).1.
Proof.
  revert n m. induction recency as [|[k e] recency IH]; intros n m Hm Hr; simpl; [done|].
  apply Forall_cons in Hr as [He Hr]. apply IH; [|done]. by apply map_Forall_insert_2.
Qed.

Lemma compact_seen_by t a : seen_by t (agg_entries a) → seen_by t (agg_entries (compact iter a)).
Proof.
  intros Ha. unfold compact. destruct (renumber _ _ _) as [m n] eqn:E. simpl.
  replace m with (renumber (sort_by_sequence (iter (agg_entries a))) 0 (agg_entries a)).1 by by rewrite E.
  apply renumber_seen_by; [done|]. unfold sort_by_sequence.
  rewrite merge_sort_Permutation, iter_enumerates. apply Forall_forall.
  intros [k e] He%elem_of_map_to_list. exact (Ha k e He).
Qed.

Lemma observe_seen_by t a event :
  as_nanoseconds (timestamp event) <= t → seen_by t (agg_entries a) →
  seen_by t (agg_entries (observe iter a event)).
Proof.
  intros Ht Ha. unfold observe, observe_entry. destruct (denial_facts event) as [[[key same_exec] logged]|]; [|done].
  assert (seen_by t (agg_entries (next_ingestion_sequence iter a).1)) as Hn.
  { unfold next_ingestion_sequence. simpl. destruct (_ =? _); [by apply compact_seen_by|done]. }
  destruct (next_ingestion_sequence iter a) as [a' sequence]. simpl in Hn.
  destruct (agg_entries a' !! key); simpl; [by apply map_Forall_insert_2|]. unfold evict.
  destruct (_ <=? _); [|by apply map_Forall_insert_2]. destruct (min_by_key _ _); simpl; [|done].
  apply map_Forall_insert_2; [done|]. by apply map_Forall_delete.
Qed.

Lemma model_after_seen_by events :
  seen_by (as_nanoseconds (latest_seen (model_after events))) (agg_entries (model_denials (model_after events))).
Proof.
  induction events as [|event events IH] using rev_ind; [apply map_Forall_empty|].
  rewrite model_after_snoc. simpl. apply observe_seen_by; [lia|].
  eapply seen_by_weaken; [|done]. lia.
Qed.

(** The view's clock is the greatest timestamp of the stream, and the age
    it gives a denial is exactly the time from the denial's latest event to
    that clock: the subtraction never saturates. *)
Theorem denial_age_exact events key denial :
  model_denial (model_after events) key = Some denial →
  as_nanoseconds (latest_seen (model_after events)) =
    foldr (λ e t, N.max (as_nanoseconds (timestamp e)) t) 0 events ∧
  as_nanoseconds (latest_seen (model_after events)) =
    as_nanoseconds (ad_latest_timestamp denial) + denial_age_ns (model_after events) denial.
Proof.
  intros Hd. split.
  - clear Hd. induction events as [|event events IH] using rev_ind; [done|].
    rewrite model_after_snoc, foldr_app. simpl. rewrite IH. clear IH.
    induction events as [|e events IH]; simpl; [lia|]. rewrite <- IH. lia.
  - pose proof (model_after_seen_by events key denial Hd) as Hle. simpl in Hle.
    unfold denial_age_ns, saturating_sub. lia.
Qed.

(** ** The tree *)

Variable iter_state : gmap DomainId DomainState → list DomainState.
Variable iter_known : gmap DomainId DomainState → list (DomainId * DomainState).
Hypothesis iter_state_enumerates : ∀ m, iter_state m ≡ₚ (map_to_list m).*2.
Hypothesis iter_known_enumerates : ∀ m, iter_known m ≡ₚ map_to_list m.

(** C14: whatever parents the events claimed, cycles included, every stack of
    the tree traversal empties after at most one turn more than there are
    domains, and the rows name every known domain exactly once. *)
Theorem domain_tree_lists_all events :
  ∃ rows, domain_tree iter_state iter_known (model_after events) = Some rows ∧
    rows.*1 ≡ₚ (map_to_list (domains (replay state_new events))).*1.
Proof.
  rewrite <- model_after_state. apply domain_tree_listing; [done..|]. apply model_after_ids.
Qed.

(** C15: when every domain has a smaller known parent or none, as Landlock
    numbers them, the stack computes the recursive rendering of the forest: a
    domain, then its children by identity, each with all that is below it. The
    trail of a row has a bit for every ancestor, from the root on, and one for
    itself, each telling whether it is the last of its siblings. The order in
    which the hash maps iterate does not matter. *)
Theorem domain_tree_recursive events :
  parents_smaller (domains (replay state_new events)) →
  domain_tree iter_state iter_known (model_after events) = Some (render_forest (domains (replay state_new events))).
Proof.
  rewrite <- model_after_state. intros Hs. apply domain_tree_render; [done..|apply model_after_ids|].
  by apply parents_smaller_rooted.
Qed.
End model.

(** ** Concrete streams *)

Definition sample_create (id : N) (parent : option N) : Event :=
  CreateDomain (mkCreateDomainEvent (from_nanoseconds id) (mkLandlockId (MIN_LANDLOCK_ID + 1)) 0
    (mkLandlockId (MIN_LANDLOCK_ID + id)) ((λ p, mkLandlockId (MIN_LANDLOCK_ID + p)) <$> parent)
    (mkProcessId 1) (mkCapturedBytes [] false)).

(** The streams of the tests: a tree of two levels, and a cycle. *)
Definition tree_stream : list Event :=
  [sample_create 1 None; sample_create 2 (Some 1); sample_create 3 (Some 1); sample_create 4 (Some 2);
   sample_create 5 None].
Definition cycle_stream : list Event := [sample_create 1 (Some 2); sample_create 2 (Some 1)].

Definition offsets (rows : list (DomainId * list bool)) : list (N * list bool) :=
  prod_map (λ id, id_get id - MIN_LANDLOCK_ID) id <$> rows.

(** The rows that the tests of the source expect. *)
Example tree_stream_rows :
  offsets <$> domain_tree (λ m, (map_to_list m).*2) map_to_list (model_after map_to_list tree_stream) =
  Some [(1, [false]); (2, [false; false]); (4, [false; false; true]); (3, [false; true]); (5, [true])].
Proof. vm_compute. reflexivity. Qed.

Example cycle_stream_rows :
  offsets <$> domain_tree (λ m, (map_to_list m).*2) map_to_list (model_after map_to_list cycle_stream) =
  Some [(1, [true]); (2, [true; true])].
Proof. vm_compute. reflexivity. Qed.

Lemma views_agree_witness :
  Forall event_valid sample_batch_events ∧
  let m := model_after map_to_list sample_batch_events in
  let b := after map_to_list sample_batch_events in
  model_state m = batch_state b ∧ model_denials m = batch_denials b ∧
  stats_total (model_stats m) = total_denials (batch_stats b) ∧
  by_kind (model_stats m) = denials (batch_stats b) ∧
  Model.allocated_domains m = Batch.allocated_domains b.
Proof.
  split; [exact sample_batch_valid|]. apply (views_agree map_to_list sample_batch_events).
  exact sample_batch_valid.
Defined.

Lemma denial_age_exact_witness :
  let m := model_after map_to_list sample_batch_events in
  model_denial m (sample_denial_key 80) = Some (sample_entry 80 1) ∧
  as_nanoseconds (latest_seen m) = 9 ∧ denial_age_ns m (sample_entry 80 1) = 8.
Proof.
  assert (model_denial (model_after map_to_list sample_batch_events) (sample_denial_key 80) =
    Some (sample_entry 80 1)) as Hd by (vm_compute; reflexivity).
  split; [exact Hd|].
  destruct (denial_age_exact map_to_list (λ m, reflexivity _) sample_batch_events _ _ Hd) as [Hmax Hage].
  split; [rewrite Hmax; reflexivity|]. rewrite Hmax in Hage. simpl in Hage. simpl. lia.
Defined.

Lemma domain_tree_lists_all_witness :
  ∃ rows, domain_tree (λ m, (map_to_list m).*2) map_to_list (model_after map_to_list cycle_stream) = Some rows ∧
    rows.*1 ≡ₚ (map_to_list (domains (replay state_new cycle_stream))).*1.
Proof.
  apply (domain_tree_lists_all map_to_list (λ m, (map_to_list m).*2) map_to_list
    (λ m, reflexivity _) (λ m, reflexivity _) cycle_stream).
Defined.

Lemma domain_tree_recursive_witness :
  parents_smaller (domains (replay state_new tree_stream)) ∧
  domain_tree (λ m, (map_to_list m).*2) map_to_list (model_after map_to_list tree_stream) =
  Some (render_forest (domains (replay state_new tree_stream))).
Proof.
  assert (parents_smaller (domains (replay state_new tree_stream))) as Hs.
  { apply (bool_decide_eq_true_1 _). vm_compute. reflexivity. }
  split; [exact Hs|].
  exact (domain_tree_recursive map_to_list (λ m, (map_to_list m).*2) map_to_list
    (λ m, reflexivity _) (λ m, reflexivity _) tree_stream Hs).
Defined.
