(* ===== verification/Ui.v ===== *)
(** * The terminal view (lltop/src/tui/ui.rs, theme.rs)

    [App] is what the user did: the tab, the selection, the scroll position and
    the areas to hit. Each tab lists rows; [draw] wraps them, moves the
    viewport, records what was drawn for later clicks, and hands the lines to
    the ratatui library. That library is a parameter: the styles, the splitting
    of areas and the width of text. What [draw] gives to it is a list of
    widgets with their areas. *)

From S2P Require Import Prelude Lattice CapturedBytes Event State Aggregate Text Utf8 Display TuiFormat Batch Model.

(** ** What the program uses of ratatui *)

Record Rect := mkRect { rect_x : N; rect_y : N; rect_width : N; rect_height : N }.
Definition rect_default : Rect := mkRect 0 0 0 0.

Class Ratatui := {
  Color : Type;
  LightCyan : Color; LightGreen : Color; DarkGray : Color; LightMagenta : Color; LightRed : Color; Gray : Color;
  Indexed : N → Color;
  Modifier : Type;
  BOLD : Modifier; DIM : Modifier; ITALIC : Modifier;
  Style : Type;
  style_new : Style;
  fg : Color → Style → Style;
  bg : Color → Style → Style;
  add_modifier : Modifier → Style → Style;
  patch : Style → Style → Style;
  (** [Span::raw(text).width()]. *)
  display_width : text → N;
  (** [Layout::split] with the constraints of [draw]. *)
  split_vertical : Rect → list Rect;
  split_horizontal : Rect → list Rect;
}.

(** ** Styles (theme.rs) *)

Module theme.
Section theme.
Context `{Ratatui}.
Definition normal : Style := style_new.
Definition heading : Style := add_modifier BOLD (fg LightCyan style_new).
Definition selected : Style := bg (Indexed 238) style_new.
Definition related : Style := bg (Indexed 236) style_new.
Definition observed : Style := fg LightGreen style_new.
Definition tombstone : Style := add_modifier DIM (fg DarkGray style_new).
Definition unknown : Style := add_modifier ITALIC (fg DarkGray style_new).
Definition trace_only : Style := fg LightMagenta style_new.
Definition hot : Style := add_modifier BOLD (fg LightRed style_new).
Definition recent : Style := fg LightRed style_new.
Definition cooling : Style := fg Gray style_new.
Definition cold : Style := fg DarkGray style_new.
Definition recency (age_ns : N) : Style :=
  if age_ns <? 1000000000 then hot
  else if age_ns <? 5000000000 then recent
  else if age_ns <? 30000000000 then cooling
  else cold.
End theme.
End theme.

(** ** Tabs, rows and the application state *)

Inductive Tab := Domains | Denials | Rulesets | TabStats.
#[export] Instance Tab_eq_dec : EqDecision Tab.
Proof. solve_decision. Defined.

Definition ALL_TABS : list Tab := [Domains; Denials; Rulesets; TabStats].

Definition title (tab : Tab) : string :=
  match tab with
  | Domains => "Domains [1]"
  | Denials => "Denials [2]"
  | Rulesets => "Rulesets [3]"
  | TabStats => "Stats [4]"
  end.

Definition tab_index (tab : Tab) : N :=
  match tab with
  | Domains => 0
  | Denials => 1
  | Rulesets => 2
  | TabStats => 3
  end.

Inductive RowKind :=
| RowDomain (id : DomainId)
| RowDenialDomain (id : DomainId)
| RowDenial (key : DenialKey)
| RowRuleset (id : RulesetId)
| Heading.
#[export] Instance RowKind_eq_dec : EqDecision RowKind.
Proof. solve_decision. Defined.

Definition selectable (kind : RowKind) : bool :=
  match kind with Heading => false | _ => true end.

Record HitMap := mkHitMap {
  hit_tabs : Rect;
  hit_list : Rect;
  hit_rows : list RowKind;
  hit_header_rows : N;
}.
Definition hit_default : HitMap := mkHitMap rect_default rect_default [] 0.

Record App := mkApp {
  tab : Tab;
  paused : bool;
  collector_warning : option text;
  selected : option RowKind;
  detail : bool;
  scroll : N;
  follow_selection : bool;
  dragging_scrollbar : bool;
  hit : HitMap;
}.

Definition app_new : App := mkApp Domains false None None false 0 true false hit_default.

Definition set_collector_warning (warning : text) (a : App) : App :=
  mkApp (tab a) (paused a) (Some warning) (selected a) (detail a) (scroll a) (follow_selection a)
    (dragging_scrollbar a) (hit a).

Definition close_detail (a : App) : App :=
  mkApp (tab a) (paused a) (collector_warning a) (selected a) false (scroll a) (follow_selection a)
    (dragging_scrollbar a) (hit a).

Definition set_tab (t : Tab) (a : App) : App :=
  mkApp t (paused a) (collector_warning a) None false 0 true (dragging_scrollbar a) (hit a).

Definition cycle_tab (a : App) : App :=
  set_tab (match tab a with
           | Domains => Denials
           | Denials => Rulesets
           | Rulesets => TabStats
           | TabStats => Domains
           end) a.

Definition with_scroll (n : N) (follow : bool) (a : App) : App :=
  mkApp (tab a) (paused a) (collector_warning a) (selected a) (detail a) n follow
    (dragging_scrollbar a) (hit a).

(** [delta] is an [isize]; [Z.abs_N] is [unsigned_abs]. *)
Definition scroll_by (delta : Z) (a : App) : App :=
  with_scroll (if (delta <? 0)%Z then saturating_sub (scroll a) (Z.abs_N delta)
               else saturating_add usize_max (scroll a) (Z.abs_N delta)) false a.

Definition scroll_to (n : N) (a : App) : App := with_scroll n false a.

Definition select (kind : RowKind) (a : App) : App :=
  mkApp (tab a) (paused a) (collector_warning a) (Some kind) true (scroll a) (follow_selection a)
    (dragging_scrollbar a) (hit a).

(** The selectable rows, of equal neighbours the first, with their indices. *)
Definition selectable_rows (rows : list RowKind) : list (N * RowKind) :=
  foldl (λ acc '(index, row),
           if selectable row && match last acc with
                                | None => true
                                | Some (_, previous) => bool_decide (previous ≠ row)
                                end
           then acc ++ [(index, row)] else acc)
    [] (imap (λ index row, (N.of_nat index, row)) rows).

Definition next_selection (current : option N) (delta : Z) (last_index : N) : N :=
  match current, (delta ?= 0)%Z with
  | None, Lt => last_index
  | None, _ => 0
  | Some index, Lt => saturating_sub index 1
  | Some index, _ => N.min (saturating_add usize_max index 1) last_index
  end.

Definition move_selection (delta : Z) (a : App) : App :=
  let a := with_scroll (scroll a) true a in
  let rows := selectable_rows (hit_rows (hit a)) in
  match rows with
  | [] => a
  | _ =>
      let current := kind ← selected a; position (λ entry : N * RowKind, bool_decide (entry.2 = kind)) rows in
      let next := next_selection current delta (saturating_sub (len rows) 1) in
      match rows !! N.to_nat next with
      | Some (_, row) => select row a
      | None => a
      end
  end.

Definition viewport_scroll (scroll row_count visible : N) (selected_index : option N)
    (follow_selection : bool) : N :=
  let scroll := N.min scroll (saturating_sub row_count visible) in
  if negb follow_selection then scroll
  else match selected_index with
       | Some index =>
           if index <? scroll then index
           else if saturating_add usize_max scroll visible <=? index
           then saturating_sub (saturating_add usize_max index 1) visible
           else scroll
       | None => scroll
       end.

Definition adjust_viewport (row_count visible : N) (selected_index : option N) (a : App) : App :=
  with_scroll (viewport_scroll (scroll a) row_count visible selected_index (follow_selection a))
    (follow_selection a) a.

Definition vertical_areas (areas : list Rect) : option (Rect * Rect * Rect) :=
  match areas with
  | tabs :: main :: footer :: _ => Some (tabs, main, footer)
  | _ => None
  end.

Definition pane_areas (areas : list Rect) : option (Rect * option Rect) :=
  match areas with
  | list :: detail :: _ => Some (list, Some detail)
  | [list] => Some (list, None)
  | [] => None
  end.

(** The ranges of the loop over the tabs. *)
Fixpoint clicked_in (tabs : list Tab) (relative start : N) : option Tab :=
  match tabs with
  | [] => None
  | tab :: tabs =>
      stop ← checked_add usize_max start (len (bytes_of_string (title tab)));
      stop ← checked_add usize_max stop 2;
      if (start <=? relative) && (relative <? stop) then Some tab
      else start ← checked_add usize_max stop 1; clicked_in tabs relative start
  end.

Definition clicked_tab (area : Rect) (column row : N) : option Tab :=
  below ← checked_add u16_max (rect_y area) 1;
  if bool_decide (row ≠ below) || (column <=? rect_x area) then None
  else
    relative ← checked_sub column (rect_x area);
    relative ← checked_sub relative 1;
    clicked_in ALL_TABS relative 0.
