(* ===== verification/UiRows.v ===== *)
(** * The rows and lines of the terminal view (lltop/src/tui/ui.rs)

    The rows of the three lists, the fields of the detail pane, the statistics
    and [draw]. [slice::sort_by] is the stable insertion sort [sort_by]. Groups
    are made in hash maps and then sorted by an order in which no two groups
    are equal, so the order of the hash map does not matter for them; the order
    in which the aggregator lists its entries is the variable [iter]. *)

From S2P Require Import Prelude Lattice CapturedBytes Event State Aggregate Text Utf8 Display TuiFormat Batch Model Ui.

(** ** Orders *)

(** [Ordering::then_with]. *)
Definition then_with (c : comparison) (other : comparison) : comparison :=
  match c with Eq => other | _ => c end.

(** [Ord for Option<u64>] and [Ord for str], which compares the bytes and so
    the characters. *)
Definition option_cmp (a b : option N) : comparison :=
  match a, b with
  | None, None => Eq
  | None, Some _ => Lt
  | Some _, None => Gt
  | Some a, Some b => a ?= b
  end.

Fixpoint text_cmp (a b : text) : comparison :=
  match a, b with
  | [], [] => Eq
  | [], _ :: _ => Lt
  | _ :: _, [] => Gt
  | x :: a, y :: b => then_with (x ?= y) (text_cmp a b)
  end.

Fixpoint insert_by {A} (cmp : A → A → comparison) (x : A) (l : list A) : list A :=
  match l with
  | [] => [x]
  | y :: rest => match cmp x y with Gt => y :: insert_by cmp x rest | _ => x :: l end
  end.

(** [slice::sort_by]: equal elements keep their order. *)
Definition sort_by {A} (cmp : A → A → comparison) (l : list A) : list A := foldr (insert_by cmp) [] l.

(** [groups.entry(key(x)).or_default().push(x)] for every element. *)
Definition group_by {A K} `{Countable K} (key : A → K) (l : list A) : gmap K (list A) :=
  foldl (λ m x, entry_modify (key x) [] (λ xs, xs ++ [x]) m) ∅ l.

(** ** Texts *)

Section rows.
Context `{Unicode} `{Ratatui}.
Variable iter : gmap DenialKey AggregatedDenial → list Entry.
Variable iter_state : gmap DomainId DomainState → list DomainState.
Variable iter_known : gmap DomainId DomainState → list (DomainId * DomainState).

Definition AUDIT_VISIBLE_ICON : text := lit "🔔".
Definition TRACE_ONLY_ICON : text := lit "🔕".

Definition visibility (logged : bool) : text * text :=
  if logged then (AUDIT_VISIBLE_ICON, lit "audit-visible") else (TRACE_ONLY_ICON, lit "trace-only").

(** [{s:>n}] and [" ".repeat(n)]. *)
Definition pad_left (n : nat) (s : text) : text := replicate (n - length s) SPACE ++ s.
Definition spaces (n : N) : text := replicate (N.to_nat n) SPACE.

Definition denial_row_text (count : N) (visibility target : text) : text * N :=
  let prefix := lit "    " ++ pad_left 6 (lit (dec count)) ++ lit " " ++ visibility ++ lit "  " in
  (prefix ++ target, display_width prefix).

Record DisplayRow := mkDisplayRow {
  row_kind : RowKind;
  row_text : text;
  row_style : Style;
  row_continuation_indent : option N;
}.

Definition selected_style (kind : RowKind) (selected : option RowKind) (base : Style) : Style :=
  if decide (selected = Some kind) then patch base theme.selected else base.

Definition tree_prefix (last : list bool) : text :=
  if (len last <=? 1) then []
  else
    let final_index := (length last - 1)%nat in
    mjoin (imap (λ i (is_last : bool),
                   if decide (S i = final_index) then lit (if is_last then "└─ " else "├─ ")
                   else lit (if is_last then "   " else "│  ")) (drop 1 last)).

Definition lifecycle (value : LifecycleState) : text :=
  match value with
  | Allocated => lit "allocated"
  | Deallocated => lit "deallocated"
  end.

Definition lifecycle_style (value : LifecycleState) : Style :=
  match value with
  | Allocated => theme.observed
  | Deallocated => theme.tombstone
  end.

Definition total (entries : list AggregatedDenial) : N :=
  foldl (λ sum entry, saturating_add u64_max sum (ad_occurrence_count entry)) 0 entries.

(** [max().unwrap_or(0)]. *)
Definition maximum (entries : list AggregatedDenial) : N := foldr N.max 0 (ad_occurrence_count <$> entries).

Definition blockers_event (event : Event) : text :=
  match event with
  | DenyAccessFs e => filesystem_blocker (dfs_blockers e)
  | DenyAccessNet e => network_blocker (dne_blockers_type e) (dne_blockers_access e)
  | DenyPtrace _ => lit "ptrace"
  | DenyScopeSignal _ => scope (from_bits (N.shiftl 1 1))
  | DenyScopeAbstractUnixSocket _ => scope (from_bits (N.shiftl 1 0))
  | _ => lit "unknown"
  end.

Definition blockers (entry : AggregatedDenial) : text := blockers_event (ad_latest_event entry).

Definition target_event (event : Event) : text :=
  match event with
  | DenyAccessFs e => display (dfs_pathname e)
  | DenyAccessNet e =>
      match has_prefix "bind_" e, has_prefix "connect_" e with
      | true, false => lit ("sport:" +:+ dec (dne_source_port e))
      | false, true => lit ("dport:" +:+ dec (dne_destination_port e))
      | _, _ => lit ("sport:" +:+ dec (dne_source_port e) +:+ ", dport:" +:+ dec (dne_destination_port e))
      end
  | DenyPtrace e => lit ("pid:" +:+ dec (pid_get (dpt_tracee_pid e)) +:+ " ") ++ display (dpt_tracee_comm e)
  | DenyScopeSignal e => lit ("pid:" +:+ dec (pid_get (dsi_target_pid e)) +:+ " ") ++ display (dsi_target_comm e)
  | DenyScopeAbstractUnixSocket e => display (dau_abstract_name e)
  | _ => lit "unknown"
  end.

Definition target (entry : AggregatedDenial) : text := target_event (ad_latest_event entry).

(** ** The lists *)

(** [comm[tgid]] when both are known. *)
Definition creator (d : DomainState) : option text :=
  match ds_creator_comm d, ds_creator_tgid d with
  | Some comm, Some tgid => Some (display comm ++ lit ("[" +:+ dec (pid_get tgid) +:+ "]"))
  | _, _ => None
  end.

Definition domain_status (d : DomainState) : text :=
  match ds_lifecycle d, no_new_privs d with
  | Allocated, Some false =>
      lifecycle (ds_lifecycle d) ++ lit "; WARNING: missing no_new_privs means privilege gain is possible"
  | _, _ => lifecycle (ds_lifecycle d)
  end.

Definition domain_row (selected : option RowKind) (id : DomainId) (trail : list bool) (d : DomainState) :
    DisplayRow :=
  let count := match ds_cumulative_denial_count d with None => lit "?" | Some n => lit (dec n) end in
  mkDisplayRow (RowDomain id)
    (tree_prefix trail ++ lit (display_id id) ++ lit "  " ++ default (lit "?") (creator d) ++
     lit "  denials=" ++ count ++ lit "  " ++ domain_status d)
    (selected_style (RowDomain id) selected (lifecycle_style (ds_lifecycle d))) None.

(** [domain_tree] always returns. *)
Definition domain_rows (m : ObservationModel) (selected : option RowKind) : list DisplayRow :=
  omap (λ '(id, trail), domain_row selected id trail <$> domain (model_state m) id)
    (default [] (domain_tree iter_state iter_known m)).

Definition heading_row (text : text) (style : Style) : DisplayRow := mkDisplayRow Heading text style None.

Definition by_total (x y : DomainId * list AggregatedDenial) : comparison :=
  then_with (total y.2 ?= total x.2) (id_get x.1 ?= id_get y.1).

Definition by_maximum (x y : text * list AggregatedDenial) : comparison :=
  then_with (maximum y.2 ?= maximum x.2)
    (then_with (total y.2 ?= total x.2) (text_cmp x.1 y.1)).

Definition by_count (a b : AggregatedDenial) : comparison :=
  then_with (ad_occurrence_count b ?= ad_occurrence_count a)
    (then_with (as_nanoseconds (ad_latest_timestamp b) ?= as_nanoseconds (ad_latest_timestamp a))
       (text_cmp (target a) (target b))).

Definition denial_row (m : ObservationModel) (selected : option RowKind) (selected_target : option text)
    (entry : AggregatedDenial) : DisplayRow :=
  let kind := RowDenial (ad_key entry) in
  let style := theme.recency (denial_age_ns m entry) in
  let style := if bool_decide (selected_target = Some (target entry)) && bool_decide (selected ≠ Some kind)
               then patch style theme.related else style in
  let style := selected_style kind selected style in
  let '(text, continuation_indent) :=
    denial_row_text (ad_occurrence_count entry) (visibility (ad_logged entry)).1 (target entry) in
  mkDisplayRow kind text style (Some continuation_indent).

(** The heading of a group of blockers and its entries. *)
Definition group_rows (m : ObservationModel) (selected : option RowKind) (selected_target : option text)
    (group : text * list AggregatedDenial) : list DisplayRow :=
  heading_row (lit "  " ++ group.1) theme.heading ::
  (denial_row m selected selected_target <$> sort_by by_count group.2).

Definition domain_heading (m : ObservationModel) (selected : option RowKind) (id : DomainId) : DisplayRow :=
  let creator := d ← domain (model_state m) id; creator d in
  mkDisplayRow (RowDenialDomain id)
    (lit "Domain " ++ lit (display_id id) ++ lit " (" ++ default (lit "?") creator ++ lit ")")
    (selected_style (RowDenialDomain id) selected (add_modifier BOLD theme.observed)) None.

Definition denial_domain_rows (m : ObservationModel) (selected : option RowKind) (selected_target : option text)
    (entry : DomainId * list AggregatedDenial) : list DisplayRow :=
  domain_heading m selected entry.1 ::
  (sort_by by_maximum (map_to_list (group_by blockers entry.2)) ≫= group_rows m selected selected_target).

Definition denial_rows (m : ObservationModel) (selected : option RowKind) : list DisplayRow :=
  let domains := sort_by by_total
    (map_to_list (group_by (λ d, key_domain_id (ad_key d)) (iter (agg_entries (model_denials m))).*2)) in
  let selected_target := match selected with
                         | Some (RowDenial key) => target <$> model_denial m key
                         | _ => None
                         end in
  foldl (λ rows entry,
           rows ++ (match rows with [] => [] | _ => [heading_row [] theme.normal] end) ++
           denial_domain_rows m selected selected_target entry) [] domains.

Definition by_creation (a b : RulesetState) : comparison :=
  then_with (option_cmp (as_nanoseconds <$> rs_creation_timestamp b) (as_nanoseconds <$> rs_creation_timestamp a))
    (id_get (rs_id a) ?= id_get (rs_id b)).

Definition ruleset_row (selected : option RowKind) (r : RulesetState) : DisplayRow :=
  mkDisplayRow (RowRuleset (rs_id r))
    (lit (display_ruleset_version (mkRulesetVersion (rs_id r) (rs_max_observed_version r)) +:+ "  rules=" +:+
          dec (saturating_add usize_max (filesystem_rule_count r) (network_rule_count r)) +:+ "  ") ++
     lifecycle (rs_lifecycle r))
    (selected_style (RowRuleset (rs_id r)) selected (lifecycle_style (rs_lifecycle r))) None.

Definition ruleset_rows (m : ObservationModel) (selected : option RowKind) : list DisplayRow :=
  ruleset_row selected <$> sort_by by_creation (map_to_list (rulesets (model_state m))).*2.
End rows.
