(* ===== verification/UiDraw.v ===== *)
(** * Drawing (lltop/src/tui/ui.rs)

    The fields of the detail pane, the statistics, the wrapping of the list
    into the lines of the viewport, and [draw]. A widget is what [draw] gives to
    [render_widget], without the borders and fixed titles of the panes. *)

From S2P Require Import Prelude Lattice CapturedBytes Event State Aggregate Text Utf8 Display TuiFormat Batch Model Ui UiRows.

Section draw.
Context `{Unicode} `{Ratatui}.
Variable iter : gmap DenialKey AggregatedDenial → list Entry.
Variable iter_state : gmap DomainId DomainState → list DomainState.
Variable iter_known : gmap DomainId DomainState → list (DomainId * DomainState).

(** [wrap] always returns. *)
Definition wrapped (s : text) (first continuation : N) : list text :=
  default [] (wrap display_width s first continuation).

(** ** The detail pane *)

(** Label, value and style of the value. *)
Definition Field : Type := text * text * Style.

Definition field (label : string) (value : text) (style : Style) : Field := (lit label, value, style).

Definition no_new_privs_field (d : DomainState) : Field :=
  match ds_lifecycle d, no_new_privs d with
  | _, None => field "no_new_privs: " (lit "unknown") theme.unknown
  | _, Some true =>
      field "no_new_privs: " (lit "set for all latest observed enforcing TIDs") theme.observed
  | Allocated, Some false =>
      field "no_new_privs: " (lit "WARNING: missing no_new_privs means privilege gain is possible") theme.hot
  | _, Some false =>
      field "no_new_privs: "
        (lit "historical observation: missing no_new_privs; privilege gain was possible") theme.tombstone
  end.

Definition domain_fields (id : DomainId) (d : DomainState) : list Field :=
  [field "Domain: " (lit (display_id id)) theme.normal;
   field "Status: " (lifecycle (ds_lifecycle d)) (lifecycle_style (ds_lifecycle d));
   field "Parent: " (match ds_parent d with
                     | None => lit "?"
                     | Some Root => lit "0"
                     | Some (ParentDomain id) => lit (display_id id)
                     end) theme.normal;
   field "Ruleset: " (match ds_ruleset d with
                      | None => lit "?"
                      | Some v => lit (display_ruleset_version v)
                      end) theme.normal;
   field "Created: " (format_timestamp (ds_creation_timestamp d)) theme.normal;
   field "Observed enforcing TIDs: " (lit (dec (enforcement_event_count d))) theme.normal;
   no_new_privs_field d] ++
  (if domain_ruleset d then [field "" (lit "[Enter] View ruleset") theme.unknown] else []).

Definition denial_detail_fields (key : DenialKey) (entry : AggregatedDenial) : list Field :=
  [field "Domain: " (lit (display_id (key_domain_id key))) theme.normal;
   field "Blocked: " (blockers entry) theme.normal;
   field "Target: " (target entry) theme.normal] ++
  (match ad_latest_event entry with
   | DenyScopeAbstractUnixSocket e =>
       [field "Latest peer PID: " (match dau_peer_pid e with
                                   | None => lit "unknown"
                                   | Some pid => lit (dec (pid_get pid))
                                   end) theme.normal]
   | _ => []
   end) ++
  [field "Count: " (lit (dec (ad_occurrence_count entry))) theme.normal;
   field "First seen: " (lit (dec (as_nanoseconds (ad_first_timestamp entry)) +:+ "ns")) theme.normal;
   field "Latest seen: " (lit (dec (as_nanoseconds (ad_latest_timestamp entry)) +:+ "ns")) theme.normal;
   field "same_exec: " (lit (if ad_same_exec entry then "true" else "false")) theme.normal;
   field "Logged: " (let '(marker, label) := visibility (ad_logged entry) in marker ++ lit " " ++ label)
     (if ad_logged entry then theme.observed else theme.trace_only)].

(** Groups of objects by their rights, both in the order of their texts. *)
Definition sorted_groups {A} (groups : gmap text (list A)) : list (text * list A) :=
  sort_by (λ a b, text_cmp a.1 b.1) (map_to_list groups).

(** The value of an optional mask. *)
Definition rights_or_unknown {M} `{AccessType M} (value : option M) : text :=
  match value with None => lit "?" | Some v => rights v end.

Definition filesystem_fields (r : RulesetState) : list Field :=
  sorted_groups (group_by (λ rule, rights (fr_access_rights rule)) (map_to_list (rs_filesystem_rules r)).*2) ≫=
  λ '(allowed, rules),
    field "FS: " allowed theme.heading ::
    ((λ object, field "    " object theme.normal) <$>
     sort_by text_cmp ((λ rule, display (fr_pathname rule)) <$> rules)).

Definition network_fields (r : RulesetState) : list Field :=
  sorted_groups (group_by (λ rule, rights (nr_access_rights rule)) (map_to_list (rs_network_rules r)).*2) ≫=
  λ '(allowed, rules),
    field "Net: " allowed theme.heading ::
    ((λ port, field "    " (lit ("port " +:+ dec port)) theme.normal) <$>
     sort_by N.compare (nr_port <$> rules)).

Definition ruleset_fields (id : RulesetId) (r : RulesetState) : list Field :=
  [field "Ruleset: " (lit (display_ruleset_version (mkRulesetVersion id (rs_max_observed_version r)))) theme.normal;
   field "Status: " (lifecycle (rs_lifecycle r)) (lifecycle_style (rs_lifecycle r));
   field "Handled FS: " (rights_or_unknown (rs_handled_fs r)) theme.normal;
   field "Handled Net: " (rights_or_unknown (rs_handled_net r)) theme.normal;
   field "Scoped: " (rights_or_unknown (rs_scoped r)) theme.normal] ++
  filesystem_fields r ++ network_fields r.

Definition detail_fields (a : App) (m : ObservationModel) : list Field :=
  match selected a with
  | Some (RowDomain id) | Some (RowDenialDomain id) =>
      match domain (model_state m) id with Some d => domain_fields id d | None => [] end
  | Some (RowDenial key) =>
      match model_denial m key with Some entry => denial_detail_fields key entry | None => [] end
  | Some (RowRuleset id) =>
      match ruleset (model_state m) id with Some r => ruleset_fields id r | None => [] end
  | _ => []
  end.

(** A [Line]: its spans with their styles. *)
Definition Line : Type := list (text * Style).

Definition field_lines (width : N) (f : Field) : list Line :=
  let '(label, value, style) := f in
  let indent := N.min (saturating_add usize_max (len label) 4) (saturating_sub width 1) in
  imap (λ index part,
          if decide (index = 0%nat) then [(label, theme.heading); (part, style)]
          else [(spaces indent ++ part, style)])
    (wrapped value (saturating_sub width (len label)) (saturating_sub width indent)).

Definition detail_lines (a : App) (m : ObservationModel) (width : N) : list Line :=
  match detail_fields a m with
  | [] => [[(lit "Selection no longer retained", theme.unknown)]]
  | fields => fields ≫= field_lines width
  end.

(** ** The status line and the statistics *)

Definition missing_no_new_privs (m : ObservationModel) : bool :=
  existsb (λ kv : DomainId * DomainState,
             bool_decide (ds_lifecycle kv.2 = Allocated) && bool_decide (no_new_privs kv.2 = Some false))
    (map_to_list (domains (model_state m))).

Definition status_line (a : App) (m : ObservationModel) : text :=
  lit (" " +:+ dec (domain_count (model_state m)) +:+ " domains (" +:+ dec (Model.allocated_domains m) +:+
       " allocated) | " +:+ dec (stats_total (model_stats m)) +:+ " denials" +:+
       (if paused a then " | PAUSED" else "") +:+
       (if missing_no_new_privs m then " | WARNING: missing no_new_privs means privilege gain is possible" else "")) ++
  match collector_warning a with
  | None => []
  | Some warning => lit " | COLLECTOR WARNING: " ++ warning
  end.

(** A span without a style. *)
Definition raw_span (s : string) : text * Style := (lit s, style_new).

Definition stats_lines (m : ObservationModel) : list Line :=
  [[(lit "Observed denials: ", theme.heading); raw_span (dec (stats_total (model_stats m)))]] ++
  ((λ '(label, kind), [raw_span ("  " +:+ label +:+ ": " +:+ dec (counter kind (by_kind (model_stats m))))]) <$>
   zip ["Filesystem"; "Network"; "Ptrace"; "Signal"; "Abstract Unix"] ALL) ++
  [[];
   [raw_span ("Domains: " +:+ dec (Model.allocated_domains m) +:+ " allocated / " +:+
         dec (domain_count (model_state m)) +:+ " observed")];
   [raw_span ("Rulesets: " +:+ dec (allocated_rulesets m) +:+ " allocated / " +:+
         dec (ruleset_count (model_state m)) +:+ " observed")];
   [raw_span ("Latest event: " +:+ dec (as_nanoseconds (latest_seen m)) +:+ "ns")]].

Definition footer_line : Line :=
  [(lit " q/Esc", theme.heading); raw_span " quit/close  "; (lit "1-4/Tab", theme.heading); raw_span " tabs  ";
   (lit "↑↓", theme.heading); raw_span " select  "; (lit "p", theme.heading); raw_span " pause  ";
   (lit "Enter", theme.heading); raw_span " follow"].

(** ** The list *)

(** [chars().take_while(|c| *c == ' ').count()]. *)
Fixpoint leading_spaces (s : text) : N :=
  match s with
  | c :: s => if c =? SPACE then 1 + leading_spaces s else 0
  | [] => 0
  end.

(** The lines of one row: the first as it is, the others indented. *)
Definition wrap_row (content_width : N) (row : DisplayRow) : list DisplayRow :=
  let continuation :=
    N.min (default (saturating_add usize_max (leading_spaces (row_text row)) 4) (row_continuation_indent row))
      (saturating_sub content_width 1) in
  imap (λ index line,
          mkDisplayRow (row_kind row) (if decide (index = 0%nat) then line else spaces continuation ++ line)
            (row_style row) (row_continuation_indent row))
    (wrapped (row_text row) content_width (saturating_sub content_width continuation)).

Inductive Widget :=
| TabsWidget (titles : list string) (index : N) (status : text)
| ListWidget (title : text) (lines : list (text * Style))
| ScrollbarWidget (content_length position viewport : N)
| DetailWidget (lines : list Line)
| StatsWidget (lines : list Line)
| FooterWidget (line : Line).

Definition with_hit (h : HitMap) (a : App) : App :=
  mkApp (tab a) (paused a) (collector_warning a) (selected a) (detail a) (scroll a) (follow_selection a)
    (dragging_scrollbar a) h.

Definition draw_list (area : Rect) (a : App) (rows : list DisplayRow) : App * list (Widget * Rect) :=
  let content_width := saturating_sub (rect_width area) 2 in
  let rows := rows ≫= wrap_row content_width in
  let visible := saturating_sub (rect_height area) 2 in
  let selected_index := kind ← selected a; position (λ row, bool_decide (row_kind row = kind)) rows in
  let a := adjust_viewport (len rows) visible selected_index a in
  let a := with_hit (mkHitMap (hit_tabs (hit a)) area (row_kind <$> rows) 1) a in
  let lines := take (N.to_nat visible) (drop (N.to_nat (scroll a)) rows) in
  (a,
   (ListWidget (lit (" " +:+ title (tab a) +:+ " ")) ((λ row, (row_text row, row_style row)) <$> lines), area) ::
   (if visible <? len rows then [(ScrollbarWidget (len rows) (scroll a) visible, area)] else [])).

Definition rows_of (a : App) (m : ObservationModel) : list DisplayRow :=
  match tab a with
  | Domains => domain_rows iter_state iter_known m (selected a)
  | Denials => denial_rows iter m (selected a)
  | Rulesets => ruleset_rows m (selected a)
  | TabStats => []
  end.

Definition draw (frame_area : Rect) (a : App) (m : ObservationModel) : App * list (Widget * Rect) :=
  let '(tabs_area, main_area, footer_area) :=
    default (rect_default, rect_default, rect_default) (vertical_areas (split_vertical frame_area)) in
  let a := with_hit (mkHitMap tabs_area (hit_list (hit a)) (hit_rows (hit a)) (hit_header_rows (hit a))) a in
  let tabs := (TabsWidget (title <$> ALL_TABS) (tab_index (tab a)) (status_line a m), tabs_area) in
  let panes := if detail a && bool_decide (tab a ≠ TabStats) then split_horizontal main_area else [main_area] in
  let '(list_area, detail_area) := default (rect_default, None) (pane_areas panes) in
  let rows := rows_of a m in
  let '(a, widgets) :=
    if decide (tab a = TabStats)
    then (with_hit (mkHitMap tabs_area rect_default [] 0) a, [(StatsWidget (stats_lines m), list_area)])
    else
      let '(a, widgets) := draw_list list_area a rows in
      (a, widgets ++ match detail_area with
                     | Some area => [(DetailWidget (detail_lines a m (saturating_sub (rect_width area) 2)), area)]
                     | None => []
                     end) in
  (a, tabs :: widgets ++ [(FooterWidget footer_line, footer_area)]).
End draw.
