(* ===== verification/Errors.v ===== *)
(** * Texts and causes of the errors (src/event, src/wire.rs, src/collector.rs,
      src/privilege.rs, src/aggregate.rs)

    [Display] and [Error::source] of the errors of the library. The texts of
    the errors of libbpf, of the standard library and of the kernel are
    parameters. *)

From S2P Require Import Prelude CapturedBytes Event Wire Aggregate Text Display Collector Privilege Prepare.

(** ** Identities and configuration *)

Definition display_invalid_id (e : InvalidLandlockIdError) : string :=
  "invalid Landlock ID " +:+ dec (invalid_id_value e) +:+ ", expected at least " +:+ dec MIN_LANDLOCK_ID.

Definition display_invalid_task_id (e : InvalidTaskIdError) : string :=
  "invalid Linux task ID " +:+ dec (invalid_task_value e) +:+ ", expected a nonzero value".

Definition display_config_error (e : CollectorConfigError) : string :=
  "collector event capacity " +:+ dec (cce_configured e) +:+ " is outside the supported range " +:+
  dec MIN_EVENT_CAPACITY +:+ "..=" +:+ dec MAX_EVENT_CAPACITY.

Definition display_build_error {Failure} (display_failure : Failure → string)
    (e : DenialAggregatorBuildError Failure) : string :=
  match be_source e with
  | Some source =>
      "failed to reserve denial aggregation capacity " +:+ dec (be_configured e) +:+ ": " +:+ display_failure source
  | None => "denial aggregation capacity must be nonzero"
  end.

(** ** Decoding and receiving *)

Definition display_decode_error (e : DecodeError) : string :=
  match e with
  | Length expected actual => "invalid event record length " +:+ dec actual +:+ ", expected " +:+ dec expected
  | Boolean field value => "invalid boolean " +:+ field +:+ ": " +:+ dec value
  | CapturedBytesInvalid field source =>
      "invalid captured bytes for " +:+ field +:+ ": " +:+ display_captured_error source
  | AbstractUnixSocketNameLength value maximum =>
      "invalid abstract UNIX socket name length " +:+ dec value +:+ ", maximum is " +:+ dec maximum
  | Id field value => "invalid Landlock ID " +:+ field +:+ ": " +:+ dec value
  | TaskId field => "invalid task ID " +:+ field +:+ ": 0"
  | EventKind value => "unrecognized event kind " +:+ dec value
  | Field field => "invalid field " +:+ field
  end.

Definition decode_error_source (e : DecodeError) : option CapturedBytesError :=
  match e with
  | CapturedBytesInvalid _ source => Some source
  | _ => None
  end.

Definition receive_description (kind : CollectorReceiveErrorKind) : string :=
  match kind with
  | MalformedSample => "decode BPF event sample"
  | OutputQueueFull => "deliver entries through the full output queue"
  | PollFailure => "poll BPF ring buffer"
  | WorkerPanic => "receive from collector worker"
  | WorkerStop => "receive from the stopped collector worker"
  end.

Definition display_worker_panic (p : CollectorWorkerPanic) : string :=
  match panic_message p with
  | Some message => "collector worker panicked: " +:+ message
  | None => "collector worker panicked with an opaque payload"
  end.

Section errors.
Context {BpfError : Type} (display_bpf : BpfError → string).

Definition display_detail (d : ErrorDetail (BpfError := BpfError)) : string :=
  match d with
  | SourceDecode e => display_decode_error e
  | SourceBpf e => display_bpf e
  | SourcePanic p => display_worker_panic p
  | Static detail => detail
  end.

(** [ErrorDetail::source]: the boxed error, if there is one. *)
Definition detail_source (d : ErrorDetail (BpfError := BpfError)) : option (ErrorDetail (BpfError := BpfError)) :=
  match d with
  | Static _ => None
  | source => Some source
  end.

Definition receive_error_source (e : CollectorReceiveError (BpfError := BpfError)) :
    option (ErrorDetail (BpfError := BpfError)) :=
  detail_source (error_detail e).

Definition display_receive_error (e : CollectorReceiveError (BpfError := BpfError)) : string :=
  "failed to " +:+ receive_description (error_kind_of e) +:+ ": " +:+ display_detail (error_detail e).

Definition display_try_receive (e : TryReceiveError (BpfError := BpfError)) : string :=
  match e with
  | TryEmpty => "collector output queue is empty"
  | TryCollector error => display_receive_error error
  end.

Definition try_receive_source (e : TryReceiveError (BpfError := BpfError)) :
    option (CollectorReceiveError (BpfError := BpfError)) :=
  match e with
  | TryEmpty => None
  | TryCollector error => Some error
  end.

Definition display_receive_timeout (e : ReceiveTimeoutError (BpfError := BpfError)) : string :=
  match e with
  | Timeout => "timed out waiting for collector output"
  | TimeoutCollector error => display_receive_error error
  end.

Definition receive_timeout_source (e : ReceiveTimeoutError (BpfError := BpfError)) :
    option (CollectorReceiveError (BpfError := BpfError)) :=
  match e with
  | Timeout => None
  | TimeoutCollector error => Some error
  end.
End errors.

(** ** Privileges and preparation *)

Section prepare_errors.
Context {BpfError IoError Errno : Type}.
Context (display_bpf : BpfError → string) (display_io : IoError → string) (display_errno : Errno → string).

Definition display_privilege_error (e : PrivilegeError IoError Errno) : string :=
  "failed to manage collector privileges: " +:+
  match pe_detail e with
  | Message message => message
  | IoDetail operation source => operation +:+ ": " +:+ display_io source
  | ErrnoDetail operation source => operation +:+ ": " +:+ display_errno source
  end.

Definition privilege_error_source (e : PrivilegeError IoError Errno) : option (IoError + Errno) :=
  match pe_detail e with
  | Message _ => None
  | IoDetail _ source => Some (inl source)
  | ErrnoDetail _ source => Some (inr source)
  end.

Definition prepare_description (kind : CollectorPrepareErrorKind) : string :=
  match kind with
  | UnsupportedKernel => "load a supported Landlock tracing interface"
  | Open => "open embedded BPF object"
  | Load => "load BPF object"
  | Attach => "attach BPF programs"
  | RingSetup => "set up BPF ring buffer"
  | PrivilegeKind => "finalize collector privileges"
  end.

Definition display_prepare_source (s : PrepareSource BpfError IoError Errno) : string :=
  match s with
  | FromBpf error => display_bpf error
  | FromPrivilege error => display_privilege_error error
  | NoEventsMap => "embedded BPF object has no events map"
  end.

(** Every source is an error of its own. *)
Definition prepare_error_source (e : CollectorPrepareError BpfError IoError Errno) :
    option (PrepareSource BpfError IoError Errno) :=
  Some (cpe_source e).

Definition display_prepare_error (e : CollectorPrepareError BpfError IoError Errno) : string :=
  "failed to " +:+ prepare_description (cpe_kind e) +:+ ": " +:+ display_prepare_source (cpe_source e).
End prepare_errors.
