(* ===== verification/Main.v ===== *)
(** * The program lltop (lltop/src/main.rs)

    [run] minimizes the credentials, reads its arguments, prepares the
    collector, starts the worker, runs one of the two modes and joins the
    worker. What a mode returns, how the worker's thread ends and whether it
    could be started are arguments. [run] records the world in which the mode ran.
    [run_batch] runs over the answers that successive receives return, and is
    [None] when they end before the loop does; the two output streams are
    parameters. *)

From S2P Require Import Prelude CapturedBytes Event State Aggregate Collector Privilege Prepare Text Batch Errors.

Definition READY_SIGNAL : string := "LLTOP_READY".

Inductive Mode := BatchMode | Interactive.

(** Arguments are byte strings; the program name is shown lossily by
    [to_string_lossy]. *)
Definition parse_mode (to_string_lossy : list byte → string) (args : list (list byte)) : result Mode string :=
  let program := default [] (head args) in
  match tail args with
  | [] => Ok Interactive
  | [argument] =>
      if decide (argument = bytes_of_string "--batch") then Ok BatchMode
      else Err ("usage: " +:+ to_string_lossy program +:+ " [--batch]")
  | _ => Err ("usage: " +:+ to_string_lossy program +:+ " [--batch]")
  end.

(** ** Batch mode *)

Section run_batch.
Context {O IoError BpfError : Type} (display_bpf : BpfError → string).
Context (write_line : string → O → O * result unit IoError) (flush : O → O * result unit IoError).
Variable iter : gmap DenialKey AggregatedDenial → list Entry.

(** [writeln!(..)?; flush()]. *)
Definition write_flushed (line : string) (output : O) : O * result unit IoError :=
  match write_line line output with
  | (output, Ok _) => flush output
  | (output, Err e) => (output, Err e)
  end.

Definition write_diagnostic (prefix error : string) (output : O) : O * result unit IoError :=
  write_flushed ("lltop: " +:+ prefix +:+ error) output.

Inductive BatchError :=
| BatchIo (error : IoError)
| BatchCollector (error : CollectorReceiveError (BpfError := BpfError)).

(** The standard output and error streams, and why the loop ended. *)
Record BatchEnd := mkBatchEnd { end_stdout : O; end_stderr : O; end_error : BatchError }.

Notation Answer := (result Event (ReceiveTimeoutError (BpfError := BpfError))).

Fixpoint batch_loop (answers : list Answer) (b : Batch) (stdout stderr : O) : option BatchEnd :=
  match answers with
  | [] => None
  | Ok event :: answers =>
      match process_and_write iter write_line flush b event stdout with
      | (b, stdout, Ok _) => batch_loop answers b stdout stderr
      | (b, stdout, Err e) => Some (mkBatchEnd stdout stderr (BatchIo e))
      end
  | Err Timeout :: answers => batch_loop answers b stdout stderr
  | Err (TimeoutCollector error) :: answers =>
      match error_kind_of error with
      | OutputQueueFull | MalformedSample =>
          match write_diagnostic "warning: " (display_receive_error display_bpf error) stderr with
          | (stderr, Ok _) => batch_loop answers b stdout stderr
          | (stderr, Err e) => Some (mkBatchEnd stdout stderr (BatchIo e))
          end
      | PollFailure | WorkerPanic | WorkerStop => Some (mkBatchEnd stdout stderr (BatchCollector error))
      end
  end.

Definition run_batch (answers : list Answer) (stdout stderr : O) : option BatchEnd :=
  match write_flushed READY_SIGNAL stderr with
  | (stderr, Ok _) => batch_loop answers batch_new stdout stderr
  | (stderr, Err e) => Some (mkBatchEnd stdout stderr (BatchIo e))
  end.
End run_batch.

(** ** The result of a run *)

Inductive ExecutionError (E F : Type) :=
| Primary (error : E)
| Worker (error : F)
| ExecutionAndWorkerError (primary : E) (worker : F).
Arguments Primary {E F} _.
Arguments Worker {E F} _.
Arguments ExecutionAndWorkerError {E F} _ _.

(** The payload of the panic is forgotten, not dropped. *)
Definition join_worker (joined : result unit PanicPayload) : result unit string :=
  map_err (λ _, "collector worker thread panicked") joined.

Definition combine_execution_and_worker_results {E F : Type} (primary : result unit E) (worker : result unit F) :
    result unit (ExecutionError E F) :=
  match primary, worker with
  | Ok _, Ok _ => Ok ()
  | Err primary, Ok _ => Err (Primary primary)
  | Ok _, Err worker => Err (Worker worker)
  | Err primary, Err worker => Err (ExecutionAndWorkerError primary worker)
  end.

Definition display_execution_error {E F} (display_e : E → string) (display_f : F → string)
    (e : ExecutionError E F) : string :=
  match e with
  | Primary error => display_e error
  | Worker error => display_f error
  | ExecutionAndWorkerError primary worker =>
      "primary execution failure: " +:+ display_e primary +:+ "; additional worker shutdown/join failure: " +:+
      display_f worker
  end.

(** [Error::source]: one failure has its own cause, of two the primary one is
    the cause. *)
Definition execution_error_source {E F X} (source_e : E → option X) (source_f : F → option X) (as_cause : E → X)
    (e : ExecutionError E F) : option X :=
  match e with
  | Primary error => source_e error
  | Worker error => source_f error
  | ExecutionAndWorkerError primary _ => Some (as_cause primary)
  end.

(** ** [run] *)

Section run.
Context {W B BpfError IoError Errno E : Type} `{Libbpf W B BpfError} `{Kernel W IoError Errno}.
Context (to_string_lossy : list byte → string).

Inductive RunError :=
| RunPrivilege (error : PrivilegeError IoError Errno)
| RunUsage (usage : string)
| RunPrepare (error : CollectorPrepareError BpfError IoError Errno)
| RunSpawn (error : IoError)
| RunExecution (error : ExecutionError E string).

(** The mode that ran, and the credentials and the BPF resources it ran with. *)
Definition Executed : Type := option (Mode * W * B).

(** The thread of the worker owns the resources: they are dropped when it ends,
    also by a panic, or when the thread could not be started and the closure is
    dropped. Joining waits for that end. *)
Definition worker_ends (prepared : Prepared (W := W) (B := B)) (b : B) : B :=
  drop_resources (prepared_resources prepared) b.

(** After the credentials were minimized; the policy is dropped by [run]. *)
Definition run_minimized (args : list (list byte)) (spawned : result unit IoError)
    (execute : Mode → W → result unit E) (joined : result unit PanicPayload) (policy : Policy) (w : W) (b : B) :
    W * B * Policy * Executed * result unit RunError :=
  match parse_mode to_string_lossy args with
  | Err usage => (w, b, policy, None, Err (RunUsage usage))
  | Ok mode =>
      match prepare (mkCollectorConfig DEFAULT_EVENT_CAPACITY) policy w b with
      | (w, b, policy, Err e) => (w, b, policy, None, Err (RunPrepare e))
      | (w, b, policy, Ok prepared) =>
          match spawned with
          | Err e => (w, worker_ends prepared b, policy, None, Err (RunSpawn e))
          | Ok _ =>
              let result := execute mode w in
              let executed := Some (mode, w, b) in
              let b := worker_ends prepared b in
              (w, b, policy, executed,
               map_err RunExecution (combine_execution_and_worker_results result (join_worker joined)))
          end
      end
  end.

Definition run (args : list (list byte)) (spawned : result unit IoError)
    (execute : Mode → W → result unit E) (joined : result unit PanicPayload) (w : W) (b : B) :
    outcome (W * B * Executed * result unit RunError) :=
  match minimize w with
  | Aborts => Aborts
  | Continues (w, Err e) => Continues (w, b, None, Err (RunPrivilege e))
  | Continues (w, Ok policy) =>
      let '(w, b, policy, executed, r) := run_minimized args spawned execute joined policy w b in
      match drop_policy policy w with
      | Aborts => Aborts
      | Continues w => Continues (w, b, executed, r)
      end
  end.
End run.

(** ** [main] *)

Section main.
Context {W B O BpfError IoError Errno E : Type} `{Libbpf W B BpfError} `{Kernel W IoError Errno}.
Context (to_string_lossy : list byte → string).
Context (display_bpf : BpfError → string) (display_io : IoError → string) (display_errno : Errno → string).
Context (display_e : E → string).
Context (write_line : string → O → O * result unit IoError) (flush : O → O * result unit IoError).

(** [io::Error::other] shows the text it was made from. *)
Definition display_run_error (e : RunError (BpfError := BpfError) (Errno := Errno) (E := E)) : string :=
  match e with
  | RunPrivilege error => display_privilege_error display_io display_errno error
  | RunUsage usage => usage
  | RunPrepare error => display_prepare_error display_bpf display_io display_errno error
  | RunSpawn error => display_io error
  | RunExecution error => display_execution_error display_e (λ text, text) error
  end.

(** The world, the error stream and the exit status; the result of writing the
    diagnostic is ignored. *)
Definition main (args : list (list byte)) (spawned : result unit IoError)
    (execute : Mode → W → result unit E) (joined : result unit PanicPayload) (w : W) (b : B) (stderr : O) :
    outcome (W * B * O * N) :=
  match run to_string_lossy args spawned execute joined w b with
  | Aborts => Aborts
  | Continues (w, b, _, Ok _) => Continues (w, b, stderr, 0)
  | Continues (w, b, _, Err error) =>
      Continues (w, b, (write_diagnostic write_line flush "" (display_run_error error) stderr).1, 1)
  end.
End main.
