(* ===== verification/MainSpec.v ===== *)
(** * What a run of lltop guarantees (lltop/src/main.rs) *)

From S2P Require Import Prelude CapturedBytes Event State Aggregate AggregateSpec Collector Privilege PrivilegeSpec Prepare PrepareSpec Text Batch BatchCount Errors Main.

(** ** Batch mode *)

Lemma process_all_from iter b lines events :
  foldl (λ acc event, let '(b, l) := process iter acc.1 event in (b, acc.2 ++ l)) (b, lines) events =
  ((process_all iter b events).1, lines ++ (process_all iter b events).2).
Proof.
  unfold process_all. revert b lines. induction events as [|event events IH]; intros b lines; simpl; [by rewrite app_nil_r|].
  destruct (process iter b event) as [b' l]. rewrite IH, (IH b' l). simpl. by rewrite app_assoc.
Qed.

Lemma process_all_cons iter b event events :
  process_all iter b (event :: events) =
  ((process_all iter (process iter b event).1 events).1,
   (process iter b event).2 ++ (process_all iter (process iter b event).1 events).2).
Proof.
  unfold process_all at 1. simpl. destruct (process iter b event) as [b' l]. apply process_all_from.
Qed.

(** Streams that accept everything, as the lines written to them. *)
Definition write_all_lines (line : string) (output : list string) : list string * result unit Empty_set :=
  (output ++ [line], Ok ()).
Definition flush_lines (output : list string) : list string * result unit Empty_set := (output, Ok ()).

Lemma process_and_write_lines iter b event output :
  process_and_write iter write_all_lines flush_lines b event output =
  ((process iter b event).1, output ++ (process iter b event).2, Ok ()).
Proof.
  unfold process_and_write. destruct (process iter b event) as [b' records]. simpl.
  assert (∀ l o, (fix write_all (records : list string) (output : list string) : list string * result unit Empty_set :=
    match records with
    | [] => flush_lines output
    | record :: rest =>
        match write_all_lines record output with
        | (output, Ok _) => write_all rest output
        | (output, Err e) => (output, Err e)
        end
    end) l o = (o ++ l, Ok ())) as Hw.
  { induction l as [|x l IH]; intros o; simpl; [by rewrite app_nil_r|]. rewrite IH. by rewrite <- app_assoc. }
  destruct records as [|x l]; [by rewrite app_nil_r|]. rewrite Hw. by rewrite <- app_assoc.
Qed.

Section batch.
Context {BpfError : Type} (display_bpf : BpfError → string).
Variable iter : gmap DenialKey AggregatedDenial → list Entry.

Notation Answer := (result Event (ReceiveTimeoutError (BpfError := BpfError))).

(** The collector's failures after which there is nothing more to receive. *)
Definition terminal_kind (kind : CollectorReceiveErrorKind) : bool :=
  match kind with
  | PollFailure | WorkerPanic | WorkerStop => true
  | OutputQueueFull | MalformedSample => false
  end.

Definition goes_on (answer : Answer) : bool :=
  match answer with
  | Err (TimeoutCollector e) => negb (terminal_kind (error_kind_of e))
  | _ => true
  end.

Definition warning_of (answer : Answer) : option string :=
  match answer with
  | Err (TimeoutCollector e) => Some ("lltop: warning: " +:+ display_receive_error display_bpf e)
  | _ => None
  end.

Lemma batch_loop_lines before e rest b stdout stderr :
  Forall (λ x, goes_on x = true) before → terminal_kind (error_kind_of e) = true →
  batch_loop display_bpf write_all_lines flush_lines iter (before ++ Err (TimeoutCollector e) :: rest) b stdout stderr =
  Some (mkBatchEnd (stdout ++ (process_all iter b (omap ok before)).2) (stderr ++ omap warning_of before)
          (BatchCollector e)).
Proof.
  intros Hb He. revert b stdout stderr. induction Hb as [|answer before Ha Hb IH]; intros b stdout stderr.
  { simpl. rewrite !app_nil_r. by destruct (error_kind_of e). }
  change ((answer :: before) ++ Err (TimeoutCollector e) :: rest)
    with (answer :: (before ++ Err (TimeoutCollector e) :: rest)).
  destruct answer as [event|[|error]]; cbn [batch_loop].
  - rewrite process_and_write_lines, IH. csimpl. rewrite process_all_cons. simpl. by rewrite <- app_assoc.
  - by rewrite IH.
  - assert (∀ b stdout stderr,
      batch_loop display_bpf write_all_lines flush_lines iter (before ++ Err (TimeoutCollector e) :: rest) b stdout
        (stderr ++ ["lltop: warning: " +:+ display_receive_error display_bpf error]) =
      Some (mkBatchEnd (stdout ++ (process_all iter b (omap ok before)).2)
        (stderr ++ omap warning_of (Err (TimeoutCollector error) :: before)) (BatchCollector e))) as Hw.
    { intros. rewrite IH. csimpl. by rewrite <- app_assoc. }
    unfold goes_on in Ha. destruct (error_kind_of error); try done; apply Hw.
Qed.

(** In batch mode the output is the lines of [process] for the received
    events, in order and nothing else; the error stream has the ready signal,
    then one warning per omission or malformed sample; and the run ends at the
    first failure after which there is nothing more to receive, with that
    failure. *)
Theorem run_batch_output before e rest :
  Forall (λ x, goes_on x = true) before → terminal_kind (error_kind_of e) = true →
  run_batch display_bpf write_all_lines flush_lines iter (before ++ Err (TimeoutCollector e) :: rest) [] [] =
  Some (mkBatchEnd (process_all iter batch_new (omap ok before)).2 (READY_SIGNAL :: omap warning_of before)
          (BatchCollector e)).
Proof. intros Hb He. exact (batch_loop_lines before e rest batch_new [] [READY_SIGNAL] Hb He). Qed.
End batch.

(** ** The whole run *)

Section run.
Context {W B BpfError IoError Errno E : Type}.
Context `{LibbpfLaws W B BpfError} `{KernelLaws W IoError Errno}.
Context (to_string_lossy : list byte → string).

End run.

(** ** Concrete runs *)

Section samples.
Import Sim SimBpf.



Lemma run_batch_output_witness :
  run_batch (λ _ : unit, EmptyString) write_all_lines flush_lines map_to_list
    [Ok (sample_denial 80 1); Err (TimeoutCollector output_queue_full); Err Timeout;
     Err (TimeoutCollector worker_stop)] [] [] =
  Some (mkBatchEnd (process_all map_to_list batch_new [sample_denial 80 1]).2
          [READY_SIGNAL;
           "lltop: warning: failed to deliver entries through the full output queue: one or more delivery entries were omitted"]
          (BatchCollector worker_stop)).
Proof.
  exact (run_batch_output (λ _ : unit, EmptyString) map_to_list
    [Ok (sample_denial 80 1); Err (TimeoutCollector output_queue_full); Err Timeout] worker_stop []
    ltac:(repeat constructor) eq_refl).
Defined.
End samples.
