(* ===== verification/Terminal.v ===== *)
(** * The terminal session (lltop/src/tui/terminal.rs)

    [enter] acquires three terminal modes, remembering each for [Drop] before it
    can fail after having had an effect. The crossterm library is a class of
    operations on the terminal with laws: an operation touches its own mode
    only, and one that succeeds has its effect; one that fails may have had it,
    except that a failed [enable_raw_mode] leaves the mode off. *)

From S2P Require Import Prelude.

Record Modes := mkModes { raw_mode : bool; alternate_screen : bool; mouse_capture : bool }.

Class Crossterm (T IoError : Type) := {
  enable_raw_mode : T → T * result unit IoError;
  enter_alternate_screen : T → T * result unit IoError;
  enable_mouse_capture : T → T * result unit IoError;
  disable_mouse_capture : T → T * result unit IoError;
  leave_alternate_screen : T → T * result unit IoError;
  disable_raw_mode : T → T * result unit IoError;
}.

Record TerminalSession := mkTerminalSession { session_raw : bool; session_alternate : bool; session_mouse : bool }.

Section session.
Context {T IoError : Type} `{Crossterm T IoError}.

(** [Drop]: the results are ignored. *)
Definition drop_session (s : TerminalSession) (t : T) : T :=
  let t := if session_mouse s then (disable_mouse_capture t).1 else t in
  let t := if session_alternate s then (leave_alternate_screen t).1 else t in
  if session_raw s then (disable_raw_mode t).1 else t.

Definition enable_mouse (s : TerminalSession) (t : T) : TerminalSession * T * result unit IoError :=
  let s := mkTerminalSession (session_raw s) (session_alternate s) true in
  let '(t, r) := enable_mouse_capture t in (s, t, r).

(** A failure drops the session as far as it was built. *)
Definition enter (t : T) : T * result TerminalSession IoError :=
  let s := mkTerminalSession false false false in
  match enable_raw_mode t with
  | (t, Err e) => (drop_session s t, Err e)
  | (t, Ok _) =>
      let s := mkTerminalSession true true (session_mouse s) in
      match enter_alternate_screen t with
      | (t, Err e) => (drop_session s t, Err e)
      | (t, Ok _) => let '(s, t, _) := enable_mouse s t in (t, Ok s)
      end
  end.
End session.

(** ** What crossterm promises *)

Class CrosstermLaws (T IoError : Type) `{Crossterm T IoError} := {
  modes : T → Modes;
  enable_raw_law : ∀ (t t' : T) r, enable_raw_mode t = (t', r) →
    modes t' = mkModes (match r with Ok _ => true | Err _ => raw_mode (modes t) end)
                 (alternate_screen (modes t)) (mouse_capture (modes t));
  enter_alternate_law : ∀ (t t' : T) r, enter_alternate_screen t = (t', r) →
    raw_mode (modes t') = raw_mode (modes t) ∧ mouse_capture (modes t') = mouse_capture (modes t);
  enable_mouse_law : ∀ (t t' : T) r, enable_mouse_capture t = (t', r) →
    raw_mode (modes t') = raw_mode (modes t) ∧ alternate_screen (modes t') = alternate_screen (modes t);
  disable_mouse_law : ∀ (t t' : T) r, disable_mouse_capture t = (t', r) →
    modes t' = mkModes (raw_mode (modes t)) (alternate_screen (modes t))
                 (match r with Ok _ => false | Err _ => mouse_capture (modes t') end);
  leave_alternate_law : ∀ (t t' : T) r, leave_alternate_screen t = (t', r) →
    modes t' = mkModes (raw_mode (modes t)) (match r with Ok _ => false | Err _ => alternate_screen (modes t') end)
                 (mouse_capture (modes t));
  disable_raw_law : ∀ (t t' : T) r, disable_raw_mode t = (t', r) →
    modes t' = mkModes (match r with Ok _ => false | Err _ => raw_mode (modes t') end)
                 (alternate_screen (modes t)) (mouse_capture (modes t));
}.

Definition modes_off : Modes := mkModes false false false.

Section restored.
Context {T IoError : Type} `{CrosstermLaws T IoError}.

(** The modes can be reset: no reset reports an error. *)
Definition resettable : Prop :=
  (∀ t : T, ∃ t', disable_mouse_capture t = (t', Ok ())) ∧ (∀ t : T, ∃ t', leave_alternate_screen t = (t', Ok ())) ∧
  (∀ t : T, ∃ t', disable_raw_mode t = (t', Ok ())).

(** The session remembers every mode that may be on. *)
Definition armed (s : TerminalSession) (t : T) : Prop :=
  (session_raw s = false → raw_mode (modes t) = false) ∧
  (session_alternate s = false → alternate_screen (modes t) = false) ∧
  (session_mouse s = false → mouse_capture (modes t) = false).

Lemma drop_session_off s (t : T) : resettable → armed s t → modes (drop_session s t) = modes_off.
Proof.
  intros (Hm & Ha & Hr) (Sr & Sa & Sm). unfold drop_session, modes_off.
  assert (∃ t1, (if session_mouse s then (disable_mouse_capture t).1 else t) = t1 ∧
    modes t1 = mkModes (raw_mode (modes t)) (alternate_screen (modes t)) false) as (t1 & -> & H1).
  { destruct (session_mouse s); [|exists t; destruct (modes t); naive_solver].
    destruct (Hm t) as [t' E]. rewrite E. exists t'. split; [done|]. by apply disable_mouse_law in E. }
  assert (∃ t2, (if session_alternate s then (leave_alternate_screen t1).1 else t1) = t2 ∧
    modes t2 = mkModes (raw_mode (modes t)) false false) as (t2 & -> & H2).
  { destruct (session_alternate s); [|exists t1; rewrite H1, Sa; done].
    destruct (Ha t1) as [t' E]. rewrite E. exists t'. split; [done|]. apply leave_alternate_law in E. by rewrite E, H1. }
  destruct (session_raw s); [|rewrite H2, Sr; done].
  destruct (Hr t2) as [t' E]. rewrite E. simpl. apply disable_raw_law in E. by rewrite E, H2.
Qed.

Lemma enter_armed (t t' : T) r :
  modes t = modes_off → enter t = (t', r) →
  match r with
  | Ok s => armed s t'
  | Err _ => ∃ s t1, t' = drop_session s t1 ∧ armed s t1
  end.
Proof.
  intros Hoff. unfold enter, enable_mouse. destruct (enable_raw_mode t) as [t1 [[]|e]] eqn:E1.
  2: { intros [= <- <-]. apply enable_raw_law in E1. rewrite Hoff in E1. eexists _, t1. split; [done|].
       unfold armed. by rewrite E1. }
  apply enable_raw_law in E1. rewrite Hoff in E1. simpl in E1.
  destruct (enter_alternate_screen t1) as [t2 [[]|e]] eqn:E2; apply enter_alternate_law in E2 as [R2 M2]; rewrite E1 in R2, M2.
  - destruct (enable_mouse_capture t2) as [t3 rm] eqn:E3. intros [= <- <-]. by split_and!.
  - intros [= <- <-]. eexists _, t2. split; [done|]. by split_and!.
Qed.

(** The terminal is given back as it was. Whatever fails while the session
    is entered, also after having had its effect, if the modes can be reset
    then a failed [enter] leaves all of them off, and dropping an entered
    session turns all of them off. *)
Theorem session_restores (t t' : T) r :
  resettable → modes t = modes_off → enter t = (t', r) →
  match r with
  | Ok s => modes (drop_session s t') = modes_off
  | Err _ => modes t' = modes_off
  end.
Proof.
  intros Hr Hoff He. apply enter_armed in He; [|done]. destruct r as [s|e]; [by apply drop_session_off|].
  destruct He as (s & t1 & -> & Ha). by apply drop_session_off.
Qed.
End restored.

(** ** A terminal without mouse support, and one whose flushes fail *)

Module NoMouse.
(** Enabling the mouse fails without an effect. *)
#[export] Instance no_mouse_crossterm : Crossterm Modes unit := {|
  enable_raw_mode := λ m, (mkModes true (alternate_screen m) (mouse_capture m), Ok ());
  enter_alternate_screen := λ m, (mkModes (raw_mode m) true (mouse_capture m), Ok ());
  enable_mouse_capture := λ m, (m, Err ());
  disable_mouse_capture := λ m, (mkModes (raw_mode m) (alternate_screen m) false, Ok ());
  leave_alternate_screen := λ m, (mkModes (raw_mode m) false (mouse_capture m), Ok ());
  disable_raw_mode := λ m, (mkModes false (alternate_screen m) (mouse_capture m), Ok ());
|}.

#[export] Instance no_mouse_laws : CrosstermLaws Modes unit.
Proof. refine (Build_CrosstermLaws Modes unit no_mouse_crossterm (λ m, m) _ _ _ _ _ _); by intros t t' r [= <- <-]. Defined.
End NoMouse.

Module FlushFails.
(** Entering the alternate screen has its effect and then reports an error. *)
#[export] Instance flush_fails_crossterm : Crossterm Modes unit := {|
  enable_raw_mode := λ m, (mkModes true (alternate_screen m) (mouse_capture m), Ok ());
  enter_alternate_screen := λ m, (mkModes (raw_mode m) true (mouse_capture m), Err ());
  enable_mouse_capture := λ m, (mkModes (raw_mode m) (alternate_screen m) true, Err ());
  disable_mouse_capture := λ m, (mkModes (raw_mode m) (alternate_screen m) false, Ok ());
  leave_alternate_screen := λ m, (mkModes (raw_mode m) false (mouse_capture m), Ok ());
  disable_raw_mode := λ m, (mkModes false (alternate_screen m) (mouse_capture m), Ok ());
|}.

#[export] Instance flush_fails_laws : CrosstermLaws Modes unit.
Proof. refine (Build_CrosstermLaws Modes unit flush_fails_crossterm (λ m, m) _ _ _ _ _ _); by intros t t' r [= <- <-]. Defined.
End FlushFails.

Section sample.
Import FlushFails.

Lemma session_restores_witness :
  ∃ (t' : Modes) e, enter modes_off = (t', Err e) ∧ modes (IoError := unit) t' = modes_off.
Proof.
  destruct (enter modes_off) as [t' [s|e]] eqn:He; [by vm_compute in He|].
  exists t', e. split; [reflexivity|].
  apply (session_restores (IoError := unit) modes_off t' (Err e)); [|reflexivity|exact He].
  split; [|split]; intros t; eexists; reflexivity.
Defined.
End sample.
