(* ===== verification/Tui.v ===== *)
(** * The interactive loop (lltop/src/tui/mod.rs)

    One cycle receives what is ready unless the view is paused, draws, and
    handles one input. What the terminal and the collector answer in a cycle is
    a value, [CycleInput]. [drain_loop] runs over the answers that successive calls
    of [try_recv] return, and is [None] when they end before the loop does.
    [tui_run] is the whole mode, with the terminal session around the cycles. *)

From S2P Require Import Prelude Lattice CapturedBytes Event State Aggregate Collector Text Utf8 Display TuiFormat Batch Model Ui UiRows UiDraw Errors Terminal.

Definition MAX_READY_EVENTS_PER_CYCLE : N := 1024.
Definition WHEEL_SCROLL_ROWS : Z := 3.

(** ** Inputs, as crossterm reports them *)

Inductive KeyCode := Char (c : char) | Esc | KeyTab | Up | Down | Enter | OtherKey.
Inductive MouseEventKind := ScrollUp | ScrollDown | DownLeft | DragLeft | UpLeft | OtherMouse.

Inductive TerminalEvent :=
| KeyPress (code : KeyCode)
| Mouse (kind : MouseEventKind) (column row : N)
| OtherEvent.

(** ** Errors of the collector *)

Definition recoverable_collector_error (kind : option CollectorReceiveErrorKind) : bool :=
  match kind with
  | Some OutputQueueFull | Some MalformedSample => true
  | _ => false
  end.

(** [E: Error]: its text, and its source when that is a collector error. *)
Definition handle_collector_error {BpfError E : Type} (display : E → string)
    (source : E → option (CollectorReceiveError (BpfError := BpfError))) (a : App) (error : E) : result App E :=
  if recoverable_collector_error (error_kind_of <$> source error)
  then Ok (set_collector_warning (lit (display error)) a)
  else Err error.

(** ** Mouse and keyboard *)

Definition follow_domain (m : ObservationModel) (a : App) : App :=
  match selected a with
  | Some (RowDomain id) | Some (RowDenialDomain id) =>
      match domain (model_state m) id ≫= domain_ruleset with
      | Some ruleset => select (RowRuleset ruleset) (set_tab Rulesets a)
      | None => a
      end
  | _ => a
  end.

Definition scrollbar_hit (area : Rect) (column row : N) : bool :=
  if rect_width area =? 0 then false
  else
    match checked_add u16_max (rect_x area) (saturating_sub (rect_width area) 1) with
    | None => false
    | Some scrollbar_column =>
        match checked_add u16_max (rect_y area) (saturating_sub (rect_height area) 1) with
        | None => false
        | Some scrollbar_bottom =>
            (scrollbar_column =? column) && (rect_y area <? row) && (row <? scrollbar_bottom)
        end
    end.

Definition click_row (column row : N) (a : App) : App :=
  let area := hit_list (hit a) in
  match checked_add u16_max (rect_x area) (rect_width area) with
  | None => a
  | Some right_edge =>
      match checked_add u16_max (rect_y area) (saturating_sub (rect_height area) 1) with
      | None => a
      | Some bottom =>
          if (column <? rect_x area) || (right_edge <=? column) || (row <=? rect_y area) || (bottom <=? row) then a
          else
            match (offset ← checked_sub row (rect_y area); checked_sub offset (hit_header_rows (hit a))) with
            | None => a
            | Some visible =>
                let index := saturating_add usize_max (scroll a) visible in
                match hit_rows (hit a) !! N.to_nat index with
                | Some kind => if selectable kind then select kind a else a
                | None => a
                end
            end
      end
  end.

Definition drag_scrollbar (row : N) (a : App) : App :=
  let area := hit_list (hit a) in
  let height := N.max (saturating_sub (rect_height area) 2) 1 in
  match checked_add u16_max (rect_y area) 1 with
  | None => scroll_to 0 a
  | Some track_start =>
      let relative := N.min (saturating_sub row track_start) (saturating_sub height 1) in
      let max_scroll := saturating_sub (len (hit_rows (hit a))) height in
      scroll_to (N.min usize_max (relative * max_scroll) / N.max (saturating_sub height 1) 1) a
  end.

Definition set_dragging (b : bool) (a : App) : App :=
  mkApp (tab a) (paused a) (collector_warning a) (selected a) (detail a) (scroll a) (follow_selection a) b (hit a).

Definition toggle_paused (a : App) : App :=
  mkApp (tab a) (negb (paused a)) (collector_warning a) (selected a) (detail a) (scroll a) (follow_selection a)
    (dragging_scrollbar a) (hit a).

(** [None] leaves the loop. *)
Definition handle_key (m : ObservationModel) (code : KeyCode) (a : App) : option App :=
  match code with
  | Char c =>
      if c =? 113 then None
      else if c =? 49 then Some (set_tab Domains a)
      else if c =? 50 then Some (set_tab Denials a)
      else if c =? 51 then Some (set_tab Rulesets a)
      else if c =? 52 then Some (set_tab TabStats a)
      else if c =? 112 then Some (toggle_paused a)
      else Some a
  | Esc => if detail a then Some (close_detail a) else None
  | KeyTab => Some (cycle_tab a)
  | Up => Some (move_selection (-1) a)
  | Down => Some (move_selection 1 a)
  | Enter => Some (follow_domain m a)
  | OtherKey => Some a
  end.

Definition handle_mouse (kind : MouseEventKind) (column row : N) (a : App) : App :=
  match kind with
  | ScrollUp => scroll_by (- WHEEL_SCROLL_ROWS) a
  | ScrollDown => scroll_by WHEEL_SCROLL_ROWS a
  | DownLeft =>
      match clicked_tab (hit_tabs (hit a)) column row with
      | Some tab => set_tab tab a
      | None =>
          if scrollbar_hit (hit_list (hit a)) column row
          then drag_scrollbar row (set_dragging true a)
          else click_row column row a
      end
  | DragLeft => if dragging_scrollbar a then drag_scrollbar row a else a
  | UpLeft => set_dragging false a
  | OtherMouse => a
  end.

Definition handle_input (m : ObservationModel) (input : TerminalEvent) (a : App) : option App :=
  match input with
  | KeyPress code => handle_key m code a
  | Mouse kind column row => Some (handle_mouse kind column row a)
  | OtherEvent => Some a
  end.

(** ** Receiving *)

Section loop.
Context `{Unicode} `{Ratatui} {T BpfError IoError : Type} (display_bpf : BpfError → string).
Variable iter : gmap DenialKey AggregatedDenial → list Entry.
Variable iter_state : gmap DomainId DomainState → list DomainState.
Variable iter_known : gmap DomainId DomainState → list (DomainId * DomainState).

Notation TryError := (TryReceiveError (BpfError := BpfError)).
Notation TimeoutError := (ReceiveTimeoutError (BpfError := BpfError)).

(** What the loop over ready events leaves: the state, the count or the error,
    and the answers it did not ask for. *)
Record Drained := mkDrained {
  drained_app : App;
  drained_model : ObservationModel;
  drained_result : result N TryError;
  drained_rest : list (result Event TryError);
}.

Fixpoint drain_loop (count : N) (answers : list (result Event TryError)) (a : App) (m : ObservationModel) :
    option Drained :=
  if count <? MAX_READY_EVENTS_PER_CYCLE then
    match answers with
    | [] => None
    | Ok event :: answers =>
        drain_loop (saturating_add usize_max count 1) answers a (model_observe iter m event)
    | Err TryEmpty :: answers => Some (mkDrained a m (Ok count) answers)
    | Err error :: answers =>
        match handle_collector_error (display_try_receive display_bpf) try_receive_source a error with
        | Ok a => drain_loop count answers a m
        | Err error => Some (mkDrained a m (Err error) answers)
        end
    end
  else Some (mkDrained a m (Ok count) answers).

Definition drain_ready_events (answers : list (result Event TryError)) (a : App) (m : ObservationModel) :
    option Drained :=
  drain_loop 0 answers a m.

(** ** One cycle *)

Inductive Outcome :=
| Continue (a : App) (m : ObservationModel)
| Quit
| FailTimeout (error : TimeoutError)
| FailTry (error : TryError)
| FailIo (error : IoError).

(** The answer of [recv_timeout]: an event, nothing, a warning or the end. *)
Definition receive_first (answer : result Event TimeoutError) (a : App) (m : ObservationModel) :
    result (App * ObservationModel) TimeoutError :=
  match answer with
  | Ok event => Ok (a, model_observe iter m event)
  | Err Timeout => Ok (a, m)
  | Err error =>
      map_ok (λ a, (a, m))
        (handle_collector_error (display_receive_timeout display_bpf) receive_timeout_source a error)
  end.

(** What one cycle meets: the answers of the collector, the size of the
    terminal, the writing of a frame to it, and what the poll for input and the
    read return, [None] when the poll timed out. *)
Record CycleInput := mkCycleInput {
  in_first : result Event TimeoutError;
  in_answers : list (result Event TryError);
  in_area : Rect;
  in_write_frame : list (Widget * Rect) → T → T * result unit IoError;
  in_event : result (option TerminalEvent) IoError;
}.

(** The part of a cycle after the receives. *)
Definition draw_and_handle (i : CycleInput) (a : App) (m : ObservationModel) (t : T) : T * Outcome :=
  let '(a, widgets) := draw iter iter_state iter_known (in_area i) a m in
  match in_write_frame i widgets t with
  | (t, Err error) => (t, FailIo error)
  | (t, Ok _) =>
      (t, match in_event i with
          | Err error => FailIo error
          | Ok None => Continue a m
          | Ok (Some input) =>
              match handle_input m input a with
              | Some a => Continue a m
              | None => Quit
              end
          end)
  end.

(** [None] when the answers end before the loop over ready events does. *)
Definition cycle (i : CycleInput) (a : App) (m : ObservationModel) (t : T) : option (T * Outcome) :=
  if paused a then Some (draw_and_handle i a m t)
  else
    match receive_first (in_first i) a m with
    | Err error => Some (t, FailTimeout error)
    | Ok (a, m) =>
        d ← drain_ready_events (in_answers i) a m;
        Some match drained_result d with
             | Err error => (t, FailTry error)
             | Ok _ => draw_and_handle i (drained_app d) (drained_model d) t
             end
    end.
End loop.

(** ** The interactive mode from start to end

    [inputs] are what successive cycles meet; [tui_loop] is [None] when they
    end before the loop does. *)

Inductive TuiError {BpfError IoError : Type} :=
| TuiIo (error : IoError)
| TuiTimeout (error : ReceiveTimeoutError (BpfError := BpfError))
| TuiTry (error : TryReceiveError (BpfError := BpfError)).
Arguments TuiError : clear implicits.

Section run.
Context `{Unicode} `{Ratatui} {T BpfError IoError : Type} `{Crossterm T IoError} (display_bpf : BpfError → string).
Variable iter : gmap DenialKey AggregatedDenial → list Entry.
Variable iter_state : gmap DomainId DomainState → list DomainState.
Variable iter_known : gmap DomainId DomainState → list (DomainId * DomainState).

Fixpoint tui_loop (inputs : list CycleInput) (a : App) (m : ObservationModel) (t : T) :
    option (T * result unit (TuiError BpfError IoError)) :=
  match inputs with
  | [] => None
  | i :: inputs =>
      '(t, outcome) ← cycle display_bpf iter iter_state iter_known i a m t;
      match outcome with
      | Continue a m => tui_loop inputs a m t
      | Quit => Some (t, Ok ())
      | FailTimeout error => Some (t, Err (TuiTimeout error))
      | FailTry error => Some (t, Err (TuiTry error))
      | FailIo error => Some (t, Err (TuiIo error))
      end
  end.

(** [setup] is [Terminal::new] and [clear]. The session is dropped on every
    path after it was entered. *)
Definition tui_run (setup : T → T * result unit IoError) (inputs : list CycleInput) (t : T) :
    option (T * result unit (TuiError BpfError IoError)) :=
  match enter t with
  | (t, Err e) => Some (t, Err (TuiIo e))
  | (t, Ok session) =>
      '(t, r) ← match setup t with
                | (t, Err e) => Some (t, Err (TuiIo e))
                | (t, Ok _) => tui_loop inputs app_new model_new t
                end;
      Some (drop_session session t, r)
  end.
End run.
