(* ===== verification/UiSpec.v ===== *)
(** * Selection, viewport and hit testing (lltop/src/tui/ui.rs, mod.rs) *)

From S2P Require Import Prelude Lattice CapturedBytes Event State Aggregate Text Utf8 Display TuiFormat Batch Model Ui UiRows UiDraw Tui.

(** ** The viewport *)

(** The viewport never scrolls past the last rows; while it follows the
    selection, the first line of the selection is visible; otherwise it stays
    where it is, as far as the rows reach. *)
Theorem viewport_bounds scroll row_count visible selected_index follow :
  0 < visible → row_count < usize_max → (∀ index, selected_index = Some index → index < row_count) →
  let s := viewport_scroll scroll row_count visible selected_index follow in
  s <= row_count - visible ∧
  (∀ index, follow = true → selected_index = Some index → s <= index ∧ index < s + visible) ∧
  (follow = false ∨ selected_index = None → s = N.min scroll (row_count - visible)).
Proof.
  intros Hv Hr Hi. unfold viewport_scroll, saturating_sub, saturating_add. simpl.
  destruct follow; simpl; [|split_and!; [lia|done|done]].
  destruct selected_index as [index|]; [|split_and!; [lia|done|done]].
  specialize (Hi index eq_refl). split_and!.
  - repeat case_match; rewrite ?N.ltb_lt, ?N.ltb_ge, ?N.leb_le, ?N.leb_gt in *; lia.
  - intros ? _ [= <-]. repeat case_match; rewrite ?N.ltb_lt, ?N.ltb_ge, ?N.leb_le, ?N.leb_gt in *; lia.
  - by intros [|].
Qed.

Lemma viewport_bounds_witness :
  let s := viewport_scroll 7 10 4 (Some 2) true in
  s <= 10 - 4 ∧ (∀ index, true = true → Some 2 = Some index → s <= index ∧ index < s + 4) ∧
  (true = false ∨ Some 2 = None → s = N.min 7 (10 - 4)).
Proof. apply (viewport_bounds 7 10 4 (Some 2) true); [lia|done|]. intros ? [= <-]. lia. Defined.

(** ** The selection *)

(** The selectable rows, of equal neighbours one. *)
Fixpoint distinct_neighbours (rows : list RowKind) : list RowKind :=
  match rows with
  | [] => []
  | x :: rest =>
      match rest with
      | y :: _ => if decide (x = y) then distinct_neighbours rest else x :: distinct_neighbours rest
      | [] => [x]
      end
  end.

Definition visited_rows (rows : list RowKind) : list RowKind :=
  distinct_neighbours (filter (λ k, selectable k = true) rows).

Lemma distinct_neighbours_snoc rows k :
  distinct_neighbours (rows ++ [k]) =
  if decide (last rows = Some k) then distinct_neighbours rows else distinct_neighbours rows ++ [k].
Proof.
  induction rows as [|x rows IH]; [done|]. destruct rows as [|y rows]; [simpl; repeat case_decide; naive_solver|].
  change ((x :: y :: rows) ++ [k]) with (x :: (y :: rows) ++ [k]).
  change (last (x :: y :: rows)) with (last (y :: rows)).
  change (distinct_neighbours (x :: (y :: rows) ++ [k])) with
    (if decide (x = y) then distinct_neighbours ((y :: rows) ++ [k]) else x :: distinct_neighbours ((y :: rows) ++ [k])).
  change (distinct_neighbours (x :: y :: rows)) with
    (if decide (x = y) then distinct_neighbours (y :: rows) else x :: distinct_neighbours (y :: rows)).
  rewrite IH. repeat case_decide; done.
Qed.

Lemma distinct_neighbours_last rows : last (distinct_neighbours rows) = last rows.
Proof.
  induction rows as [|x rows IH] using rev_ind; [done|]. rewrite distinct_neighbours_snoc, last_snoc.
  case_decide; [congruence|]. apply last_snoc.
Qed.

Lemma selectable_rows_snd rows : (selectable_rows rows).*2 = visited_rows rows.
Proof.
  unfold selectable_rows, visited_rows.
  induction rows as [|k rows IH] using rev_ind; [done|].
  rewrite imap_app, foldl_app, filter_app, filter_cons, filter_nil. simpl.
  set (acc := foldl _ [] _) in *.
  assert (last acc.*2 = last (filter (λ k, selectable k = true) rows)) as Hl.
  { rewrite IH. apply distinct_neighbours_last. }
  rewrite fmap_last in Hl. destruct (selectable k) eqn:Hk; simpl.
  - rewrite distinct_neighbours_snoc, <- IH, <- Hl.
    destruct (last acc) as [[i previous]|]; simpl; [|by rewrite fmap_app].
    destruct (decide (previous = k)) as [->|Hne].
    + rewrite bool_decide_eq_false_2 by naive_solver. by rewrite decide_True.
    + rewrite bool_decide_eq_true_2 by done. rewrite decide_False by naive_solver. by rewrite fmap_app.
  - by rewrite app_nil_r, <- IH.
Qed.

Lemma position_fmap {A B} (f : A → B) (p : B → bool) l : position p (f <$> l) = position (λ x, p (f x)) l.
Proof. induction l as [|x l IH]; [done|]. csimpl. by rewrite IH. Qed.

Lemma position_NoDup {A} `{EqDecision A} (l : list A) i x :
  NoDup l → l !! i = Some x → position (λ y, bool_decide (y = x)) l = Some (N.of_nat i).
Proof.
  revert i. induction l as [|y l IH]; intros i; [done|]. intros [Hy Hl]%NoDup_cons. destruct i as [|i]; simpl.
  - intros [= ->]. by rewrite bool_decide_eq_true_2.
  - intros Hi. rewrite bool_decide_eq_false_2 by (intros ->; by eapply Hy, list_elem_of_lookup_2).
    rewrite (IH i) by done. simpl. f_equal. lia.
Qed.

Lemma position_bound {A} (p : A → bool) (l : list A) i : position p l = Some i → i < len l.
Proof.
  intros (l1 & x & l2 & -> & <- & _)%position_Some. unfold len. rewrite length_app. simpl. lia.
Qed.

(** Where the selection is among the visited rows. *)
Definition current_row (a : App) : option N :=
  kind ← selected a; position (λ k, bool_decide (k = kind)) (visited_rows (hit_rows (hit a))).

Lemma move_selection_spec delta a :
  let rows := visited_rows (hit_rows (hit a)) in
  move_selection delta a =
  match rows !! N.to_nat (next_selection (current_row a) delta (len rows - 1)) with
  | Some k => select k (with_scroll (scroll a) true a)
  | None => with_scroll (scroll a) true a
  end.
Proof.
  unfold move_selection, current_row. simpl. rewrite <- selectable_rows_snd.
  set (l := selectable_rows (hit_rows (hit a))).
  destruct l as [|e l'] eqn:El; [done|]. rewrite <- El in *. clear e l' El.
  unfold saturating_sub. rewrite list_lookup_fmap. unfold len. rewrite length_fmap.
  destruct (selected a) as [kind|]; simpl; rewrite ?position_fmap; by destruct (l !! _) as [[i k]|].
Qed.

Lemma next_selection_bound current delta n :
  0 < n → (∀ i, current = Some i → i < n) → next_selection current delta (n - 1) < n.
Proof.
  intros Hn Hc. unfold next_selection, saturating_sub, saturating_add.
  destruct current as [i|]; [specialize (Hc i eq_refl)|]; destruct (delta ?= 0)%Z; lia.
Qed.

(** Moving the selection always selects a row that is there. *)
Lemma move_selection_selects delta a :
  visited_rows (hit_rows (hit a)) ≠ [] →
  ∃ k, k ∈ visited_rows (hit_rows (hit a)) ∧ move_selection delta a = select k (with_scroll (scroll a) true a).
Proof.
  intros Hne. rewrite move_selection_spec. set (rows := visited_rows _) in *.
  assert (0 < len rows) as Hlen by (destruct rows; [done|unfold len; simpl; lia]).
  destruct (lookup_lt_is_Some_2 rows (N.to_nat (next_selection (current_row a) delta (len rows - 1)))) as [k Hk].
  { assert (next_selection (current_row a) delta (len rows - 1) < len rows).
    { apply next_selection_bound; [done|]. unfold current_row. intros i Hi.
      destruct (selected a); [|done]. by apply position_bound in Hi. }
    unfold len in *. lia. }
  exists k. split; [by eapply list_elem_of_lookup_2|]. by rewrite Hk.
Qed.

Lemma move_selection_hit delta a : hit (move_selection delta a) = hit a.
Proof. rewrite move_selection_spec. by destruct (_ !! _). Qed.

Lemma move_selection_tab delta a : tab (move_selection delta a) = tab a.
Proof. rewrite move_selection_spec. by destruct (_ !! _). Qed.

Lemma move_selection_paused delta a : paused (move_selection delta a) = paused a.
Proof. rewrite move_selection_spec. by destruct (_ !! _). Qed.

(** The row selected after a move. *)
Lemma move_selection_selected delta a :
  let rows := visited_rows (hit_rows (hit a)) in
  rows ≠ [] →
  selected (move_selection delta a) = rows !! N.to_nat (next_selection (current_row a) delta (len rows - 1)).
Proof.
  intros rows Hne. rewrite move_selection_spec. fold rows.
  destruct (lookup_lt_is_Some_2 rows (N.to_nat (next_selection (current_row a) delta (len rows - 1)))) as [k Hk];
    [|by rewrite Hk].
  assert (0 < len rows) as Hlen by (destruct rows; [done|unfold len; simpl; lia]).
  assert (next_selection (current_row a) delta (len rows - 1) < len rows); [|unfold len in *; lia].
  apply next_selection_bound; [done|]. unfold current_row. intros i Hi. destruct (selected a); [|done].
  by apply position_bound in Hi.
Qed.

(** Where a selected row is. *)
Lemma current_row_at a i k :
  let rows := visited_rows (hit_rows (hit a)) in
  NoDup rows → rows !! i = Some k → selected a = Some k → current_row a = Some (N.of_nat i).
Proof. intros rows Hn Hi Hs. unfold current_row. rewrite Hs. simpl. by apply position_NoDup. Qed.
