(* ===== verification/RowsSpec.v ===== *)
(** * The lists show everything once (lltop/src/tui/ui.rs) *)

From S2P Require Import Prelude Lattice CapturedBytes Event State StateWf StateHistory Aggregate AggregateSpec Text Utf8 Display TuiFormat Batch Model ModelSpec ModelTheorems Ui UiRows UiDraw Tui UiSpec.

(** ** Sorting and grouping *)

Lemma insert_by_perm {A} (cmp : A → A → comparison) x l : insert_by cmp x l ≡ₚ x :: l.
Proof.
  induction l as [|y l IH]; simpl; [done|]. destruct (cmp x y); [done..|]. rewrite IH. apply Permutation_swap.
Qed.

Lemma sort_by_perm {A} (cmp : A → A → comparison) l : sort_by cmp l ≡ₚ l.
Proof. unfold sort_by. induction l as [|x l IH]; simpl; [done|]. by rewrite insert_by_perm, IH. Qed.

Section group.
Context {A K : Type} `{Countable K} (key : A → K).

Lemma group_by_snoc l x : group_by key (l ++ [x]) = entry_modify (key x) [] (λ xs, xs ++ [x]) (group_by key l).
Proof. unfold group_by. by rewrite foldl_app. Qed.

(** The groups hold the elements, each once. *)
Lemma group_by_perm l : mjoin (map_to_list (group_by key l)).*2 ≡ₚ l.
Proof.
  induction l as [|x l IH] using rev_ind; [done|]. rewrite group_by_snoc.
  trans (mjoin (map_to_list (group_by key l)).*2 ++ [x]); [|by rewrite IH]. clear IH.
  unfold entry_modify. set (m := group_by key l). destruct (m !! key x) as [xs|] eqn:E; simpl.
  - rewrite <- insert_delete_eq. rewrite map_to_list_insert by apply lookup_delete_eq.
    rewrite <- (insert_delete_id m (key x) xs E) at 2. rewrite map_to_list_insert by apply lookup_delete_eq.
    csimpl. rewrite <- !app_assoc. apply Permutation_app_head. apply Permutation_app_comm.
  - rewrite map_to_list_insert by done. csimpl. apply (Permutation_app_comm [x]).
Qed.

Lemma group_by_keys l k : k ∈ (map_to_list (group_by key l)).*1 ↔ k ∈ key <$> l.
Proof.
  assert (∀ k, k ∈ dom (group_by key l) ↔ k ∈ key <$> l) as Hd.
  { clear k. intros k. induction l as [|x l IH] using rev_ind; [set_solver|].
    rewrite group_by_snoc, fmap_app. unfold entry_modify. rewrite dom_insert. set_solver. }
  rewrite <- Hd, elem_of_dom, list_elem_of_fmap. split.
  - intros ([k' xs] & -> & Hk%elem_of_map_to_list). by eexists.
  - intros [xs Hk]. exists (k, xs). by rewrite elem_of_map_to_list.
Qed.
(** A group holds elements of its key. *)
Lemma group_by_key l k xs : group_by key l !! k = Some xs → Forall (λ x, key x = k) xs.
Proof.
  revert k xs. induction l as [|x l IH] using rev_ind; intros k xs; [done|]. rewrite group_by_snoc. unfold entry_modify.
  destruct (decide (k = key x)) as [->|Hne]; [|rewrite lookup_insert_ne by done; apply IH].
  rewrite lookup_insert_eq. intros [= <-]. apply Forall_app. split; [|by repeat constructor].
  destruct (group_by key l !! key x) as [ys|] eqn:E; [by apply IH in E|constructor].
Qed.

Lemma group_by_member l g x : g ∈ map_to_list (group_by key l) → x ∈ g.2 → x ∈ l.
Proof.
  intros Hg Hx. rewrite <- group_by_perm. apply list_elem_of_join. exists g.2. split; [done|]. by apply list_elem_of_fmap_2.
Qed.
End group.

(** ** Kinds *)

Definition denial_of (kind : RowKind) : option DenialKey :=
  match kind with RowDenial key => Some key | _ => None end.
Definition denial_domain_of (kind : RowKind) : option DomainId :=
  match kind with RowDenialDomain id => Some id | _ => None end.

(** The denials of the list, each with the domain of the last heading above
    it. *)
Fixpoint under_headings (heading : option DomainId) (kinds : list RowKind) : list (option DomainId * DenialKey) :=
  match kinds with
  | [] => []
  | RowDenialDomain id :: kinds => under_headings (Some id) kinds
  | RowDenial key :: kinds => (heading, key) :: under_headings heading kinds
  | _ :: kinds => under_headings heading kinds
  end.

Lemma under_headings_snd heading kinds : (under_headings heading kinds).*2 = omap denial_of kinds.
Proof. revert heading. induction kinds as [|[] kinds IH]; intros heading; csimpl; rewrite ?IH; done. Qed.

Lemma under_headings_app heading kinds kinds' :
  ∃ heading', under_headings heading (kinds ++ kinds') = under_headings heading kinds ++ under_headings heading' kinds'.
Proof.
  revert heading. induction kinds as [|[] kinds IH]; intros heading; csimpl; try apply IH; [by exists heading|].
  destruct (IH heading) as [h Hh]. exists h. by rewrite Hh.
Qed.

(** The denial is under its own domain. *)
Definition well_placed (p : option DomainId * DenialKey) : Prop := p.1 = Some (key_domain_id p.2).

(** Denials of one domain below its heading are well placed. *)
Lemma under_headings_section id kinds :
  Forall (λ k, match k with RowDenial key => key_domain_id key = id | Heading => True | _ => False end) kinds →
  Forall well_placed (under_headings (Some id) kinds).
Proof.
  induction 1 as [|k kinds Hk Hks IH]; [constructor|]. destruct k; try done. constructor; [|done]. unfold well_placed. simpl. by rewrite Hk.
Qed.

Lemma well_placed_eq (l : list (option DomainId * DenialKey)) :
  Forall well_placed l → l = (λ key, (Some (key_domain_id key), key)) <$> l.*2.
Proof. induction 1 as [|[h k] l Hp _ IH]; [done|]. csimpl. unfold well_placed in Hp. simpl in Hp. by rewrite Hp, <- IH. Qed.

Section rows.
Context `{Unicode} `{Ratatui}.
Variable iter : gmap DenialKey AggregatedDenial → list Entry.
Variable iter_state : gmap DomainId DomainState → list DomainState.
Variable iter_known : gmap DomainId DomainState → list (DomainId * DomainState).
Hypothesis iter_enumerates : ∀ m, iter m ≡ₚ map_to_list m.
Hypothesis iter_state_enumerates : ∀ m, iter_state m ≡ₚ (map_to_list m).*2.
Hypothesis iter_known_enumerates : ∀ m, iter_known m ≡ₚ map_to_list m.

Lemma ruleset_row_kinds events sel :
  row_kind <$> ruleset_rows (model_after iter events) sel ≡ₚ
  RowRuleset <$> (map_to_list (rulesets (replay state_new events))).*1.
Proof.
  unfold ruleset_rows. rewrite sort_by_perm, model_after_state, <- !list_fmap_compose. apply Permutation_refl'.
  apply list_fmap_ext. intros i [id r] Hi%list_elem_of_lookup_2%elem_of_map_to_list. simpl. f_equal.
  apply (rwf_id id r). exact (swf_rulesets _ (replay_wf _ events state_new_wf) id r Hi).
Qed.

Lemma domain_row_kinds events sel :
  row_kind <$> domain_rows iter_state iter_known (model_after iter events) sel ≡ₚ
  RowDomain <$> (map_to_list (domains (replay state_new events))).*1.
Proof.
  destruct (domain_tree_listing iter_state iter_known iter_state_enumerates iter_known_enumerates
    (model_after iter events) (model_after_ids iter events)) as (rows & Hrows & Hp).
  unfold domain_rows. rewrite Hrows. simpl. rewrite model_after_state in Hp |- *.
  rewrite <- Hp. assert (∀ row, row ∈ rows → is_Some (domain (replay state_new events) row.1)) as Hk.
  { intros row Hrow. apply (list_elem_of_fmap_2 fst) in Hrow. rewrite Hp in Hrow.
    apply list_elem_of_fmap in Hrow as ([id d] & E & Hd%elem_of_map_to_list). simpl in E. rewrite E. by exists d. }
  clear Hrows Hp. apply Permutation_refl'. induction rows as [|[id trail] rows IH]; [done|].
  destruct (Hk (id, trail)) as [d Hd]; [set_solver|]. csimpl in *. rewrite Hd. csimpl. f_equal.
  apply IH. set_solver.
Qed.
(** Headings aside, the list is its sections one after the other. *)
Lemma sections_kinds {B} (f : RowKind → option B) m sel tgt ds acc :
  f Heading = None →
  omap f (row_kind <$> foldl (λ rows entry,
    rows ++ (match rows with [] => [] | _ => [heading_row [] theme.normal] end) ++
    denial_domain_rows m sel tgt entry) acc ds) =
  omap f (row_kind <$> acc) ++ (ds ≫= λ entry, omap f (row_kind <$> denial_domain_rows m sel tgt entry)).
Proof.
  intros Hh. revert acc. induction ds as [|e ds IH]; intros acc; [by rewrite app_nil_r|].
  rewrite bind_cons. cbn [foldl]. rewrite IH, !fmap_app, !omap_app, <- !app_assoc. f_equal.
  destruct acc as [|x acc]; [done|]. csimpl. by rewrite Hh.
Qed.

Lemma group_rows_keys m sel tgt g :
  omap denial_of (row_kind <$> group_rows m sel tgt g) ≡ₚ ad_key <$> g.2.
Proof.
  unfold group_rows. csimpl. rewrite <- (sort_by_perm by_count g.2) at 2. apply Permutation_refl'.
  induction (sort_by by_count g.2) as [|e l IH]; [done|]. csimpl. by rewrite IH.
Qed.

Lemma bind_perm {A B} (f g : A → list B) l : (∀ x, f x ≡ₚ g x) → l ≫= f ≡ₚ l ≫= g.
Proof. intros Hf. induction l as [|x l IH]; [done|]. csimpl. by rewrite (Hf x), IH. Qed.

Lemma bind_fmap_snd {A B C} (f : B → C) (l : list (A * list B)) : l ≫= (λ g, f <$> g.2) = f <$> mjoin l.*2.
Proof. induction l as [|[k x] l IH]; [done|]. csimpl. by rewrite fmap_app, IH. Qed.

Lemma omap_bind {A B C} (f : B → option C) (g : A → list B) l : omap f (l ≫= g) = l ≫= λ x, omap f (g x).
Proof. induction l as [|x l IH]; [done|]. csimpl. by rewrite omap_app, IH. Qed.

Lemma fmap_bind {A B C} (f : B → C) (g : A → list B) l : f <$> (l ≫= g) = l ≫= λ x, f <$> g x.
Proof. induction l as [|x l IH]; [done|]. csimpl. by rewrite fmap_app, IH. Qed.

Lemma domain_section_keys m sel tgt e :
  omap denial_of (row_kind <$> denial_domain_rows m sel tgt e) ≡ₚ ad_key <$> e.2.
Proof.
  unfold denial_domain_rows. csimpl. rewrite fmap_bind, omap_bind.
  rewrite (bind_perm _ (λ g : text * list AggregatedDenial, ad_key <$> g.2)) by (intros; apply group_rows_keys).
  by rewrite sort_by_perm, bind_fmap_snd, group_by_perm.
Qed.

Lemma domain_section_domain m sel tgt e :
  omap denial_domain_of (row_kind <$> denial_domain_rows m sel tgt e) = [e.1].
Proof.
  unfold denial_domain_rows. csimpl. f_equal. rewrite fmap_bind, omap_bind.
  induction (sort_by by_maximum (map_to_list (group_by blockers e.2))) as [|g l IH]; [done|].
  rewrite bind_cons, IH, app_nil_r. unfold group_rows. csimpl.
  induction (sort_by by_count g.2) as [|d l' IH']; [done|]. csimpl. done.
Qed.

Lemma denial_row_keys m sel :
  omap denial_of (row_kind <$> denial_rows iter m sel) ≡ₚ ad_key <$> (map_to_list (agg_entries (model_denials m))).*2.
Proof.
  unfold denial_rows. rewrite sections_kinds by done. simpl.
  rewrite (bind_perm _ (λ g : DomainId * list AggregatedDenial, ad_key <$> g.2)) by (intros; apply domain_section_keys).
  by rewrite sort_by_perm, bind_fmap_snd, group_by_perm, iter_enumerates.
Qed.

Lemma denial_row_domains m sel :
  omap denial_domain_of (row_kind <$> denial_rows iter m sel) ≡ₚ
  remove_dups ((λ d, key_domain_id (ad_key d)) <$> (map_to_list (agg_entries (model_denials m))).*2).
Proof.
  unfold denial_rows. rewrite sections_kinds by done. simpl.
  rewrite (bind_perm _ (λ g : DomainId * list AggregatedDenial, [g.1])) by (intros; apply Permutation_refl', domain_section_domain).
  rewrite sort_by_perm. set (groups := group_by _ _).
  replace (map_to_list groups ≫= λ g, [g.1]) with (map_to_list groups).*1
    by (induction (map_to_list groups) as [|x l IH]; [done|]; csimpl; by rewrite IH).
  apply NoDup_Permutation; [apply NoDup_fst_map_to_list|apply NoDup_remove_dups|].
  intros id. unfold groups. by rewrite group_by_keys, elem_of_remove_dups, iter_enumerates.
Qed.

Lemma section_well_placed m sel tgt e heading :
  Forall (λ d, key_domain_id (ad_key d) = e.1) e.2 →
  Forall well_placed (under_headings heading (row_kind <$> denial_domain_rows m sel tgt e)).
Proof.
  rewrite Forall_forall. intros He. unfold denial_domain_rows. csimpl.
  apply under_headings_section, Forall_fmap, Forall_bind, Forall_forall.
  intros g Hg. rewrite sort_by_perm in Hg. constructor; [done|]. apply Forall_fmap, Forall_forall.
  intros d Hd. rewrite sort_by_perm in Hd. apply He. by eapply group_by_member.
Qed.

Lemma denial_rows_well_placed m sel : Forall well_placed (under_headings None (row_kind <$> denial_rows iter m sel)).
Proof.
  unfold denial_rows. set (tgt := match sel with Some (RowDenial key) => _ | _ => _ end). clearbody tgt.
  set (groups := group_by (λ d, key_domain_id (ad_key d)) _).
  assert (∀ e, e ∈ sort_by by_total (map_to_list groups) → Forall (λ d, key_domain_id (ad_key d) = e.1) e.2) as Hg.
  { intros [id ds] He. rewrite sort_by_perm in He. by apply elem_of_map_to_list, group_by_key in He. }
  revert Hg. generalize (sort_by by_total (map_to_list groups)). clear groups. intros ds Hg.
  cut (∀ acc, Forall well_placed (under_headings None (row_kind <$> acc)) →
    Forall well_placed (under_headings None (row_kind <$> foldl (λ rows entry,
      rows ++ (match rows with [] => [] | _ => [heading_row [] theme.normal] end) ++
      denial_domain_rows m sel tgt entry) acc ds))); [intros Hc; apply Hc; constructor|].
  induction ds as [|e ds IH]; intros acc Hacc; [done|]. cbn [foldl]. apply IH; [set_solver|].
  rewrite !fmap_app. destruct (under_headings_app None (row_kind <$> acc)
    ((row_kind <$> match acc with [] => [] | _ => [heading_row [] theme.normal] end) ++
     (row_kind <$> denial_domain_rows m sel tgt e))) as [h ->].
  apply Forall_app. split; [done|]. assert (Forall (λ d, key_domain_id (ad_key d) = e.1) e.2) as He by set_solver.
  destruct acc; exact (section_well_placed m sel tgt e h He).
Qed.

(** An aggregated denial is stored under its own key. *)
Lemma model_denial_keys events :
  ad_key <$> (map_to_list (agg_entries (model_denials (model_after iter events)))).*2 =
  (map_to_list (agg_entries (observe_all iter aggregator_new events))).*1.
Proof.
  rewrite model_after_denials, <- list_fmap_compose. apply list_fmap_ext. intros i [k e] Hi. simpl.
  apply list_elem_of_lookup_2, elem_of_map_to_list in Hi.
  assert (0 < DEFAULT_CAPACITY <= usize_max) as Hc by done.
  destruct (observe_all_refines iter iter_enumerates [] _ events (represents_empty DEFAULT_CAPACITY Hc)) as (l & Hr & _). by apply (rep_lookup _ _ _ _ Hr) in Hi as [_ ->].
Qed.

(** C26: each list shows all there is to show, once: the domains tab every
    domain of the replayed state, the rulesets tab every ruleset, and the
    denials tab every retained denial. The denials tab has one heading for each
    domain that has some, and the heading above a denial is that of its own
    domain. *)
Theorem lists_show_everything events sel :
  let m := model_after iter events in
  let keys := (map_to_list (agg_entries (observe_all iter aggregator_new events))).*1 in
  let denial_kinds := row_kind <$> denial_rows iter m sel in
  row_kind <$> domain_rows iter_state iter_known m sel ≡ₚ
    RowDomain <$> (map_to_list (domains (replay state_new events))).*1 ∧
  row_kind <$> ruleset_rows m sel ≡ₚ RowRuleset <$> (map_to_list (rulesets (replay state_new events))).*1 ∧
  under_headings None denial_kinds ≡ₚ (λ key, (Some (key_domain_id key), key)) <$> keys ∧
  omap denial_domain_of denial_kinds ≡ₚ remove_dups (key_domain_id <$> keys).
Proof.
  simpl. rewrite <- model_denial_keys.
  split_and!; [apply domain_row_kinds|apply ruleset_row_kinds| |].
  - rewrite (well_placed_eq (under_headings None _)) by apply denial_rows_well_placed.
    by rewrite under_headings_snd, denial_row_keys.
  - etrans; [apply denial_row_domains|]. by rewrite <- (list_fmap_compose ad_key key_domain_id).
Qed.
End rows.
