(* ===== verification/TuiSpec.v ===== *)
(** * What the interactive view guarantees (lltop/src/tui) *)

From S2P Require Import Prelude Lattice CapturedBytes Event State StateWf StateHistory Aggregate AggregateSpec Collector Text Utf8 Display TuiFormat Batch BatchCount Model ModelSpec ModelTheorems Ui UiRows UiDraw Errors Tui UiSpec RowsSpec.

(** What the program relies on in ratatui: empty text takes no room. *)
Class RatatuiLaws `{Ratatui} := { display_width_empty : display_width [] = 0 }.

(** ** Kinds of the rows of a tab *)

Definition kind_of_tab (t : Tab) (kind : RowKind) : bool :=
  match t, kind with
  | _, Heading => true
  | Domains, RowDomain _ => true
  | Denials, RowDenialDomain _ => true
  | Denials, RowDenial _ => true
  | Rulesets, RowRuleset _ => true
  | _, _ => false
  end.

Section drawn.
Context `{Unicode} `{Ratatui}.
Variable iter : gmap DenialKey AggregatedDenial → list Entry.
Variable iter_state : gmap DomainId DomainState → list DomainState.
Variable iter_known : gmap DomainId DomainState → list (DomainId * DomainState).

Lemma denial_rows_kinds m sel : Forall (λ row, kind_of_tab Denials (row_kind row) = true) (denial_rows iter m sel).
Proof.
  unfold denial_rows. generalize (sort_by by_total (map_to_list (group_by (λ d, key_domain_id (ad_key d))
    (iter (agg_entries (model_denials m))).*2))).
  set (tgt := match sel with Some (RowDenial key) => _ | _ => _ end). clearbody tgt. intros ds.
  assert (∀ e, Forall (λ row, kind_of_tab Denials (row_kind row) = true) (denial_domain_rows m sel tgt e)) as He.
  { intros e. constructor; [done|]. apply Forall_bind, Forall_forall. intros g _. constructor; [done|].
    by apply Forall_fmap, Forall_forall. }
  cut (∀ acc, Forall (λ row, kind_of_tab Denials (row_kind row) = true) acc →
    Forall (λ row, kind_of_tab Denials (row_kind row) = true) (foldl (λ rows entry,
      rows ++ (match rows with [] => [] | _ => [heading_row [] theme.normal] end) ++
      denial_domain_rows m sel tgt entry) acc ds)); [by auto|].
  induction ds as [|e ds IH]; intros acc Hacc; [done|]. cbn [foldl]. apply IH.
  rewrite !Forall_app. split_and!; [done| |done]. destruct acc; by repeat constructor.
Qed.

Lemma rows_of_kinds a m :
  Forall (λ row, kind_of_tab (tab a) (row_kind row) = true) (rows_of iter iter_state iter_known a m).
Proof.
  unfold rows_of. destruct (tab a); [|apply denial_rows_kinds| |constructor].
  - unfold domain_rows. apply Forall_forall. intros row ([id trail] & _ & Hr)%list_elem_of_omap.
    apply fmap_Some in Hr as (d & _ & ->). done.
  - by apply Forall_fmap, Forall_forall.
Qed.

Lemma wrap_row_kind w row line : line ∈ wrap_row w row → row_kind line = row_kind row.
Proof. unfold wrap_row. intros (i & l & -> & _)%elem_of_lookup_imap. done. Qed.

(** What [draw] does to the application state. *)
Lemma draw_state area a m :
  let a' := (draw iter iter_state iter_known area a m).1 in
  tab a' = tab a ∧ selected a' = selected a ∧ detail a' = detail a ∧ paused a' = paused a ∧
  ∀ kind, kind ∈ hit_rows (hit a') → kind ∈ row_kind <$> rows_of iter iter_state iter_known a m.
Proof.
  unfold draw. destruct (default _ (vertical_areas _)) as [[tabs_area main_area] footer_area].
  set (a1 := with_hit _ a). destruct (default _ (pane_areas _)) as [list_area detail_area].
  case_decide as Ht; simpl; [split_and!; [done..|by intros ? ?%not_elem_of_nil]|].
  split_and!; [done..|]. intros kind (line & -> & Hl)%list_elem_of_fmap.
  apply list_elem_of_bind in Hl as (row & Hl & Hrow). rewrite (wrap_row_kind _ _ _ Hl). by apply list_elem_of_fmap_2.
Qed.
End drawn.

(** ** Inputs keep the invariant *)

Lemma distinct_neighbours_elem rows k : k ∈ distinct_neighbours rows → k ∈ rows.
Proof.
  induction rows as [|x rows IH]; [done|]. destruct rows as [|y rows]; [done|].
  change (distinct_neighbours (x :: y :: rows)) with
    (if decide (x = y) then distinct_neighbours (y :: rows) else x :: distinct_neighbours (y :: rows)).
  case_decide; rewrite ?elem_of_cons in *; naive_solver.
Qed.

Lemma visited_rows_elem rows k : k ∈ visited_rows rows → k ∈ rows ∧ selectable k = true.
Proof. intros Hk%distinct_neighbours_elem. by apply list_elem_of_filter in Hk as [? ?]. Qed.

Section inputs.
(** What may be selected on a tab. *)
Variable known : Tab → RowKind → Prop.

(** The selection may be one of its tab, and details are shown of a selection. *)
Definition app_ok (a : App) : Prop :=
  (∀ kind, selected a = Some kind → known (tab a) kind) ∧ (detail a = true → is_Some (selected a)).

(** So may the rows recorded for clicks, but for headings. *)
Definition hit_ok (a : App) : Prop :=
  ∀ kind, kind ∈ hit_rows (hit a) → selectable kind = true → known (tab a) kind.

Lemma select_ok kind a :
  kind ∈ hit_rows (hit a) → selectable kind = true → hit_ok a → app_ok (select kind a).
Proof. intros Hk Hs Hh. split; simpl; [|by eexists]. intros ? [= <-]. auto. Qed.

Lemma set_tab_ok t a : app_ok (set_tab t a).
Proof. by split. Qed.

Lemma scroll_ok n f a : app_ok a → app_ok (with_scroll n f a).
Proof. done. Qed.

Lemma move_selection_ok delta a : app_ok a → hit_ok a → app_ok (move_selection delta a).
Proof.
  intros Ha Hh. rewrite move_selection_spec. destruct (_ !! _) as [k|] eqn:Hk; [|done].
  apply list_elem_of_lookup_2, visited_rows_elem in Hk as [Hk Hs]. by apply select_ok.
Qed.

Lemma click_row_ok column row a : app_ok a → hit_ok a → app_ok (click_row column row a).
Proof.
  intros Ha Hh. unfold click_row. repeat (case_match; try done). apply select_ok; [|done..].
  by eapply list_elem_of_lookup_2.
Qed.

Lemma drag_scrollbar_ok row a : app_ok a → app_ok (drag_scrollbar row a).
Proof. intros Ha. unfold drag_scrollbar. by case_match. Qed.

Variable m : ObservationModel.
Hypothesis rulesets_known : ∀ id ruleset,
  domain (model_state m) id ≫= domain_ruleset = Some ruleset → known Rulesets (RowRuleset ruleset).

Lemma follow_domain_ok a : app_ok a → app_ok (follow_domain m a).
Proof.
  intros Ha. unfold follow_domain. repeat (case_match; try done); (split; simpl; [|by eexists]);
    intros ? [= <-]; by eapply rulesets_known.
Qed.

Lemma handle_input_ok input a a' :
  app_ok a → hit_ok a → handle_input m input a = Some a' → app_ok a'.
Proof.
  intros Ha Hh. destruct input as [code|kind column row|]; simpl; [|intros [= <-]|by intros [= <-]].
  - destruct code as [c| | | | | |]; simpl.
    + repeat case_match; by intros [= <-].
    + case_match; [|done]. intros [= <-]. by destruct Ha.
    + intros [= <-]. apply set_tab_ok.
    + intros [= <-]. by apply move_selection_ok.
    + intros [= <-]. by apply move_selection_ok.
    + intros [= <-]. by apply follow_domain_ok.
    + by intros [= <-].
  - destruct kind; simpl; try done.
    + case_match; [done|]. case_match; [by apply drag_scrollbar_ok|by apply click_row_ok].
    + case_match; [by apply drag_scrollbar_ok|done].
Qed.
End inputs.

(** ** Draining the collector *)

#[global] Arguments recoverable_collector_error : simpl never.

Section draining.
Context {BpfError : Type} (display_bpf : BpfError → string).
Variable iter : gmap DenialKey AggregatedDenial → list Entry.

Notation Answer := (result Event (TryReceiveError (BpfError := BpfError))).

Definition events_of (answers : list Answer) : list Event := omap ok answers.

(** The answers on which the loop ends: nothing is ready, or the error is not
    recoverable. *)
Definition stops (answer : Answer) : bool :=
  match answer with
  | Ok _ => false
  | Err TryEmpty => true
  | Err (TryCollector e) => negb (recoverable_collector_error (Some (error_kind_of e)))
  end.

(** The warning a recoverable error leaves. *)
Definition warn (a : App) (answer : Answer) : App :=
  match answer with
  | Err (TryCollector e) =>
      if recoverable_collector_error (Some (error_kind_of e))
      then set_collector_warning (lit (display_receive_error display_bpf e)) a else a
  | _ => a
  end.

(** How the loop ended, after the answers [used]. *)
Definition drain_end (count : N) (used : list Answer) (r : result N (TryReceiveError (BpfError := BpfError))) : Prop :=
  match r with
  | Ok n =>
      n = count + len (events_of used) ∧
      ((n = MAX_READY_EVENTS_PER_CYCLE ∧ Forall (λ x, stops x = false) used) ∨
       ∃ before, used = before ++ [Err TryEmpty] ∧ Forall (λ x, stops x = false) before)
  | Err e =>
      ∃ before, used = before ++ [Err e] ∧ e ≠ TryEmpty ∧ stops (Err e) = true ∧
        Forall (λ x, stops x = false) before
  end.

Lemma drain_end_cons count answer used r :
  stops answer = false → drain_end (count + len (events_of [answer])) used r → drain_end count (answer :: used) r.
Proof.
  intros Hs. destruct r as [n|e]; simpl.
  - intros [Hn Hend]. split.
    + rewrite Hn. unfold events_of, len. simpl. destruct (ok answer); simpl; lia.
    + destruct Hend as [[-> Hf]|(before & -> & Hf)]; [left; split; [done|by constructor]|].
      right. exists (answer :: before). split; [done|by constructor].
  - intros (before & -> & ? & ? & ?). exists (answer :: before). split_and!; [done..|by constructor].
Qed.

Lemma len_cons {A} (x : A) l : len (x :: l) = 1 + len l.
Proof. unfold len. simpl. lia. Qed.

(** [lia] on lengths. *)
Ltac len_lia := unfold events_of, len in *; simpl in *; lia.

Lemma drain_run count answers a m d :
  count <= MAX_READY_EVENTS_PER_CYCLE → drain_loop display_bpf iter count answers a m = Some d →
  ∃ used, answers = used ++ drained_rest d ∧
    drained_model d = model_observe_all iter m (events_of used) ∧ drained_app d = foldl warn a used ∧
    count + len (events_of used) <= MAX_READY_EVENTS_PER_CYCLE ∧ drain_end count used (drained_result d).
Proof.
  revert count a m. induction answers as [|answer answers IH]; intros count a m Hc; simpl;
    destruct (N.ltb_spec count MAX_READY_EVENTS_PER_CYCLE) as [Hlt|Hge]; try done.
  1, 3: intros [= <-]; exists []; unfold events_of, len; simpl; split_and!; [done..|lia|len_lia|left; split; [lia|done]].
  destruct answer as [event|[|e]].
  - unfold saturating_add. rewrite N.min_r by (unfold MAX_READY_EVENTS_PER_CYCLE in *; unfold usize_max, u64_max; lia).
    intros Hd. apply IH in Hd as (used & -> & Hm & Ha & Hl & He); [|lia].
    exists (Ok event :: used). change (events_of (Ok event :: used)) with (event :: events_of used).
    rewrite len_cons. split_and!; [done|exact Hm|exact Ha|lia|].
    apply drain_end_cons; [done|]. exact He.
  - intros [= <-]. exists [Err TryEmpty]. unfold events_of, len. simpl. split_and!; [done..|lia|len_lia|].
    right. by exists [].
  - unfold handle_collector_error. simpl. destruct (recoverable_collector_error _) eqn:Hr.
    + intros Hd. apply IH in Hd as (used & -> & Hm & Ha & Hl & He); [|lia].
      exists (Err (TryCollector e) :: used). simpl. rewrite Hr. split_and!; [done..|].
      apply drain_end_cons; [simpl; by rewrite Hr|]. unfold events_of, len. simpl. by rewrite N.add_0_r.
    + intros [= <-]. exists [Err (TryCollector e)]. unfold events_of, len. simpl. rewrite Hr.
      split_and!; [done..|lia|]. exists []. split_and!; done.
Qed.

Lemma drain_returns_from count answers a m :
  count <= MAX_READY_EVENTS_PER_CYCLE →
  MAX_READY_EVENTS_PER_CYCLE <= count + len (events_of answers) ∨ Exists (λ x, stops x = true) answers →
  is_Some (drain_loop display_bpf iter count answers a m).
Proof.
  revert count a m. induction answers as [|answer answers IH]; intros count a m Hc He; simpl;
    destruct (N.ltb_spec count MAX_READY_EVENTS_PER_CYCLE) as [Hlt|Hge]; [|by eexists| |by eexists].
  { destruct He as [He|He%Exists_nil]; [|done]. unfold events_of, len in He. simpl in He. lia. }
  rewrite Exists_cons in He. destruct answer as [event|[|e]]; [|by eexists|].
  - unfold saturating_add. rewrite N.min_r by (unfold MAX_READY_EVENTS_PER_CYCLE in *; unfold usize_max, u64_max; lia).
    apply IH; [lia|]. change (events_of (Ok event :: answers)) with (event :: events_of answers) in He.
    rewrite len_cons in He. simpl in He. destruct He as [He|[He|He]]; [left; lia|done|by right].
  - unfold handle_collector_error. simpl. destruct (recoverable_collector_error _) eqn:Hr; [|by eexists].
    apply IH; [done|]. simpl in He. rewrite Hr in He. destruct He as [He|[He|He]]; [by left|done|by right].
Qed.

(** Recoverable errors are not counted: the loop asks for another answer after
    any number of them. *)
Lemma drain_errors_unbounded e n a m :
  recoverable_collector_error (Some (error_kind_of e)) = true →
  drain_ready_events display_bpf iter (replicate n (Err (TryCollector e))) a m = None.
Proof.
  intros Hr. unfold drain_ready_events. revert a. induction n as [|n IH]; intros a; [done|]. simpl.
  unfold handle_collector_error. simpl. rewrite Hr. apply IH.
Qed.
(** C29: the loop over ready entries returns as soon as the collector has
    nothing ready, has an error that is not recoverable, or has delivered
    [MAX_READY_EVENTS_PER_CYCLE] events. When it returns it has handled answers
    of the collector in order: the model observes exactly their events, at most
    that many, and the count is their number; the warning is that of the last
    recoverable error; and it ended at the bound, at the first empty answer, or
    at the first error that is not recoverable, which it returns. Recoverable
    errors are not counted: after any number of them it asks again. *)
Theorem drain_spec answers a m :
  (MAX_READY_EVENTS_PER_CYCLE <= len (events_of answers) ∨ Exists (λ x, stops x = true) answers →
   is_Some (drain_ready_events display_bpf iter answers a m)) ∧
  (∀ d, drain_ready_events display_bpf iter answers a m = Some d →
   ∃ used, answers = used ++ drained_rest d ∧
     drained_model d = model_observe_all iter m (events_of used) ∧ drained_app d = foldl warn a used ∧
     len (events_of used) <= MAX_READY_EVENTS_PER_CYCLE ∧ drain_end 0 used (drained_result d)) ∧
  (∀ e n, recoverable_collector_error (Some (error_kind_of e)) = true →
   drain_ready_events display_bpf iter (replicate n (Err (TryCollector e))) a m = None).
Proof.
  split_and!; [by apply (drain_returns_from 0)| |intros e n; apply drain_errors_unbounded].
  intros d Hd. apply drain_run in Hd; [|done]. exact Hd.
Qed.

End draining.
