(* ===== verification/TuiTheorems.v ===== *)
(** * Theorems on the interactive view (lltop/src/tui) *)

From S2P Require Import Prelude Lattice CapturedBytes Event State StateWf StateHistory Aggregate AggregateSpec Collector Text Utf8 Display TuiFormat Batch BatchCount Model ModelSpec ModelTheorems Ui UiRows UiDraw Errors Terminal Tui UiSpec RowsSpec TuiSpec.

(** ** Rows and their lines *)

#[export] Instance RowDomain_inj : Inj (=) (=) RowDomain.
Proof. by intros ? ? [=]. Qed.
#[export] Instance RowRuleset_inj : Inj (=) (=) RowRuleset.
Proof. by intros ? ? [=]. Qed.

Lemma distinct_neighbours_block n k rest :
  head rest ≠ Some k → distinct_neighbours (replicate (S n) k ++ rest) = k :: distinct_neighbours rest.
Proof.
  intros Hh. induction n as [|n IH].
  - simpl. destruct rest as [|y rest]; [done|]. simpl in Hh. by rewrite decide_False by congruence.
  - change (replicate (S (S n)) k ++ rest) with (k :: replicate (S n) k ++ rest). rewrite <- IH.
    simpl. by rewrite decide_True.
Qed.

(** Repeating each of distinct elements some times changes nothing. *)
Lemma distinct_neighbours_blocks (l : list RowKind) (count : list nat) :
  NoDup l → length count = length l →
  distinct_neighbours (mjoin (zip_with (λ k n, replicate (S n) k) l count)) = l.
Proof.
  revert count. induction l as [|k l IH]; intros [|n count]; try done. intros [Hk Hl]%NoDup_cons [= Hc].
  change (distinct_neighbours (replicate (S n) k ++ mjoin (zip_with (λ k n, replicate (S n) k) l count)) = k :: l).
  rewrite distinct_neighbours_block; [by rewrite IH|].
  destruct l as [|y l]; [done|]. destruct count as [|n' count]; [done|]. simpl. set_solver.
Qed.

Lemma filter_replicate {A} (P : A → Prop) `{∀ x, Decision (P x)} n (x : A) :
  filter P (replicate n x) = if decide (P x) then replicate n x else [].
Proof.
  induction n as [|n IH]; [by case_decide|]. cbn [replicate]. rewrite filter_cons, IH. by case_decide.
Qed.

Lemma omap_NoDup_inj {B} (f : RowKind → option B) (l : list RowKind) k b :
  NoDup (omap f (k :: l)) → f k = Some b → k ∉ l.
Proof.
  simpl. intros Hn Hf. rewrite Hf in Hn. apply NoDup_cons in Hn as [Hb _]. intros Hk. apply Hb.
  apply list_elem_of_omap. by exists k.
Qed.

Lemma omap_NoDup_tail {A B} (f : A → option B) x l : NoDup (omap f (x :: l)) → NoDup (omap f l).
Proof. simpl. destruct (f x); [by intros [_ ?]%NoDup_cons|done]. Qed.

Section rows.
Context `{Unicode} `{Ratatui}.
Context `{!RatatuiLaws}.
Variable iter : gmap DenialKey AggregatedDenial → list Entry.
Variable iter_state : gmap DomainId DomainState → list DomainState.
Variable iter_known : gmap DomainId DomainState → list (DomainId * DomainState).

Lemma wrap_row_kinds w row : ∃ n, row_kind <$> wrap_row w row = replicate (S n) (row_kind row).
Proof.
  unfold wrap_row, wrapped. match goal with |- context [wrap display_width ?s ?x ?y] =>
    destruct (wrap_total display_width display_width_empty s x y) as (line & lines & ->) end.
  exists (length lines). cbn [default from_option id].
  assert (∀ (g : nat → text → DisplayRow) ls, (∀ i l, row_kind (g i l) = row_kind row) →
    row_kind <$> imap g ls = replicate (length ls) (row_kind row)) as Hg.
  { intros g ls Hg. revert g Hg. induction ls as [|l ls IH]; intros g Hg; [done|]. csimpl.
    rewrite Hg. f_equal. apply IH. intros; apply Hg. }
  by apply (Hg _ (line :: lines)).
Qed.

(** What can be selected does not depend on how the rows were wrapped. *)
Lemma visited_wrapped w rows :
  NoDup (filter (λ k, selectable k = true) (row_kind <$> rows)) →
  visited_rows (row_kind <$> (rows ≫= wrap_row w)) = filter (λ k, selectable k = true) (row_kind <$> rows).
Proof.
  intros Hn. unfold visited_rows.
  assert (∃ count, length count = length (filter (λ k, selectable k = true) (row_kind <$> rows)) ∧
    filter (λ k, selectable k = true) (row_kind <$> (rows ≫= wrap_row w)) =
    mjoin (zip_with (λ k n, replicate (S n) k) (filter (λ k, selectable k = true) (row_kind <$> rows)) count))
    as (count & Hc & ->); [|by apply distinct_neighbours_blocks].
  clear Hn. induction rows as [|row rows (count & Hc & IH)]; [by exists []|].
  rewrite bind_cons, fmap_app, filter_app, IH. destruct (wrap_row_kinds w row) as [n ->].
  rewrite fmap_cons, filter_cons, filter_replicate. destruct (decide (selectable (row_kind row) = true)) as [Hs|Hs].
  - exists (n :: count). split; [simpl; by rewrite Hc|done].
  - by exists count.
Qed.
(** The kinds of the rows do not depend on the selection. *)
Lemma denial_rows_kinds_eq m sel sel' :
  row_kind <$> denial_rows iter m sel = row_kind <$> denial_rows iter m sel'.
Proof.
  unfold denial_rows. set (tgt := match sel with Some (RowDenial key) => _ | _ => _ end).
  set (tgt' := match sel' with Some (RowDenial key) => _ | _ => _ end). clearbody tgt tgt'.
  generalize (sort_by by_total (map_to_list (group_by (λ d, key_domain_id (ad_key d))
    (iter (agg_entries (model_denials m))).*2))). intros ds.
  assert (∀ e, row_kind <$> denial_domain_rows m sel tgt e = row_kind <$> denial_domain_rows m sel' tgt' e) as He.
  { intros e. unfold denial_domain_rows. csimpl. f_equal. rewrite !fmap_bind. apply list_bind_ext; [|done].
    intros g. unfold group_rows. csimpl. f_equal. rewrite <- !list_fmap_compose. by apply list_fmap_ext. }
  cut (∀ acc acc', row_kind <$> acc = row_kind <$> acc' →
    row_kind <$> foldl (λ rows entry, rows ++ (match rows with [] => [] | _ => [heading_row [] theme.normal] end) ++
      denial_domain_rows m sel tgt entry) acc ds =
    row_kind <$> foldl (λ rows entry, rows ++ (match rows with [] => [] | _ => [heading_row [] theme.normal] end) ++
      denial_domain_rows m sel' tgt' entry) acc' ds); [by auto|].
  induction ds as [|e ds IH]; intros acc acc' Hacc; [done|]. cbn [foldl]. apply IH.
  rewrite !fmap_app, He, Hacc. f_equal. f_equal. by destruct acc, acc'.
Qed.

Lemma rows_of_kinds_eq a a' m :
  tab a = tab a' →
  row_kind <$> rows_of iter iter_state iter_known a m = row_kind <$> rows_of iter iter_state iter_known a' m.
Proof.
  unfold rows_of. intros ->. destruct (tab a'); [|apply denial_rows_kinds_eq| |done].
  - unfold domain_rows. induction (default [] _) as [|[id trail] rows IH]; [done|]. csimpl.
    destruct (domain (model_state m) id); csimpl; [by f_equal|done].
  - unfold ruleset_rows. rewrite <- !list_fmap_compose. by apply list_fmap_ext.
Qed.

Hypothesis iter_enumerates : ∀ m, iter m ≡ₚ map_to_list m.
Hypothesis iter_state_enumerates : ∀ m, iter_state m ≡ₚ (map_to_list m).*2.
Hypothesis iter_known_enumerates : ∀ m, iter_known m ≡ₚ map_to_list m.

Lemma NoDup_denial_kinds (l : list RowKind) :
  Forall (λ k, kind_of_tab Denials k = true) l → NoDup (omap denial_of l) → NoDup (omap denial_domain_of l) →
  NoDup (filter (λ k, selectable k = true) l).
Proof.
  induction l as [|k l IH]; [constructor|]. intros [Hk Hl]%Forall_cons Hd Hm. rewrite filter_cons.
  pose proof (omap_NoDup_tail _ _ _ Hd) as Hd'. pose proof (omap_NoDup_tail _ _ _ Hm) as Hm'.
  case_decide as Hs; [|auto]. apply NoDup_cons. split; [|auto]. rewrite list_elem_of_filter. intros [_ Hin].
  destruct k; try done.
  - by eapply (omap_NoDup_inj denial_domain_of l (RowDenialDomain id)).
  - by eapply (omap_NoDup_inj denial_of l (RowDenial key)).
Qed.

Lemma NoDup_rows a events :
  NoDup (filter (λ k, selectable k = true)
    (row_kind <$> rows_of iter iter_state iter_known a (model_after iter events))).
Proof.
  pose proof (rows_of_kinds iter iter_state iter_known a (model_after iter events)) as Hk.
  unfold rows_of in *. destruct (tab a); [| | |constructor].
  - apply NoDup_filter. rewrite domain_row_kinds by done. apply (NoDup_fmap_2 _), NoDup_fst_map_to_list.
  - apply NoDup_denial_kinds; [by apply Forall_fmap| |].
    + rewrite denial_row_keys, model_denial_keys by done. apply NoDup_fst_map_to_list.
    + rewrite denial_row_domains by done. apply NoDup_remove_dups.
  - apply NoDup_filter. rewrite ruleset_row_kinds. apply (NoDup_fmap_2 _), NoDup_fst_map_to_list.
Qed.

(** ** The keyboard *)

Context {BpfError : Type} (display_bpf : BpfError → string).

(** A cycle in which no event arrives, a key is pressed and the terminal has no
    errors. *)
Definition key_pressed (code : KeyCode) (area : Rect) :
    CycleInput (T := unit) (IoError := Empty_set) (BpfError := BpfError) :=
  mkCycleInput (Err Timeout) [Err TryEmpty] area (λ _ t, (t, Ok ())) (Ok (Some (KeyPress code))).

(** Cycles in which the same key is pressed, the terminal having the given
    sizes. *)
Fixpoint press (code : KeyCode) (areas : list Rect) (a : App) (m : ObservationModel) : option App :=
  match areas with
  | [] => Some a
  | area :: areas =>
      match cycle display_bpf iter iter_state iter_known (key_pressed code area) a m () with
      | Some (_, Continue a m) => press code areas a m
      | _ => None
      end
  end.

(** The arrow keys and the way they move. *)
Inductive arrow : KeyCode → Z → Prop :=
| arrow_up : arrow Up (-1)
| arrow_down : arrow Down 1.

Lemma press_cons code delta area areas a m :
  arrow code delta →
  press code (area :: areas) a m = press code areas (move_selection delta (draw iter iter_state iter_known area a m).1) m.
Proof.
  intros Hc. simpl. unfold cycle. cbn [in_first in_answers key_pressed]. simpl.
  assert (draw_and_handle iter iter_state iter_known (key_pressed code area) a m () =
    ((), Continue (move_selection delta (draw iter iter_state iter_known area a m).1) m)) as ->.
  { unfold draw_and_handle. simpl. destruct (draw _ _ _ area a m). by destruct Hc. }
  by destruct (paused a).
Qed.

Lemma draw_visited area a events :
  tab a ≠ TabStats →
  visited_rows (hit_rows (hit (draw iter iter_state iter_known area a (model_after iter events)).1)) =
  filter (λ k, selectable k = true)
    (row_kind <$> rows_of iter iter_state iter_known a (model_after iter events)).
Proof.
  intros Ht. unfold draw. destruct (default _ (vertical_areas _)) as [[tabs_area main_area] footer_area].
  set (a1 := with_hit _ a). destruct (default _ (pane_areas _)) as [list_area detail_area].
  rewrite decide_False by done. simpl. rewrite visited_wrapped by apply NoDup_rows.
  done.
Qed.

(** The rows that can be selected on the tab of [a]. *)
Definition tab_rows (events : list Event) (a : App) : list RowKind :=
  filter (λ k, selectable k = true) (row_kind <$> rows_of iter iter_state iter_known a (model_after iter events)).

Section arrows.
Variable events : list Event.
Variable a0 : App.
Hypothesis a0_list : tab a0 ≠ TabStats.
Let rows := tab_rows events a0.
Hypothesis rows_bound : len rows < usize_max.

(** One press of an arrow key on the tab of [a0]. *)
Lemma press_arrow code delta area areas a :
  arrow code delta → tab a = tab a0 → rows ≠ [] →
  ∃ a1, press code (area :: areas) a (model_after iter events) = press code areas a1 (model_after iter events) ∧
    tab a1 = tab a0 ∧
    selected a1 = rows !! N.to_nat (next_selection
      (k ← selected a; position (λ k', bool_decide (k' = k)) rows) delta (len rows - 1)).
Proof.
  intros Hc Ht Hne. rewrite (press_cons _ delta) by done. eexists. split; [done|].
  destruct (draw_state iter iter_state iter_known area a (model_after iter events)) as (Htab & Hsel & _ & _ & _).
  split; [by rewrite move_selection_tab, Htab|].
  assert (visited_rows (hit_rows (hit (draw iter iter_state iter_known area a (model_after iter events)).1)) = rows) as Hv.
  { rewrite draw_visited by (by rewrite Ht). unfold rows, tab_rows. f_equal. by apply rows_of_kinds_eq. }
  rewrite move_selection_selected by (by rewrite Hv). unfold current_row. by rewrite Hv, Hsel.
Qed.

Lemma position_row i k : rows !! i = Some k → position (λ k', bool_decide (k' = k)) rows = Some (N.of_nat i).
Proof. apply position_NoDup, NoDup_rows. Qed.

Lemma press_down_from areas a i :
  tab a = tab a0 → selected a = rows !! i → (i + length areas < length rows)%nat →
  ∃ a', press Down areas a (model_after iter events) = Some a' ∧ selected a' = rows !! (i + length areas)%nat.
Proof.
  revert a i. induction areas as [|area areas IH]; intros a i Ht Hs Hi; [exists a; by rewrite Nat.add_0_r|].
  simpl in Hi. assert (rows ≠ []) as Hne by (intros E; rewrite E in Hi; simpl in Hi; lia).
  destruct (press_arrow Down 1 area areas a arrow_down Ht Hne) as (a1 & -> & Ht1 & Hs1).
  destruct (lookup_lt_is_Some_2 rows i) as [k Hk]; [lia|]. rewrite Hs, Hk in Hs1. simpl in Hs1.
  rewrite (position_row i k Hk) in Hs1. unfold next_selection, saturating_add in Hs1. simpl in Hs1.
  simpl length. rewrite <- Nat.add_succ_comm. apply IH; [done| |lia]. rewrite Hs1. f_equal. unfold len in *. lia.
Qed.

Lemma press_up_from areas a i :
  tab a = tab a0 → selected a = rows !! i → (i < length rows)%nat → (length areas ≤ i)%nat →
  ∃ a', press Up areas a (model_after iter events) = Some a' ∧ selected a' = rows !! (i - length areas)%nat.
Proof.
  revert a i. induction areas as [|area areas IH]; intros a i Ht Hs Hi Hle; [exists a; by rewrite Nat.sub_0_r|].
  simpl in Hle. assert (rows ≠ []) as Hne by (intros E; rewrite E in Hi; simpl in Hi; lia).
  destruct (press_arrow Up (-1) area areas a arrow_up Ht Hne) as (a1 & -> & Ht1 & Hs1).
  destruct (lookup_lt_is_Some_2 rows i Hi) as [k Hk]. rewrite Hs, Hk in Hs1. simpl in Hs1.
  rewrite (position_row i k Hk) in Hs1. unfold next_selection, saturating_sub in Hs1. simpl in Hs1.
  replace (i - length (area :: areas))%nat with (i - 1 - length areas)%nat by (simpl; lia).
  apply IH; [done| |lia..]. rewrite Hs1. f_equal. lia.
Qed.

(** From a selection that is none of the rows, Down goes to the first. *)
Lemma press_down_first area areas a :
  tab a = tab a0 → (k ← selected a; position (λ k', bool_decide (k' = k)) rows) = None →
  (length areas < length rows)%nat →
  ∃ a', press Down (area :: areas) a (model_after iter events) = Some a' ∧ selected a' = rows !! length areas.
Proof.
  intros Ht Hs Hl. assert (rows ≠ []) as Hne by (intros E; rewrite E in Hl; simpl in Hl; lia).
  destruct (press_arrow Down 1 area areas a arrow_down Ht Hne) as (a1 & -> & Ht1 & Hs1).
  rewrite Hs in Hs1. simpl in Hs1. by apply (press_down_from areas a1 0).
Qed.
End arrows.

(** C27: the keyboard reaches everything that is shown. While no event arrives,
    whatever is selected on one of the three lists, or nothing, and whether the
    view is paused or not: every row that can be selected is selected by
    pressing one of the arrow keys some number of times, whatever sizes the
    terminal takes meanwhile and however the rows are wrapped. *)
Theorem keyboard_reaches_rows events a kind :
  let m := model_after iter events in
  tab a ≠ TabStats → len (rows_of iter iter_state iter_known a m) < usize_max →
  kind ∈ row_kind <$> rows_of iter iter_state iter_known a m → selectable kind = true →
  ∃ code n, (code = Up ∨ code = Down) ∧
    ∀ areas, length areas = n → ∃ a', press code areas a m = Some a' ∧ selected a' = Some kind.
Proof.
  intros m Ht Hlen Hk Hsel. set (rows := tab_rows events a).
  assert (kind ∈ rows) as [i Hi]%list_elem_of_lookup_1 by by apply list_elem_of_filter.
  assert (len rows < usize_max) as Hb.
  { eapply N.le_lt_trans; [|exact Hlen]. unfold len, rows, tab_rows. fold m.
    pose proof (length_filter (λ k, selectable k = true) (row_kind <$> rows_of iter iter_state iter_known a m)) as Hl.
    rewrite length_fmap in Hl. lia. }
  pose proof (lookup_lt_Some _ _ _ Hi) as Hil.
  destruct (k ← selected a; position (λ k', bool_decide (k' = k)) rows) as [j|] eqn:Hj.
  - destruct (selected a) as [k|] eqn:Hs; [|done]. simpl in Hj.
    apply position_Some in Hj as (l1 & k' & l2 & Hr & <- & Hk' & _). apply bool_decide_eq_true in Hk' as ->.
    assert (rows !! length l1 = Some k) as Hjr by (rewrite Hr; by apply list_lookup_middle).
    pose proof (lookup_lt_Some _ _ _ Hjr) as Hjl. destruct (decide (length l1 ≤ i)%nat) as [Hle|Hgt].
    + exists Down, (i - length l1)%nat. split; [by right|]. intros areas Ha.
      destruct (press_down_from events a Ht Hb areas a (length l1)) as (a' & Hp & Hs'); [done|by rewrite Hs|fold rows; lia|].
      exists a'. split; [exact Hp|]. rewrite Hs'. fold rows. by replace (length l1 + length areas)%nat with i by lia.
    + exists Up, (length l1 - i)%nat. split; [by left|]. intros areas Ha.
      destruct (press_up_from events a Ht Hb areas a (length l1)) as (a' & Hp & Hs'); [done|by rewrite Hs|done|lia|].
      exists a'. split; [exact Hp|]. rewrite Hs'. fold rows. by replace (length l1 - length areas)%nat with i by lia.
  - exists Down, (S i). split; [by right|]. intros [|area areas] Ha; [done|]. injection Ha as <-.
    destruct (press_down_first events a Ht Hb area areas a) as (a' & Hp & Hs'); [done..|].
    exists a'. split; [exact Hp|]. by rewrite Hs'.
Qed.
End rows.

(** ** The mouse *)

Section mouse.
Context `{Unicode} `{Ratatui}.

Lemma viewport_le scroll row_count visible selected_index follow :
  (∀ index, selected_index = Some index → index < row_count) →
  viewport_scroll scroll row_count visible selected_index follow <= row_count.
Proof.
  intros Hi. unfold viewport_scroll, saturating_sub, saturating_add. destruct follow; simpl; [|lia].
  destruct selected_index as [index|]; [|lia]. specialize (Hi index eq_refl). repeat case_match; lia.
Qed.

(** The lines of the list that are visible. *)
Definition shown_lines (area : Rect) (a : App) (rows : list DisplayRow) : list DisplayRow :=
  take (N.to_nat (rect_height area - 2))
    (drop (N.to_nat (scroll (draw_list area a rows).1)) (rows ≫= wrap_row (rect_width area - 2))).

(** A click selects what is under the pointer. The list widget shows the
    lines [shown_lines]; a click on its line [line], at any column of the list,
    selects the row that this line belongs to, or nothing when the line is a
    heading or empty. *)
Theorem click_selects_drawn area a rows column line :
  let a' := (draw_list area a rows).1 in
  rect_x area + rect_width area <= u16_max → rect_y area + rect_height area <= u16_max →
  rect_x area <= column < rect_x area + rect_width area → line < rect_height area - 2 →
  len (rows ≫= wrap_row (rect_width area - 2)) + rect_height area <= usize_max →
  (∃ title widgets, (draw_list area a rows).2 =
     (ListWidget title ((λ row, (row_text row, row_style row)) <$> shown_lines area a rows), area) :: widgets) ∧
  click_row column (rect_y area + 1 + line) a' =
  match shown_lines area a rows !! N.to_nat line with
  | Some row => if selectable (row_kind row) then select (row_kind row) a' else a'
  | None => a'
  end.
Proof.
  intros a' Hx Hy [Hc1 Hc2] Hl Hlen. split; [by eexists _, _|].
  set (lines := rows ≫= wrap_row (rect_width area - 2)) in *.
  assert (scroll a' <= len lines) as Hs.
  { simpl. apply viewport_le. intros index Hi. destruct (selected a); [|done]. by eapply position_bound. }
  assert (hit_list (hit a') = area) as Ha by done. assert (hit_header_rows (hit a') = 1) as Hh by done.
  assert (hit_rows (hit a') = row_kind <$> lines) as Hr by done.
  unfold shown_lines. fold a' lines. clearbody a' lines.
  unfold click_row. rewrite Ha, Hh, Hr. unfold checked_add, checked_sub, saturating_sub, saturating_add.
  rewrite !(proj2 (N.leb_le _ _)) by lia. simpl.
  rewrite (proj2 (N.ltb_ge _ _)), (proj2 (N.leb_gt _ _)), (proj2 (N.leb_gt _ _)), (proj2 (N.leb_gt _ _)) by lia. simpl.
  rewrite !(proj2 (N.leb_le _ _)) by lia. simpl. rewrite !(proj2 (N.leb_le _ _)) by lia.
  rewrite N.min_r by lia. rewrite list_lookup_fmap.
  rewrite lookup_take_lt by lia. rewrite lookup_drop.
  replace (N.to_nat (scroll a' + _)) with (N.to_nat (scroll a') + N.to_nat line)%nat by lia.
  by destruct (lines !! _).
Qed.

(** Dragging the scrollbar keeps the list in bounds: the top of the track
    shows the first row, its bottom the last rows, every place in between a
    position in range, and lower places never an earlier one. *)
Theorem drag_scrollbar_bounds row row' a :
  let area := hit_list (hit a) in
  let rows := len (hit_rows (hit a)) in
  rect_y area < u16_max → rect_height area <= u16_max → rows <= u32_max → 3 < rect_height area →
  let visible := rect_height area - 2 in
  scroll (drag_scrollbar row a) <= rows - visible ∧
  (row <= rect_y area + 1 → scroll (drag_scrollbar row a) = 0) ∧
  (rect_y area + visible <= row → scroll (drag_scrollbar row a) = rows - visible) ∧
  (row <= row' → scroll (drag_scrollbar row a) <= scroll (drag_scrollbar row' a)).
Proof.
  intros area rows Hy Hh Hr H3 visible. unfold drag_scrollbar, checked_add. fold area rows.
  rewrite (proj2 (N.leb_le _ _)) by (unfold u16_max in *; lia). unfold scroll_to, with_scroll, saturating_sub. simpl.
  fold visible. rewrite !(N.max_l visible 1) by lia. rewrite !(N.max_l (visible - 1) 1) by lia.
  assert (∀ r, N.min r (visible - 1) * (rows - visible) <= usize_max) as Hb.
  { intros r. trans (u16_max * u32_max); [|done]. apply N.mul_le_mono; lia. }
  assert (∀ r, N.min usize_max (N.min r (visible - 1) * (rows - visible)) / (visible - 1) =
    N.min r (visible - 1) * (rows - visible) / (visible - 1)) as He by (intros r; by rewrite N.min_r).
  rewrite !He. clear He Hb. split_and!.
  - apply N.Div0.div_le_upper_bound. apply N.mul_le_mono_r. lia.
  - intros Hrow. replace (row - (rect_y area + 1)) with 0 by lia. by rewrite N.min_0_l.
  - intros Hrow. rewrite N.min_r by lia. rewrite N.mul_comm. apply N.div_mul. lia.
  - intros Hrow. apply N.Div0.div_le_mono, N.mul_le_mono_r. lia.
Qed.
End mouse.

(** ** From start to end *)

Section run.
Context `{Unicode} `{Ratatui} {T BpfError IoError : Type} `{CrosstermLaws T IoError} (display_bpf : BpfError → string).
Variable iter : gmap DenialKey AggregatedDenial → list Entry.
Variable iter_state : gmap DomainId DomainState → list DomainState.
Variable iter_known : gmap DomainId DomainState → list (DomainId * DomainState).

Notation Input := (CycleInput (T := T) (BpfError := BpfError) (IoError := IoError)).

(** Writing to the terminal does not change its modes. *)
Definition keeps_modes (write : T → T * result unit IoError) : Prop := ∀ t, modes (write t).1 = modes t.

(** The collector's answers of a cycle come to an end, and the frame is written
    as an ordinary write. *)
Definition cycle_ends (i : Input) : Prop :=
  (MAX_READY_EVENTS_PER_CYCLE <= len (events_of (in_answers i)) ∨ Exists (λ x, stops x = true) (in_answers i)) ∧
  ∀ widgets, keeps_modes (in_write_frame i widgets).

Definition quit_pressed (i : Input) : Prop := in_event i = Ok (Some (KeyPress (Char 113))).

Lemma draw_and_handle_modes (i : Input) a m t t' outcome :
  cycle_ends i → draw_and_handle iter iter_state iter_known i a m t = (t', outcome) →
  modes t' = modes t ∧ (quit_pressed i → ∀ a m, outcome ≠ Continue a m).
Proof.
  intros [_ Hw]. unfold draw_and_handle. destruct (draw _ _ _ _ a m) as [a1 ws]. specialize (Hw ws t).
  destruct (in_write_frame i ws t) as [t1 [[]|e]]; simpl in Hw; intros [= <- <-]; (split; [done|]); intros Hq; [|done].
  by rewrite Hq.
Qed.

Lemma cycle_modes (i : Input) a m t :
  cycle_ends i →
  ∃ t' outcome, cycle display_bpf iter iter_state iter_known i a m t = Some (t', outcome) ∧ modes t' = modes t ∧
    (quit_pressed i → ∀ a m, outcome ≠ Continue a m).
Proof.
  intros Hi. unfold cycle.
  assert (∀ a m, ∃ t' outcome, Some (draw_and_handle iter iter_state iter_known i a m t) = Some (t', outcome) ∧
    modes t' = modes t ∧ (quit_pressed i → ∀ a m, outcome ≠ Continue a m)) as Hdraw.
  { intros a' m'. destruct (draw_and_handle iter iter_state iter_known i a' m' t) as [t' outcome] eqn:Hd.
    exists t', outcome. split; [done|]. by eapply draw_and_handle_modes. }
  destruct (paused a); [apply Hdraw|].
  destruct (receive_first display_bpf iter (in_first i) a m) as [[a1 m1]|e]; [|by eexists _, _].
  destruct (drain_returns_from display_bpf iter 0 (in_answers i) a1 m1) as [d Hd]; [done|apply Hi|].
  unfold drain_ready_events. rewrite Hd. simpl. destruct (drained_result d); [apply Hdraw|by eexists _, _].
Qed.

Lemma tui_loop_returns (inputs : list Input) a m t :
  Forall cycle_ends inputs → Exists quit_pressed inputs →
  ∃ t' r, tui_loop display_bpf iter iter_state iter_known inputs a m t = Some (t', r) ∧ modes t' = modes t.
Proof.
  intros Hf Hq. revert a m t. induction Hf as [|i inputs Hi Hf IH]; intros a m t; [by apply Exists_nil in Hq|]. simpl.
  destruct (cycle_modes i a m t Hi) as (t1 & outcome & -> & Hm & Hc). simpl.
  destruct outcome as [a1 m1| | | |]; try by eexists _, _.
  apply Exists_cons in Hq as [Hq|Hq]; [by edestruct Hc|].
  destruct (IH Hq a1 m1 t1) as (t' & r & -> & Hm'). exists t', r. split; [done|]. by rewrite Hm'.
Qed.

(** C13: the interactive mode returns once [q] is pressed, if not before, and
    gives the terminal back as it was. Whatever fails, and also when entering a
    mode reported an error after having had its effect: if the modes can be
    reset and drawing does not change them, they are off again at the end. *)
Theorem tui_run_restores setup (inputs : list Input) t :
  resettable → modes t = modes_off → keeps_modes setup → Forall cycle_ends inputs → Exists quit_pressed inputs →
  ∃ t' r, tui_run display_bpf iter iter_state iter_known setup inputs t = Some (t', r) ∧ modes t' = modes_off.
Proof.
  intros Hr Hoff Hs Hf Hq. unfold tui_run. destruct (enter t) as [t1 [session|e]] eqn:He.
  2: { apply enter_armed in He as (s & t2 & -> & Ha); [|done]. eexists _, _. split; [done|]. by apply drop_session_off. }
  apply enter_armed in He; [|done]. specialize (Hs t1).
  assert (∀ t2, modes t2 = modes t1 → modes (drop_session session t2) = modes_off) as Hd.
  { intros t2 Hm. apply drop_session_off; [done|]. unfold armed. by rewrite Hm. }
  destruct (setup t1) as [t2 [[]|e]]; simpl in *; [|eexists _, _; split; [done|by apply Hd]].
  destruct (tui_loop_returns inputs app_new model_new t2 Hf Hq) as (t3 & r & -> & Hm). simpl.
  eexists _, _. split; [done|]. apply Hd. by rewrite Hm.
Qed.
End run.

(** ** A concrete terminal *)

Module SampleRatatui.
(** Styles as the list of their settings; the areas split as ratatui does
    when there is room. *)
#[export] Instance sample_ratatui : Ratatui := {|
  LightCyan := 1; LightGreen := 2; DarkGray := 3; LightMagenta := 4; LightRed := 5; Gray := 6;
  Indexed := λ n, 100 + n;
  BOLD := 1001; DIM := 1002; ITALIC := 1003;
  style_new := [];
  fg := λ c s, c :: s; bg := λ c s, c :: s; add_modifier := λ m s, m :: s; patch := λ s s', s' ++ s;
  display_width := sample_width;
  split_vertical := λ r,
    [mkRect (rect_x r) (rect_y r) (rect_width r) 3;
     mkRect (rect_x r) (rect_y r + 3) (rect_width r) (rect_height r - 4);
     mkRect (rect_x r) (rect_y r + rect_height r - 1) (rect_width r) 1];
  split_horizontal := λ r,
    let left := rect_width r * 40 / 100 in
    [mkRect (rect_x r) (rect_y r) left (rect_height r);
     mkRect (rect_x r + left) (rect_y r) (rect_width r - left) (rect_height r)];
|}.

#[export] Instance sample_ratatui_laws : RatatuiLaws.
Proof. by split. Qed.
End SampleRatatui.

Section samples.
Import SampleUnicode SampleRatatui NoMouse.

Definition sample_area : Rect := mkRect 0 0 80 24.
Definition sample_values : gmap DomainId DomainState → list DomainState := λ m, (map_to_list m).*2.

Notation sample_draw := (draw map_to_list sample_values map_to_list sample_area).
Notation sample_model := (model_after map_to_list tree_stream).

(** The tree, and denials of two of its domains. *)
Definition denial_of_domain (id port t : N) : Event :=
  DenyAccessNet (mkDenyAccessNetEvent (from_nanoseconds t)
    (mkDenialContext (mkHierarchySnapshot (mkLandlockId (MIN_LANDLOCK_ID + id)) None (mkProcessId 7)
       (mkCapturedBytes [] false)) 1 true false)
    NET_ACCESS (mkNetworkAccess 2) 0 port).
Definition denials_stream : list Event :=
  tree_stream ++ [denial_of_domain 2 80 6; denial_of_domain 4 443 7; denial_of_domain 2 22 8; denial_of_domain 2 22 9].
Definition placed_offsets (l : list (option DomainId * DenialKey)) : list (option N * N) :=
  (λ p : option DomainId * DenialKey,
     ((λ id : DomainId, id_get id - MIN_LANDLOCK_ID) <$> p.1, id_get (key_domain_id p.2) - MIN_LANDLOCK_ID)) <$> l.

Lemma lists_show_everything_witness :
  let m := model_after map_to_list denials_stream in
  let keys := (map_to_list (agg_entries (observe_all map_to_list aggregator_new denials_stream))).*1 in
  let denial_kinds := row_kind <$> denial_rows map_to_list m None in
  row_kind <$> domain_rows sample_values map_to_list m None ≡ₚ
    RowDomain <$> (map_to_list (domains (replay state_new denials_stream))).*1 ∧
  under_headings None denial_kinds ≡ₚ (λ key, (Some (key_domain_id key), key)) <$> keys ∧
  placed_offsets (under_headings None denial_kinds) = [(Some 2, 2); (Some 2, 2); (Some 4, 4)].
Proof.
  destruct (lists_show_everything map_to_list sample_values map_to_list (λ m, reflexivity _) (λ m, reflexivity _)
    (λ m, reflexivity _) denials_stream None) as (H1 & _ & H3 & _).
  split; [exact H1|]. split; [exact H3|]. vm_compute. reflexivity.
Defined.

(** The last domain is selected; the second row is two presses of Up away. *)
Definition sample_selected : App := select (RowDomain (mkLandlockId (MIN_LANDLOCK_ID + 5))) app_new.

Lemma keyboard_reaches_rows_witness :
  ∃ code n, (code = Up ∨ code = Down) ∧ ∀ areas, length areas = n →
    ∃ a', press map_to_list sample_values map_to_list (λ _ : unit, EmptyString) code areas sample_selected sample_model = Some a' ∧
      selected a' = Some (RowDomain (mkLandlockId (MIN_LANDLOCK_ID + 4))).
Proof.
  apply (keyboard_reaches_rows map_to_list sample_values map_to_list (λ m, reflexivity _) (λ m, reflexivity _)
    (λ m, reflexivity _) (λ _ : unit, EmptyString) tree_stream sample_selected);
    [discriminate|vm_compute; reflexivity| |reflexivity].
  apply (bool_decide_eq_true_1 _). vm_compute. reflexivity.
Defined.

Lemma click_selects_drawn_witness :
  let rows := domain_rows sample_values map_to_list sample_model None in
  let a' := (draw_list sample_area app_new rows).1 in
  click_row 5 (0 + 1 + 1) a' = select (RowDomain (mkLandlockId (MIN_LANDLOCK_ID + 2))) a'.
Proof.
  destruct (click_selects_drawn sample_area app_new (domain_rows sample_values map_to_list sample_model None) 5 1)
    as [_ Hclick]; [by vm_compute|by vm_compute|by vm_compute|by vm_compute|by vm_compute|].
  etransitivity; [exact Hclick|]. vm_compute. reflexivity.
Defined.

Definition sample_scrolled : App :=
  with_hit (mkHitMap rect_default (mkRect 0 10 10 6) (replicate 20 Heading) 1) app_new.

Lemma drag_scrollbar_bounds_witness :
  scroll (drag_scrollbar 12 sample_scrolled) = 5 ∧ scroll (drag_scrollbar 12 sample_scrolled) <= 20 - 4 ∧
  scroll (drag_scrollbar 12 sample_scrolled) <= scroll (drag_scrollbar 14 sample_scrolled).
Proof.
  destruct (drag_scrollbar_bounds 12 14 sample_scrolled) as (H1 & _ & _ & H4);
    [by vm_compute|by vm_compute|by vm_compute|by vm_compute|].
  split; [reflexivity|]. split; [exact H1|]. apply H4. lia.
Defined.

(** On a terminal without mouse support the tree is received, then [q] is
    pressed. *)
Definition sample_session : list (CycleInput (T := Modes) (BpfError := unit) (IoError := unit)) :=
  [mkCycleInput (Err Timeout) ((Ok <$> tree_stream) ++ [Err TryEmpty]) sample_area (λ _ t, (t, Ok ())) (Ok None);
   mkCycleInput (Err Timeout) [Err TryEmpty] sample_area (λ _ t, (t, Ok ())) (Ok (Some (KeyPress (Char 113))))].

Lemma tui_run_restores_witness :
  ∃ t' r, tui_run (λ _ : unit, EmptyString) map_to_list sample_values map_to_list (λ t, (t, Ok ())) sample_session
      modes_off = Some (t', r) ∧ modes (IoError := unit) t' = modes_off.
Proof.
  apply (tui_run_restores (λ _ : unit, EmptyString) map_to_list sample_values map_to_list (λ t, (t, Ok ()))
    sample_session modes_off); [|reflexivity|by intros t| |].
  - split; [|split]; intros t; eexists; reflexivity.
  - apply Forall_cons_2; [|apply Forall_cons_2; [|apply Forall_nil_2]].
    + split; [right|intros ws t; reflexivity]. apply Exists_app. right. apply Exists_cons. left. reflexivity.
    + split; [right|intros ws t; reflexivity]. apply Exists_cons. left. reflexivity.
  - unfold sample_session. apply Exists_cons. right. apply Exists_cons. left. reflexivity.
Defined.

Lemma drain_spec_witness :
  ∃ d, drain_ready_events (λ _ : unit, EmptyString) map_to_list ((Ok <$> tree_stream) ++ [Err TryEmpty]) app_new
      model_new = Some d ∧
    ∃ used, (Ok <$> tree_stream) ++ [Err TryEmpty] = used ++ drained_rest d ∧
      drained_model d = model_observe_all map_to_list model_new (events_of used) ∧
      drain_end 0 used (drained_result d).
Proof.
  destruct (drain_spec (λ _ : unit, EmptyString) map_to_list ((Ok <$> tree_stream) ++ [Err TryEmpty]) app_new model_new)
    as (Hreturns & Hspec & _).
  destruct Hreturns as [d Hd]; [right; apply Exists_app; right; apply Exists_cons; left; reflexivity|].
  exists d. split; [exact Hd|]. destruct (Hspec d Hd) as (used & H1 & H2 & _ & _ & H5). exists used. auto.
Defined.
End samples.
