(* ===== verification/Pipeline.v ===== *)
(** * From the kernel to the terminal

    The components put together: the BPF programs write records, the worker
    decodes them and queues what it decoded, the consumer receives in the
    steps of the interleaved system, and batch mode prints. *)

From S2P Require Import Prelude CapturedBytes Event Wire Bpf BpfSpec State Aggregate Collector CollectorSystem CollectorTheorems Deadline Text Batch Errors Main MainSpec.

Section pipeline.
Context (E : endian) `{HelperLaws} {BpfError : Type} (display_bpf : BpfError → string).
Variable iter : gmap DenialKey AggregatedDenial → list Entry.

Abbreviation Label := (@Label BpfError).
Abbreviation Answer := (result Event (ReceiveTimeoutError (BpfError := BpfError))).

(** ** What happened in the kernel *)

Record Occurrence := mkOccurrence {
  oc_context : BpfContext;
  oc_tracepoint : Tracepoint;
  oc_event : Event;
}.

(** The tracepoint was reached with room in the ring, and the event is the one
    that took place. *)
Definition recorded (o : Occurrence) : Prop :=
  ring_has_room (oc_context o) = true ∧ context_ok (oc_context o) ∧
  event_of (oc_context o) (oc_tracepoint o) = Some (oc_event o) ∧ event_valid (oc_event o).

(** The sample the ring buffer then holds. *)
Definition sample_data (o : Occurrence) : list byte :=
  match run_program E (oc_context o) (oc_tracepoint o) with
  | Submitted record => record
  | _ => []
  end.

Lemma recorded_decoded o : recorded o → decoded (BpfError := BpfError) E (sample_data o) = Ok (oc_event o).
Proof.
  intros (Hr & Hc & He & Hv). destruct (program_decodes E _ _ _ Hr Hc He Hv) as (record & Hp & Hd).
  unfold sample_data, decoded. by rewrite Hp, Hd.
Qed.

(** The events that the queue accepted. *)
Definition accepted_events (occurrences : list Occurrence) (flags : list bool) : list Event :=
  omap (λ x : Occurrence * bool, if x.2 then Some (oc_event x.1) else None) (zip occurrences flags).

(** ** Events in the account of a run *)

Lemma account_events b (h : list (@Delivery BpfError * bool)) :
  omap ok (account b h) = omap (λ x : Delivery * bool, if x.2 then ok x.1 else None) h.
Proof.
  revert b. induction h as [|[d []] h IH]; intros b; csimpl; [done| |apply IH].
  rewrite omap_app. csimpl. rewrite IH. by destruct b, d.
Qed.

Lemma recorded_account os (h : list (@Delivery BpfError * bool)) :
  Forall recorded os → h.*1 = decoded E ∘ sample_data <$> os →
  omap (λ x : Delivery * bool, if x.2 then ok x.1 else None) h = accepted_events os h.*2.
Proof.
  unfold accepted_events. intros Ho. revert h. induction Ho as [|o os Ho Hos IH]; intros [|[d b] h] Hh; simplify_eq/=; [done|].
  csimpl. rewrite recorded_decoded by done. rewrite IH by done. by destruct b.
Qed.

Definition is_answer (a : Answer) : bool := match a with Err Timeout => false | _ => true end.

Lemma answers_events (answers : list Answer) (tr : list Label) :
  filter (λ a, is_answer a = true) answers = omap label_answer tr →
  omap ok answers = omap ok (received tr).
Proof.
  intros Ha. trans (omap ok (filter (λ a, is_answer a = true) answers)).
  { clear Ha. induction answers as [|a answers IH]; [done|]. rewrite filter_cons.
    destruct a as [e|[|error]]; csimpl; by rewrite IH. }
  rewrite Ha. clear Ha. unfold received. induction tr as [|l tr IH]; [done|]. destruct l as [| | | |[]| |]; csimpl; by rewrite ?IH.
Qed.

(** A receive that ends with the worker's end leaves the collector in use. *)
Lemma terminal_label_idle capacity tr l (s : @System BpfError) e :
  reaches E capacity (tr ++ [l]) s → label_terminal l = Some e → consumer_point s = Idle.
Proof.
  intros Hr Hl. inversion Hr as [Hn|tr' s0 l' s' Hr0 Hs Ht]; [by destruct tr|].
  apply app_inj_tail in Ht as [-> ->]. inversion Hs; subst; simpl in *; try done.
  unfold sample_label in Hl. by repeat case_match.
Qed.

(** ** Output of a run *)

Lemma run_output capacity tr l s e os before :
  Forall recorded os → reaches E capacity (tr ++ [l]) s → (samples tr).*1 = decoded E ∘ sample_data <$> os →
  label_terminal l = Some e → terminal_kind (error_kind_of e) = true →
  filter (λ a, is_answer a = true) before = omap label_answer tr → Forall (λ a, goes_on a = true) before →
  run_batch display_bpf write_all_lines flush_lines iter (before ++ [Err (TimeoutCollector e)]) [] [] =
    Some (mkBatchEnd (process_all iter batch_new (omap ok before)).2 (READY_SIGNAL :: omap (warning_of display_bpf) before)
            (BatchCollector e)) ∧
  omap ok before ++ omap ok (owed s) = accepted_events os (samples tr).*2.
Proof.
  intros Ho Hr Hs Hl He Hb Hg.
  split; [exact (batch_loop_lines display_bpf iter before e [] batch_new [] [READY_SIGNAL] Hg He)|].
  pose proof (terminal_label_idle _ _ _ _ _ Hr Hl) as Hi. apply reaches_invariant, inv_owed in Hr; [|by rewrite Hi].
  rewrite received_snoc, samples_snoc in Hr.
  assert (got_of l = None ∧ sample_of l = None) as [Hgot Hsample] by by destruct l.
  rewrite Hgot, Hsample, !app_nil_r in Hr. rewrite (answers_events before tr) by done.
  rewrite <- omap_app. etrans; [exact (f_equal (omap ok) Hr)|]. rewrite account_events. by apply recorded_account.
Qed.

(** C6: end to end. Whatever the interleaving of worker and consumer and
    wherever the receives time out: when the samples of a run are what the BPF
    programs wrote, batch mode ends with the failure that ended the run, and
    what it printed are the lines of a sequence of events which, followed by
    the events still buffered, is the sequence of events that took place in
    the kernel less those the full queue omitted, in order. *)
Theorem kernel_to_output capacity tr l s e os before :
  Forall recorded os → reaches E capacity (tr ++ [l]) s → (samples tr).*1 = decoded E ∘ sample_data <$> os →
  label_terminal l = Some e → terminal_kind (error_kind_of e) = true →
  filter (λ a, is_answer a = true) before = omap label_answer tr → Forall (λ a, goes_on a = true) before →
  ∃ printed,
    run_batch display_bpf write_all_lines flush_lines iter (before ++ [Err (TimeoutCollector e)]) [] [] =
      Some (mkBatchEnd (process_all iter batch_new printed).2 (READY_SIGNAL :: omap (warning_of display_bpf) before)
              (BatchCollector e)) ∧
    printed ++ omap ok (owed s) = accepted_events os (samples tr).*2.
Proof. intros. exists (omap ok before). by eapply run_output. Qed.

(** ** Nothing is left behind a disconnected channel *)

Definition drained (s : @System BpfError) : Prop :=
  senders_match (shared s) (worker s) ∧ pending_delivery (consumer s) = None ∧
  ch_queue (deliveries (shared s)) = [] ∧ ch_senders (deliveries (shared s)) = false.

Lemma drained_step s l s' : step E s l s' → drained s → drained s'.
Proof.
  intros Hs (Hm & Hp & Hq & Hd). split; [by eapply senders_step|]. destruct Hm as [Hm _]. rewrite Hd in Hm.
  destruct Hs as [| | | | | | | | | | | | | |s w ch entry Hc| | | | | |]; simpl in *; try done.
  unfold chan_recv in Hc. by rewrite Hq, Hd in Hc.
Qed.

Lemma drained_steps s tr s' : steps E s tr s' → drained s → drained s'.
Proof. induction 1; [done|]. intros. eauto using drained_step. Qed.

Lemma drained_owed s : drained s → owed s = [].
Proof. intros (_ & Hp & Hq & _). unfold owed. by rewrite Hp, Hq. Qed.

(** C7: nothing is lost at the end. When the consumer has found the delivery
    channel disconnected and nothing is held back, everything the queue
    accepted has been printed: the lines of batch mode are those of the events
    that took place less the omitted ones, all of them, when the run ends. *)
Theorem kernel_to_output_complete capacity tr0 s0 tr1 tr l s e os before :
  Forall recorded os → reaches E capacity tr0 s0 →
  pending_delivery (consumer s0) = None → (chan_recv (deliveries (shared s0))).2 = RecvDisconnected →
  steps E s0 tr1 s → tr0 ++ tr1 = tr ++ [l] → (samples tr).*1 = decoded E ∘ sample_data <$> os →
  label_terminal l = Some e → terminal_kind (error_kind_of e) = true →
  filter (λ a, is_answer a = true) before = omap label_answer tr → Forall (λ a, goes_on a = true) before →
  run_batch display_bpf write_all_lines flush_lines iter (before ++ [Err (TimeoutCollector e)]) [] [] =
    Some (mkBatchEnd (process_all iter batch_new (accepted_events os (samples tr).*2)).2
            (READY_SIGNAL :: omap (warning_of display_bpf) before) (BatchCollector e)).
Proof.
  intros Ho Hr Hp Hd Hs Heq Hsm Hl He Hb Hg. assert (drained s0) as Hdr.
  { split; [by eapply reaches_senders|]. unfold chan_recv in Hd. destruct (ch_queue _); [|done].
    split_and!; [done..|]. by destruct (ch_senders _). }
  assert (reaches E capacity (tr ++ [l]) s) as Hrs by (rewrite <- Heq; by eapply reaches_steps).
  destruct (run_output capacity tr l s e os before) as [Hrun Hacc]; [done..|].
  rewrite (drained_owed s), app_nil_r in Hacc by by eapply drained_steps. by rewrite Hrun, Hacc.
Qed.
End pipeline.

(** ** One denial, then a poll that fails *)

Definition received_trace (data : list byte) : list (@Label unit) :=
  [Internal; Internal; Accepted (decoded Little data); Got (decoded Little data)].
Definition pipeline_trace (data : list byte) : list (@Label unit) :=
  received_trace data ++ [Internal; Announced (poll_failure ()); Internal; Internal].

Definition pipeline_received : @System unit := mkSystem (shared_new 1) InPoll (mkConsumer None) Idle.
Definition pipeline_disconnected : @System unit :=
  mkSystem (mkShared (mkChan 1 [] false true) (mkChan 3 [poll_failure ()] true true) true false None)
    (Caught None) (mkConsumer None) Idle.
Definition pipeline_end : @System unit :=
  mkSystem (mkShared (mkChan 1 [] false true) (mkChan 3 [] true true) true false None)
    (Caught None) (mkConsumer None) Idle.

Lemma received_reached data : reaches Little 1 (received_trace data) pipeline_received.
Proof.
  pose proof (reach_new (BpfError := unit) Little 1) as H0.
  eapply reach_step in H0; [|by apply w_enter].
  eapply reach_step in H0; [|by apply (w_callback Little _ _ _ data)].
  eapply reach_step in H0; [|apply w_sample].
  eapply reach_step in H0; [|eapply c_received; reflexivity].
  exact H0.
Qed.

Lemma pipeline_reached data : reaches Little 1 (pipeline_trace data) pipeline_disconnected.
Proof.
  eapply reaches_steps; [apply received_reached|].
  eapply steps_cons; [exact (w_poll_return Little (shared_new 1) (mkConsumer None) Idle (Err ()))|].
  eapply steps_cons; [apply w_report|]. eapply steps_cons; [apply w_reported|].
  eapply steps_cons; [apply w_drop_deliveries|constructor].
Qed.

Lemma pipeline_steps : steps Little pipeline_disconnected [Internal; GotTerminal (poll_failure ())] pipeline_end.
Proof.
  eapply steps_cons; [eapply c_not_received; right; reflexivity|].
  eapply steps_cons; [eapply c_terminal; reflexivity|constructor].
Qed.

Lemma pipeline_answers data e timeouts :
  decoded (BpfError := unit) Little data = Ok e → Forall (λ a, a = Err Timeout) timeouts →
  filter (λ a, is_answer a = true) (Ok e :: timeouts) = omap label_answer (pipeline_trace data ++ [Internal]).
Proof.
  intros Hd Ht. simpl. rewrite Hd, filter_cons. simpl. f_equal. by induction Ht as [|a timeouts -> Ht IH]; rewrite ?filter_cons.
Qed.

#[local] Existing Instance memory_helpers.
#[local] Existing Instance memory_laws.

Lemma the_denial_recorded : ∃ e, recorded (mkOccurrence the_context (the_denial (Some (mkPid 42))) e).
Proof.
  destruct the_denial_event as (e & He & Hv & _). exists (DenyAccessFs e).
  split_and!; [done|apply the_context_ok|done|done].
Qed.

Lemma kernel_to_output_witness :
  ∃ e printed,
    run_batch (λ _ : unit, EmptyString) write_all_lines flush_lines map_to_list
      [Ok e; Err Timeout; Err (TimeoutCollector (poll_failure ()))] [] [] =
      Some (mkBatchEnd (process_all map_to_list batch_new printed).2 [READY_SIGNAL] (BatchCollector (poll_failure ()))) ∧
    printed = [e].
Proof.
  destruct the_denial_recorded as [e He]. exists e. set (o := mkOccurrence _ _ _) in He.
  pose proof (recorded_decoded (BpfError := unit) Little o He) as Hd.
  destruct (kernel_to_output Little (λ _ : unit, EmptyString) map_to_list 1
    (pipeline_trace (sample_data Little o) ++ [Internal]) (GotTerminal (poll_failure ())) pipeline_end (poll_failure ())
    [o] [Ok e; Err Timeout]) as (printed & Hr & Hp).
  - by constructor.
  - rewrite <- app_assoc. exact (reaches_steps Little 1 _ _ _ _ (pipeline_reached _) pipeline_steps).
  - reflexivity.
  - reflexivity.
  - reflexivity.
  - apply (pipeline_answers _ e [Err Timeout] Hd). by repeat constructor.
  - by repeat constructor.
  - exists printed. split; [exact Hr|]. by rewrite app_nil_r in Hp.
Defined.

Lemma kernel_to_output_complete_witness :
  ∃ e,
    run_batch (λ _ : unit, EmptyString) write_all_lines flush_lines map_to_list
      [Ok e; Err (TimeoutCollector (poll_failure ()))] [] [] =
      Some (mkBatchEnd (process_all map_to_list batch_new [e]).2 [READY_SIGNAL] (BatchCollector (poll_failure ()))).
Proof.
  destruct the_denial_recorded as [e He]. exists e. set (o := mkOccurrence _ _ _) in He.
  pose proof (recorded_decoded (BpfError := unit) Little o He) as Hd.
  apply (kernel_to_output_complete Little (λ _ : unit, EmptyString) map_to_list 1 (pipeline_trace (sample_data Little o))
    pipeline_disconnected [Internal; GotTerminal (poll_failure ())] (pipeline_trace (sample_data Little o) ++ [Internal])
    (GotTerminal (poll_failure ())) pipeline_end (poll_failure ()) [o] [Ok e]).
  - by constructor.
  - apply pipeline_reached.
  - reflexivity.
  - reflexivity.
  - exact pipeline_steps.
  - reflexivity.
  - reflexivity.
  - reflexivity.
  - reflexivity.
  - apply (pipeline_answers _ e [] Hd). by constructor.
  - by repeat constructor.
Defined.
