(* ===== verification/Session.v ===== *)
(** * Sessions of the interactive view (lltop/src/tui/mod.rs)

    A session is a sequence of cycles with everything it took from the
    collector. What is selected at the end of a cycle was observed, and is a row
    of the list unless it is a denial that was evicted. *)

From S2P Require Import Prelude Lattice CapturedBytes Event State StateWf StateHistory StateTheorems Aggregate AggregateSpec Collector Text Utf8 Display TuiFormat Batch BatchCount Model ModelSpec ModelTheorems Ui UiRows UiDraw Errors Tui UiSpec RowsSpec TuiSpec TuiTheorems.

(** What may be selected on a tab after a stream: what the stream observed. *)
Definition observed_on (events : list Event) (t : Tab) (kind : RowKind) : Prop :=
  match t, kind with
  | Domains, RowDomain id => is_Some (domains (replay state_new events) !! id)
  | Rulesets, RowRuleset id => is_Some (rulesets (replay state_new events) !! id)
  | Denials, RowDenialDomain id => ∃ key, key ∈ keys_of events ∧ key_domain_id key = id
  | Denials, RowDenial key => key ∈ keys_of events
  | _, _ => False
  end.

Lemma observed_on_app events events' t kind : observed_on events t kind → observed_on (events ++ events') t kind.
Proof.
  assert (replay state_new (events ++ events') = replay (replay state_new events) events') as Hr
    by (unfold replay; apply foldl_app).
  pose proof (replay_le (replay state_new events) events') as Hle. rewrite <- Hr in Hle.
  assert (∀ key, key ∈ keys_of events → key ∈ keys_of (events ++ events')) as Hk.
  { intros key Hk. unfold keys_of. rewrite omap_app. apply elem_of_app. by left. }
  destruct t, kind; simpl; try done.
  - by apply view_le_domain.
  - intros (key & Hkey & <-). eauto.
  - auto.
  - by apply view_le_ruleset.
Qed.

Section session.
Context `{Unicode} `{Ratatui} {T BpfError IoError : Type} (display_bpf : BpfError → string).
Variable iter : gmap DenialKey AggregatedDenial → list Entry.
Variable iter_state : gmap DomainId DomainState → list DomainState.
Variable iter_known : gmap DomainId DomainState → list (DomainId * DomainState).

Abbreviation Delivery := (@Delivery BpfError).
Abbreviation CycleInput := (CycleInput (T := T) (BpfError := BpfError) (IoError := IoError)).

(** What the collector gave in an answer, if anything. *)
Definition timeout_delivery (answer : result Event (ReceiveTimeoutError (BpfError := BpfError))) : option Delivery :=
  match answer with
  | Ok event => Some (Ok event)
  | Err Timeout => None
  | Err (TimeoutCollector error) => Some (Err error)
  end.

Definition try_delivery (answer : result Event (TryReceiveError (BpfError := BpfError))) : option Delivery :=
  match answer with
  | Ok event => Some (Ok event)
  | Err TryEmpty => None
  | Err (TryCollector error) => Some (Err error)
  end.

(** What one cycle takes from the collector: nothing while it is paused, else
    the first answer and those that draining asks for. *)
Definition taken_by (i : CycleInput) (a : App) (m : ObservationModel) : list Delivery :=
  if paused a then []
  else
    option_list (timeout_delivery (in_first i)) ++
    match receive_first display_bpf iter (in_first i) a m with
    | Err _ => []
    | Ok (a, m) =>
        match drain_ready_events display_bpf iter (in_answers i) a m with
        | None => []
        | Some d => omap try_delivery (take (length (in_answers i) - length (drained_rest d)) (in_answers i))
        end
    end.

(** The cycles of a session, with all it took. *)
Inductive session : list Delivery → App → ObservationModel → Prop :=
| session_start : session [] app_new model_new
| session_cycle taken i a m t t' a' m' :
    session taken a m → cycle display_bpf iter iter_state iter_known i a m t = Some (t', Continue a' m') →
    session (taken ++ taken_by i a m) a' m'.

Lemma model_observe_all_app m es es' :
  model_observe_all iter (model_observe_all iter m es) es' = model_observe_all iter m (es ++ es').
Proof. unfold model_observe_all. by rewrite foldl_app. Qed.

Lemma receive_first_model answer a m a' m' :
  receive_first display_bpf iter answer a m = Ok (a', m') →
  m' = model_observe_all iter m (omap ok (option_list (timeout_delivery answer))).
Proof.
  unfold receive_first, handle_collector_error. destruct answer as [event|[|e]]; simpl; [by intros [= _ <-]..|].
  destruct (recoverable_collector_error _); [by intros [= _ <-]|done].
Qed.

Lemma try_events (answers : list (result Event TryReceiveError)) :
  omap ok (omap try_delivery answers) = events_of answers.
Proof. unfold events_of. induction answers as [|[event|[|e]] answers IH]; csimpl; by rewrite ?IH. Qed.

Lemma draw_and_handle_model (i : CycleInput) a m t t' a' m' :
  draw_and_handle iter iter_state iter_known i a m t = (t', Continue a' m') → m' = m.
Proof.
  unfold draw_and_handle. destruct (draw _ _ _ _ a m) as [a1 ws]. destruct (in_write_frame i ws t) as [t1 [?|?]]; [|done].
  destruct (in_event i) as [[input|]|]; [|by intros [= _ _ <-]|done]. by destruct (handle_input m input a1); intros [= _ _ <-].
Qed.

Lemma cycle_model (i : CycleInput) a m t t' a' m' :
  cycle display_bpf iter iter_state iter_known i a m t = Some (t', Continue a' m') →
  m' = model_observe_all iter m (omap ok (taken_by i a m)).
Proof.
  unfold cycle, taken_by. destruct (paused a).
  { intros [= Hc]. by apply draw_and_handle_model in Hc. }
  destruct (receive_first display_bpf iter (in_first i) a m) as [[a1 m1]|e] eqn:Hf; [|done].
  apply receive_first_model in Hf as ->.
  destruct (drain_ready_events display_bpf iter (in_answers i) a1 _) as [d|] eqn:Hd; [|done]. simpl.
  apply drain_run in Hd as (used & Hu & Hm & _); [|done]. destruct (drained_result d); [|done].
  intros [= Hc]. apply draw_and_handle_model in Hc as ->. rewrite Hm, model_observe_all_app, omap_app.
  do 3 f_equal. rewrite Hu, length_app, Nat.add_sub, take_app_length. by rewrite try_events.
Qed.

Lemma session_model taken a m : session taken a m → m = model_after iter (omap ok taken).
Proof.
  induction 1 as [|taken i a m t t' a' m' _ IH Hc]; [done|]. apply cycle_model in Hc as ->. rewrite IH at 1.
  unfold model_after. rewrite model_observe_all_app, omap_app. reflexivity.
Qed.

(** *** What can be selected *)

Hypothesis iter_enumerates : ∀ m, iter m ≡ₚ map_to_list m.
Hypothesis iter_state_enumerates : ∀ m, iter_state m ≡ₚ (map_to_list m).*2.
Hypothesis iter_known_enumerates : ∀ m, iter_known m ≡ₚ map_to_list m.

(** A retained denial was observed. *)
Lemma retained_observed events key :
  key ∈ (map_to_list (agg_entries (observe_all iter aggregator_new events))).*1 → key ∈ keys_of events.
Proof.
  intros ([k e] & -> & He%elem_of_map_to_list)%list_elem_of_fmap. simpl.
  apply retained_in_keys with (c := DEFAULT_CAPACITY) (iter := iter); [done|done|by exists e].
Qed.

Lemma retained_row events sel key :
  is_Some (model_denial (model_after iter events) key) →
  RowDenial key ∈ row_kind <$> denial_rows iter (model_after iter events) sel.
Proof.
  intros [e He]. assert (key ∈ omap denial_of (row_kind <$> denial_rows iter (model_after iter events) sel)) as Hk.
  { rewrite denial_row_keys, model_denial_keys by done. apply list_elem_of_fmap. exists (key, e). split; [done|].
    apply elem_of_map_to_list. unfold model_denial, aggregator_get in He. by rewrite model_after_denials in He. }
  apply list_elem_of_omap in Hk as (kind & Hkind & Hd). by destruct kind; simplify_eq/=.
Qed.

Lemma elem_of_omap_Some {A B} (f : A → option B) (l : list A) x y : x ∈ l → f x = Some y → y ∈ omap f l.
Proof. intros Hx Hf. apply list_elem_of_omap. by exists x. Qed.

Lemma rows_observed events a kind :
  kind ∈ row_kind <$> rows_of iter iter_state iter_known a (model_after iter events) → selectable kind = true →
  observed_on events (tab a) kind.
Proof.
  destruct (lists_show_everything iter iter_state iter_known iter_enumerates iter_state_enumerates iter_known_enumerates
    events (selected a)) as (Hd & Hr & Hk & Hh).
  pose proof (rows_of_kinds iter iter_state iter_known a (model_after iter events)) as Hkind.
  intros Hin Hs. assert (kind_of_tab (tab a) kind = true) as Hkt.
  { apply list_elem_of_fmap in Hin as (row & -> & Hrow). rewrite Forall_forall in Hkind. by apply Hkind. }
  clear Hkind.
  unfold rows_of in Hin. destruct (tab a), kind; try done; simpl.
  - rewrite Hd in Hin. apply list_elem_of_fmap in Hin as (? & [= <-] & ([? d] & -> & Hi%elem_of_map_to_list)%list_elem_of_fmap).
    by eexists.
  - apply (elem_of_omap_Some denial_domain_of _ _ id) in Hin; [|done]. rewrite Hh, elem_of_remove_dups in Hin.
    apply list_elem_of_fmap in Hin as (key & -> & Hkey). exists key. split; [by apply retained_observed|done].
  - apply (elem_of_omap_Some denial_of _ _ key) in Hin; [|done].
    rewrite <- (under_headings_snd None), Hk, <- list_fmap_compose in Hin.
    apply list_elem_of_fmap in Hin as (key' & -> & Hkey). by apply retained_observed.
  - rewrite Hr in Hin. apply list_elem_of_fmap in Hin as (? & [= <-] & ([? d] & -> & Hi%elem_of_map_to_list)%list_elem_of_fmap).
    by eexists.
Qed.

Lemma rulesets_observed events id ruleset :
  domain (model_state (model_after iter events)) id ≫= domain_ruleset = Some ruleset →
  observed_on events Rulesets (RowRuleset ruleset).
Proof.
  rewrite model_after_state. unfold domain, domain_ruleset. intros (d & Hd & (rv & Hrv & ->)%fmap_Some)%bind_Some. simpl.
  destruct (swf_refs _ (replay_wf _ events state_new_wf) id d Hd) as (_ & Hr).
  destruct (Hr rv Hrv) as (r & -> & _). by eexists.
Qed.

Lemma draw_and_handle_ok events (i : CycleInput) a m t t' a' m' :
  m = model_after iter events → app_ok (observed_on events) a →
  draw_and_handle iter iter_state iter_known i a m t = (t', Continue a' m') → app_ok (observed_on events) a'.
Proof.
  intros -> Ha. unfold draw_and_handle.
  destruct (draw_state iter iter_state iter_known (in_area i) a (model_after iter events)) as (Ht & Hs & Hd & _ & Hh).
  destruct (draw iter iter_state iter_known (in_area i) a _) as [a1 ws]. simpl in *.
  assert (app_ok (observed_on events) a1) as Ha1 by (unfold app_ok in *; by rewrite Ht, Hs, Hd).
  destruct (in_write_frame i ws t) as [t1 [?|?]]; [|done].
  destruct (in_event i) as [[input|]|]; [|by intros [= _ <- _]|done].
  destruct (handle_input _ input a1) as [a2|] eqn:Hi; [|done]. intros [= _ <- _].
  eapply handle_input_ok; [..|exact Hi]; [apply rulesets_observed|done|].
  intros kind Hk Hsel. rewrite Ht. apply rows_observed; [by apply Hh|done].
Qed.

Lemma foldl_warn_ok known a answers : app_ok known a → app_ok known (foldl (warn display_bpf) a answers).
Proof.
  revert a. induction answers as [|x answers IH]; intros a Ha; [done|]. apply IH. unfold warn.
  by repeat case_match.
Qed.

Lemma receive_first_ok known answer a m a' m' :
  receive_first display_bpf iter answer a m = Ok (a', m') → app_ok known a → app_ok known a'.
Proof.
  unfold receive_first, handle_collector_error. destruct answer as [event|[|e]]; simpl; [by intros [= <- _]..|].
  destruct (recoverable_collector_error _); [|done]. by intros [= <- _].
Qed.

(** A cycle receives, and then draws the model it leaves. *)
Lemma cycle_draws (i : CycleInput) a m t t' a' m' :
  cycle display_bpf iter iter_state iter_known i a m t = Some (t', Continue a' m') →
  ∃ a1, draw_and_handle iter iter_state iter_known i a1 m' t = (t', Continue a' m') ∧
    ∀ known, app_ok known a → app_ok known a1.
Proof.
  unfold cycle. destruct (paused a).
  { intros [= Hc]. pose proof (draw_and_handle_model _ _ _ _ _ _ _ Hc) as ->. eauto. }
  destruct (receive_first display_bpf iter (in_first i) a m) as [[a1 m1]|e] eqn:Hf; [|done].
  destruct (drain_ready_events display_bpf iter (in_answers i) a1 _) as [d|] eqn:Hd; [|done]. simpl.
  apply drain_run in Hd as (used & _ & _ & Hda & _); [|done]. destruct (drained_result d); [|done].
  intros [= Hc]. pose proof (draw_and_handle_model _ _ _ _ _ _ _ Hc) as Hm. rewrite Hm. exists (drained_app d).
  rewrite Hm in Hc. split; [done|]. intros known Ha. rewrite Hda. apply foldl_warn_ok. by eapply receive_first_ok.
Qed.

Lemma session_ok taken a m : session taken a m → app_ok (observed_on (omap ok taken)) a.
Proof.
  induction 1 as [|taken i a m t t' a' m' Hs IH Hc]; [by split|].
  assert (session (taken ++ taken_by i a m) a' m') as Hs' by by eapply session_cycle.
  apply session_model in Hs'. apply cycle_draws in Hc as (a1 & Hd & Ha). eapply draw_and_handle_ok; [exact Hs'| |exact Hd].
  apply Ha. destruct IH as [Hsel Hdet]. split; [|done]. intros kind Hk%Hsel. rewrite omap_app. by apply observed_on_app.
Qed.

(** C16: in every session, at the end of every cycle, the model is that of
    exactly the events that the session took from the collector. Details are
    open only for a selection. The selection of the domains and of the rulesets
    is a row of the list; nothing is selected in the statistics; the selection
    of the denials is a denial that was taken, or the domain of one: when it is
    still retained it is a row of the list, and when it was evicted the details
    say so. *)
Theorem session_invariant taken a m :
  session taken a m →
  m = model_after iter (omap ok taken) ∧
  (detail a = true → is_Some (selected a)) ∧
  ∀ kind, selected a = Some kind →
    match tab a with
    | Domains | Rulesets => kind ∈ row_kind <$> rows_of iter iter_state iter_known a m
    | TabStats => False
    | Denials =>
        (∃ key, key ∈ keys_of (omap ok taken) ∧ (kind = RowDenial key ∨ kind = RowDenialDomain (key_domain_id key))) ∧
        ∀ key, kind = RowDenial key →
          if decide (is_Some (model_denial m key)) then kind ∈ row_kind <$> rows_of iter iter_state iter_known a m
          else ∀ width, detail_lines a m width = [[(lit "Selection no longer retained", theme.unknown)]]
    end.
Proof.
  intros Hs. pose proof (session_ok _ _ _ Hs) as [Hok Hdet]. apply session_model in Hs as ->. split; [done|]. split; [done|].
  intros kind Hk. specialize (Hok kind Hk).
  destruct (lists_show_everything iter iter_state iter_known iter_enumerates iter_state_enumerates iter_known_enumerates
    (omap ok taken) (selected a)) as (Hd & Hr & Hkeys & _).
  unfold rows_of. destruct (tab a); destruct kind as [id|id|key|id|]; try done; simpl in Hok.
  - rewrite Hd. apply list_elem_of_fmap_2. destruct Hok as [d Hd']. apply list_elem_of_fmap. exists (id, d).
    by rewrite elem_of_map_to_list.
  - split; [|done]. destruct Hok as (key & Hkey & <-). eauto.
  - split; [eauto|]. intros ? [= <-]. case_decide as Hret.
    + by apply retained_row.
    + intros width. unfold detail_lines, detail_fields. rewrite Hk. by destruct (model_denial _ key); [destruct Hret|].
  - rewrite Hr. apply list_elem_of_fmap_2. destruct Hok as [d Hd']. apply list_elem_of_fmap. exists (id, d).
    by rewrite elem_of_map_to_list.
Qed.
End session.

(** ** A session of one cycle *)

Section samples.
Import SampleUnicode SampleRatatui.

(** A cycle that receives the tree and in which Down is pressed. *)
Definition sample_cycle : CycleInput (T := unit) (BpfError := unit) (IoError := unit) :=
  mkCycleInput (Err Timeout) ((Ok <$> tree_stream) ++ [Err TryEmpty]) sample_area (λ _ t, (t, Ok ()))
    (Ok (Some (KeyPress Down))).

Lemma session_invariant_witness :
  ∃ a m, session (T := unit) (IoError := unit) (λ _ : unit, EmptyString) map_to_list sample_values map_to_list
      (Ok <$> tree_stream) a m ∧
    selected a = Some (RowDomain (mkLandlockId (MIN_LANDLOCK_ID + 1))) ∧ m = model_after map_to_list tree_stream ∧
    RowDomain (mkLandlockId (MIN_LANDLOCK_ID + 1)) ∈ row_kind <$> rows_of map_to_list sample_values map_to_list a m.
Proof.
  destruct (cycle (λ _ : unit, EmptyString) map_to_list sample_values map_to_list sample_cycle app_new model_new ())
    as [[t [a m| | | |]]|] eqn:Hc; [|by vm_compute in Hc..].
  assert (session (T := unit) (IoError := unit) (λ _ : unit, EmptyString) map_to_list sample_values map_to_list
    (Ok <$> tree_stream) a m) as Hs.
  { exact (session_cycle _ _ _ _ [] sample_cycle app_new model_new () t a m (session_start _ _ _ _) Hc). }
  assert ((λ a, (selected a, tab a)) <$> match cycle (λ _ : unit, EmptyString) map_to_list sample_values map_to_list sample_cycle
    app_new model_new () with Some (_, Continue a _) => Some a | _ => None end =
    Some (Some (RowDomain (mkLandlockId (MIN_LANDLOCK_ID + 1))), Domains)) as Hsel by (vm_compute; reflexivity).
  rewrite Hc in Hsel. injection Hsel as Hsel Htab.
  destruct (session_invariant (λ _ : unit, EmptyString) map_to_list sample_values map_to_list (λ m, reflexivity _)
    (λ m, reflexivity _) (λ m, reflexivity _) _ a m Hs) as (Hm & _ & Hrow).
  exists a, m. split; [exact Hs|]. split; [exact Hsel|]. split; [exact Hm|].
  specialize (Hrow _ Hsel). rewrite Htab in Hrow. exact Hrow.
Defined.
End samples.
