(* ===== verification/PipelineTui.v ===== *)
(** * From the kernel to the view

    The interactive mode on the answers of the collector: what the view shows
    after every cycle is what the events that took place in the kernel leave,
    less those that were omitted and those that are still buffered. *)

From S2P Require Import Prelude CapturedBytes Event Wire Bpf BpfSpec State Aggregate Collector CollectorSystem CollectorTheorems Deadline Text Batch Utf8 Display TuiFormat Model ModelSpec ModelTheorems Ui UiRows UiDraw Errors Main MainSpec Tui UiSpec TuiSpec Pipeline TuiTheorems Session.

Section view.
Context `{Unicode} `{Ratatui} {T BpfError IoError : Type} (display_bpf : BpfError → string).
Variable iter : gmap DenialKey AggregatedDenial → list Entry.
Variable iter_state : gmap DomainId DomainState → list DomainState.
Variable iter_known : gmap DomainId DomainState → list (DomainId * DomainState).

Abbreviation Delivery := (@Delivery BpfError).
Abbreviation Label := (@Label BpfError).

(** ** The view and the kernel *)

(** What a label of the interleaved system gives to its receiver. *)
Definition label_delivery (l : Label) : option Delivery :=
  match l with
  | Got d => Some d
  | _ => Err <$> label_terminal l
  end.

Lemma label_deliveries_events (tr : list Label) : omap ok (omap label_delivery tr) = omap ok (received tr).
Proof. unfold received. induction tr as [|[| | | |[]| |] tr IH]; csimpl; by rewrite ?IH. Qed.

(** C8: what the view shows took place. At the end of every cycle of every
    session, also one that was paused, when what the session took is what the
    receives of a run gave, in whatever interleaving, and the samples of the
    run are what the BPF programs wrote: the model is that of a sequence of
    events which, followed by the events still buffered, is the sequence of
    events that took place in the kernel less those the full queue omitted. *)
Theorem kernel_to_view (E : endian) `{HelperLaws} capacity tr (s : @System BpfError) os taken a m :
  session (T := T) (IoError := IoError) display_bpf iter iter_state iter_known taken a m →
  Forall recorded os → reaches E capacity tr s → is_gone (consumer_point s) = false →
  (samples tr).*1 = decoded E ∘ sample_data E <$> os → taken = omap label_delivery tr →
  ∃ events, m = model_after iter events ∧ events ++ omap ok (owed s) = accepted_events os (samples tr).*2.
Proof.
  intros Hs Ho Hr Hg Hsm ->. exists (omap ok (received tr)). apply session_model in Hs as ->.
  rewrite label_deliveries_events. split; [done|]. rewrite <- omap_app.
  apply reaches_invariant, inv_owed in Hr; [|done]. etrans; [exact (f_equal (omap ok) Hr)|].
  rewrite account_events. by eapply recorded_account.
Qed.
End view.

(** ** One denial, received in the first cycle *)

Section samples.
Import SampleUnicode SampleRatatui.
#[local] Existing Instance memory_helpers.
#[local] Existing Instance memory_laws.

Notation no_text := (λ _ : unit, EmptyString).

Definition denial_cycle (e : Event) : CycleInput (T := unit) (BpfError := unit) (IoError := unit) :=
  mkCycleInput (Ok e) [Err TryEmpty] sample_area (λ _ t, (t, Ok ())) (Ok None).

Lemma denial_session e :
  ∃ a m, session (T := unit) (IoError := unit) no_text map_to_list sample_values map_to_list [Ok e] a m.
Proof.
  destruct (draw map_to_list sample_values map_to_list sample_area app_new (model_observe map_to_list model_new e))
    as [a ws] eqn:Hd.
  exists a, (model_observe map_to_list model_new e).
  apply (session_cycle no_text map_to_list sample_values map_to_list [] (denial_cycle e) app_new model_new () ());
    [constructor|].
  trans (Some (draw_and_handle map_to_list sample_values map_to_list (denial_cycle e) app_new
    (model_observe map_to_list model_new e) ())); [done|].
  unfold draw_and_handle. cbn [in_area denial_cycle]. by rewrite Hd.
Qed.

Lemma kernel_to_view_witness :
  ∃ e a m events, session (T := unit) (IoError := unit) no_text map_to_list sample_values map_to_list [Ok e] a m ∧
    m = model_after map_to_list events ∧ events = [e].
Proof.
  destruct the_denial_recorded as [e He]. set (o := mkOccurrence _ _ _) in He.
  pose proof (recorded_decoded (BpfError := unit) Little o He) as Hd.
  destruct (denial_session e) as (a & m & Hs).
  destruct (kernel_to_view no_text map_to_list sample_values map_to_list Little 1 (received_trace (sample_data Little o))
    pipeline_received [o] [Ok e] a m Hs) as (events & Hm & Hev).
  - by constructor.
  - apply received_reached.
  - reflexivity.
  - reflexivity.
  - unfold received_trace. csimpl. by rewrite Hd.
  - exists e, a, m, events. split; [exact Hs|]. split; [exact Hm|]. by rewrite app_nil_r in Hev.
Defined.
End samples.

